(* ===== verification/_CoqProject ===== *)
-Q . S2P
Prelude.v
PoolPolicy.v
PolicyTests.v
Concurrency.v
Pool.v
PoolCorrect.v
PoolSafety.v
FairQueue.v
AsyncWaiter.v
Streams.v
StreamsCorrect.v
StreamSpec.v
Memory.v
Guards.v
GuardsCorrect.v
Cpu.v
CpuWatchdog.v
SignalTimers.v
CpuSlots.v
ObjectQueue.v
ObjectFrames.v
Scheduler.v
WebSockets.v
Timers.v
BodyStreams.v
WebApi.v
FetchApi.v
GuestSockets.v
Setup.v
CodeCache.v
Handlers.v
Dispatch.v
Gc.v
Traceable.v
Isolates.v
ExecutionContext.v
Turns.v
DurableObject.v
DurableObjectCorrect.v
ObjectSteps.v
Platform.v
PlatformCorrect.v
Worker.v
Readers.v
Natives.v
ObjectScript.v
Transactions.v
ObjectRuns.v
ObjectGates.v
EnvBindings.v
PlainBindings.v
Compression.v
TextEncoding.v
Loading.v
Rounds.v
Crypto.v
CryptoCorrect.v
SourceTests.v
