(* ===== verification/Prelude.v ===== *)
(** * openworkers-runtime-v8: a verification development

    The program under src/ runs JavaScript workers in V8 isolates. A host hands it
    events (an HTTP request, a task, a message to a Durable Object); a pool gives
    each event a slot on an isolate of its owner and a V8 context, new or kept from
    an earlier event; the event runs in turns under a wall-clock, a CPU and a memory
    limit; its operations go through a scheduler, whose answers settle the promises
    of the guest.

    V8, the guest and the host are not part of the sources. What they do is an input
    of the model: an outcome the environment chooses, a parameter of a Section, or a
    value the code observes. A theorem holds for all of them. A conversion of a guest value
    may throw; where the source goes on regardless, so does the model, and keeps the
    exception beside the result. The scripts of the host that run in the context of a guest
    call the built-ins of that context, and are modelled with those of the engine but where
    a file says otherwise.

    ** Parts, files and sources

    - The isolate pool (src/src/pool.rs, pool_policy.rs, pool_common.rs).
      PoolPolicy.v has the decisions as pure functions, with [acquire] against a
      relational specification. Concurrency.v has the slot counter and its
      compare-and-swap loop, instruction by instruction. Pool.v has the thread-local
      pool and [execute_pinned], split at its awaits into steps that interleave.
      PoolCorrect.v and PoolSafety.v prove the invariants of all interleavings: a
      request runs on an isolate of its owner, a context serves one request at a
      time, the slot counters are exact, no assertion fails, the caches and limits
      hold, a warm context is the one of the deployment, and every request that is
      allowed to run completes. The one panic left is that of a log which cuts the id of
      a worker inside a character.
    - Turns on an isolate. FairQueue.v is the interface of the turn queue (a type
      class), AsyncWaiter.v implements it (src/src/async_waiter.rs), Turns.v is its
      client: the event loops of several requests on one queue.
    - One event (src/src/execution_context.rs, execution_helpers.rs, worker.rs).
      ExecutionContext.v has [exec], [drain_waituntil], the event loop with its
      rounds and exit conditions, [reset] and [abort], as computations over what the
      code observes, with their effects in order. Theorems: the queue is given back
      on every path, Ok means that every phase went through, an event ends at its
      deadline. Loading.v has the building of a context: the scripts of the host,
      the script of the guest in its two forms, and the load turn, run on the worlds
      of Guards.v and Cpu.v; a context is built only within its limits, a refusal
      names the limit that was hit, and a packed script loads as its source does.
      Rounds.v has the rounds themselves, over Dispatch.v and Platform.v: they run
      what arrived in order, refine the loop of ExecutionContext.v, and leave no
      callback unnoticed. Readers.v has the reading of handles, responses and task
      results out of V8 objects and the making of requests. Worker.v has the worker
      that owns its isolate.
    - Durable Objects (src/src/execution_context/durable_object.rs). DurableObject.v
      has the lives of an object: its input gate, its events, alarms and sockets, its
      timers, and the gated bodies of its responses; DurableObjectCorrect.v proves
      that events enter in order while the gate is open, that callbacks wait for
      reads, and that chunks leave only after the writes before them. ObjectSteps.v
      follows an object run by run of its guest: an answer is what one of these runs
      answered, and the barrier it waits for comes after all that run asked.
      The script of an object (src/src/js/durable_object.js) is in three files over the
      microtasks of its promises. ObjectScript.v has the storage with its gates, its
      backlog and its failures, and [gate] of the host: what the host reads is exact, a
      rejected write breaks the object, and the backlog is bounded. Transactions.v has
      [transaction] against a class of stores with its laws: alone, it is the closure run
      on a copy of the store, and it writes at most once. ObjectRuns.v has the sockets of
      an object, its alarm and socket runs, and [pinned]: the sockets are those of the
      history of calls that returned and events that were handed over, their events come
      in order, and what the host reads of an alarm. ObjectGates.v puts the script and the
      host together, one state of the script threaded through the runs of the object: an
      event enters only while no callback of that script blocks and none of its reads is
      under way, as long as no run was terminated.
    - Tasks of V8 (src/src/platform.rs). Platform.v has the queues, their registry
      and the waiters of event loops, PlatformCorrect.v the theorems over every
      interleaving: order, at most once, no lost wakeup, and that [run] ends. A step is
      what happens under one lock, of the registry or of a queue.
    - Native ops of the bindings (src/src/runtime/bindings/, text_encoding.rs,
      crypto/). Natives.v has fetch, the bindings, WebSockets and Durable Objects;
      Compression.v the codec table; TextEncoding.v the two ops of text, with the strings
      of V8 as parameters; Crypto.v the
      native ops over ring and the layers of [crypto.subtle], on a heap of buffers
      that keys and guest share, with its theorems in CryptoCorrect.v: signatures
      verify, decryption undoes encryption and opens nothing else, random bytes stay
      in their view, and the layers act as one dispatch on the name.
    - Settling promises (src/src/runtime/dispatch.rs, mod.rs, callback_handlers.rs,
      and the registering ops of bindings/). Handlers.v has the values handed to the
      guest, Dispatch.v the callback tables and every message. Theorems: an answer
      reaches its promise, once, and an answer that comes after a reset reaches
      nobody.
    - The scheduler (src/src/runtime/scheduler.rs). Scheduler.v has the event loop:
      timers, cancellation scopes, the tasks of operations. WebSockets.v has the
      tasks of sockets. ObjectQueue.v has the ordered queue of a Durable Object with
      its output gate, refined from an abstract specification, and the operations that
      take no gate; ObjectFrames.v has the count of the frames that wait in it, and the sockets that are passed on.
    - What a guest finds in a context (src/src/runtime/bindings/, snapshot.rs). Setup.v
      has the global object with everything the host puts in it, from the snapshot or
      without, on objects with property attributes and scripts with their declarations:
      every context is set up, and no guest can replace an op of the host. Timers.v has
      the timer functions and the async context over the scheduler loop: no timer is
      lost, no timeout runs twice, and none after it ended. BodyStreams.v has the pump of
      a response body with its wait for room: the body arrives in order, and the pump
      ends or awaits the guest. GuestSockets.v has the WebSocket class over the task of
      WebSockets.v.
      FetchApi.v has [fetch] on a heap of header objects: forms are read back by a
      server. WebApi.v has the ops of URL, the fetch helpers, the clock and the console.
      EnvBindings.v has the [env] of a worker (src/src/js/env.js) with its D1 databases and
      Durable Object namespaces: a binding sends only what was made on it, while the guest
      leaves the methods of its arrays and of WeakMap alone. PlainBindings.v
      has its storage, KV and database bindings, through the natives and the handlers: over
      a host that keeps what is put, the KV bindings are maps.
    - Isolates and what belongs to them (src/src/locker_managed_isolate.rs,
      request_context.rs, context_slots.rs, v8_helpers.rs). Isolates.v has the owners of
      isolates, contexts and binding state, and the raw pointers between them: none is
      ever used after its target is gone.
    - Streams (src/src/runtime/stream_manager.rs and the tasks that feed it).
      Streams.v has the table and its channels, which are those of tokio by what its
      documentation says of a bounded channel. StreamsCorrect.v has the theorems over
      interleaved tasks: bounds, the slot of the terminal marker, and which requests can
      meet. StreamSpec.v shows the table, with its receivers that come and go, to be
      streams that know nothing of each other.
    - Limits (src/src/security/). Memory.v has the ArrayBuffer counter and the heap
      limit callback; Guards.v and GuardsCorrect.v have the turn of an isolate and
      the wall-clock watchdog; Cpu.v and CpuWatchdog.v have the CPU budget, its
      timer and the parking protocol of the macOS thread; CpuSlots.v has the slots that
      thread reads, with their ports; SignalTimers.v has the timers, the registry and the
      signal thread of Linux.
    - External memory (src/src/gc/js_lock.rs, external_memory.rs): Gc.v. Traceable.v has
      the sizes of values (traceable.rs), their derive macro (src/gc-derive) and values
      with a guard.
    - The packed code cache (src/src/snapshot.rs): CodeCache.v.
    - The tests of the sources. PolicyTests.v has the property tests of pool_policy.rs,
      proved on every input their generators make; SourceTests.v runs the unit tests of the
      pool, the turn queue, the streams and the external memory on the model.

    ** Conventions

    A component is a Module: its state is a Record, its operations are functions on
    it, one per operation of the source and named like it. Where operations of
    several threads or requests interleave, a [label] names the next atomic action,
    [step_to] or [exec] runs it, and properties are proved for every state that
    [reachable] admits, by [reachable_invariant]. A step that panics in the source is
    a step that answers [None] or an explicit panic, and is proved unreachable.
    Machine integers are integers with their wrap-around written out ([wrap_u64],
    [wrap_usize], [wrap_i64]) where the source computes with them; a counter that
    only counts events is unbounded where 2^64 events are out of reach, and the
    definition says so. Instants and durations are integers.

    Recursion is structural where the data bounds it: over the labels of a run, the
    polls of an event loop, the tasks of a queue, or the script of a guest. The four
    rounds of a poll are the bound of the source ([MAX_COALESCE_ROUNDS]), and the loops
    of Concurrency.v and Memory.v are step relations. Elsewhere there is fuel, with a
    proof that it is enough: one more than the messages in the channel and those that
    arrive for [Rounds.receive] and [process_all] ([receive_spec]), one more than the
    tasks that wait and those they post for [Platform.run] ([run_ends]), the number of
    callbacks for [DurableObject.run_callbacks], the length of the array for
    [Readers.read_entries], the length of the bytes for [CodeCache.utf8], the decoder of
    TextEncoding.v and the reader of forms in FetchApi.v ([after_length]), and the five
    digits of a port for [WebApi.print_digits].

    ** What is not modelled

    What V8 does inside a call, the crates the code calls (url, urlpattern, ring, flate2,
    encoding_rs), which are parameters, the compiling of code caches, the formatting
    of logged values, the ICU data, the examples and benchmarks. Of the scripts in
    src/src/js, the assets, worker and invoke bindings of env.js, which hand one call on, and
    the parts of stream_body.js around its pump are left out; the shared surface the guest sees (openworkers-wintertc) is a package of its
    own. Of the tests, those that start V8 or threads are left out. What remains of the
    Rust sources is the making of handles and scopes for V8, logging, and records that only
    carry handles, which the model has no state for.

    This file holds what the components share: results and errors, machine integers,
    the Vec and iterator operations of Rust, tactics, and transition systems. *)

From stdpp Require Import base list relations gmap strings fin_maps.
From Stdlib Require Import ZArith Lia.

(** ** Results

    Rust's [Result<T, E>], with the [?] operator as a bind. *)

Inductive result (T E : Type) : Type :=
| Ok (v : T)
| Err (e : E).
Arguments Ok {T E} v.
Arguments Err {T E} e.

Definition is_ok {T E} (r : result T E) : bool :=
  match r with Ok _ => true | Err _ => false end.

Definition result_bind {T U E} (r : result T E) (k : T -> result U E) : result U E :=
  match r with Ok v => k v | Err e => Err e end.

Declare Scope rust_scope.
Delimit Scope rust_scope with rust.
Notation "'let?' x := r 'in' k" := (result_bind r (fun x => k))
  (at level 10, x name, r at level 100, k at level 200) : rust_scope.
Open Scope rust_scope.

(** Why an event ended early (openworkers-core's [TerminationReason], the
    constructors this runtime builds). *)
Inductive TerminationReason :=
| CpuTimeLimit
| WallClockTimeout
| MemoryLimit
| Aborted
| MaxIterationsReached
| Exception (message : string)
| InitializationError (message : string)
| Other (message : string).

(** ** Machine integers

    A [w]-bit unsigned integer is a [Z] in [0, 2^w); atomic counters wrap. *)

Definition wrap (w : Z) (z : Z) : Z := (z mod 2 ^ w)%Z.
Definition wrap_u64 : Z -> Z := wrap 64.
Definition wrap_usize : Z -> Z := wrap 64.
Definition wrap_u32 : Z -> Z := wrap 32.
Definition usize_max : Z := (2 ^ 64 - 1)%Z.

(** Two's complement reading of a 64-bit word ([AtomicI64]). *)
Definition wrap_i64 (z : Z) : Z := ((z + 2 ^ 63) mod 2 ^ 64 - 2 ^ 63)%Z.

Lemma wrap_small w z : (0 <= w)%Z -> (0 <= z < 2 ^ w)%Z -> wrap w z = z.
Proof. intros ? ?. unfold wrap. by apply Z.mod_small. Qed.

Lemma wrap_range w z : (0 <= w)%Z -> (0 <= wrap w z < 2 ^ w)%Z.
Proof. intros ?. unfold wrap. apply Z.mod_pos_bound. by apply Z.pow_pos_nonneg. Qed.

Lemma wrap_usize_small z : (0 <= z < 2 ^ 64)%Z -> wrap_usize z = z.
Proof. intros ?. by apply wrap_small. Qed.

Lemma wrap_u64_small z : (0 <= z < 2 ^ 64)%Z -> wrap_u64 z = z.
Proof. intros ?. by apply wrap_small. Qed.

Lemma wrap_i64_small z : (- 2 ^ 63 <= z < 2 ^ 63)%Z -> wrap_i64 z = z.
Proof. intros ?. unfold wrap_i64. rewrite Z.mod_small; lia. Qed.

(** Machine integers that do not wrap: [autorewrite with machine] drops the
    [wrap] of a value that [lia] bounds. *)
Create HintDb machine.
#[export] Hint Rewrite wrap_usize_small wrap_u64_small wrap_i64_small using lia : machine.

(** ** Tactics *)

(** Split conjunctions and existentials in the context. *)
Ltac inv_all :=
  repeat match goal with
         | H : _ /\ _ |- _ => destruct H
         | H : exists _, _ |- _ => destruct H
         | H : Some _ = Some _ |- _ => injection H as H; subst
         | H : (_, _) = (_, _) |- _ => injection H as H; subst
         | H : None = Some _ |- _ => discriminate H
         | H : Some _ = None |- _ => discriminate H
         end.

(** Case split on the innermost [match]/[if] scrutinee of the goal. *)
Ltac split_match :=
  match goal with
  | |- context [match ?x with _ => _ end] =>
      lazymatch x with
      | context [match _ with _ => _ end] => fail
      | _ => destruct x eqn:?
      end
  end.

(** The same in a hypothesis. *)
Ltac split_match_in H :=
  match type of H with
  | context [match ?x with _ => _ end] =>
      lazymatch x with
      | context [match _ with _ => _ end] => fail
      | _ => destruct x eqn:?
      end
  end.

(** ** Vec and iterator operations of the Rust standard library *)

Section Iter.
Context {A : Type}.
Implicit Types (l : list A) (P : A -> bool) (i j n : nat).

(** [Iterator::position]: the index of the first element that satisfies [P]. *)
Fixpoint position P l : option nat :=
  match l with
  | [] => None
  | x :: l' => if P x then Some 0 else S <$> position P l'
  end.

(** [Iterator::enumerate]. *)
Definition enumerate l : list (nat * A) := imap pair l.

(** [Iterator::min_by_key] for an integer key: among several minima, the
    first one. *)
Fixpoint min_by_key (k : A -> Z) l : option A :=
  match l with
  | [] => None
  | x :: l' =>
      match min_by_key k l' with
      | None => Some x
      | Some y => if (k x <=? k y)%Z then Some x else Some y
      end
  end.

(** [Vec::remove]: shifts the tail left; [None] stands for the panic. *)
Definition vec_remove i l : option (A * list A) :=
  x ← l !! i; Some (x, delete i l).

(** [Vec::swap_remove]: the last element takes the place of the removed one;
    [None] stands for the panic. *)
Definition swap_remove i l : option (A * list A) :=
  x ← l !! i;
  let front := take (length l - 1) l in
  Some (x, match last l with
           | Some y => if decide (i = length l - 1) then front else <[i := y]> front
           | None => front
           end).

Lemma position_Some P l i :
  position P l = Some i <->
  (exists x, l !! i = Some x /\ P x = true) /\
  (forall j y, j < i -> l !! j = Some y -> P y = false).
Proof.
  revert i; induction l as [|x l IH]; intros i; simpl.
  { split; [done|]. intros [(y & Hy & _) _]. by rewrite lookup_nil in Hy. }
  destruct (P x) eqn:Px.
  - split.
    + intros [= <-]. split; [by exists x|]. lia.
    + intros [_ Hlt]. destruct i as [|i]; [done|].
      specialize (Hlt 0 x ltac:(lia) eq_refl). congruence.
  - destruct i as [|i].
    + split; [by destruct (position P l)|]. intros [(y & [= ->] & Hy) _]. congruence.
    + transitivity (position P l = Some i).
      { destruct (position P l); simpl; naive_solver. }
      rewrite IH. split; intros [Hx Hlt]; split; try done.
      * intros [|j] y Hj Hy; [naive_solver|]. apply (Hlt j); [lia|done].
      * intros j y Hj Hy. apply (Hlt (S j)); [lia|done].
Qed.

Lemma position_None P l :
  position P l = None <-> (forall x, x ∈ l -> P x = false).
Proof.
  induction l as [|x l IH]; simpl.
  { split; [intros _ y Hy; set_solver|done]. }
  destruct (P x) eqn:Px.
  - split; [done|]. intros H. rewrite (H x) in Px; [done|]. set_solver.
  - rewrite fmap_None, IH. set_solver.
Qed.

Lemma position_lt P l i : position P l = Some i -> i < length l.
Proof. intros [(x & Hx & _) _]%position_Some. by eapply lookup_lt_Some. Qed.

Lemma min_by_key_None k l : min_by_key k l = None <-> l = [].
Proof. destruct l; simpl; [done|]. split; [|done]. by repeat case_match. Qed.

(** The minimum is an element, and every element before it is strictly
    greater, every element at most. *)
Lemma min_by_key_Some k l x :
  min_by_key k l = Some x ->
  exists i, l !! i = Some x /\
    (forall j y, l !! j = Some y -> (k x <= k y)%Z) /\
    (forall j y, j < i -> l !! j = Some y -> (k x < k y)%Z).
Proof.
  revert x; induction l as [|z l IH]; intros x; simpl; [done|].
  destruct (min_by_key k l) as [y|] eqn:Hm.
  - destruct (IH y eq_refl) as (i & Hi & Hle & Hlt).
    destruct (Z.leb_spec (k z) (k y)); intros [= <-].
    + exists 0. split; [done|]. split; [|lia].
      intros [|j] w Hw; simpl in Hw; simplify_eq; [lia|]. specialize (Hle _ _ Hw). lia.
    + exists (S i). split; [done|]. split.
      * intros [|j] w Hw; simpl in Hw; simplify_eq; [lia|]. by eapply Hle.
      * intros [|j] w Hj Hw; simpl in Hw; simplify_eq; [lia|]. eapply Hlt; [|done]. lia.
  - apply min_by_key_None in Hm as ->. intros [= <-]. exists 0.
    split; [done|]. split; [|lia]. intros [|j] w Hw; simpl in Hw; simplify_eq; lia.
Qed.

Lemma lookup_enumerate l i p : enumerate l !! i = Some p <-> fst p = i /\ l !! i = Some (snd p).
Proof.
  unfold enumerate. rewrite list_lookup_imap.
  destruct (l !! i) as [x|] eqn:E; simpl; destruct p; naive_solver.
Qed.

Lemma elem_of_enumerate l p : p ∈ enumerate l <-> l !! fst p = Some (snd p).
Proof.
  rewrite list_elem_of_lookup. setoid_rewrite lookup_enumerate. naive_solver.
Qed.

Lemma swap_remove_Some i l x l' :
  swap_remove i l = Some (x, l') -> l !! i = Some x /\ l ≡ₚ x :: l' /\ length l = S (length l').
Proof.
  unfold swap_remove. destruct (l !! i) as [z|] eqn:Hi; simpl; [|done].
  intros [= <- <-]. split; [done|].
  assert (Hlt := lookup_lt_Some _ _ _ Hi).
  destruct (exists_last (l := l)) as (l0 & y & ->); [by intros -> |].
  rewrite last_snoc, length_app in *. simpl in *.
  rewrite (take_app_length' l0 [y]) by lia.
  destruct (decide (i = length l0 + 1 - 1)) as [->|Hne].
  - rewrite lookup_app_r in Hi by lia.
    replace (length l0 + 1 - 1 - length l0) with 0 in Hi by lia. simpl in Hi. simplify_eq.
    split; [|lia]. by rewrite Permutation_app_comm.
  - rewrite lookup_app_l in Hi by lia. split; [|rewrite length_insert; lia].
    rewrite insert_take_drop by lia.
    transitivity ((take i l0 ++ z :: drop (S i) l0) ++ [y]).
    { by rewrite take_drop_middle. }
    generalize (take i l0) (drop (S i) l0). intros u v.
    rewrite (Permutation_app_comm _ [y]). simpl.
    rewrite <-(Permutation_middle u v z), <-(Permutation_middle u v y). apply perm_swap.
Qed.

(** What stands before the removed index stays in place. *)
Lemma swap_remove_take i l x l' :
  swap_remove i l = Some (x, l') -> take i l' = take i l.
Proof.
  unfold swap_remove. destruct (l !! i) as [z|] eqn:Hi; simpl; [|done].
  intros [= _ <-]. apply lookup_lt_Some in Hi.
  assert (take i (take (length l - 1) l) = take i l) as He.
  { rewrite take_take. f_equal. lia. }
  destruct (last l); [|done]. case_decide; [done|]. by rewrite take_insert_ge.
Qed.

Lemma swap_remove_is_Some i l : i < length l -> is_Some (swap_remove i l).
Proof.
  intros [x Hx]%lookup_lt_is_Some_2. unfold swap_remove. rewrite Hx. simpl. eauto.
Qed.

Lemma vec_remove_split l (r : list A) i x :
  vec_remove i l = Some (x, r) ->
  exists pre post, l = pre ++ x :: post /\ r = pre ++ post /\ length pre = i.
Proof.
  unfold vec_remove. destruct (l !! i) as [y|] eqn:E; simpl; [|done]. intros [= -> <-].
  exists (take i l), (drop (S i) l). split_and!.
  - by rewrite take_drop_middle.
  - apply delete_take_drop.
  - apply length_take_le. apply lookup_lt_Some in E. lia.
Qed.

End Iter.

(** Split an equation [step = Some _] over an executable step function into
    the branches that answer [Some]. *)
Ltac step_cases H :=
  repeat match type of H with
  | (_ ← ?o; _) = Some _ => destruct o eqn:?; simpl in H; [|discriminate]
  | (let '(_, _) := ?x in _) = Some _ => destruct x eqn:?
  | match ?x with _ => _ end = Some _ => destruct x eqn:?; try discriminate
  end; simplify_eq/=.

(** ** Multisets held in lists *)

(** Replacing one element changes one contribution to an [omap]. *)
Lemma omap_insert {A B} (f : A -> option B) (l : list A) i x y :
  l !! i = Some x ->
  exists rest, omap f l ≡ₚ option_list (f x) ++ rest /\
               omap f (<[i := y]> l) ≡ₚ option_list (f y) ++ rest.
Proof.
  intros Hi. exists (omap f (take i l) ++ omap f (drop (S i) l)).
  rewrite insert_take_drop by by eapply lookup_lt_Some.
  rewrite <-(take_drop_middle l i x Hi) at 1. rewrite !omap_app. simpl.
  split; [destruct (f x)|destruct (f y)]; simpl; rewrite <-?Permutation_middle; done.
Qed.

Lemma NoDup_sub {A} (l k : list A) : l ⊆+ k -> NoDup k -> NoDup l.
Proof. intros [m Hm]%submseteq_Permutation. rewrite Hm, NoDup_app. tauto. Qed.

(** ** Sums *)

Section Sums.
Open Scope Z_scope.

Definition sum (l : list Z) : Z := foldr Z.add 0 l.

Lemma sum_app l k : sum (l ++ k) = sum l + sum k.
Proof. induction l as [|x l IH]; simpl; [done|]. rewrite IH. lia. Qed.

Lemma sum_delete l i n : l !! i = Some n -> sum (delete i l) = sum l - n.
Proof.
  intros H. rewrite delete_take_drop, sum_app.
  rewrite <-(take_drop_middle l i n H) at 3. rewrite sum_app. simpl. lia.
Qed.

Lemma sum_nonneg l : Forall (fun n => 0 <= n) l -> 0 <= sum l.
Proof. induction 1; simpl; lia. Qed.

End Sums.

(** ** Invariants of a transition system *)

Section Invariant.
Context {St : Type} (init : St -> Prop) (step : St -> St -> Prop) (Inv : St -> Prop).

(** The states an execution can reach. *)
Definition reachable (s : St) : Prop := exists s0, init s0 /\ rtc step s0 s.

Lemma reachable_invariant :
  (forall s, init s -> Inv s) ->
  (forall s s', Inv s -> step s s' -> Inv s') ->
  forall s, reachable s -> Inv s.
Proof.
  intros Hinit Hstep s (s0 & H0 & Hrtc).
  apply Hinit in H0. revert H0. induction Hrtc; eauto.
Qed.

End Invariant.

(** ** Executions of a step function *)

Section Runs.
Context {St L : Type} (exec : St -> L -> option St).

(** The labels of a list, one after the other. *)
Fixpoint run_steps (s : St) (ls : list L) : option St :=
  match ls with [] => Some s | l :: ls => s' ← exec s l; run_steps s' ls end.

Lemma run_steps_rtc ls : forall s s',
  run_steps s ls = Some s' -> rtc (fun s s' => exists l, exec s l = Some s') s s'.
Proof.
  induction ls as [|l ls IH]; simpl; intros s s'.
  - intros [= ->]. apply rtc_refl.
  - destruct (exec s l) as [s1|] eqn:E; [|done]. simpl. intros H.
    eapply rtc_l; [by exists l|by apply IH].
Qed.

Lemma run_steps_reachable (init : St -> Prop) s0 ls s :
  init s0 -> run_steps s0 ls = Some s ->
  reachable init (fun s s' => exists l, exec s l = Some s') s.
Proof. intros Hi H. exists s0. split; [done|by eapply run_steps_rtc]. Qed.

End Runs.
