(* ===== verification/PoolPolicy.v ===== *)
(** * The decisions of the isolate pool (src/src/pool_policy.rs)

    Pure functions over a snapshot of the pool: which isolate a request of an
    owner gets, which isolates go once the pool stands past its ceiling, which
    cached context a request reuses, which ones its deployment replaces, and
    which one leaves a full cache. Instants are integers (nanoseconds). *)

From stdpp Require Import base list gmap strings sorting.
From Stdlib Require Import ZArith Lia.
From S2P Require Import Prelude.

Module Policy.

Record IsolateLoad := mkIsolateLoad {
  owner : string;
  has_capacity : bool;
  idle_since : option Z
}.

Record Limits := mkLimits {
  max_isolates : nat;
  max_per_owner : option nat;
  overcommit : bool
}.

Record PoolLoad := mkPoolLoad {
  isolates : list IsolateLoad;
  limits : Limits
}.

Inductive Refusal := OwnerAtLimit | PoolFull.

Inductive Acquire :=
| Reuse (index : nat)
| Build
| Evict (index : nat)
| Overcommit
| Refuse (r : Refusal).

(** [Refusal::message] *)
Definition message (r : Refusal) : string :=
  match r with
  | OwnerAtLimit => "Pool at capacity: the owner is at its isolate limit"
  | PoolFull => "Pool at capacity: every isolate is in use"
  end.

Definition owns (o : string) (iso : IsolateLoad) : bool := bool_decide (owner iso = o).

(** The isolates of [o] in the snapshot. *)
Definition owned (l : list IsolateLoad) (o : string) : nat :=
  length (filter (fun iso => owner iso = o) l).

Definition at_owner_limit (lim : Limits) (n : nat) : bool :=
  match max_per_owner lim with Some limit => limit <=? n | None => false end.

(** The idle isolates with their index and the instant they became idle. *)
Definition idle_entries (l : list IsolateLoad) : list (nat * Z) :=
  omap (fun p => since ← idle_since (snd p); Some (fst p, since)) (enumerate l).

Definition acquire (load : PoolLoad) (o : string) : Acquire :=
  let lim := limits load in
  match position (fun iso => owns o iso && has_capacity iso) (isolates load) with
  | Some index => Reuse index
  | None =>
      if at_owner_limit lim (owned (isolates load) o) then Refuse OwnerAtLimit
      else if length (isolates load) <? max_isolates lim then Build
      else match min_by_key snd (idle_entries (isolates load)) with
           | Some (index, _) => Evict index
           | None => if overcommit lim then Overcommit else Refuse PoolFull
           end
  end.

(** [saturating_sub] on [usize] is truncated subtraction on [nat]. *)
Definition reclaim (load : PoolLoad) : list nat :=
  let excess := length (isolates load) - max_isolates (limits load) in
  take excess (fst <$> filter (fun p => is_Some (idle_since (snd p))) (enumerate (isolates load))).

Record ContextKey := mkContextKey {
  worker_id : string;
  version : Z;
  env_updated_at : option Z
}.

#[export] Instance ContextKey_eq_dec : EqDecision ContextKey.
Proof. solve_decision. Defined.

Definition warm_hit (cached : list (ContextKey * Z)) (wanted : ContextKey) (max_reuses : Z)
  : option nat :=
  position (fun p => bool_decide (fst p = wanted) && (snd p <? max_reuses)%Z) cached.

Definition superseded (cached wanted : ContextKey) : bool :=
  if negb (bool_decide (worker_id cached = worker_id wanted)) then false
  else if negb (version cached =? version wanted)%Z then (version cached <? version wanted)%Z
  else match env_updated_at cached, env_updated_at wanted with
       | Some cached_env, Some wanted_env => (cached_env <? wanted_env)%Z
       | cached_env, wanted_env => negb (bool_decide (cached_env = wanted_env))
       end.

Definition keep_context (reuses max_reuses : Z) (max_cached : nat) : bool :=
  (0 <? max_cached) && (reuses <? max_reuses)%Z.

Definition cache_evict (last_used : list Z) (max_cached : nat) : option nat :=
  if length last_used <? max_cached then None
  else fst <$> min_by_key snd (enumerate last_used).

(** ** The declarative specification of [acquire] *)

(** The isolate at [i] serves [o] now. *)
Definition serves (l : list IsolateLoad) (o : string) (i : nat) : Prop :=
  exists iso, l !! i = Some iso /\ owner iso = o /\ has_capacity iso = true.

(** The isolate at [i] has been idle since [t]. *)
Definition idle_at (l : list IsolateLoad) (i : nat) (t : Z) : Prop :=
  exists iso, l !! i = Some iso /\ idle_since iso = Some t.

(** [o] may have one more isolate. *)
Definition under_owner_limit (load : PoolLoad) (o : string) : Prop :=
  forall m, max_per_owner (limits load) = Some m -> owned (isolates load) o < m.

(** What the pool promises, one rule per decision. *)
Inductive acquire_spec (load : PoolLoad) (o : string) : Acquire -> Prop :=
| spec_reuse i :
    serves (isolates load) o i ->
    (forall j, j < i -> ~ serves (isolates load) o j) ->
    acquire_spec load o (Reuse i)
| spec_owner_limit m :
    (forall j, ~ serves (isolates load) o j) ->
    max_per_owner (limits load) = Some m -> m <= owned (isolates load) o ->
    acquire_spec load o (Refuse OwnerAtLimit)
| spec_build :
    (forall j, ~ serves (isolates load) o j) ->
    under_owner_limit load o ->
    length (isolates load) < max_isolates (limits load) ->
    acquire_spec load o Build
| spec_evict i t :
    (forall j, ~ serves (isolates load) o j) ->
    under_owner_limit load o ->
    max_isolates (limits load) <= length (isolates load) ->
    idle_at (isolates load) i t ->
    (forall j t', idle_at (isolates load) j t' -> (t <= t')%Z) ->
    (forall j t', j < i -> idle_at (isolates load) j t' -> (t < t')%Z) ->
    acquire_spec load o (Evict i)
| spec_overcommit :
    (forall j, ~ serves (isolates load) o j) ->
    under_owner_limit load o ->
    max_isolates (limits load) <= length (isolates load) ->
    (forall j t, ~ idle_at (isolates load) j t) ->
    overcommit (limits load) = true ->
    acquire_spec load o Overcommit
| spec_full :
    (forall j, ~ serves (isolates load) o j) ->
    under_owner_limit load o ->
    max_isolates (limits load) <= length (isolates load) ->
    (forall j t, ~ idle_at (isolates load) j t) ->
    overcommit (limits load) = false ->
    acquire_spec load o (Refuse PoolFull).

(** ** Lemmas *)

Lemma serves_test l o i :
  serves l o i <-> exists iso, l !! i = Some iso /\ owns o iso && has_capacity iso = true.
Proof.
  unfold serves, owns. setoid_rewrite andb_true_iff. setoid_rewrite bool_decide_eq_true. done.
Qed.

Lemma position_serves_Some l o i :
  position (fun iso => owns o iso && has_capacity iso) l = Some i ->
  serves l o i /\ (forall j, j < i -> ~ serves l o j).
Proof.
  intros [Hi Hlt]%position_Some. split; [by apply serves_test|].
  intros j Hj (iso & Hiso & Ht)%serves_test. by rewrite (Hlt _ _ Hj Hiso) in Ht.
Qed.

Lemma position_serves_None l o :
  position (fun iso => owns o iso && has_capacity iso) l = None -> forall j, ~ serves l o j.
Proof.
  rewrite position_None. intros Hall j (iso & Hiso & Ht)%serves_test.
  rewrite Hall in Ht; [done|]. by eapply list_elem_of_lookup_2.
Qed.

Lemma at_owner_limit_false load o :
  at_owner_limit (limits load) (owned (isolates load) o) = false -> under_owner_limit load o.
Proof.
  unfold at_owner_limit, under_owner_limit. intros H m Hm. rewrite Hm in H.
  by apply Nat.leb_gt in H.
Qed.

(** [idle_entries] lists the idle isolates in index order. *)
Lemma idle_entries_lookup l k i t :
  idle_entries l !! k = Some (i, t) -> idle_at l i t.
Proof.
  intros Hk%list_elem_of_lookup_2. unfold idle_entries in Hk.
  apply list_elem_of_omap in Hk as ([j iso] & Hp%elem_of_enumerate & Hf). simpl in *.
  destruct (idle_since iso) as [s|] eqn:Hs; simpl in Hf; simplify_eq. by exists iso.
Qed.

Lemma idle_entries_complete l i t :
  idle_at l i t -> (i, t) ∈ idle_entries l.
Proof.
  intros (iso & Hiso & Ht). unfold idle_entries. apply list_elem_of_omap.
  exists (i, iso). rewrite elem_of_enumerate. simpl. by rewrite Ht.
Qed.

Lemma idle_entries_imap_sorted l n :
  StronglySorted (fun p q => fst p < fst q)
    (omap (fun p : nat * IsolateLoad => since ← idle_since (snd p); Some (fst p, since))
       (imap (fun i x => (n + i, x)) l)).
Proof.
  revert n; induction l as [|x l IH]; intros n; simpl; [constructor|].
  rewrite (imap_ext _ (fun i y => (S n + i, y))) by (intros; f_equal/=; lia).
  destruct (idle_since x) as [t|]; simpl; [|apply (IH (S n))].
  constructor; [apply (IH (S n))|]. rewrite Forall_forall. intros [j s] Hj.
  apply list_elem_of_omap in Hj as ([k y] & Hk & Hf).
  apply list_elem_of_lookup in Hk as (m & Hm). rewrite list_lookup_imap in Hm.
  destruct (l !! m); simpl in *; simplify_eq/=. destruct (idle_since _); simplify_eq/=. lia.
Qed.

Lemma idle_entries_sorted l : StronglySorted (fun p q => fst p < fst q) (idle_entries l).
Proof. apply (idle_entries_imap_sorted l 0). Qed.

Lemma StronglySorted_lookup {A} (R : A -> A -> Prop) l i j x y :
  StronglySorted R l -> i < j -> l !! i = Some x -> l !! j = Some y -> R x y.
Proof.
  intros Hs. revert i j; induction Hs as [|z l Hs IH Hz]; intros i j Hij Hi Hj; [done|].
  destruct i as [|i], j as [|j]; try lia; simplify_eq/=.
  - eapply Forall_forall; [done|]. by eapply list_elem_of_lookup_2.
  - eapply IH; [|done..]. lia.
Qed.

Lemma evict_spec l i t :
  min_by_key snd (idle_entries l) = Some (i, t) ->
  idle_at l i t /\ (forall j t', idle_at l j t' -> (t <= t')%Z) /\
  (forall j t', j < i -> idle_at l j t' -> (t < t')%Z).
Proof.
  intros (k & Hk & Hle & Hlt)%min_by_key_Some. split; [by eapply idle_entries_lookup|].
  split.
  - intros j t' (m & Hm)%idle_entries_complete%list_elem_of_lookup. by apply (Hle _ _ Hm).
  - intros j t' Hj (m & Hm)%idle_entries_complete%list_elem_of_lookup.
    destruct (decide (m < k)); [by apply (Hlt _ _ l0 Hm)|]. exfalso.
    assert (m = k \/ k < m) as [->|Hkm] by lia; [simplify_eq; lia|].
    pose proof (StronglySorted_lookup _ _ _ _ _ _ (idle_entries_sorted l) Hkm Hk Hm).
    simpl in *. lia.
Qed.

Lemma no_idle l :
  min_by_key snd (idle_entries l) = None -> forall j t, ~ idle_at l j t.
Proof.
  rewrite min_by_key_None. intros Hnil j t Hj%idle_entries_complete. rewrite Hnil in Hj. set_solver.
Qed.

Lemma acquire_sound load o : acquire_spec load o (acquire load o).
Proof.
  unfold acquire. destruct (position _ _) as [i|] eqn:Hp.
  { apply position_serves_Some in Hp as [? ?]. by apply spec_reuse. }
  pose proof (position_serves_None _ _ Hp) as Hnone. clear Hp.
  destruct (at_owner_limit _ _) eqn:Hl.
  { unfold at_owner_limit in Hl. destruct (max_per_owner _) as [m|] eqn:Hm; [|done].
    apply Nat.leb_le in Hl. by eapply spec_owner_limit. }
  apply at_owner_limit_false in Hl.
  destruct (Nat.ltb_spec (length (isolates load)) (max_isolates (limits load)));
    [by apply spec_build|].
  destruct (min_by_key _ _) as [[i t]|] eqn:Hmin.
  - apply evict_spec in Hmin as (? & ? & ?). by eapply spec_evict.
  - pose proof (no_idle _ Hmin).
    destruct (overcommit _) eqn:Ho; [by apply spec_overcommit|by apply spec_full].
Qed.

Lemma idle_at_inj l i t t' : idle_at l i t -> idle_at l i t' -> t = t'.
Proof. intros (x & Hx & Ht) (y & Hy & Ht'). congruence. Qed.

(** Two rules of the specification never apply to the same snapshot. *)
Ltac spec_clash :=
  first
    [ lia | congruence
    | match goal with
      | H : serves ?l ?o ?i, H' : forall j, ~ serves ?l ?o j |- _ => destruct (H' i H)
      | H : idle_at ?l ?i ?t, H' : forall j t, ~ idle_at ?l j t |- _ => destruct (H' i t H)
      | H : max_per_owner ?lim = Some ?m, H' : under_owner_limit _ _ |- _ =>
          specialize (H' m H); lia
      end ].

Lemma acquire_spec_inj load o d1 d2 :
  acquire_spec load o d1 -> acquire_spec load o d2 -> d1 = d2.
Proof.
  destruct 1 as [i Hi Hi1| | |i t Hno Hun Hge Ht Hle Hlt| | ],
    1 as [i' Hi' Hi1'| | |i' t' Hno' Hun' Hge' Ht' Hle' Hlt'| | ];
    try reflexivity; try (exfalso; spec_clash).
  - f_equal. destruct (Nat.lt_trichotomy i i') as [Hc|[Hc|Hc]]; [exfalso|exact Hc|exfalso].
    + exact (Hi1' i Hc Hi).
    + exact (Hi1 i' Hc Hi').
  - f_equal. destruct (Nat.lt_trichotomy i i') as [Hc|[Hc|Hc]]; [exfalso|exact Hc|exfalso].
    + pose proof (Hlt' _ _ Hc Ht). pose proof (Hle _ _ Ht'). lia.
    + pose proof (Hlt _ _ Hc Ht'). pose proof (Hle' _ _ Ht). lia.
Qed.

(** ** Reclaim *)

Definition idle_indices (l : list IsolateLoad) : list nat :=
  fst <$> filter (fun p => is_Some (idle_since (snd p))) (enumerate l).

Lemma elem_of_idle_indices l i : i ∈ idle_indices l <-> exists t, idle_at l i t.
Proof.
  unfold idle_indices, idle_at. rewrite list_elem_of_fmap. split.
  - intros ([j iso] & -> & [[t Ht] Hp]%list_elem_of_filter). simpl in *.
    apply elem_of_enumerate in Hp. eauto.
  - intros (t & iso & Hiso & Ht). exists (i, iso). split; [done|].
    apply list_elem_of_filter. rewrite elem_of_enumerate. simpl. eauto.
Qed.

Lemma idle_indices_imap l n :
  let r := fst <$> filter (fun p => is_Some (idle_since (snd p))) (imap (fun i x => (n + i, x)) l) in
  StronglySorted lt r /\ length r = length (filter (fun iso => is_Some (idle_since iso)) l) /\
  Forall (fun i => n <= i) r.
Proof.
  revert n; induction l as [|x l IH]; intros n; simpl; [by repeat constructor|].
  rewrite (imap_ext _ (fun i y => (S n + i, y))) by (intros; f_equal/=; lia).
  specialize (IH (S n)) as (Hs & Hl & Hf).
  rewrite !filter_cons. cbn [snd]. destruct (decide (is_Some (idle_since x))) as [Hx|Hx];
    rewrite ?fmap_cons, ?length_cons; simpl fst.
  - rewrite Nat.add_0_r, Hl. split_and!; [constructor; [done|] | done | constructor; [lia|]];
      (eapply Forall_impl; [exact Hf|]; simpl; lia).
  - split_and!; [done..|]. eapply Forall_impl; [exact Hf|]. simpl. lia.
Qed.

Lemma idle_indices_sorted l : StronglySorted lt (idle_indices l).
Proof. apply (idle_indices_imap l 0). Qed.

Lemma length_idle_indices l :
  length (idle_indices l) = length (filter (fun iso => is_Some (idle_since iso)) l).
Proof. apply (idle_indices_imap l 0). Qed.

Lemma StronglySorted_take {A} (R : A -> A -> Prop) n l :
  StronglySorted R l -> StronglySorted R (take n l).
Proof.
  intros Hs. revert n. induction Hs as [|x l Hs IH Hx]; intros [|n]; simpl; constructor; [done|].
  by apply Forall_take.
Qed.

(** A prefix of a sorted list keeps everything below what it keeps. *)
Lemma StronglySorted_take_below n (l : list nat) i j :
  StronglySorted lt l -> j ∈ take n l -> i ∈ l -> i < j -> i ∈ take n l.
Proof.
  intros Hs Hj Hi Hij. rewrite <-(take_drop n l), elem_of_app in Hi.
  destruct Hi as [Hi|Hi]; [done|exfalso].
  apply list_elem_of_lookup in Hj as (a & Ha). apply list_elem_of_lookup in Hi as (b & Hb).
  pose proof (lookup_lt_Some _ _ _ Ha) as Hlt. rewrite length_take in Hlt.
  rewrite lookup_drop in Hb. rewrite lookup_take in Ha. case_decide; [|done].
  pose proof (StronglySorted_lookup _ _ a (n + b) _ _ Hs ltac:(lia) Ha Hb). lia.
Qed.

Lemma reclaim_idle load i : i ∈ reclaim load -> exists t, idle_at (isolates load) i t.
Proof.
  unfold reclaim. fold (idle_indices (isolates load)). intros Hi.
  apply elem_of_idle_indices. by apply (subseteq_take (length (isolates load) - max_isolates (limits load))).
Qed.

Lemma reclaim_sorted load : StronglySorted lt (reclaim load).
Proof. apply StronglySorted_take, idle_indices_sorted. Qed.

Lemma length_reclaim load :
  length (reclaim load) =
  min (length (isolates load) - max_isolates (limits load))
      (length (filter (fun iso => is_Some (idle_since iso)) (isolates load))).
Proof.
  unfold reclaim. fold (idle_indices (isolates load)).
  by rewrite length_take, length_idle_indices.
Qed.

(** ** Context cache *)

Lemma superseded_irrefl k : superseded k k = false.
Proof.
  unfold superseded. rewrite bool_decide_true, Z.eqb_refl by done. simpl.
  destruct (env_updated_at k) as [e|]; [by apply Z.ltb_irrefl|by rewrite bool_decide_true].
Qed.

Lemma superseded_true c w :
  superseded c w = true <->
  worker_id c = worker_id w /\
  ((version c < version w)%Z \/
   version c = version w /\
   match env_updated_at c, env_updated_at w with
   | Some a, Some b => (a < b)%Z
   | a, b => a <> b
   end).
Proof.
  unfold superseded. case_bool_decide as Hw; simpl; [|naive_solver].
  destruct (Z.eqb_spec (version c) (version w)) as [He|He]; simpl.
  - destruct (env_updated_at c) as [a|], (env_updated_at w) as [b|];
      rewrite ?Z.ltb_lt, ?negb_true_iff, ?bool_decide_eq_false; naive_solver lia.
  - rewrite Z.ltb_lt. naive_solver lia.
Qed.

(** ** Properties *)

(** C19: The pool's decision is exactly the declarative one: the first isolate
    of the owner with a free slot, else a refusal if the owner is at its
    limit, else a new isolate under the ceiling, else the isolate idle for
    longest (the lowest index among equals), else an overcommit if allowed,
    else a refusal; for every snapshot one and only one rule applies. *)
Theorem acquire_refines_spec load o d : acquire load o = d <-> acquire_spec load o d.
Proof.
  split; [intros <-; apply acquire_sound|].
  intros Hd. eapply acquire_spec_inj; [apply acquire_sound|done].
Qed.

(** [reclaim] names distinct idle isolates in index order, as many as the
    excess over the ceiling allows and the idle ones provide, and no idle
    isolate below a named one is skipped. *)
Theorem reclaim_correct load :
  StronglySorted lt (reclaim load) /\
  (forall i, i ∈ reclaim load -> exists t, idle_at (isolates load) i t) /\
  length (reclaim load) =
    min (length (isolates load) - max_isolates (limits load))
        (length (filter (fun iso => is_Some (idle_since iso)) (isolates load))) /\
  (forall i j t, j ∈ reclaim load -> i < j -> idle_at (isolates load) i t -> i ∈ reclaim load).
Proof.
  split_and!; [apply reclaim_sorted|apply reclaim_idle|apply length_reclaim|].
  intros i j t Hj Hij Ht. eapply StronglySorted_take_below; [apply idle_indices_sorted|exact Hj| |done].
  apply elem_of_idle_indices. eauto.
Qed.

(** [superseded] drops old deployments only: it relates different keys of
    one worker, never a newer version to an older one, and of two different
    deployments of a worker at least one supersedes the other, so a cache that
    is swept for each request never accumulates deployments of one worker. *)
Theorem superseded_deployments c w :
  (superseded c w = true -> worker_id c = worker_id w /\ c <> w /\ (version c <= version w)%Z) /\
  (worker_id c = worker_id w -> c <> w -> superseded c w = true \/ superseded w c = true).
Proof.
  split.
  - intros H. split_and!; [|by intros ->; rewrite superseded_irrefl in H|];
      apply superseded_true in H; [tauto|lia].
  - intros Hw Hne. rewrite !superseded_true. destruct c as [cw cv ce], w as [ww wv we]; simpl in *.
    subst. destruct (Z.lt_trichotomy cv wv) as [?|[->|?]]; [tauto| |tauto].
    destruct ce as [a|], we as [b|]; [|naive_solver..].
    destruct (Z.lt_trichotomy a b) as [?|[->|?]]; naive_solver.
Qed.

(** A request reuses the first cached context of its exact worker, version
    and environment that is below the reuse cap, and none otherwise; the
    contexts that go back to the cache are exactly those a later request of the
    same deployment can reuse. *)
Theorem warm_reuse_correct cached wanted max_reuses :
  (forall i, warm_hit cached wanted max_reuses = Some i <->
     (exists r, cached !! i = Some (wanted, r) /\ (r < max_reuses)%Z) /\
     (forall j r, j < i -> cached !! j = Some (wanted, r) -> (max_reuses <= r)%Z)) /\
  (warm_hit cached wanted max_reuses = None <->
     forall r, (wanted, r) ∈ cached -> (max_reuses <= r)%Z) /\
  (forall reuses max_cached, keep_context reuses max_reuses max_cached = true <->
     0 < max_cached /\ warm_hit [(wanted, reuses)] wanted max_reuses = Some 0).
Proof.
  split_and!.
  - intros i. unfold warm_hit. rewrite position_Some. split; intros [Hi Hlt]; split.
    + destruct Hi as ([k r] & Hr & [Hk%bool_decide_eq_true Hm]%andb_true_iff). simpl in *. subst.
      exists r. split; [done|lia].
    + intros j r Hj Hr. specialize (Hlt _ _ Hj Hr). simpl in Hlt.
      rewrite bool_decide_true in Hlt by done. simpl in Hlt. lia.
    + destruct Hi as (r & Hr & Hm). exists (wanted, r). simpl.
      rewrite bool_decide_true by done. split; [done|]. simpl. lia.
    + intros j [k r] Hj Hr. simpl. case_bool_decide; subst; simpl; [|done].
      specialize (Hlt _ _ Hj Hr). lia.
  - unfold warm_hit. rewrite position_None. split; intros H.
    + intros r Hr%H. simpl in Hr. rewrite bool_decide_true in Hr by done. simpl in Hr. lia.
    + intros [k r] Hr. simpl. case_bool_decide; subst; simpl; [|done]. specialize (H r Hr). lia.
  - intros reuses max_cached. unfold keep_context, warm_hit. simpl.
    rewrite bool_decide_true by done. simpl. rewrite andb_true_iff, Nat.ltb_lt.
    destruct (Z.ltb_spec reuses max_reuses); naive_solver.
Qed.

(** A context leaves the cache only when the cache is full, and it is the
    one unused for longest (the lowest index among equals). *)
Theorem cache_evict_correct last_used max_cached :
  (cache_evict last_used max_cached = None <->
     length last_used < max_cached \/ last_used = []) /\
  (forall i, cache_evict last_used max_cached = Some i ->
     max_cached <= length last_used /\
     exists t, last_used !! i = Some t /\
       (forall j t', last_used !! j = Some t' -> (t <= t')%Z) /\
       (forall j t', j < i -> last_used !! j = Some t' -> (t < t')%Z)).
Proof.
  unfold cache_evict. destruct (Nat.ltb_spec (length last_used) max_cached) as [Hl|Hl].
  { split; [naive_solver|done]. }
  split.
  - rewrite fmap_None, min_by_key_None. split.
    + intros He. right. by destruct last_used.
    + intros [?| ->]; [lia|done].
  - intros i. destruct (min_by_key snd (enumerate last_used)) as [[k t]|] eqn:Hm; [|done].
    simpl. intros [= ->]. split; [done|].
    apply min_by_key_Some in Hm as (m & Hm%lookup_enumerate & Hle & Hlt). simpl in Hm.
    destruct Hm as [-> Hm]. exists t. split; [done|]. split.
    + intros j t' Hj. apply (Hle j (j, t')), lookup_enumerate. done.
    + intros j t' Hj Ht'. apply (Hlt j (j, t')); [done|]. by apply lookup_enumerate.
Qed.

End Policy.
