(* ===== verification/PolicyTests.v ===== *)
(** * The property tests of the pool policy (src/src/pool_policy.rs, mod tests)

    The sources check the policy with proptest: ten properties on random pools. Each is a
    boolean function here, with the assertions of the test and [false] where the test would
    panic, and each is proved [true] on every input the generators can make. *)

From stdpp Require Import base list gmap strings sorting.
From Stdlib Require Import ZArith Lia.
From S2P Require Import Prelude PoolPolicy.

Module PolicyTests.
Import Policy.

(** What the generators make: an owner, whether there is capacity, an age in ms. *)
Definition Generated : Type := string * bool * option Z.

(** [load]; an instant is in nanoseconds. *)
Definition load (epoch : Z) (isolates : list Generated) (limits : Limits) : PoolLoad :=
  mkPoolLoad ((fun g => mkIsolateLoad (fst (fst g)) (snd (fst g))
                          ((fun ms => epoch + ms * 1000000)%Z <$> snd g)) <$> isolates) limits.

Definition is_idle (i : IsolateLoad) : bool := bool_decide (is_Some (idle_since i)).

Definition reuse_names_an_isolate_of_the_owner_with_capacity
    (epoch : Z) (isolates : list Generated) (limits : Limits) (o : string) : bool :=
  let load := load epoch isolates limits in
  match acquire load o with
  | Reuse index =>
      match Policy.isolates load !! index with
      | Some i => bool_decide (owner i = o) && has_capacity i
      | None => false
      end
  | _ => true
  end.

Definition an_owner_at_its_limit_gets_no_new_isolate
    (epoch : Z) (isolates : list Generated) (limits : Limits) (o : string) : bool :=
  let load := load epoch isolates limits in
  let owned := length (filter (fun i => owner i = o) (Policy.isolates load)) in
  let at_limit := match max_per_owner limits with Some limit => limit <=? owned | None => false end in
  match acquire load o with
  | Build | Evict _ | Overcommit => negb at_limit
  | Refuse OwnerAtLimit => at_limit
  | Reuse _ | Refuse PoolFull => true
  end.

Definition build_stays_under_the_ceiling
    (epoch : Z) (isolates : list Generated) (limits : Limits) (o : string) : bool :=
  let load := load epoch isolates limits in
  match acquire load o with Build => length (Policy.isolates load) <? max_isolates limits | _ => true end.

Definition evict_names_the_idle_isolate_unused_for_longest
    (epoch : Z) (isolates : list Generated) (limits : Limits) (o : string) : bool :=
  let load := load epoch isolates limits in
  match acquire load o with
  | Evict index =>
      match Policy.isolates load !! index ≫= idle_since with
      | Some since =>
          (max_isolates limits <=? length (Policy.isolates load)) &&
          forallb (fun other => (since <=? other)%Z) (omap idle_since (Policy.isolates load))
      | None => false
      end
  | _ => true
  end.

Definition overcommit_only_when_allowed_and_nothing_is_idle
    (epoch : Z) (isolates : list Generated) (limits : Limits) (o : string) : bool :=
  let load := load epoch isolates limits in
  let any_idle := existsb is_idle (Policy.isolates load) in
  match acquire load o with
  | Overcommit => overcommit limits && negb any_idle
  | Refuse PoolFull =>
      negb (overcommit limits) && negb any_idle && (max_isolates limits <=? length (Policy.isolates load))
  | _ => true
  end.

(** [windows(2)] of a list, each pair. *)
Fixpoint increasing (l : list nat) : bool :=
  match l with x :: ((y :: _) as l') => (x <? y) && increasing l' | _ => true end.

Definition reclaim_drops_only_idle_isolates_down_to_the_ceiling
    (epoch : Z) (isolates : list Generated) (limits : Limits) : bool :=
  let load := load epoch isolates limits in
  let dropped := reclaim load in
  let excess := length (Policy.isolates load) - max_isolates limits in
  let idle := length (filter (fun i => is_idle i = true) (Policy.isolates load)) in
  (length dropped <=? excess) && increasing dropped &&
  forallb (fun index => match Policy.isolates load !! index with Some i => is_idle i | None => false end) dropped &&
  (length dropped =? min excess idle).

Definition warm_hit_matches_the_whole_key_under_the_reuse_cap
    (keys : list (ContextKey * Z)) (wanted : ContextKey) (max_reuses : Z) : bool :=
  match warm_hit keys wanted max_reuses with
  | Some index =>
      match keys !! index with
      | Some (key, reuses) => bool_decide (key = wanted) && (reuses <? max_reuses)%Z
      | None => false
      end
  | None => negb (existsb (fun k => bool_decide (fst k = wanted) && (snd k <? max_reuses)%Z) keys)
  end.

Definition implies (a b : bool) : bool := negb a || b.

Definition a_superseded_context_is_an_older_deployment_of_the_same_worker (cached wanted : ContextKey) : bool :=
  implies (superseded cached wanted)
    (bool_decide (worker_id cached = worker_id wanted) && negb (bool_decide (cached = wanted)) &&
     (version cached <=? version wanted)%Z) &&
  implies (bool_decide (worker_id cached = worker_id wanted) && (version cached <? version wanted)%Z)
    (superseded cached wanted) &&
  implies (bool_decide (worker_id cached = worker_id wanted) && (version wanted <? version cached)%Z)
    (negb (superseded cached wanted)).

Definition a_kept_context_is_one_a_warm_hit_can_take (reuses max_reuses : Z) (max_cached : nat) : bool :=
  let key := mkContextKey "w" 1 None in
  let reachable := (0 <? max_cached) && bool_decide (is_Some (warm_hit [(key, reuses)] key max_reuses)) in
  Bool.eqb (keep_context reuses max_reuses max_cached) reachable.

Definition cache_evict_names_the_oldest_only_when_full (epoch : Z) (ages : list Z) (max_cached : nat) : bool :=
  let last_used := (fun ms => epoch + ms * 1000000)%Z <$> ages in
  match cache_evict last_used max_cached with
  | Some index =>
      match last_used !! index with
      | Some oldest => (max_cached <=? length last_used) && forallb (fun used => (oldest <=? used)%Z) last_used
      | None => false
      end
  | None => length last_used <? max_cached
  end.

(** ** Proofs *)

(** A test of [acquire] holds when it holds for every decision the specification allows. *)
Ltac by_spec d Hd :=
  cbv zeta;
  match goal with
  | |- context [acquire ?ld ?o] =>
      generalize (acquire_sound ld o); generalize (acquire ld o); intros d Hd
  end.

Lemma idle_at_lookup l i t : idle_at l i t -> l !! i ≫= idle_since = Some t.
Proof. intros (iso & -> & H). done. Qed.

Lemma none_idle l : (forall j t, ~ idle_at l j t) -> existsb is_idle l = false.
Proof.
  intros H. apply not_true_is_false. rewrite existsb_exists. intros (iso & Hin & Hi).
  apply list_elem_of_In, list_elem_of_lookup in Hin as [j Hj]. apply bool_decide_eq_true in Hi as [t Ht].
  apply (H j t). by exists iso.
Qed.

Lemma limit_test ld o :
  under_owner_limit ld o -> at_owner_limit (limits ld) (owned (isolates ld) o) = false.
Proof.
  unfold under_owner_limit, at_owner_limit. destruct (max_per_owner (limits ld)); [|done].
  intros H. apply Nat.leb_gt. by apply H.
Qed.

Lemma reuse_holds epoch l lim o : reuse_names_an_isolate_of_the_owner_with_capacity epoch l lim o = true.
Proof.
  unfold reuse_names_an_isolate_of_the_owner_with_capacity. by_spec d Hd.
  destruct Hd as [i (iso & Hi & Ho & Hc) _| | | | | ]; try done. by rewrite Hi, Hc, bool_decide_eq_true_2.
Qed.

Lemma owner_limit_holds epoch l lim o : an_owner_at_its_limit_gets_no_new_isolate epoch l lim o = true.
Proof.
  unfold an_owner_at_its_limit_gets_no_new_isolate. by_spec d Hd.
  destruct Hd as [ |m _ Hm Hle|_ Hun _|i t _ Hun _ _ _ _|_ Hun _ _ _| ]; try done;
    try (apply limit_test in Hun; unfold at_owner_limit, owned in Hun;
         change (limits (load epoch l lim)) with lim in Hun; by rewrite Hun).
  change (limits (load epoch l lim)) with lim in Hm. rewrite Hm. by apply Nat.leb_le.
Qed.

Lemma build_holds epoch l lim o : build_stays_under_the_ceiling epoch l lim o = true.
Proof.
  unfold build_stays_under_the_ceiling. by_spec d Hd.
  destruct Hd as [ | |_ _ Hlt| | | ]; try done. by apply Nat.ltb_lt.
Qed.

Lemma evict_holds epoch l lim o : evict_names_the_idle_isolate_unused_for_longest epoch l lim o = true.
Proof.
  unfold evict_names_the_idle_isolate_unused_for_longest. by_spec d Hd.
  destruct Hd as [ | | |i t _ _ Hge Ht Hle _| | ]; try done. rewrite (idle_at_lookup _ _ _ Ht). apply andb_true_iff.
  split; [by apply Nat.leb_le|]. apply forallb_forall. intros t' Hin. apply Z.leb_le.
  apply list_elem_of_In, list_elem_of_omap in Hin as (iso & Hiso & Ht').
  apply list_elem_of_lookup in Hiso as [j Hj]. apply (Hle j). by exists iso.
Qed.

Lemma overcommit_holds epoch l lim o : overcommit_only_when_allowed_and_nothing_is_idle epoch l lim o = true.
Proof.
  unfold overcommit_only_when_allowed_and_nothing_is_idle. by_spec d Hd.
  destruct Hd as [ | | | |_ _ _ Hno Ho|_ _ Hge Hno Ho]; try done; rewrite (none_idle _ Hno); simpl in Ho; rewrite Ho; [done|].
  simpl. by apply Nat.leb_le.
Qed.

Lemma increasing_sorted l : StronglySorted lt l -> increasing l = true.
Proof.
  induction 1 as [|x l Hs IH Hf]; [done|]. destruct l as [|y l]; [done|].
  apply Forall_cons in Hf as [Hxy _]. change (increasing (x :: y :: l)) with ((x <? y) && increasing (y :: l)).
  rewrite IH, andb_true_r. by apply Nat.ltb_lt.
Qed.

Lemma reclaim_holds epoch l lim : reclaim_drops_only_idle_isolates_down_to_the_ceiling epoch l lim = true.
Proof.
  unfold reclaim_drops_only_idle_isolates_down_to_the_ceiling. set (ld := load epoch l lim).
  assert (length (filter (fun i => is_idle i = true) (isolates ld)) =
          length (filter (fun i => is_Some (idle_since i)) (isolates ld))) as Hidle.
  { f_equal. apply list_filter_iff. intros i. unfold is_idle. apply bool_decide_eq_true. }
  rewrite Hidle. pose proof (length_reclaim ld) as Hlen. change (max_isolates lim) with (max_isolates (limits ld)).
  rewrite !andb_true_iff. split_and!.
  - apply Nat.leb_le. lia.
  - apply increasing_sorted, reclaim_sorted.
  - apply forallb_forall. intros i Hi%list_elem_of_In. destruct (reclaim_idle _ _ Hi) as (t & iso & Hl & Ht).
    rewrite Hl. unfold is_idle. rewrite Ht. by apply bool_decide_eq_true_2.
  - by apply Nat.eqb_eq.
Qed.

Lemma warm_hit_holds keys wanted max_reuses : warm_hit_matches_the_whole_key_under_the_reuse_cap keys wanted max_reuses = true.
Proof.
  unfold warm_hit_matches_the_whole_key_under_the_reuse_cap, warm_hit.
  destruct (position _ keys) as [i|] eqn:E.
  - apply position_Some in E as [([k r] & Hl & Ht) _]. by rewrite Hl.
  - apply negb_true_iff, not_true_is_false. rewrite existsb_exists. intros (k & Hin%list_elem_of_In & Hk).
    rewrite position_None in E. by rewrite (E k Hin) in Hk.
Qed.

Lemma superseded_holds c w : a_superseded_context_is_an_older_deployment_of_the_same_worker c w = true.
Proof.
  unfold a_superseded_context_is_an_older_deployment_of_the_same_worker, implies.
  destruct (superseded c w) eqn:E; simpl.
  - apply superseded_true in E as (Hw & Hv). rewrite (bool_decide_eq_true_2 _ Hw). simpl.
    assert (version c <= version w)%Z as Hle by lia.
    assert (c <> w) as Hne.
    { intros ->. destruct Hv as [Hv|[_ Hv]]; [lia|]. destruct (env_updated_at w); [lia|done]. }
    rewrite (bool_decide_eq_false_2 _ Hne). simpl. rewrite (proj2 (Z.leb_le _ _) Hle), (proj2 (Z.ltb_ge _ _) Hle). simpl.
    by rewrite orb_true_r.
  - destruct (bool_decide (worker_id c = worker_id w)) eqn:Hw; simpl; [|done].
    destruct (Z.ltb_spec (version c) (version w)); simpl; [|by rewrite orb_true_r].
    apply bool_decide_eq_true in Hw. exfalso.
    assert (superseded c w = true) by (apply superseded_true; split; [done|by left]). congruence.
Qed.

Lemma kept_holds reuses max_reuses max_cached : a_kept_context_is_one_a_warm_hit_can_take reuses max_reuses max_cached = true.
Proof.
  unfold a_kept_context_is_one_a_warm_hit_can_take, keep_context, warm_hit. cbn [position fst snd].
  rewrite (bool_decide_eq_true_2 (mkContextKey "w" 1 None = mkContextKey "w" 1 None)) by done. cbn [andb].
  destruct (reuses <? max_reuses)%Z; simpl; by destruct (0 <? max_cached).
Qed.

Lemma cache_evict_holds epoch ages max_cached :
  1 <= max_cached -> cache_evict_names_the_oldest_only_when_full epoch ages max_cached = true.
Proof.
  intros Hmax. unfold cache_evict_names_the_oldest_only_when_full. set (l := _ <$> ages). unfold cache_evict.
  destruct (Nat.ltb_spec (length l) max_cached) as [Hlt|Hge]; [done|].
  destruct (min_by_key snd (enumerate l)) as [[i t]|] eqn:E; simpl.
  - apply min_by_key_Some in E as (k & Hk & Hle & _). apply lookup_enumerate in Hk as [<- Hl]. simpl in Hl. rewrite Hl.
    apply andb_true_iff. split; [by apply Nat.leb_le|]. apply forallb_forall. intros u Hu%list_elem_of_In.
    apply list_elem_of_lookup in Hu as [j Hj]. apply Z.leb_le. apply (Hle j (j, u)). by apply lookup_enumerate.
  - apply min_by_key_None in E. assert (length (enumerate l) = length l) as Hlen by apply length_imap.
    rewrite E in Hlen. simpl in Hlen. lia.
Qed.

(** The ten property tests of the sources hold on every input of their generators:
    each assertion is true and no index panics. *)
Theorem policy_tests_hold epoch isolates lim o keys wanted cached reuses max_reuses ages max_cached :
  1 <= max_cached ->
  reuse_names_an_isolate_of_the_owner_with_capacity epoch isolates lim o = true /\
  an_owner_at_its_limit_gets_no_new_isolate epoch isolates lim o = true /\
  build_stays_under_the_ceiling epoch isolates lim o = true /\
  evict_names_the_idle_isolate_unused_for_longest epoch isolates lim o = true /\
  overcommit_only_when_allowed_and_nothing_is_idle epoch isolates lim o = true /\
  reclaim_drops_only_idle_isolates_down_to_the_ceiling epoch isolates lim = true /\
  warm_hit_matches_the_whole_key_under_the_reuse_cap keys wanted max_reuses = true /\
  a_superseded_context_is_an_older_deployment_of_the_same_worker cached wanted = true /\
  a_kept_context_is_one_a_warm_hit_can_take reuses max_reuses max_cached = true /\
  cache_evict_names_the_oldest_only_when_full epoch ages max_cached = true.
Proof.
  intros Hmax. split_and!;
    auto using reuse_holds, owner_limit_holds, build_holds, evict_holds, overcommit_holds, reclaim_holds,
      warm_hit_holds, superseded_holds, kept_holds, cache_evict_holds.
Qed.

Lemma policy_tests_hold_witness :
  1 <= 2 /\ cache_evict_names_the_oldest_only_when_full 0 [5; 3; 4]%Z 2 = true /\
  cache_evict ((fun ms => 0 + ms * 1000000)%Z <$> [5; 3; 4]%Z) 2 = Some 1.
Proof.
  split; [lia|]. split; [|reflexivity].
  apply (policy_tests_hold 0 [] (mkLimits 1 None false) "a" [] (mkContextKey "w" 1 None) (mkContextKey "w" 1 None) 0 1
           [5; 3; 4]%Z 2). lia.
Defined.

End PolicyTests.
