(* ===== verification/Concurrency.v ===== *)
(** * The slots of one isolate (src/src/pool.rs, [ConcurrencyState])

    The counter of active requests with its compare-and-swap loop. [try_acquire]
    is the loop run without interference, which is how the thread-local pool
    runs it; [CasLoop] is the loop itself, with any number of threads
    interleaved instruction by instruction and weak exchanges that may fail
    spuriously. *)

From stdpp Require Import base list relations.
From Stdlib Require Import ZArith Lia.
From S2P Require Import Prelude.

Module Slots.

(** [async_waiter] is the presence of the fair queue. *)
Record ConcurrencyState := mkConcurrency {
  active : Z;
  max_concurrent : Z;
  async_waiter : bool
}.

Definition new (max_concurrent : Z) : ConcurrencyState :=
  mkConcurrency 0 max_concurrent (1 <? max_concurrent)%Z.

Definition set_active (s : ConcurrencyState) (a : Z) : ConcurrencyState :=
  mkConcurrency a (max_concurrent s) (async_waiter s).

Definition try_acquire (s : ConcurrencyState) : bool * ConcurrencyState :=
  if (max_concurrent s <=? active s)%Z then (false, s)
  else (true, set_active s (wrap_usize (active s + 1))).

(** [fetch_sub] wraps. *)
Definition release (s : ConcurrencyState) : ConcurrencyState :=
  set_active s (wrap_usize (active s - 1)).

Definition is_free (s : ConcurrencyState) : bool := (active s =? 0)%Z.

Definition has_capacity (s : ConcurrencyState) : bool := (active s <? max_concurrent s)%Z.

End Slots.

(** ** Counting lemmas on lists *)

Section Count.
Context {A : Type} (f : A -> bool).

Definition count (l : list A) : nat := length (filter (fun x => f x = true) l).

Definition b2n (b : bool) : nat := if b then 1 else 0.

Lemma count_cons x l : count (x :: l) = b2n (f x) + count l.
Proof. unfold count. rewrite filter_cons. destruct (f x); simpl; done. Qed.

Lemma count_app l1 l2 : count (l1 ++ l2) = count l1 + count l2.
Proof. unfold count. by rewrite filter_app, length_app. Qed.

(** Replacing one element shifts the count by the difference. *)
Lemma count_insert l i x y :
  l !! i = Some x -> count (<[i := y]> l) + b2n (f x) = count l + b2n (f y).
Proof.
  revert i; induction l as [|z l IH]; intros i Hi; [done|].
  destruct i as [|i]; simpl in *; simplify_eq; rewrite !count_cons.
  - lia.
  - specialize (IH i Hi). lia.
Qed.

Lemma count_pos l i x : l !! i = Some x -> f x = true -> 0 < count l.
Proof.
  intros Hi Hf. pose proof (count_insert l i x x Hi) as _.
  rewrite <-(take_drop_middle l i x Hi), count_app, count_cons, Hf. simpl. lia.
Qed.

Lemma count_le l : count l <= length l.
Proof. unfold count. apply length_filter. Qed.

End Count.

(** ** The compare-and-swap loop, interleaved *)

Module CasLoop.
Import Slots.

(** Where a thread stands in [try_acquire] and [release]. *)
Inductive pc :=
| Loop                   (* about to load [active] *)
| Exchange (current : Z) (* loaded a value under the limit *)
| Answered (got : bool)  (* [try_acquire] returned *)
| Released.              (* gave its slot back *)

(** The shared counter and the threads. *)
Record config := mkConfig { shared : ConcurrencyState; threads : list pc }.

Definition holds (p : pc) : bool := match p with Answered true => true | _ => false end.

Inductive step (c : config) : config -> Prop :=
| step_full i :
    threads c !! i = Some Loop ->
    (max_concurrent (shared c) <= active (shared c))%Z ->
    step c (mkConfig (shared c) (<[i := Answered false]> (threads c)))
| step_load i :
    threads c !! i = Some Loop ->
    (active (shared c) < max_concurrent (shared c))%Z ->
    step c (mkConfig (shared c) (<[i := Exchange (active (shared c))]> (threads c)))
| step_exchange i :
    threads c !! i = Some (Exchange (active (shared c))) ->
    step c (mkConfig (set_active (shared c) (wrap_usize (active (shared c) + 1)))
                     (<[i := Answered true]> (threads c)))
| step_retry i current :
    (* a lost race, or the spurious failure of [compare_exchange_weak] *)
    threads c !! i = Some (Exchange current) ->
    step c (mkConfig (shared c) (<[i := Loop]> (threads c)))
| step_release i :
    threads c !! i = Some (Answered true) ->
    step c (mkConfig (release (shared c)) (<[i := Released]> (threads c))).

Definition init (max n : nat) (c : config) : Prop :=
  shared c = new (Z.of_nat max) /\ threads c = replicate n Loop.

(** The counter is the number of slots held, never above the limit; a loaded
    value is under the limit. *)
Definition inv (max : nat) (c : config) : Prop :=
  max_concurrent (shared c) = Z.of_nat max /\
  active (shared c) = Z.of_nat (count holds (threads c)) /\
  count holds (threads c) <= max /\
  (forall i current, threads c !! i = Some (Exchange current) -> (current < Z.of_nat max)%Z).

Lemma lookup_insert_pc (l : list pc) i j p q :
  <[i := p]> l !! j = Some q -> (i = j /\ p = q) \/ l !! j = Some q.
Proof. rewrite list_lookup_insert_Some. naive_solver. Qed.

Lemma inv_step max c c' : (Z.of_nat max < 2 ^ 64)%Z -> inv max c -> step c c' -> inv max c'.
Proof.
  intros Hmax (Hm & Ha & Hc & He) Hstep.
  destruct Hstep as [i Hi Hfull|i Hi Hlt|i Hi|i cur Hi|i Hi]; simpl;
    (match goal with |- inv _ (mkConfig _ (<[_ := ?q]> _)) =>
       pose proof (count_insert holds _ _ _ q Hi) as Hcount; simpl in Hcount end);
    unfold inv; cbn [shared threads set_active release max_concurrent active].
  - split_and!; [done|lia|lia|]. intros j k [[-> ?]|?]%lookup_insert_pc; [done|eauto].
  - split_and!; [done|lia|lia|]. intros j k [[-> [= <-]]|?]%lookup_insert_pc; [lia|eauto].
  - assert (active (shared c) < Z.of_nat max)%Z by (eapply He; exact Hi).
    autorewrite with machine. split_and!; [done|lia|lia|].
    intros j k [[-> ?]|?]%lookup_insert_pc; [done|eauto].
  - split_and!; [done|lia|lia|]. intros j k [[-> ?]|?]%lookup_insert_pc; [done|eauto].
  - assert (0 < count holds (threads c)) by (by eapply count_pos).
    autorewrite with machine. split_and!; [done|lia|lia|].
    intros j k [[-> ?]|?]%lookup_insert_pc; [done|eauto].
Qed.

Lemma inv_init max n c : init max n c -> inv max c.
Proof.
  intros [Hs Ht]. unfold inv. rewrite Hs, Ht. simpl.
  assert (count holds (replicate n Loop) = 0) as ->.
  { clear. induction n as [|n IH]; [done|]. simpl. rewrite count_cons, IH. done. }
  split_and!; [done|done|lia|]. intros i k [? _]%lookup_replicate. done.
Qed.

(** However the threads interleave in the loop of [try_acquire] and in
    [release], at most [max_concurrent] of them hold a slot, the counter is the
    number of slots held, and it never wraps below zero. *)
Theorem cas_never_oversubscribes max n c :
  (Z.of_nat max < 2 ^ 64)%Z ->
  reachable (init max n) step c ->
  count holds (threads c) <= max /\ active (shared c) = Z.of_nat (count holds (threads c)).
Proof.
  intros Hmax Hr.
  destruct (reachable_invariant (init max n) step (inv max)) with (s := c) as (_ & ? & ? & _);
    [apply inv_init|intros; by eapply inv_step|done|done].
Qed.

(** Two threads race for one slot: both load 0, one wins, the other retries. *)
Definition race : config :=
  mkConfig (mkConcurrency 1 1 false) [Answered true; Loop].

Lemma race_reachable : reachable (init 1 2) step race.
Proof.
  exists (mkConfig (new 1) [Loop; Loop]). split; [done|].
  eapply rtc_l; [apply (step_load _ 0); simpl; [done|lia]|]. simpl.
  eapply rtc_l; [apply (step_load _ 1); simpl; [done|lia]|]. simpl.
  eapply rtc_l; [apply (step_exchange _ 0); done|]. simpl.
  eapply rtc_l; [apply (step_retry _ 1 0); done|]. simpl. reflexivity.
Defined.

Lemma cas_never_oversubscribes_witness :
  count holds (threads race) <= 1 /\ active (shared race) = Z.of_nat (count holds (threads race)).
Proof.
  exact (cas_never_oversubscribes 1 2 race eq_refl race_reachable).
Defined.

End CasLoop.
