(* ===== verification/Pool.v ===== *)
(** * The isolate pool (src/src/pool.rs)

    The thread-local pool of tagged isolates and [execute_pinned], split at
    its awaits: a request arrives and takes a slot, does its bookkeeping under
    the isolate's mutex, runs its event, stores its context back and releases
    its slot. Requests interleave at these points; what V8 and the guest do in
    between (context creation, reset, exec, waitUntil) is an outcome the
    environment chooses. *)

From stdpp Require Import base list gmap strings relations.
From Stdlib Require Import ZArith Lia.
From S2P Require Import Prelude PoolPolicy Concurrency.

Module Pool.

(** ** Data *)

(** [PinnedPoolConfig], less the V8 limits new isolates get. *)
Record PinnedPoolConfig := mkPoolConfig {
  max_per_thread : nat;
  max_per_owner : option nat;
  max_concurrent_per_isolate : Z;
  max_cached_contexts : nat;
  overcommit : bool;
  max_context_reuses : Z
}.

(** A cached context; [request] is the identity of its [RequestContext]. *)
Record CachedContext := mkCachedContext {
  request : nat;
  worker_id : string;
  version : Z;
  reuse_count : Z;
  ctx_last_used : Z;
  env_updated_at : option Z
}.

(** An isolate; [iid] is the identity of its [Arc]. The fields of
    [TaggedIsolateInner] are inlined: its mutex is never held across an await,
    so on the thread of the pool each critical section is one step and
    [try_lock] in [load] succeeds. *)
Record TaggedIsolate := mkTaggedIsolate {
  iid : nat;
  owner_id : string;
  concurrency : Slots.ConcurrencyState;
  cached_contexts : list CachedContext;
  max_cached : nat;
  last_used : Z;
  total_requests : Z
}.

Record ThreadLocalPool := mkPool {
  isolates : list TaggedIsolate;
  policy : Policy.Limits;
  next_iid : nat
}.

(** ** Initialisation *)

(** [init_pinned_pool]: the configuration is set once; [None] is the panic of
    its assertion. *)
Definition init_pinned_pool (slot : option PinnedPoolConfig) (config : PinnedPoolConfig)
  : option (option PinnedPoolConfig) :=
  if (1 <=? max_concurrent_per_isolate config)%Z
  then Some (match slot with Some c => Some c | None => Some config end)
  else None.

Definition pool_new (lim : Policy.Limits) : ThreadLocalPool := mkPool [] lim 0.

(** [ensure_pool_initialized] *)
Definition ensure_pool_initialized (config : PinnedPoolConfig) (p : option ThreadLocalPool)
  : ThreadLocalPool :=
  match p with
  | Some pool => pool
  | None => pool_new (Policy.mkLimits (max_per_thread config) (max_per_owner config)
                                      (overcommit config))
  end.

(** ** Isolates *)

(** [TaggedIsolate::new] *)
Definition isolate_new (i : nat) (o : string) (config : PinnedPoolConfig) (now : Z)
  : TaggedIsolate :=
  mkTaggedIsolate i o (Slots.new (max_concurrent_per_isolate config)) []
    (max_cached_contexts config) now 0.

Definition with_concurrency (t : TaggedIsolate) (c : Slots.ConcurrencyState) : TaggedIsolate :=
  mkTaggedIsolate (iid t) (owner_id t) c (cached_contexts t) (max_cached t) (last_used t)
    (total_requests t).

Definition with_contexts (t : TaggedIsolate) (l : list CachedContext) : TaggedIsolate :=
  mkTaggedIsolate (iid t) (owner_id t) (concurrency t) l (max_cached t) (last_used t)
    (total_requests t).

(** [TaggedIsolate::load] *)
Definition isolate_load (t : TaggedIsolate) : Policy.IsolateLoad :=
  Policy.mkIsolateLoad (owner_id t) (Slots.has_capacity (concurrency t))
    (if Slots.is_free (concurrency t) then Some (last_used t) else None).

(** [ThreadLocalPool::load] *)
Definition load (p : ThreadLocalPool) : Policy.PoolLoad :=
  Policy.mkPoolLoad (isolate_load <$> isolates p) (policy p).

(** Mutation through an [Arc]: every handle to isolate [i] sees it. *)
Definition update (i : nat) (f : TaggedIsolate -> TaggedIsolate) (l : list TaggedIsolate)
  : list TaggedIsolate :=
  (fun t => if decide (iid t = i) then f t else t) <$> l.

Definition set_isolates (p : ThreadLocalPool) (l : list TaggedIsolate) : ThreadLocalPool :=
  mkPool l (policy p) (next_iid p).

(** [ThreadLocalPool::build]: the first slot of the new isolate is taken. *)
Definition build (config : PinnedPoolConfig) (p : ThreadLocalPool) (o : string) (now : Z)
  : option (ThreadLocalPool * nat * bool) :=
  let t := isolate_new (next_iid p) o config now in
  match Slots.try_acquire (concurrency t) with
  | (true, c) =>
      Some (mkPool (isolates p ++ [with_concurrency t c]) (policy p) (S (next_iid p)),
            next_iid p, false)
  | (false, _) => None
  end.

(** [ThreadLocalPool::acquire]; the outer [None] is a failed assertion or an
    index out of range. An isolate that leaves the list is dropped with its
    contexts. *)
Definition acquire (config : PinnedPoolConfig) (p : ThreadLocalPool) (o : string) (now : Z)
  : option (result (ThreadLocalPool * nat * bool) Policy.Refusal) :=
  match Policy.acquire (load p) o with
  | Policy.Reuse index =>
      t ← isolates p !! index;
      match Slots.try_acquire (concurrency t) with
      | (true, c) =>
          Some (Ok (set_isolates p (update (iid t) (fun t => with_concurrency t c) (isolates p)),
                    iid t, true))
      | (false, _) => None
      end
  | Policy.Build => Ok <$> build config p o now
  | Policy.Evict index =>
      '(_, rest) ← vec_remove index (isolates p);
      Ok <$> build config (set_isolates p rest) o now
  | Policy.Overcommit => Ok <$> build config p o now
  | Policy.Refuse refusal => Some (Err refusal)
  end.

(** The loop of [ThreadLocalPool::reclaim], over the indices from the last. *)
Fixpoint remove_all (indices : list nat) (l : list TaggedIsolate) : option (list TaggedIsolate) :=
  match indices with
  | [] => Some l
  | i :: rest => '(_, l') ← vec_remove i l; remove_all rest l'
  end.

(** [ThreadLocalPool::reclaim] *)
Definition reclaim (p : ThreadLocalPool) : option ThreadLocalPool :=
  l ← remove_all (rev (Policy.reclaim (load p))) (isolates p);
  Some (set_isolates p l).

(** [release_to_local_pool] *)
Definition release_to_local_pool (p : ThreadLocalPool) (i : nat) : option ThreadLocalPool :=
  reclaim (set_isolates p
    (update i (fun t => with_concurrency t (Slots.release (concurrency t))) (isolates p))).

(** [ThreadLocalPool::stats] *)
Record LocalPoolStats := mkStats {
  total : nat; in_use : nat; cached : nat; capacity : nat
}.

Definition stats (p : ThreadLocalPool) : LocalPoolStats :=
  mkStats (length (isolates p))
    (count (fun t => negb (Slots.is_free (concurrency t))) (isolates p))
    (sum_list_with (fun t => length (cached_contexts t)) (isolates p))
    (Policy.max_isolates (policy p)).

(** ** The context cache of an isolate *)

Definition key_of (c : CachedContext) : Policy.ContextKey :=
  Policy.mkContextKey (worker_id c) (version c) (env_updated_at c).

(** The loop that takes the superseded contexts out: [idx] advances over the
    contexts it keeps, and stays after a [swap_remove]. Each iteration
    shortens what is left to visit, so [length l] iterations are enough. *)
Fixpoint sweep (wanted : Policy.ContextKey) (fuel idx : nat) (l dropped : list CachedContext)
  : option (list CachedContext * list CachedContext) :=
  match fuel with
  | 0 => Some (l, dropped)
  | S fuel =>
      match l !! idx with
      | None => Some (l, dropped)
      | Some c =>
          if Policy.superseded (key_of c) wanted
          then '(c, l') ← swap_remove idx l; sweep wanted fuel idx l' (dropped ++ [c])
          else sweep wanted fuel (S idx) l dropped
      end
  end.

(** The bookkeeping of [execute_pinned] under the mutex of the isolate: the
    context to reuse, if any, and the isolate without it and without the
    superseded contexts. *)
Definition bookkeeping (config : PinnedPoolConfig) (wanted : Policy.ContextKey) (now : Z)
    (t : TaggedIsolate) : option (option CachedContext * list CachedContext * TaggedIsolate) :=
  let keys := (fun c => (key_of c, reuse_count c)) <$> cached_contexts t in
  '(found, rest) ←
    match Policy.warm_hit keys wanted (max_context_reuses config) with
    | Some idx => '(c, rest) ← swap_remove idx (cached_contexts t); Some (Some c, rest)
    | None => Some (None, cached_contexts t)
    end;
  '(kept, dropped) ← sweep wanted (length rest) 0 rest [];
  Some (found, dropped,
        mkTaggedIsolate (iid t) (owner_id t) (concurrency t) kept (max_cached t) now
          (wrap_u64 (total_requests t + 1))).

(** Returning a context to the cache: a full cache gives up the context unused
    for longest. *)
Definition store_context (c : CachedContext) (t : TaggedIsolate) : option TaggedIsolate :=
  let contexts := cached_contexts t in
  match Policy.cache_evict (ctx_last_used <$> contexts) (max_cached t) with
  | Some idx => '(_, rest) ← swap_remove idx contexts; Some (with_contexts t (rest ++ [c]))
  | None => Some (with_contexts t (contexts ++ [c]))
  end.

(** ** [execute_pinned] as steps *)

(** The parts of [PinnedExecuteRequest] the pool reads, a string as its UTF-8 bytes;
    [req_debug] is whether a subscriber of tracing takes DEBUG events while it runs, which is
    when their arguments are evaluated. *)
Record Request := mkRequest {
  req_owner : string;
  req_worker : string;
  req_version : Z;
  req_env : option Z;
  req_debug : bool
}.

(** [str::is_char_boundary] *)
Definition is_char_boundary (s : string) (n : nat) : bool :=
  (n =? 0) || (n =? String.length s) ||
  match String.get n s with
  | Some c => negb ((128 <=? Ascii.nat_of_ascii c) && (Ascii.nat_of_ascii c <? 192))
  | None => false
  end.

(** [&worker_id[..8.min(worker_id.len())]], which panics inside a character. *)
Definition short_id (worker_id : string) : option string :=
  let n := Nat.min 8 (String.length worker_id) in
  if is_char_boundary worker_id n then Some (String.substring 0 n worker_id) else None.

Definition loggable (r : Request) : bool :=
  negb (req_debug r) || bool_decide (is_Some (short_id (req_worker r))).

Definition wanted_key (r : Request) : Policy.ContextKey :=
  Policy.mkContextKey (req_worker r) (req_version r) (req_env r).

(** Where a request stands between two awaits. *)
Inductive phase :=
| Acquired (i : nat)                                   (* waits for [inner] *)
| Warm (i : nat) (c : CachedContext)                   (* runs on a cached context *)
| Cold (i : nat)                                       (* builds a context and runs *)
| Storing (i : nat) (c : CachedContext) (warm : bool)  (* waits for [inner] again *)
| Releasing (i : nat) (r : result unit TerminationReason)
| Finished (r : result unit TerminationReason).

(** What V8 and the guest did while a request ran. *)
Record outcome := mkOutcome {
  o_reset : result unit string;
  o_new : result unit TerminationReason;
  o_exec : result unit TerminationReason;
  o_drain : result unit TerminationReason
}.

(** The thread: its pool, the statistics, the requests by arrival, the
    contexts made so far and the requests whose report went out. *)
Record World := mkWorld {
  local_pool : option ThreadLocalPool;
  requests : list (Request * phase);
  TOTAL_REQUESTS : Z;
  CACHE_HITS : Z;
  CACHE_MISSES : Z;
  next_ctx : nat;
  reports : list nat
}.

Inductive label :=
| LArrive (r : Request) (now : Z)
| LBook (rid : nat) (now : Z)
| LRun (rid : nat) (o : outcome) (now : Z)
| LStore (rid : nat) (now : Z)
| LRelease (rid : nat).

(** A label leads to a state, does not apply, or panics. *)
Inductive run := Next (w : World) | Disabled | Panic.

Definition or_panic {A} (o : option A) (k : A -> run) : run :=
  match o with Some a => k a | None => Panic end.

(** [tracing::debug!] with the short id of the worker. *)
Definition log_worker (r : Request) (k : run) : run := if loggable r then k else Panic.

Definition set_phase (w : World) (rid : nat) (r : Request) (ph : phase) : World :=
  mkWorld (local_pool w) (<[rid := (r, ph)]> (requests w)) (TOTAL_REQUESTS w) (CACHE_HITS w)
    (CACHE_MISSES w) (next_ctx w) (reports w).

Definition set_pool (w : World) (p : ThreadLocalPool) : World :=
  mkWorld (Some p) (requests w) (TOTAL_REQUESTS w) (CACHE_HITS w) (CACHE_MISSES w) (next_ctx w)
    (reports w).

Definition report (w : World) (rid : nat) : World :=
  mkWorld (local_pool w) (requests w) (TOTAL_REQUESTS w) (CACHE_HITS w) (CACHE_MISSES w)
    (next_ctx w) (reports w ++ [rid]).

Definition fresh_ctx (w : World) : World :=
  mkWorld (local_pool w) (requests w) (TOTAL_REQUESTS w) (CACHE_HITS w) (CACHE_MISSES w)
    (S (next_ctx w)) (reports w).

(** Run [f] on isolate [i] of the pool, under its mutex. *)
Definition on_isolate (w : World) (i : nat)
    (f : ThreadLocalPool -> TaggedIsolate -> run) : run :=
  match local_pool w with
  | None => Panic
  | Some p =>
      match filter (fun t => iid t = i) (isolates p) with
      | t :: _ => f p t
      | [] => Panic
      end
  end.

Definition arrive (config : PinnedPoolConfig) (w : World) (r : Request) (now : Z) : run :=
  let p := ensure_pool_initialized config (local_pool w) in
  or_panic (acquire config p (req_owner r) now) (fun res =>
    match res with
    | Err refusal =>
        Next (mkWorld (Some p)
                (requests w ++ [(r, Finished (Err (Other (Policy.message refusal))))])
                (wrap_usize (TOTAL_REQUESTS w + 1)) (CACHE_HITS w) (CACHE_MISSES w) (next_ctx w)
                (reports w))
    | Ok (p', i, hit) =>
        Next (mkWorld (Some p') (requests w ++ [(r, Acquired i)])
                (wrap_usize (TOTAL_REQUESTS w + 1))
                (if hit : bool then wrap_usize (CACHE_HITS w + 1) else CACHE_HITS w)
                (if hit then CACHE_MISSES w else wrap_usize (CACHE_MISSES w + 1))
                (next_ctx w) (reports w))
    end).

Definition book (config : PinnedPoolConfig) (w : World) (rid : nat) (r : Request) (i : nat)
    (now : Z) : run :=
  on_isolate w i (fun p t =>
    or_panic (bookkeeping config (wanted_key r) now t) (fun '(found, superseded, t') =>
      let w' := set_pool w (set_isolates p (update i (fun _ => t') (isolates p))) in
      let go := Next (set_phase w' rid r
                        (match found with Some c => Warm i c | None => Cold i end)) in
      match superseded with [] => go | _ :: _ => log_worker r go end)).

(** The warm path, with the reuse counted ([reuse_cnt += 1]). *)
Definition run_warm (config : PinnedPoolConfig) (w : World) (rid : nat) (r : Request) (i : nat)
    (c : CachedContext) (o : outcome) : run :=
  let reuse_cnt := (reuse_count c + 1)%Z in
  let c' := mkCachedContext (request c) (worker_id c) (version c) reuse_cnt (ctx_last_used c)
              (env_updated_at c) in
  log_worker r
  match o_reset o with
  | Err _ => log_worker r (Next (set_phase w rid r (Cold i)))
  | Ok _ =>
      let w := report w rid in
      match o_exec o with
      | Err e => log_worker r (Next (set_phase w rid r (Releasing i (Err e))))
      | Ok _ =>
          match o_drain o with
          | Err _ => log_worker r (Next (set_phase w rid r (Releasing i (Ok tt))))
          | Ok _ =>
              if Policy.keep_context reuse_cnt (max_context_reuses config)
                   (max_cached_contexts config)
              then Next (set_phase w rid r (Storing i c' true))
              else Next (set_phase w rid r (Releasing i (Ok tt)))
          end
      end
  end.

(** The cold path, from its log on. *)
Definition run_cold (config : PinnedPoolConfig) (w : World) (rid : nat) (r : Request) (i : nat)
    (o : outcome) (now : Z) : run :=
  log_worker r
  match o_new o with
  | Err e => Next (set_phase w rid r (Releasing i (Err e)))
  | Ok _ =>
      let c := mkCachedContext (next_ctx w) (req_worker r) (req_version r) 1 now (req_env r) in
      let w := fresh_ctx (report w rid) in
      match o_exec o with
      | Err e => log_worker r (Next (set_phase w rid r (Releasing i (Err e))))
      | Ok _ =>
          match o_drain o with
          | Ok _ =>
              if Policy.keep_context 1 (max_context_reuses config) (max_cached_contexts config)
              then Next (set_phase w rid r (Storing i c false))
              else Next (set_phase w rid r (Releasing i (Ok tt)))
          | Err _ => log_worker r (Next (set_phase w rid r (Releasing i (Ok tt))))
          end
      end
  end.

Definition store (w : World) (rid : nat) (r : Request) (i : nat) (c : CachedContext)
    (warm : bool) (now : Z) : run :=
  let c := if warm
           then mkCachedContext (request c) (worker_id c) (version c) (reuse_count c) now
                  (env_updated_at c)
           else c in
  on_isolate w i (fun p t =>
    or_panic (store_context c t) (fun t' =>
      Next (set_phase (set_pool w (set_isolates p (update i (fun _ => t') (isolates p)))) rid r
              (Releasing i (Ok tt))))).

Definition release (w : World) (rid : nat) (r : Request) (i : nat)
    (res : result unit TerminationReason) : run :=
  match local_pool w with
  | None => Panic
  | Some p =>
      or_panic (release_to_local_pool p i) (fun p' =>
        Next (set_phase (set_pool w p') rid r (Finished res)))
  end.

(** [execute_pinned], one await to the next. *)
Definition execute_pinned (config : PinnedPoolConfig) (w : World) (l : label) : run :=
  match l with
  | LArrive r now => arrive config w r now
  | LBook rid now =>
      match requests w !! rid with
      | Some (r, Acquired i) => book config w rid r i now
      | _ => Disabled
      end
  | LRun rid o now =>
      match requests w !! rid with
      | Some (r, Warm i c) => run_warm config w rid r i c o
      | Some (r, Cold i) => run_cold config w rid r i o now
      | _ => Disabled
      end
  | LStore rid now =>
      match requests w !! rid with
      | Some (r, Storing i c warm) => store w rid r i c warm now
      | _ => Disabled
      end
  | LRelease rid =>
      match requests w !! rid with
      | Some (r, Releasing i res) => release w rid r i res
      | _ => Disabled
      end
  end.

Definition step (config : PinnedPoolConfig) (w w' : World) : Prop :=
  exists l, execute_pinned config w l = Next w'.

Definition initial : World := mkWorld None [] 0 0 0 0 [].

End Pool.
