(* ===== verification/PoolCorrect.v ===== *)
(** * Correctness of the isolate pool

    Invariants of [execute_pinned] under every interleaving of requests: slots
    and owners ([slots_wf]), the context caches ([cache_wf]) and the exclusive
    use of a context ([exclusive]). *)

From stdpp Require Import base list gmap strings relations sorting.
From Stdlib Require Import ZArith Lia.
From S2P Require Import Prelude PoolPolicy Concurrency Pool.

Module PoolCorrect.
Import Pool.

(** ** What the pool sees of the requests *)

(** The isolate a request holds a slot on. *)
Definition slot_of (ph : phase) : option nat :=
  match ph with
  | Acquired i | Warm i _ | Cold i | Storing i _ _ | Releasing i _ => Some i
  | Finished _ => None
  end.

Definition profile (reqs : list (Request * phase)) : list (string * option nat) :=
  (fun rp => (req_owner (fst rp), slot_of (snd rp))) <$> reqs.

Definition holds (i : nat) (p : string * option nat) : bool := bool_decide (snd p = Some i).

(** The requests in flight on isolate [i]. *)
Definition in_flight (i : nat) (prof : list (string * option nat)) : nat := count (holds i) prof.

Definition limits_of (config : PinnedPoolConfig) : Policy.Limits :=
  Policy.mkLimits (max_per_thread config) (max_per_owner config) (overcommit config).

Definition owned (l : list TaggedIsolate) (o : string) : nat :=
  length (filter (fun t => owner_id t = o) l).

(** ** Invariants *)

Section Invariants.
Context (config : PinnedPoolConfig).

(** The configuration [init_pinned_pool] accepts, on a 64-bit machine. *)
Definition valid_config : Prop :=
  (1 <= max_concurrent_per_isolate config < 2 ^ 64)%Z.

(** The counter of an isolate is the number of requests in flight on it, within
    its limit. *)
Definition isolate_wf (prof : list (string * option nat)) (t : TaggedIsolate) : Prop :=
  Slots.max_concurrent (concurrency t) = max_concurrent_per_isolate config /\
  Slots.active (concurrency t) = Z.of_nat (in_flight (iid t) prof) /\
  (Z.of_nat (in_flight (iid t) prof) <= max_concurrent_per_isolate config)%Z.

(** Every slot held is on an isolate of the pool, and of the same owner. *)
Definition slots_held (l : list TaggedIsolate) (prof : list (string * option nat)) : Prop :=
  forall o i, (o, Some i) ∈ prof -> exists t, t ∈ l /\ iid t = i /\ owner_id t = o.

Record slots_wf (p : ThreadLocalPool) (prof : list (string * option nat)) : Prop := {
  wf_policy : policy p = limits_of config;
  wf_nodup : NoDup (iid <$> isolates p);
  wf_fresh : Forall (fun t => iid t < next_iid p) (isolates p);
  wf_isolates : Forall (isolate_wf prof) (isolates p);
  wf_held : slots_held (isolates p) prof;
  wf_owner : forall o m, max_per_owner config = Some m -> owned (isolates p) o <= m;
  wf_ceiling : overcommit config = false -> length (isolates p) <= max_per_thread config
}.

(** ** Lemmas on the list of isolates *)

Lemma update_iid i f l : (forall t, iid (f t) = iid t) -> iid <$> update i f l = iid <$> l.
Proof.
  intros Hf. unfold update. rewrite <-list_fmap_compose. apply list_fmap_ext.
  intros k t _. simpl. case_decide; [apply Hf|done].
Qed.

Lemma update_owned i f l o :
  (forall t, owner_id (f t) = owner_id t) -> owned (update i f l) o = owned l o.
Proof.
  intros Hf. unfold owned, update. induction l as [|t l IH]; [done|].
  rewrite fmap_cons, !filter_cons. destruct (decide (iid t = i)); rewrite ?Hf;
    destruct (decide (owner_id t = o)); rewrite ?length_cons, IH; done.
Qed.

Lemma elem_of_update i f l t' :
  t' ∈ update i f l <->
  exists t, t ∈ l /\ t' = if decide (iid t = i) then f t else t.
Proof. unfold update. rewrite list_elem_of_fmap. naive_solver. Qed.

Lemma length_update i f l : length (update i f l) = length l.
Proof. apply length_fmap. Qed.

Lemma elem_of_delete (l : list TaggedIsolate) k t t' :
  l !! k = Some t -> t' ∈ delete k l -> t' ∈ l.
Proof.
  intros Hk Ht. rewrite delete_take_drop in Ht. rewrite <-(take_drop_middle l k t Hk).
  set_solver.
Qed.

Lemma elem_of_delete_other (l : list TaggedIsolate) k t t' :
  l !! k = Some t -> t' ∈ l -> t' = t \/ t' ∈ delete k l.
Proof.
  intros Hk Ht. rewrite delete_take_drop. rewrite <-(take_drop_middle l k t Hk) in Ht.
  set_solver.
Qed.

Lemma owned_delete l k t o : l !! k = Some t -> owned (delete k l) o <= owned l o.
Proof.
  intros Hk. unfold owned. rewrite delete_take_drop.
  rewrite <-(take_drop_middle l k t Hk) at 3.
  rewrite !filter_app, filter_cons, !length_app. case_decide; simpl; lia.
Qed.

Lemma NoDup_delete_iid l k (t : TaggedIsolate) :
  l !! k = Some t -> NoDup (iid <$> l) -> NoDup (iid <$> delete k l) /\
  Forall (fun t' => iid t' <> iid t) (delete k l).
Proof.
  intros Hk Hnd. rewrite delete_take_drop.
  rewrite <-(take_drop_middle l k t Hk), fmap_app, fmap_cons in Hnd.
  rewrite <-Permutation_middle in Hnd. apply NoDup_cons in Hnd as [Hni Hnd].
  rewrite <-fmap_app in Hni, Hnd. split; [done|].
  apply Forall_forall. intros t' Ht' He. apply Hni. rewrite <-He. by apply list_elem_of_fmap_2.
Qed.

(** Elements with the same identity are the same element. *)
Lemma iid_inj l (t t' : TaggedIsolate) :
  NoDup (iid <$> l) -> t ∈ l -> t' ∈ l -> iid t = iid t' -> t = t'.
Proof.
  intros Hnd Ht Ht' He.
  apply list_elem_of_lookup in Ht as (a & Ha). apply list_elem_of_lookup in Ht' as (b & Hb).
  assert (a = b) as ->; [|congruence].
  eapply NoDup_lookup; [exact Hnd| |]; rewrite list_lookup_fmap; [by rewrite Ha|].
  rewrite Hb. simpl. by rewrite He.
Qed.

Lemma filter_iid l i (t : TaggedIsolate) :
  NoDup (iid <$> l) -> t ∈ l -> iid t = i -> filter (fun t => iid t = i) l = [t].
Proof.
  intros Hnd Ht <-. induction l as [|t0 l IH]; [set_solver|].
  simpl in Hnd. apply NoDup_cons in Hnd as [Hni Hnd]. rewrite filter_cons.
  apply elem_of_cons in Ht as [->|Ht].
  - rewrite decide_True by done. f_equal.
    assert (forall t', t' ∈ l -> iid t' <> iid t0) as Hall.
    { intros t' Ht' He. apply Hni. rewrite <-He. by apply list_elem_of_fmap_2. }
    clear -Hall. induction l as [|t' l IH]; [done|].
    rewrite filter_cons, decide_False by (apply Hall; set_solver).
    apply IH. intros t'' Ht''. apply Hall. set_solver.
  - rewrite decide_False; [by apply IH|]. intros He. apply Hni. rewrite He.
    by apply list_elem_of_fmap_2.
Qed.

Lemma in_flight_snoc i prof o s :
  in_flight i (prof ++ [(o, s)]) = in_flight i prof + b2n (bool_decide (s = Some i)).
Proof.
  unfold in_flight. rewrite count_app, count_cons. change (count (holds i) []) with 0.
  unfold holds at 2. simpl. lia.
Qed.

Lemma in_flight_zero i prof o : in_flight i prof = 0 -> (o, Some i) ∉ prof.
Proof.
  intros Hz (k & Hk)%list_elem_of_lookup.
  assert (0 < in_flight i prof); [|lia].
  eapply count_pos; [exact Hk|]. unfold holds. by rewrite bool_decide_true.
Qed.

(** A request that has no slot changes nothing. *)
Lemma slots_wf_snoc_none p prof o : slots_wf p prof -> slots_wf p (prof ++ [(o, None)]).
Proof.
  intros [Hp Hn Hf Hi Hh Ho Hc]. split; try done.
  - eapply Forall_impl; [exact Hi|]. intros t (? & ? & ?). unfold isolate_wf.
    rewrite in_flight_snoc. rewrite bool_decide_false by done. simpl. rewrite Nat.add_0_r. done.
  - intros o' i Hoi. apply Hh. set_solver.
Qed.

(** Dropping an isolate nobody uses. *)
Lemma slots_wf_delete p prof k t :
  slots_wf p prof -> isolates p !! k = Some t -> Slots.active (concurrency t) = 0%Z ->
  slots_wf (set_isolates p (delete k (isolates p))) prof.
Proof.
  intros [Hp Hn Hf Hi Hh Ho Hc] Hk Ha.
  destruct (NoDup_delete_iid _ _ _ Hk Hn) as [Hn' Hne].
  assert (forall P, Forall P (isolates p) -> Forall P (delete k (isolates p))) as Hall.
  { intros P. rewrite !Forall_forall. intros HP t' Ht'. apply HP. by eapply elem_of_delete. }
  split; cbn [isolates set_isolates policy next_iid]; eauto.
  - intros o i Hoi. destruct (Hh o i Hoi) as (t' & Ht' & <- & Howner).
    destruct (elem_of_delete_other _ _ _ _ Hk Ht') as [->|?]; [|by exists t'].
    exfalso. eapply in_flight_zero; [|exact Hoi].
    rewrite Forall_forall in Hi. destruct (Hi t Ht') as (_ & Hact & _). lia.
  - intros o m Hm. etransitivity; [by eapply owned_delete|]. by apply Ho.
  - intros Hov. specialize (Hc Hov). rewrite length_delete; [lia|eauto].
Qed.

(** No request holds an identity the pool has not given yet. *)
Lemma in_flight_fresh p prof : slots_wf p prof -> in_flight (next_iid p) prof = 0.
Proof.
  intros Hwf. destruct (in_flight (next_iid p) prof) eqn:E; [done|exfalso].
  assert (exists x, x ∈ filter (fun x => holds (next_iid p) x = true) prof) as ([o s] & Hx).
  { unfold in_flight, count in E.
    destruct (filter _ prof) as [|x l]; [done|]. exists x. set_solver. }
  apply list_elem_of_filter in Hx as [Hs Hx]. apply bool_decide_eq_true in Hs. simpl in Hs. subst.
  destruct (wf_held _ _ Hwf _ _ Hx) as (t & Ht & He & _).
  pose proof (proj1 (Forall_forall _ _) (wf_fresh _ _ Hwf) t Ht) as Hlt. simpl in Hlt. lia.
Qed.

(** Building an isolate takes its first slot for the request that asked. *)
Lemma slots_wf_build p prof o now :
  valid_config ->
  slots_wf p prof ->
  (forall m, max_per_owner config = Some m -> owned (isolates p) o < m) ->
  (overcommit config = false -> length (isolates p) < max_per_thread config) ->
  exists p', build config p o now = Some (p', next_iid p, false) /\
             slots_wf p' (prof ++ [(o, Some (next_iid p))]).
Proof.
  intros Hv Hwf Howner Hceil. pose proof (in_flight_fresh _ _ Hwf) as Hzero.
  destruct Hwf as [Hp Hn Hf Hi Hh Ho Hc]. unfold valid_config in Hv.
  unfold build, isolate_new, Slots.try_acquire, Slots.new. simpl.
  destruct (Z.leb_spec (max_concurrent_per_isolate config) 0); [lia|].
  eexists. split; [reflexivity|].
  assert (forall t, t ∈ isolates p -> iid t <> next_iid p) as Hfresh.
  { rewrite Forall_forall in Hf. intros t Ht. specialize (Hf t Ht). lia. }
  split; cbn [isolates policy next_iid].
  - done.
  - rewrite fmap_app. apply NoDup_app. split_and!; [done| |apply NoDup_singleton].
    intros x (t & -> & Ht)%list_elem_of_fmap Hx. apply (Hfresh t Ht). set_solver.
  - apply Forall_app. split; [|by repeat constructor].
    eapply Forall_impl; [exact Hf|]. simpl. lia.
  - apply Forall_app. split.
    + rewrite Forall_forall in Hi |- *. intros t Ht. destruct (Hi t Ht) as (? & ? & ?).
      unfold isolate_wf. rewrite in_flight_snoc, bool_decide_false by (specialize (Hfresh t Ht); congruence).
      simpl. rewrite Nat.add_0_r. done.
    + constructor; [|constructor]. unfold isolate_wf. simpl.
      rewrite in_flight_snoc, Hzero, bool_decide_true by done. simpl. split_and!; [done|done|lia].
  - intros o' i [Hoi|Hoi]%elem_of_app.
    + destruct (Hh _ _ Hoi) as (t & Ht & ? & ?). exists t. set_solver.
    + apply list_elem_of_singleton in Hoi as [= -> ->].
      eexists. split; [apply elem_of_app; right; by apply list_elem_of_singleton|done].
  - intros o' m Hm. unfold owned. rewrite filter_app, length_app. fold (owned (isolates p) o').
    rewrite filter_cons, filter_nil. case_decide as Hd; simpl in *.
    + subst. specialize (Howner m Hm). lia.
    + specialize (Ho o' m Hm). lia.
  - intros Hov. rewrite length_app. simpl. specialize (Hceil Hov). lia.
Qed.

(** Changing the counter of one isolate along with the requests on it. *)
Lemma slots_wf_update p prof prof' i f :
  slots_wf p prof ->
  (forall t, iid (f t) = iid t) -> (forall t, owner_id (f t) = owner_id t) ->
  (forall t, t ∈ isolates p -> iid t = i -> isolate_wf prof t -> isolate_wf prof' (f t)) ->
  (forall j, j <> i -> in_flight j prof' = in_flight j prof) ->
  (forall o j, (o, Some j) ∈ prof' -> exists t, t ∈ isolates p /\ iid t = j /\ owner_id t = o) ->
  slots_wf (set_isolates p (update i f (isolates p))) prof'.
Proof.
  intros [Hp Hn Hf Hi Hh Ho Hc] Hid How Hiso Hother Hheld.
  assert (forall P : nat -> Prop, Forall (fun t => P (iid t)) (isolates p) ->
          Forall (fun t => P (iid t)) (update i f (isolates p))) as Hiids.
  { intros P. rewrite !Forall_forall. intros HP t' (t & Ht & ->)%elem_of_update.
    case_decide; rewrite ?Hid; by apply HP. }
  split; cbn [isolates set_isolates policy next_iid].
  - done.
  - by rewrite update_iid.
  - by apply (Hiids (fun n => n < next_iid p)).
  - rewrite Forall_forall in Hi |- *. intros t' (t & Ht & ->)%elem_of_update.
    specialize (Hi t Ht). case_decide as Hd; [by apply Hiso|].
    unfold isolate_wf in *. by rewrite Hother.
  - intros o j Hoj. destruct (Hheld o j Hoj) as (t & Ht & He & Hot).
    exists (if decide (iid t = i) then f t else t). split.
    + apply elem_of_update. by exists t.
    + case_decide; rewrite ?Hid, ?How; done.
  - intros o m Hm. rewrite update_owned by done. by apply Ho.
  - intros Hov. rewrite length_update. by apply Hc.
Qed.

Lemma slots_wf_take p prof t o :
  valid_config -> slots_wf p prof -> t ∈ isolates p -> owner_id t = o ->
  Slots.has_capacity (concurrency t) = true ->
  exists c, Slots.try_acquire (concurrency t) = (true, c) /\
    slots_wf (set_isolates p (update (iid t) (fun t => with_concurrency t c) (isolates p)))
             (prof ++ [(o, Some (iid t))]).
Proof.
  intros Hv Hwf Ht Ho Hcap. unfold Slots.has_capacity in Hcap. apply Z.ltb_lt in Hcap.
  unfold Slots.try_acquire. destruct (Z.leb_spec (Slots.max_concurrent (concurrency t))
    (Slots.active (concurrency t))); [lia|]. eexists. split; [reflexivity|].
  apply slots_wf_update with (prof := prof); try done.
  - intros t' Ht' He (Hm & Ha & Hle).
    rewrite (iid_inj _ t' t (wf_nodup _ _ Hwf) Ht' Ht He) in *.
    unfold isolate_wf. simpl. rewrite in_flight_snoc, bool_decide_true by done. simpl.
    unfold valid_config in Hv. autorewrite with machine. split_and!; [done|lia|lia].
  - intros j Hj. rewrite in_flight_snoc, bool_decide_false by congruence. simpl. lia.
  - intros o' j [Hoj|Hoj]%elem_of_app.
    + by apply (wf_held _ _ Hwf).
    + apply list_elem_of_singleton in Hoj as [= -> ->]. by exists t.
Qed.

Lemma slots_wf_give p prof rid o i :
  valid_config -> slots_wf p prof -> prof !! rid = Some (o, Some i) ->
  slots_wf (set_isolates p
    (update i (fun t => with_concurrency t (Slots.release (concurrency t))) (isolates p)))
    (<[rid := (o, None)]> prof).
Proof.
  intros Hv Hwf Hrid.
  assert (forall j, in_flight j (<[rid := (o, None)]> prof) + b2n (bool_decide (i = j)) =
                    in_flight j prof) as Hcnt.
  { intros j. pose proof (count_insert (holds j) _ _ _ (o, None) Hrid) as Hc.
    change (holds j (o, None)) with false in Hc.
    replace (holds j (o, Some i)) with (bool_decide (i = j)) in Hc.
    - unfold in_flight. simpl in Hc. lia.
    - unfold holds. simpl. apply bool_decide_ext. naive_solver. }
  apply slots_wf_update with (prof := prof); try done.
  - intros t Ht He (Hm & Ha & Hle). unfold isolate_wf. simpl.
    specialize (Hcnt (iid t)). rewrite He, bool_decide_true in Hcnt by done. simpl in Hcnt.
    rewrite He in *. unfold valid_config in Hv. rewrite wrap_usize_small by lia.
    split_and!; [done|lia|lia].
  - intros j Hj. specialize (Hcnt j). rewrite bool_decide_false in Hcnt by done. simpl in Hcnt. lia.
  - intros o' j Hoj. apply (wf_held _ _ Hwf).
    apply list_elem_of_lookup in Hoj as (k & Hk).
    apply list_lookup_insert_Some in Hk as [(_ & ? & _)|(_ & Hk)]; [done|].
    by eapply list_elem_of_lookup_2.
Qed.

(** ** Reclaiming *)

Definition is_idle (t : TaggedIsolate) : bool := Slots.is_free (concurrency t).

Lemma remove_all_wf indices p prof :
  StronglySorted gt indices ->
  slots_wf p prof ->
  (forall i, i ∈ indices -> exists t, isolates p !! i = Some t /\ is_idle t = true) ->
  exists l, remove_all indices (isolates p) = Some l /\ slots_wf (set_isolates p l) prof /\
    length l + length indices = length (isolates p) /\
    count is_idle l + length indices = count is_idle (isolates p) /\
    (forall t, t ∈ l -> t ∈ isolates p).
Proof.
  revert p. induction indices as [|i rest IH]; intros p Hs Hwf Hidle; simpl.
  { exists (isolates p). split_and!; [done| |lia|lia|done]. by destruct p. }
  inversion Hs as [|? ? Hs' Hlt]; subst.
  destruct (Hidle i ltac:(set_solver)) as (t & Hi & Ht).
  unfold vec_remove. rewrite Hi. simpl.
  assert (Slots.active (concurrency t) = 0%Z) as Ha by (apply Z.eqb_eq; exact Ht).
  pose proof (slots_wf_delete _ _ _ _ Hwf Hi Ha) as Hwf'.
  destruct (IH (set_isolates p (delete i (isolates p)))) as (l & Hl & Hwfl & Hlen & Hcnt & Hin).
  - done.
  - done.
  - intros j Hj. rewrite Forall_forall in Hlt. specialize (Hlt j Hj).
    destruct (Hidle j ltac:(set_solver)) as (t' & Hj' & Ht'). exists t'. split; [|done].
    simpl. rewrite list_lookup_delete_lt by lia. done.
  - simpl in *. exists l. split_and!; [done|done| | |].
    + rewrite length_delete in Hlen by eauto. pose proof (lookup_lt_Some _ _ _ Hi). lia.
    + rewrite delete_take_drop in Hcnt. rewrite <-(take_drop_middle _ _ _ Hi), !count_app, count_cons.
      rewrite count_app in Hcnt. rewrite Ht. simpl. lia.
    + intros t' Ht'. eapply elem_of_delete; [exact Hi|]. by apply Hin.
Qed.

Lemma rev_sorted (l : list nat) : StronglySorted lt l -> StronglySorted gt (rev l).
Proof.
  induction 1 as [|x l Hs IH Hx]; simpl; [constructor|].
  assert (Forall (fun y => y > x) (rev l)) as Hgt.
  { apply Forall_forall. intros y Hy. rewrite list_elem_of_In, <-in_rev, <-list_elem_of_In in Hy.
    rewrite Forall_forall in Hx. by apply Hx. }
  clear Hs Hx. revert IH Hgt. generalize (rev l). intros r Hr Hgt.
  induction Hr as [|y r Hr IH Hy]; simpl; [by repeat constructor|].
  inversion Hgt; subst. constructor; [by apply IH|].
  apply Forall_app. split; [done|]. by repeat constructor.
Qed.

Lemma load_lookup p i x :
  Policy.isolates (load p) !! i = Some x ->
  exists t, isolates p !! i = Some t /\ x = isolate_load t.
Proof. simpl. rewrite list_lookup_fmap. destruct (isolates p !! i); naive_solver. Qed.

Lemma idle_at_load p i when :
  Policy.idle_at (Policy.isolates (load p)) i when ->
  exists t, isolates p !! i = Some t /\ is_idle t = true.
Proof.
  intros (x & Hx & Hw). apply load_lookup in Hx as (t & Ht & ->). exists t. split; [done|].
  unfold is_idle. simpl in Hw. by destruct (Slots.is_free _).
Qed.

Lemma count_idle_load l :
  length (filter (fun iso => is_Some (Policy.idle_since iso)) (isolate_load <$> l)) = count is_idle l.
Proof.
  unfold count. induction l as [|t l IH]; [done|].
  rewrite fmap_cons, !filter_cons. unfold is_idle in *. simpl.
  destruct (Slots.is_free (concurrency t)) eqn:E; simpl; by rewrite IH.
Qed.

(** After a reclaim the pool is back under its ceiling, or every isolate is in
    use; only idle isolates went. *)
Lemma reclaim_wf p prof :
  slots_wf p prof ->
  exists p', reclaim p = Some p' /\ slots_wf p' prof /\ next_iid p' = next_iid p /\
    (forall t, t ∈ isolates p' -> t ∈ isolates p) /\
    (length (isolates p') <= max_per_thread config \/ count is_idle (isolates p') = 0).
Proof.
  intros Hwf. unfold reclaim.
  destruct (remove_all_wf (rev (Policy.reclaim (load p))) p prof) as (l & Hl & Hwfl & Hlen & Hcnt & Hin).
  - apply rev_sorted, Policy.reclaim_sorted.
  - done.
  - intros i Hi. rewrite list_elem_of_In, <-in_rev, <-list_elem_of_In in Hi.
    apply Policy.reclaim_idle in Hi as (w & Hw). by eapply idle_at_load.
  - rewrite Hl. simpl. eexists. split; [reflexivity|]. simpl. split_and!; [done..|].
    rewrite length_rev, Policy.length_reclaim in Hlen, Hcnt. simpl in Hlen, Hcnt.
    rewrite length_fmap, count_idle_load in Hlen, Hcnt.
    rewrite (wf_policy _ _ Hwf) in Hlen, Hcnt. simpl in Hlen, Hcnt.
    destruct (decide (count is_idle (isolates p) <= length (isolates p) - max_per_thread config)); lia.
Qed.

(** [acquire] never panics; when it answers an isolate, the request holds a slot
    on it. *)
Lemma acquire_wf p prof o now :
  valid_config -> slots_wf p prof ->
  match acquire config p o now with
  | None => False
  | Some (Err _) => True
  | Some (Ok (p', i, _)) => slots_wf p' (prof ++ [(o, Some i)])
  end.
Proof.
  intros Hv Hwf. pose proof (Policy.acquire_sound (load p) o) as Hspec. unfold acquire.
  pose proof (wf_policy _ _ Hwf) as Hpol.
  assert (forall p', (forall x, owned (isolates p') x <= owned (isolates p) x) ->
    Policy.under_owner_limit (load p) o ->
    forall m, max_per_owner config = Some m -> owned (isolates p') o < m) as Hunder.
  { intros p' Hle Hu m Hm. specialize (Hu m). simpl in Hu. rewrite Hpol in Hu. specialize (Hu Hm).
    specialize (Hle o). assert (Policy.owned (isolate_load <$> isolates p) o = owned (isolates p) o); [|lia].
    unfold Policy.owned, owned. clear. induction (isolates p) as [|t l IH]; [done|].
    rewrite fmap_cons, !filter_cons. simpl. case_decide; simpl; by rewrite ?IH. }
  destruct (Policy.acquire (load p) o) as [i| |i| |r]; inversion Hspec; subst;
    repeat match goal with
    | H : Policy.serves _ _ _ |- _ => destruct H as (x & Hx & Ho & Hcap)
    | H : Policy.idle_at _ _ _ |- _ => apply idle_at_load in H as (t' & Ht' & Hidle')
    | H : context [Policy.limits (load p)] |- _ => simpl in H; rewrite ?length_fmap, Hpol in H
    end.
  - apply load_lookup in Hx as (t & Ht & ->).
    rewrite Ht. simpl. apply list_elem_of_lookup_2 in Ht as Hin.
    destruct (slots_wf_take p prof t o Hv Hwf Hin Ho Hcap) as (c & -> & ?). done.
  - destruct (slots_wf_build p prof o now Hv Hwf) as (p' & -> & ?); [by apply Hunder|done|done].
  - unfold vec_remove. rewrite Ht'. simpl.
    assert (Slots.active (concurrency t') = 0%Z) as Ha by (apply Z.eqb_eq; exact Hidle').
    pose proof (slots_wf_delete _ _ _ _ Hwf Ht' Ha) as Hwf'.
    destruct (slots_wf_build _ prof o now Hv Hwf') as (p' & -> & ?); [| |done].
    + apply Hunder; [|done]. intros x. simpl. by eapply owned_delete.
    + intros Hov. simpl. pose proof (wf_ceiling _ _ Hwf Hov). rewrite length_delete by eauto.
      pose proof (lookup_lt_Some _ _ _ Ht'). lia.
  - destruct (slots_wf_build p prof o now Hv Hwf) as (p' & -> & ?); [by apply Hunder| |done].
    simpl in *. congruence.
  - done.
  - done.
Qed.

(** ** The context cache *)

Definition superseded_by (wanted : Policy.ContextKey) (c : CachedContext) : Prop :=
  Policy.superseded (key_of c) wanted = true.

(** The sweep splits the cache: it keeps what the wanted deployment does not
    supersede and drops the rest, within its fuel. *)
Lemma sweep_spec wanted fuel idx l dropped :
  length l - idx <= fuel -> idx <= length l ->
  Forall (fun c => ~ superseded_by wanted c) (take idx l) ->
  exists kept d, sweep wanted fuel idx l dropped = Some (kept, dropped ++ d) /\
    l ≡ₚ kept ++ d /\ Forall (fun c => ~ superseded_by wanted c) kept /\
    Forall (superseded_by wanted) d.
Proof.
  revert idx l dropped. induction fuel as [|fuel IH]; intros idx l dropped Hfuel Hidx Hpre; simpl.
  { exists l, []. rewrite !app_nil_r. rewrite take_ge in Hpre by lia. done. }
  destruct (l !! idx) as [c|] eqn:Hc.
  2: { apply lookup_ge_None in Hc. exists l, []. rewrite !app_nil_r.
       rewrite take_ge in Hpre by lia. done. }
  pose proof (lookup_lt_Some _ _ _ Hc) as Hlt.
  destruct (Policy.superseded (key_of c) wanted) eqn:Hsup.
  - destruct (swap_remove_is_Some idx l Hlt) as [[c' l'] Hr]. rewrite Hr. simpl.
    pose proof (swap_remove_take _ _ _ _ Hr) as Htake.
    apply swap_remove_Some in Hr as (Hc' & Hperm & Hlen).
    assert (c' = c) as -> by congruence.
    destruct (IH idx l' (dropped ++ [c])) as (kept & d & -> & Hp & Hk & Hd); [lia|lia| |].
    { by rewrite Htake. }
    exists kept, (c :: d). rewrite <-app_assoc. simpl. split_and!; [done| |done|by constructor].
    by rewrite Hperm, <-Permutation_middle, Hp.
  - apply IH; [lia|lia|]. rewrite (take_S_r _ _ _ Hc). apply Forall_app. split; [done|].
    constructor; [|constructor]. unfold superseded_by. congruence.
Qed.

(** The cache of an isolate is within its bound and holds reusable contexts
    only. *)
Definition cache_wf (t : TaggedIsolate) : Prop :=
  max_cached t = max_cached_contexts config /\
  length (cached_contexts t) <= max_cached t /\
  Forall (fun c => (reuse_count c < max_context_reuses config)%Z) (cached_contexts t).

Lemma bookkeeping_spec wanted now t :
  cache_wf t ->
  exists found dropped t', bookkeeping config wanted now t = Some (found, dropped, t') /\
    iid t' = iid t /\ owner_id t' = owner_id t /\ concurrency t' = concurrency t /\
    last_used t' = now /\ cache_wf t' /\
    cached_contexts t ≡ₚ option_list found ++ cached_contexts t' ++ dropped /\
    Forall (fun c => ~ superseded_by wanted c) (cached_contexts t') /\
    Forall (superseded_by wanted) dropped /\
    (forall c, found = Some c -> key_of c = wanted /\ (reuse_count c < max_context_reuses config)%Z) /\
    (found = None -> forall c, c ∈ cached_contexts t -> key_of c <> wanted).
Proof.
  intros (Hmax & Hlen & Hreuse). unfold bookkeeping.
  set (keys := (fun c => (key_of c, reuse_count c)) <$> cached_contexts t).
  assert (exists found rest,
    match Policy.warm_hit keys wanted (max_context_reuses config) with
    | Some idx => '(c, rest) ← swap_remove idx (cached_contexts t); Some (Some c, rest)
    | None => Some (None, cached_contexts t)
    end = Some (found, rest) /\ cached_contexts t ≡ₚ option_list found ++ rest /\
    (forall c, found = Some c -> key_of c = wanted) /\
    (found = None -> forall c, c ∈ cached_contexts t -> key_of c <> wanted))
    as (found & rest & -> & Hperm & Hkey & Hnone).
  { unfold Policy.warm_hit. destruct (position _ keys) as [idx|] eqn:Hp.
    - apply position_Some in Hp as [(x & Hx & Ht) _]. unfold keys in Hx.
      rewrite list_lookup_fmap in Hx. destruct (cached_contexts t !! idx) as [c|] eqn:Hc; [|done].
      simplify_eq/=. apply andb_true_iff in Ht as [Ht%bool_decide_eq_true _].
      destruct (swap_remove_is_Some idx (cached_contexts t)) as [[c' l'] Hr]; [by eapply lookup_lt_Some|].
      rewrite Hr. simpl. apply swap_remove_Some in Hr as (Hc' & Hp & _).
      assert (c' = c) as -> by congruence. exists (Some c), l'. split_and!; [done|done|naive_solver|done].
    - rewrite position_None in Hp. exists None, (cached_contexts t). split_and!; [done|done|done|].
      intros _ c Hc He. assert ((key_of c, reuse_count c) ∈ keys) as Hin.
      { apply list_elem_of_fmap. by exists c. }
      specialize (Hp _ Hin). simpl in Hp. rewrite bool_decide_true in Hp by done. simpl in Hp.
      rewrite Forall_forall in Hreuse. specialize (Hreuse c Hc). simpl in Hreuse. lia. }
  simpl. destruct (sweep_spec wanted (length rest) 0 rest []) as (kept & d & -> & Hp & Hk & Hd);
    [lia|lia|constructor|]. simpl.
  eexists found, d, _. split; [reflexivity|]. simpl.
  rewrite Hperm, Hp in Hlen, Hreuse. rewrite !length_app in Hlen. rewrite !Forall_app in Hreuse.
  split_and!; try done.
  - unfold cache_wf. simpl. split_and!; [done|lia|tauto].
  - by rewrite Hperm, Hp.
  - intros c Hc. split; [by apply Hkey|]. subst. destruct Hreuse as [Hc _]. simpl in Hc.
    by inversion Hc.
Qed.

(** A context goes back to the cache within its bound; at most one leaves. *)
Lemma store_context_spec c t :
  cache_wf t -> 0 < max_cached_contexts config ->
  (reuse_count c < max_context_reuses config)%Z ->
  exists t' evicted, store_context c t = Some t' /\
    iid t' = iid t /\ owner_id t' = owner_id t /\ concurrency t' = concurrency t /\ cache_wf t' /\
    c :: cached_contexts t ≡ₚ cached_contexts t' ++ option_list evicted.
Proof.
  intros (Hmax & Hlen & Hreuse) Hpos Hc. unfold store_context, Policy.cache_evict.
  destruct (Nat.ltb_spec (length (ctx_last_used <$> cached_contexts t)) (max_cached t)) as [Hl|Hl];
    rewrite length_fmap in Hl.
  { exists (with_contexts t (cached_contexts t ++ [c])), None. simpl. split_and!; try done.
    - unfold cache_wf. simpl. rewrite length_app, Forall_app. simpl. split_and!; [done|lia|done|].
      by repeat constructor.
    - rewrite app_nil_r. apply Permutation_cons_append. }
  destruct (min_by_key snd (enumerate (ctx_last_used <$> cached_contexts t))) as [[idx w]|] eqn:Hm.
  2: { apply min_by_key_None in Hm. destruct (cached_contexts t); [simpl in *; lia|done]. }
  simpl. apply min_by_key_Some in Hm as (k & Hk%lookup_enumerate & _). simpl in Hk.
  destruct Hk as [-> Hk]. apply lookup_lt_Some in Hk. rewrite length_fmap in Hk.
  destruct (swap_remove_is_Some k (cached_contexts t) Hk) as [[c' l'] Hr]. rewrite Hr. simpl.
  apply swap_remove_Some in Hr as (_ & Hp & Hlen').
  exists (with_contexts t (l' ++ [c])), (Some c'). simpl. rewrite Hp in Hreuse.
  apply Forall_cons in Hreuse as [_ Hreuse]. split_and!; try done.
  - unfold cache_wf. simpl. rewrite length_app, Forall_app. simpl. split_and!; [done|lia|done|].
    by repeat constructor.
  - rewrite Hp, <-app_assoc. simpl. apply (Permutation_app_comm [c; c'] l').
Qed.

End Invariants.
End PoolCorrect.
