(* ===== verification/PoolSafety.v ===== *)
(** * Safety of [execute_pinned] under every interleaving

    The invariant of the whole thread ([world_wf]) is preserved by every step
    of every request; the properties of the pool follow from it. *)

From stdpp Require Import base list gmap strings relations sorting.
From Stdlib Require Import ZArith Lia.
From S2P Require Import Prelude PoolPolicy Concurrency Pool PoolCorrect.

Module PoolSafety.
Import Pool PoolCorrect.

(** ** What a state holds *)

(** The context a request runs on or is about to store. *)
Definition ctx_of (rp : Request * phase) : option nat :=
  match snd rp with
  | Warm _ c | Storing _ c _ => Some (request c)
  | _ => None
  end.

Definition cached_ids (l : list TaggedIsolate) : list nat :=
  l ≫= (fun t => request <$> cached_contexts t).

(** Every live context: in a cache or with a request. *)
Definition live (w : World) : list nat :=
  match local_pool w with Some p => cached_ids (isolates p) | None => [] end
  ++ omap ctx_of (requests w).

(** The phases after the report of a request may have gone out. *)
Definition after_report (ph : phase) : bool :=
  match ph with Storing _ _ _ | Releasing _ _ | Finished _ => true | _ => false end.

(** How many steps a request has left at most. *)
Definition rank (ph : phase) : nat :=
  match ph with
  | Acquired _ => 5 | Warm _ _ => 4 | Cold _ => 3 | Storing _ _ _ => 2 | Releasing _ _ => 1
  | Finished _ => 0
  end.

(** ** Lists *)

Lemma cached_ids_update l (t t' : TaggedIsolate) :
  NoDup (iid <$> l) -> t ∈ l ->
  exists rest, cached_ids l ≡ₚ (request <$> cached_contexts t) ++ rest /\
    cached_ids (update (iid t) (fun _ => t') l) ≡ₚ (request <$> cached_contexts t') ++ rest.
Proof.
  unfold cached_ids, update. induction l as [|t0 l IH]; [set_solver|].
  rewrite fmap_cons, NoDup_cons. intros [Hni Hnd] Ht.
  rewrite fmap_cons, !bind_cons. case_decide as He.
  - exists (cached_ids l). apply elem_of_cons in Ht as [->|Ht].
    2: { exfalso. apply Hni. rewrite He. by apply list_elem_of_fmap_2. }
    split; [done|]. f_equiv. clear IH He.
    replace ((fun t => if decide (iid t = iid t0) then t' else t) <$> l) with l; [done|].
    clear Hnd. induction l as [|t1 l IH]; [done|]. cbn in Hni |- *.
    apply not_elem_of_cons in Hni as [Hne Hni].
    rewrite decide_False by done. f_equal. by apply IH.
  - apply elem_of_cons in Ht as [->|Ht]; [done|].
    destruct (IH Hnd Ht) as (rest & H1 & H2).
    exists ((request <$> cached_contexts t0) ++ rest). rewrite H1, H2.
    split; rewrite !app_assoc; f_equiv; apply Permutation_app_comm.
Qed.

Lemma cached_ids_concurrency l i (c : TaggedIsolate -> Slots.ConcurrencyState) :
  cached_ids (update i (fun t => with_concurrency t (c t)) l) = cached_ids l.
Proof.
  unfold cached_ids, update. induction l as [|t l IH]; [done|].
  rewrite fmap_cons, !bind_cons, IH. by case_decide.
Qed.

Lemma cached_ids_delete l k t : l !! k = Some t -> cached_ids (delete k l) ⊆+ cached_ids l.
Proof.
  intros Hk. rewrite delete_take_drop. unfold cached_ids.
  rewrite <-(take_drop_middle l k t Hk) at 3. rewrite !bind_app, bind_cons.
  apply submseteq_app; [done|]. by apply submseteq_inserts_l.
Qed.

Section Safety.
Context (config : PinnedPoolConfig).

Definition phase_wf (ph : phase) : Prop :=
  match ph with
  | Warm _ c => (reuse_count c < max_context_reuses config)%Z
  | Storing _ c _ => (reuse_count c < max_context_reuses config)%Z /\ 0 < max_cached_contexts config
  | _ => True
  end.

Definition pool_wf (p : ThreadLocalPool) (reqs : list (Request * phase)) : Prop :=
  slots_wf config p (profile reqs) /\ Forall (cache_wf config) (isolates p).

Definition reports_wf (w : World) : Prop :=
  NoDup (reports w) /\
  forall rid, rid ∈ reports w ->
    exists r ph, requests w !! rid = Some (r, ph) /\ after_report ph = true.

Definition contexts_wf (w : World) : Prop :=
  NoDup (live w) /\ Forall (fun c => c < next_ctx w) (live w).

Record world_wf (w : World) : Prop := {
  wf_pool : match local_pool w with
            | Some p => pool_wf p (requests w)
            | None => requests w = []
            end;
  wf_phases : Forall (fun rp => phase_wf (snd rp)) (requests w);
  wf_contexts : contexts_wf w;
  wf_reports : reports_wf w
}.

Lemma initial_wf : world_wf initial.
Proof.
  split; [done|constructor|split; constructor|split; [constructor|]]. simpl. set_solver.
Qed.

Lemma pool_new_wf : pool_wf (ensure_pool_initialized config None) [].
Proof.
  split; [|constructor]. split; simpl; try done; try constructor.
  - intros o i Hi. set_solver.
  - intros. unfold owned. simpl. lia.
  - lia.
Qed.

Lemma ensure_pool_wf w :
  world_wf w -> pool_wf (ensure_pool_initialized config (local_pool w)) (requests w) /\
    live w = cached_ids (isolates (ensure_pool_initialized config (local_pool w)))
             ++ omap ctx_of (requests w).
Proof.
  intros [Hp _ _ _]. unfold live. destruct (local_pool w) as [p|].
  - done.
  - rewrite Hp. split; [apply pool_new_wf|done].
Qed.

(** ** Operations on the pool and the caches *)

Lemma build_caches p o now p' i hit :
  build config p o now = Some (p', i, hit) -> Forall (cache_wf config) (isolates p) ->
  Forall (cache_wf config) (isolates p') /\ cached_ids (isolates p') = cached_ids (isolates p).
Proof.
  unfold build. destruct (Slots.try_acquire _) as [[] c]; [|done]. intros [= <- <- <-] Hc.
  simpl. split.
  - apply Forall_app. split; [done|]. constructor; [|constructor].
    unfold cache_wf. simpl. split_and!; [done|lia|constructor].
  - unfold cached_ids. rewrite bind_app. simpl. by rewrite app_nil_r.
Qed.

Lemma Forall_delete_idx {A} (P : A -> Prop) l k : Forall P l -> Forall P (delete k l).
Proof.
  rewrite delete_take_drop. intros H. apply Forall_app. split; [by apply Forall_take|by apply Forall_drop].
Qed.

Lemma Forall_update (P : TaggedIsolate -> Prop) i f l :
  (forall t, t ∈ l -> iid t = i -> P t -> P (f t)) -> Forall P l -> Forall P (update i f l).
Proof.
  intros Hf. rewrite !Forall_forall. intros Hl t' (t & Ht & ->)%elem_of_update.
  case_decide; auto.
Qed.

Lemma acquire_caches p o now p' i hit :
  acquire config p o now = Some (Ok (p', i, hit)) -> Forall (cache_wf config) (isolates p) ->
  Forall (cache_wf config) (isolates p') /\ cached_ids (isolates p') ⊆+ cached_ids (isolates p).
Proof.
  unfold acquire. intros Ha Hc. destruct (Policy.acquire (load p) o) as [k| |k| |r].
  - destruct (isolates p !! k) as [t|]; [|done]. simpl in Ha.
    destruct (Slots.try_acquire _) as [[] c]; [|done]. simplify_eq/=. split.
    + by apply Forall_update.
    + by rewrite cached_ids_concurrency.
  - destruct (build config p o now) as [[[? ?] ?]|] eqn:Hb; simplify_eq/=.
    destruct (build_caches _ _ _ _ _ _ Hb Hc) as [? ->]. done.
  - unfold vec_remove in Ha. destruct (isolates p !! k) as [t|] eqn:Hk; [|done]. simpl in Ha.
    destruct (build config _ o now) as [[[? ?] ?]|] eqn:Hb; simplify_eq/=.
    destruct (build_caches _ _ _ _ _ _ Hb) as [? ->]; simpl.
    + by apply Forall_delete_idx.
    + split; [done|]. by eapply cached_ids_delete.
  - destruct (build config p o now) as [[[? ?] ?]|] eqn:Hb; simplify_eq/=.
    destruct (build_caches _ _ _ _ _ _ Hb Hc) as [? ->]. done.
  - done.
Qed.

Lemma remove_all_caches indices l l' :
  remove_all indices l = Some l' -> Forall (cache_wf config) l ->
  Forall (cache_wf config) l' /\ cached_ids l' ⊆+ cached_ids l.
Proof.
  revert l. induction indices as [|k rest IH]; intros l; simpl; [by intros [= ->]|].
  unfold vec_remove. destruct (l !! k) as [t|] eqn:Hk; [|done]. simpl. intros Hr Hc.
  destruct (IH _ Hr (Forall_delete_idx _ _ _ Hc)) as [? Hsub]. split; [done|].
  etransitivity; [exact Hsub|]. by eapply cached_ids_delete.
Qed.

Lemma release_caches p i p' :
  release_to_local_pool p i = Some p' -> Forall (cache_wf config) (isolates p) ->
  Forall (cache_wf config) (isolates p') /\ cached_ids (isolates p') ⊆+ cached_ids (isolates p).
Proof.
  unfold release_to_local_pool, reclaim. simpl.
  destruct (remove_all _ _) as [l|] eqn:Hr; [|done]. intros [= <-] Hc. simpl.
  destruct (remove_all_caches _ _ _ Hr) as [? Hsub].
  - by apply Forall_update.
  - by rewrite cached_ids_concurrency in Hsub.
Qed.

(** Under the mutex of an isolate its caches change, and nothing the slots
    depend on. *)
Lemma pool_wf_update p reqs t t' :
  pool_wf p reqs -> t ∈ isolates p ->
  iid t' = iid t -> owner_id t' = owner_id t -> concurrency t' = concurrency t ->
  cache_wf config t' ->
  pool_wf (set_isolates p (update (iid t) (fun _ => t') (isolates p))) reqs.
Proof.
  intros [Hs Hc] Ht Hid How Hcon Hct. split; simpl.
  - assert (update (iid t) (fun _ => t') (isolates p) =
            update (iid t) (fun x => mkTaggedIsolate (iid x) (owner_id x) (concurrency x)
              (cached_contexts t') (max_cached t') (last_used t') (total_requests t'))
              (isolates p)) as ->.
    { unfold update. apply list_fmap_ext. intros k x Hx. simpl. case_decide as He; [|done].
      apply list_elem_of_lookup_2 in Hx.
      rewrite (iid_inj _ x t (wf_nodup _ _ _ Hs) Hx Ht He), <-Hid, <-How, <-Hcon. by destruct t'. }
    apply slots_wf_update with (prof := profile reqs); try done.
    intros o j Hj. by apply (wf_held _ _ _ Hs).
  - apply Forall_update; [|done]. naive_solver.
Qed.

(** ** Steps preserve the invariant *)

Lemma profile_insert reqs rid r ph ph' :
  reqs !! rid = Some (r, ph) ->
  profile (<[rid := (r, ph')]> reqs) = <[rid := (req_owner r, slot_of ph')]> (profile reqs).
Proof. intros _. unfold profile. by rewrite list_fmap_insert. Qed.

Lemma profile_same reqs rid r ph ph' :
  reqs !! rid = Some (r, ph) -> slot_of ph' = slot_of ph ->
  profile (<[rid := (r, ph')]> reqs) = profile reqs.
Proof.
  intros Hr He. rewrite (profile_insert _ _ _ _ _ Hr), He. apply list_insert_id.
  unfold profile. rewrite list_lookup_fmap, Hr. done.
Qed.

(** One request moves from [ph] to [ph'] while the pool becomes [p']: the
    contexts it and the caches hold may be dropped, and [fresh] ones made. *)
Lemma world_wf_move w rid r ph ph' p p' fresh reps :
  world_wf w -> local_pool w = Some p -> requests w !! rid = Some (r, ph) ->
  pool_wf p' (<[rid := (r, ph')]> (requests w)) ->
  phase_wf ph' ->
  fresh = seq (next_ctx w) (length fresh) ->
  cached_ids (isolates p') ++ option_list (ctx_of (r, ph')) ⊆+
    fresh ++ cached_ids (isolates p) ++ option_list (ctx_of (r, ph)) ->
  (after_report ph = true -> after_report ph' = true) ->
  (reps = [] \/ reps = [rid] /\ after_report ph = false /\ after_report ph' = true) ->
  forall w', local_pool w' = Some p' -> requests w' = <[rid := (r, ph')]> (requests w) ->
    next_ctx w' = next_ctx w + length fresh -> reports w' = reports w ++ reps ->
  world_wf w'.
Proof.
  intros [Hp Hph [Hnd Hlt] [Hrn Hrep]] Hpool Hrid Hp' Hph' Hfresh Hsub Hmono Hreps w' E1 E2 E3 E4.
  unfold live in Hnd, Hlt. rewrite Hpool in Hp, Hnd, Hlt.
  assert (exists rest, live w' ⊆+ fresh ++ rest /\
    cached_ids (isolates p) ++ omap ctx_of (requests w) ≡ₚ rest) as (rest & Hl & Hr).
  { destruct (omap_insert ctx_of (requests w) rid _ (r, ph') Hrid) as (others & H1 & H2).
    eexists. split; [|reflexivity]. unfold live. rewrite E1, E2, H1, H2, !app_assoc.
    apply submseteq_app; [|done]. by rewrite <-app_assoc. }
  rewrite Hr in Hnd, Hlt.
  split.
  - by rewrite E1, E2.
  - rewrite E2. by apply Forall_insert.
  - split.
    + eapply NoDup_sub; [exact Hl|]. apply NoDup_app. split_and!; [|intros x Hx Hx'|done].
      * rewrite Hfresh. apply NoDup_seq.
      * rewrite Hfresh in Hx. apply elem_of_seq in Hx. rewrite Forall_forall in Hlt.
        specialize (Hlt _ Hx'). simpl in Hlt. lia.
    + apply Forall_forall. intros x Hx. rewrite E3.
      eapply elem_of_submseteq in Hx; [|exact Hl]. apply elem_of_app in Hx as [Hx|Hx].
      * rewrite Hfresh in Hx. apply elem_of_seq in Hx. lia.
      * rewrite Forall_forall in Hlt. specialize (Hlt _ Hx). simpl in Hlt. lia.
  - unfold reports_wf. rewrite E4, E2. pose proof (lookup_lt_Some _ _ _ Hrid) as Hlen.
    assert (forall k, k ∈ reports w -> exists r' ph0,
      <[rid := (r, ph')]> (requests w) !! k = Some (r', ph0) /\ after_report ph0 = true) as Hold.
    { intros k Hk. destruct (Hrep k Hk) as (r0 & ph0 & Hk0 & Ha).
      destruct (decide (k = rid)) as [->|Hne].
      - rewrite list_lookup_insert_eq by done. simplify_eq. eauto.
      - rewrite list_lookup_insert_ne by done. eauto. }
    destruct Hreps as [->|(-> & Hb & Ha)].
    + rewrite app_nil_r. done.
    + split.
      * apply NoDup_app. split_and!; [done| |apply NoDup_singleton].
        intros k Hk Hk'. apply list_elem_of_singleton in Hk' as ->.
        destruct (Hrep _ Hk) as (r0 & ph0 & Hk0 & Ha0). simplify_eq. congruence.
      * intros k [Hk|Hk]%elem_of_app; [by apply Hold|]. apply list_elem_of_singleton in Hk as ->.
        rewrite list_lookup_insert_eq by done. eauto.
Qed.

(** Where a request that holds a slot finds its isolate. *)
Lemma on_isolate_wf w rid r ph i f :
  world_wf w -> requests w !! rid = Some (r, ph) -> slot_of ph = Some i ->
  exists p t, local_pool w = Some p /\ pool_wf p (requests w) /\ t ∈ isolates p /\ iid t = i /\
    owner_id t = req_owner r /\ cache_wf config t /\ on_isolate w i f = f p t.
Proof.
  intros Hwf Hr Hs. pose proof (wf_pool _ Hwf) as Hp. unfold on_isolate.
  destruct (local_pool w) as [p|] eqn:E; [|by rewrite Hp in Hr].
  destruct Hp as [Hp Hc].
  destruct (wf_held _ _ _ Hp (req_owner r) i) as (t & Ht & Hi & Ho).
  { unfold profile. apply list_elem_of_fmap. exists (r, ph). simpl. rewrite Hs.
    split; [done|by eapply list_elem_of_lookup_2]. }
  exists p, t. rewrite (filter_iid _ i t (wf_nodup _ _ _ Hp) Ht Hi).
  rewrite Forall_forall in Hc. split_and!; try done; [by apply Forall_forall in Hc|]. by apply Hc.
Qed.

(** A step that leaves the pool alone. *)
Lemma world_wf_phase w rid r ph ph' fresh reps w' :
  world_wf w -> requests w !! rid = Some (r, ph) ->
  is_Some (slot_of ph) -> slot_of ph' = slot_of ph -> phase_wf ph' ->
  fresh = seq (next_ctx w) (length fresh) ->
  option_list (ctx_of (r, ph')) ⊆+ fresh ++ option_list (ctx_of (r, ph)) ->
  (after_report ph = true -> after_report ph' = true) ->
  (reps = [] \/ reps = [rid] /\ after_report ph = false /\ after_report ph' = true) ->
  local_pool w' = local_pool w -> requests w' = <[rid := (r, ph')]> (requests w) ->
  next_ctx w' = next_ctx w + length fresh -> reports w' = reports w ++ reps ->
  world_wf w'.
Proof.
  intros Hwf Hr [i Hi] Hs Hph Hf Hsub Hm Hreps E1 E2 E3 E4.
  destruct (on_isolate_wf w rid r ph i (fun _ _ => Disabled) Hwf Hr Hi)
    as (p & t & Hpool & Hp & _).
  eapply (world_wf_move w rid r ph ph' p p fresh reps); try done; [| |congruence].
  - unfold pool_wf in *. by erewrite profile_same.
  - rewrite (app_assoc fresh), (Permutation_app_comm fresh), <-app_assoc.
    by apply submseteq_app.
Qed.

(** A step leads to a state that is well formed, or panics where [bad] says it may. *)
Definition run_wf (bad : Prop) (r : run) : Prop :=
  match r with Next w' => world_wf w' | Disabled => True | Panic => bad end.

Lemma log_worker_wf r k : run_wf (loggable r = false) k -> run_wf (loggable r = false) (log_worker r k).
Proof. unfold log_worker. by destruct (loggable r) eqn:E. Qed.

Lemma log_worker_ok r k : loggable r = true -> log_worker r k = k.
Proof. unfold log_worker. by intros ->. Qed.

Lemma world_wf_arrive w p' r ph w' :
  world_wf w -> pool_wf p' (requests w ++ [(r, ph)]) -> phase_wf ph -> ctx_of (r, ph) = None ->
  cached_ids (isolates p') ++ omap ctx_of (requests w) ⊆+ live w ->
  local_pool w' = Some p' -> requests w' = requests w ++ [(r, ph)] ->
  next_ctx w' = next_ctx w -> reports w' = reports w ->
  world_wf w'.
Proof.
  intros [_ Hph [Hnd Hlt] [Hrn Hrep]] Hp' Hph' Hctx Hsub E1 E2 E3 E4.
  assert (live w' ⊆+ live w) as Hl.
  { unfold live at 1. rewrite E1, E2, omap_app. simpl. rewrite Hctx. by rewrite app_nil_r. }
  split.
  - by rewrite E1, E2.
  - rewrite E2. apply Forall_app. by repeat constructor.
  - split; [by eapply NoDup_sub|]. rewrite E3. apply Forall_forall. intros x Hx.
    rewrite Forall_forall in Hlt. apply Hlt. by eapply elem_of_submseteq.
  - unfold reports_wf. rewrite E4, E2. split; [done|]. intros rid Hr.
    destruct (Hrep rid Hr) as (r0 & ph0 & H0 & Ha). exists r0, ph0. split; [|done].
    by apply lookup_app_l_Some.
Qed.

Lemma profile_snoc reqs r ph : profile (reqs ++ [(r, ph)]) = profile reqs ++ [(req_owner r, slot_of ph)].
Proof. unfold profile. by rewrite fmap_app. Qed.

Lemma arrive_wf w r now : valid_config config -> world_wf w -> run_wf False (arrive config w r now).
Proof.
  intros Hv Hwf. destruct (ensure_pool_wf w Hwf) as [[Hs Hc] Hlive]. unfold arrive.
  set (p := ensure_pool_initialized config (local_pool w)) in *.
  pose proof (acquire_wf config p (profile (requests w)) (req_owner r) now Hv Hs) as Ha.
  destruct (acquire config p (req_owner r) now) as [[[[p' i] hit]|refusal]|] eqn:E; simpl; [| |done].
  - destruct (acquire_caches _ _ _ _ _ _ E Hc) as [Hc' Hsub].
    eapply (world_wf_arrive w p' r (Acquired i)); try done.
    + split; [|done]. by rewrite profile_snoc.
    + rewrite Hlive. by apply submseteq_app.
  - eapply (world_wf_arrive w p r (Finished _)); try done.
    + split; [|done]. rewrite profile_snoc. by apply slots_wf_snoc_none.
    + by rewrite Hlive.
Qed.

(** What one pass of bookkeeping does to the state. *)
Lemma book_wf w rid r i now :
  world_wf w -> requests w !! rid = Some (r, Acquired i) ->
  exists p t found dropped t', local_pool w = Some p /\ t ∈ isolates p /\ iid t = i /\
    bookkeeping config (wanted_key r) now t = Some (found, dropped, t') /\
    (let go := Next (set_phase (set_pool w (set_isolates p (update i (fun _ => t') (isolates p)))) rid r
                       (match found with Some c => Warm i c | None => Cold i end)) in
     book config w rid r i now = (match dropped with [] => go | _ :: _ => log_worker r go end) /\
     run_wf False go).
Proof.
  intros Hwf Hr. unfold book.
  match goal with |- context [on_isolate w i ?f] =>
    destruct (on_isolate_wf w rid r (Acquired i) i f Hwf Hr eq_refl)
      as (p & t & Hpool & Hp & Ht & Hi & Ho & Hc & ->) end.
  destruct (bookkeeping_spec config (wanted_key r) now t Hc)
    as (found & dropped & t' & Hb & Hid & How & Hcon & _ & Hc' & Hperm & _ & _ & Hfound & _).
  exists p, t, found, dropped, t'. rewrite Hb. simpl. split_and!; try done. subst i.
  eapply (world_wf_move w rid r _ _ p
    (set_isolates p (update (iid t) (fun _ => t') (isolates p))) [] []);
    try exact Hwf; try exact Hpool; try exact Hr; try reflexivity.
  - pose proof (pool_wf_update _ _ _ _ Hp Ht Hid How Hcon Hc') as [Hs' Hcs'].
    split; [|done]. erewrite profile_same; [done|exact Hr|]. by destruct found.
  - destruct found; [|done]. simpl. by apply Hfound.
  - simpl. destruct Hp as [Hs _].
    destruct (cached_ids_update (isolates p) t t' (wf_nodup _ _ _ Hs) Ht) as (rest & -> & ->).
    rewrite app_nil_r, Hperm, !fmap_app.
    destruct found as [c|]; simpl; rewrite ?app_nil_r.
    + rewrite (Permutation_app_comm _ [request c]). simpl. apply submseteq_skip.
      apply submseteq_app; [|done]. by apply submseteq_inserts_r.
    + apply submseteq_app; [|done]. by apply submseteq_inserts_r.
  - by destruct found.
  - by left.
  - simpl. lia.
  - simpl. by rewrite app_nil_r.
Qed.

(** A request that changes phase on the same isolate. *)
Ltac phase_step fresh reps :=
  match goal with
  | Hwf : world_wf ?w, Hr : requests ?w !! ?rid = Some (?r, ?ph)
    |- run_wf _ (Next (set_phase _ _ _ ?ph')) =>
      cbn [run_wf]; apply (world_wf_phase w rid r ph ph' fresh reps _ Hwf Hr); simpl; auto using app_nil_r, submseteq_nil_l; try (by eexists); lia
  end.

Lemma run_warm_wf w rid r i c o :
  world_wf w -> requests w !! rid = Some (r, Warm i c) ->
  run_wf (loggable r = false) (run_warm config w rid r i c o).
Proof.
  intros Hwf Hr. unfold run_warm, Policy.keep_context. apply log_worker_wf.
  destruct (o_reset o) as [_|e]; [|apply log_worker_wf; phase_step (@nil nat) (@nil nat)].
  destruct (o_exec o) as [_|e]; [|apply log_worker_wf; phase_step (@nil nat) [rid]].
  destruct (o_drain o) as [_|e]; [|apply log_worker_wf; phase_step (@nil nat) [rid]].
  destruct (andb _ _) eqn:Hk; [|phase_step (@nil nat) [rid]].
  apply andb_true_iff in Hk as [H1%Nat.ltb_lt H2%Z.ltb_lt].
  phase_step (@nil nat) [rid].
Qed.

Lemma run_cold_wf w rid r i o now :
  world_wf w -> requests w !! rid = Some (r, Cold i) ->
  run_wf (loggable r = false) (run_cold config w rid r i o now).
Proof.
  intros Hwf Hr. unfold run_cold, Policy.keep_context. apply log_worker_wf.
  destruct (o_new o) as [_|e]; [|phase_step (@nil nat) (@nil nat)].
  destruct (o_exec o) as [_|e]; [|apply log_worker_wf; phase_step [next_ctx w] [rid]].
  destruct (o_drain o) as [_|e]; [|apply log_worker_wf; phase_step [next_ctx w] [rid]].
  destruct (andb _ _) eqn:Hk; [|phase_step [next_ctx w] [rid]].
  apply andb_true_iff in Hk as [H1%Nat.ltb_lt H2%Z.ltb_lt].
  phase_step [next_ctx w] [rid].
Qed.

Lemma store_wf w rid r i c warm now :
  world_wf w -> requests w !! rid = Some (r, Storing i c warm) ->
  exists w', store w rid r i c warm now = Next w' /\ world_wf w' /\
    requests w' = <[rid := (r, Releasing i (Ok tt))]> (requests w).
Proof.
  intros Hwf Hr. unfold store.
  pose proof (wf_phases _ Hwf) as Hph. rewrite Forall_lookup in Hph.
  destruct (Hph _ _ Hr) as [Hreuse Hpos]. clear Hph. simpl in Hreuse.
  set (c' := if warm then _ else c).
  assert (request c' = request c /\ reuse_count c' = reuse_count c) as [Hid' Hre'].
  { unfold c'. by destruct warm. }
  destruct (on_isolate_wf w rid r (Storing i c warm) i (fun p t =>
    or_panic (store_context c' t) (fun t' =>
      Next (set_phase (set_pool w (set_isolates p (update i (fun _ => t') (isolates p)))) rid r
              (Releasing i (Ok tt))))) Hwf Hr eq_refl)
    as (p & t & Hpool & Hp & Ht & Hi & Ho & Hc & ->).
  destruct (store_context_spec config c' t Hc Hpos) as (t' & ev & -> & Hid & How & Hcon & Hc' & Hperm);
    [by rewrite Hre'|].
  simpl. eexists. split_and!; [done| |done]. subst i.
  eapply (world_wf_move w rid r _ (Releasing (iid t) (Ok tt)) p
    (set_isolates p (update (iid t) (fun _ => t') (isolates p))) [] []);
    try exact Hwf; try exact Hpool; try exact Hr; try reflexivity.
  - pose proof (pool_wf_update _ _ _ _ Hp Ht Hid How Hcon Hc') as [Hs' Hcs'].
    split; [|done]. by erewrite profile_same.
  - simpl. destruct Hp as [Hs _].
    destruct (cached_ids_update (isolates p) t t' (wf_nodup _ _ _ Hs) Ht) as (rest & -> & ->).
    rewrite app_nil_r, (Permutation_app_comm _ [request c]), <-Hid'. simpl.
    change (request c' :: ?l ++ rest) with ((request c' :: l) ++ rest).
    apply submseteq_app; [|done]. rewrite <-fmap_cons, Hperm, fmap_app. by apply submseteq_inserts_r.
  - by left.
  - simpl. lia.
  - simpl. by rewrite app_nil_r.
Qed.

Lemma release_wf w rid r i res :
  valid_config config -> world_wf w -> requests w !! rid = Some (r, Releasing i res) ->
  exists w' p', release w rid r i res = Next w' /\ world_wf w' /\ local_pool w' = Some p' /\
    requests w' = <[rid := (r, Finished res)]> (requests w) /\
    (length (isolates p') <= max_per_thread config \/ count is_idle (isolates p') = 0).
Proof.
  intros Hv Hwf Hr. unfold release.
  destruct (on_isolate_wf w rid r _ i (fun _ _ => Disabled) Hwf Hr eq_refl)
    as (p & t & Hpool & [Hs Hc] & _). rewrite Hpool.
  pose proof (profile_insert _ _ _ _ (Finished res) Hr) as Hprof. simpl in Hprof.
  assert (profile (requests w) !! rid = Some (req_owner r, Some i)) as Hrid.
  { unfold profile. by rewrite list_lookup_fmap, Hr. }
  pose proof (slots_wf_give _ _ _ _ _ _ Hv Hs Hrid) as Hgive.
  destruct (reclaim_wf _ _ _ Hgive) as (p' & Hrec & Hs' & _ & _ & Hshrunk).
  assert (release_to_local_pool p i = Some p') as Hrel by exact Hrec.
  rewrite Hrel. simpl. destruct (release_caches _ _ _ Hrel Hc) as [Hc' Hsub].
  eexists _, p'. split_and!; [done| |done|done|done].
  eapply (world_wf_move w rid r _ (Finished res) p p' [] []);
    try exact Hwf; try exact Hpool; try exact Hr; try reflexivity.
  - split; [|done]. by rewrite Hprof.
  - simpl. by rewrite !app_nil_r.
  - by left.
  - simpl. lia.
  - simpl. by rewrite app_nil_r.
Qed.

(** The request a label runs, and whether its next step logs its worker. *)
Definition logs_cut_id (w : World) (l : label) : Prop :=
  exists rid r ph, requests w !! rid = Some (r, ph) /\ loggable r = false /\
    match l with
    | LBook rid' _ => rid' = rid /\ exists i, ph = Acquired i
    | LRun rid' _ _ => rid' = rid /\ match ph with Warm _ _ | Cold _ => True | _ => False end
    | _ => False
    end.

Lemma run_wf_weaken (bad bad' : Prop) r : (bad -> bad') -> run_wf bad r -> run_wf bad' r.
Proof. destruct r; simpl; auto. Qed.

Lemma execute_pinned_wf w l :
  valid_config config -> world_wf w -> run_wf (logs_cut_id w l) (execute_pinned config w l).
Proof.
  intros Hv Hwf. destruct l as [r now|rid now|rid o now|rid now|rid]; simpl;
    [by eapply run_wf_weaken, arrive_wf|..];
    destruct (requests w !! rid) as [[r []]|] eqn:Hr; try done.
  - destruct (book_wf w rid r i now Hwf Hr) as (?&?&?&d&?&?&?&?&?&->&?).
    destruct d; [by eapply run_wf_weaken, H3|]. apply (run_wf_weaken (loggable r = false)).
    + intros Hl. exists rid, r, (Acquired i). eauto.
    + by apply log_worker_wf.
  - apply (run_wf_weaken (loggable r = false)); [|by apply run_warm_wf].
    intros Hl. by exists rid, r, (Warm i c).
  - apply (run_wf_weaken (loggable r = false)); [|by apply run_cold_wf].
    intros Hl. by exists rid, r, (Cold i).
  - by destruct (store_wf w rid r i c warm now Hwf Hr) as (? & -> & ? & _).
  - by destruct (release_wf w rid r i r0 Hv Hwf Hr) as (? & ? & -> & ? & _).
Qed.

Lemma reachable_wf w : valid_config config -> reachable (eq initial) (step config) w -> world_wf w.
Proof.
  intros Hv. apply reachable_invariant; [intros ? <-; apply initial_wf|].
  intros w1 w2 Hwf [l Hl]. pose proof (execute_pinned_wf w1 l Hv Hwf) as H. by rewrite Hl in H.
Qed.

(** ** Progress *)

(** The next step of a request, given what V8 and the guest will answer. *)
Definition next_label (rid : nat) (ph : phase) (o : outcome) (now : Z) : option label :=
  match ph with
  | Acquired _ => Some (LBook rid now)
  | Warm _ _ | Cold _ => Some (LRun rid o now)
  | Storing _ _ _ => Some (LStore rid now)
  | Releasing _ _ => Some (LRelease rid)
  | Finished _ => None
  end.

(** The steps of request [rid] alone, with the answers [os] gives. *)
Fixpoint drive (fuel : nat) (w : World) (rid : nat) (os : nat -> outcome * Z) : run :=
  match fuel with
  | 0 => Next w
  | S fuel =>
      match requests w !! rid with
      | None => Disabled
      | Some (_, ph) =>
          match next_label rid ph (fst (os fuel)) (snd (os fuel)) with
          | None => Next w
          | Some l =>
              match execute_pinned config w l with
              | Next w' => drive fuel w' rid os
              | r => r
              end
          end
      end
  end.

(** The next step of a request is enabled and brings it closer to its end. *)
Lemma request_advances w rid r ph o now l :
  valid_config config -> world_wf w -> requests w !! rid = Some (r, ph) ->
  loggable r = true -> next_label rid ph o now = Some l ->
  exists w' ph', execute_pinned config w l = Next w' /\
    requests w' !! rid = Some (r, ph') /\ rank ph' < rank ph.
Proof.
  intros Hv Hwf Hr Hlog Hl. pose proof (lookup_lt_Some _ _ _ Hr) as Hlt.
  assert (forall w0 ph', requests w0 = requests w ->
    requests (set_phase w0 rid r ph') !! rid = Some (r, ph')) as Hset.
  { intros w0 ph' E. simpl. by rewrite E, list_lookup_insert_eq. }
  destruct ph as [i|i c|i|i c warm|i res|res]; simpl in Hl; simplify_eq; simpl; rewrite Hr.
  - destruct (book_wf w rid r i now Hwf Hr) as (p & t & found & d & t' & _ & _ & _ & _ & Hb & _).
    rewrite Hb, log_worker_ok by done. eexists _, _.
    split_and!; [by destruct d|by apply Hset|]. destruct found; simpl; lia.
  - unfold run_warm, log_worker. rewrite Hlog.
    repeat case_match; eexists _, _; (split_and!; [done|by apply Hset|simpl; lia]).
  - unfold run_cold, log_worker. rewrite Hlog.
    repeat case_match; eexists _, _; (split_and!; [done|by apply Hset|simpl; lia]).
  - destruct (store_wf w rid r i c warm now Hwf Hr) as (w' & Hs & _ & E).
    rewrite Hs. eexists _, _.
    split_and!; [done|by rewrite E, list_lookup_insert_eq|simpl; lia].
  - destruct (release_wf w rid r i res Hv Hwf Hr) as (w' & p' & Hs & _ & _ & E & _).
    rewrite Hs. eexists _, _.
    split_and!; [done|by rewrite E, list_lookup_insert_eq|simpl; lia].
Qed.

Lemma request_finishes fuel : forall w rid r ph os,
  valid_config config -> world_wf w -> requests w !! rid = Some (r, ph) -> loggable r = true -> rank ph <= fuel ->
  exists w' res, drive fuel w rid os = Next w' /\ requests w' !! rid = Some (r, Finished res).
Proof.
  induction fuel as [|fuel IH]; intros w rid r ph os Hv Hwf Hr Hlog Hle; simpl.
  { destruct ph; simpl in Hle; try lia. eauto. }
  rewrite Hr. destruct (next_label rid ph _ _) as [l|] eqn:Hl.
  - destruct (request_advances w rid r ph _ _ l Hv Hwf Hr Hlog Hl) as (w1 & ph1 & E & Hr1 & Hlt).
    pose proof (execute_pinned_wf w l Hv Hwf) as Hwf1. rewrite E in Hwf1 |- *.
    apply (IH w1 rid r ph1 os Hv Hwf1 Hr1 Hlog). lia.
  - destruct ph; try done. eauto.
Qed.

End Safety.

(** ** Concrete executions *)

Fixpoint run_trace (config : PinnedPoolConfig) (w : World) (ls : list label) : run :=
  match ls with
  | [] => Next w
  | l :: ls => match execute_pinned config w l with Next w' => run_trace config w' ls | r => r end
  end.

Lemma run_trace_rtc config ls : forall w w',
  run_trace config w ls = Next w' -> rtc (step config) w w'.
Proof.
  induction ls as [|l ls IH]; simpl; intros w w'.
  - intros [= ->]. apply rtc_refl.
  - destruct (execute_pinned config w l) as [w1| |] eqn:E; [|done..].
    intros H. eapply rtc_l; [by exists l|by apply IH].
Qed.

Lemma run_trace_reachable config ls w :
  run_trace config initial ls = Next w -> reachable (eq initial) (step config) w.
Proof. intros H. exists initial. split; [done|]. by eapply run_trace_rtc. Qed.

Definition demo_config : PinnedPoolConfig := mkPoolConfig 1 (Some 1) 2 2 false 3.
Definition demo_request (owner : string) : Request := mkRequest owner "w" 1 None true.
Definition demo_ok : outcome := mkOutcome (Ok tt) (Ok tt) (Ok tt) (Ok tt).

(** Owner [a] runs twice, the second time on the cached context; a third
    request of [a] overlaps, and owner [b] is refused. *)
Definition demo_trace : list label :=
  [LArrive (demo_request "a") 1; LBook 0 2; LRun 0 demo_ok 3; LStore 0 4; LRelease 0;
   LArrive (demo_request "a") 5; LArrive (demo_request "a") 6; LArrive (demo_request "b") 7;
   LBook 1 8; LBook 2 9; LRun 2 demo_ok 10].

Definition demo : World :=
  match run_trace demo_config initial demo_trace with Next w => w | _ => initial end.

Definition demo_pool : ThreadLocalPool := ensure_pool_initialized demo_config (local_pool demo).
Definition demo_isolate : TaggedIsolate :=
  match isolates demo_pool with t :: _ => t | [] => isolate_new 0 EmptyString demo_config 0 end.

Lemma demo_reachable : reachable (eq initial) (step demo_config) demo.
Proof. apply (run_trace_reachable _ demo_trace). vm_compute. reflexivity. Qed.

Lemma demo_valid : valid_config demo_config.
Proof. split; vm_compute; [discriminate|reflexivity]. Qed.

Lemma demo_pool_eq : local_pool demo = Some demo_pool.
Proof. vm_compute. reflexivity. Qed.

Lemma demo_isolate_in : demo_isolate ∈ isolates demo_pool.
Proof. vm_compute. constructor. Qed.

(** ** Properties *)

(** C3: whatever the interleaving of requests, no step of [execute_pinned] fails an
    assertion, indexes out of range or looks for an isolate that is gone. It panics only in a
    log, when DEBUG events are taken and the id of the worker has a character across its
    eighth byte; and then it does, whatever the request came to. *)
Theorem pool_never_panics config w l :
  valid_config config -> reachable (eq initial) (step config) w ->
  (execute_pinned config w l = Panic -> logs_cut_id w l) /\
  (forall rid o now, l = LRun rid o now -> logs_cut_id w l -> execute_pinned config w l = Panic).
Proof.
  intros Hv Hw. split.
  - intros E. pose proof (execute_pinned_wf _ _ l Hv (reachable_wf _ _ Hv Hw)) as H. by rewrite E in H.
  - intros rid o now -> (rid' & r & ph & Hr & Hl & -> & Hph). simpl. rewrite Hr.
    unfold run_warm, run_cold, log_worker. rewrite Hl. by destruct ph.
Qed.

(** A request for a worker whose id has a character of two bytes as its eighth and ninth. *)
Definition cut_request : Request :=
  mkRequest "c" ("worker-" ++ String (Ascii.ascii_of_nat 195) (String (Ascii.ascii_of_nat 169) EmptyString)) 1 None true.
Definition demo_cut : World :=
  match run_trace demo_config initial [LArrive cut_request 1; LBook 0 2] with Next w => w | _ => initial end.

Lemma demo_cut_reachable : reachable (eq initial) (step demo_config) demo_cut.
Proof. apply (run_trace_reachable _ [LArrive cut_request 1; LBook 0 2]). vm_compute. reflexivity. Qed.

Lemma pool_never_panics_witness :
  (exists w', execute_pinned demo_config demo (LRun 1 demo_ok 11) = Next w') /\
  (execute_pinned demo_config demo (LRun 1 demo_ok 11) = Panic -> logs_cut_id demo (LRun 1 demo_ok 11)) /\
  execute_pinned demo_config demo_cut (LRun 0 demo_ok 3) = Panic.
Proof.
  split_and!.
  - eexists. vm_compute. reflexivity.
  - exact (proj1 (pool_never_panics demo_config demo (LRun 1 demo_ok 11) demo_valid demo_reachable)).
  - refine (proj2 (pool_never_panics demo_config demo_cut _ demo_valid demo_cut_reachable) 0 demo_ok 3%Z eq_refl _).
    exists 0, cut_request, (Cold 0). split_and!; vm_compute; reflexivity.
Defined.

(** The slot counter of every isolate is the number of requests in flight on
    it, and never exceeds the configured maximum. *)
Theorem pool_slots_exact config w p t :
  valid_config config -> reachable (eq initial) (step config) w ->
  local_pool w = Some p -> t ∈ isolates p ->
  Slots.active (concurrency t) = Z.of_nat (in_flight (iid t) (profile (requests w))) /\
  (Slots.active (concurrency t) <= max_concurrent_per_isolate config)%Z.
Proof.
  intros Hv Hw Hp Ht. pose proof (wf_pool _ _ (reachable_wf _ _ Hv Hw)) as Hwf.
  rewrite Hp in Hwf. destruct Hwf as [Hs _]. pose proof (wf_isolates _ _ _ Hs) as Hi.
  rewrite Forall_forall in Hi. destruct (Hi t Ht) as (_ & Ha & Hle). lia.
Qed.

Lemma pool_slots_exact_witness :
  Slots.active (concurrency demo_isolate) = 2%Z /\
  (Slots.active (concurrency demo_isolate) <= 2)%Z.
Proof.
  exact (pool_slots_exact demo_config demo demo_pool demo_isolate demo_valid demo_reachable
           demo_pool_eq demo_isolate_in).
Defined.

(** C1: a request runs on an isolate of its own tenant: the isolate it holds a
    slot on is in the pool, once, and carries the owner of the request. *)
Theorem requests_stay_with_their_owner config w rid r ph i :
  valid_config config -> reachable (eq initial) (step config) w ->
  requests w !! rid = Some (r, ph) -> slot_of ph = Some i ->
  exists p t, local_pool w = Some p /\ filter (fun t => iid t = i) (isolates p) = [t] /\
    owner_id t = req_owner r.
Proof.
  intros Hv Hw Hr Hi. pose proof (reachable_wf _ _ Hv Hw) as Hwf.
  destruct (on_isolate_wf config w rid r ph i (fun _ _ => Disabled) Hwf Hr Hi)
    as (p & t & Hp & [Hs _] & Ht & Hid & Ho & _).
  exists p, t. split_and!; [done| |done]. by apply filter_iid; [apply (wf_nodup _ _ _ Hs)|..].
Qed.

Lemma requests_stay_with_their_owner_witness :
  exists p t, local_pool demo = Some p /\ filter (fun t => iid t = 0) (isolates p) = [t] /\
    owner_id t = "a"%string.
Proof.
  refine (requests_stay_with_their_owner demo_config demo 2 (demo_request "a") _ 0
            demo_valid demo_reachable _ _); vm_compute; reflexivity.
Defined.

(** No owner has more isolates than its limit, and without overcommit the
    pool never exceeds its ceiling. *)
Theorem pool_limits_hold config w p :
  valid_config config -> reachable (eq initial) (step config) w -> local_pool w = Some p ->
  (forall o m, max_per_owner config = Some m -> owned (isolates p) o <= m) /\
  (overcommit config = false -> length (isolates p) <= max_per_thread config).
Proof.
  intros Hv Hw Hp. pose proof (wf_pool _ _ (reachable_wf _ _ Hv Hw)) as Hwf.
  rewrite Hp in Hwf. destruct Hwf as [Hs _]. split; [apply (wf_owner _ _ _ Hs)|apply (wf_ceiling _ _ _ Hs)].
Qed.

Lemma pool_limits_hold_witness :
  (forall o m, Some 1 = Some m -> owned (isolates demo_pool) o <= m) /\
  (false = false -> length (isolates demo_pool) <= 1).
Proof.
  exact (pool_limits_hold demo_config demo demo_pool demo_valid demo_reachable demo_pool_eq).
Defined.

(** Once a request has released its slot, an overcommitted pool is back
    under its ceiling, or every isolate left is in use. *)
Theorem release_returns_to_ceiling config w rid w' :
  valid_config config -> reachable (eq initial) (step config) w ->
  execute_pinned config w (LRelease rid) = Next w' ->
  exists p', local_pool w' = Some p' /\
    (length (isolates p') <= max_per_thread config \/ count is_idle (isolates p') = 0).
Proof.
  intros Hv Hw. pose proof (reachable_wf _ _ Hv Hw) as Hwf. simpl.
  destruct (requests w !! rid) as [[r []]|] eqn:Hr; try done.
  destruct (release_wf _ w rid r i r0 Hv Hwf Hr) as (w1 & p' & -> & _ & Hp & _ & Hc).
  intros [= <-]. eauto.
Qed.

Definition demo_after (ls : list label) : World :=
  match run_trace demo_config demo ls with Next w => w | _ => demo end.

Lemma demo_after_reachable ls w :
  run_trace demo_config demo ls = Next w -> reachable (eq initial) (step demo_config) w.
Proof.
  intros H. destruct demo_reachable as (w0 & H0 & Hr). exists w0. split; [done|].
  etransitivity; [exact Hr|]. by eapply run_trace_rtc.
Qed.

Lemma release_returns_to_ceiling_witness :
  exists p', local_pool (demo_after [LStore 2 12; LRelease 2]) = Some p' /\
    (length (isolates p') <= 1 \/ count is_idle (isolates p') = 0).
Proof.
  refine (release_returns_to_ceiling demo_config (demo_after [LStore 2 12]) 2 _ demo_valid _ _).
  - apply (demo_after_reachable [LStore 2 12]). vm_compute. reflexivity.
  - vm_compute. reflexivity.
Defined.

(** C2: a context is never in two places: no two requests run on it, and no
    cache holds a context a request runs on. *)
Theorem contexts_exclusive config w :
  valid_config config -> reachable (eq initial) (step config) w -> NoDup (live w).
Proof. intros Hv Hw. apply (wf_contexts _ _ (reachable_wf _ _ Hv Hw)). Qed.

Lemma contexts_exclusive_witness : live demo = [0; 1] /\ NoDup (live demo).
Proof.
  split; [vm_compute; reflexivity|].
  exact (contexts_exclusive demo_config demo demo_valid demo_reachable).
Defined.

(** The cache of an isolate stays within its bound, and a context in it has
    served fewer requests than the reuse limit. *)
Theorem caches_bounded config w p t :
  valid_config config -> reachable (eq initial) (step config) w ->
  local_pool w = Some p -> t ∈ isolates p ->
  length (cached_contexts t) <= max_cached_contexts config /\
  Forall (fun c => (reuse_count c < max_context_reuses config)%Z) (cached_contexts t).
Proof.
  intros Hv Hw Hp Ht. pose proof (wf_pool _ _ (reachable_wf _ _ Hv Hw)) as Hwf.
  rewrite Hp in Hwf. destruct Hwf as [_ Hc]. rewrite Forall_forall in Hc.
  destruct (Hc t Ht) as (<- & Hl & Hf). done.
Qed.

Lemma caches_bounded_witness :
  length (cached_contexts demo_isolate) <= 2 /\
  Forall (fun c => (reuse_count c < 3)%Z) (cached_contexts demo_isolate).
Proof.
  exact (caches_bounded demo_config demo demo_pool demo_isolate demo_valid demo_reachable
           demo_pool_eq demo_isolate_in).
Defined.

(** Bookkeeping gives a request a cached context only if it is of exactly
    the deployment asked for, builds a new one only if the isolate has none,
    and leaves no context of a superseded deployment in the cache. *)
Theorem bookkeeping_serves_the_deployment config w rid r i now w' :
  valid_config config -> reachable (eq initial) (step config) w ->
  requests w !! rid = Some (r, Acquired i) ->
  execute_pinned config w (LBook rid now) = Next w' ->
  exists p p' t t', local_pool w = Some p /\ t ∈ isolates p /\ iid t = i /\
    local_pool w' = Some p' /\ t' ∈ isolates p' /\ iid t' = i /\
    Forall (fun c => ~ superseded_by (wanted_key r) c) (cached_contexts t') /\
    ((exists c, requests w' !! rid = Some (r, Warm i c) /\ c ∈ cached_contexts t /\
        key_of c = wanted_key r) \/
     (requests w' !! rid = Some (r, Cold i) /\
        Forall (fun c => key_of c <> wanted_key r) (cached_contexts t))).
Proof.
  intros Hv Hw Hr. pose proof (reachable_wf _ _ Hv Hw) as Hwf. simpl. rewrite Hr.
  destruct (book_wf _ w rid r i now Hwf Hr) as (p & t & found & d & t' & Hp & Ht & Hi & Hb & -> & _).
  intros Hgo. assert (w' = set_phase (set_pool w (set_isolates p (update i (fun _ => t') (isolates p)))) rid r
    (match found with Some c => Warm i c | None => Cold i end)) as ->.
  { unfold log_worker in Hgo. destruct d; [by injection Hgo|]. destruct (loggable r); [by injection Hgo|done]. }
  clear Hgo. pose proof (wf_pool _ _ Hwf) as Hpw. rewrite Hp in Hpw. destruct Hpw as [_ Hc].
  rewrite Forall_forall in Hc.
  destruct (bookkeeping_spec config (wanted_key r) now t (Hc t Ht))
    as (f0 & d0 & t0 & Hb' & Hid & _ & _ & _ & _ & Hperm & Hsup & _ & Hfound & Hnone).
  rewrite Hb in Hb'. injection Hb' as <- <- <-.
  exists p, (set_isolates p (update i (fun _ => t') (isolates p))), t, t'.
  pose proof (lookup_lt_Some _ _ _ Hr) as Hlt.
  split_and!; try done; simpl.
  - apply elem_of_update. exists t. split; [done|]. by rewrite decide_True.
  - congruence.
  - rewrite list_lookup_insert_eq by done. destruct found as [c|].
    + left. exists c. split_and!; [done| |by apply Hfound]. rewrite Hperm. set_solver.
    + right. split; [done|]. apply Forall_forall. by apply Hnone.
Qed.

(** A second deployment of the worker arrives after the first was cached. *)
Definition demo_v2 : Request := mkRequest "a" "w" 2 None true.
Definition demo_redeployed : World :=
  demo_after [LStore 2 12; LRelease 2; LArrive demo_v2 20].

Lemma bookkeeping_serves_the_deployment_witness :
  exists w', execute_pinned demo_config demo_redeployed (LBook 4 21) = Next w' /\
  exists p p' t t', local_pool demo_redeployed = Some p /\ t ∈ isolates p /\ iid t = 0 /\
    local_pool w' = Some p' /\ t' ∈ isolates p' /\ iid t' = 0 /\
    Forall (fun c => ~ superseded_by (wanted_key demo_v2) c) (cached_contexts t') /\
    ((exists c, requests w' !! 4 = Some (demo_v2, Warm 0 c) /\ c ∈ cached_contexts t /\
        key_of c = wanted_key demo_v2) \/
     (requests w' !! 4 = Some (demo_v2, Cold 0) /\
        Forall (fun c => key_of c <> wanted_key demo_v2) (cached_contexts t))).
Proof.
  eexists. split; [vm_compute; reflexivity|].
  refine (bookkeeping_serves_the_deployment demo_config demo_redeployed 4 demo_v2 0 21 _
            demo_valid _ _ _).
  - apply (demo_after_reachable [LStore 2 12; LRelease 2; LArrive demo_v2 20]).
    vm_compute. reflexivity.
  - vm_compute. reflexivity.
  - vm_compute. reflexivity.
Defined.

(** The report of a request goes out at most once, and not before its event
    has run. *)
Theorem reports_at_most_once config w :
  valid_config config -> reachable (eq initial) (step config) w ->
  NoDup (reports w) /\
  forall rid, rid ∈ reports w ->
    exists r ph, requests w !! rid = Some (r, ph) /\ after_report ph = true.
Proof. intros Hv Hw. apply (wf_reports _ _ (reachable_wf _ _ Hv Hw)). Qed.

Lemma reports_at_most_once_witness :
  reports demo = [0; 2] /\ NoDup (reports demo) /\
  forall rid, rid ∈ reports demo ->
    exists r ph, requests demo !! rid = Some (r, ph) /\ after_report ph = true.
Proof.
  split; [vm_compute; reflexivity|].
  exact (reports_at_most_once demo_config demo demo_valid demo_reachable).
Defined.

(** No request whose worker id can be logged is stuck: at any time, whatever V8 and the
    guest answer, five steps of a request alone bring it to its end. *)
Theorem requests_complete config w rid r ph os :
  valid_config config -> reachable (eq initial) (step config) w ->
  requests w !! rid = Some (r, ph) -> loggable r = true ->
  exists w' res, drive config 5 w rid os = Next w' /\
    requests w' !! rid = Some (r, Finished res).
Proof.
  intros Hv Hw Hr Hl.
  apply (request_finishes config 5 w rid r ph os Hv (reachable_wf _ _ Hv Hw) Hr Hl).
  destruct ph; simpl; lia.
Qed.

Lemma requests_complete_witness :
  exists w' res, drive demo_config 5 demo 1 (fun _ => (demo_ok, 30%Z)) = Next w' /\
    requests w' !! 1 = Some (demo_request "a", Finished res).
Proof.
  refine (requests_complete demo_config demo 1 (demo_request "a") _ _
            demo_valid demo_reachable _ _); vm_compute; reflexivity.
Defined.

End PoolSafety.
