(* ===== verification/FairQueue.v ===== *)
(** * The interface of the turn queue

    What the event loop of a context relies on when requests share an isolate: a
    lock that is granted exactly when it is free, taken once granted or asked for,
    and free after an unlock. [AsyncWaiter] implements it (AsyncWaiter.v), the event
    loop is its client (Turns.v). *)

From stdpp Require Import base.

Class FairQueue (Q : Type) := {
  q_new : Q;
  q_free : Q -> bool;
  q_try : Q -> nat -> bool * Q;
  q_unlock : Q -> Q;
  q_new_free : q_free q_new = true;
  q_try_answers : forall q t, fst (q_try q t) = q_free q;
  q_try_taken : forall q t, q_free (snd (q_try q t)) = false;
  q_unlock_free : forall q, q_free (q_unlock q) = true
}.
