(* ===== verification/AsyncWaiter.v ===== *)
(** * The turn queue of an isolate (src/src/async_waiter.rs)

    The lock a request takes for one poll of its event loop, and the queue of
    wakers of the requests it turned away. All callers are on one thread, so
    each operation is atomic. *)

From stdpp Require Import base list relations.
From Stdlib Require Import Lia.
From S2P Require Import Prelude FairQueue.

Module Waiter.

(** Wakers are named by the request they wake. *)
Record AsyncWaiter := mkWaiter {
  queue : list nat;
  locked : bool
}.

Definition new : AsyncWaiter := mkWaiter [] false.

(** [try_lock]: the waker of a request turned away goes to the back. *)
Definition try_lock (w : AsyncWaiter) (waker : nat) : bool * AsyncWaiter :=
  if locked w then (false, mkWaiter (queue w ++ [waker]) true)
  else (true, mkWaiter (queue w) true).

(** [unlock]: frees the lock and wakes the waiter at the front. *)
Definition unlock (w : AsyncWaiter) : option nat * AsyncWaiter :=
  match queue w with
  | [] => (None, mkWaiter [] false)
  | x :: rest => (Some x, mkWaiter rest false)
  end.

Definition is_free (w : AsyncWaiter) : bool := negb (locked w).
Definition queue_len (w : AsyncWaiter) : nat := length (queue w).

(** ** Callers *)

(** The waiter with its callers: who holds the lock, who was turned away and
    who was woken, oldest first. *)
Record State := mkState {
  waiter : AsyncWaiter;
  holder : option nat;
  refused : list nat;
  woken : list nat
}.

Definition initial : State := mkState new None [] [].

(** Any request may try; only the holder unlocks. *)
Inductive step : State -> State -> Prop :=
| StepLocked s t w :
    try_lock (waiter s) t = (true, w) ->
    step s (mkState w (Some t) (refused s) (woken s))
| StepRefused s t w :
    try_lock (waiter s) t = (false, w) ->
    step s (mkState w (holder s) (refused s ++ [t]) (woken s))
| StepUnlock s t wk w :
    holder s = Some t -> unlock (waiter s) = (wk, w) ->
    step s (mkState w None (refused s) (woken s ++ option_list wk)).

Record waiter_wf (s : State) : Prop := {
  wf_locked : locked (waiter s) = true <-> is_Some (holder s);
  wf_order : refused s = woken s ++ queue (waiter s)
}.

Lemma step_wf s s' : waiter_wf s -> step s s' -> waiter_wf s'.
Proof.
  intros [Hl Ho] Hs. destruct Hs as [s t w Ht|s t w Ht|s t wk w Hh Hu].
  - unfold try_lock in Ht. destruct (locked (waiter s)) eqn:E; simplify_eq/=.
    split; simpl; [|done]. split; eauto.
  - unfold try_lock in Ht. destruct (locked (waiter s)) eqn:E; simplify_eq/=.
    split; simpl; [exact Hl|]. by rewrite Ho, app_assoc.
  - unfold unlock in Hu. destruct (queue (waiter s)) eqn:E; simplify_eq/=;
      (split; [by rewrite is_Some_alt|simpl]).
    + by rewrite Ho, !app_nil_r.
    + by rewrite Ho, <-app_assoc.
Qed.

Lemma waiter_reachable_wf s : reachable (eq initial) step s -> waiter_wf s.
Proof.
  apply reachable_invariant; [|eauto using step_wf].
  intros ? <-. split; [by rewrite is_Some_alt|done].
Qed.

(** The lock excludes: it is granted exactly when no request holds it. *)
Theorem waiter_excludes s t :
  reachable (eq initial) step s ->
  fst (try_lock (waiter s) t) = true <-> holder s = None.
Proof.
  intros Hs. pose proof (wf_locked _ (waiter_reachable_wf s Hs)) as Hl. unfold try_lock.
  destruct (locked (waiter s)), (holder s); simpl; split; intros H; try done;
    exfalso; [destruct (proj1 Hl eq_refl) as [? ?]; done|].
  by discriminate (proj2 Hl ltac:(eauto)).
Qed.

(** The first request holds the lock while two others are turned away. *)
Definition contended : State :=
  mkState (mkWaiter [1; 2] true) (Some 0) [1; 2] [].

Lemma contended_reachable : reachable (eq initial) step contended.
Proof.
  exists initial. split; [done|].
  eapply rtc_l; [by apply (StepLocked initial 0)|].
  eapply rtc_l; [by eapply (StepRefused _ 1)|].
  eapply rtc_l; [by eapply (StepRefused _ 2)|]. apply rtc_refl.
Qed.

Lemma waiter_excludes_witness :
  fst (try_lock (waiter contended) 3) = true <-> holder contended = None.
Proof. exact (waiter_excludes contended 3 contended_reachable). Defined.

(** Waiters are woken in the order they were turned away, none twice and
    none left out: who was woken is a prefix of who was turned away, and the
    rest is the queue. *)
Theorem waiter_fifo s :
  reachable (eq initial) step s ->
  woken s = take (length (woken s)) (refused s) /\
  queue (waiter s) = drop (length (woken s)) (refused s).
Proof.
  intros Hs. rewrite (wf_order _ (waiter_reachable_wf s Hs)).
  by rewrite take_app_length, drop_app_length.
Qed.

Lemma waiter_fifo_witness :
  woken contended = take 0 (refused contended) /\ queue (waiter contended) = drop 0 [1; 2].
Proof. exact (waiter_fifo contended contended_reachable). Defined.

(** ** The interface *)

#[global] Program Instance waiter_queue : FairQueue AsyncWaiter := {|
  q_new := new;
  q_free := is_free;
  q_try := try_lock;
  q_unlock w := snd (unlock w)
|}.
Next Obligation. done. Qed.
Next Obligation. intros q t. unfold try_lock, is_free. by destruct (locked q). Qed.
Next Obligation. intros q t. unfold try_lock, is_free. by destruct (locked q). Qed.
Next Obligation. intros q. unfold unlock, is_free. by destruct (queue q). Qed.

End Waiter.
