(* ===== verification/Streams.v ===== *)
(** * Streams (src/src/runtime/stream_manager.rs)

    The table of streams, its bounded channels, and the tasks that write and
    read them between two awaits: [write_chunk], [read_chunk], the pump of a
    request body and [spawn_stream_reader] of scheduler.rs. A channel is named
    by its place in [chans], since two streams can carry the same id. *)

From stdpp Require Import base list gmap strings relations.
From Stdlib Require Import ZArith Lia.
From S2P Require Import Prelude.

Module Streams.

Definition StreamId := Z.

Definition DEFAULT_HIGH_WATER_MARK : nat := 16.

Inductive StreamChunk :=
| Data (bytes : list Z)
| Done
| Error (e : string).

Definition terminal (c : StreamChunk) : bool :=
  match c with Done | Error _ => true | Data _ => false end.

(** ** Channels *)

(** A bounded channel of tokio, as its documentation has it: what is sent is received in
    order, [capacity] is the free slots, and a sender fails once the receiver is gone.
    [made_for] is the stream it was made for and [era] the
    request; [sent] and [received] record what went through it, each chunk with
    the request that sent it. *)
Record Channel := mkChannel {
  made_for : StreamId;
  era : nat;
  buffer : list StreamChunk;
  sent : list (nat * StreamChunk);
  received : list StreamChunk
}.

Record StreamManager := mkManager {
  chans : list Channel;
  senders : gmap StreamId nat;
  receivers : gmap StreamId nat;
  metadata : gmap StreamId string;
  next_id : StreamId;
  high_water_mark : nat
}.

Definition with_high_water_mark (hwm : nat) : StreamManager := mkManager [] ∅ ∅ ∅ 1%Z hwm.
Definition new : StreamManager := with_high_water_mark DEFAULT_HIGH_WATER_MARK.

(** The slots of every channel: one more than the high water mark. *)
Definition slots (m : StreamManager) : nat := high_water_mark m + 1.

Definition buffer_of (m : StreamManager) (h : nat) : list StreamChunk :=
  match chans m !! h with Some c => buffer c | None => [] end.

(** [Sender::capacity]: dropping the receiver drains the channel. *)
Definition capacity (rx_alive : nat -> bool) (m : StreamManager) (h : nat) : nat :=
  if rx_alive h then slots m - length (buffer_of m h) else slots m.

Definition set_chans (m : StreamManager) (l : list Channel) : StreamManager :=
  mkManager l (senders m) (receivers m) (metadata m) (next_id m) (high_water_mark m).
Definition set_senders (m : StreamManager) (s : gmap StreamId nat) : StreamManager :=
  mkManager (chans m) s (receivers m) (metadata m) (next_id m) (high_water_mark m).
Definition set_receivers (m : StreamManager) (r : gmap StreamId nat) : StreamManager :=
  mkManager (chans m) (senders m) r (metadata m) (next_id m) (high_water_mark m).

(** A chunk enters channel [h]. *)
Definition push (m : StreamManager) (h g : nat) (c : StreamChunk) : StreamManager :=
  set_chans m (alter (fun ch => mkChannel (made_for ch) (era ch) (buffer ch ++ [c])
                                 (sent ch ++ [(g, c)]) (received ch)) h (chans m)).

(** The first chunk leaves channel [h]. *)
Definition pop (m : StreamManager) (h : nat) : option (StreamChunk * StreamManager) :=
  match buffer_of m h with
  | [] => None
  | c :: rest =>
      Some (c, set_chans m (alter (fun ch => mkChannel (made_for ch) (era ch) rest (sent ch)
                                     (received ch ++ [c])) h (chans m)))
  end.

(** ** Operations *)

(** [create_stream]; [g] is the request it serves. *)
Definition create_stream (m : StreamManager) (g : nat) (url : string) : StreamId * StreamManager :=
  let id := next_id m in
  let h := length (chans m) in
  (id, mkManager (chans m ++ [mkChannel id g [] [] []]) (<[id := h]> (senders m))
         (<[id := h]> (receivers m)) (<[id := url]> (metadata m)) (wrap_u64 (id + 1)%Z)
         (high_water_mark m)).

Inductive WriteError := NotFound | BufferFull | ChannelClosed.

(** [try_write_chunk]; [rx_alive] says whether the receiver of a channel is
    still somewhere. *)
Definition try_write_chunk (rx_alive : nat -> bool) (m : StreamManager) (g : nat) (id : StreamId)
    (c : StreamChunk) : result unit WriteError * StreamManager :=
  match senders m !! id with
  | None => (Err NotFound, m)
  | Some h =>
      if negb (terminal c) && (capacity rx_alive m h <=? 1) then (Err BufferFull, m)
      else if negb (rx_alive h) then (Err ChannelClosed, set_senders m (delete id (senders m)))
      else if capacity rx_alive m h =? 0 then (Err BufferFull, m)
      else (Ok tt, push m h g c)
  end.

(** [write_chunk] after its lookup: one poll of [send]. [None] is pending. *)
Definition poll_write (rx_alive : nat -> bool) (m : StreamManager) (g : nat) (id : StreamId)
    (h : nat) (c : StreamChunk) : option (result unit WriteError) * StreamManager :=
  if negb (rx_alive h) then (Some (Err ChannelClosed), set_senders m (delete id (senders m)))
  else if capacity rx_alive m h =? 0 then (None, m)
  else (Some (Ok tt), push m h g c).

(** [read_chunk] up to its await: the receiver leaves the table. *)
Definition take_receiver (m : StreamManager) (id : StreamId) : option nat * StreamManager :=
  (receivers m !! id, set_receivers m (delete id (receivers m))).

(** One poll of [recv] in [read_chunk]; the receiver goes back after data. *)
Definition poll_read (tx_alive : nat -> bool) (m : StreamManager) (id : StreamId) (h : nat)
  : option (option StreamChunk) * StreamManager :=
  match pop m h with
  | Some (c, m') =>
      (Some (Some c),
       if terminal c then m' else set_receivers m' (<[id := h]> (receivers m')))
  | None => if tx_alive h then (None, m) else (Some None, m)
  end.

Definition close_stream (m : StreamManager) (id : StreamId) : StreamManager :=
  mkManager (chans m) (delete id (senders m)) (delete id (receivers m)) (delete id (metadata m))
    (next_id m) (high_water_mark m).

Definition get_stream_info (m : StreamManager) (id : StreamId) : option string := metadata m !! id.
Definition active_count (m : StreamManager) : nat := size (senders m).
Definition has_sender (m : StreamManager) (id : StreamId) : bool :=
  match senders m !! id with Some _ => true | None => false end.

(** [clear]: the ids start over. *)
Definition clear (m : StreamManager) : StreamManager :=
  mkManager (chans m) ∅ ∅ ∅ 1%Z (high_water_mark m).

(** ** Tasks *)

(** [Pump] is the task of [pump_request_body], [Reader] of
    [spawn_stream_reader]. *)
Inductive kind := Pump | Reader.

Inductive at_ := Receiving | Writing (h : nat) (c : StreamChunk) | Over.

(** A task with the request that spawned it and what its body will deliver. *)
Record Task := mkTask {
  t_kind : kind;
  t_id : StreamId;
  t_era : nat;
  t_body : list (result (list Z) string);
  t_at : at_
}.

(** The lookup of [write_chunk] for the closing [Done]. *)
Definition launch_done (m : StreamManager) (id : StreamId) : at_ :=
  match senders m !! id with Some h => Writing h Done | None => Over end.

(** Where a task goes once the write of [c] has answered. *)
Definition after (m : StreamManager) (k : kind) (id : StreamId) (c : StreamChunk) (ok : bool) : at_ :=
  match c with
  | Data _ => if ok then Receiving else launch_done m id
  | Error _ => match k with Pump => launch_done m id | Reader => Over end
  | Done => Over
  end.

(** The lookup of [write_chunk] for any chunk. *)
Definition launch (m : StreamManager) (k : kind) (id : StreamId) (c : StreamChunk) : at_ :=
  match senders m !! id with Some h => Writing h c | None => after m k id c false end.

(** The body delivers its next chunk, or ends. *)
Definition deliver (m : StreamManager) (t : Task) : Task :=
  match t_body t with
  | Ok b :: rest => mkTask (t_kind t) (t_id t) (t_era t) rest (launch m (t_kind t) (t_id t) (Data b))
  | Err e :: rest => mkTask (t_kind t) (t_id t) (t_era t) rest (launch m (t_kind t) (t_id t) (Error e))
  | [] => mkTask (t_kind t) (t_id t) (t_era t) [] (launch_done m (t_id t))
  end.

(** The cancellation of the request is seen first. *)
Definition cancelled (m : StreamManager) (t : Task) : Task :=
  mkTask (t_kind t) (t_id t) (t_era t) (t_body t) (launch_done m (t_id t)).

(** ** The whole: table, tasks, reads in flight and receivers handed out *)

Record World := mkWorld {
  mgr : StreamManager;
  now_era : nat;
  tasks : list Task;
  reads : list (option (StreamId * nat));
  taken : list (option nat);
  wakes : nat
}.

Definition initial (hwm : nat) : World := mkWorld (with_high_water_mark hwm) 0 [] [] [] 0.

(** The receivers of the world, and the senders. *)
Definition all_receivers (w : World) : list nat :=
  (map_to_list (receivers (mgr w))).*2 ++ omap (fmap snd) (reads w) ++ omap id (taken w).

Definition rx_alive (w : World) (h : nat) : bool := bool_decide (h ∈ all_receivers w).

Definition tx_of (t : Task) : option nat :=
  match t_at t with Writing h _ => Some h | _ => None end.

Definition tx_alive (w : World) (h : nat) : bool :=
  bool_decide (h ∈ (map_to_list (senders (mgr w))).*2 ++ omap tx_of (tasks w)).

Inductive label :=
| LCreate (url : string)
| LSpawn (k : kind) (url : string) (body : list (result (list Z) string))
| LDeliver (t : nat)
| LCancel (t : nat)
| LWritePoll (t : nat)
| LTryWrite (id : StreamId) (c : StreamChunk)
| LRead (id : StreamId)
| LReadPoll (r : nat)
| LReadDrop (r : nat)
| LTake (id : StreamId)
| LTakenRecv (k : nat)
| LTakenDrop (k : nat)
| LClose (id : StreamId)
| LClear.

Definition set_mgr (w : World) (m : StreamManager) : World :=
  mkWorld m (now_era w) (tasks w) (reads w) (taken w) (wakes w).
Definition set_task (w : World) (k : nat) (t : Task) : World :=
  mkWorld (mgr w) (now_era w) (<[k := t]> (tasks w)) (reads w) (taken w) (wakes w).
Definition set_read (w : World) (k : nat) (r : option (StreamId * nat)) : World :=
  mkWorld (mgr w) (now_era w) (tasks w) (<[k := r]> (reads w)) (taken w) (wakes w).
Definition set_taken (w : World) (k : nat) (r : option nat) : World :=
  mkWorld (mgr w) (now_era w) (tasks w) (reads w) (<[k := r]> (taken w)) (wakes w).

(** One step; [None] when the label does not apply. *)
Definition exec (w : World) (l : label) : option World :=
  match l with
  | LCreate url => Some (set_mgr w (snd (create_stream (mgr w) (now_era w) url)))
  | LSpawn k url body =>
      let (id, m) := create_stream (mgr w) (now_era w) url in
      Some (mkWorld m (now_era w) (tasks w ++ [mkTask k id (now_era w) body Receiving]) (reads w)
              (taken w) (wakes w))
  | LDeliver i =>
      t ← tasks w !! i;
      match t_at t with
      | Receiving => Some (set_task w i (deliver (mgr w) t))
      | _ => None
      end
  | LCancel i =>
      t ← tasks w !! i;
      match t_at t, t_kind t with
      | Receiving, Reader => Some (set_task w i (cancelled (mgr w) t))
      | _, _ => None
      end
  | LWritePoll i =>
      t ← tasks w !! i;
      match t_at t with
      | Writing h c =>
          match poll_write (rx_alive w) (mgr w) (t_era t) (t_id t) h c with
          | (None, _) => None
          | (Some r, m) =>
              Some (set_task (set_mgr w m) i
                     (mkTask (t_kind t) (t_id t) (t_era t) (t_body t)
                        (after m (t_kind t) (t_id t) c (is_ok r))))
          end
      | _ => None
      end
  | LTryWrite id c =>
      Some (set_mgr w (snd (try_write_chunk (rx_alive w) (mgr w) (now_era w) id c)))
  | LRead id =>
      match take_receiver (mgr w) id with
      | (Some h, m) =>
          Some (mkWorld m (now_era w) (tasks w) (reads w ++ [Some (id, h)]) (taken w) (wakes w))
      | (None, _) => None
      end
  | LReadPoll i =>
      '(id, h) ← mjoin (reads w !! i);
      match poll_read (tx_alive w) (mgr w) id h with
      | (None, _) => None
      | (Some _, m) => Some (set_read (set_mgr w m) i None)
      end
  | LReadDrop i => _ ← mjoin (reads w !! i); Some (set_read w i None)
  | LTake id =>
      match take_receiver (mgr w) id with
      | (Some h, m) =>
          Some (mkWorld m (now_era w) (tasks w) (reads w) (taken w ++ [Some h]) (wakes w))
      | (None, _) => None
      end
  | LTakenRecv i =>
      h ← mjoin (taken w !! i);
      '(_, m) ← pop (mgr w) h;
      Some (set_mgr w m)
  | LTakenDrop i => _ ← mjoin (taken w !! i); Some (set_taken w i None)
  | LClose id =>
      Some (mkWorld (close_stream (mgr w) id) (now_era w) (tasks w) (reads w) (taken w)
              (S (wakes w)))
  | LClear =>
      Some (mkWorld (clear (mgr w)) (S (now_era w)) (tasks w) (reads w) (taken w) (wakes w))
  end.

Definition step (w w' : World) : Prop := exists l, exec w l = Some w'.

Definition run : World -> list label -> option World := run_steps exec.

End Streams.
