(* ===== verification/StreamsCorrect.v ===== *)
(** * Correctness of streams

    Every channel delivers what was sent, in order and within its bound; a
    stream has one reader; a producer that cannot wait can always end its
    stream; and the streams of one request stay apart from those of the next
    exactly when no task outlives its request. *)

From stdpp Require Import base list gmap strings relations.
From Stdlib Require Import ZArith Lia.
From S2P Require Import Prelude Streams.

Module StreamsCorrect.
Import Streams.

(** ** Channels: order and bound *)

Definition channel_wf (hwm : nat) (c : Channel) : Prop :=
  (sent c).*2 = received c ++ buffer c /\ length (buffer c) <= hwm + 1.

Definition manager_wf (m : StreamManager) : Prop :=
  Forall (channel_wf (high_water_mark m)) (chans m).

Lemma push_wf m h g c :
  manager_wf m -> length (buffer_of m h) < slots m -> manager_wf (push m h g c).
Proof.
  intros Hm Hlen. apply Forall_alter; [done|]. intros ch Hch [Hs Hb].
  unfold buffer_of in Hlen. rewrite Hch in Hlen. unfold slots in Hlen. split; simpl.
  - by rewrite fmap_app, Hs, app_assoc.
  - rewrite length_app. simpl. lia.
Qed.

Lemma pop_wf m h c m' : manager_wf m -> pop m h = Some (c, m') -> manager_wf m'.
Proof.
  intros Hm Hp. unfold pop in Hp. destruct (buffer_of m h) as [|c0 rest] eqn:E; simplify_eq.
  apply Forall_alter; [done|]. intros ch Hch [Hs Hb].
  unfold buffer_of in E. rewrite Hch in E. split; simpl.
  - by rewrite Hs, E, <-app_assoc.
  - rewrite E in Hb. simpl in Hb. lia.
Qed.

Lemma capacity_room rx m h : rx h = true -> (capacity rx m h =? 0) = false ->
  length (buffer_of m h) < slots m.
Proof. unfold capacity. intros ->. intros H%Nat.eqb_neq. lia. Qed.

Lemma poll_write_wf rx m g id h c : manager_wf m -> manager_wf (snd (poll_write rx m g id h c)).
Proof.
  intros Hm. unfold poll_write. destruct (rx h) eqn:Hr; simpl; [|done].
  destruct (capacity rx m h =? 0) eqn:Hc; simpl; [done|]. eauto using push_wf, capacity_room.
Qed.

Lemma try_write_wf rx m g id c : manager_wf m -> manager_wf (snd (try_write_chunk rx m g id c)).
Proof.
  intros Hm. unfold try_write_chunk. destruct (senders m !! id) as [h|]; simpl; [|done].
  destruct (_ && _); simpl; [done|]. destruct (rx h) eqn:Hr; simpl; [|done].
  destruct (capacity rx m h =? 0) eqn:Hc; simpl; [done|]. eauto using push_wf, capacity_room.
Qed.

Lemma poll_read_wf tx m id h : manager_wf m -> manager_wf (snd (poll_read tx m id h)).
Proof.
  intros Hm. unfold poll_read. destruct (pop m h) as [[c m']|] eqn:Hp.
  - apply pop_wf in Hp; [|done]. by destruct (terminal c).
  - by destruct (tx h).
Qed.

Lemma create_wf m g url : manager_wf m -> manager_wf (snd (create_stream m g url)).
Proof.
  intros Hm. apply Forall_app. split; [done|]. constructor; [|constructor]. split; simpl; [done|lia].
Qed.

Lemma streams_exec_wf w l w' : manager_wf (mgr w) -> exec w l = Some w' -> manager_wf (mgr w').
Proof.
  intros Hm H. destruct l; simpl in H; step_cases H; try done;
    repeat match goal with
    | E : poll_write ?rx ?m ?g ?id ?h ?c = _ |- _ =>
        pose proof (poll_write_wf rx m g id h c Hm) as Hw; rewrite E in Hw; clear E
    | E : poll_read ?tx ?m ?id ?h = _ |- _ =>
        pose proof (poll_read_wf tx m id h Hm) as Hw; rewrite E in Hw; clear E
    end; eauto using try_write_wf, pop_wf.
  - by apply (create_wf (mgr w) (now_era w) url).
  - by apply (create_wf (mgr w) (now_era w) url).
Qed.

Lemma exec_hwm w l w' :
  exec w l = Some w' -> high_water_mark (mgr w') = high_water_mark (mgr w).
Proof.
  intros H. destruct l; simpl in H; step_cases H; try done;
    unfold poll_write, poll_read, pop, try_write_chunk in *; repeat case_match; by simplify_eq/=.
Qed.

Definition reach (hwm : nat) : World -> Prop := reachable (eq (initial hwm)) step.

Lemma streams_reach_wf hwm w : reach hwm w -> manager_wf (mgr w) /\ high_water_mark (mgr w) = hwm.
Proof.
  apply (reachable_invariant _ _ (fun w => manager_wf (mgr w) /\ high_water_mark (mgr w) = hwm)).
  - intros ? <-. split; [constructor|done].
  - intros w1 w2 [Hm Hh] [l Hl]. split; [by eapply streams_exec_wf|].
    by rewrite (exec_hwm _ _ _ Hl).
Qed.

(** A channel hands over what was sent into it, in order and without loss
    or repetition, and never holds more than the high water mark plus the slot
    of the terminal marker. *)
Theorem channels_fifo_and_bounded hwm w ch :
  reach hwm w -> ch ∈ chans (mgr w) ->
  (sent ch).*2 = received ch ++ buffer ch /\ length (buffer ch) <= hwm + 1.
Proof.
  intros Hw Hch. destruct (streams_reach_wf hwm w Hw) as [Hm Hh]. unfold manager_wf in Hm.
  rewrite Forall_forall in Hm. rewrite <-Hh. by apply Hm.
Qed.

(** ** One reader per stream *)

Definition receivers_wf (w : World) : Prop :=
  NoDup (all_receivers w) /\ Forall (fun h => h < length (chans (mgr w))) (all_receivers w).

(** Receivers move around and are dropped; only [create_stream] makes one. *)
Lemma receivers_wf_sub w w' fresh :
  receivers_wf w -> all_receivers w' ⊆+ fresh ++ all_receivers w ->
  fresh = seq (length (chans (mgr w))) (length fresh) ->
  length (chans (mgr w')) = length (chans (mgr w)) + length fresh ->
  receivers_wf w'.
Proof.
  intros [Hnd Hlt] Hsub Hf Hlen. rewrite Forall_forall in Hlt. split.
  - eapply NoDup_sub; [exact Hsub|]. apply NoDup_app. split_and!; [|intros x Hx Hx'|done].
    + rewrite Hf. apply NoDup_seq.
    + rewrite Hf in Hx. apply elem_of_seq in Hx. specialize (Hlt _ Hx'). simpl in Hlt. lia.
  - apply Forall_forall. intros x Hx. eapply elem_of_submseteq in Hx; [|exact Hsub].
    rewrite Hlen. apply elem_of_app in Hx as [Hx|Hx].
    + rewrite Hf in Hx. apply elem_of_seq in Hx. lia.
    + specialize (Hlt _ Hx). simpl in Hlt. lia.
Qed.

Definition rx_values (r : gmap StreamId nat) : list nat := (map_to_list r).*2.

Lemma rx_values_delete r id :
  rx_values r ≡ₚ option_list (r !! id) ++ rx_values (delete id r).
Proof.
  unfold rx_values. destruct (r !! id) as [h|] eqn:E; simpl.
  - rewrite <-(insert_id r id h E) at 1. rewrite <-insert_delete_eq.
    by rewrite map_to_list_insert by apply lookup_delete_eq.
  - by rewrite delete_id.
Qed.

Lemma rx_values_insert r id h :
  rx_values (<[id := h]> r) ⊆+ h :: rx_values r.
Proof.
  rewrite (rx_values_delete (<[id := h]> r) id), lookup_insert_eq, delete_insert_eq.
  apply submseteq_skip. rewrite (rx_values_delete r id). by apply submseteq_inserts_l.
Qed.

Lemma length_push m h g c : length (chans (push m h g c)) = length (chans m).
Proof. apply length_alter. Qed.

Lemma pop_keeps m h c m' :
  pop m h = Some (c, m') ->
  senders m' = senders m /\ receivers m' = receivers m /\ length (chans m') = length (chans m).
Proof. unfold pop. intros H. case_match; simplify_eq/=. by rewrite length_alter. Qed.

Lemma poll_write_keeps rx m g id h c r m' :
  poll_write rx m g id h c = (r, m') ->
  receivers m' = receivers m /\ length (chans m') = length (chans m).
Proof. unfold poll_write. intros H. repeat case_match; simplify_eq/=; by rewrite ?length_alter. Qed.

Lemma try_write_keeps rx m g id c :
  receivers (snd (try_write_chunk rx m g id c)) = receivers m /\
  length (chans (snd (try_write_chunk rx m g id c))) = length (chans m).
Proof. unfold try_write_chunk. repeat case_match; simplify_eq/=; by rewrite ?length_alter. Qed.

Lemma poll_read_keeps tx m id h r m' :
  poll_read tx m id h = (r, m') ->
  (receivers m' = receivers m \/ receivers m' = <[id := h]> (receivers m)) /\
  senders m' = senders m /\ length (chans m') = length (chans m).
Proof.
  unfold poll_read. destruct (pop m h) as [[c m1]|] eqn:Hp.
  - apply pop_keeps in Hp as (Hs & Hr & Hl). intros [= <- <-].
    destruct (terminal c); simpl; rewrite ?Hr; auto.
  - destruct (tx h); intros [= <- <-]; auto.
Qed.

Lemma mjoin_Some {A} (l : list (option A)) i x : mjoin (l !! i) = Some x -> l !! i = Some (Some x).
Proof. destruct (l !! i) as [[]|]; simpl; congruence. Qed.

(** A read in flight, or a receiver handed out, is given up. *)
Lemma omap_give {A} (f : option A -> option nat) l i x :
  f None = None -> l !! i = Some x ->
  omap f l ≡ₚ option_list (f x) ++ omap f (<[i := None]> l).
Proof.
  intros Hf Hi. destruct (omap_insert f l i x None Hi) as (rest & -> & ->). by rewrite Hf.
Qed.

Lemma all_receivers_eq m e t r k n :
  all_receivers (mkWorld m e t r k n) =
  rx_values (receivers m) ++ omap (fmap snd) r ++ omap id k.
Proof. done. Qed.

Lemma exec_receivers w l w' : receivers_wf w -> exec w l = Some w' -> receivers_wf w'.
Proof.
  destruct w as [m e ts rs ks n]. intros Hw H.
  assert (forall m' e' ts' rs' ks' n', length (chans m') = length (chans m) ->
    rx_values (receivers m') ++ omap (fmap snd) rs' ++ omap id ks' ⊆+
      rx_values (receivers m) ++ omap (fmap snd) rs ++ omap id ks ->
    receivers_wf (mkWorld m' e' ts' rs' ks' n')) as Hsame.
  { intros m' e' ts' rs' ks' n' Hl Hsub.
    apply (receivers_wf_sub _ _ [] Hw); [exact Hsub|done|simpl; lia]. }
  destruct l; simpl in H; step_cases H; try (apply Hsame; done).
  - apply (receivers_wf_sub _ _ [length (chans m)] Hw); [|done|simpl; rewrite length_app; simpl; lia].
    rewrite !all_receivers_eq. simpl.
    change (?a :: ?b ++ ?c) with ((a :: b) ++ c). apply submseteq_app; [|done]. apply rx_values_insert.
  - apply (receivers_wf_sub _ _ [length (chans m)] Hw); [|done|simpl; rewrite length_app; simpl; lia].
    rewrite !all_receivers_eq. simpl.
    change (?a :: ?b ++ ?c) with ((a :: b) ++ c). apply submseteq_app; [|done]. apply rx_values_insert.
  - destruct (poll_write_keeps _ _ _ _ _ _ _ _ Heqp) as [Hr Hl]. apply Hsame; [done|]. simpl. by rewrite Hr.
  - destruct (try_write_keeps (rx_alive (mkWorld m e ts rs ks n)) m e id c) as [Hr Hl].
    apply Hsame; [done|]. simpl. by rewrite Hr.
  - apply Hsame; [done|]. simpl. rewrite (rx_values_delete (receivers m) id), Heqo, omap_app. simpl.
    rewrite (Permutation_app_comm _ [n0]), <-!app_assoc. simpl.
    by rewrite <-Permutation_middle.
  - apply mjoin_Some in Heqo. destruct (poll_read_keeps _ _ _ _ _ _ Heqp1) as (Hr & _ & Hl).
    apply Hsame; [done|]. simpl. rewrite (omap_give _ rs r _ eq_refl Heqo). simpl.
    rewrite <-Permutation_middle. change (?a :: ?b ++ ?c) with ((a :: b) ++ c).
    apply submseteq_app; [|done]. destruct Hr as [->| ->]; [by apply submseteq_cons|apply rx_values_insert].
  - apply mjoin_Some in Heqo. apply Hsame; [done|]. apply submseteq_app; [done|].
    apply submseteq_app; [|done]. rewrite (omap_give _ rs r _ eq_refl Heqo). by apply submseteq_inserts_l.
  - apply Hsame; [done|]. simpl. rewrite (rx_values_delete (receivers m) id), Heqo, omap_app. simpl.
    by rewrite <-!Permutation_middle, app_nil_r.
  - destruct (pop_keeps _ _ _ _ Heqo0) as (_ & Hr & Hl). apply Hsame; [done|]. simpl. by rewrite Hr.
  - apply mjoin_Some in Heqo. apply Hsame; [done|]. do 2 (apply submseteq_app; [done|]).
    rewrite (omap_give _ ks k _ eq_refl Heqo). by apply submseteq_inserts_l.
  - apply Hsame; [done|]. simpl. apply submseteq_app; [|done].
    rewrite (rx_values_delete (receivers m) id). by apply submseteq_inserts_l.
  - apply Hsame; [done|]. simpl. apply submseteq_app; [apply submseteq_nil_l|done].
Qed.

Lemma reach_receivers hwm w : reach hwm w -> receivers_wf w.
Proof.
  apply reachable_invariant.
  - intros ? <-. split; [constructor|constructor].
  - intros w1 w2 Hw [l Hl]. by eapply exec_receivers.
Qed.

(** A channel has one consumer: its receiver is in one place only, the
    table, one read in flight or one response body. *)
Theorem one_consumer_per_channel hwm w : reach hwm w -> NoDup (all_receivers w).
Proof. intros Hw. apply (reach_receivers hwm w Hw). Qed.

(** ** A producer that cannot wait *)

(** What the guest and the consumer do with one response stream. *)
Inductive op := OWrite (c : StreamChunk) | ORecv.

Definition do_op (id : StreamId) (h : nat) (m : StreamManager) (o : op) : StreamManager :=
  match o with
  | OWrite c => snd (try_write_chunk (fun _ => true) m 0 id c)
  | ORecv => match pop m h with Some (_, m') => m' | None => m end
  end.

Definition ended (c : Channel) : bool := existsb (fun gc => terminal (snd gc)) (sent c).

(** Until the stream is ended, the last slot of its channel is free. *)
Definition spare (hwm : nat) (c : Channel) : Prop :=
  ended c = false -> length (buffer c) <= hwm.

Definition stream_open (id : StreamId) (h : nat) (m : StreamManager) : Prop :=
  senders m !! id = Some h /\ exists c, chans m !! h = Some c /\ spare (high_water_mark m) c.

Lemma push_lookup m h g c ch :
  chans m !! h = Some ch ->
  chans (push m h g c) !! h =
    Some (mkChannel (made_for ch) (era ch) (buffer ch ++ [c]) (sent ch ++ [(g, c)]) (received ch)).
Proof. intros H. unfold push. simpl. by rewrite list_lookup_alter_eq, H. Qed.

Lemma try_write_open id h m g c :
  stream_open id h m -> stream_open id h (snd (try_write_chunk (fun _ => true) m g id c)).
Proof.
  intros (Hs & ch & Hch & Hsp). unfold try_write_chunk. rewrite Hs.
  unfold capacity, buffer_of. rewrite Hch. cbn [negb].
  assert (stream_open id h m) as Hopen by (split; eauto).
  destruct (negb (terminal c) && _) eqn:Hfull; [done|].
  destruct (_ =? 0); [done|]. split; [done|]. eexists. split; [by apply push_lookup|].
  unfold spare, ended in *. simpl. rewrite existsb_app, orb_false_iff. simpl.
  intros [H1 H2]. rewrite orb_false_r in H2. rewrite H2 in Hfull. simpl in Hfull.
  apply Nat.leb_gt in Hfull. unfold slots in Hfull. rewrite length_app. simpl. lia.
Qed.

Lemma pop_open id h m c m' : stream_open id h m -> pop m h = Some (c, m') -> stream_open id h m'.
Proof.
  intros (Hs & ch & Hch & Hsp) Hp. unfold pop, buffer_of in Hp. rewrite Hch in Hp.
  destruct (buffer ch) as [|c0 rest] eqn:E; simplify_eq. split; [done|]. simpl.
  rewrite list_lookup_alter_eq, Hch. eexists. split; [done|].
  unfold spare, ended in *. simpl. rewrite E in Hsp. simpl in Hsp. intros H. specialize (Hsp H). lia.
Qed.

Lemma ops_open id h ops m : stream_open id h m -> stream_open id h (fold_left (do_op id h) ops m).
Proof.
  revert m. induction ops as [|o ops IH]; intros m Hm; simpl; [done|]. apply IH.
  destruct o as [c|]; simpl; [by apply try_write_open|].
  destruct (pop m h) as [[c m']|] eqn:Hp; [by eapply pop_open|done].
Qed.

Lemma ops_hwm id h ops m : high_water_mark (fold_left (do_op id h) ops m) = high_water_mark m.
Proof.
  revert m. induction ops as [|o ops IH]; intros m; simpl; [done|]. rewrite IH.
  destruct o; simpl; unfold try_write_chunk, pop; repeat case_match; by simplify_eq/=.
Qed.

(** The guest can always end the stream it writes: after any sequence of
    writes and reads on a new stream that is not ended yet, [Done] and [Error]
    are accepted, and data is accepted exactly while fewer chunks than the high
    water mark are waiting. *)
Theorem terminal_marker_always_fits m g url ops :
  let id := next_id m in
  let h := length (chans m) in
  let m' := fold_left (do_op id h) ops (snd (create_stream m g url)) in
  exists ch, chans m' !! h = Some ch /\
    (ended ch = false ->
      forall c, fst (try_write_chunk (fun _ => true) m' 0 id c) =
        if terminal c || (length (buffer ch) <? high_water_mark m) then Ok tt else Err BufferFull).
Proof.
  intros id h m'.
  assert (stream_open id h (snd (create_stream m g url))) as H0.
  { split; simpl; [by rewrite lookup_insert_eq|]. unfold h.
    rewrite lookup_app_r, Nat.sub_diag by lia. eexists. split; [done|]. unfold spare. simpl. lia. }
  apply (ops_open id h ops) in H0 as (Hs & ch & Hch & Hsp). fold m' in Hs, Hch, Hsp.
  assert (high_water_mark m' = high_water_mark m) as Hh by (unfold m'; by rewrite ops_hwm).
  exists ch. split; [done|]. intros Hend c. specialize (Hsp Hend).
  unfold try_write_chunk. rewrite Hs. unfold capacity, buffer_of, slots. rewrite Hch. simpl.
  rewrite Hh in *. destruct (terminal c); simpl.
  - destruct (Nat.eqb_spec (high_water_mark m + 1 - length (buffer ch)) 0); [lia|done].
  - destruct (Nat.leb_spec (high_water_mark m + 1 - length (buffer ch)) 1) as [Hle|Hgt].
    + destruct (Nat.ltb_spec (length (buffer ch)) (high_water_mark m)); [lia|done].
    + destruct (Nat.eqb_spec (high_water_mark m + 1 - length (buffer ch)) 0); [lia|].
      destruct (Nat.ltb_spec (length (buffer ch)) (high_water_mark m)); [done|lia].
Qed.

(** ** Streams and the requests they belong to *)

(** A task that still has something to write, or a read in flight. *)
Definition task_over (t : Task) : bool := match t_at t with Over => true | _ => false end.

Definition quiet (w : World) : bool :=
  forallb task_over (tasks w) && forallb (fun r => match r with None => true | _ => false end) (reads w).

(** Steps in which the table is only cleared once the tasks of the request are
    over. *)
Definition quiet_step (w w' : World) : Prop :=
  exists l, exec w l = Some w' /\ (l = LClear -> quiet w = true).

(** Channel [h] was made for stream [id] of request [e]. *)
Definition belongs (m : StreamManager) (e : nat) (id : StreamId) (h : nat) : Prop :=
  exists ch, chans m !! h = Some ch /\ made_for ch = id /\ era ch = e.

Definition sent_by_own (ch : Channel) : Prop := Forall (fun gc => fst gc = era ch) (sent ch).

Definition task_wf (m : StreamManager) (e : nat) (t : Task) : Prop :=
  match t_at t with
  | Over => True
  | Receiving => t_era t = e
  | Writing h _ => t_era t = e /\ belongs m e (t_id t) h
  end.

Record era_wf (w : World) : Prop := {
  era_senders : forall id h, senders (mgr w) !! id = Some h -> belongs (mgr w) (now_era w) id h;
  era_receivers : forall id h, receivers (mgr w) !! id = Some h -> belongs (mgr w) (now_era w) id h;
  era_tasks : Forall (task_wf (mgr w) (now_era w)) (tasks w);
  era_reads : Forall (fun r => forall id h, r = Some (id, h) -> belongs (mgr w) (now_era w) id h) (reads w);
  era_sent : Forall sent_by_own (chans (mgr w))
}.

(** A change of the table that keeps every channel's stream and request. *)
Definition extends (m m' : StreamManager) : Prop :=
  forall e id h, belongs m e id h -> belongs m' e id h.

Lemma extends_refl m m' : chans m' = chans m -> extends m m'.
Proof. intros E e id h. unfold belongs. by rewrite E. Qed.

Lemma extends_alter m f h :
  (forall ch, made_for (f ch) = made_for ch /\ era (f ch) = era ch) ->
  extends m (set_chans m (alter f h (chans m))).
Proof.
  intros Hf e id h' (ch & Hch & <- & <-). unfold belongs. simpl.
  destruct (decide (h = h')) as [->|Hne].
  - rewrite list_lookup_alter_eq, Hch. exists (f ch). destruct (Hf ch). done.
  - rewrite list_lookup_alter_ne by done. by exists ch.
Qed.

Lemma extends_push m h g c : extends m (push m h g c).
Proof. by apply extends_alter. Qed.

Lemma extends_create m g url : extends m (snd (create_stream m g url)).
Proof.
  intros e id h (ch & Hch & ? & ?). exists ch. split; [|done]. simpl. by apply lookup_app_l_Some.
Qed.

Lemma sent_push m h g c :
  Forall sent_by_own (chans m) ->
  (forall ch, chans m !! h = Some ch -> era ch = g) ->
  Forall sent_by_own (chans (push m h g c)).
Proof.
  intros Hs Hg. apply Forall_alter; [done|]. intros ch Hch Hown. unfold sent_by_own in *. simpl.
  apply Forall_app. split; [done|]. repeat constructor. simpl. symmetry. by apply Hg.
Qed.

Lemma belongs_era m e id h ch : belongs m e id h -> chans m !! h = Some ch -> era ch = e.
Proof. intros (ch' & Hch & _ & <-) H. congruence. Qed.

(** [pop] moves a chunk from the buffer to the received ones. *)
Lemma extends_pop m h c m' : pop m h = Some (c, m') -> extends m m'.
Proof. unfold pop. intros H. case_match; simplify_eq. by apply extends_alter. Qed.

Lemma sent_pop m h c m' :
  Forall sent_by_own (chans m) -> pop m h = Some (c, m') -> Forall sent_by_own (chans m').
Proof.
  unfold pop. intros Hs H. case_match; simplify_eq. by apply Forall_alter.
Qed.

Lemma task_wf_extends m m' e t : extends m m' -> task_wf m e t -> task_wf m' e t.
Proof. intros He. unfold task_wf. destruct (t_at t); naive_solver. Qed.

Lemma launch_done_wf m e k id body :
  (forall h, senders m !! id = Some h -> belongs m e id h) ->
  task_wf m e (mkTask k id e body (launch_done m id)).
Proof. intros H. unfold launch_done, task_wf. destruct (senders m !! id); simpl; auto. Qed.

Lemma after_wf m e k id body c ok :
  (forall h, senders m !! id = Some h -> belongs m e id h) ->
  task_wf m e (mkTask k id e body (after m k id c ok)).
Proof.
  intros H. pose proof (launch_done_wf m e k id body H) as Hd. unfold after.
  destruct c; [destruct ok; done|done|]. destruct k; done.
Qed.

Lemma launch_wf m e k id body c :
  (forall h, senders m !! id = Some h -> belongs m e id h) ->
  task_wf m e (mkTask k id e body (launch m k id c)).
Proof.
  intros H. pose proof (after_wf m e k id body c false H) as Ha. unfold launch.
  destruct (senders m !! id) eqn:E; [|done]. unfold task_wf. simpl. auto.
Qed.

(** The invariant after the table grew or lost entries, and tasks and reads
    moved on. *)
Lemma era_wf_next w m' ts rs ks n :
  era_wf w -> extends (mgr w) m' ->
  (forall id h, senders m' !! id = Some h ->
     senders (mgr w) !! id = Some h \/ belongs m' (now_era w) id h) ->
  (forall id h, receivers m' !! id = Some h ->
     receivers (mgr w) !! id = Some h \/ belongs m' (now_era w) id h) ->
  (forall t, t ∈ ts -> t ∈ tasks w \/ task_wf m' (now_era w) t) ->
  (forall id h, Some (id, h) ∈ rs -> Some (id, h) ∈ reads w \/ belongs m' (now_era w) id h) ->
  Forall sent_by_own (chans m') ->
  era_wf (mkWorld m' (now_era w) ts rs ks n).
Proof.
  intros [Hs Hr Ht Hrd _] Hext Hs' Hr' Ht' Hrd' Hsent.
  rewrite Forall_forall in Ht. pose proof (proj1 (Forall_forall _ _) Hrd) as Hrd0.
  split; simpl.
  - intros id h H. destruct (Hs' id h H); auto.
  - intros id h H. destruct (Hr' id h H); auto.
  - apply Forall_forall. intros t H. destruct (Ht' t H); [|done].
    eapply task_wf_extends; [done|auto].
  - apply Forall_forall. intros r H id h ->. destruct (Hrd' id h H); [|done].
    apply Hext. by apply (Hrd0 _ H0).
  - done.
Qed.

Lemma elem_of_insert_list {A} (l : list A) i x y : y ∈ <[i := x]> l -> y ∈ l \/ y = x.
Proof.
  intros (k & Hk)%list_elem_of_lookup.
  apply list_lookup_insert_Some in Hk as [(_ & -> & _)|(_ & Hk)]; [by right|].
  left. by eapply list_elem_of_lookup_2.
Qed.

Lemma poll_write_era rx m g e id h c r m' :
  poll_write rx m g id h c = (r, m') -> Forall sent_by_own (chans m) ->
  belongs m e id h -> g = e ->
  extends m m' /\ Forall sent_by_own (chans m') /\
  forall id' h', senders m' !! id' = Some h' -> senders m !! id' = Some h'.
Proof.
  unfold poll_write. intros H Hs Hb ->. repeat case_match; simplify_eq/=.
  - split_and!; [by apply extends_refl|done|]. intros id' h'. rewrite lookup_delete_Some. tauto.
  - split_and!; [by apply extends_refl|done|done].
  - split_and!; [apply extends_push| |done]. apply sent_push; [done|]. eauto using belongs_era.
Qed.

Lemma try_write_era rx m e id c :
  Forall sent_by_own (chans m) ->
  (forall h, senders m !! id = Some h -> belongs m e id h) ->
  let m' := snd (try_write_chunk rx m e id c) in
  extends m m' /\ Forall sent_by_own (chans m') /\ receivers m' = receivers m /\
  forall id' h', senders m' !! id' = Some h' -> senders m !! id' = Some h'.
Proof.
  intros Hs Hb m'. unfold m', try_write_chunk. destruct (senders m !! id) as [h|] eqn:E.
  2: { split_and!; [by apply extends_refl|done..]. }
  destruct (_ && _); simpl; [split_and!; [by apply extends_refl|done..]|].
  destruct (rx h); simpl.
  - destruct (_ =? 0); simpl; [split_and!; [by apply extends_refl|done..]|].
    split_and!; [apply extends_push| |done|done]. apply sent_push; [done|]. eauto using belongs_era.
  - split_and!; [by apply extends_refl|done|done|]. intros id' h'. rewrite lookup_delete_Some. tauto.
Qed.

Lemma poll_read_era tx m e id h r m' :
  poll_read tx m id h = (r, m') -> Forall sent_by_own (chans m) -> belongs m e id h ->
  extends m m' /\ Forall sent_by_own (chans m') /\ senders m' = senders m /\
  forall id' h', receivers m' !! id' = Some h' -> receivers m !! id' = Some h' \/ belongs m' e id' h'.
Proof.
  unfold poll_read. intros H Hs Hb. destruct (pop m h) as [[c m1]|] eqn:Hp.
  - injection H as <- <-. pose proof (extends_pop _ _ _ _ Hp) as He.
    pose proof (sent_pop _ _ _ _ Hs Hp) as Hs1. pose proof (pop_keeps _ _ _ _ Hp) as (Hsn & Hrc & _).
    destruct (terminal c); [rewrite Hrc; auto|]. split_and!; [done|done|done|]. simpl. rewrite Hrc.
    intros id' h' [[<- <-]|[_ ?]]%lookup_insert_Some; [|by left]. right. by apply He.
  - destruct (tx h); simplify_eq; auto using extends_refl.
Qed.

Lemma create_belongs m e url :
  belongs (snd (create_stream m e url)) e (next_id m) (length (chans m)).
Proof.
  eexists. simpl. rewrite lookup_app_r, Nat.sub_diag by lia. done.
Qed.

Lemma create_era m e url :
  let m' := snd (create_stream m e url) in
  Forall sent_by_own (chans m) ->
  Forall sent_by_own (chans m') /\
  (forall id h, senders m' !! id = Some h -> senders m !! id = Some h \/ belongs m' e id h) /\
  (forall id h, receivers m' !! id = Some h -> receivers m !! id = Some h \/ belongs m' e id h).
Proof.
  intros m' Hs. pose proof (create_belongs m e url) as Hb. split_and!.
  - simpl. apply Forall_app. split; [done|]. repeat constructor.
  - simpl. intros id h [[<- <-]|[_ ?]]%lookup_insert_Some; auto.
  - simpl. intros id h [[<- <-]|[_ ?]]%lookup_insert_Some; auto.
Qed.

Lemma elem_of_mjoin {A} (l : list (option A)) i x : mjoin (l !! i) = Some x -> Some x ∈ l.
Proof. intros H%mjoin_Some. by eapply list_elem_of_lookup_2. Qed.

Ltac era_next Hw :=
  lazymatch goal with
  | |- era_wf (mkWorld ?m' _ ?ts ?rs ?ks ?n) =>
      apply (era_wf_next _ m' ts rs ks n Hw); simpl
  end.

(** Tasks: one of them moves on, the others stay. *)
Lemma task_insert w i t' m' t :
  task_wf m' (now_era w) t' -> t ∈ <[i := t']> (tasks w) -> t ∈ tasks w \/ task_wf m' (now_era w) t.
Proof. intros Ht' [?| ->]%elem_of_insert_list; auto. Qed.

Lemma read_insert w i m' id h :
  Some (id, h) ∈ <[i := None]> (reads w) -> Some (id, h) ∈ reads w \/ belongs m' (now_era w) id h.
Proof. intros [?| ?]%elem_of_insert_list; [by left|done]. Qed.

Lemma task_at w i t : era_wf w -> tasks w !! i = Some t -> task_wf (mgr w) (now_era w) t.
Proof. intros Hw Hi. pose proof (era_tasks _ Hw) as Ht. rewrite Forall_lookup in Ht. eauto. Qed.

Lemma deliver_wf m e t :
  t_era t = e -> (forall id h, senders m !! id = Some h -> belongs m e id h) -> task_wf m e (deliver m t).
Proof.
  intros <- Hs. unfold deliver. destruct (t_body t) as [|[b|msg] rest];
    [by apply launch_done_wf; auto|by apply launch_wf; auto..].
Qed.

Lemma exec_era w l w' : era_wf w -> exec w l = Some w' -> (l = LClear -> quiet w = true) -> era_wf w'.
Proof.
  intros Hw H Hq. pose proof (era_sent _ Hw) as Hsent. pose proof (era_senders _ Hw) as Hsend.
  destruct l; simpl in H; step_cases H.
  - destruct (create_era (mgr w) (now_era w) url Hsent) as (? & ? & ?). unfold set_mgr.
    era_next Hw; auto. apply (extends_create (mgr w) (now_era w) url).
  - destruct (create_era (mgr w) (now_era w) url Hsent) as (? & ? & ?).
    era_next Hw; auto; [apply (extends_create (mgr w) (now_era w) url)|].
    intros t [?| ->%list_elem_of_singleton]%elem_of_app; [by left|by right].
  - pose proof (task_at w t t0 Hw Heqo) as Ht. unfold task_wf in Ht. rewrite Heqa in Ht.
    unfold set_task. era_next Hw; auto using extends_refl.
    intros t'. by apply task_insert, deliver_wf.
  - pose proof (task_at w t t0 Hw Heqo) as Ht. unfold task_wf in Ht. rewrite Heqa in Ht.
    unfold set_task. era_next Hw; auto using extends_refl.
    intros t'. apply task_insert. unfold cancelled. rewrite Ht. apply launch_done_wf; auto.
  - pose proof (task_at w t t0 Hw Heqo) as Ht. unfold task_wf in Ht. rewrite Heqa in Ht.
    destruct Ht as [Hera Hb].
    destruct (poll_write_era _ _ _ _ _ _ _ _ _ Heqp Hsent Hb Hera) as (He & Hs' & Hsub).
    destruct (poll_write_keeps _ _ _ _ _ _ _ _ Heqp) as [Hr _].
    unfold set_task. simpl. era_next Hw; auto; [by rewrite Hr; auto|].
    intros t'. apply task_insert. rewrite Hera. apply after_wf. auto.
  - destruct (try_write_era (rx_alive w) (mgr w) (now_era w) id c Hsent) as (He & Hs' & Hr & Hsub);
      [auto|]. unfold set_mgr. era_next Hw; auto. rewrite Hr. auto.
  - era_next Hw; auto using extends_refl.
    + intros id' h'. rewrite lookup_delete_Some. tauto.
    + intros id' h' [?|E%list_elem_of_singleton]%elem_of_app; [by left|]. injection E as -> ->. right.
      by apply (era_receivers _ Hw).
  - apply elem_of_mjoin in Heqo.
    assert (belongs (mgr w) (now_era w) s n) as Hb.
    { pose proof (proj1 (Forall_forall _ _) (era_reads _ Hw)) as Hr. by apply (Hr _ Heqo). }
    destruct (poll_read_era _ _ _ _ _ _ _ Heqp1 Hsent Hb) as (He & Hs' & Hsn & Hr).
    unfold set_read. simpl. era_next Hw; auto; [rewrite Hsn; auto|]. intros id h. by apply read_insert.
  - unfold set_read. era_next Hw; auto using extends_refl. intros id h. by apply read_insert.
  - era_next Hw; auto using extends_refl. intros id' h'. rewrite lookup_delete_Some. tauto.
  - destruct (pop_keeps _ _ _ _ Heqo0) as (Hsn & Hr & _). unfold set_mgr.
    era_next Hw; auto; [by eapply extends_pop|rewrite Hsn; auto|rewrite Hr; auto|by eapply sent_pop].
  - unfold set_taken. era_next Hw; auto using extends_refl.
  - era_next Hw; auto using extends_refl; intros id' h'; rewrite lookup_delete_Some; tauto.
  - specialize (Hq eq_refl). apply andb_true_iff in Hq as [Hq1 Hq2].
    rewrite forallb_forall in Hq1, Hq2. split; simpl; try done.
    + apply Forall_forall. intros t Ht. apply list_elem_of_In, Hq1 in Ht. unfold task_over in Ht.
      unfold task_wf. by destruct (t_at t).
    + apply Forall_forall. intros r Hr id h ->. by apply list_elem_of_In, Hq2 in Hr.
Qed.

Definition quiet_reach (hwm : nat) : World -> Prop := reachable (eq (initial hwm)) quiet_step.

Lemma quiet_reach_wf hwm w : quiet_reach hwm w -> era_wf w.
Proof.
  apply reachable_invariant.
  - intros ? <-. split; simpl; try done; constructor.
  - intros w1 w2 Hw (l & Hl & Hq). by eapply exec_era.
Qed.

(** As long as the table is cleared only once the tasks of a request are
    over, requests stay apart: every chunk in a channel was sent by the request
    the channel was made for, and the streams in the table are those of the
    current request, under their own id. *)
Theorem quiet_requests_stay_apart hwm w :
  quiet_reach hwm w ->
  Forall (fun ch => Forall (fun gc => fst gc = era ch) (sent ch)) (chans (mgr w)) /\
  forall id h, senders (mgr w) !! id = Some h \/ receivers (mgr w) !! id = Some h ->
    exists ch, chans (mgr w) !! h = Some ch /\ made_for ch = id /\ era ch = now_era w.
Proof.
  intros Hw. pose proof (quiet_reach_wf hwm w Hw) as Hwf. split; [apply (era_sent _ Hwf)|].
  intros id h [H|H]; [by apply (era_senders _ Hwf)|by apply (era_receivers _ Hwf)].
Qed.

(** ** Concrete executions *)

(** A run without [clear] is quiet. *)
Lemma run_quiet ls : forall w w',
  forallb (fun l => match l with LClear => false | _ => true end) ls = true ->
  run w ls = Some w' -> rtc quiet_step w w'.
Proof.
  induction ls as [|l ls IH]; simpl; intros w w'.
  - intros _ [= ->]. apply rtc_refl.
  - intros [Hl Hls]%andb_true_iff H. destruct (exec w l) as [w1|] eqn:E; [|done].
    eapply rtc_l; [|by apply IH]. exists l. split; [done|]. by intros ->.
Qed.

Lemma streams_run_reach hwm ls w : run (initial hwm) ls = Some w -> reach hwm w.
Proof. by apply (run_steps_reachable exec). Qed.

(** The body of a request is pumped while the guest reads it. *)
Definition demo_trace : list label :=
  [LSpawn Pump "request_body" [Ok [1%Z]; Ok [2%Z]]; LDeliver 0; LWritePoll 0; LRead 1%Z; LReadPoll 0;
   LDeliver 0; LWritePoll 0; LRead 1%Z].

Definition demo : World := default (initial 16) (run (initial 16) demo_trace).

Lemma demo_reach : reach 16 demo.
Proof. apply (streams_run_reach 16 demo_trace). vm_compute. reflexivity. Qed.

Definition demo_channel : Channel :=
  mkChannel 1%Z 0 [Data [2%Z]] [(0, Data [1%Z]); (0, Data [2%Z])] [Data [1%Z]].

Lemma channels_fifo_and_bounded_witness :
  (sent demo_channel).*2 = received demo_channel ++ buffer demo_channel /\
  length (buffer demo_channel) <= 16 + 1.
Proof.
  refine (channels_fifo_and_bounded 16 demo demo_channel demo_reach _). vm_compute. constructor.
Defined.

Lemma one_consumer_per_channel_witness : all_receivers demo = [0] /\ NoDup (all_receivers demo).
Proof.
  split; [vm_compute; reflexivity|]. exact (one_consumer_per_channel 16 demo demo_reach).
Defined.

Lemma quiet_requests_stay_apart_witness :
  Forall (fun ch => Forall (fun gc => fst gc = era ch) (sent ch)) (chans (mgr demo)) /\
  forall id h, senders (mgr demo) !! id = Some h \/ receivers (mgr demo) !! id = Some h ->
    exists ch, chans (mgr demo) !! h = Some ch /\ made_for ch = id /\ era ch = now_era demo.
Proof.
  refine (quiet_requests_stay_apart 16 demo _).
  exists (initial 16). split; [reflexivity|].
  apply (run_quiet demo_trace); vm_compute; reflexivity.
Defined.

(** C12: [clear] starts the ids over while the pump of a request body has no
    cancellation: if the client is still uploading when the context is reset,
    the pump finds the stream of the next request under its id, and the next
    request reads the body of the previous one. *)
Theorem stale_pump_writes_into_next_request :
  exists w ch, reach DEFAULT_HIGH_WATER_MARK w /\ chans (mgr w) !! 1 = Some ch /\
    era ch = 1 /\ (0, Data [104%Z; 105%Z]) ∈ sent ch /\ received ch = [Data [104%Z; 105%Z]].
Proof.
  pose (ls := [LSpawn Pump "request_body" [Ok [104%Z; 105%Z]]; LClear;
               LSpawn Pump "request_body" [Ok [120%Z]]; LDeliver 0; LWritePoll 0;
               LRead 1%Z; LReadPoll 0]).
  destruct (run (initial DEFAULT_HIGH_WATER_MARK) ls) as [w|] eqn:E; [|by vm_compute in E].
  exists w. pose proof (streams_run_reach _ _ _ E) as Hw. vm_compute in E. injection E as <-.
  eexists. split_and!; [exact Hw|reflexivity|reflexivity|constructor|reflexivity].
Qed.

End StreamsCorrect.
