(* ===== verification/StreamSpec.v ===== *)
(** * What a table of streams promises

    To the code that writes and reads streams by their ids, a [StreamManager]
    (src/src/runtime/stream_manager.rs) is a number of streams that know nothing of each
    other, each a queue with a reserved slot, a writer that may be told to stop, and a
    reader that is at home, away with a read, or gone. The three tables, the channels and
    the receivers that move between them answer every sequence of calls as these do. *)

From stdpp Require Import base list gmap strings.
From Stdlib Require Import ZArith Lia.
From S2P Require Import Prelude Streams StreamsCorrect.

Module StreamSpec.
Import Streams.

(** ** Calls *)

(** The calls by id. A read is begun, then polled until it answers, or dropped. *)
Inductive call :=
| Create (url : string)
| TryWrite (id : StreamId) (c : StreamChunk)
| Read (id : StreamId)
| PollRead (id : StreamId)
| DropRead (id : StreamId)
| Close (id : StreamId)
| HasSender (id : StreamId).

Inductive answer :=
| Created (id : StreamId)
| Written (r : result unit WriteError)
| Reading (started : bool)
| NoRead
| Waits
| Got (c : option StreamChunk)
| Nothing
| Has (b : bool).

(** The table, and the receivers that reads in flight hold. *)
Record Desk := mkDesk { table : StreamManager; away : gmap StreamId nat }.

Definition handles (m : gmap StreamId nat) : list nat := (map_to_list m).*2.

Definition has_rx (d : Desk) (h : nat) : bool := bool_decide (h ∈ handles (receivers (table d)) ++ handles (away d)).
Definition has_tx (d : Desk) (h : nat) : bool := bool_decide (h ∈ handles (senders (table d))).

Definition serve (d : Desk) (c : call) : answer * Desk :=
  match c with
  | Create url => let '(id, m) := create_stream (table d) 0 url in (Created id, mkDesk m (away d))
  | TryWrite id c =>
      let '(r, m) := try_write_chunk (has_rx d) (table d) 0 id c in (Written r, mkDesk m (away d))
  | Read id =>
      match take_receiver (table d) id with
      | (Some h, m) => (Reading true, mkDesk m (<[id := h]> (away d)))
      | (None, m) => (Reading false, mkDesk m (away d))
      end
  | PollRead id =>
      match away d !! id with
      | None => (NoRead, d)
      | Some h =>
          match poll_read (has_tx d) (table d) id h with
          | (None, m) => (Waits, mkDesk m (away d))
          | (Some c, m) => (Got c, mkDesk m (delete id (away d)))
          end
      end
  | DropRead id => (Nothing, mkDesk (table d) (delete id (away d)))
  | Close id => (Nothing, mkDesk (close_stream (table d) id) (away d))
  | HasSender id => (Has (has_sender (table d) id), d)
  end.

(** ** The streams on their own *)

Inductive reader := Home | Away | Gone.
#[export] Instance reader_eq : EqDecision reader.
Proof. solve_decision. Defined.

Record Stream := mkStream { waiting : list StreamChunk; writable : bool; reads : reader }.

(** A write finds no sender, no reader, no room, or goes through: data up to the high water
    mark [n], the terminal marker one beyond. *)
Definition stream_write (n : nat) (s : Stream) (c : StreamChunk) : result unit WriteError * Stream :=
  if negb (writable s) then (Err NotFound, s)
  else if decide (reads s = Gone) then (Err ChannelClosed, mkStream (waiting s) false (reads s))
  else if length (waiting s) <? (if terminal c then n + 1 else n)
  then (Ok tt, mkStream (waiting s ++ [c]) (writable s) (reads s))
  else (Err BufferFull, s).

Definition stream_read (s : Stream) : answer * Stream :=
  if decide (reads s = Home) then (Reading true, mkStream (waiting s) (writable s) Away) else (Reading false, s).

(** The reader comes home with data, and is gone after the end. *)
Definition stream_poll (s : Stream) : answer * Stream :=
  if decide (reads s = Away) then
    match waiting s with
    | c :: rest => (Got (Some c), mkStream rest (writable s) (if terminal c then Gone else Home))
    | [] => if writable s then (Waits, s) else (Got None, mkStream [] (writable s) Gone)
    end
  else (NoRead, s).

Definition stream_drop (s : Stream) : Stream :=
  if decide (reads s = Away) then mkStream (waiting s) (writable s) Gone else s.

(** A read in flight goes on. *)
Definition stream_close (s : Stream) : Stream :=
  mkStream (waiting s) false (if decide (reads s = Away) then Away else Gone).

(** Streams by id; ids count up. *)
Record Streams := mkStreams { stream_of : gmap StreamId Stream; next : StreamId }.

Definition on (ss : Streams) (id : StreamId) (none : answer) (f : Stream -> answer * Stream) : answer * Streams :=
  match stream_of ss !! id with
  | None => (none, ss)
  | Some s => let '(a, s') := f s in (a, mkStreams (<[id := s']> (stream_of ss)) (next ss))
  end.

Definition expect (n : nat) (ss : Streams) (c : call) : answer * Streams :=
  match c with
  | Create _ => (Created (next ss), mkStreams (<[next ss := mkStream [] true Home]> (stream_of ss)) (next ss + 1)%Z)
  | TryWrite id c => on ss id (Written (Err NotFound)) (fun s => let '(r, s') := stream_write n s c in (Written r, s'))
  | Read id => on ss id (Reading false) stream_read
  | PollRead id => on ss id NoRead stream_poll
  | DropRead id => on ss id Nothing (fun s => (Nothing, stream_drop s))
  | Close id => on ss id Nothing (fun s => (Nothing, stream_close s))
  | HasSender id => on ss id (Has false) (fun s => (Has (writable s), s))
  end.

(** The answers to a list of calls. *)
Fixpoint answers {A} (f : A -> call -> answer * A) (a : A) (l : list call) : list answer :=
  match l with [] => [] | c :: l => let '(r, a) := f a c in r :: answers f a l end.

(** ** The table answers like the streams *)

(** The channel of a stream: ids and channels count together. *)
Definition place (id : StreamId) : nat := Z.to_nat (id - 1).

Definition holds (b : bool) (h : nat) : option nat := if b then Some h else None.

Record shows (n : nat) (d : Desk) (ss : Streams) : Prop := {
  sh_next : next_id (table d) = next ss;
  sh_first : (1 <= next ss)%Z;
  sh_count : length (chans (table d)) = place (next ss);
  sh_mark : high_water_mark (table d) = n;
  sh_known : forall id : StreamId, is_Some (stream_of ss !! id) <-> (1 <= id < next ss)%Z;
  sh_waiting : forall (id : StreamId) s, stream_of ss !! id = Some s -> buffer_of (table d) (place id) = waiting s;
  sh_senders : forall id : StreamId, senders (table d) !! id =
    stream_of ss !! id ≫= fun s => holds (writable s) (place id);
  sh_receivers : forall id : StreamId, receivers (table d) !! id =
    stream_of ss !! id ≫= fun s => holds (bool_decide (reads s = Home)) (place id);
  sh_away : forall id : StreamId, away d !! id =
    stream_of ss !! id ≫= fun s => holds (bool_decide (reads s = Away)) (place id)
}.

Lemma in_handles (m : gmap StreamId nat) h : h ∈ handles m <-> exists id, m !! id = Some h.
Proof.
  unfold handles. rewrite list_elem_of_fmap. split.
  - intros ([id h'] & -> & H%elem_of_map_to_list). by exists id.
  - intros [id H]. exists (id, h). split; [done|]. by apply elem_of_map_to_list.
Qed.

Section Shows.

Context (n : nat) (d : Desk) (ss : Streams) (Hs : shows n d ss).

Lemma place_inj (id id' : StreamId) : is_Some (stream_of ss !! id) -> is_Some (stream_of ss !! id') -> place id = place id' -> id = id'.
Proof. intros H1%(sh_known _ _ _ Hs) H2%(sh_known _ _ _ Hs). unfold place. lia. Qed.

(** The handles of a table are those of the streams that have one there. *)
Lemma handle_of (m : gmap StreamId nat) (p : Stream -> bool) (id : StreamId) s :
  (forall id : StreamId, m !! id = stream_of ss !! id ≫= fun s => holds (p s) (place id)) ->
  stream_of ss !! id = Some s -> (place id ∈ handles m <-> p s = true).
Proof.
  intros Hm Hid. rewrite in_handles. split.
  - intros [id' H]. rewrite Hm in H. destruct (stream_of ss !! id') as [s'|] eqn:E; [|done].
    simpl in H. unfold holds in H. destruct (p s') eqn:Ep; [|done]. injection H as H.
    apply place_inj in H; [|by eexists..]. congruence.
  - intros Hp. exists id. rewrite Hm, Hid. simpl. by rewrite Hp.
Qed.

Lemma has_tx_of (id : StreamId) s : stream_of ss !! id = Some s -> has_tx d (place id) = writable s.
Proof.
  intros H. apply eq_bool_prop_intro. unfold has_tx. rewrite bool_decide_spec.
  rewrite (handle_of _ writable id s (sh_senders _ _ _ Hs) H). by destruct (writable s).
Qed.

Lemma has_rx_of (id : StreamId) s : stream_of ss !! id = Some s -> has_rx d (place id) = negb (bool_decide (reads s = Gone)).
Proof.
  intros H. apply eq_bool_prop_intro. unfold has_rx. rewrite bool_decide_spec, elem_of_app.
  rewrite (handle_of _ (fun s => bool_decide (reads s = Home)) id s (sh_receivers _ _ _ Hs) H).
  rewrite (handle_of _ (fun s => bool_decide (reads s = Away)) id s (sh_away _ _ _ Hs) H).
  destruct (reads s); simpl; naive_solver.
Qed.

(** One stream moves on. *)
Lemma shows_update d' (id : StreamId) s s' :
  stream_of ss !! id = Some s ->
  next_id (table d') = next_id (table d) -> length (chans (table d')) = length (chans (table d)) ->
  high_water_mark (table d') = high_water_mark (table d) ->
  (forall h, h <> place id -> buffer_of (table d') h = buffer_of (table d) h) ->
  buffer_of (table d') (place id) = waiting s' ->
  (forall i : StreamId, i <> id -> senders (table d') !! i = senders (table d) !! i) ->
  senders (table d') !! id = holds (writable s') (place id) ->
  (forall i : StreamId, i <> id -> receivers (table d') !! i = receivers (table d) !! i) ->
  receivers (table d') !! id = holds (bool_decide (reads s' = Home)) (place id) ->
  (forall i : StreamId, i <> id -> away d' !! i = away d !! i) ->
  away d' !! id = holds (bool_decide (reads s' = Away)) (place id) ->
  shows n d' (mkStreams (<[id := s']> (stream_of ss)) (next ss)).
Proof.
  intros Hid E1 E2 E3 E4 E5 E6 E7 E8 E9 E10 E11. pose proof Hs as [S1 S2 S3 S4 S5 S6 S7 S8 S9].
  split; simpl; try congruence.
  - intros i. rewrite <-S5. destruct (decide (i = id)) as [->|Hne]; [rewrite lookup_insert_eq, Hid; by split; eexists|].
    by rewrite lookup_insert_ne.
  - intros i t. destruct (decide (i = id)) as [->|Hne]; [by rewrite lookup_insert_eq; intros [= <-]|].
    rewrite lookup_insert_ne by done. intros Hi. rewrite E4; [by apply S6|].
    intros Hp. apply Hne. apply place_inj; [by eexists..|done].
  - intros i. destruct (decide (i = id)) as [->|Hne]; [by rewrite lookup_insert_eq, E7|].
    rewrite lookup_insert_ne, E6 by done. apply S7.
  - intros i. destruct (decide (i = id)) as [->|Hne]; [by rewrite lookup_insert_eq, E9|].
    rewrite lookup_insert_ne, E8 by done. apply S8.
  - intros i. destruct (decide (i = id)) as [->|Hne]; [by rewrite lookup_insert_eq, E11|].
    rewrite lookup_insert_ne, E10 by done. apply S9.
Qed.

(** The places of a stream that is there. *)
Lemma stream_places (id : StreamId) s :
  stream_of ss !! id = Some s ->
  senders (table d) !! id = holds (writable s) (place id) /\
  receivers (table d) !! id = holds (bool_decide (reads s = Home)) (place id) /\
  away d !! id = holds (bool_decide (reads s = Away)) (place id) /\
  buffer_of (table d) (place id) = waiting s /\ place id < length (chans (table d)).
Proof.
  intros H. pose proof Hs as [S1 S2 S3 S4 S5 S6 S7 S8 S9].
  rewrite (S7 id), (S8 id), (S9 id), H. simpl. split_and!; try done; [by apply S6|].
  rewrite S3. assert (1 <= id < next ss)%Z by (apply S5; by eexists). unfold place. lia.
Qed.

Lemma no_places (id : StreamId) :
  stream_of ss !! id = None ->
  senders (table d) !! id = None /\ receivers (table d) !! id = None /\ away d !! id = None.
Proof.
  intros H. pose proof (sh_senders _ _ _ Hs id) as H1. pose proof (sh_receivers _ _ _ Hs id) as H2.
  pose proof (sh_away _ _ _ Hs id) as H3. rewrite H in H1, H2, H3. done.
Qed.

End Shows.

Lemma buffer_push m h g c h' :
  h < length (chans m) -> buffer_of (push m h g c) h' = if decide (h' = h) then buffer_of m h ++ [c] else buffer_of m h'.
Proof.
  intros Hh. unfold buffer_of, push. simpl. case_decide as E.
  - subst. rewrite list_lookup_alter_eq. by destruct (lookup_lt_is_Some_2 _ _ Hh) as [ch ->].
  - by rewrite list_lookup_alter_ne.
Qed.

Lemma pop_spec m h :
  match buffer_of m h with
  | [] => pop m h = None
  | c :: rest => exists m', pop m h = Some (c, m') /\ senders m' = senders m /\ receivers m' = receivers m /\
      next_id m' = next_id m /\ high_water_mark m' = high_water_mark m /\ length (chans m') = length (chans m) /\
      forall h', buffer_of m' h' = if decide (h' = h) then rest else buffer_of m h'
  end.
Proof.
  unfold pop. destruct (buffer_of m h) as [|c rest] eqn:E; [done|]. eexists. split; [done|].
  split_and!; try done; simpl; [by rewrite length_alter|]. intros h'. unfold buffer_of in *. simpl. case_decide as Eh.
  - subst. rewrite list_lookup_alter_eq. by destruct (chans m !! h).
  - by rewrite list_lookup_alter_ne.
Qed.

(** What the answer is, and that the table shows the streams after it. *)
Definition agrees (n : nat) (r r' : answer) (d : Desk) (ss : Streams) : Prop := r = r' /\ shows n d ss.

Lemma create_agrees n d ss url :
  shows n d ss -> (next ss < 2 ^ 64 - 1)%Z ->
  let '(r, d') := serve d (Create url) in let '(r', ss') := expect n ss (Create url) in agrees n r r' d' ss'.
Proof.
  intros Hs Hn. pose proof Hs as [S1 S2 S3 S4 S5 S6 S7 S8 S9]. simpl. unfold create_stream. simpl.
  assert (stream_of ss !! next ss = None) as Hnew.
  { apply eq_None_not_Some. intros ?%S5. lia. }
  split; [by rewrite S1|]. split; simpl; rewrite ?S1; try done.
  - by rewrite wrap_u64_small by lia.
  - lia.
  - rewrite length_app, S3. unfold place. simpl. lia.
  - intros i. destruct (decide (i = next ss)) as [->|Hne].
    + rewrite lookup_insert_eq. split; [lia|by eexists].
    + rewrite lookup_insert_ne by done. rewrite S5. lia.
  - intros i t. unfold buffer_of. simpl. destruct (decide (i = next ss)) as [->|Hne].
    + rewrite lookup_insert_eq. intros [= <-]. rewrite <-S3, lookup_app_r, Nat.sub_diag by done. done.
    + rewrite lookup_insert_ne by done. intros Hi. destruct (stream_places _ _ _ Hs i t Hi) as (_ & _ & _ & Hb & Hl).
      rewrite lookup_app_l by done. exact Hb.
  - intros i. destruct (decide (i = next ss)) as [->|Hne]; [by rewrite !lookup_insert_eq, S3|].
    rewrite !lookup_insert_ne by done. apply S7.
  - intros i. destruct (decide (i = next ss)) as [->|Hne]; [by rewrite !lookup_insert_eq, S3|].
    rewrite !lookup_insert_ne by done. apply S8.
  - intros i. destruct (decide (i = next ss)) as [->|Hne]; [|rewrite lookup_insert_ne by done; apply S9].
    rewrite lookup_insert_eq, (S9 (next ss)), Hnew. done.
Qed.

Lemma write_agrees n d ss (id : StreamId) c :
  shows n d ss -> 0 < n ->
  let '(r, d') := serve d (TryWrite id c) in let '(r', ss') := expect n ss (TryWrite id c) in agrees n r r' d' ss'.
Proof.
  intros Hs Hn. simpl. unfold on, try_write_chunk. destruct (stream_of ss !! id) as [s|] eqn:Hid.
  2: { destruct (no_places _ _ _ Hs id Hid) as (-> & _ & _). by destruct d. }
  destruct (stream_places _ _ _ Hs id s Hid) as (Es & Er & Ea & Eb & El).
  pose proof (has_rx_of _ _ _ Hs id s Hid) as Hrx. rewrite Es. unfold stream_write, holds.
  assert (forall r, agrees n r r (mkDesk (table d) (away d)) (mkStreams (<[id:=s]> (stream_of ss)) (next ss))) as Hsame.
  { intros r. split; [done|]. rewrite insert_id by done. by destruct d, ss. }
  destruct (writable s) eqn:Ew; simpl; [|apply Hsame].
  unfold capacity, slots. rewrite Hrx, Eb, (sh_mark _ _ _ Hs).
  destruct (decide (reads s = Gone)) as [Hg|Hg].
  - rewrite bool_decide_true by done. cbn [negb]. destruct (Nat.leb_spec (n + 1) 1); [lia|]. rewrite andb_false_r.
    split; [done|]. eapply (shows_update _ _ _ Hs); simpl; try done.
    + intros i Hi. by rewrite lookup_delete_ne.
    + apply lookup_delete_eq.
  - rewrite bool_decide_false by done. cbn [negb].
    assert (forall m, m = push (table d) (place id) 0 c ->
      agrees n (Written (Ok tt)) (Written (Ok tt)) (mkDesk m (away d))
        (mkStreams (<[id:=mkStream (waiting s ++ [c]) (writable s) (reads s)]> (stream_of ss)) (next ss))) as Hpush.
    { intros m ->. split; [done|].
      eapply (shows_update _ _ _ Hs); cbn [table away waiting writable reads]; try done.
      - by rewrite StreamsCorrect.length_push.
      - intros h Hh. rewrite buffer_push by done. by rewrite decide_False.
      - rewrite buffer_push by done. by rewrite decide_True, Eb.
      - by rewrite Ew. }
    rewrite Ew in Hpush. destruct (terminal c); cbn [negb andb].
    + destruct (Nat.eqb_spec (n + 1 - length (waiting s)) 0), (Nat.ltb_spec (length (waiting s)) (n + 1));
        try lia; [apply Hsame|by apply Hpush].
    + destruct (Nat.leb_spec (n + 1 - length (waiting s)) 1), (Nat.ltb_spec (length (waiting s)) n);
        try lia; [apply Hsame|]. destruct (Nat.eqb_spec (n + 1 - length (waiting s)) 0); [lia|]. by apply Hpush.
Qed.

Lemma read_agrees n d ss (id : StreamId) :
  shows n d ss ->
  let '(r, d') := serve d (Read id) in let '(r', ss') := expect n ss (Read id) in agrees n r r' d' ss'.
Proof.
  intros Hs. simpl. unfold on. destruct (stream_of ss !! id) as [s|] eqn:Hid.
  2: { destruct (no_places _ _ _ Hs id Hid) as (_ & E & _). rewrite E. split; [done|].
       destruct Hs as [S1 S2 S3 S4 S5 S6 S7 S8 S9]. split; simpl; try done. intros i. destruct (decide (i = id)) as [->|Hne].
       - by rewrite lookup_delete_eq, Hid.
       - by rewrite lookup_delete_ne. }
  destruct (stream_places _ _ _ Hs id s Hid) as (Es & Er & Ea & Eb & El). unfold stream_read. rewrite Er. unfold holds.
  destruct (decide (reads s = Home)) as [Hr|Hr].
  - rewrite bool_decide_true by done. simpl. split; [done|]. eapply (shows_update _ _ _ Hs); simpl; try done.
    + intros i Hi. by rewrite lookup_delete_ne.
    + apply lookup_delete_eq.
    + intros i Hi. by rewrite lookup_insert_ne.
    + apply lookup_insert_eq.
  - rewrite bool_decide_false by done. split; [done|]. eapply (shows_update _ _ _ Hs); simpl; try done.
    + intros i Hi. by rewrite lookup_delete_ne.
    + rewrite lookup_delete_eq. by rewrite bool_decide_false.
Qed.

Lemma poll_agrees n d ss (id : StreamId) :
  shows n d ss ->
  let '(r, d') := serve d (PollRead id) in let '(r', ss') := expect n ss (PollRead id) in agrees n r r' d' ss'.
Proof.
  intros Hs. cbn [serve expect]. unfold on. destruct (stream_of ss !! id) as [s|] eqn:Hid.
  2: { destruct (no_places _ _ _ Hs id Hid) as (_ & _ & ->). by split. }
  destruct (stream_places _ _ _ Hs id s Hid) as (Es & Er & Ea & Eb & El). unfold stream_poll. rewrite Ea. unfold holds.
  assert (forall r, agrees n r r d (mkStreams (<[id:=s]> (stream_of ss)) (next ss))) as Hsame.
  { intros r. split; [done|]. rewrite insert_id by done. by destruct ss. }
  destruct (decide (reads s = Away)) as [Hr|Hr].
  2: { rewrite bool_decide_false by done. apply Hsame. }
  rewrite bool_decide_true by done. unfold poll_read. pose proof (pop_spec (table d) (place id)) as Hp. rewrite Eb in Hp.
  destruct (waiting s) as [|c rest] eqn:Ewait.
  - rewrite Hp, (has_tx_of _ _ _ Hs id s Hid). destruct (writable s) eqn:Ew; [by destruct d|].
    split; [done|]. eapply (shows_update _ _ _ Hs); simpl; try done.
    + rewrite Er. by rewrite bool_decide_false by by rewrite Hr.
    + intros i Hi. by rewrite lookup_delete_ne.
    + apply lookup_delete_eq.
  - destruct Hp as (m' & -> & P1 & P2 & P3 & P4 & P5 & P6). split; [done|].
    assert (forall m, chans m = chans m' -> forall h, buffer_of m h = buffer_of m' h) as Hch by (intros m Hm h; unfold buffer_of; by rewrite Hm).
    destruct (terminal c).
    + eapply (shows_update _ _ _ Hs); simpl; rewrite ?P1, ?P2; try done.
      * intros h Hh. rewrite P6. by rewrite decide_False.
      * rewrite P6. by rewrite decide_True.
      * rewrite Er. by rewrite bool_decide_false by by rewrite Hr.
      * intros i Hi. by rewrite lookup_delete_ne.
      * apply lookup_delete_eq.
    + eapply (shows_update _ _ _ Hs); simpl; rewrite ?P1, ?P2; try done.
      * intros h Hh. rewrite (Hch (set_receivers m' _)) by done. rewrite P6. by rewrite decide_False.
      * rewrite (Hch (set_receivers m' _)) by done. rewrite P6. by rewrite decide_True.
      * intros i Hi. by rewrite lookup_insert_ne.
      * apply lookup_insert_eq.
      * intros i Hi. by rewrite lookup_delete_ne.
      * apply lookup_delete_eq.
Qed.

Lemma drop_agrees n d ss (id : StreamId) :
  shows n d ss ->
  let '(r, d') := serve d (DropRead id) in let '(r', ss') := expect n ss (DropRead id) in agrees n r r' d' ss'.
Proof.
  intros Hs. simpl. unfold on. destruct (stream_of ss !! id) as [s|] eqn:Hid.
  2: { destruct (no_places _ _ _ Hs id Hid) as (_ & _ & E). split; [done|]. rewrite delete_id by done. by destruct d. }
  destruct (stream_places _ _ _ Hs id s Hid) as (Es & Er & Ea & Eb & El). split; [done|]. unfold stream_drop.
  eapply (shows_update _ _ _ Hs); simpl; try done; try (case_decide; simpl; done).
  - rewrite Er. destruct (decide (reads s = Away)) as [E|E]; simpl; [by rewrite E|done].
  - intros i Hi. by rewrite lookup_delete_ne.
  - rewrite lookup_delete_eq. destruct (decide (reads s = Away)) as [E|E]; simpl; [done|]. by rewrite bool_decide_false.
Qed.

Lemma close_agrees n d ss (id : StreamId) :
  shows n d ss ->
  let '(r, d') := serve d (Close id) in let '(r', ss') := expect n ss (Close id) in agrees n r r' d' ss'.
Proof.
  intros Hs. simpl. unfold on. destruct (stream_of ss !! id) as [s|] eqn:Hid.
  2: { destruct (no_places _ _ _ Hs id Hid) as (E1 & E2 & _). split; [done|]. unfold close_stream.
       destruct Hs as [S1 S2 S3 S4 S5 S6 S7 S8 S9].
       split; simpl; rewrite ?(delete_id _ _ E1), ?(delete_id _ _ E2); try done. }
  destruct (stream_places _ _ _ Hs id s Hid) as (Es & Er & Ea & Eb & El). split; [done|]. unfold close_stream, stream_close.
  eapply (shows_update _ _ _ Hs); simpl; try done.
  - intros i Hi. by rewrite lookup_delete_ne.
  - apply lookup_delete_eq.
  - intros i Hi. by rewrite lookup_delete_ne.
  - rewrite lookup_delete_eq. by destruct (reads s).
  - rewrite Ea. by destruct (reads s).
Qed.

Lemma has_agrees n d ss (id : StreamId) :
  shows n d ss ->
  let '(r, d') := serve d (HasSender id) in let '(r', ss') := expect n ss (HasSender id) in agrees n r r' d' ss'.
Proof.
  intros Hs. simpl. unfold on, has_sender. rewrite (sh_senders _ _ _ Hs id). destruct (stream_of ss !! id) as [s|] eqn:Hid; [|by split].
  simpl. split; [by destruct (writable s)|]. rewrite insert_id by done. by destruct ss.
Qed.

Definition creates (c : call) : nat := match c with Create _ => 1 | _ => 0 end.

Lemma call_agrees n d ss c :
  shows n d ss -> 0 < n -> (next ss + Z.of_nat (creates c) < 2 ^ 64)%Z ->
  let '(r, d') := serve d c in let '(r', ss') := expect n ss c in agrees n r r' d' ss'.
Proof.
  intros Hs Hn Hb. destruct c as [url|id c|id|id|id|id|id].
  - apply create_agrees; [done|]. simpl in Hb. lia.
  - by apply write_agrees.
  - by apply read_agrees.
  - by apply poll_agrees.
  - by apply drop_agrees.
  - by apply close_agrees.
  - by apply has_agrees.
Qed.

Lemma on_next ss id none f : next (snd (on ss id none f)) = next ss.
Proof. unfold on. destruct (stream_of ss !! id) as [s|]; [|done]. by destruct (f s). Qed.

Lemma expect_next n ss c : next (snd (expect n ss c)) = (next ss + Z.of_nat (creates c))%Z.
Proof. destruct c; simpl; [done|..]; rewrite on_next; lia. Qed.

(** How many streams a list of calls makes. *)
Definition created (l : list call) : nat := sum_list_with creates l.

Lemma calls_agree n l : forall d ss,
  shows n d ss -> 0 < n -> (next ss + Z.of_nat (created l) < 2 ^ 64)%Z ->
  answers serve d l = answers (expect n) ss l.
Proof.
  induction l as [|c l IH]; intros d ss Hs Hn Hb; [done|]. simpl in *. unfold created in *. simpl in Hb.
  pose proof (call_agrees n d ss c Hs Hn) as Hc. pose proof (expect_next n ss c) as Hnext.
  destruct (serve d c) as [r d'], (expect n ss c) as [r' ss']. simpl in Hnext.
  destruct Hc as [-> Hs']; [lia|]. f_equal. apply IH; [done|done|lia].
Qed.

Definition empty_desk (n : nat) : Desk := mkDesk (with_high_water_mark n) ∅.
Definition no_streams : Streams := mkStreams ∅ 1%Z.


(** ** A run *)

(** Two streams over a mark of one; the first is ended on a full buffer and read to its
    end, the second is closed under a read. *)
Definition demo_calls : list call :=
  [Create "a"; Create "b"; TryWrite 1%Z (Data [1%Z]); TryWrite 1%Z (Data [2%Z]); TryWrite 1%Z Done; Read 1%Z; Read 1%Z;
   PollRead 1%Z; Read 1%Z; PollRead 1%Z; Read 1%Z; TryWrite 1%Z (Data [3%Z]); TryWrite 1%Z Done;
   TryWrite 2%Z (Data [4%Z]); Read 2%Z; Close 2%Z; PollRead 2%Z; Read 2%Z; PollRead 2%Z; HasSender 2%Z].


End StreamSpec.
