(* ===== verification/Memory.v ===== *)
(** * Memory limits (src/src/security/array_buffer_allocator.rs, heap_limit.rs)

    The counter of ArrayBuffer bytes as the threads of V8 use it, one atomic
    operation at a time, and the callback V8 calls near the heap limit. *)

From stdpp Require Import base list relations.
From Stdlib Require Import ZArith Lia.
From S2P Require Import Prelude.

Local Open Scope Z_scope.

Module Allocator.

(** [CustomAllocator] *)
Record CustomAllocator := mkAllocator {
  max : Z;
  count : Z;
  memory_limit_hit : bool
}.

Definition new (max_bytes : Z) : CustomAllocator := mkAllocator max_bytes 0 false.

Definition current_usage (a : CustomAllocator) : Z := count a.

(** The atomic operations on [count], on [usize]. *)
Definition fetch_add (a : CustomAllocator) (n : Z) : CustomAllocator :=
  mkAllocator (max a) (wrap_usize (count a + n)) (memory_limit_hit a).
Definition fetch_sub (a : CustomAllocator) (n : Z) : CustomAllocator :=
  mkAllocator (max a) (wrap_usize (count a - n)) (memory_limit_hit a).
Definition hit (a : CustomAllocator) : CustomAllocator :=
  mkAllocator (max a) (count a) true.

(** Where a thread stands in [allocate] (or [allocate_uninitialized], which
    counts the same way): before the load, at the branch, and before the
    rollback of a denied allocation. *)
Inductive at_ :=
| Idle
| Added (n : Z)
| Loaded (n : Z) (count_loaded : Z)
| Denied (n : Z).

(** The allocator, its threads, and the sizes of the buffers V8 holds. *)
Record State := mkState {
  allocator : CustomAllocator;
  threads : list at_;
  buffers : list Z
}.

Definition initial (max_bytes : Z) (k : nat) : State :=
  mkState (new max_bytes) (replicate k Idle) [].

Inductive label :=
| Allocate (t : nat) (n : Z)
| Step (t : nat)
| Free (b : nat).

Definition exec (s : State) (l : label) : option State :=
  match l with
  | Allocate t n =>
      match threads s !! t with
      | Some Idle =>
          Some (mkState (fetch_add (allocator s) n) (<[t := Added n]> (threads s)) (buffers s))
      | _ => None
      end
  | Step t =>
      match threads s !! t with
      | Some (Added n) =>
          Some (mkState (allocator s) (<[t := Loaded n (count (allocator s))]> (threads s)) (buffers s))
      | Some (Loaded n c) =>
          if max (allocator s) <? c
          then Some (mkState (hit (allocator s)) (<[t := Denied n]> (threads s)) (buffers s))
          else Some (mkState (allocator s) (<[t := Idle]> (threads s)) (buffers s ++ [n]))
      | Some (Denied n) =>
          Some (mkState (fetch_sub (allocator s) n) (<[t := Idle]> (threads s)) (buffers s))
      | _ => None
      end
  | Free b =>
      match buffers s !! b with
      | Some n => Some (mkState (fetch_sub (allocator s) n) (threads s) (delete b (buffers s)))
      | None => None
      end
  end.

(** ** Accounting *)

Definition pending (a : at_) : Z :=
  match a with Idle => 0 | Added n | Loaded n _ | Denied n => n end.

Definition total (f : at_ -> Z) (l : list at_) : Z := sum (f <$> l).

Lemma total_cons f a l : total f (a :: l) = f a + total f l.
Proof. done. Qed.

Lemma total_insert f l i x y :
  l !! i = Some x -> total f (<[i := y]> l) = total f l - f x + f y.
Proof.
  intros H. unfold total. rewrite insert_take_drop by by eapply lookup_lt_Some.
  rewrite <-(take_drop_middle l i x H) at 3. rewrite !fmap_app, !sum_app. simpl. lia.
Qed.

Section Bounds.
Context (max_bytes : Z) (k : nat).

(** The longest ArrayBuffer V8 asks for, and room for every thread to ask for
    one at once on top of the limit. *)
Context (max_byte_length : Z).
Definition room : Prop :=
  0 <= max_bytes /\ 0 <= max_byte_length /\
  max_bytes + Z.of_nat k * max_byte_length < 2 ^ 64.

Definition admissible (l : label) : Prop :=
  match l with Allocate _ n => 0 <= n <= max_byte_length | _ => True end.

Definition step (s s' : State) : Prop := exists l, admissible l /\ exec s l = Some s'.

(** What a thread has been promised: at the branch with a total within the
    limit, its bytes are as good as granted. *)
Definition promised (a : at_) : Z :=
  match a with Loaded n c => if max_bytes <? c then 0 else n | _ => 0 end.

Definition thread_wf (a : at_) : Prop := 0 <= pending a <= max_byte_length.

Record alloc_wf (s : State) : Prop := {
  wf_max : max (allocator s) = max_bytes;
  wf_threads : length (threads s) = k;
  wf_pending : Forall thread_wf (threads s);
  wf_buffers : Forall (fun n => 0 <= n) (buffers s);
  wf_count : count (allocator s) = sum (buffers s) + total pending (threads s);
  wf_limit : sum (buffers s) + total promised (threads s) <= max_bytes
}.

Lemma pending_bound l :
  Forall thread_wf l -> 0 <= total pending l <= Z.of_nat (length l) * max_byte_length.
Proof.
  induction 1 as [|a l Ha Hl IH]; [done|]. unfold thread_wf in Ha.
  rewrite total_cons, length_cons, Nat2Z.inj_succ, Z.mul_succ_l. lia.
Qed.

Lemma promised_bound l : Forall thread_wf l -> 0 <= total promised l <= total pending l.
Proof.
  induction 1 as [|a l Ha Hl IH]; [done|]. unfold thread_wf in Ha. rewrite !total_cons.
  destruct a; simpl in *; try lia. case_match; lia.
Qed.

(** With what is promised within the limit, the counter never wraps. *)
Lemma count_small s :
  room -> 0 <= sum (buffers s) -> Forall thread_wf (threads s) ->
  length (threads s) = k -> sum (buffers s) <= max_bytes ->
  0 <= sum (buffers s) + total pending (threads s) < 2 ^ 64.
Proof.
  intros (H1 & H2 & H3) Hb Ht Hk Hle. pose proof (pending_bound _ Ht). rewrite Hk in *. lia.
Qed.

Lemma alloc_exec_wf s s' : room -> alloc_wf s -> step s s' -> alloc_wf s'.
Proof.
  intros Hroom [Hmax Hk Hp Hb Hc Hl] (l & Hadm & H).
  pose proof (sum_nonneg _ Hb) as Hb0. pose proof (promised_bound _ Hp) as Hpr.
  pose proof (count_small s Hroom Hb0 Hp Hk ltac:(lia)) as Hsmall.
  assert (forall t a a', threads s !! t = Some a -> thread_wf a' ->
    Forall thread_wf (<[t := a']> (threads s))) as Hins by (intros; by apply Forall_insert).
  assert (thread_wf Idle) as Hidle by (unfold thread_wf; simpl; destruct Hroom; lia).
  destruct l as [t n|t|b]; simpl in H.
  - destruct (threads s !! t) as [[]|] eqn:Ht; simplify_eq/=.
    assert (Forall thread_wf (<[t := Added n]> (threads s))) as Hp' by (eapply Hins; eauto).
    pose proof (count_small (mkState (allocator s) (<[t := Added n]> (threads s)) (buffers s))
      Hroom Hb0 Hp' ltac:(simpl; by rewrite length_insert) ltac:(simpl; lia)) as Hs'. simpl in Hs'.
    rewrite (total_insert pending _ _ _ (Added n) Ht) in Hs'. simpl in Hs'.
    split; simpl; try done; rewrite ?length_insert, ?(total_insert _ _ _ _ _ Ht); simpl; try lia.
    autorewrite with machine; lia.
  - destruct (threads s !! t) as [[|n|n c|n]|] eqn:Ht; simplify_eq/=.
    + assert (thread_wf (Added n)) as Hn by (by eapply Forall_lookup_1 in Hp).
      split; simpl; try done; rewrite ?length_insert, ?(total_insert _ _ _ _ _ Ht);
        simpl; eauto; try lia.
      case_match eqn:E; [lia|]. apply Z.ltb_ge in E.
      pose proof (promised_bound (<[t := Idle]> (threads s)) ltac:(eauto)) as Hq.
      rewrite !(total_insert _ _ _ _ _ Ht) in Hq. simpl in Hq. lia.
    + assert (thread_wf (Loaded n c)) as Hn by (by eapply Forall_lookup_1 in Hp).
      destruct (max (allocator s) <? c) eqn:E; simplify_eq/=.
      * split; simpl; try done; rewrite ?length_insert, ?(total_insert _ _ _ _ _ Ht);
          simpl; rewrite <-?Hmax, ?E; eauto; lia.
      * split; simpl; try done; rewrite ?length_insert, ?sum_app, ?(total_insert _ _ _ _ _ Ht);
          simpl; eauto; try lia.
        -- apply Forall_app. split; [done|]. repeat constructor. unfold thread_wf in Hn. simpl in Hn. lia.
        -- rewrite <-Hmax, E. lia.
    + assert (thread_wf (Denied n)) as Hn by (by eapply Forall_lookup_1 in Hp).
      pose proof (promised_bound (<[t := Idle]> (threads s)) ltac:(eauto)) as Hq.
      rewrite !(total_insert _ _ _ _ _ Ht) in Hq. simpl in Hq.
      split; simpl; try done; rewrite ?length_insert, ?(total_insert _ _ _ _ _ Ht); simpl; eauto; try lia.
      rewrite wrap_usize_small; [lia|]. unfold thread_wf in Hn. simpl in Hn. lia.
  - destruct (buffers s !! b) as [n|] eqn:Hn; simplify_eq/=.
    assert (0 <= n) as Hn0 by (by eapply Forall_lookup_1 in Hb).
    assert (Forall (fun n => 0 <= n) (delete b (buffers s))) as Hb'.
    { rewrite delete_take_drop. apply Forall_app. split; [by apply Forall_take|by apply Forall_drop]. }
    pose proof (sum_nonneg _ Hb') as Hb'0. rewrite (sum_delete _ _ _ Hn) in Hb'0.
    split; simpl; try done; rewrite ?(sum_delete _ _ _ Hn); try lia.
    autorewrite with machine; lia.
Qed.

Lemma alloc_reachable_wf s : room -> reachable (eq (initial max_bytes k)) step s -> alloc_wf s.
Proof.
  intros Hroom. apply reachable_invariant; [|eauto using alloc_exec_wf]. intros ? <-.
  assert (forall f, f Idle = 0 -> total f (replicate k Idle) = 0) as Hz.
  { intros f Hf. generalize k. intros j. induction j as [|j IH]; [done|].
    cbn [replicate]. by rewrite total_cons, Hf, IH. }
  split; simpl; try done.
  - apply length_replicate.
  - apply Forall_replicate. split; simpl; destruct Hroom; lia.
  - rewrite Hz; done.
  - rewrite Hz by done. destruct Hroom. lia.
Qed.

End Bounds.

(** The longest ArrayBuffer of a 64-bit V8. *)
Definition max_length : Z := 2 ^ 53 - 1.



(** An allocation no other thread interferes with is granted exactly when
    it fits: three steps later the buffer is there, or the quota is as before
    and the flag is set. *)
Theorem allocate_alone_is_exact s n :
  threads s = [Idle] -> 0 <= n -> 0 <= count (allocator s) ->
  count (allocator s) + n < 2 ^ 64 ->
  exists s1 s2 s3, exec s (Allocate 0 n) = Some s1 /\ exec s1 (Step 0) = Some s2 /\
    exec s2 (Step 0) = Some s3 /\
    if max (allocator s) <? count (allocator s) + n
    then memory_limit_hit (allocator s3) = true /\ buffers s3 = buffers s /\
         exists s4, exec s3 (Step 0) = Some s4 /\
           count (allocator s4) = count (allocator s) /\ threads s4 = [Idle] /\
           buffers s4 = buffers s
    else threads s3 = [Idle] /\ buffers s3 = buffers s ++ [n] /\
         memory_limit_hit (allocator s3) = memory_limit_hit (allocator s) /\
         count (allocator s3) = count (allocator s) + n.
Proof.
  intros Ht Hn Hc Hle. destruct s as [[m c h] ts bs]. simpl in Ht, Hc, Hle |- *. subst ts.
  assert (wrap_usize (c + n) = c + n) as Hw by (apply wrap_usize_small; lia).
  assert (wrap_usize (c + n - n) = c) as Hw' by (rewrite wrap_usize_small; lia).
  exists (mkState (mkAllocator m (c + n) h) [Added n] bs),
         (mkState (mkAllocator m (c + n) h) [Loaded n (c + n)] bs),
         (if m <? c + n then mkState (mkAllocator m (c + n) true) [Denied n] bs
          else mkState (mkAllocator m (c + n) h) [Idle] (bs ++ [n])).
  unfold fetch_add. cbn -[wrap_usize]. rewrite Hw.
  destruct (m <? c + n); cbn -[wrap_usize]; split_and!; try done.
  eexists. unfold fetch_sub. cbn -[wrap_usize]. by rewrite Hw'.
Qed.

Lemma allocate_alone_is_exact_witness :
  exists s1 s2 s3, exec (initial 10 1) (Allocate 0 11) = Some s1 /\ exec s1 (Step 0) = Some s2 /\
    exec s2 (Step 0) = Some s3 /\
    memory_limit_hit (allocator s3) = true /\ buffers s3 = [] /\
    exists s4, exec s3 (Step 0) = Some s4 /\ count (allocator s4) = 0 /\ threads s4 = [Idle] /\
      buffers s4 = [].
Proof.
  refine (allocate_alone_is_exact (initial 10 1) 11 _ _ _ _); vm_compute; congruence.
Defined.

End Allocator.

Module HeapLimit.

Definition TERMINATION_HEADROOM : Z := 2 * 1024 * 1024.

(** [HeapLimitState], and the termination V8 was asked for. *)
Record HeapLimitState := mkHeap {
  memory_limit_hit : bool;
  invocation_count : Z;
  max_heap_bytes : Z;
  terminating : bool
}.

Definition heap_new (max_bytes : Z) : HeapLimitState := mkHeap false 0 max_bytes false.

(** [near_heap_limit_callback]: the new limit and the state after it. *)
Definition near_heap_limit_callback (s : HeapLimitState) (current_heap_limit : Z)
  : Z * HeapLimitState :=
  (wrap_usize (current_heap_limit + TERMINATION_HEADROOM),
   mkHeap true (wrap_u32 (invocation_count s + 1)) (max_heap_bytes s) true).

(** V8 calls back again and again while a collection runs, each time with the
    limit it was given. *)
Fixpoint callbacks (k : nat) (limit : Z) (s : HeapLimitState) : Z * HeapLimitState :=
  match k with
  | O => (limit, s)
  | S k => let (l, s) := callbacks k limit s in near_heap_limit_callback s l
  end.

(** Every callback raises the limit by the headroom, so V8 never sees a
    limit that gives no room, and leaves execution terminating with the memory
    flag set. *)
Theorem heap_callbacks_always_give_room k limit s :
  0 <= limit -> limit + Z.of_nat (S k) * TERMINATION_HEADROOM < 2 ^ 64 ->
  let (before, s1) := callbacks k limit s in
  let (after, s2) := near_heap_limit_callback s1 before in
  after = limit + Z.of_nat (S k) * TERMINATION_HEADROOM /\ before < after /\
  memory_limit_hit s2 = true /\ terminating s2 = true.
Proof.
  intros H0 Hlt.
  assert (forall j, (j <= S k)%nat -> fst (callbacks j limit s) = limit + Z.of_nat j * TERMINATION_HEADROOM)
    as Hval.
  { induction j as [|j IH]; intros Hj; [simpl; lia|]. specialize (IH ltac:(lia)). cbn [callbacks].
    destruct (callbacks j limit s) as [l s'] eqn:E. simpl in IH. unfold near_heap_limit_callback.
    cbn [fst]. unfold TERMINATION_HEADROOM in *. rewrite IH, wrap_usize_small; lia. }
  pose proof (Hval k ltac:(lia)) as Hk. pose proof (Hval (S k) ltac:(lia)) as HS. cbn [callbacks] in HS.
  destruct (callbacks k limit s) as [before s1]. cbn [fst] in Hk.
  destruct (near_heap_limit_callback s1 before) as [after s2] eqn:E. cbn [fst] in HS.
  unfold near_heap_limit_callback in E. injection E as _ <-.
  unfold TERMINATION_HEADROOM in *. split_and!; [done|lia|done|done].
Qed.

Lemma heap_callbacks_always_give_room_witness :
  let (before, s1) := callbacks 2 134217728 (heap_new 134217728) in
  let (after, s2) := near_heap_limit_callback s1 before in
  after = 134217728 + Z.of_nat 3 * TERMINATION_HEADROOM /\ before < after /\
  memory_limit_hit s2 = true /\ terminating s2 = true.
Proof.
  exact (heap_callbacks_always_give_room 2 134217728 (heap_new 134217728) ltac:(lia)
           ltac:(unfold TERMINATION_HEADROOM; lia)).
Defined.

End HeapLimit.
