(* ===== verification/Guards.v ===== *)
(** * Turns and the wall-clock watchdog
    (src/src/security/turn.rs, timeout_guard.rs)

    Which request runs on an isolate, the process-wide map of deadlines and the
    thread that serves it, together with what stops a request: its deadline,
    its CPU limit and the memory limits. *)

From stdpp Require Import base list gmap relations.
From Stdlib Require Import ZArith Lia.
From S2P Require Import Prelude.

Local Open Scope Z_scope.

Module Turn.

(** [Turn]; [terminating] is the request for termination V8 has pending. *)
Record Turn := mkTurn {
  holder : option Z;
  memory_limit_hit : bool;
  terminating : bool
}.

Definition new : Turn := mkTurn None false false.

(** [Turn::begin]: cancels a termination left over from the last holder. *)
Definition begin (t : Turn) (request : Z) : Turn := mkTurn (Some request) (memory_limit_hit t) false.

(** [Turn::end]: the memory flag goes to the caller. *)
Definition end_ (t : Turn) : bool * Turn :=
  (memory_limit_hit t, mkTurn None false (terminating t)).

(** [Turn::terminate] *)
Definition terminate (t : Turn) (request : Z) : bool * Turn :=
  if bool_decide (holder t = Some request)
  then (true, mkTurn (holder t) (memory_limit_hit t) true)
  else (false, t).

(** A memory limit is hit by the JS that runs: the allocator denies a buffer,
    or the heap callback also terminates. *)
Definition memory_hit (t : Turn) (terminates : bool) : Turn :=
  mkTurn (holder t) true (terminating t || terminates).

End Turn.

Module Watchdog.

(** A deadline: when it lands, and a number that keeps equal instants apart. *)
Definition Key : Type := Z * Z.

Definition u64_max : Z := 2 ^ 64 - 1.

(** The order of [(Instant, u64)]. *)
Definition key_ltb (a b : Key) : bool :=
  (fst a <? fst b) || ((fst a =? fst b) && (snd a <? snd b)).

(** [TimeoutGuard] with the [Entry] it puts in the map; [triggered] is shared
    by the two. *)
Record Guard := mkGuard {
  g_turn : nat;
  g_request : Z;
  g_key : option Key;
  triggered : bool;
  dropped : bool
}.

(** The thread of the watchdog: inside its loop, or waiting on the condition
    variable, until an instant or without limit. *)
Inductive thread := Running | Asleep (until : option Z).

Record World := mkWorld {
  turns : list Turn.Turn;
  guards : list Guard;
  deadlines : gmap Key nat;
  due : list nat;
  watchdog : thread;
  notified : bool;
  next_key : Z;
  clock : Z;
  cpu_terminated : list Z;
  memory_flags : list Z;
  blamed : list Z
}.

Definition initial (isolates : nat) : World :=
  mkWorld (replicate isolates Turn.new) [] ∅ [] Running false 0 0 [] [] [].

(** ** Pieces of the operations *)

Definition set_turn (w : World) (i : nat) (t : Turn.Turn) : World :=
  mkWorld (<[i := t]> (turns w)) (guards w) (deadlines w) (due w) (watchdog w) (notified w)
    (next_key w) (clock w) (cpu_terminated w) (memory_flags w) (blamed w).

Definition trigger (w : World) (g : nat) : World :=
  mkWorld (turns w)
    (alter (fun x => mkGuard (g_turn x) (g_request x) (g_key x) true (dropped x)) g (guards w))
    (deadlines w) (due w) (watchdog w) (notified w) (next_key w) (clock w) (cpu_terminated w)
    (memory_flags w) (blamed w).

Definition keys (m : gmap Key nat) : list Key := (map_to_list m).*1.

(** [deadlines.keys().next()] *)
Definition first_key (m : gmap Key nat) : option Key :=
  foldr (fun k acc =>
    match acc with
    | None => Some k
    | Some k' => Some (if key_ltb k' k then k' else k)
    end) None (keys m).

(** [TimeoutGuard::new] on the isolate [i]: a zero timeout is a disabled
    guard. *)
Definition guard_new (w : World) (i : nat) (request timeout now : Z) : World :=
  if timeout =? 0 then
    mkWorld (turns w) (guards w ++ [mkGuard i request None false false]) (deadlines w) (due w)
      (watchdog w) (notified w) (next_key w) (clock w) (cpu_terminated w) (memory_flags w) (blamed w)
  else
    let key := (now + timeout, next_key w) in
    let g := length (guards w) in
    let m := <[key := g]> (deadlines w) in
    mkWorld (turns w) (guards w ++ [mkGuard i request (Some key) false false]) m (due w)
      (watchdog w) (notified w || bool_decide (first_key m = Some key)) (wrap_u64 (next_key w + 1))
      (clock w) (cpu_terminated w) (memory_flags w) (blamed w).

(** [Drop for TimeoutGuard] *)
Definition guard_drop (w : World) (g : nat) (x : Guard) : World :=
  mkWorld (turns w)
    (<[g := mkGuard (g_turn x) (g_request x) (g_key x) (triggered x) true]> (guards w))
    (match g_key x with Some k => delete k (deadlines w) | None => deadlines w end)
    (due w) (watchdog w) (notified w) (next_key w) (clock w) (cpu_terminated w) (memory_flags w)
    (blamed w).

(** What [split_off(&(now, u64::MAX))] leaves behind: the keys that are due. *)
Definition is_due (now : Z) (k : Key) : bool := key_ltb k (now, u64_max).

(** One round of the loop of [watch] under the lock: the due entries leave the
    map, or the thread goes to sleep until the first one. *)
Definition scan (w : World) (now : Z) : World :=
  let due_now := filter (fun kg => is_due now (fst kg) = true) (map_to_list (deadlines w)) in
  let later := filter (fun kg => is_due now (fst kg) = false) (deadlines w) in
  match due_now with
  | _ :: _ =>
      mkWorld (turns w) (guards w) later (due_now.*2) Running (notified w) (next_key w) (clock w)
        (cpu_terminated w) (memory_flags w) (blamed w)
  | [] =>
      mkWorld (turns w) (guards w) later [] (Asleep (fst <$> first_key later)) false (next_key w)
        (clock w) (cpu_terminated w) (memory_flags w) (blamed w)
  end.

(** One entry of the [for] loop over the due ones. *)
Definition fire (w : World) (g : nat) (rest : list nat) (x : Guard) : World :=
  let w := trigger w g in
  let w := mkWorld (turns w) (guards w) (deadlines w) rest (watchdog w) (notified w) (next_key w)
             (clock w) (cpu_terminated w) (memory_flags w) (blamed w) in
  match turns w !! g_turn x with
  | Some t => set_turn w (g_turn x) (snd (Turn.terminate t (g_request x)))
  | None => w
  end.

(** ** Steps *)

Inductive label :=
| LBegin (i : nat) (request : Z)            (* a request takes the turn *)
| LEnd (i : nat)                            (* and gives it back *)
| LGuard (i : nat) (request timeout : Z)
| LDrop (g : nat)
| LExpire (g : nat)                         (* the loop saw the deadline itself *)
| LCpu (i : nat) (request : Z)              (* the CPU budget is spent *)
| LMemory (i : nat) (terminates : bool)     (* the running JS hits a memory limit *)
| LScan | LFire | LWake
| LTime (d : Z).

Definition step_to (w : World) (l : label) : option World :=
  match l with
  | LBegin i r =>
      t ← turns w !! i;
      match Turn.holder t with
      | None => Some (set_turn w i (Turn.begin t r))
      | Some _ => None
      end
  | LEnd i =>
      t ← turns w !! i;
      match Turn.holder t with
      | Some r =>
          let (hit, t') := Turn.end_ t in
          let w := set_turn w i t' in
          Some (if hit : bool
                then mkWorld (turns w) (guards w) (deadlines w) (due w) (watchdog w) (notified w)
                       (next_key w) (clock w) (cpu_terminated w) (r :: memory_flags w) (blamed w)
                else w)
      | None => None
      end
  | LGuard i r timeout =>
      if (0 <=? timeout) then Some (guard_new w i r timeout (clock w)) else None
  | LDrop g =>
      x ← guards w !! g;
      if dropped x then None else Some (guard_drop w g x)
  | LExpire g =>
      x ← guards w !! g;
      match g_key x with
      | Some (at_, _) => if at_ <=? clock w then Some (trigger w g) else None
      | None => None
      end
  | LCpu i r =>
      t ← turns w !! i;
      let w' := set_turn w i (snd (Turn.terminate t r)) in
      Some (mkWorld (turns w') (guards w') (deadlines w') (due w') (watchdog w') (notified w')
              (next_key w') (clock w') (r :: cpu_terminated w') (memory_flags w') (blamed w'))
  | LMemory i terminates =>
      t ← turns w !! i;
      match Turn.holder t with
      | Some r =>
          let w' := set_turn w i (Turn.memory_hit t terminates) in
          Some (mkWorld (turns w') (guards w') (deadlines w') (due w') (watchdog w') (notified w')
                  (next_key w') (clock w') (cpu_terminated w') (memory_flags w') (r :: blamed w'))
      | None => None
      end
  | LScan =>
      match watchdog w, due w with
      | Running, [] => Some (scan w (clock w))
      | _, _ => None
      end
  | LFire =>
      match due w with
      | g :: rest => x ← guards w !! g; Some (fire w g rest x)
      | [] => None
      end
  | LWake =>
      match watchdog w with
      | Asleep _ =>
          Some (mkWorld (turns w) (guards w) (deadlines w) (due w) Running false (next_key w)
                  (clock w) (cpu_terminated w) (memory_flags w) (blamed w))
      | Running => None
      end
  | LTime d =>
      if (0 <=? d)
      then Some (mkWorld (turns w) (guards w) (deadlines w) (due w) (watchdog w) (notified w)
                   (next_key w) (clock w + d) (cpu_terminated w) (memory_flags w) (blamed w))
      else None
  end.

Definition step (w w' : World) : Prop := exists l, step_to w l = Some w'.
Definition reach (k : nat) : World -> Prop := reachable (eq (initial k)) step.

Definition run : World -> list label -> option World := run_steps step_to.

End Watchdog.
