(* ===== verification/GuardsCorrect.v ===== *)
(** * Correctness of the guards

    A termination, and a memory flag, goes to the request it is meant for; the
    watchdog fires no guard early, sleeps past no deadline and fires every one
    that is due. *)

From stdpp Require Import base list gmap relations.
From Stdlib Require Import ZArith Lia.
From S2P Require Import Prelude Guards.

Local Open Scope Z_scope.

Module GuardsCorrect.
Import Watchdog.

(** ** The order of keys *)

Lemma key_ltb_spec a b :
  key_ltb a b = true <-> fst a < fst b \/ (fst a = fst b /\ snd a < snd b).
Proof.
  unfold key_ltb. rewrite orb_true_iff, andb_true_iff, !Z.ltb_lt, Z.eqb_eq. done.
Qed.

Lemma key_ltb_false a b :
  key_ltb a b = false <-> ~ (fst a < fst b \/ (fst a = fst b /\ snd a < snd b)).
Proof. rewrite <-key_ltb_spec. by destruct (key_ltb a b). Qed.

Lemma first_key_spec m :
  match first_key m with
  | None => m = ∅
  | Some k => k ∈ keys m /\ forall k', k' ∈ keys m -> key_ltb k' k = false
  end.
Proof.
  assert (forall l : list Key,
    match foldr (fun k acc => match acc with None => Some k
      | Some k' => Some (if key_ltb k' k then k' else k) end) None l with
    | None => l = []
    | Some k => k ∈ l /\ forall k', k' ∈ l -> key_ltb k' k = false
    end) as Hl.
  { induction l as [|x l IH]; simpl; [done|]. destruct (foldr _ _ l) as [k|].
    - destruct IH as [Hk Hmin]. destruct (key_ltb k x) eqn:E.
      + split; [set_solver|]. intros k' [->|Hk']%elem_of_cons; [|by apply Hmin].
        apply key_ltb_spec in E. apply key_ltb_false. lia.
      + split; [set_solver|]. intros k' [->|Hk']%elem_of_cons.
        * apply key_ltb_false. lia.
        * specialize (Hmin k' Hk'). rewrite key_ltb_false in *. lia.
    - subst. split; [set_solver|]. intros k' ->%list_elem_of_singleton. apply key_ltb_false. lia. }
  specialize (Hl (keys m)). unfold first_key. destruct (foldr _ _ (keys m)); [done|].
  unfold keys in Hl. apply fmap_nil_inv in Hl. by apply map_to_list_empty_iff.
Qed.

Lemma elem_of_keys m k : k ∈ keys m <-> exists g : nat, m !! k = Some g.
Proof.
  unfold keys. rewrite list_elem_of_fmap. split.
  - intros ([k' g] & -> & H). exists g. by apply elem_of_map_to_list.
  - intros (g & H). exists (k, g). split; [done|]. by apply elem_of_map_to_list.
Qed.

(** ** Who is responsible for a termination *)

(** Request [r] was stopped for its own deadline, its own CPU budget, or a
    memory limit its turn hit. *)
Definition responsible (w : World) (i : nat) (t : Turn.Turn) (r : Z) : Prop :=
  (exists g x, guards w !! g = Some x /\ g_turn x = i /\ g_request x = r /\ triggered x = true) \/
  r ∈ cpu_terminated w \/ Turn.memory_limit_hit t = true.

Record turns_wf (w : World) : Prop := {
  wf_terminating : forall i t r, turns w !! i = Some t -> Turn.terminating t = true ->
    Turn.holder t = Some r -> responsible w i t r;
  wf_memory : forall i t, turns w !! i = Some t -> Turn.memory_limit_hit t = true ->
    exists r, Turn.holder t = Some r /\ r ∈ blamed w;
  wf_flags : forall r, r ∈ memory_flags w -> r ∈ blamed w
}.

(** Guards once triggered stay triggered, and keep their request. *)
Definition guards_grow (w w' : World) : Prop :=
  forall g x, guards w !! g = Some x -> exists x', guards w' !! g = Some x' /\
    g_turn x' = g_turn x /\ g_request x' = g_request x /\ g_key x' = g_key x /\
    (triggered x = true -> triggered x' = true) /\ (dropped x = true -> dropped x' = true).

Lemma guards_grow_refl w w' : guards w' = guards w -> guards_grow w w'.
Proof. intros E g x H. exists x. rewrite E. by split_and!. Qed.

Lemma guards_grow_trigger w w' g :
  guards w' = guards (trigger w g) -> guards_grow w w'.
Proof.
  intros E g' x H. rewrite E. simpl. destruct (decide (g = g')) as [->|Hne].
  - rewrite list_lookup_alter_eq, H. eexists. split; [done|]. done.
  - rewrite list_lookup_alter_ne by done. exists x. by split_and!.
Qed.

(** A step that leaves the turns alone. *)
Lemma turns_wf_same w w' :
  turns_wf w -> turns w' = turns w -> guards_grow w w' ->
  cpu_terminated w' = cpu_terminated w -> memory_flags w' = memory_flags w -> blamed w' = blamed w ->
  turns_wf w'.
Proof.
  intros [H1 H2 H3] Et Hg Ec Em Eb. split.
  - intros i t r. rewrite Et. intros Hi Ht Hh. destruct (H1 i t r Hi Ht Hh) as [(g & x & Hx & ? & ? & ?)|[?|?]].
    + left. destruct (Hg g x Hx) as (x' & Hx' & ? & ? & ? & ? & ?). exists g, x'.
      split_and!; [done|congruence|congruence|auto].
    + right. left. by rewrite Ec.
    + by do 2 right.
  - intros i t. rewrite Et, Eb. apply H2.
  - rewrite Em, Eb. apply H3.
Qed.

(** One turn changes, for reasons the new state knows. *)
Lemma turns_wf_set w w' i t t' :
  turns_wf w -> turns w !! i = Some t -> turns w' = <[i := t']> (turns w) -> guards_grow w w' ->
  cpu_terminated w ⊆ cpu_terminated w' -> blamed w ⊆ blamed w' ->
  (forall r, r ∈ memory_flags w' -> r ∈ memory_flags w \/ r ∈ blamed w') ->
  (forall r, Turn.terminating t' = true -> Turn.holder t' = Some r -> responsible w' i t' r) ->
  (Turn.memory_limit_hit t' = true -> exists r, Turn.holder t' = Some r /\ r ∈ blamed w') ->
  turns_wf w'.
Proof.
  intros [H1 H2 H3] Hi Et Hg Hcpu Hbl Hfl Hr Hm. split.
  - intros j u r. rewrite Et, list_lookup_insert_Some. intros [(-> & -> & _)|(Hne & Hj)]; [auto|].
    intros Ht Hh. destruct (H1 j u r Hj Ht Hh) as [(g & x & Hx & ? & ? & ?)|[?|?]].
    + left. destruct (Hg g x Hx) as (x' & Hx' & ? & ? & ? & ? & ?). exists g, x'.
      split_and!; [done|congruence|congruence|auto].
    + right. left. set_solver.
    + by do 2 right.
  - intros j u. rewrite Et, list_lookup_insert_Some. intros [(-> & -> & _)|(Hne & Hj)]; [auto|].
    intros Hu. destruct (H2 j u Hj Hu) as (r & ? & ?). exists r. set_solver.
  - intros r Hin. destruct (Hfl r Hin); [|done]. set_solver.
Qed.

Lemma scan_keeps w now :
  turns (scan w now) = turns w /\ guards (scan w now) = guards w /\
  cpu_terminated (scan w now) = cpu_terminated w /\ memory_flags (scan w now) = memory_flags w /\
  blamed (scan w now) = blamed w /\ clock (scan w now) = clock w /\ next_key (scan w now) = next_key w.
Proof. unfold scan. by case_match. Qed.

Lemma guards_grow_new w i r timeout now : guards_grow w (guard_new w i r timeout now).
Proof.
  intros g x H. exists x. unfold guard_new. case_match; simpl; rewrite (lookup_app_l_Some _ _ _ _ H); by split_and!.
Qed.

Lemma guards_grow_drop w g x : guards w !! g = Some x -> guards_grow w (guard_drop w g x).
Proof.
  intros Hx g' y Hy. simpl. destruct (decide (g = g')) as [->|Hne].
  - rewrite list_lookup_insert_eq by (by eapply lookup_lt_Some). simplify_eq. eexists. split; [done|]. done.
  - rewrite list_lookup_insert_ne by done. exists y. by split_and!.
Qed.

Lemma guards_grow_fire w g rest x : guards_grow w (fire w g rest x).
Proof. apply (guards_grow_trigger w _ g). unfold fire. by case_match. Qed.

Lemma step_grows w l w' : step_to w l = Some w' -> guards_grow w w'.
Proof.
  intros H. destruct l; simpl in H; step_cases H;
    try (by apply guards_grow_refl);
    auto using guards_grow_new, guards_grow_drop, guards_grow_fire.
  - apply guards_grow_refl. by destruct (Turn.memory_limit_hit _).
  - by eapply guards_grow_trigger.
  - apply guards_grow_refl. by destruct (scan_keeps w (clock w)) as (_ & -> & _).
Qed.

(** [Turn::terminate] only ever stops the holder it names. *)
Lemma terminate_spec t r r' :
  let t' := snd (Turn.terminate t r) in
  Turn.holder t' = Turn.holder t /\ Turn.memory_limit_hit t' = Turn.memory_limit_hit t /\
  (Turn.terminating t' = true -> Turn.holder t' = Some r' -> r' = r \/ Turn.terminating t = true).
Proof. unfold Turn.terminate. case_bool_decide; simpl; naive_solver. Qed.

(** A termination that names [r] leaves a responsible request. *)
Lemma turns_wf_terminate w w' i t r :
  turns_wf w -> turns w !! i = Some t -> turns w' = <[i := snd (Turn.terminate t r)]> (turns w) ->
  guards_grow w w' -> cpu_terminated w ⊆ cpu_terminated w' ->
  memory_flags w' = memory_flags w -> blamed w' = blamed w ->
  (forall u, responsible w' i u r) ->
  turns_wf w'.
Proof.
  intros Hw Hi Et Hg Hc Hm Hb Hr. destruct (terminate_spec t r 0) as (Hh & Hmem & _).
  eapply turns_wf_set; [exact Hw|exact Hi|exact Et|done|done|by rewrite Hb|by rewrite Hm; auto| |].
  - intros r' Ht Hh'. destruct (terminate_spec t r r') as (_ & _ & Hsp).
    destruct (Hsp Ht Hh') as [->|Hold]; [done|]. rewrite Hh in Hh'.
    destruct (wf_terminating _ Hw i t r' Hi Hold Hh') as [(g & x & Hx & ? & ? & ?)|[?|?]].
    + left. destruct (Hg g x Hx) as (x' & ? & ? & ? & ? & ? & ?). exists g, x'.
      split_and!; [done|congruence|congruence|auto].
    + right. left. set_solver.
    + do 2 right. by rewrite Hmem.
  - rewrite Hmem, Hh, Hb. apply (wf_memory _ Hw _ _ Hi).
Qed.

(** One turn changes and the rest of the state only grows. *)
Ltac one_turn Hw Hi :=
  eapply turns_wf_set; [exact Hw|exact Hi|done|done|simpl; set_solver|simpl; set_solver|simpl..].

Lemma step_turns_wf w l w' : turns_wf w -> step_to w l = Some w' -> turns_wf w'.
Proof.
  intros Hw H. pose proof (step_grows _ _ _ H) as Hg.
  destruct l; simpl in H; step_cases H; try (by eapply turns_wf_same).
  - one_turn Hw Heqo; [auto|done|].
    intros Hm. destruct (wf_memory _ Hw _ _ Heqo Hm) as (r & Hr & _). congruence.
  - destruct (Turn.memory_limit_hit t) eqn:Hm; one_turn Hw Heqo; try done; [|auto].
    intros r [->|?]%elem_of_cons; [right|by left].
    destruct (wf_memory _ Hw _ _ Heqo Hm) as (r' & Hr & Hb). congruence.
  - eapply turns_wf_same; [exact Hw|..]; unfold guard_new in *; case_match; done.
  - eapply turns_wf_terminate; [exact Hw|exact Heqo|done|done|simpl; set_solver|done|done|].
    intros u. right. left. simpl. set_solver.
  - one_turn Hw Heqo; [auto| |].
    + intros r _ _. by do 2 right.
    + intros _. rewrite Heqo0. eexists. split; [done|]. set_solver.
  - destruct (scan_keeps w (clock w)) as (? & ? & ? & ? & ? & _). by eapply turns_wf_same.
  - unfold fire in *. simpl in *. destruct (turns w !! g_turn g) as [t|] eqn:Ht.
    + eapply turns_wf_terminate; [exact Hw|exact Ht|done|done|done|done|done|]. intros u. left.
      exists n, (mkGuard (g_turn g) (g_request g) (g_key g) true (dropped g)). simpl.
      by rewrite list_lookup_alter_eq, Heqo.
    + by eapply turns_wf_same.
Qed.

Lemma initial_turns_wf k : turns_wf (initial k).
Proof.
  split; simpl.
  - intros i t r [-> _]%lookup_replicate. done.
  - intros i t [-> _]%lookup_replicate. done.
  - set_solver.
Qed.

Lemma reach_turns k w : reach k w -> turns_wf w.
Proof.
  apply reachable_invariant; [intros ? <-; apply initial_turns_wf|].
  intros w1 w2 Hw [l Hl]. by eapply step_turns_wf.
Qed.

(** C24: a guard stops only its own request: while request [r] holds the turn of
    an isolate, a termination is pending there only if a deadline of [r] itself
    has passed, the CPU budget of [r] is spent, or a memory limit was hit in
    this turn. *)
Theorem termination_hits_its_own_request k w i t r :
  reach k w -> turns w !! i = Some t -> Turn.holder t = Some r -> Turn.terminating t = true ->
  (exists g x, guards w !! g = Some x /\ g_turn x = i /\ g_request x = r /\ triggered x = true) \/
  r ∈ cpu_terminated w \/ Turn.memory_limit_hit t = true.
Proof. intros Hw Hi Hh Ht. exact (wf_terminating _ (reach_turns k w Hw) i t r Hi Ht Hh). Qed.

(** The memory flag of an isolate is charged to a request only if JS ran by
    that request hit a limit, and it never survives the turn it was set in. *)
Theorem memory_flag_hits_its_own_request k w :
  reach k w ->
  (forall r, r ∈ memory_flags w -> r ∈ blamed w) /\
  (forall i t, turns w !! i = Some t -> Turn.holder t = None -> Turn.memory_limit_hit t = false).
Proof.
  intros Hw. pose proof (reach_turns k w Hw) as Hwf. split; [apply (wf_flags _ Hwf)|].
  intros i t Hi Hh. destruct (Turn.memory_limit_hit t) eqn:E; [|done].
  destruct (wf_memory _ Hwf _ _ Hi E) as (r & ? & _). congruence.
Qed.

(** ** Deadlines *)

(** The keys of fewer than 2^64 guards are distinct. *)
Definition few (w : World) : Prop := Z.of_nat (length (guards w)) < 2 ^ 64.

Record keys_wf (w : World) : Prop := {
  key_range : 0 <= next_key w <= Z.of_nat (length (guards w));
  key_below : forall g x a k, guards w !! g = Some x -> g_key x = Some (a, k) -> 0 <= k < next_key w;
  key_unique : forall g g' x x' k, guards w !! g = Some x -> guards w !! g' = Some x' ->
    g_key x = Some k -> g_key x' = Some k -> g = g'
}.

(** A guard whose deadline still counts. *)
Definition armed (w : World) (g : nat) (x : Guard) (k : Key) : Prop :=
  guards w !! g = Some x /\ g_key x = Some k /\ dropped x = false /\ triggered x = false.

Record deadlines_wf (w : World) : Prop := {
  dl_entry : forall k g, deadlines w !! k = Some g -> exists x, guards w !! g = Some x /\ g_key x = Some k;
  dl_due : forall g, g ∈ due w -> exists x a k,
    guards w !! g = Some x /\ g_key x = Some (a, k) /\ a <= clock w;
  dl_triggered : forall g x, guards w !! g = Some x -> triggered x = true -> exists a k,
    g_key x = Some (a, k) /\ a <= clock w;
  dl_asleep : forall u, watchdog w = Asleep u -> due w = [] /\
    (notified w = false -> forall k g, deadlines w !! k = Some g -> exists a, u = Some a /\ a <= fst k);
  dl_keys : few w -> keys_wf w;
  dl_armed : few w -> forall g x k, armed w g x k -> deadlines w !! k = Some g \/ g ∈ due w
}.

(** A step that leaves the guards, the map and the thread alone. *)
Lemma deadlines_wf_same w w' :
  deadlines_wf w -> guards w' = guards w -> deadlines w' = deadlines w -> due w' = due w ->
  watchdog w' = watchdog w -> notified w' = notified w -> next_key w' = next_key w ->
  clock w <= clock w' -> deadlines_wf w'.
Proof.
  intros [H1 H2 H3 H4 H5 H6] Eg Ed Eu Ew En Ek Hc. unfold armed, few in *.
  split; unfold armed, few in *; rewrite ?Eg, ?Ed, ?Eu, ?Ew, ?En; auto.
  - intros g Hg. destruct (H2 g Hg) as (x & a & k & ? & ? & ?). exists x, a, k. split_and!; [done..|lia].
  - intros g x Hg Ht. destruct (H3 g x Hg Ht) as (a & k & ? & ?). exists a, k. split; [done|lia].
  - intros Hf. destruct (H5 Hf) as [K1 K2 K3]. split; rewrite ?Eg, ?Ek; auto.
Qed.

(** Triggering and dropping change a guard in place. *)
Lemma keys_wf_grow w w' :
  keys_wf w -> guards_grow w w' -> length (guards w') = length (guards w) ->
  next_key w' = next_key w -> keys_wf w'.
Proof.
  intros [K1 K2 K3] Hg Hl En.
  assert (forall g x', guards w' !! g = Some x' -> exists x, guards w !! g = Some x /\ g_key x' = g_key x) as Hback.
  { intros g x' Hx'. assert (is_Some (guards w !! g)) as [x Hx].
    { apply lookup_lt_is_Some. rewrite <-Hl. by eapply lookup_lt_Some. }
    destruct (Hg g x Hx) as (y & Hy & _ & _ & Hk & _). exists x. split; [done|congruence]. }
  split.
  - by rewrite En, Hl.
  - intros g x' a k Hx' Hk. destruct (Hback g x' Hx') as (x & Hx & E). rewrite En.
    apply (K2 g x a k); congruence.
  - intros g g' x x' k Hx Hx' Hk Hk'. destruct (Hback g x Hx) as (y & Hy & E).
    destruct (Hback g' x' Hx') as (y' & Hy' & E'). eapply (K3 g g' y y' k); congruence.
Qed.

(** Guards changed in place, deadlines and due ones taken over from before. *)
Lemma deadlines_wf_grow w w' :
  deadlines_wf w -> guards_grow w w' -> length (guards w') = length (guards w) ->
  next_key w' = next_key w -> clock w' = clock w ->
  (forall k g, deadlines w' !! k = Some g -> deadlines w !! k = Some g) ->
  (forall g, g ∈ due w' -> g ∈ due w \/ exists k, deadlines w !! k = Some g /\ fst k <= clock w) ->
  (forall g x, guards w' !! g = Some x -> triggered x = true ->
     (exists x0, guards w !! g = Some x0 /\ triggered x0 = true) \/ g ∈ due w \/
     exists a k, g_key x = Some (a, k) /\ a <= clock w) ->
  (forall u, watchdog w' = Asleep u -> due w' = [] /\
     (notified w' = false -> forall k g, deadlines w' !! k = Some g -> exists a, u = Some a /\ a <= fst k)) ->
  (keys_wf w -> forall g x0 x k, armed w g x0 k -> armed w' g x k ->
     deadlines w !! k = Some g \/ g ∈ due w -> deadlines w' !! k = Some g \/ g ∈ due w') ->
  deadlines_wf w'.
Proof.
  intros [H1 H2 H3 H4 H5 H6] Hg Hl En Ec Hd Hu Ht Hw Ha.
  assert (forall g x a k, guards w !! g = Some x -> g_key x = Some (a, k) ->
    exists x', guards w' !! g = Some x' /\ g_key x' = Some (a, k)) as Hfwd.
  { intros g x a k Hx Hk. destruct (Hg g x Hx) as (x' & Hx' & _ & _ & E & _). exists x'. split; congruence. }
  split.
  - intros [a k] g Hk. destruct (H1 _ g (Hd _ g Hk)) as (x & Hx & Hkx).
    destruct (Hfwd g x a k Hx Hkx) as (x' & ? & ?). eauto.
  - intros g Hgu. rewrite Ec. destruct (Hu g Hgu) as [Hold|([a k] & Hk & Hle)].
    + destruct (H2 g Hold) as (x & a & k & Hx & Hkx & Hle).
      destruct (Hfwd g x a k Hx Hkx) as (x' & ? & ?). eauto 6.
    + destruct (H1 _ g Hk) as (x & Hx & Hkx). destruct (Hfwd g x a k Hx Hkx) as (x' & ? & ?). eauto 6.
  - intros g x Hx Htr. rewrite Ec. destruct (Ht g x Hx Htr) as [(x0 & Hx0 & Ht0)|[Hgu|?]]; [| |done].
    + destruct (H3 g x0 Hx0 Ht0) as (a & k & Hk & Hle). destruct (Hfwd g x0 a k Hx0 Hk) as (x' & ? & ?).
      exists a, k. split; [congruence|done].
    + destruct (H2 g Hgu) as (x0 & a & k & Hx0 & Hk & Hle).
      destruct (Hfwd g x0 a k Hx0 Hk) as (x' & ? & ?). exists a, k. split; [congruence|done].
  - done.
  - unfold few in *. rewrite Hl. intros Hf. eapply keys_wf_grow; eauto.
  - unfold few in *. rewrite Hl. intros Hf g x k Hax. pose proof Hax as (Hx & Hk & Hdr & Htr).
    assert (is_Some (guards w !! g)) as [x0 Hx0].
    { apply lookup_lt_is_Some. rewrite <-Hl. by eapply lookup_lt_Some. }
    destruct (Hg g x0 Hx0) as (y & Hy & _ & _ & E & Et & Ed). simplify_eq.
    assert (armed w g x0 k) as Hax0.
    { split_and!; [done|congruence|destruct (dropped x0); [naive_solver|done]|
        destruct (triggered x0); [naive_solver|done]]. }
    eapply (Ha (H5 Hf)); [exact Hax0|exact Hax|]. eapply H6; [done|exact Hax0].
Qed.

Lemma is_due_spec now k : is_due now k = true <-> fst k < now \/ (fst k = now /\ snd k < u64_max).
Proof. unfold is_due. by rewrite key_ltb_spec. Qed.

Lemma scan_wf w : deadlines_wf w -> watchdog w = Running -> due w = [] -> deadlines_wf (scan w (clock w)).
Proof.
  intros Hw Hrun Hdue. destruct (scan_keeps w (clock w)) as (_ & Eg & _ & _ & _ & Ec & En).
  assert (deadlines (scan w (clock w)) =
    filter (fun kg => is_due (clock w) (fst kg) = false) (deadlines w)) as Ed.
  { unfold scan. by case_match. }
  assert (due (scan w (clock w)) =
    (filter (fun kg => is_due (clock w) (fst kg) = true) (map_to_list (deadlines w))).*2) as Eu.
  { unfold scan. case_match; done. }
  eapply deadlines_wf_grow; [exact Hw|by apply guards_grow_refl|by rewrite Eg|done|done|..].
  - intros k g. rewrite Ed, map_lookup_filter_Some. tauto.
  - intros g. rewrite Eu, list_elem_of_fmap. intros ([k g'] & -> & Hin). right.
    apply list_elem_of_filter in Hin as [Hdu Hin]. apply elem_of_map_to_list in Hin.
    exists k. split; [done|]. apply is_due_spec in Hdu. simpl in Hdu. lia.
  - rewrite Eg. intros g x Hx Ht. left. eauto.
  - intros u. unfold scan. case_match eqn:E; simpl; [|done]. intros [= <-]. split; [done|].
    intros _ k g Hk. pose proof (first_key_spec
      (filter (fun kg => is_due (clock w) (fst kg) = false) (deadlines w))) as Hf.
    destruct (first_key _) as [k0|].
    + destruct Hf as [_ Hmin]. specialize (Hmin k ltac:(apply elem_of_keys; eauto)).
      rewrite key_ltb_false in Hmin. simpl. exists (fst k0). split; [done|]. lia.
    + rewrite Hf in Hk. by rewrite lookup_empty in Hk.
  - intros _ g x0 x k _ _ [Hk|Hin]; [|rewrite Hdue in Hin; set_solver].
    rewrite Ed, Eu. destruct (is_due (clock w) k) eqn:E.
    + right. apply list_elem_of_fmap. exists (k, g). split; [done|].
      apply list_elem_of_filter. split; [done|]. by apply elem_of_map_to_list.
    + left. apply map_lookup_filter_Some. done.
Qed.

Lemma length_trigger w g : length (guards (trigger w g)) = length (guards w).
Proof. apply length_alter. Qed.

Lemma trigger_lookup w g g' x :
  guards (trigger w g) !! g' = Some x ->
  exists x0, guards w !! g' = Some x0 /\ g_key x = g_key x0 /\
    (triggered x = true -> g' = g \/ triggered x0 = true) /\ (g' = g -> triggered x = true).
Proof.
  simpl. destruct (decide (g = g')) as [<-|Hne].
  - rewrite list_lookup_alter_eq. destruct (guards w !! g) as [x0|]; [|done]. intros [= <-]. eauto 6.
  - rewrite list_lookup_alter_ne by done. intros H. exists x. naive_solver.
Qed.

Lemma fire_wf w g rest x :
  deadlines_wf w -> due w = g :: rest -> guards w !! g = Some x -> deadlines_wf (fire w g rest x).
Proof.
  intros Hw Hdue Hx.
  assert (forall w', guards w' = guards (trigger w g) -> deadlines w' = deadlines w -> due w' = rest ->
    watchdog w' = watchdog w -> notified w' = notified w -> next_key w' = next_key w ->
    clock w' = clock w -> deadlines_wf w') as Hgen.
  { intros w' Eg Ed Eu Ew En Ek Ec.
    eapply deadlines_wf_grow; [exact Hw|by eapply guards_grow_trigger| |done|done|..].
    - by rewrite Eg, length_trigger.
    - by rewrite Ed.
    - rewrite Eu, Hdue. intros g' Hg'. left. set_solver.
    - rewrite Eg. intros g' y Hy Ht. destruct (trigger_lookup _ _ _ _ Hy) as (y0 & Hy0 & _ & Hor & _).
      destruct (Hor Ht) as [->|?]; [right; left; rewrite Hdue; set_solver|left; eauto].
    - rewrite Ew, Ed. intros u Hu. destruct (dl_asleep _ Hw u Hu) as [Hnil _]. congruence.
    - intros _ g' y0 y k _ (Hy & _ & _ & Ht) [?|Hin]; [left; by rewrite Ed|].
      rewrite Hdue in Hin. rewrite Eu. apply elem_of_cons in Hin as [->|?]; [|by right].
      rewrite Eg in Hy. destruct (trigger_lookup _ _ _ _ Hy) as (_ & _ & _ & _ & Hme).
      rewrite Hme in Ht; done. }
  unfold fire. case_match; by apply Hgen.
Qed.

Lemma expire_wf w g x a k :
  deadlines_wf w -> guards w !! g = Some x -> g_key x = Some (a, k) -> a <= clock w ->
  deadlines_wf (trigger w g).
Proof.
  intros Hw Hx Hk Hle.
  eapply deadlines_wf_grow; [exact Hw|by eapply guards_grow_trigger|apply length_trigger|done|done|done|auto|..].
  - intros g' y Hy Ht. destruct (trigger_lookup _ _ _ _ Hy) as (y0 & Hy0 & Ek & Hor & _).
    destruct (Hor Ht) as [->|?]; [|left; eauto]. do 2 right. simplify_eq. rewrite Ek. eauto.
  - apply (dl_asleep _ Hw).
  - auto.
Qed.

Lemma drop_wf w g x :
  deadlines_wf w -> guards w !! g = Some x -> deadlines_wf (guard_drop w g x).
Proof.
  intros Hw Hx.
  assert (forall k g', deadlines (guard_drop w g x) !! k = Some g' -> deadlines w !! k = Some g') as Hd.
  { intros k g'. simpl. destruct (g_key x); [|done]. rewrite lookup_delete_Some. tauto. }
  eapply deadlines_wf_grow; [exact Hw|by apply guards_grow_drop|simpl; apply length_insert|done|done|done|auto|..].
  - intros g' y. simpl. rewrite list_lookup_insert_Some. intros [(<- & <- & _)|(_ & Hy)] Ht; left; eauto.
  - intros u Hu. destruct (dl_asleep _ Hw u Hu) as [Hnil Hs]. split; [done|].
    intros Hn k g' Hk. by eapply Hs; [|apply Hd].
  - intros [_ _ K3] g' y0 y k (Hy0 & Hk0 & _) (Hy & Hk & Hdr & _) [Hin|Hin]; [left|by right].
    simpl in *. apply list_lookup_insert_Some in Hy as [(_ & <- & _)|(Hne & Hy)]; [done|].
    destruct (g_key x) as [kx|] eqn:Ekx; [|done]. rewrite lookup_delete_ne; [done|].
    intros ->. apply Hne. by eapply K3.
Qed.

Lemma few_new w x : Z.of_nat (length (guards w ++ [x])) < 2 ^ 64 -> few w.
Proof. unfold few. rewrite length_app. simpl. lia. Qed.

(** Guards before and after a new one. *)
Lemma snoc_lookup w x g y :
  (guards w ++ [x]) !! g = Some y -> guards w !! g = Some y \/ (g = length (guards w) /\ y = x).
Proof.
  intros H. apply lookup_app_Some in H as [?|[Hl H]]; [by left|]. right.
  apply list_lookup_singleton_Some in H as [? ?]. split; [lia|done].
Qed.

Lemma disabled_wf w i r now : deadlines_wf w -> deadlines_wf (guard_new w i r 0 now).
Proof.
  intros [H1 H2 H3 H4 H5 H6]. unfold guard_new. simpl.
  split; simpl; try done.
  - intros k g Hk. destruct (H1 k g Hk) as (x & Hx & ?). exists x. by rewrite (lookup_app_l_Some _ _ _ _ Hx).
  - intros g Hg. destruct (H2 g Hg) as (x & a & k & Hx & ?). exists x, a, k.
    by rewrite (lookup_app_l_Some _ _ _ _ Hx).
  - intros g x [Hx|[_ ->]]%snoc_lookup Ht; [by eapply H3|done].
  - intros Hfew. pose proof (few_new w _ Hfew) as Hf. destruct (H5 Hf) as [K1 K2 K3]. split; simpl.
    + rewrite length_app. simpl. lia.
    + intros g x a k [Hx|[_ ->]]%snoc_lookup Hk; [by eapply K2|done].
    + intros g g' x x' k [Hx|[_ ->]]%snoc_lookup [Hx'|[_ ->]]%snoc_lookup Hk Hk'; try done. by eapply K3.
  - intros Hfew g x k (Hx & Hk & Hr). pose proof (few_new w _ Hfew) as Hf. simpl in Hx.
    apply snoc_lookup in Hx as [Hx|[_ ->]]; [|done]. by eapply H6; [|split].
Qed.

Lemma guard_new_wf w i r timeout :
  deadlines_wf w -> 0 <= timeout -> deadlines_wf (guard_new w i r timeout (clock w)).
Proof.
  intros Hwf Hpos. destruct (decide (timeout = 0)) as [->|Hne]; [by apply disabled_wf|].
  destruct Hwf as [H1 H2 H3 H4 H5 H6]. unfold guard_new. destruct (Z.eqb_spec timeout 0); [done|].
  set (key := (clock w + timeout, next_key w)). set (m := <[key := length (guards w)]> (deadlines w)).
  assert ((guards w ++ [mkGuard i r (Some key) false false]) !! length (guards w) =
          Some (mkGuard i r (Some key) false false)) as Hnew.
  { rewrite lookup_app_r by lia. by rewrite Nat.sub_diag. }
  split; simpl.
  - intros k g Hk. apply lookup_insert_Some in Hk as [[<- <-]|[_ Hk]]; [eauto|].
    destruct (H1 k g Hk) as (x & Hx & ?). exists x. by rewrite (lookup_app_l_Some _ _ _ _ Hx).
  - intros g Hg. destruct (H2 g Hg) as (x & a & k & Hx & ?). exists x, a, k.
    by rewrite (lookup_app_l_Some _ _ _ _ Hx).
  - intros g x [Hx|[_ ->]]%snoc_lookup Ht; [by eapply H3|done].
  - intros u Hu. destruct (H4 u Hu) as [Hnil Hs]. split; [done|].
    intros [Hn Hb]%orb_false_iff k g Hk. specialize (Hs Hn).
    pose proof (first_key_spec m) as Hf. apply bool_decide_eq_false in Hb.
    destruct (first_key m) as [k0|] eqn:E.
    2: { rewrite Hf in Hk. by rewrite lookup_empty in Hk. }
    destruct Hf as [Hk0 Hmin]. apply elem_of_keys in Hk0 as [g0 Hk0].
    apply lookup_insert_Some in Hk0 as [[<- _]|[_ Hk0]]; [done|].
    destruct (Hs k0 g0 Hk0) as (a & -> & Ha). exists a. split; [done|].
    specialize (Hmin k ltac:(apply elem_of_keys; eauto)). rewrite key_ltb_false in Hmin. lia.
  - intros Hfew. pose proof (few_new w _ Hfew) as Hf.
    destruct (H5 Hf) as [K1 K2 K3]. unfold few in Hfew. simpl in Hfew. rewrite length_app in Hfew. simpl in Hfew.
    split; simpl.
    + autorewrite with machine. rewrite length_app. simpl. lia.
    + rewrite wrap_u64_small by lia.
      intros g x a k [Hx|[_ ->]]%snoc_lookup Hk; [specialize (K2 _ _ _ _ Hx Hk); lia|].
      simpl in Hk. unfold key in Hk. injection Hk as <- <-. lia.
    + intros g g' x x' k [Hx|[-> ->]]%snoc_lookup [Hx'|[-> ->]]%snoc_lookup Hk Hk'; simpl in *.
      * by eapply K3.
      * injection Hk' as <-. specialize (K2 _ _ _ _ Hx Hk). lia.
      * injection Hk as <-. specialize (K2 _ _ _ _ Hx' Hk'). lia.
      * done.
  - intros Hfew g x k (Hx & Hk & Hr). pose proof (few_new w _ Hfew) as Hf. simpl in Hx.
    apply snoc_lookup in Hx as [Hx|[-> ->]].
    + destruct (H6 Hf g x k) as [Hin|?]; [by split| |by right]. left. unfold m.
      rewrite lookup_insert_ne; [done|]. intros <-. destruct (H5 Hf) as [_ K2 _].
      unfold key in Hk. specialize (K2 _ _ _ _ Hx Hk). lia.
    + left. simpl in Hk. injection Hk as <-. apply lookup_insert_eq.
Qed.

Lemma step_deadlines_wf w l w' : deadlines_wf w -> step_to w l = Some w' -> deadlines_wf w'.
Proof.
  intros Hw H. destruct l; simpl in H; step_cases H;
    try (apply (deadlines_wf_same w); simpl; done || lia).
  - destruct (Turn.memory_limit_hit _); apply (deadlines_wf_same w); simpl; done || lia.
  - apply guard_new_wf; [done|lia].
  - by apply drop_wf.
  - eapply expire_wf; eauto. lia.
  - by apply scan_wf.
  - by apply fire_wf.
  - destruct Hw as [H1 H2 H3 H4 H5 H6]. split; simpl; try done.
    intros Hf. destruct (H5 Hf) as [K1 K2 K3]. split; done.
Qed.

Lemma reach_deadlines k w : reach k w -> deadlines_wf w.
Proof.
  apply reachable_invariant.
  - intros ? <-. split; simpl; try done; [set_solver|]. intros _ g x k' (Hx & _). done.
  - intros w1 w2 Hw [l Hl]. by eapply step_deadlines_wf.
Qed.

(** The watchdog never sleeps past a deadline: while it waits and nothing has
    notified it, its wait is bounded by the deadline of every guard that is
    neither dropped nor triggered. *)
Theorem watchdog_never_oversleeps k w u g x a n :
  reach k w -> few w -> watchdog w = Asleep u -> notified w = false ->
  guards w !! g = Some x -> g_key x = Some (a, n) -> dropped x = false -> triggered x = false ->
  exists until, u = Some until /\ until <= a.
Proof.
  intros Hr Hf Hw Hn Hx Hk Hd Ht. pose proof (reach_deadlines k w Hr) as Hwf.
  destruct (dl_asleep _ Hwf u Hw) as [Hnil Hs].
  destruct (dl_armed _ Hwf Hf g x (a, n)) as [Hin|Hin]; [done| |rewrite Hnil in Hin; set_solver].
  exact (Hs Hn _ _ Hin).
Qed.

(** No guard fires early: one that has triggered was armed, and its deadline
    is past. *)
Theorem watchdog_never_early k w g x :
  reach k w -> guards w !! g = Some x -> triggered x = true ->
  exists a n, g_key x = Some (a, n) /\ a <= clock w.
Proof. intros Hr. apply (dl_triggered _ (reach_deadlines k w Hr)). Qed.

Lemma fire_shape w g rest x :
  guards (fire w g rest x) = guards (trigger w g) /\ due (fire w g rest x) = rest.
Proof. unfold fire. by case_match. Qed.

(** Firing the due guards one after the other triggers each of them. *)
Lemma fire_all n : forall w,
  length (due w) = n -> Forall (fun g => is_Some (guards w !! g)) (due w) ->
  exists w', run w (replicate n LFire) = Some w' /\ due w' = [] /\
    (forall g, g ∈ due w -> exists x, guards w' !! g = Some x /\ triggered x = true) /\
    guards_grow w w'.
Proof.
  induction n as [|n IH]; intros w Hn Hg.
  - apply nil_length_inv in Hn. exists w. rewrite Hn. split_and!; [done|done|set_solver|by apply guards_grow_refl].
  - destruct (due w) as [|g rest] eqn:Hd; [done|]. apply Forall_cons in Hg as [[x Hx] Hrest].
    destruct (fire_shape w g rest x) as [Eg Ed]. pose proof (guards_grow_fire w g rest x) as Hgr.
    destruct (IH (fire w g rest x)) as (w' & Hrun & Hnil & Hall & Hgr').
    + rewrite Ed. simpl in Hn. lia.
    + rewrite Ed. eapply Forall_impl; [exact Hrest|]. intros g' [x' Hx'].
      destruct (Hgr g' x' Hx') as (y & Hy & _). eauto.
    + exists w'. split_and!.
      * unfold run. cbn [replicate run_steps]. unfold step_to. rewrite Hd. simpl. rewrite Hx. simpl. exact Hrun.
      * done.
      * intros g' [->|Hg']%elem_of_cons.
        -- assert (guards (fire w g rest x) !! g =
             Some (mkGuard (g_turn x) (g_request x) (g_key x) true (dropped x))) as Hy.
           { rewrite Eg. simpl. by rewrite list_lookup_alter_eq, Hx. }
           destruct (Hgr' g _ Hy) as (z & Hz & _ & _ & _ & Ht & _). eauto.
        -- apply Hall. by rewrite Ed.
      * intros g' y Hy. destruct (Hgr g' y Hy) as (y1 & H1 & E1 & E2 & E3 & E4 & E5).
        destruct (Hgr' g' y1 H1) as (y2 & H2 & F1 & F2 & F3 & F4 & F5).
        exists y2. split_and!; [done|congruence|congruence|congruence|auto|auto].
Qed.

(** Every deadline that is past fires: one round of the watchdog takes the
    due entries out of the map, and firing them triggers every guard that was
    armed with a deadline no later than now. *)
Theorem watchdog_fires_what_is_due k w g x a n :
  reach k w -> few w -> watchdog w = Running -> due w = [] ->
  guards w !! g = Some x -> g_key x = Some (a, n) -> dropped x = false -> a <= clock w ->
  exists rounds w' x', run w (LScan :: replicate rounds LFire) = Some w' /\ due w' = [] /\
    guards w' !! g = Some x' /\ triggered x' = true.
Proof.
  intros Hr Hf Hrun Hdue Hx Hk Hdr Hle. pose proof (reach_deadlines k w Hr) as Hwf.
  pose proof (scan_wf w Hwf Hrun Hdue) as Hscan.
  destruct (scan_keeps w (clock w)) as (_ & Eg & _ & _ & _ & Ec & _).
  destruct (fire_all (length (due (scan w (clock w)))) (scan w (clock w)) eq_refl)
    as (w' & Hfire & Hnil & Hall & Hgr).
  { apply Forall_forall. intros g' Hg'. destruct (dl_due _ Hscan g' Hg') as (y & ? & ? & Hy & _). eauto. }
  assert (run w (LScan :: replicate (length (due (scan w (clock w)))) LFire) = Some w') as Hrun'.
  { unfold run. cbn [run_steps].
    assert (step_to w LScan = Some (scan w (clock w))) as -> by (simpl; by rewrite Hrun, Hdue).
    exact Hfire. }
  destruct (triggered x) eqn:Ht.
  - destruct (Hgr g x) as (x' & Hx' & _ & _ & _ & Ht' & _); [by rewrite Eg|]. eexists _, w', x'. eauto.
  - assert (g ∈ due (scan w (clock w))) as Hin.
    { destruct (dl_armed _ Hscan) with (g := g) (x := x) (k := (a, n)) as [Hin|?]; [| |exfalso|done].
      - unfold few. by rewrite Eg.
      - split_and!; [by rewrite Eg|done..].
      - assert (deadlines (scan w (clock w)) !! (a, n) = Some g ->
          is_due (clock w) (a, n) = false) as Hnot.
        { unfold scan. case_match; simpl; rewrite map_lookup_filter_Some; tauto. }
        specialize (Hnot Hin). destruct (key_below _ (dl_keys _ Hwf Hf) g x a n Hx Hk) as [_ Hlt].
        pose proof (key_range _ (dl_keys _ Hwf Hf)) as [_ Hnk]. unfold few in Hf.
        assert (is_due (clock w) (a, n) = true) as Hyes; [|congruence].
        apply is_due_spec. unfold u64_max. simpl. lia. }
    destruct (Hall g Hin) as (x' & Hx' & Ht'). eexists _, w', x'. eauto.
Qed.

(** ** Concrete executions *)

Lemma guards_run_reach k ls w : run (initial k) ls = Some w -> reach k w.
Proof. by apply (run_steps_reachable step_to). Qed.

(** Request 7 runs with a guard of 50 ms, request 8 waits with one of 60 s; the
    watchdog sleeps. *)
Definition asleep_trace : list label :=
  [LBegin 0 7; LGuard 0 7 50; LGuard 0 8 60000; LTime 10; LScan].

Definition asleep : World := default (initial 1) (run (initial 1) asleep_trace).

(** The deadline of request 7 passes while it runs; its JS also hits the heap
    limit. *)
Definition woken : World := default asleep (run asleep [LMemory 0 true; LTime 45; LWake]).
Definition fired : World := default woken (run woken [LScan; LFire]).

Lemma asleep_reach : reach 1 asleep.
Proof. apply (guards_run_reach 1 asleep_trace). vm_compute. reflexivity. Qed.

Lemma woken_reach : reach 1 woken.
Proof. apply (guards_run_reach 1 (asleep_trace ++ [LMemory 0 true; LTime 45; LWake])). vm_compute. reflexivity. Qed.

Lemma fired_reach : reach 1 fired.
Proof.
  apply (guards_run_reach 1 (asleep_trace ++ [LMemory 0 true; LTime 45; LWake; LScan; LFire])).
  vm_compute. reflexivity.
Qed.

Lemma termination_hits_its_own_request_witness :
  (exists g x, guards fired !! g = Some x /\ g_turn x = 0%nat /\ g_request x = 7 /\ triggered x = true) \/
  7 ∈ cpu_terminated fired \/ true = true.
Proof.
  exact (termination_hits_its_own_request 1 fired 0 (Turn.mkTurn (Some 7) true true) 7
           fired_reach eq_refl eq_refl eq_refl).
Defined.

Lemma memory_flag_hits_its_own_request_witness :
  let w := default fired (run fired [LEnd 0]) in
  memory_flags w = [7] /\
  (forall r, r ∈ memory_flags w -> r ∈ blamed w) /\
  (forall i t, turns w !! i = Some t -> Turn.holder t = None -> Turn.memory_limit_hit t = false).
Proof.
  intros w. split; [vm_compute; reflexivity|].
  refine (memory_flag_hits_its_own_request 1 w _).
  apply (guards_run_reach 1 (asleep_trace ++ [LMemory 0 true; LTime 45; LWake; LScan; LFire; LEnd 0])).
  vm_compute. reflexivity.
Defined.

Lemma watchdog_never_oversleeps_witness : exists until, Some 50 = Some until /\ until <= 60000.
Proof.
  refine (watchdog_never_oversleeps 1 asleep (Some 50) 1 (mkGuard 0 8 (Some (60000, 1)) false false)
    60000 1 asleep_reach _ _ _ _ _ _ _); vm_compute; reflexivity.
Defined.

Lemma watchdog_never_early_witness :
  exists a n, Some (50, 0) = Some (a, n) /\ a <= clock fired.
Proof.
  exact (watchdog_never_early 1 fired 0 (mkGuard 0 7 (Some (50, 0)) true false) fired_reach
           eq_refl eq_refl).
Defined.

Lemma watchdog_fires_what_is_due_witness :
  exists rounds w' x', run woken (LScan :: replicate rounds LFire) = Some w' /\ due w' = [] /\
    guards w' !! 0%nat = Some x' /\ triggered x' = true.
Proof.
  refine (watchdog_fires_what_is_due 1 woken 0 (mkGuard 0 7 (Some (50, 0)) false false) 50 0
    woken_reach _ _ _ _ _ _ _); vm_compute; congruence.
Defined.

End GuardsCorrect.
