(* ===== verification/Cpu.v ===== *)
(** * The CPU limit of a request (src/src/security/cpu_enforcer.rs, cpu_timer.rs)

    The budget a request spends over its turns, the POSIX timer that cuts a
    turn that never yields, and the parking of the macOS watchdog. Durations are
    nanoseconds. *)

From stdpp Require Import base list relations.
From Stdlib Require Import ZArith Lia.
From S2P Require Import Prelude.

Local Open Scope Z_scope.

Module Cpu.

Definition saturating_sub (a b : Z) : Z := Z.max 0 (a - b).

(** ** Reading the clock *)

(** [get_thread_cpu_time], given what [clock_gettime] answered: its return code
    and the [timespec]. *)
Definition get_thread_cpu_time (ret secs nanos : Z) : option Z :=
  if ret =? 0 then Some (secs * 1000000000 + nanos) else None.

(** [CpuTimer] *)
Record CpuTimer := mkTimer { start : Z }.
Definition timer_start (clock : option Z) : CpuTimer := mkTimer (default 0 clock).
Definition elapsed (t : CpuTimer) (clock : option Z) : Z := saturating_sub (default (start t) clock) (start t).

(** ** The enforcer *)

Record CpuEnforcer := mkEnforcer {
  budget : Z;
  remaining : Z;
  turn_started : option Z;
  terminated : bool
}.

(** [CpuEnforcer::new]; [timer_created] is the answer of [timer_create]. *)
Definition new (timeout_ms : Z) (clock : option Z) (timer_created : bool) : option CpuEnforcer :=
  if timeout_ms =? 0 then None
  else match clock with
       | None => None
       | Some _ =>
           if timer_created
           then Some (mkEnforcer (timeout_ms * 1000000) (timeout_ms * 1000000) None false)
           else None
       end.

Definition begin_turn (e : CpuEnforcer) (clock : option Z) : CpuEnforcer :=
  mkEnforcer (budget e) (remaining e) clock (terminated e).

Definition end_turn (e : CpuEnforcer) (clock : option Z) : CpuEnforcer :=
  match turn_started e, clock with
  | Some started, Some now =>
      let left := saturating_sub (remaining e) (saturating_sub now started) in
      mkEnforcer (budget e) left None (terminated e || (left =? 0))
  | _, _ => mkEnforcer (budget e) (remaining e) None (terminated e)
  end.

Definition refill (e : CpuEnforcer) : CpuEnforcer :=
  if terminated e then e else mkEnforcer (budget e) (budget e) (turn_started e) (terminated e).

(** ** The timer of Linux *)

(** What [Timer::arm] sets: zero would disarm. *)
Definition arm (after : Z) : Z := Z.max after 1000.

(** What the timer is set to: it fires [after] of CPU time from now, or it is
    disarmed. *)
Definition set (now after : Z) : option Z := if after =? 0 then None else Some (now + after).

(** ** A request on its thread *)

(** The enforcer with the CPU clock of its thread, when its timer fires, the
    SIGALRM that has been sent and not yet served, and the CPU time of the turns
    that ended since the last refill. *)
Record State := mkState {
  enforcer : CpuEnforcer;
  clock : Z;
  timer : option Z;
  signal : bool;
  used : Z
}.

Inductive label :=
| LBegin
| LRun (d : Z)       (* the thread spends [d] of CPU time *)
| LSignal            (* the signal thread serves SIGALRM *)
| LEnd
| LRefill.

Definition in_turn (s : State) : bool :=
  match turn_started (enforcer s) with Some _ => true | None => false end.

(** The CPU time of the turn that runs. *)
Definition running (s : State) : Z :=
  match turn_started (enforcer s) with Some started => clock s - started | None => 0 end.

Definition fires (timer : option Z) (now : Z) : bool :=
  match timer with Some at_ => at_ <=? now | None => false end.

Definition exec (s : State) (l : label) : option State :=
  match l with
  | LBegin =>
      if in_turn s then None
      else Some (mkState (begin_turn (enforcer s) (Some (clock s))) (clock s)
                   (set (clock s) (arm (remaining (enforcer s)))) (signal s) (used s))
  | LRun d =>
      if d <? 0 then None
      else
        let now := clock s + d in
        if fires (timer s) now
        then Some (mkState (enforcer s) now None true (used s))
        else Some (mkState (enforcer s) now (timer s) (signal s) (used s))
  | LSignal =>
      if signal s
      then Some (mkState (mkEnforcer (budget (enforcer s)) (remaining (enforcer s))
                            (turn_started (enforcer s)) true)
                   (clock s) (timer s) false (used s))
      else None
  | LEnd =>
      if in_turn s
      then Some (mkState (end_turn (enforcer s) (Some (clock s))) (clock s) (set (clock s) 0) (signal s)
                   (used s + running s))
      else None
  | LRefill =>
      if in_turn s then None
      else Some (mkState (refill (enforcer s)) (clock s) (timer s) (signal s)
                   (if terminated (enforcer s) then used s else 0))
  end.

Definition initial (timeout_ms now : Z) : option State :=
  e ← new timeout_ms (Some now) true; Some (mkState e now None false 0).

Definition step (s s' : State) : Prop := exists l, exec s l = Some s'.

(** ** Invariant *)

Record cpu_wf (s : State) : Prop := {
  wf_budget : 0 < budget (enforcer s);
  wf_used : 0 <= used s;
  wf_remaining : remaining (enforcer s) = Z.max 0 (budget (enforcer s) - used s);
  wf_started : forall b, turn_started (enforcer s) = Some b -> b <= clock s;
  wf_idle : turn_started (enforcer s) = None -> timer s = None;
  wf_spent : used s >= budget (enforcer s) -> terminated (enforcer s) = true;
  wf_timer : forall b, turn_started (enforcer s) = Some b ->
    match timer s with
    | Some f => f = b + arm (remaining (enforcer s)) /\ clock s < f
    | None => signal s = true \/ terminated (enforcer s) = true
    end;
  wf_signal : signal s = true -> used s + running s >= budget (enforcer s);
  wf_terminated : terminated (enforcer s) = true -> used s + running s >= budget (enforcer s)
}.

Lemma cpu_exec_wf s l s' : cpu_wf s -> exec s l = Some s' -> cpu_wf s'.
Proof.
  destruct s as [[bud rem ts term] clk tm sig us]. intros [Hb Hu Hr Hst Hid Hsp Htm Hsg Htr] H.
  unfold running, in_turn in *. simpl in *. destruct l; simpl in H.
  - destruct ts as [b|]; simplify_eq/=. rewrite (Hid eq_refl) in *.
    split; unfold running; simpl; try done.
    + intros b [= <-]. lia.
    + intros b [= <-]. unfold set, arm.
      match goal with |- context [?x =? 0] => destruct (Z.eqb_spec x 0) end; lia.
    + intros Hs. specialize (Hsg Hs). lia.
    + intros Ht. specialize (Htr Ht). lia.
  - destruct (d <? 0) eqn:Hd; [done|]. apply Z.ltb_ge in Hd.
    destruct (fires tm (clk + d)) eqn:Hf; simplify_eq/=.
    + destruct tm as [f|]; [|done]. simpl in Hf. apply Z.leb_le in Hf.
      destruct ts as [b|]; [|by discriminate (Hid eq_refl)]. destruct (Htm b eq_refl) as [-> _].
      specialize (Hst b eq_refl). unfold arm in Hf.
      split; unfold running; simpl; try done.
      * intros b' [= <-]. lia.
      * intros _ _. by left.
      * intros _. lia.
      * intros Ht. specialize (Htr Ht). lia.
    + split; unfold running; simpl; try done.
      * intros b ->. specialize (Hst b eq_refl). lia.
      * intros b ->. specialize (Htm b eq_refl). destruct tm as [f|]; [|done].
        simpl in Hf. apply Z.leb_gt in Hf. destruct Htm. split; [done|lia].
      * intros Hs. specialize (Hsg Hs). destruct ts; lia.
      * intros Ht. specialize (Htr Ht). destruct ts; lia.
  - destruct sig; simplify_eq/=. split; unfold running; simpl; try done.
    intros b Hb'. specialize (Htm b Hb'). destruct tm; [done|by right].
  - destruct ts as [b|]; simplify_eq/=. specialize (Hst b eq_refl).
    split; unfold running; simpl; unfold saturating_sub; try done; try lia.
    + intros Hs. specialize (Hsg Hs). lia.
    + intros [Ht|Hz]%orb_true_iff; [specialize (Htr Ht); lia|]. apply Z.eqb_eq in Hz. lia.
  - destruct ts as [b|]; simplify_eq/=. unfold refill. simpl.
    destruct term; simpl; split; unfold running; simpl; try done; try lia.
    intros Hs. specialize (Hsg Hs). assert (false = true); [apply Hsp; lia|done].
Qed.

Definition reach (timeout_ms now : Z) : State -> Prop :=
  reachable (fun s => initial timeout_ms now = Some s) step.

Lemma cpu_reach_wf timeout_ms now s : 0 < timeout_ms -> reach timeout_ms now s -> cpu_wf s.
Proof.
  intros Ht. apply reachable_invariant.
  - intros s0 H. unfold initial, new in H. destruct (Z.eqb_spec timeout_ms 0); [lia|].
    simplify_option_eq. split; unfold running; simpl; done || lia.
  - intros s1 s2 Hs [l Hl]. by eapply cpu_exec_wf.
Qed.

(** C25: the budget is counted exactly: a request is terminated only when the CPU
    time of its own turns since the last refill has reached its budget, and
    it is terminated as soon as the turns that ended have spent it. *)
Theorem cpu_budget_is_exact timeout_ms now s :
  0 < timeout_ms -> reach timeout_ms now s ->
  (terminated (enforcer s) = true -> used s + running s >= budget (enforcer s)) /\
  (used s >= budget (enforcer s) -> terminated (enforcer s) = true) /\
  remaining (enforcer s) = Z.max 0 (budget (enforcer s) - used s).
Proof.
  intros Ht Hs. destruct (cpu_reach_wf _ _ _ Ht Hs) as [_ _ Hr _ _ Hsp _ _ Htr].
  split_and!; done.
Qed.

(** A turn that never yields is cut: once the CPU time of a request is a
    microsecond past its budget, it is terminated or the signal that terminates
    it has been sent. *)
Theorem cpu_overrun_is_cut timeout_ms now s :
  0 < timeout_ms -> reach timeout_ms now s -> in_turn s = true ->
  used s + running s >= budget (enforcer s) + 1000 ->
  signal s = true \/ terminated (enforcer s) = true.
Proof.
  intros Ht Hs Hin Hover. destruct (cpu_reach_wf _ _ _ Ht Hs) as [Hb Hu Hr Hst _ Hsp Htm _ _].
  destruct (decide (used s >= budget (enforcer s))); [right; by apply Hsp|].
  unfold in_turn, running in *. destruct (turn_started (enforcer s)) as [b|]; [|done].
  specialize (Htm b eq_refl). destruct (timer s) as [f|]; [|done]. destruct Htm as [-> Hlt].
  unfold arm in Hlt. lia.
Qed.

(** A request with 50 ms loops without end in its first turn. *)
Definition looping : State :=
  mkState (mkEnforcer 50000000 50000000 (Some 3) false) 50002003 None true 0.

Lemma looping_reach : reach 50 3 looping.
Proof.
  eexists. split; [reflexivity|]. eapply rtc_l; [by exists LBegin|].
  eapply rtc_l; [by exists (LRun 50002000)|]. apply rtc_refl.
Qed.

Lemma cpu_budget_is_exact_witness :
  (false = true -> used looping + running looping >= 50000000) /\
  (used looping >= 50000000 -> false = true) /\
  50000000 = Z.max 0 (50000000 - used looping).
Proof. exact (cpu_budget_is_exact 50 3 looping ltac:(lia) looping_reach). Defined.

Lemma cpu_overrun_is_cut_witness : signal looping = true \/ terminated (enforcer looping) = true.
Proof.
  exact (cpu_overrun_is_cut 50 3 looping ltac:(lia) looping_reach eq_refl ltac:(vm_compute; congruence)).
Defined.

End Cpu.
