(* ===== verification/CpuWatchdog.v ===== *)
(** * The CPU watchdog of macOS (src/src/security/cpu_enforcer.rs, [mod macos])

    The check of a slot, and the protocol by which the watchdog parks when
    nothing is armed: one atomic action of a thread at a time, with the lock
    [wake_lock] held where the code holds it. *)

From stdpp Require Import base list relations.
From Stdlib Require Import ZArith Lia.
From S2P Require Import Prelude Cpu.

Module CpuWatchdog.

(** ** Slots *)

(** [Armed], less its target: microseconds. *)
Record Armed := mkArmed { start : Z; budget : Z }.

(** A slot: what is armed, whether its request is terminated and whether its
    turn was asked to terminate, and its failed readings. *)
Record Slot := mkSlot {
  armed : option Armed;
  terminated : bool;
  turn_terminated : bool;
  errors : Z
}.

(** [macos::arm]: nanoseconds to microseconds. *)
Definition arm (s : Slot) (start_ns budget_ns : Z) : Slot :=
  mkSlot (Some (mkArmed (start_ns / 1000) (budget_ns / 1000))) (terminated s) (turn_terminated s)
    (errors s).

(** [macos::disarm] *)
Definition disarm (s : Slot) : Slot := mkSlot None (terminated s) (turn_terminated s) (errors s).

(** [Target::new]: without a watchdog the request starts terminated. *)
Definition target_new (alive : bool) : Slot := mkSlot None (negb alive) false 0.

(** [cpu_time_or_code], given the code and the times of [thread_info]. *)
Definition cpu_time_or_code (code : Z) (user_s user_us sys_s sys_us : Z) : result Z Z :=
  if (code =? 0)%Z
  then Ok (Z.max user_s 0 * 1000000 + Z.max user_us 0 + (Z.max sys_s 0 * 1000000 + Z.max sys_us 0))%Z
  else Err code.

(** [check]: whether the slot is armed, and the slot after it. *)
Definition check (s : Slot) (reading : result Z Z) : bool * Slot :=
  match armed s with
  | None => (false, s)
  | Some a =>
      match reading with
      | Ok now =>
          if ((budget a <=? Cpu.saturating_sub now (start a))%Z && negb (terminated s))
          then (true, mkSlot (armed s) true true (errors s))
          else (true, s)
      | Err _ => (true, mkSlot (armed s) (terminated s) (turn_terminated s) (wrap_u64 (errors s + 1)))
      end
  end.

(** The check of a slot terminates a turn exactly when it has spent its
    budget and was not terminated before; a reading that fails cuts nothing. *)
Theorem check_cuts_spent_turns s reading :
  let (was_armed, s') := check s reading in
  (was_armed = true <-> is_Some (armed s)) /\ armed s' = armed s /\
  (terminated s' = true <-> terminated s = true \/
     exists a now, armed s = Some a /\ reading = Ok now /\
       (budget a <= Z.max 0 (now - start a))%Z) /\
  (terminated s = true -> turn_terminated s' = turn_terminated s).
Proof.
  unfold check, Cpu.saturating_sub. destruct s as [[a|] term tt e]; simpl.
  - destruct reading as [now|code]; simpl.
    + destruct (Z.leb_spec (budget a) (Z.max 0 (now - start a))) as [Hle|Hgt]; destruct term; simpl;
        split_and!; try done; try (by split; eauto).
      * split; [intros _; right; eauto|done].
      * split; [done|]. intros [?|(a' & now' & [= <-] & [= <-] & ?)]; [done|lia].
    + split_and!; [by split; eauto|done| |done]. split; [by left|].
      intros [?|(a' & now' & _ & ? & _)]; done.
  - split_and!; [split; [done|by intros [? ?]]|done| |done]. split; [by left|].
    intros [?|(a' & now' & ? & _)]; done.
Qed.

(** ** Parking *)

(** A worker thread: at rest, past the store of its slot, past the load of
    [parked] that answered true, and inside its turn. *)
Inductive worker := Resting | Stored | Waking | InTurn.

(** The watchdog: between two ticks; with [wake_lock] held, looking at slot
    [next]; waiting on the condition variable; and leaving the park. *)
Inductive watch := Ticking (idle : Z) | Checking (next : nat) | Waiting | Leaving.

Record State := mkState {
  slots : list bool;      (* armed or not *)
  workers : list worker;
  watchdog : watch;
  parked : bool
}.

Definition IDLE_TICKS : Z := 100.

Definition initial (n : nat) : State :=
  mkState (replicate n false) (replicate n Resting) (Ticking 0) false.

(** [wake_lock] is free unless the watchdog looks at the slots. *)
Definition lock_free (s : State) : bool :=
  match watchdog s with Checking _ => false | _ => true end.

Inductive label :=
| LArm (i : nat)         (* [arm]: the slot *)
| LLoad (i : nat)        (* [arm]: [parked.load()] *)
| LNotify (i : nat)      (* [arm]: [wake_lock] and [notify_one] *)
| LDisarm (i : nat)
| LTick (found : bool)   (* one tick, which found an armed slot or not *)
| LPark                  (* [wake_lock], [parked.store(true)] *)
| LLook                  (* the slot [next], or the end of the slots *)
| LSpurious              (* a wait may end by itself *)
| LLeave.                (* [parked.store(false)] *)

Definition set_worker (s : State) (i : nat) (w : worker) : State :=
  mkState (slots s) (<[i := w]> (workers s)) (watchdog s) (parked s).

Definition set_watch (s : State) (w : watch) : State :=
  mkState (slots s) (workers s) w (parked s).

Definition exec (s : State) (l : label) : option State :=
  match l with
  | LArm i =>
      match workers s !! i with
      | Some Resting =>
          Some (mkState (<[i := true]> (slots s)) (<[i := Stored]> (workers s)) (watchdog s) (parked s))
      | _ => None
      end
  | LLoad i =>
      match workers s !! i with
      | Some Stored => Some (set_worker s i (if parked s then Waking else InTurn))
      | _ => None
      end
  | LNotify i =>
      match workers s !! i with
      | Some Waking =>
          if lock_free s
          then Some (set_worker (match watchdog s with
                                 | Waiting => set_watch s Leaving
                                 | _ => s
                                 end) i InTurn)
          else None
      | _ => None
      end
  | LDisarm i =>
      match workers s !! i with
      | Some InTurn =>
          Some (mkState (<[i := false]> (slots s)) (<[i := Resting]> (workers s)) (watchdog s) (parked s))
      | _ => None
      end
  | LTick found =>
      match watchdog s with
      | Ticking idle =>
          if (IDLE_TICKS <=? idle)%Z then None
          else Some (set_watch s (Ticking (if found then 0 else idle + 1)%Z))
      | _ => None
      end
  | LPark =>
      match watchdog s with
      | Ticking idle =>
          if (IDLE_TICKS <=? idle)%Z
          then Some (mkState (slots s) (workers s) (Checking 0) true)
          else None
      | _ => None
      end
  | LLook =>
      match watchdog s with
      | Checking next =>
          match slots s !! next with
          | Some true => Some (set_watch s Leaving)
          | Some false => Some (set_watch s (Checking (S next)))
          | None => Some (set_watch s Waiting)
          end
      | _ => None
      end
  | LSpurious => match watchdog s with Waiting => Some (set_watch s Leaving) | _ => None end
  | LLeave =>
      match watchdog s with
      | Leaving => Some (mkState (slots s) (workers s) (Ticking 0) false)
      | _ => None
      end
  end.

Definition step (s s' : State) : Prop := exists l, exec s l = Some s'.
Definition reach (n : nat) : State -> Prop := reachable (eq (initial n)) step.

(** The slots the watchdog has found free while it parks. *)
Definition seen (s : State) (i : nat) : Prop :=
  match watchdog s with Checking next => i < next | Waiting => True | _ => False end.

Record park_wf (s : State) : Prop := {
  wf_length : length (workers s) = length (slots s);
  wf_parked : parked s = match watchdog s with Ticking _ => false | _ => true end;
  wf_slots : forall i w b, workers s !! i = Some w -> slots s !! i = Some b ->
    b = match w with Resting => false | _ => true end;
  wf_seen : forall i w, seen s i -> workers s !! i = Some w -> w <> InTurn
}.

Lemma park_exec_wf s l s' : park_wf s -> exec s l = Some s' -> park_wf s'.
Proof.
  intros [Hl Hp Hs Hse] H.
  assert (forall i w w0 b, workers s !! i = Some w0 -> b = match w with Resting => false | _ => true end ->
    forall j w' b', <[i := w]> (workers s) !! j = Some w' -> <[i := b]> (slots s) !! j = Some b' ->
    b' = match w' with Resting => false | _ => true end) as Hboth.
  { intros i w w0 b Hi Hb j w' b' Hw' Hb'. apply list_lookup_insert_Some in Hw' as [(<- & <- & Hlt)|(Hne & Hw')].
    - rewrite list_lookup_insert_eq in Hb' by lia. congruence.
    - rewrite list_lookup_insert_ne in Hb' by done. eauto. }
  assert (forall i w w0, workers s !! i = Some w0 -> w0 <> Resting -> w <> Resting ->
    forall j w' b', <[i := w]> (workers s) !! j = Some w' -> slots s !! j = Some b' ->
    b' = match w' with Resting => false | _ => true end) as Hone.
  { intros i w w0 Hi Hr Hr' j w' b' Hw' Hb'. apply list_lookup_insert_Some in Hw' as [(<- & <- & Hlt)|(Hne & Hw')].
    - rewrite (Hs _ _ _ Hi Hb'). by destruct w0, w.
    - eauto. }
  assert (forall i w, (w = InTurn -> ~ seen s i) -> forall j w', seen s j ->
    <[i := w]> (workers s) !! j = Some w' -> w' <> InTurn) as Hseen.
  { intros i w Hw j w' Hj Hw'. apply list_lookup_insert_Some in Hw' as [(<- & <- & _)|(_ & Hw')]; [|eauto].
    intros ->. by apply Hw. }
  destruct l; simpl in H; step_cases H.
  - split; simpl; rewrite ?length_insert; [done|done|by eapply Hboth|]. by apply Hseen.
  - split; simpl; rewrite ?length_insert; [done|done|eapply Hone; eauto; by destruct (parked s)|].
    apply Hseen. rewrite Hp. unfold seen. destruct (watchdog s); naive_solver.
  - destruct (watchdog s) eqn:Ew; simpl in *; unfold lock_free in *; rewrite Ew in *; try done;
      (split; simpl; rewrite ?length_insert, ?Ew; [done|done|by eapply Hone|]);
      unfold seen; simpl; rewrite ?Ew; try done.
  - split; simpl; rewrite ?length_insert; [done|done|by eapply Hboth|]. by apply Hseen.
  - split; simpl; try done.
  - split; simpl; try done. intros i w Hi. unfold seen in Hi. simpl in Hi. lia.
  - split; simpl; try done.
  - split; simpl; try done. intros i w Hi Hw ->. unfold seen in Hi, Hse. simpl in Hi.
    rewrite Heqw in Hse. destruct (decide (i = next)) as [->|Hne]; [|by eapply (Hse i); [lia|..]].
    by discriminate (Hs _ _ _ Hw Heqo).
  - split; simpl; try done. intros i w _ Hw ->. unfold seen in Hse. rewrite Heqw in Hse.
    apply lookup_ge_None in Heqo. apply lookup_lt_Some in Hw as Hlt.
    by eapply (Hse i); [lia|..].
  - split; simpl; try done.
  - split; simpl; done.
Qed.

Lemma park_reach_wf n s : reach n s -> park_wf s.
Proof.
  apply reachable_invariant.
  - intros ? <-. split; simpl; try done.
    + by rewrite !length_replicate.
    + intros i w b [-> _]%lookup_replicate [-> _]%lookup_replicate. done.
  - intros s1 s2 Hs [l Hl]. by eapply park_exec_wf.
Qed.

(** No turn runs unwatched: while the watchdog waits on its condition
    variable, no worker is inside a turn; one that has armed its slot still has
    the wake-up ahead of it, and it will see the watchdog parked. *)
Theorem parked_watchdog_misses_no_turn n s i w :
  reach n s -> watchdog s = Waiting -> workers s !! i = Some w ->
  w <> InTurn /\ parked s = true /\ (slots s !! i = Some true -> w = Stored \/ w = Waking).
Proof.
  intros Hr Hw Hi. destruct (park_reach_wf n s Hr) as [_ Hp Hs Hse]. rewrite Hw in Hp.
  assert (w <> InTurn) as Hn. { eapply Hse; [|exact Hi]. unfold seen. by rewrite Hw. }
  split_and!; [done|done|]. intros Hb. specialize (Hs _ _ _ Hi Hb). destruct w; naive_solver.
Qed.

(** A turn begins after its slot was seen free and before the watchdog waits. *)
Definition late_trace : list label :=
  replicate 100 (LTick false) ++ [LPark; LLook; LArm 0; LLoad 0; LLook].

Definition late : State := mkState [true] [Waking] Waiting true.

Lemma parked_watchdog_misses_no_turn_witness :
  Waking <> InTurn /\ parked late = true /\ (Some true = Some true -> Waking = Stored \/ Waking = Waking).
Proof.
  refine (parked_watchdog_misses_no_turn 1 late 0 Waking _ eq_refl eq_refl).
  apply (run_steps_reachable exec (eq (initial 1)) (initial 1) late_trace); [reflexivity|vm_compute; reflexivity].
Defined.

End CpuWatchdog.
