(* ===== verification/SignalTimers.v ===== *)
(** * The timers of the CPU limit on Linux (src/src/security/cpu_enforcer.rs, [linux])

    The registry that leads from the signal of a POSIX timer to the request it stops:
    keys, targets, the timers of the kernel and the signal thread, with the signals
    between them. What a termination does to the isolate is in Guards.v; how a budget is
    counted is in Cpu.v. A signal carries the key of its timer and may be lost; the
    thread handles signals in any order, while timers are made, armed and dropped by the
    threads that run turns. *)

From stdpp Require Import base list gmap.
From Stdlib Require Import ZArith Lia.
From S2P Require Import Prelude.

Module SignalTimers.

(** [Target]: the turn and the request to stop, and the flag of the enforcer, named by
    the key of its timer. *)
Record Target := mkTarget { turn : nat; request : Z; terminated : nat }.

(** The timers of the kernel that exist, with whether they are armed; the registry; the
    flags of the enforcers, by key; the signals on their way; what the signal thread
    holds between its lookup and the end of its round. [fired], [stopped] and [made]
    record the timers that expired, the terminations and every target. *)
Record State := mkState {
  next_key : nat;
  timers : gmap nat bool;
  targets : gmap nat Target;
  flags : gmap nat bool;
  signals : list nat;
  holding : option Target;
  fired : gset nat;
  stopped : list (nat * Z);
  made : gmap nat Target
}.

Definition initial : State := mkState 1 ∅ ∅ ∅ [] None ∅ [] ∅.

(** [Timer::new]: a key is taken also if [timer_create] fails. *)
Definition timer_new (s : State) (t : nat) (r : Z) (created : bool) : State :=
  let key := next_key s in
  let target := mkTarget t r key in
  if created then
    mkState (S key) (<[key := false]> (timers s)) (<[key := target]> (targets s)) (<[key := false]> (flags s))
      (signals s) (holding s) (fired s) (stopped s) (<[key := target]> (made s))
  else mkState (S key) (timers s) (targets s) (flags s) (signals s) (holding s) (fired s) (stopped s) (made s).

(** [arm] and [disarm]: [timer_settime]. *)
Definition set_timer (s : State) (key : nat) (armed : bool) : option State :=
  _ ← timers s !! key;
  Some (mkState (next_key s) (<[key := armed]> (timers s)) (targets s) (flags s) (signals s) (holding s)
          (fired s) (stopped s) (made s)).

(** [Drop]: [timer_delete] and [unregister]; a signal already sent stays. *)
Definition timer_drop (s : State) (key : nat) : option State :=
  _ ← timers s !! key;
  Some (mkState (next_key s) (delete key (timers s)) (delete key (targets s)) (flags s) (signals s) (holding s)
          (fired s) (stopped s) (made s)).

(** The timer expires: one shot. *)
Definition expire (s : State) (key : nat) : option State :=
  match timers s !! key with
  | Some true =>
      Some (mkState (next_key s) (<[key := false]> (timers s)) (targets s) (flags s) (signals s ++ [key])
              (holding s) ({[key]} ∪ fired s) (stopped s) (made s))
  | _ => None
  end.

(** [signal_thread], up to the lookup; without a target it goes on. *)
Definition take_signal (s : State) (i : nat) : option State :=
  match holding s with
  | Some _ => None
  | None =>
      key ← signals s !! i;
      Some (mkState (next_key s) (timers s) (targets s) (flags s) (delete i (signals s)) (targets s !! key)
              (fired s) (stopped s) (made s))
  end.

(** The rest of its round: the swap, and the termination by whoever set the flag first. *)
Definition stop (s : State) : option State :=
  t ← holding s;
  let was := default false (flags s !! terminated t) in
  Some (mkState (next_key s) (timers s) (targets s) (<[terminated t := true]> (flags s)) (signals s) None
          (fired s) (if was then stopped s else stopped s ++ [(turn t, request t)]) (made s)).

(** [end_turn] finds the budget spent. *)
Definition spend (s : State) (key : nat) : option State :=
  _ ← timers s !! key;
  Some (mkState (next_key s) (timers s) (targets s) (<[key := true]> (flags s)) (signals s) (holding s)
          (fired s) (stopped s) (made s)).

Inductive label :=
| LNew (t : nat) (r : Z) (created : bool)
| LSet (key : nat) (armed : bool)
| LDrop (key : nat)
| LExpire (key : nat)
| LLose (i : nat)
| LTake (i : nat)
| LStop
| LSpend (key : nat).

Definition exec (s : State) (l : label) : option State :=
  match l with
  | LNew t r created => Some (timer_new s t r created)
  | LSet key armed => set_timer s key armed
  | LDrop key => timer_drop s key
  | LExpire key => expire s key
  | LLose i =>
      _ ← signals s !! i;
      Some (mkState (next_key s) (timers s) (targets s) (flags s) (delete i (signals s)) (holding s)
              (fired s) (stopped s) (made s))
  | LTake i => take_signal s i
  | LStop => stop s
  | LSpend key => spend s key
  end.

Definition step (s s' : State) : Prop := exists l, exec s l = Some s'.
Definition reach : State -> Prop := reachable (eq initial) step.

(** ** Properties *)

(** How often the terminations recorded name the target of [key]: since two timers may
    be for the same request, terminations are counted by the flags they set. *)
Record wf (s : State) : Prop := {
  wf_targets key t : targets s !! key = Some t -> made s !! key = Some t;
  wf_fresh key : next_key s <= key -> made s !! key = None /\ timers s !! key = None /\ key ∉ fired s;
  wf_made key t : made s !! key = Some t -> terminated t = key;
  wf_signals key : key ∈ signals s -> key ∈ fired s;
  wf_holding t : holding s = Some t -> made s !! terminated t = Some t /\ terminated t ∈ fired s;
  wf_fired key : key ∈ fired s -> is_Some (made s !! key);
  wf_stopped : exists keys, NoDup keys /\
    Forall2 (fun key p => exists t, made s !! key = Some t /\ p = (turn t, request t)) keys (stopped s) /\
    forall key, key ∈ keys -> key ∈ fired s /\ flags s !! key = Some true;
  wf_timers key : is_Some (timers s !! key) -> is_Some (made s !! key);
  wf_flags key : is_Some (flags s !! key) <-> is_Some (made s !! key)
}.

Lemma signals_wf_initial : wf initial.
Proof.
  constructor; simpl; try done; try (intros *; rewrite ?lookup_empty; set_solver).
  exists []. split_and!; [constructor|constructor|set_solver].
Qed.

Lemma delete_elem {A} (l : list A) i x : x ∈ delete i l -> x ∈ l.
Proof.
  rewrite delete_take_drop. intros H. rewrite <-(take_drop i l).
  apply elem_of_app in H as [H|H]; apply elem_of_app; [by left|right].
  destruct (drop i l) as [|y l'] eqn:E; [|].
  - assert (drop (S i) l = []) as E'; [|by rewrite E' in H].
    apply (f_equal (drop 1)) in E. by rewrite drop_drop, Nat.add_1_r in E.
  - apply (f_equal (drop 1)) in E. rewrite drop_drop, Nat.add_1_r in E. simpl in E. rewrite drop_0 in E. rewrite E in H. set_solver.
Qed.

(** The terminations so far, kept by a step that makes targets and sets flags. *)
Lemma stopped_kept s (made' : gmap nat Target) (fired' : gset nat) (flags' : gmap nat bool) :
  wf s -> (forall key t, made s !! key = Some t -> made' !! key = Some t) ->
  fired s ⊆ fired' -> (forall key, flags s !! key = Some true -> flags' !! key = Some true) ->
  exists keys, NoDup keys /\
    Forall2 (fun key p => exists t, made' !! key = Some t /\ p = (turn t, request t)) keys (stopped s) /\
    forall key, key ∈ keys -> key ∈ fired' /\ flags' !! key = Some true.
Proof.
  intros H Hm Hf Hfl. destruct (wf_stopped _ H) as (keys & Hnd & H2 & Hk). exists keys. split_and!; [done| |].
  - eapply Forall2_impl; [exact H2|]. intros key p (t & ? & ?). eauto.
  - intros key [? ?]%Hk. split; [set_solver|auto].
Qed.

Lemma wf_new s t r created : wf s -> wf (timer_new s t r created).
Proof.
  intros H. destruct (wf_fresh _ H (next_key s) (le_n _)) as (Hm & Ht & Hf).
  assert (forall key x, made s !! key = Some x -> key <> next_key s) as Hne by (intros key x Hx ->; congruence).
  assert (flags s !! next_key s = None) as Hfl.
  { apply eq_None_not_Some. intros Hs%(wf_flags _ H). rewrite Hm in Hs. by destruct Hs. }
  unfold timer_new. destruct created.
  - constructor; simpl.
    + intros key x [[<- <-]|[? Hx]]%lookup_insert_Some; [by rewrite lookup_insert_eq|].
      rewrite lookup_insert_ne by done. by apply (wf_targets _ H).
    + intros key Hk. rewrite !lookup_insert_ne by lia. apply (wf_fresh _ H). lia.
    + intros key x [[<- <-]|[? Hx]]%lookup_insert_Some; [done|by apply (wf_made _ H)].
    + apply H.
    + intros x [Hx ?]%(wf_holding _ H). rewrite lookup_insert_ne by (symmetry; by eapply Hne). done.
    + intros key Hk. apply lookup_insert_is_Some'. right. by apply (wf_fired _ H).
    + apply (stopped_kept s); [done| |done|].
      * intros key x Hx. rewrite lookup_insert_ne by (symmetry; by eapply Hne). done.
      * intros key Hx. rewrite lookup_insert_ne; [done|]. intros <-. congruence.
    + intros key. rewrite !lookup_insert_is_Some'. intros [?|?]; [by left|right; by apply (wf_timers _ H)].
    + intros key. rewrite !lookup_insert_is_Some'. by rewrite (wf_flags _ H).
  - constructor; simpl; try apply H. intros key Hk. apply (wf_fresh _ H). lia.
Qed.

(** A step that only drops timers, targets or signals, or arms a timer. *)
Lemma wf_less s (tm : gmap nat bool) (tg : gmap nat Target) (sg : list nat) :
  wf s -> (forall key, is_Some (tm !! key) -> is_Some (timers s !! key)) ->
  (forall key t, tg !! key = Some t -> targets s !! key = Some t) ->
  (forall key, key ∈ sg -> key ∈ signals s) ->
  wf (mkState (next_key s) tm tg (flags s) sg (holding s) (fired s) (stopped s) (made s)).
Proof.
  intros H Htm Htg Hsg. constructor; simpl; try apply H; auto.
  - intros key t Ht. by apply (wf_targets _ H), Htg.
  - intros key Hk. destruct (wf_fresh _ H key Hk) as (? & Ht & ?). split_and!; try done.
    apply eq_None_not_Some. intros Hs%Htm. rewrite Ht in Hs. by destruct Hs.
  - intros key Hk%Hsg. by apply (wf_signals _ H).
  - intros key Hk%Htm. by apply (wf_timers _ H).
Qed.

Lemma wf_stop s s' : wf s -> stop s = Some s' -> wf s'.
Proof.
  intros H. unfold stop. destruct (holding s) as [t|] eqn:Ht; simpl; [|done]. intros [= <-].
  destruct (wf_holding _ H t Ht) as [Hm Hf].
  assert (is_Some (flags s !! terminated t)) as [b Hb] by (apply (wf_flags _ H); by eexists).
  constructor; simpl; try apply H; try done.
  - rewrite Hb. simpl. destruct b.
    + apply (stopped_kept s); [done..|]. intros key Hx. by destruct (decide (terminated t = key)) as [<-|];
        [rewrite lookup_insert_eq|rewrite lookup_insert_ne].
    + destruct (wf_stopped _ H) as (keys & Hnd & H2 & Hk). exists (keys ++ [terminated t]). split_and!.
      * apply NoDup_app. split_and!; [done| |apply NoDup_singleton]. intros x Hx ->%list_elem_of_singleton.
        destruct (Hk _ Hx). congruence.
      * apply Forall2_app; [done|]. repeat constructor. by exists t.
      * intros key [Hin| ->%list_elem_of_singleton]%elem_of_app; [|by rewrite lookup_insert_eq].
        destruct (Hk _ Hin). split; [done|]. rewrite lookup_insert_ne; [done|]. intros <-. congruence.
  - intros key. rewrite lookup_insert_is_Some', (wf_flags _ H). split; [|by right]. intros [<-|?]; [by eexists|done].
Qed.

Lemma wf_exec s l s' : wf s -> exec s l = Some s' -> wf s'.
Proof.
  intros H. destruct l as [t r c|key b|key|key|i|i| |key]; simpl.
  - intros [= <-]. by apply wf_new.
  - unfold set_timer. destruct (timers s !! key) eqn:E; simpl; [|done]. intros [= <-]. apply wf_less; auto.
    intros k. rewrite lookup_insert_is_Some'. intros [<-|?]; [by eexists|done].
  - unfold timer_drop. destruct (timers s !! key) eqn:E; simpl; [|done]. intros [= <-]. apply wf_less; auto.
    + intros k [x Hx]. apply lookup_delete_Some in Hx as [_ ?]. by eexists.
    + intros k t [_ ?]%lookup_delete_Some. done.
  - unfold expire. destruct (timers s !! key) as [[]|] eqn:E; simpl; try done. intros [= <-].
    assert (is_Some (made s !! key)) as Hm by (apply (wf_timers _ H); by eexists).
    constructor; simpl; try apply H; try done.
    + intros k Hk. destruct (wf_fresh _ H k Hk) as (? & Ht & ?).
      assert (k <> key) by (intros ->; congruence). rewrite lookup_insert_ne by done. split_and!; [done..|set_solver].
    + intros k [Hk| ->%list_elem_of_singleton]%elem_of_app; [|set_solver]. apply elem_of_union_r. by apply (wf_signals _ H).
    + intros t Ht. destruct (wf_holding _ H t Ht). split; [done|set_solver].
    + intros k [->%elem_of_singleton|Hk]%elem_of_union; [done|by apply (wf_fired _ H)].
    + apply (stopped_kept s); [done|done|set_solver|done].
    + intros k. rewrite lookup_insert_is_Some'. intros [<-|?]; [done|by apply (wf_timers _ H)].
  - destruct (signals s !! i) eqn:E; simpl; [|done]. intros [= <-]. apply wf_less; auto. intros key. apply delete_elem.
  - unfold take_signal. destruct (holding s) eqn:Eh; [done|]. destruct (signals s !! i) as [key|] eqn:E; simpl; [|done].
    intros [= <-]. constructor; simpl; try apply H.
    + intros k Hk%delete_elem. by apply (wf_signals _ H).
    + intros t Ht. pose proof (wf_targets _ H key t Ht) as Hm. rewrite (wf_made _ H key t Hm). split; [done|].
      apply (wf_signals _ H). by eapply list_elem_of_lookup_2.
  - by apply wf_stop.
  - unfold spend. destruct (timers s !! key) eqn:E; simpl; [|done]. intros [= <-].
    assert (is_Some (made s !! key)) as Hm by (apply (wf_timers _ H); by eexists).
    constructor; simpl; try apply H; try done.
    + apply (stopped_kept s); [done..|]. intros k Hk. by destruct (decide (key = k)) as [<-|];
        [rewrite lookup_insert_eq|rewrite lookup_insert_ne].
    + intros k. rewrite lookup_insert_is_Some', (wf_flags _ H). split; [|by right]. intros [<-|?]; done.
Qed.

Lemma reach_wf s : reach s -> wf s.
Proof.
  apply reachable_invariant; [intros ? <-; apply signals_wf_initial|]. intros s1 s2 H (l & E). by eapply wf_exec.
Qed.

(** C36: A signal of the CPU limit stops the request whose timer sent it, once. Each
    termination belongs to a timer of its own, which expired while it was armed, and goes
    to the turn and the request this timer was made for, whatever signals are lost or
    come late, and however many timers were made and dropped in between; a request that
    was ended at its turn's end is not terminated again. *)
Theorem signals_stop_their_own_request s :
  reach s ->
  exists keys, NoDup keys /\
    Forall2 (fun key p => exists t, made s !! key = Some t /\ p = (turn t, request t)) keys (stopped s) /\
    forall key, key ∈ keys -> key ∈ fired s /\ flags s !! key = Some true.
Proof. intros H%reach_wf. apply (wf_stopped _ H). Qed.

(** Two requests on one turn: the first expires, is dropped and its signal comes late; the
    second is stopped. *)
Definition demo : list label :=
  [LNew 0 7%Z true; LSet 1 true; LExpire 1; LDrop 1; LNew 0 8%Z false; LNew 0 9%Z true; LSet 3 true; LTake 0;
   LExpire 3; LTake 0; LStop].

Lemma signals_stop_their_own_request_witness :
  exists s, run_steps exec initial demo = Some s /\ stopped s = [(0, 9%Z)] /\
    exists keys, NoDup keys /\
    Forall2 (fun key p => exists t, made s !! key = Some t /\ p = (turn t, request t)) keys (stopped s) /\
    forall key, key ∈ keys -> key ∈ fired s /\ flags s !! key = Some true.
Proof.
  eexists. split; [vm_compute; reflexivity|]. split; [vm_compute; reflexivity|].
  apply signals_stop_their_own_request.
  eapply (run_steps_reachable exec (eq initial) initial demo); [done|]. vm_compute. reflexivity.
Defined.

End SignalTimers.
