(* ===== verification/CpuSlots.v ===== *)
(** * The slots of the CPU watchdog (src/src/security/cpu_enforcer.rs, [mod macos])

    Each thread that runs turns has a slot, made on its first turn with the Mach port of
    the thread and dropped with it. The watchdog has weak references to the slots: at each
    tick it takes strong ones, reads the CPU time of the armed slots by their ports and
    lets go of them. A port is given back when its slot is dropped, by whichever thread
    drops it last, and the kernel may then use its name for another one. How a slot is
    checked and how the watchdog parks is in CpuWatchdog.v. *)

From stdpp Require Import base list gmap.
From Stdlib Require Import Lia.
From S2P Require Import Prelude.

Module CpuSlots.

(** [Armed], by the request it stops; [Slot] *)
Record Slot := mkSlot { port : nat; armed : option nat }.

(** The threads that live, with their [SLOT]; the slots that exist; the weak references of
    the watchdog; the strong ones it holds in a tick, with those still to check; the
    slot each port name stands for. [terminated] are the requests whose flag is set, and
    [stopped] the terminations with the slot they came from; [arms] records every arming. *)
Record State := mkState {
  threads : gmap nat (option nat);
  slots : gmap nat Slot;
  next : nat;
  weak : list nat;
  held : list nat;
  todo : list nat;
  ports : gmap nat nat;
  terminated : gset nat;
  stopped : list (nat * nat);
  arms : list (nat * nat)
}.

Definition initial : State := mkState ∅ ∅ 0 [] [] [] ∅ ∅ [] [].

Inductive outcome := Undefined | Next (s : State).

(** [Arc::strong_count] is not zero. *)
Definition owned (s : State) (i : nat) : bool :=
  existsb (fun t => bool_decide (snd t = Some i)) (map_to_list (threads s)).
Definition strong (s : State) (i : nat) : bool := owned s i || bool_decide (i ∈ held s).

Arguments strong : simpl never.

Definition set_slots (s : State) (l : gmap nat Slot) (p : gmap nat nat) : State :=
  mkState (threads s) l (next s) (weak s) (held s) (todo s) p (terminated s) (stopped s) (arms s).

(** [Drop for Slot]: [mach_port_deallocate] of a name that is not its own is a fault. *)
Definition slot_drop (s : State) (i : nat) : outcome :=
  match slots s !! i with
  | None => Undefined
  | Some x => if bool_decide (ports s !! port x = Some i)
              then Next (set_slots s (delete i (slots s)) (delete (port x) (ports s))) else Undefined
  end.

(** An [Arc] to the slot goes away. *)
Definition release (s : State) (i : nat) : outcome := if strong s i then Next s else slot_drop s i.

Fixpoint release_all (s : State) (l : list nat) : outcome :=
  match l with
  | [] => Next s
  | i :: l => match release s i with Undefined => Undefined | Next s => release_all s l end
  end.

(** [slot]: the one of the thread, or a new one with the port [p] of [mach_thread_self],
    a name that is free. *)
Definition slot_of (s : State) (t : nat) (p : nat) : option (nat * State) :=
  mine ← threads s !! t;
  match mine, ports s !! p with
  | Some i, _ => Some (i, s)
  | None, None =>
      Some (next s,
        mkState (<[t := Some (next s)]> (threads s)) (<[next s := mkSlot p None]> (slots s)) (S (next s))
          (weak s ++ [next s]) (held s) (todo s) (<[p := next s]> (ports s)) (terminated s) (stopped s) (arms s))
  | None, Some _ => None
  end.

Definition set_armed (s : State) (i : nat) (a : option nat) : State :=
  set_slots s (alter (fun x => mkSlot (port x) a) i (slots s)) (ports s).

Inductive label :=
| LThread (t : nat)               (* a thread starts *)
| LArm (t p r : nat)              (* [arm] *)
| LDisarm (t : nat)
| LEnd (t : nat)                  (* the thread ends and its [SLOT] is dropped *)
| LCollect                        (* the watchdog cleans its list and takes strong references *)
| LCheck (spent : bool)           (* [check] of the next one *)
| LRelease.                       (* [drop(slots)] *)

Definition exec (s : State) (l : label) : option outcome :=
  match l with
  | LThread t =>
      match threads s !! t with
      | Some _ => None
      | None => Some (Next (mkState (<[t := None]> (threads s)) (slots s) (next s) (weak s) (held s) (todo s) (ports s)
                              (terminated s) (stopped s) (arms s)))
      end
  | LArm t p r =>
      '(i, s) ← slot_of s t p;
      let s := set_armed s i (Some r) in
      Some (Next (mkState (threads s) (slots s) (next s) (weak s) (held s) (todo s) (ports s) (terminated s) (stopped s)
                    (arms s ++ [(i, r)])))
  | LDisarm t =>
      mine ← threads s !! t;
      match mine with None => Some (Next s) | Some i => Some (Next (set_armed s i None)) end
  | LEnd t =>
      mine ← threads s !! t;
      let s := mkState (delete t (threads s)) (slots s) (next s) (weak s) (held s) (todo s) (ports s) (terminated s)
                 (stopped s) (arms s) in
      match mine with None => Some (Next s) | Some i => Some (release s i) end
  | LCollect =>
      match held s with
      | [] => let live := filter (fun i => strong s i = true) (weak s) in
              Some (Next (mkState (threads s) (slots s) (next s) live live live (ports s) (terminated s) (stopped s) (arms s)))
      | _ => None
      end
  | LCheck spent =>
      match todo s with
      | [] => None
      | i :: l =>
          let s := mkState (threads s) (slots s) (next s) (weak s) (held s) l (ports s) (terminated s) (stopped s) (arms s) in
          match slots s !! i with
          | None => Some Undefined
          | Some x =>
              match armed x with
              | None => Some (Next s)
              | Some r =>
                  if bool_decide (ports s !! port x = Some i) then
                    if spent && negb (bool_decide (r ∈ terminated s))
                    then Some (Next (mkState (threads s) (slots s) (next s) (weak s) (held s) l (ports s)
                                       ({[r]} ∪ terminated s) (stopped s ++ [(i, r)]) (arms s)))
                    else Some (Next s)
                  else Some Undefined
              end
          end
      end
  | LRelease =>
      match todo s with
      | [] => let l := held s in
              Some (release_all (mkState (threads s) (slots s) (next s) (weak s) [] [] (ports s) (terminated s) (stopped s)
                                   (arms s)) l)
      | _ => None
      end
  end.

Fixpoint run (s : State) (ls : list label) : option outcome :=
  match ls with
  | [] => Some (Next s)
  | l :: ls => o ← exec s l; match o with Undefined => Some Undefined | Next s => run s ls end
  end.

(** ** Properties *)

(** The invariant, while the references to [pending] still go away. *)
Record wf_with (pending : list nat) (s : State) : Prop := {
  w_live : forall i, is_Some (slots s !! i) <-> strong s i = true \/ i ∈ pending;
  w_port : forall i x, slots s !! i = Some x -> ports s !! port x = Some i;
  w_next : forall i, is_Some (slots s !! i) \/ i ∈ weak s -> i < next s;
  w_weak : NoDup (weak s) /\ forall i, is_Some (slots s !! i) -> i ∈ weak s;
  w_todo : forall i, i ∈ todo s -> i ∈ held s;
  w_held : NoDup (held s);
  w_armed : forall i x r, slots s !! i = Some x -> armed x = Some r -> (i, r) ∈ arms s;
  w_stopped : NoDup ((stopped s).*2) /\ forall i r, (i, r) ∈ stopped s -> (i, r) ∈ arms s /\ r ∈ terminated s
}.

Definition wf (s : State) : Prop := wf_with [] s.

Lemma strong_spec s i : strong s i = true <-> (exists t, threads s !! t = Some (Some i)) \/ i ∈ held s.
Proof.
  unfold strong, owned. rewrite orb_true_iff, bool_decide_eq_true, existsb_exists. split; (intros [H|H]; [left|by right]).
  - destruct H as ([t m] & Hin & Hm). apply list_elem_of_In, elem_of_map_to_list in Hin.
    apply bool_decide_eq_true in Hm. simpl in Hm. subst. by exists t.
  - destruct H as [t Ht]. exists (t, Some i). split; [by apply list_elem_of_In, elem_of_map_to_list|].
    by apply bool_decide_eq_true.
Qed.

Lemma strong_ext s s' : threads s' = threads s -> held s' = held s -> forall i, strong s' i = strong s i.
Proof. intros Ht Hh i. unfold strong, owned. by rewrite Ht, Hh. Qed.

(** The ports of two slots differ. *)
Lemma port_inj p s i j x y : wf_with p s -> slots s !! i = Some x -> slots s !! j = Some y -> port x = port y -> i = j.
Proof. intros H Hi Hj Heq. apply (w_port _ _ H) in Hi, Hj. congruence. Qed.

Lemma slot_release_wf s i l :
  wf_with (i :: l) s -> i ∉ l -> exists s', release s i = Next s' /\ wf_with l s' /\ threads s' = threads s /\ held s' = held s.
Proof.
  intros H Hi. unfold release. destruct (strong s i) eqn:Hs.
  - exists s. split_and!; [done| |done|done]. destruct H as [H1 H2 H3 H4 H5 H6 H7 H8]. split; try done.
    intros j. rewrite H1, elem_of_cons. split; [|tauto]. intros [|[->|]]; tauto.
  - unfold slot_drop. assert (is_Some (slots s !! i)) as [x Hx] by (apply (w_live _ _ H); right; left).
    rewrite Hx, (bool_decide_eq_true_2 _ (w_port _ _ H _ _ Hx)). eexists. split_and!; [done| |done|done].
    assert (forall j, is_Some (delete i (slots s) !! j) <-> j <> i /\ is_Some (slots s !! j)) as Hdel.
    { intros j. destruct (decide (j = i)) as [->|Hn]; [rewrite lookup_delete_eq|rewrite lookup_delete_ne by done].
      - split; [by intros []|by intros []].
      - tauto. }
    pose proof H as [H1 H2 H3 H4 H5 H6 H7 H8]. split; simpl; try done.
    + intros j. rewrite Hdel, H1, elem_of_cons. rewrite (strong_ext s (set_slots s _ _)) by done.
      split; [naive_solver|]. intros [Hj|Hj]; (split; [|tauto]); intros ->; congruence.
    + intros j y. destruct (decide (j = i)) as [->|Hn]; [by rewrite lookup_delete_eq|]. rewrite lookup_delete_ne by done.
      intros Hj. rewrite lookup_delete_ne; [by apply H2|]. intros Heq. by apply Hn, eq_sym, (port_inj _ s i j x y H).
    + intros j [Hj|Hj]; apply H3; [left; by apply Hdel in Hj as [_ ?]|by right].
    + split; [apply H4|]. intros j Hj. apply H4. by apply Hdel in Hj as [_ ?].
    + intros j y r. destruct (decide (j = i)) as [->|Hn]; [by rewrite lookup_delete_eq|]. rewrite lookup_delete_ne by done. apply H7.
Qed.

Lemma release_all_wf l : forall s, wf_with l s -> NoDup l -> exists s', release_all s l = Next s' /\ wf s'.
Proof.
  induction l as [|i l IH]; intros s H Hnd; simpl; [by exists s|]. apply NoDup_cons in Hnd as [Hi Hnd].
  destruct (slot_release_wf s i l H Hi) as (s' & -> & H' & _). by apply IH.
Qed.

Lemma slot_of_wf s t p i s' :
  wf s -> slot_of s t p = Some (i, s') -> wf s' /\ is_Some (slots s' !! i) /\ threads s' !! t = Some (Some i) /\ arms s' = arms s.
Proof.
  intros H He. unfold slot_of in He. destruct (threads s !! t) as [mine|] eqn:Ht; [|done]. simpl in He.
  destruct mine as [j|].
  { injection He as -> ->. split_and!; [done| |done|done]. apply (w_live _ _ H). left. apply strong_spec. left. by exists t. }
  destruct (ports s !! p) as [|] eqn:Hp; [done|]. injection He as <- <-. simpl.
  split_and!; [|by rewrite lookup_insert_eq|by rewrite lookup_insert_eq|done].
  assert (slots s !! next s = None) as Hfree.
  { apply eq_None_not_Some. intros Hx. assert (next s < next s) by (apply (w_next _ _ H); by left). lia. }
  assert (next s ∉ weak s) as Hweak.
  { intros Hx. assert (next s < next s) by (apply (w_next _ _ H); by right). lia. }
  pose proof H as [H1 H2 H3 H4 H5 H6 H7 H8]. split; simpl; try done.
  - intros j. rewrite strong_spec. simpl. destruct (decide (j = next s)) as [->|Hn].
    + rewrite lookup_insert_eq. split; [|by eexists]. intros _. left. left. exists t. apply lookup_insert_eq.
    + rewrite lookup_insert_ne by done. rewrite H1, strong_spec. split; intros [[[t' Ht']|?]|?]; try tauto; left; left; exists t'.
      * destruct (decide (t' = t)) as [->|]; [congruence|by rewrite lookup_insert_ne].
      * destruct (decide (t' = t)) as [->|]; [rewrite lookup_insert_eq in Ht'; congruence|by rewrite lookup_insert_ne in Ht'].
  - intros j x. destruct (decide (j = next s)) as [->|Hn].
    + rewrite lookup_insert_eq. intros [= <-]. apply lookup_insert_eq.
    + rewrite lookup_insert_ne by done. intros Hj. rewrite lookup_insert_ne; [by apply H2|].
      intros ->. apply H2 in Hj. congruence.
  - intros j. rewrite elem_of_app, list_elem_of_singleton. destruct (decide (j = next s)) as [->|Hn]; [lia|].
    rewrite lookup_insert_ne by done. intros [Hj|[Hj|?]]; [| |done]; assert (j < next s) by (apply H3; tauto); lia.
  - split.
    + apply NoDup_app. split_and!; [apply H4| |apply NoDup_singleton]. intros j Hj ->%list_elem_of_singleton. done.
    + intros j. rewrite elem_of_app, list_elem_of_singleton. destruct (decide (j = next s)) as [->|Hn]; [tauto|].
      rewrite lookup_insert_ne by done. intros Hj. left. by apply H4.
  - intros j x r. destruct (decide (j = next s)) as [->|Hn]; [rewrite lookup_insert_eq; by intros [= <-]|].
    rewrite lookup_insert_ne by done. apply H7.
Qed.

Lemma set_armed_lookup s i a j x :
  slots (set_armed s i a) !! j = Some x ->
  exists y, slots s !! j = Some y /\ port y = port x /\ (armed x = armed y \/ j = i /\ armed x = a).
Proof.
  simpl. destruct (decide (j = i)) as [->|Hn]; [rewrite lookup_alter_eq|rewrite lookup_alter_ne by done].
  - destruct (slots s !! i) as [y|]; [|done]. simpl. intros [= <-]. exists y. naive_solver.
  - intros Hj. exists x. naive_solver.
Qed.

Lemma set_armed_wf s i a l :
  wf s -> (forall r, a = Some r -> (i, r) ∈ l) -> (forall x, x ∈ arms s -> x ∈ l) ->
  let s' := set_armed s i a in
  wf (mkState (threads s') (slots s') (next s') (weak s') (held s') (todo s') (ports s') (terminated s') (stopped s') l).
Proof.
  intros [H1 H2 H3 H4 H5 H6 H7 H8] Ha Hl s'.
  assert (forall j, is_Some (alter (fun x => mkSlot (port x) a) i (slots s) !! j) <-> is_Some (slots s !! j)) as Hdom.
  { intros j. destruct (decide (j = i)) as [->|Hn]; [rewrite lookup_alter_eq|by rewrite lookup_alter_ne].
    by rewrite fmap_is_Some. }
  split; simpl; try done.
  - intros j. rewrite Hdom. apply H1.
  - intros j x Hj. destruct (set_armed_lookup _ _ _ _ _ Hj) as (y & Hy & <- & _). by apply H2.
  - intros j Hj. apply H3. by rewrite Hdom in Hj.
  - split; [apply H4|]. intros j Hj. apply H4. by apply Hdom.
  - intros j x r Hj Hr. destruct (set_armed_lookup _ _ _ _ _ Hj) as (y & Hy & _ & [E|[-> E]]).
    + apply Hl, (H7 j y r Hy). congruence.
    + apply Ha. congruence.
  - split; [apply H8|]. intros j r Hj. destruct (proj2 H8 j r Hj). auto.
Qed.

Lemma wf_start : wf initial.
Proof.
  split; simpl; try done.
  - intros i. rewrite lookup_empty, strong_spec. simpl. split; [by intros []|]. intros [[[t Ht]|Hi]|Hi].
    + by rewrite lookup_empty in Ht.
    + by apply elem_of_nil in Hi.
    + by apply elem_of_nil in Hi.
  - intros i [[x Hx]|Hi]; [by rewrite lookup_empty in Hx|by apply elem_of_nil in Hi].
  - split; [constructor|]. intros i [x Hx]. by rewrite lookup_empty in Hx.
  - constructor.
  - split; [constructor|]. intros i r Hi. by apply elem_of_nil in Hi.
Qed.

(** [LEnd]: what the thread held is pending. *)
Lemma end_wf s t mine :
  wf s -> threads s !! t = Some mine ->
  wf_with (option_list mine)
    (mkState (delete t (threads s)) (slots s) (next s) (weak s) (held s) (todo s) (ports s) (terminated s) (stopped s) (arms s)).
Proof.
  intros [H1 H2 H3 H4 H5 H6 H7 H8] Ht. split; simpl; try done. intros i. rewrite H1, !strong_spec. simpl. split.
  - intros [[[t' Ht']|?]|Hi]; [|tauto|by apply elem_of_nil in Hi]. destruct (decide (t' = t)) as [->|Hn].
    + right. rewrite Ht in Ht'. injection Ht' as ->. left.
    + left. left. exists t'. by rewrite lookup_delete_ne.
  - intros [[[t' Ht']|?]|Hi]; [|tauto|].
    + destruct (decide (t' = t)) as [->|Hn]; [by rewrite lookup_delete_eq in Ht'|]. rewrite lookup_delete_ne in Ht' by done.
      left. left. by exists t'.
    + left. left. exists t. destruct mine as [j|]; [|by apply elem_of_nil in Hi]. by apply list_elem_of_singleton in Hi as ->.
Qed.

Lemma slots_exec_wf s l o : wf s -> exec s l = Some o -> exists s', o = Next s' /\ wf s'.
Proof.
  intros H He. destruct l as [t|t p r|t|t| |spent|]; simpl in He.
  - destruct (threads s !! t) as [|] eqn:Ht; [done|]. injection He as <-. eexists. split; [done|].
    destruct H as [H1 H2 H3 H4 H5 H6 H7 H8]. split; simpl; try done. intros i. rewrite H1, !strong_spec. simpl.
    split; (intros [[[t' Ht']|?]|?]; [|tauto|tauto]); left; left; exists t'.
    + rewrite lookup_insert_ne; [done|]. congruence.
    + destruct (decide (t' = t)) as [->|]; [by rewrite lookup_insert_eq in Ht'|by rewrite lookup_insert_ne in Ht'].
  - destruct (slot_of s t p) as [[i s1]|] eqn:E; [|done]. injection He as <-. eexists. split; [done|].
    destruct (slot_of_wf _ _ _ _ _ H E) as (H' & _ & _ & Ha).
    apply set_armed_wf; [done| |]; [intros r' [= ->]|intros x Hx]; apply elem_of_app; [right; left|by left].
  - destruct (threads s !! t) as [[i|]|]; [| |done]; injection He as <-; eexists; (split; [done|]); [|done].
    by apply (set_armed_wf s i None (arms s)).
  - destruct (threads s !! t) as [mine|] eqn:Ht; [|done]. simpl in He. pose proof (end_wf s t mine H Ht) as H'.
    destruct mine as [i|]; injection He as <-; [|by eexists].
    destruct (slot_release_wf _ i [] H' (not_elem_of_nil _)) as (s' & -> & Hs' & _). by exists s'.
  - destruct (held s) as [|] eqn:Eh; [|done]. injection He as <-. eexists. split; [done|].
    destruct H as [H1 H2 H3 H4 H5 H6 H7 H8].
    assert (forall i, i ∈ filter (fun i => strong s i = true) (weak s) <-> strong s i = true) as Hf.
    { intros i. rewrite list_elem_of_filter. split; [tauto|]. intros Hs. split; [done|]. apply H4, H1. by left. }
    split; simpl; try done.
    + intros i. rewrite H1, !strong_spec. simpl. rewrite Hf, strong_spec. tauto.
    + intros i [Hi|Hi]; apply H3; [by left|right]. by apply list_elem_of_filter in Hi as [_ ?].
    + split; [by apply NoDup_filter, H4|]. intros i Hi. apply Hf. apply H1 in Hi as [?|Hi]; [done|by apply elem_of_nil in Hi].
    + by apply NoDup_filter, H4.
  - destruct (todo s) as [|i l] eqn:Et; [done|].
    assert (is_Some (slots s !! i)) as [x Hx].
    { apply (w_live _ _ H). left. apply strong_spec. right. apply (w_todo _ _ H). rewrite Et. left. }
    rewrite Hx in He.
    assert (wf (mkState (threads s) (slots s) (next s) (weak s) (held s) l (ports s) (terminated s) (stopped s) (arms s))) as H'.
    { destruct H as [H1 H2 H3 H4 H5 H6 H7 H8]. split; simpl; try done. intros j Hj. apply H5. rewrite Et. by right. }
    destruct (armed x) as [r|] eqn:Ea; [|injection He as <-; by eexists].
    rewrite (bool_decide_eq_true_2 _ (w_port _ _ H _ _ Hx)) in He.
    destruct (spent && negb (bool_decide (r ∈ terminated s))) eqn:Es; injection He as <-; [|by eexists].
    eexists. split; [done|]. apply andb_true_iff in Es as [_ Es]. apply negb_true_iff, bool_decide_eq_false in Es.
    pose proof (w_armed _ _ H i x r Hx Ea) as Har.
    destruct H' as [H1 H2 H3 H4 H5 H6 H7 [H8 H9]]. split; simpl in *; try done. split.
    + rewrite fmap_app. apply NoDup_app. split_and!; [done| |apply NoDup_singleton].
      intros r' Hr' Heq%list_elem_of_singleton. simpl in Heq. subst r'.
      apply list_elem_of_fmap in Hr' as ([j r1] & Heq & Hj). simpl in Heq. subst r1. by apply Es, (H9 j r).
    + intros j r'. rewrite elem_of_app, list_elem_of_singleton. intros [Hj|[= -> ->]].
      * destruct (H9 j r' Hj). set_solver.
      * set_solver.
  - destruct (todo s) as [|] eqn:Et; [|done]. injection He as <-.
    destruct (release_all_wf (held s) (mkState (threads s) (slots s) (next s) (weak s) [] [] (ports s) (terminated s) (stopped s) (arms s)))
      as (s' & -> & Hs'); [|apply H|by exists s'].
    destruct H as [H1 H2 H3 H4 H5 H6 H7 H8]. split; simpl; try done; [|constructor].
    intros i. rewrite H1, !strong_spec. simpl. rewrite elem_of_nil. tauto.
Qed.

Lemma run_wf ls : forall s, wf s -> match run s ls with Some Undefined => False | Some (Next s') => wf s' | None => True end.
Proof.
  induction ls as [|l ls IH]; intros s H; simpl; [done|]. destruct (exec s l) as [o|] eqn:E; simpl; [|done].
  destruct (slots_exec_wf _ _ _ H E) as (s' & -> & H'). by apply IH.
Qed.

(** C37: The slots are sound: however threads start, run turns and end while the watchdog looks,
    the watchdog never reads a port that was given back, no port is given back twice or for
    another thread, a slot lives no longer than its thread and the tick that holds it, and
    the request the watchdog stops is one that was armed in the slot it read, once. *)
Theorem watchdog_reads_its_own_threads ls :
  match run initial ls with
  | Some Undefined => False
  | Some (Next s) =>
      (forall i, is_Some (slots s !! i) -> (exists t, threads s !! t = Some (Some i)) \/ i ∈ held s) /\
      (forall i x, slots s !! i = Some x -> ports s !! port x = Some i) /\
      NoDup ((stopped s).*2) /\ forall i r, (i, r) ∈ stopped s -> (i, r) ∈ arms s
  | None => True
  end.
Proof.
  pose proof (run_wf ls initial wf_start) as H. destruct (run initial ls) as [[|s]|]; [done| |done].
  split_and!; [|apply H|apply H|].
  - intros i Hi. apply (w_live _ _ H) in Hi as [Hi|Hi]; [by apply strong_spec|by apply elem_of_nil in Hi].
  - intros i r Hi. by apply (proj2 (w_stopped _ _ H)).
Qed.

(** A thread ends while the watchdog holds its slot: the tick drops the slot, and another
    thread gets the same port name. *)
Example a_slot_outlives_its_thread :
  match run initial [LThread 1; LArm 1 7 5; LCollect; LEnd 1; LCheck true; LRelease; LThread 2; LArm 2 7 6; LCollect; LCheck true] with
  | Some (Next s) => stopped s = [(0, 5); (1, 6)] /\ weak s = [1] /\ ports s = {[7 := 1]}
  | _ => False
  end.
Proof. by vm_compute. Qed.

End CpuSlots.
