(* ===== verification/ObjectQueue.v ===== *)
(** * The queue of a Durable Object (src/src/runtime/scheduler.rs)

    The storage and socket ops of an object run one at a time, in the order the
    guest made them, and its outbound calls wait for the writes made before them
    (output gate). The host that runs the ops is a parameter. *)

From stdpp Require Import base list relations strings.
From Stdlib Require Import ZArith Lia.
From S2P Require Import Prelude.

Module ObjectQueue.

Definition CallbackId := Z.

Definition STORAGE_FAILED : string := "a storage write of the Durable Object failed".
Definition UNEXPECTED : string := "Unexpected result type for object storage".

Section Queue.

(** The operations of the host: their types, which storage ops write, and what
    an error looks like. *)
Context {StorageOp SocketOp Answer Host : Type}.
Context (writes : StorageOp -> bool).
Context (storage_error : string -> Answer) (is_error : Answer -> bool).

(** [ops.handle]: [None] is a result of another type. *)
Context (handle_storage : Host -> StorageOp -> option Answer * Host).
Context (handle_socket : Host -> SocketOp -> Host).

(** [Queued]; a barrier is named by its channel. *)
Inductive Queued :=
| Storage (callback_id : CallbackId) (op : StorageOp)
| Socket (op : SocketOp)
| Barrier (open : nat).

(** What a run of the queue has done: the callbacks sent and the barriers
    opened, oldest first. *)
Record State := mkState {
  failed : bool;
  host : Host;
  callbacks : list (CallbackId * Answer);
  opened : list nat
}.

(** One storage op that is let through. *)
Definition storage_result (h : Host) (op : StorageOp) : Answer * Host :=
  match handle_storage h op with
  | (Some result, h') => (result, h')
  | (None, h') => (storage_error UNEXPECTED, h')
  end.

(** One turn of the loop of [run_object_queue]. *)
Definition serve (s : State) (work : Queued) : State :=
  match work with
  | Storage callback_id op =>
      if failed s then
        mkState true (host s) (callbacks s ++ [(callback_id, storage_error STORAGE_FAILED)]) (opened s)
      else
        let (result, h') := storage_result (host s) op in
        mkState (writes op && is_error result) h' (callbacks s ++ [(callback_id, result)]) (opened s)
  | Socket op =>
      if failed s then s
      else mkState false (handle_socket (host s) op) (callbacks s) (opened s)
  | Barrier open =>
      if failed s then s else mkState false (host s) (callbacks s) (opened s ++ [open])
  end.

Definition run_object_queue (h : Host) (work : list Queued) : State :=
  fold_left serve work (mkState false h [] []).

(** ** Specification *)

(** The state of the host after work every op of which was let through, with
    the answers given and the barriers opened. *)
Fixpoint perform (h : Host) (work : list Queued) : Host * list (CallbackId * Answer) * list nat :=
  match work with
  | [] => (h, [], [])
  | Storage id op :: rest =>
      let (result, h') := storage_result h op in
      let '(h2, answers, gates) := perform h' rest in (h2, (id, result) :: answers, gates)
  | Socket op :: rest => perform (handle_socket h op) rest
  | Barrier b :: rest => let '(h2, answers, gates) := perform h rest in (h2, answers, b :: gates)
  end.

(** No write of the work fails when it is performed from [h]. *)
Fixpoint all_commit (h : Host) (work : list Queued) : bool :=
  match work with
  | [] => true
  | Storage _ op :: rest =>
      let (result, h') := storage_result h op in
      negb (writes op && is_error result) && all_commit h' rest
  | Socket op :: rest => all_commit (handle_socket h op) rest
  | Barrier _ :: rest => all_commit h rest
  end.

(** The work up to and with the first write that fails, and the rest. *)
Fixpoint split_at_failure (h : Host) (work : list Queued) : list Queued * list Queued :=
  match work with
  | [] => ([], [])
  | Storage id op :: rest =>
      let (result, h') := storage_result h op in
      if writes op && is_error result then ([Storage id op], rest)
      else let (l, r) := split_at_failure h' rest in (Storage id op :: l, r)
  | Socket op :: rest =>
      let (l, r) := split_at_failure (handle_socket h op) rest in (Socket op :: l, r)
  | Barrier b :: rest => let (l, r) := split_at_failure h rest in (Barrier b :: l, r)
  end.

(** What the rest is answered: every storage op fails, and nothing else
    happens. *)
Definition refused (work : list Queued) : list (CallbackId * Answer) :=
  omap (fun q => match q with
                 | Storage id _ => Some (id, storage_error STORAGE_FAILED)
                 | _ => None
                 end) work.

Lemma serve_failed work : forall s,
  failed s = true ->
  fold_left serve work s = mkState true (host s) (callbacks s ++ refused work) (opened s).
Proof.
  induction work as [|q work IH]; intros [f h cb op] Hf; simpl in Hf; subst.
  - simpl. by rewrite app_nil_r.
  - destruct q as [id o|o|b]; simpl; rewrite IH by done; simpl; by rewrite <-?app_assoc.
Qed.

Lemma serve_spec work : forall h cb op,
  let (l, r) := split_at_failure h work in
  let '(h', answers, gates) := perform h l in
  fold_left serve work (mkState false h cb op) =
    mkState (negb (all_commit h work)) h' (cb ++ answers ++ refused r) (op ++ gates).
Proof.
  induction work as [|q work IH]; intros h cb op; simpl.
  { by rewrite !app_nil_r. }
  destruct q as [id o|o|b]; simpl.
  - destruct (storage_result h o) as [res h'] eqn:E. simpl.
    destruct (writes o && is_error res) eqn:Ef; simpl.
    + rewrite E. rewrite serve_failed by done. simpl. by rewrite app_nil_r, <-app_assoc.
    + specialize (IH h' (cb ++ [(id, res)]) op). destruct (split_at_failure h' work) as [l r].
      simpl. rewrite E. destruct (perform h' l) as [[h2 answers] gates]. rewrite IH.
      by rewrite <-app_assoc.
  - specialize (IH (handle_socket h o) cb op). by destruct (split_at_failure _ work) as [l r].
  - specialize (IH h cb (op ++ [b])). destruct (split_at_failure h work) as [l r]. simpl.
    destruct (perform h l) as [[h2 answers] gates]. rewrite IH. by rewrite <-app_assoc.
Qed.

(** The queue does what its specification says: everything up to and with
    the first write that fails is performed in order, with its answers and its
    gates; after it nothing reaches the host, no gate opens, and every storage
    op is answered with the failure. *)
Theorem object_queue_refines_spec h work :
  let (l, r) := split_at_failure h work in
  let '(h', answers, gates) := perform h l in
  run_object_queue h work =
    mkState (negb (all_commit h work)) h' (answers ++ refused r) gates.
Proof. exact (serve_spec work h [] []). Qed.

(** ** Output gate *)

Lemma split_app h work : let (l, r) := split_at_failure h work in l ++ r = work.
Proof.
  revert h. induction work as [|[id o|o|b] work IH]; intros h; simpl; [done|..].
  - destruct (storage_result h o) as [res h']. destruct (_ && _); [done|].
    specialize (IH h'). destruct (split_at_failure h' work). simpl. by rewrite IH.
  - specialize (IH (handle_socket h o)). destruct (split_at_failure _ work). simpl. by rewrite IH.
  - specialize (IH h). destruct (split_at_failure h work). simpl. by rewrite IH.
Qed.

Definition gate_of (q : Queued) : option nat := match q with Barrier b => Some b | _ => None end.
Definition id_of (q : Queued) : option CallbackId := match q with Storage id _ => Some id | _ => None end.

Lemma serve_app h pre post :
  run_object_queue h (pre ++ post) = fold_left serve post (run_object_queue h pre).
Proof. apply fold_left_app. Qed.

Lemma run_failed h work : failed (run_object_queue h work) = negb (all_commit h work).
Proof.
  pose proof (serve_spec work h [] []) as H. unfold run_object_queue.
  destruct (split_at_failure h work) as [l r], (perform h l) as [[h' a] g]. by rewrite H.
Qed.

(** Barriers only ever open in the order of the queue, each at its own place. *)
Lemma serve_opened work : forall s b,
  b ∈ opened (fold_left serve work s) -> b ∈ opened s \/ b ∈ omap gate_of work.
Proof.
  induction work as [|q work IH]; intros s b; simpl; [by left|]. intros [H|H]%IH.
  - destruct q as [id o|o|b']; simpl in *.
    + destruct (failed s); simpl in H; [by left|]. destruct (storage_result (host s) o). by left.
    + destruct (failed s); by left.
    + destruct (failed s); simpl in H; [by left|].
      apply elem_of_app in H as [?|?%list_elem_of_singleton]; [by left|right; set_solver].
  - right. destruct q; simpl; set_solver.
Qed.

Lemma serve_opened_mono work : forall s b,
  b ∈ opened s -> b ∈ opened (fold_left serve work s).
Proof.
  induction work as [|q work IH]; intros s b Hb; simpl; [done|]. apply IH.
  destruct q as [id o|o|b']; simpl; destruct (failed s); simpl; try done.
  - by destruct (storage_result (host s) o).
  - set_solver.
Qed.

(** A barrier opens exactly when every write queued before it was committed,
    whatever comes after. *)
Lemma barrier_opens_iff h pre b post :
  b ∉ omap gate_of pre -> b ∉ omap gate_of post ->
  b ∈ opened (run_object_queue h (pre ++ Barrier b :: post)) <-> all_commit h pre = true.
Proof.
  intros Hpre Hpost. rewrite serve_app. simpl.
  set (s := run_object_queue h pre).
  assert (b ∉ opened s) as Hs.
  { intros H. apply serve_opened in H as [H|H]; [simpl in H; set_solver|done]. }
  pose proof (run_failed h pre) as Hf. fold s in Hf. destruct (all_commit h pre); simpl in Hf; rewrite Hf.
  - split; [done|]. intros _. apply serve_opened_mono. simpl. set_solver.
  - split; [|done]. intros H. apply serve_opened in H as [H|H]; done.
Qed.

(** Every storage op is answered exactly once, in the order the guest made
    them, failures included. *)
Theorem storage_ops_answered_in_order h work :
  (callbacks (run_object_queue h work)).*1 = omap id_of work.
Proof.
  assert (forall s, (callbacks (fold_left serve work s)).*1 = (callbacks s).*1 ++ omap id_of work) as Hgen.
  { induction work as [|q work IH]; intros s; simpl; [by rewrite app_nil_r|]. rewrite IH.
    destruct q as [id o|o|b]; simpl; destruct (failed s); simpl; try done.
    - by rewrite fmap_app, <-app_assoc.
    - destruct (storage_result (host s) o). simpl. by rewrite fmap_app, <-app_assoc. }
  apply (Hgen (mkState false h [] [])).
Qed.

(** ** Messages to the queue *)

(** The messages of the scheduler that concern the queue, and the calls that leave the
    object; a call is named by a number. Fetches and requests to other objects and workers
    ([FetchStreaming], [BindingFetch], [BindingWorker], [BindingDurableObject]) take a
    gate; [BindingStorage], [BindingKv], [BindingDatabase], [BindingD1], [BindingInvoke]
    and [WebSocketConnect] take none. *)
Inductive Message :=
| MStorage (id : CallbackId) (op : StorageOp)
| MSocket (op : SocketOp)
| MOutbound (gate : nat)
| MBarrier (gate : nat)
| MUngated (call : nat).

(** [enqueue], [output_gate] and [OutputBarrier]: the queue starts with the
    first op; before it a call has no gate and a barrier opens at once. An ungated call
    leaves whatever the queue holds. *)
Definition route (s : option (list Queued) * list nat) (m : Message) : option (list Queued) * list nat :=
  let (queue, ungated) := s in
  match m, queue with
  | MStorage id op, _ => (Some (default [] queue ++ [Storage id op]), ungated)
  | MSocket op, _ => (Some (default [] queue ++ [Socket op]), ungated)
  | MOutbound g, Some q | MBarrier g, Some q => (Some (q ++ [Barrier g]), ungated)
  | MOutbound g, None | MBarrier g, None => (None, ungated ++ [g])
  | MUngated c, _ => (queue, ungated ++ [c])
  end.

(** The calls that leave: those without a gate, and those whose gate opened
    ([after]). *)
Definition leaves (h : Host) (ms : list Message) : list nat :=
  let (queue, ungated) := fold_left route ms (None, []) in
  ungated ++ opened (run_object_queue h (default [] queue)).

(** The work the guest asked for before some point. *)
Definition work_of (m : Message) : option Queued :=
  match m with MStorage id op => Some (Storage id op) | MSocket op => Some (Socket op) | _ => None end.
Definition gate_name (m : Message) : option nat :=
  match m with MOutbound g | MBarrier g | MUngated g => Some g | _ => None end.

(** Barriers do not change what commits. *)
Lemma commit_barriers h work :
  all_commit h work = all_commit h (filter (fun q => gate_of q = None) work).
Proof.
  revert h. induction work as [|[id o|o|b] work IH]; intros h; rewrite ?filter_cons; simpl; [done|..].
  - destruct (storage_result h o). by rewrite IH.
  - apply IH.
  - apply IH.
Qed.

(** Once the queue runs, every message goes to it but the ungated calls. *)
Definition queued (m : Message) : option Queued :=
  match m with
  | MStorage id op => Some (Storage id op)
  | MSocket op => Some (Socket op)
  | MOutbound g | MBarrier g => Some (Barrier g)
  | MUngated _ => None
  end.
Definition free_name (m : Message) : option nat := match m with MUngated c => Some c | _ => None end.

Lemma route_running ms : forall q u,
  fold_left route ms (Some q, u) = (Some (q ++ omap queued ms), u ++ omap free_name ms).
Proof.
  induction ms as [|m ms IH]; intros q u; simpl; [by rewrite !app_nil_r|].
  destruct m; simpl; rewrite IH, <-?app_assoc; done.
Qed.

(** Before the first op there is no queue, and every gate is open. *)
Lemma route_split ms : forall u,
  exists idle rest, ms = idle ++ rest /\ omap work_of idle = [] /\
    fold_left route ms (None, u) =
      match rest with
      | [] => (None, u ++ omap gate_name idle)
      | _ => (Some (omap queued rest), u ++ omap gate_name idle ++ omap free_name rest)
      end.
Proof.
  induction ms as [|m ms IH]; intros u; simpl.
  { exists [], []. simpl. by rewrite app_nil_r. }
  destruct m as [id op|op|g|g|g]; simpl.
  - exists [], (MStorage id op :: ms). simpl. by rewrite route_running.
  - exists [], (MSocket op :: ms). simpl. by rewrite route_running.
  - destruct (IH (u ++ [g])) as (idle & rest & -> & Hw & ->). exists (MOutbound g :: idle), rest.
    simpl. rewrite <-!app_assoc. done.
  - destruct (IH (u ++ [g])) as (idle & rest & -> & Hw & ->). exists (MBarrier g :: idle), rest.
    simpl. rewrite <-!app_assoc. done.
  - destruct (IH (u ++ [g])) as (idle & rest & -> & Hw & ->). exists (MUngated g :: idle), rest.
    simpl. rewrite <-!app_assoc. done.
Qed.

Lemma gates_queued (ms : list Message) b : b ∈ omap gate_of (omap queued ms) -> b ∈ omap gate_name ms.
Proof. induction ms as [|[] ms IH]; simpl; set_solver. Qed.

Lemma free_named (ms : list Message) c : c ∈ omap free_name ms -> c ∈ omap gate_name ms.
Proof. induction ms as [|[] ms IH]; simpl; set_solver. Qed.

Lemma work_queued (ms : list Message) : filter (fun q => gate_of q = None) (omap queued ms) = omap work_of ms.
Proof. induction ms as [|[] ms IH]; [done|..]; simpl; rewrite ?filter_cons; simpl; try (f_equal; exact IH); exact IH. Qed.

(** A gate opens exactly when every write the guest made before it was committed,
    whatever the guest does after it. *)
Lemma gate_leaves_iff h pre m g post :
  gate_name m = Some g -> free_name m = None -> g ∉ omap gate_name pre -> g ∉ omap gate_name post ->
  g ∈ leaves h (pre ++ m :: post) <-> all_commit h (omap work_of pre) = true.
Proof.
  intros Hm Hfree Hpre Hpost. unfold leaves. rewrite fold_left_app. cbn [fold_left].
  destruct (route_split pre []) as (idle & rest & -> & Hidle & ->).
  rewrite omap_app, Hidle. rewrite omap_app in Hpre. rewrite !app_nil_l.
  pose proof (free_named post g) as Hfp. destruct rest as [|m' rest].
  - assert (route (None, omap gate_name idle) m = (None, omap gate_name idle ++ [g])) as ->
      by (by destruct m; simplify_eq/=).
    split; [done|intros _].
    destruct (route_split post (omap gate_name idle ++ [g])) as (i2 & r2 & _ & _ & ->).
    destruct r2; simpl; set_solver.
  - set (u := omap gate_name idle ++ omap free_name (m' :: rest)).
    assert (g ∉ u) as Hu.
    { unfold u. rewrite elem_of_app. intros [H|H%free_named]; apply Hpre; set_solver. }
    assert (route (Some (omap queued (m' :: rest)), u) m = (Some (omap queued (m' :: rest) ++ [Barrier g]), u)) as ->
      by (by destruct m; simplify_eq/=).
    rewrite route_running. cbn [default]. change (id ?l) with l.
    rewrite !elem_of_app, <-(app_assoc (omap queued (m' :: rest))). change ([Barrier g] ++ ?l) with (Barrier g :: l).
    pose proof (gates_queued (m' :: rest) g) as Hg1. pose proof (gates_queued post g) as Hg2.
    rewrite (barrier_opens_iff h (omap queued (m' :: rest)) g (omap queued post)) by set_solver.
    rewrite commit_barriers, work_queued. set_solver.
Qed.

(** C4: output gate: an outbound call leaves exactly when every write the guest
    made before it was committed, whatever the guest does after it. *)
Theorem outbound_calls_wait_for_writes h pre g post :
  g ∉ omap gate_name pre -> g ∉ omap gate_name post ->
  g ∈ leaves h (pre ++ MOutbound g :: post) <-> all_commit h (omap work_of pre) = true.
Proof. by apply gate_leaves_iff. Qed.

(** ** Waiting for a gate *)

(** What polling the receiver of a gate answers once the queue has done [served]
    pieces of work: open, closed for good, or still waiting. *)
Definition gate_status (h : Host) (ms : list Message) (served : nat) (g : nat) : option bool :=
  let (queue, ungated) := fold_left route ms (None, []) in
  let finished := take served (default [] queue) in
  if bool_decide (g ∈ ungated) then Some true
  else if bool_decide (g ∈ opened (run_object_queue h finished)) then Some true
  else if bool_decide (g ∈ omap gate_of finished) then Some false
  else None.

Lemma gate_status_leaves h ms served g : gate_status h ms served g = Some true -> g ∈ leaves h ms.
Proof.
  unfold gate_status, leaves. destruct (fold_left route ms (None, [])) as [queue ungated].
  intros H. rewrite elem_of_app. case_bool_decide; [by left|right].
  case_bool_decide as Ho; [|by case_bool_decide].
  rewrite <-(take_drop served (default [] queue)), serve_app. by apply serve_opened_mono.
Qed.

End Queue.

(** ** A concrete host: a store of numbers that refuses to write 13 *)

Definition demo_writes (op : nat) : bool := negb (op =? 0).
Definition demo_is_error (r : result nat string) : bool := negb (is_ok r).
Definition demo_storage (h : list nat) (op : nat) : option (result nat string) * list nat :=
  if op =? 0 then (Some (Ok (length h)), h)
  else if op =? 13 then (Some (Err "disk full"), h)
  else (Some (Ok op), h ++ [op]).

Definition demo_leaves : list (@Message nat unit) -> list nat :=
  leaves demo_writes Err demo_is_error demo_storage (fun h _ => h) [].

(** The first call leaves, the second follows a write that failed. *)
Definition demo_messages : list (@Message nat unit) :=
  [MStorage 1%Z 5; MOutbound 0; MStorage 2%Z 13; MOutbound 1; MStorage 3%Z 0].

(** A KV write leaves after a storage write that failed, where a fetch does not. *)
Example ungated_calls_leave : demo_leaves [MStorage 1%Z 13; MUngated 0; MOutbound 1] = [0].
Proof. reflexivity. Qed.

Lemma outbound_calls_wait_for_writes_witness :
  (0 ∈ demo_leaves demo_messages <-> true = true) /\
  (1 ∈ demo_leaves demo_messages <-> false = true) /\ demo_leaves demo_messages = [0].
Proof.
  split_and!.
  - refine (outbound_calls_wait_for_writes demo_writes Err demo_is_error demo_storage (fun h _ => h) []
      [MStorage 1%Z 5] 0 [MStorage 2%Z 13; MOutbound 1; MStorage 3%Z 0] _ _); vm_compute; set_solver.
  - refine (outbound_calls_wait_for_writes demo_writes Err demo_is_error demo_storage (fun h _ => h) []
      [MStorage 1%Z 5; MOutbound 0; MStorage 2%Z 13] 1 [MStorage 3%Z 0] _ _); vm_compute; set_solver.
  - vm_compute. reflexivity.
Defined.

End ObjectQueue.
