(* ===== verification/ObjectFrames.v ===== *)
(** * Frames that wait, and sockets that are passed on (src/src/runtime/scheduler.rs,
    bindings/durable_object.rs)

    A frame that a Durable Object sends waits in the channel to the scheduler, then in the
    queue of ObjectQueue.v, then for its op. [Waiting] counts its bytes in the counter of
    the guest's state for that long, and a send is refused once the counter is at its
    limit. The scheduler also holds the sockets that binding responses handed over, and
    gives each upgrade to the one it is for. *)

From stdpp Require Import base list gmap.
From Stdlib Require Import ZArith Lia.
From S2P Require Import Prelude.

Local Open Scope Z_scope.

Module ObjectFrames.

Definition MAX_WAITING_FRAMES : Z := 64 * 1024 * 1024.

(** [Waiting]: the bytes it counts. *)
Definition Waiting := Z.

(** [SchedulerMessage], as far as the queue goes: an op on a socket with its count if it
    is a frame, a storage op and whether it writes, an upgrade of a socket. *)
Inductive Message := ObjectSocket (w : option Waiting) | ObjectStorage (writes : bool) | ObjectUpgrade (ws : nat).

(** [Queued]; the attachment of a socket is an op of it. *)
Inductive Queued := Socket (w : option Waiting) | Storage (writes : bool) | Attach (ws : nat).

(** The counter, the channel while the scheduler lives, the queue once it started and the
    work in hand, whether a write failed, the sockets by their ids with the next id, and
    the upgrades that were forwarded. *)
Record State := mkState {
  frames : Z;
  channel : option (list Message);
  queue : option (list Queued);
  serving : option Queued;
  failed : bool;
  relays : gset nat;
  next_ws : nat;
  forwarded : list nat
}.

Definition initial : State := mkState 0 (Some []) None None false ∅ 0 [].

Definition waiting_of (q : Queued) : Z := match q with Socket (Some b) => b | _ => 0 end.
Definition waiting_in (m : Message) : Z := match m with ObjectSocket (Some b) => b | _ => 0 end.

Definition set_frames (s : State) (f : Z) : State :=
  mkState f (channel s) (queue s) (serving s) (failed s) (relays s) (next_ws s) (forwarded s).

(** [Waiting::new], and [Drop for Waiting] *)
Definition count (s : State) (b : Waiting) : State := set_frames s (wrap_usize (frames s + b)).
Definition uncount (s : State) (b : Waiting) : State := set_frames s (wrap_usize (frames s - b)).

(** [scheduler_tx.send]: a message to a scheduler that is gone is dropped, with what it
    counts. *)
Definition send (s : State) (m : Message) : State :=
  match channel s with
  | Some l => mkState (frames s) (Some (l ++ [m])) (queue s) (serving s) (failed s) (relays s) (next_ws s) (forwarded s)
  | None => uncount s (waiting_in m)
  end.

(** [__nativeObjectSocketSend]; [None] is the RangeError. *)
Definition socket_send (s : State) (bytes : Z) : option State :=
  if MAX_WAITING_FRAMES <=? frames s then None
  else Some (send (count s bytes) (ObjectSocket (Some bytes))).

(** [enqueue]: the queue starts with its first work. *)
Definition enqueue (s : State) (q : Queued) : State :=
  mkState (frames s) (channel s) (Some (default [] (queue s) ++ [q])) (serving s) (failed s) (relays s) (next_ws s) (forwarded s).

(** A round of the scheduler on one of these messages. *)
Definition route (s : State) (m : Message) : State :=
  match m with
  | ObjectSocket w => enqueue s (Socket w)
  | ObjectStorage writes => enqueue s (Storage writes)
  | ObjectUpgrade ws =>
      if bool_decide (ws ∈ relays s)
      then mkState (frames s) (channel s) (queue s) (serving s) (failed s) (relays s ∖ {[ws]}) (next_ws s)
             (forwarded s ++ [ws])
      else enqueue s (Attach ws)
  end.

(** [run_object_queue] takes work: after a failed write it is dropped. *)
Definition take (s : State) : option State :=
  match queue s, serving s with
  | Some (q :: l), None =>
      let s := mkState (frames s) (channel s) (Some l) None (failed s) (relays s) (next_ws s) (forwarded s) in
      if failed s then Some (uncount s (waiting_of q))
      else Some (mkState (frames s) (channel s) (queue s) (Some q) (failed s) (relays s) (next_ws s) (forwarded s))
  | _, _ => None
  end.

(** The op of the work in hand ends, with or without an error, and the work is dropped. *)
Definition finish (s : State) (error : bool) : option State :=
  q ← serving s;
  let s := uncount s (waiting_of q) in
  Some (mkState (frames s) (channel s) (queue s) None
          (match q with Storage writes => writes && error | _ => failed s end) (relays s) (next_ws s) (forwarded s)).

Inductive label :=
| LSend (bytes : Z)            (* a frame *)
| LSocket | LStorage (writes : bool) | LUpgrade (ws : nat)
| LRelay                       (* a binding response hands over a socket *)
| LRoute                       (* the scheduler takes a message *)
| LTake | LFinish (error : bool)
| LStop.                       (* the scheduler goes, and drops its channel *)

Definition exec (s : State) (l : label) : option State :=
  match l with
  | LSend bytes => Some (default s (socket_send s bytes))
  | LSocket => Some (send s (ObjectSocket None))
  | LStorage writes => Some (send s (ObjectStorage writes))
  | LUpgrade ws => Some (send s (ObjectUpgrade ws))
  | LRelay => Some (mkState (frames s) (channel s) (queue s) (serving s) (failed s)
                      ({[next_ws s]} ∪ relays s) (S (next_ws s)) (forwarded s))
  | LRoute =>
      match channel s with
      | Some (m :: l) =>
          Some (route (mkState (frames s) (Some l) (queue s) (serving s) (failed s) (relays s) (next_ws s) (forwarded s)) m)
      | _ => None
      end
  | LTake => take s
  | LFinish error => finish s error
  | LStop =>
      l ← channel s;
      let s := foldl (fun s m => uncount s (waiting_in m)) s l in
      Some (mkState (frames s) None (queue s) (serving s) (failed s) ∅ (next_ws s) (forwarded s))
  end.

(** A run in which every frame has at most [max] bytes. *)
Definition step (max : Z) (s s' : State) : Prop :=
  exists l, match l with LSend b => 0 <= b <= max | _ => True end /\ exec s l = Some s'.
Definition reach (max : Z) : State -> Prop := reachable (eq initial) (step max).

(** ** Properties *)

Definition total {A} (f : A -> Z) (l : list A) : Z := foldr (fun x n => f x + n) 0 l.
Arguments total : simpl never.

(** The bytes that wait: in the channel, in the queue, and with the work in hand. *)
Definition waiting (s : State) : Z :=
  total waiting_in (default [] (channel s)) + total waiting_of (default [] (queue s)) +
  from_option waiting_of 0 (serving s).

Record wf (max : Z) (s : State) : Prop := {
  w_count : frames s = waiting s;
  w_small : frames s < MAX_WAITING_FRAMES + Z.max 1 max;
  w_channel : Forall (fun m => 0 <= waiting_in m) (default [] (channel s));
  w_queue : Forall (fun q => 0 <= waiting_of q) (default [] (queue s));
  w_serving : 0 <= from_option waiting_of 0 (serving s);
  w_relays : forall ws, ws ∈ relays s -> (ws < next_ws s)%nat;
  w_forwarded : NoDup (forwarded s) /\ forall ws, ws ∈ forwarded s -> (ws < next_ws s)%nat /\ ws ∉ relays s
}.

Lemma total_app {A} (f : A -> Z) l k : total f (l ++ k) = total f l + total f k.
Proof. unfold total. induction l as [|x l IH]; simpl; [done|]. rewrite IH. lia. Qed.

Lemma total_bytes_cons {A} (f : A -> Z) x l : total f (x :: l) = f x + total f l.
Proof. done. Qed.

Lemma total_nil {A} (f : A -> Z) : total f [] = 0.
Proof. done. Qed.

Lemma total_pos {A} (f : A -> Z) l : Forall (fun x => 0 <= f x) l -> 0 <= total f l.
Proof. induction 1; simpl; [done|]. unfold total in *. simpl. lia. Qed.

Section Bounded.
Context (max : Z) (max_small : 0 <= max < 2 ^ 61).

Lemma waiting_pos s : wf max s -> 0 <= waiting s.
Proof.
  intros [? ? Hc Hq Hs ? ?]. unfold waiting. apply total_pos in Hc, Hq. lia.
Qed.

Lemma limit_small : MAX_WAITING_FRAMES + Z.max 1 max + max < 2 ^ 63.
Proof. unfold MAX_WAITING_FRAMES. lia. Qed.

(** Taking off a count that is part of what waits. *)
Lemma uncount_frames s b : 0 <= frames s - b -> 0 <= b -> frames s < 2 ^ 63 -> frames (uncount s b) = frames s - b.
Proof. intros. unfold uncount. simpl. apply wrap_usize_small. lia. Qed.

Lemma wf_frames s : wf max s -> 0 <= frames s < 2 ^ 63.
Proof.
  intros Hwf. pose proof (waiting_pos s Hwf). pose proof (w_count _ _ Hwf). pose proof (w_small _ _ Hwf).
  pose proof limit_small. lia.
Qed.

Lemma frames_initial_wf : wf max initial.
Proof. split; simpl; try done; [unfold MAX_WAITING_FRAMES; lia|]. split; [constructor|]. intros ws ?%elem_of_nil. done. Qed.

Lemma send_wf s m :
  wf max s -> waiting_in m = 0 -> wf max (send s m).
Proof.
  intros Hwf Hm. pose proof (wf_frames s Hwf). destruct Hwf as [Hc Hs Hch Hq Hsv Hr Hf]. unfold send.
  destruct (channel s) as [l|] eqn:El.
  - split; simpl; try done.
    + rewrite Hc. unfold waiting. simpl. rewrite El, total_app, total_bytes_cons, total_nil. simpl. lia.
    + apply Forall_app. split; [done|]. apply Forall_singleton. lia.
  - rewrite Hm. assert (frames (uncount s 0) = frames s) as Hu by (rewrite uncount_frames; lia).
    split; simpl; try done.
    + change (frames (uncount s 0) = waiting s). by rewrite Hu.
    + change (frames (uncount s 0) < MAX_WAITING_FRAMES + Z.max 1 max). by rewrite Hu.
    + by rewrite El.
Qed.

Lemma socket_send_wf s b s' : wf max s -> 0 <= b <= max -> socket_send s b = Some s' -> wf max s'.
Proof.
  intros Hwf Hb Hs'. unfold socket_send in Hs'. destruct (Z.leb_spec MAX_WAITING_FRAMES (frames s)); [done|].
  injection Hs' as <-. pose proof (wf_frames s Hwf). pose proof limit_small.
  assert (frames (count s b) = frames s + b) as Hcount by (apply wrap_usize_small; lia).
  destruct Hwf as [Hc Hs Hch Hq Hsv Hr Hf]. unfold send. change (channel (count s b)) with (channel s).
  destruct (channel s) as [l|] eqn:El.
  - split; simpl; try done.
    + change (frames (count s b) = waiting (mkState (frames (count s b)) (Some (l ++ [ObjectSocket (Some b)])) (queue s) (serving s)
        (failed s) (relays s) (next_ws s) (forwarded s))). rewrite Hcount, Hc. unfold waiting. simpl. rewrite El, total_app, total_bytes_cons, total_nil. simpl. lia.
    + change (frames (count s b) < MAX_WAITING_FRAMES + Z.max 1 max). rewrite Hcount. lia.
    + apply Forall_app. split; [done|]. apply Forall_singleton. simpl. lia.
  - simpl waiting_in. assert (frames (uncount (count s b) b) = frames s) as Hu by (rewrite uncount_frames; lia).
    split; simpl; try done.
    + change (frames (uncount (count s b) b) = waiting s). by rewrite Hu.
    + change (frames (uncount (count s b) b) < MAX_WAITING_FRAMES + Z.max 1 max). by rewrite Hu.
    + by rewrite El.
Qed.

Lemma route_wf s m l :
  wf max s -> channel s = Some (m :: l) ->
  wf max (route (mkState (frames s) (Some l) (queue s) (serving s) (failed s) (relays s) (next_ws s) (forwarded s)) m).
Proof.
  intros [Hc Hs Hch Hq Hsv Hr [Hnd Hf]] Hl. rewrite Hl in Hch. simpl in Hch. apply Forall_cons in Hch as [Hm Hch].
  unfold waiting in Hc. rewrite Hl in Hc. simpl in Hc.
  assert (forall q, waiting_of q = waiting_in m ->
    wf max (enqueue (mkState (frames s) (Some l) (queue s) (serving s) (failed s) (relays s) (next_ws s) (forwarded s)) q)) as He.
  { intros q Hwq. split; simpl; try done.
    - unfold waiting. simpl. rewrite total_app, total_bytes_cons, total_nil. rewrite total_bytes_cons in Hc. lia.
    - apply Forall_app. split; [done|]. apply Forall_singleton. lia. }
  destruct m as [w|writes|ws]; [by apply He..|]. simpl. case_bool_decide as Hin; [|by apply He].
  split; simpl; try done.
  - intros x Hx. apply Hr. set_solver.
  - split.
    + apply NoDup_app. split_and!; [done| |apply NoDup_singleton]. intros x Hx ->%list_elem_of_singleton. naive_solver.
    + intros x. rewrite elem_of_app, list_elem_of_singleton. intros [Hx| ->]; [|set_solver].
      destruct (Hf x Hx). set_solver.
Qed.

Lemma frames_take_wf s s' : wf max s -> take s = Some s' -> wf max s'.
Proof.
  intros Hwf Ht. pose proof (wf_frames s Hwf) as Hfr. destruct Hwf as [Hc Hs Hch Hq Hsv Hr Hf]. unfold take in Ht.
  destruct (queue s) as [[|q l]|] eqn:Eq; [done| |done]. destruct (serving s) eqn:Es; [done|].
  unfold waiting in Hc. rewrite Eq, Es in Hc. simpl in Hc, Hq. rewrite total_bytes_cons in Hc. apply Forall_cons in Hq as [Hq0 Hq].
  pose proof (total_pos _ _ Hch). pose proof (total_pos _ _ Hq). simpl in Ht. destruct (failed s).
  - injection Ht as <-. unfold uncount. simpl. rewrite wrap_usize_small by lia.
    split; simpl; try done; [|lia]. unfold waiting. simpl. lia.
  - injection Ht as <-. split; simpl; try done. unfold waiting. simpl. lia.
Qed.

Lemma finish_wf s e s' : wf max s -> finish s e = Some s' -> wf max s'.
Proof.
  intros Hwf Ht. pose proof (wf_frames s Hwf) as Hfr. destruct Hwf as [Hc Hs Hch Hq Hsv Hr Hf]. unfold finish in Ht.
  destruct (serving s) as [q|] eqn:Es; [|done]. simpl in Ht, Hsv. injection Ht as <-.
  unfold waiting in Hc. rewrite Es in Hc. simpl in Hc.
  pose proof (total_pos _ _ Hch). pose proof (total_pos _ _ Hq). rewrite wrap_usize_small by lia.
  split; simpl; try done; [|lia]. unfold waiting. simpl. lia.
Qed.

Lemma uncount_all l : forall s,
  Forall (fun m => 0 <= waiting_in m) l -> total waiting_in l <= frames s < 2 ^ 63 ->
  foldl (fun s m => uncount s (waiting_in m)) s l = set_frames s (frames s - total waiting_in l).
Proof.
  induction l as [|m l IH]; intros s Hall Hfr; simpl.
  - destruct s. unfold set_frames. simpl. f_equal. rewrite total_nil. lia.
  - apply Forall_cons in Hall as [Hm Hall]. pose proof (total_pos _ _ Hall). rewrite total_bytes_cons in Hfr |- *.
    assert (frames (uncount s (waiting_in m)) = frames s - waiting_in m) as Hu by (apply uncount_frames; lia).
    rewrite IH by (done || rewrite Hu; lia). rewrite Hu. unfold uncount, set_frames. simpl. f_equal. lia.
Qed.

Lemma exec_wf s l s' :
  wf max s -> match l with LSend b => 0 <= b <= max | _ => True end -> exec s l = Some s' -> wf max s'.
Proof.
  intros Hwf Hl He. pose proof (wf_frames s Hwf) as Hfr. destruct l; simpl in He.
  - injection He as <-. destruct (socket_send s bytes) as [s1|] eqn:E; [|done]. by eapply socket_send_wf.
  - injection He as <-. by apply send_wf.
  - injection He as <-. by apply send_wf.
  - injection He as <-. by apply send_wf.
  - injection He as <-. destruct Hwf as [Hc Hs Hch Hq Hsv Hr [Hnd Hf]]. split; simpl; try done.
    + intros ws. rewrite elem_of_union, elem_of_singleton. intros [->|Hx]; [lia|]. pose proof (Hr ws Hx). lia.
    + split; [done|]. intros ws Hx. destruct (Hf ws Hx). split; [lia|].
      rewrite elem_of_union, elem_of_singleton. intros [->|]; [lia|done].
  - destruct (channel s) as [[|m k]|] eqn:E; [done| |done]. injection He as <-. by apply route_wf.
  - by eapply frames_take_wf.
  - by eapply finish_wf.
  - destruct (channel s) as [k|] eqn:E; [|done]. simpl in He. destruct Hwf as [Hc Hs Hch Hq Hsv Hr [Hnd Hf]].
    rewrite E in Hch. simpl in Hch. unfold waiting in Hc. rewrite E in Hc. simpl in Hc.
    pose proof (total_pos _ _ Hch). pose proof (total_pos _ _ Hq).
    rewrite uncount_all in He by (done || lia). injection He as <-. split; simpl; try done.
    + unfold waiting. simpl. rewrite total_nil. lia.
    + lia.
    + split; [done|]. intros ws Hx. destruct (Hf ws Hx). split; [done|]. apply not_elem_of_empty.
Qed.

(** C35: The counter of the frames that wait is exact: at any time it is the bytes of the
    frames in the channel, in the queue and in hand, also after a failed write or with the
    scheduler gone, and it stays below the limit and one frame more; and no socket of a
    binding response gets two upgrades. *)
Theorem waiting_frames_are_counted s :
  reach max s ->
  frames s = waiting s /\ 0 <= frames s < MAX_WAITING_FRAMES + Z.max 1 max /\ NoDup (forwarded s).
Proof.
  intros Hr. assert (wf max s) as Hwf.
  { revert s Hr. apply reachable_invariant; [intros s <-; apply frames_initial_wf|].
    intros s s' Hwf (l & Hl & He). by eapply exec_wf. }
  pose proof (wf_frames s Hwf). pose proof (w_small _ _ Hwf). split_and!; [apply Hwf|lia|done|apply Hwf].
Qed.

End Bounded.

(** A limit reached: two frames of 40 MiB wait, the third is refused; the first goes out. *)
Definition demo : list label := [LSend 41943040; LSend 41943040; LSend 41943040; LRoute; LRoute; LTake; LFinish false].

Definition demo_end : State := default initial (run_steps exec initial demo).

Definition fits (max : Z) (l : label) : bool := match l with LSend b => (0 <=? b) && (b <=? max) | _ => true end.

Lemma run_reach max ls : forall s s',
  reach max s -> forallb (fits max) ls = true -> run_steps exec s ls = Some s' -> reach max s'.
Proof.
  induction ls as [|l ls IH]; intros s s' Hr Hf He; simpl in *; [by injection He as <-|].
  apply andb_true_iff in Hf as [Hl Hf]. destruct (exec s l) as [s1|] eqn:E; [|done].
  apply (IH s1); [|done|done]. destruct Hr as (s0 & H0 & Hrtc). exists s0. split; [done|].
  eapply rtc_r; [done|]. exists l. split; [|done]. destruct l; simpl in Hl; try done. lia.
Qed.

Lemma frames_demo_reach : reach 41943040 demo_end.
Proof. apply (run_reach _ demo initial); [by exists initial|by vm_compute..]. Qed.

Lemma demo_frames : frames demo_end = 41943040.
Proof. by vm_compute. Qed.

Lemma waiting_frames_are_counted_witness :
  waiting demo_end = 41943040 /\ NoDup (forwarded demo_end).
Proof.
  destruct (waiting_frames_are_counted 41943040 ltac:(lia) demo_end frames_demo_reach) as (H1 & _ & H3).
  rewrite <-H1. split; [exact demo_frames|exact H3].
Defined.

End ObjectFrames.
