(* ===== verification/Scheduler.v ===== *)
(** * The scheduler (src/src/runtime/scheduler.rs)

    The event loop of a context: timers, the cancellation scope of the current
    request, the channels of its WebSockets, and the tasks that run its
    operations and answer the guest. The host operations and their results are
    parameters. *)

From stdpp Require Import base list gmap strings relations.
From Stdlib Require Import ZArith Lia.
From S2P Require Import Prelude.

Module Scheduler.

Definition CallbackId := Z.
Definition StreamId := Z.
Definition WebSocketId := Z.

Definition CANCELLED : string := "Operation cancelled".
Definition PANICKED : string := "invoke: the host function panicked".
Definition STORAGE_FAILED : string := "a storage write of the Durable Object failed".

Section Host.

(** What the host answers, by type. *)
Context {Storage Kv Database D1 Invoke Response Socket : Type}.
Context (storage_error : string -> Storage) (kv_error : string -> Kv)
        (database_error : string -> Database) (invoke_error : string -> Invoke).

(** [D1Error] by its kind, message and statement. *)
Inductive D1ErrorKind := Interrupted | Unavailable.
Context (d1_error : D1ErrorKind -> string -> D1).

Inductive OperationResult :=
| RHttp (r : result Response string)
| RAck
| RStorage (r : Storage)
| RKv (r : Kv)
| RDatabase (r : Database)
| RD1 (r : D1)
| RWebSocket (r : result Socket string)
| RImages
| RInvoke (r : Invoke)
| RObjectStorage
| RUpgrade (response : Response) (socket : Socket).

(** ** Operation tasks *)

Inductive CallbackMessage :=
| ExecuteTimeout (id : CallbackId)
| ExecuteInterval (id : CallbackId)
| FetchError (id : CallbackId) (e : string)
| FetchStreamingSuccess (id : CallbackId) (r : Response) (stream : StreamId)
| BindingUpgrade (id : CallbackId) (r : Response) (ws : WebSocketId)
| StorageResult (id : CallbackId) (r : Storage)
| KvResult (id : CallbackId) (r : Kv)
| DatabaseResult (id : CallbackId) (r : Database)
| D1Result (id : CallbackId) (r : D1)
| InvokeResult (id : CallbackId) (r : Invoke).

(** The operations a guest awaits, with the promise each settles. *)
Inductive Call :=
| FetchStreaming (id : CallbackId)
| BindingFetch (id : CallbackId)
| BindingStorage (id : CallbackId)
| BindingKv (id : CallbackId)
| BindingDatabase (id : CallbackId)
| BindingInvoke (id : CallbackId)
| BindingD1 (id : CallbackId)
| BindingWorker (id : CallbackId)
| BindingDurableObject (id : CallbackId).

(** What happens to the task of a call. [select!] is biased: the cancellation of
    the request wins. [gate_open] is the answer of its output gate, [stream] and
    [ws] the ids it gets, [invoked] the result of a host function, or its panic. *)
Record fate := mkFate {
  cancelled : bool;
  gate_open : bool;
  answer : OperationResult;
  invoked : result Invoke unit;
  stream : StreamId;
  ws : WebSocketId
}.

(** [convert_fetch_result_to_stream] *)
Definition convert_fetch_result_to_stream (r : OperationResult) (sid : StreamId)
  : result (Response * StreamId) string :=
  match r with
  | RHttp (Ok response) => Ok (response, sid)
  | RHttp (Err e) => Err e
  | RAck => Err "Unexpected Ack result for fetch"
  | RStorage _ => Err "Unexpected Storage result for fetch"
  | RKv _ => Err "Unexpected Kv result for fetch"
  | RDatabase _ => Err "Unexpected Database result for fetch"
  | RD1 _ => Err "Unexpected D1 result for fetch"
  | RWebSocket _ => Err "Unexpected WebSocket result for fetch"
  | RImages => Err "Unexpected Images result for fetch"
  | RInvoke _ => Err "Unexpected Invoke result for fetch"
  | RObjectStorage => Err "Unexpected ObjectStorage result for fetch"
  | RUpgrade _ _ => Err "Unexpected Upgrade result for fetch"
  end.

(** The task of [FetchStreaming] and [BindingFetch]. *)
Definition fetch_task (id : CallbackId) (f : fate) : list CallbackMessage :=
  if cancelled f then [FetchError id CANCELLED]
  else if negb (gate_open f) then [FetchError id STORAGE_FAILED]
  else match convert_fetch_result_to_stream (answer f) (stream f) with
       | Ok (meta, sid) => [FetchStreamingSuccess id meta sid]
       | Err e => [FetchError id e]
       end.

(** [answer_binding_request] *)
Definition answer_binding_request (id : CallbackId) (f : fate) : list CallbackMessage :=
  if cancelled f then [FetchError id CANCELLED]
  else if negb (gate_open f) then [FetchError id STORAGE_FAILED]
  else match answer f with
       | RHttp (Ok response) => [FetchStreamingSuccess id response (stream f)]
       | RUpgrade response _ => [BindingUpgrade id response (ws f)]
       | RHttp (Err e) => [FetchError id e]
       | _ => [FetchError id "Unexpected result type for a binding request"]
       end.

(** The callbacks the task of a call sends. *)
Definition task (c : Call) (f : fate) : list CallbackMessage :=
  match c with
  | FetchStreaming id | BindingFetch id => fetch_task id f
  | BindingStorage id =>
      if cancelled f then [StorageResult id (storage_error CANCELLED)]
      else [StorageResult id (match answer f with
                              | RStorage r => r
                              | _ => storage_error "Unexpected result type"
                              end)]
  | BindingKv id =>
      if cancelled f then [KvResult id (kv_error CANCELLED)]
      else [KvResult id (match answer f with RKv r => r | _ => kv_error "Unexpected result type" end)]
  | BindingDatabase id =>
      if cancelled f then [DatabaseResult id (database_error CANCELLED)]
      else [DatabaseResult id (match answer f with
                               | RDatabase r => r
                               | _ => database_error "Unexpected result type"
                               end)]
  | BindingInvoke id =>
      [InvokeResult id (if cancelled f then invoke_error CANCELLED
                        else match invoked f with
                             | Ok r => r
                             | Err _ => invoke_error PANICKED
                             end)]
  | BindingD1 id =>
      if cancelled f then [D1Result id (d1_error Interrupted CANCELLED)]
      else [D1Result id (match answer f with
                         | RD1 r => r
                         | _ => d1_error Unavailable "Unexpected result type"
                         end)]
  | BindingWorker id | BindingDurableObject id => answer_binding_request id f
  end.

Definition call_id (c : Call) : CallbackId :=
  match c with
  | FetchStreaming id | BindingFetch id | BindingStorage id | BindingKv id | BindingDatabase id
  | BindingInvoke id | BindingD1 id | BindingWorker id | BindingDurableObject id => id
  end.

Definition callback_id (m : CallbackMessage) : CallbackId :=
  match m with
  | ExecuteTimeout id | ExecuteInterval id | FetchError id _ | FetchStreamingSuccess id _ _
  | BindingUpgrade id _ _ | StorageResult id _ | KvResult id _ | DatabaseResult id _
  | D1Result id _ | InvokeResult id _ => id
  end.

(** The kind of message the handler of a call expects. *)
Definition settles (c : Call) (m : CallbackMessage) : bool :=
  match c, m with
  | (FetchStreaming _ | BindingFetch _), (FetchError _ _ | FetchStreamingSuccess _ _ _) => true
  | BindingStorage _, StorageResult _ _ => true
  | BindingKv _, KvResult _ _ => true
  | BindingDatabase _, DatabaseResult _ _ => true
  | BindingInvoke _, InvokeResult _ _ => true
  | BindingD1 _, D1Result _ _ => true
  | (BindingWorker _ | BindingDurableObject _),
    (FetchError _ _ | FetchStreamingSuccess _ _ _ | BindingUpgrade _ _ _) => true
  | _, _ => false
  end.

(** ** The event loop *)

Record Timer := mkTimer {
  timer_id : CallbackId;
  is_interval : bool;
  interval_ms : Z
}.

Definition create_timer (id : CallbackId) (delay_ms : Z) (interval : bool) : Timer :=
  mkTimer id interval delay_ms.

Inductive SchedulerMessage :=
| ScheduleTimeout (id : CallbackId) (delay_ms : Z)
| ScheduleInterval (id : CallbackId) (interval_ms : Z)
| ScheduleWritable (id : CallbackId) (stream : StreamId)
| ClearTimer (id : CallbackId)
| Run (c : Call)
| WebSocketConnect (id : CallbackId) (ws : WebSocketId)
| WebSocketPair (ws : WebSocketId)
| WebSocketUpgrade (carried : option WebSocketId)
| WebSocketAccept (ws : WebSocketId)
| WebSocketSend (ws : WebSocketId) (msg : string)
| WebSocketClose (ws : WebSocketId) (code : Z) (reason : string)
| BeginRequest
| Shutdown.

Inductive WebSocketCommand :=
| Attach
| Accept
| Send (msg : string)
| Close (code : Z) (reason : string).

(** A task the loop spawned, under the cancellation scope of its request. A task
    that waits for room in a stream is [SEnded] once it has answered. *)
Inductive Spawned :=
| SWritable (scope : nat) (id : CallbackId) (stream : StreamId)
| SEnded (scope : nat)
| SCall (scope : nat) (c : Call)
| SClient (scope : nat) (channel : nat) (id : CallbackId) (ws : WebSocketId)
| SServer (scope : nat) (channel : nat) (ws : WebSocketId).

(** The state of [run_event_loop]. A command channel is named by its number;
    [commands] keeps what was sent on each. [scope] is [request_cancel], and
    every scope before it is cancelled. *)
Record Loop := mkLoop {
  timers : list Timer;
  cancelled_ids : gset CallbackId;
  shutdown : bool;
  scope : nat;
  ws_commands : gmap WebSocketId nat;
  pairs : option (gset WebSocketId);
  relays : gset WebSocketId;
  next_channel : nat;
  commands : list (nat * WebSocketCommand);
  forwarded : list WebSocketId;
  spawned : list Spawned;
  callbacks : list CallbackMessage
}.

Definition loop_new : Loop := mkLoop [] ∅ false 0 ∅ (Some ∅) ∅ 0 [] [] [] [].

Definition set_timers (l : Loop) (ts : list Timer) (c : gset CallbackId) : Loop :=
  mkLoop ts c (shutdown l) (scope l) (ws_commands l) (pairs l) (relays l) (next_channel l)
    (commands l) (forwarded l) (spawned l) (callbacks l).

Definition send_callback (l : Loop) (m : CallbackMessage) : Loop :=
  mkLoop (timers l) (cancelled_ids l) (shutdown l) (scope l) (ws_commands l) (pairs l) (relays l)
    (next_channel l) (commands l) (forwarded l) (spawned l) (callbacks l ++ [m]).

Definition spawn (l : Loop) (t : Spawned) : Loop :=
  mkLoop (timers l) (cancelled_ids l) (shutdown l) (scope l) (ws_commands l) (pairs l) (relays l)
    (next_channel l) (commands l) (forwarded l) (spawned l ++ [t]) (callbacks l).

(** A new command channel, stored under [ws] if [keep]. *)
Definition open_channel (l : Loop) (ws : WebSocketId) (keep : bool) : nat * Loop :=
  let ch := next_channel l in
  (ch, mkLoop (timers l) (cancelled_ids l) (shutdown l) (scope l)
         (if keep then <[ws := ch]> (ws_commands l) else ws_commands l)
         (if keep then (fun p => {[ws]} ∪ p) <$> pairs l else pairs l)
         (relays l) (S ch) (commands l) (forwarded l) (spawned l) (callbacks l)).

Definition command (l : Loop) (ws : WebSocketId) (c : WebSocketCommand) : Loop :=
  match ws_commands l !! ws with
  | Some ch =>
      mkLoop (timers l) (cancelled_ids l) (shutdown l) (scope l) (ws_commands l) (pairs l) (relays l)
        (next_channel l) (commands l ++ [(ch, c)]) (forwarded l) (spawned l) (callbacks l)
  | None => l
  end.

Definition drop_channels (l : Loop) (gone : gset WebSocketId) : Loop :=
  mkLoop (timers l) (cancelled_ids l) (shutdown l) (scope l)
    (filter (fun kv => fst kv ∉ gone) (ws_commands l)) (pairs l) (relays l)
    (next_channel l) (commands l) (forwarded l) (spawned l) (callbacks l).

(** The response is read: the pair it carries is attached, or the relay it
    carries is forwarded; the other pairs close and the relays go. *)
Definition on_upgrade (l : Loop) (carried : option WebSocketId) : Loop :=
  let unused := default ∅ (pairs l) in
  let rel := relays l in
  let l := mkLoop (timers l) (cancelled_ids l) (shutdown l) (scope l) (ws_commands l) None ∅
             (next_channel l) (commands l) (forwarded l) (spawned l) (callbacks l) in
  match carried with
  | Some ws =>
      if bool_decide (ws ∈ unused) && bool_decide (is_Some (ws_commands l !! ws))
      then drop_channels (command l ws Attach) (unused ∖ {[ws]})
      else
        let l := if bool_decide (ws ∈ rel)
                 then mkLoop (timers l) (cancelled_ids l) (shutdown l) (scope l) (ws_commands l)
                        (pairs l) (relays l) (next_channel l) (commands l) (forwarded l ++ [ws])
                        (spawned l) (callbacks l)
                 else l in
        drop_channels l (unused ∖ {[ws]})
  | None => drop_channels l unused
  end.

(** One message of [run_event_loop]. *)
Definition on_message (l : Loop) (m : SchedulerMessage) : Loop :=
  match m with
  | ScheduleTimeout id delay =>
      set_timers l (timers l ++ [create_timer id delay false]) (cancelled_ids l ∖ {[id]})
  | ScheduleInterval id delay =>
      set_timers l (timers l ++ [create_timer id delay true]) (cancelled_ids l ∖ {[id]})
  | ScheduleWritable id sid => spawn l (SWritable (scope l) id sid)
  | ClearTimer id => set_timers l (timers l) ({[id]} ∪ cancelled_ids l)
  | Run c => spawn l (SCall (scope l) c)
  | WebSocketConnect id ws =>
      let ch := next_channel l in
      spawn (mkLoop (timers l) (cancelled_ids l) (shutdown l) (scope l) (<[ws := ch]> (ws_commands l))
               (pairs l) (relays l) (S ch) (commands l) (forwarded l) (spawned l) (callbacks l))
        (SClient (scope l) ch id ws)
  | WebSocketPair ws =>
      let (ch, l') := open_channel l ws (bool_decide (is_Some (pairs l))) in
      spawn l' (SServer (scope l) ch ws)
  | WebSocketUpgrade carried => on_upgrade l carried
  | WebSocketAccept ws => command l ws Accept
  | WebSocketSend ws msg => command l ws (Send msg)
  | WebSocketClose ws code reason => drop_channels (command l ws (Close code reason)) {[ws]}
  | BeginRequest =>
      mkLoop (timers l) (cancelled_ids l) (shutdown l) (S (scope l)) ∅ (Some ∅) (relays l)
        (next_channel l) (commands l) (forwarded l) (spawned l) (callbacks l)
  | Shutdown =>
      mkLoop (timers l) (cancelled_ids l) true (scope l) (ws_commands l) (pairs l) (relays l)
        (next_channel l) (commands l) (forwarded l) (spawned l) (callbacks l)
  end.

(** The timer at place [k] completes. *)
Definition on_timer (l : Loop) (k : nat) : option Loop :=
  t ← timers l !! k;
  let rest := delete k (timers l) in
  if bool_decide (timer_id t ∈ cancelled_ids l)
  then Some (set_timers l rest (cancelled_ids l ∖ {[timer_id t]}))
  else if is_interval t
  then Some (send_callback (set_timers l (rest ++ [create_timer (timer_id t) (interval_ms t) true])
                              (cancelled_ids l)) (ExecuteInterval (timer_id t)))
  else Some (send_callback (set_timers l rest (cancelled_ids l)) (ExecuteTimeout (timer_id t))).

(** The wait for room of task [k] is over (there is room, the stream is gone or
    closed, or the request is cancelled): it wakes the pump as a timer would. *)
Definition on_writable (l : Loop) (k : nat) : option Loop :=
  match spawned l !! k with
  | Some (SWritable sc id _) =>
      Some (send_callback
              (mkLoop (timers l) (cancelled_ids l) (shutdown l) (scope l) (ws_commands l) (pairs l)
                 (relays l) (next_channel l) (commands l) (forwarded l) (<[k := SEnded sc]> (spawned l))
                 (callbacks l))
              (ExecuteTimeout id))
  | _ => None
  end.

(** The loop ends after a shutdown once no timer is pending. *)
Definition ended (l : Loop) : bool := shutdown l && bool_decide (timers l = []).

(** A message, a timer that completes, a task that put a relay in the table, or
    the task [k] whose wait for room is over. The tasks outlive the loop. *)
Inductive event :=
| Message (m : SchedulerMessage)
| TimerDone (k : nat)
| Relay (ws : WebSocketId)
| WritableDone (k : nat).

Definition add_relay (l : Loop) (ws : WebSocketId) : Loop :=
  mkLoop (timers l) (cancelled_ids l) (shutdown l) (scope l) (ws_commands l) (pairs l)
    ({[ws]} ∪ relays l) (next_channel l) (commands l) (forwarded l) (spawned l) (callbacks l).

Definition turn (l : Loop) (e : event) : option Loop :=
  match e with
  | WritableDone k => on_writable l k
  | _ =>
      if ended l then None
      else match e with
           | Message m => Some (on_message l m)
           | TimerDone k => on_timer l k
           | Relay ws => Some (add_relay l ws)
           | WritableDone k => None
           end
  end.

Fixpoint run (l : Loop) (es : list event) : option Loop :=
  match es with [] => Some l | e :: es => l' ← turn l e; run l' es end.

(** ** Properties *)

(** Every operation the guest awaits is settled exactly once: whatever the
    host answers, whether the request is cancelled, the output gate closes or
    the host function panics, its task sends one message, to its own promise and
    of the kind its handler expects. *)
Theorem every_call_settles_once c f :
  exists m, task c f = [m] /\ callback_id m = call_id c /\ settles c m = true.
Proof.
  destruct c; simpl; unfold fetch_task, answer_binding_request;
    repeat case_match; simplify_eq; eexists; split_and!; reflexivity.
Qed.

(** *** Timers *)

Definition timer_callback (id : CallbackId) (m : CallbackMessage) : bool :=
  match m with
  | ExecuteTimeout i | ExecuteInterval i => bool_decide (i = id)
  | _ => false
  end.

Definition pending (id : CallbackId) (l : Loop) : nat :=
  length (filter (fun t => timer_id t = id) (timers l)).

Definition fired (id : CallbackId) (l : Loop) : nat :=
  length (filter (fun m => timer_callback id m = true) (callbacks l)).

(** The event schedules [id], or is the end of a wait for room under it. *)
Definition schedules (id : CallbackId) (l : Loop) (e : event) : bool :=
  match e with
  | Message (ScheduleTimeout i _) | Message (ScheduleInterval i _) => bool_decide (i = id)
  | WritableDone k =>
      match spawned l !! k with Some (SWritable _ i _) => bool_decide (i = id) | _ => false end
  | _ => false
  end.

(** None of the events of a run does. *)
Fixpoint unscheduled (id : CallbackId) (l : Loop) (es : list event) : bool :=
  match es with
  | [] => true
  | e :: es =>
      negb (schedules id l e) &&
      match turn l e with Some l' => unscheduled id l' es | None => true end
  end.

Lemma command_keeps l ws c :
  timers (command l ws c) = timers l /\ cancelled_ids (command l ws c) = cancelled_ids l /\
  callbacks (command l ws c) = callbacks l /\ scope (command l ws c) = scope l /\
  spawned (command l ws c) = spawned l /\ next_channel (command l ws c) = next_channel l /\
  ws_commands (command l ws c) = ws_commands l.
Proof. unfold command. by case_match. Qed.

Lemma on_upgrade_keeps l carried :
  timers (on_upgrade l carried) = timers l /\ cancelled_ids (on_upgrade l carried) = cancelled_ids l /\
  callbacks (on_upgrade l carried) = callbacks l /\ scope (on_upgrade l carried) = scope l /\
  spawned (on_upgrade l carried) = spawned l /\ next_channel (on_upgrade l carried) = next_channel l.
Proof.
  unfold on_upgrade. destruct carried as [ws|]; [|done].
  destruct (_ && _); simpl; [|by case_match].
  match goal with |- context [command ?x ?w Attach] =>
    destruct (command_keeps x w Attach) as (-> & -> & -> & -> & -> & -> & _) end. done.
Qed.

(** Messages that are not about timers leave them alone. *)
Lemma on_message_timers l m :
  match m with
  | ScheduleTimeout _ _ | ScheduleInterval _ _ | ClearTimer _ => True
  | _ => timers (on_message l m) = timers l /\ cancelled_ids (on_message l m) = cancelled_ids l
  end /\ callbacks (on_message l m) = callbacks l.
Proof.
  destruct m; simpl; try done.
  - destruct (on_upgrade_keeps l carried) as (-> & -> & -> & _). done.
  - destruct (command_keeps l ws0 Accept) as (-> & -> & -> & _). done.
  - destruct (command_keeps l ws0 (Send msg)) as (-> & -> & -> & _). done.
  - destruct (command_keeps l ws0 (Close code reason)) as (-> & -> & -> & _). done.
Qed.

(** A turn is the step of its event. *)
Lemma turn_inv l e l' :
  turn l e = Some l' ->
  match e with
  | Message m => l' = on_message l m
  | TimerDone k => on_timer l k = Some l'
  | Relay ws => l' = add_relay l ws
  | WritableDone k =>
      exists sc id sid, spawned l !! k = Some (SWritable sc id sid) /\ on_writable l k = Some l'
  end.
Proof.
  unfold turn. destruct e as [m|k|ws|k]; try (destruct (ended l); [done|]); intros H; [by simplify_eq|done|by simplify_eq|].
  pose proof H as H'. unfold on_writable in H'. destruct (spawned l !! k) as [[]|] eqn:E; naive_solver.
Qed.

(** A timer that is cleared, at most once in the list, or gone. *)
Definition silent (id : CallbackId) (l : Loop) : Prop :=
  (id ∈ cancelled_ids l /\ pending id l <= 1) \/ pending id l = 0.

Lemma pending_delete id l k t :
  timers l !! k = Some t ->
  pending id l = length (filter (fun t => timer_id t = id) (delete k (timers l))) +
                 (if decide (timer_id t = id) then 1 else 0).
Proof.
  intros Hk. unfold pending. rewrite delete_take_drop.
  rewrite <-(take_drop_middle _ _ _ Hk) at 1. rewrite !filter_app, filter_cons, !length_app.
  case_decide; simpl; lia.
Qed.

Lemma turn_silent id l e l' :
  silent id l -> turn l e = Some l' -> schedules id l e = false -> silent id l' /\ fired id l' = fired id l.
Proof.
  intros Hs H%turn_inv Hsch. destruct e as [m|k|ws0|k]; simplify_eq.
  - destruct (on_message_timers l m) as [Hm Hc]. unfold silent, fired, pending in *. rewrite Hc.
    destruct m; simpl in *; try (by split); try (by destruct Hm as [-> ->]);
      try (apply bool_decide_eq_false in Hsch;
           rewrite filter_app, filter_cons_False, filter_nil, app_nil_r by done; set_solver).
    split; [|done]. set_solver.
  - unfold on_timer in H. destruct (timers l !! k) as [t|] eqn:Hk; simpl in H; [|done].
    pose proof (pending_delete id l k t Hk) as Hp. unfold silent, fired, pending in *.
    case_bool_decide as Hc; simplify_eq/=.
    + split; [|done]. case_decide as Hid; [right; destruct Hs as [[_ ?]|?]; lia|].
      destruct Hs as [[Hin ?]|?]; [left; split; [set_solver|lia]|right; lia].
    + assert (timer_id t <> id) as Hne.
      { intros <-. rewrite decide_True in Hp by done. destruct Hs as [[? _]|?]; [done|lia]. }
      rewrite decide_False in Hp by done.
      destruct (is_interval t); simplify_eq/=;
        rewrite ?filter_app, ?length_app, ?filter_cons_False, ?filter_nil by
          (try (simpl; rewrite bool_decide_false by done); done); simpl;
        rewrite ?Nat.add_0_r in *; (split; [|done]); destruct Hs as [[? ?]|?]; [left|right|left|right];
        (split || idtac); try done; lia.
  - done.
  - destruct H as (sc & i & sid & Hk & H). unfold on_writable in H. simpl in Hsch. rewrite Hk in H, Hsch. simplify_eq.
    split; [done|]. unfold fired. simpl.
    rewrite filter_app, length_app, filter_cons_False, filter_nil by (simpl; by rewrite Hsch). simpl. lia.
Qed.

Lemma run_silent id es : forall l l',
  silent id l -> run l es = Some l' -> unscheduled id l es = true ->
  fired id l' = fired id l.
Proof.
  induction es as [|e es IH]; simpl; intros l l' Hs H Hall.
  - by injection H as <-.
  - apply andb_true_iff in Hall as [He Hall]. destruct (turn l e) as [l1|] eqn:E; simpl in H; [|done].
    apply negb_true_iff in He. destruct (turn_silent id l e l1 Hs E He) as [Hs1 <-]. by apply IH.
Qed.

(** A timer that is cleared does not fire: once [ClearTimer] is processed,
    whatever follows, its callback is not sent again unless the guest schedules
    it anew. *)
Theorem cleared_timer_never_fires id l es l' :
  pending id l <= 1 -> run l (Message (ClearTimer id) :: es) = Some l' ->
  unscheduled id (on_message l (ClearTimer id)) es = true ->
  fired id l' = fired id l.
Proof.
  intros Hp H Hall. cbn [run] in H. unfold turn in H at 1. destruct (ended l); [done|]. simpl in H.
  pose proof (run_silent id es (on_message l (ClearTimer id)) l') as Hrun. simpl in Hrun.
  apply Hrun; [|exact H|done]. left. unfold pending in *. simpl. split; [set_solver|done].
Qed.

(** *** Requests *)

Definition scope_of (t : Spawned) : nat :=
  match t with SWritable s _ _ | SEnded s | SCall s _ | SClient s _ _ _ | SServer s _ _ => s end.

(** Channels from [n] on are the only ones commands go to. *)
Record since (n : nat) (old : list (nat * WebSocketCommand)) (l : Loop) : Prop := {
  since_next : n <= next_channel l;
  since_map : forall ws ch, ws_commands l !! ws = Some ch -> n <= ch;
  since_sent : exists new, commands l = old ++ new /\ Forall (fun c => n <= fst c) new
}.

Lemma command_since n old l ws c : since n old l -> since n old (command l ws c).
Proof.
  intros [Hn Hm (new & Hc & Hf)]. unfold command. destruct (ws_commands l !! ws) as [ch|] eqn:E; [|by split; eauto].
  split; simpl; [done|done|]. exists (new ++ [(ch, c)]). rewrite Hc, app_assoc. split; [done|].
  apply Forall_app. split; [done|]. repeat constructor. simpl. by eapply Hm.
Qed.

Lemma drop_since n old l gone : since n old l -> since n old (drop_channels l gone).
Proof.
  intros [Hn Hm Hc]. split; simpl; [done| |done]. intros ws ch.
  rewrite map_lookup_filter_Some. intros [H _]. by eapply Hm.
Qed.

Lemma upgrade_since n old l carried : since n old l -> since n old (on_upgrade l carried).
Proof.
  intros H. assert (since n old (mkLoop (timers l) (cancelled_ids l) (shutdown l) (scope l) (ws_commands l)
    None ∅ (next_channel l) (commands l) (forwarded l) (spawned l) (callbacks l))) as H0.
  { destruct H as [Hn Hm Hc]. by split. }
  unfold on_upgrade. destruct carried as [ws|]; [|by apply drop_since].
  destruct (_ && _); [by apply drop_since, command_since|]. apply drop_since.
  case_bool_decide; [|done]. destruct H0 as [Hn Hm Hc]. by split.
Qed.

Lemma turn_since n old l e l' : since n old l -> turn l e = Some l' -> since n old l'.
Proof.
  intros H Ht%turn_inv. destruct e as [m|k|ws0|k]; simplify_eq.
  - destruct m; simpl; auto using command_since, drop_since, upgrade_since;
      destruct H as [Hn Hm Hc]; try (by split).
    + split; simpl; [lia| |done]. intros ws' ch. rewrite lookup_insert_Some.
      intros [[_ <-]|[_ ?]]; [done|by eapply Hm].
    + split; simpl; [lia| |done]. intros ws' ch. destruct (bool_decide _); [|apply Hm].
      rewrite lookup_insert_Some. intros [[_ <-]|[_ ?]]; [done|by eapply Hm].
  - unfold on_timer in Ht. destruct (timers l !! k) as [t|]; simpl in Ht; [|done].
    destruct H as [Hn Hm Hc]. repeat case_match; simplify_eq/=; by split.
  - destruct H as [Hn Hm Hc]. by split.
  - destruct Ht as (sc & i & sid & Hk & Ht). unfold on_writable in Ht. rewrite Hk in Ht. simplify_eq.
    destruct H as [Hn Hm Hc]. by split.
Qed.

Lemma turn_scope l e l' :
  turn l e = Some l' -> scope l <= scope l' /\
  (Forall (fun t => scope_of t <= scope l) (spawned l) ->
   Forall (fun t => scope_of t <= scope l') (spawned l')).
Proof.
  intros Ht%turn_inv. destruct e as [m|k|ws0|k]; simplify_eq.
  - destruct m; simpl;
      try match goal with
      | |- context [command ?l ?w ?c] => destruct (command_keeps l w c) as (_ & _ & _ & -> & -> & _)
      | |- context [on_upgrade ?l ?c] => destruct (on_upgrade_keeps l c) as (_ & _ & _ & -> & -> & _)
      end; (split; [lia|]); intros Hf; try done;
      try (apply Forall_app; split; [done|]; repeat constructor; simpl; lia).
    eapply Forall_impl; [exact Hf|]. simpl. lia.
  - unfold on_timer in Ht. destruct (timers l !! k) as [t|]; simpl in Ht; [|done].
    repeat case_match; simplify_eq/=; done.
  - done.
  - destruct Ht as (sc & i & sid & Hk & Ht). unfold on_writable in Ht. rewrite Hk in Ht. simplify_eq/=.
    split; [done|]. intros Hf. apply Forall_insert; [done|]. simpl.
    by apply (proj1 (Forall_lookup _ _) Hf k _ Hk).
Qed.

Lemma run_keeps (P : Loop -> Prop) es : forall l l',
  (forall l e l', P l -> turn l e = Some l' -> P l') -> P l -> run l es = Some l' -> P l'.
Proof.
  induction es as [|e es IH]; simpl; intros l l' Hstep Hl H.
  - by injection H as <-.
  - destruct (turn l e) as [l1|] eqn:E; simpl in H; [|done]. eauto.
Qed.

(** A new request starts clean: after [BeginRequest] every operation and
    socket task of the requests before it runs under a scope that is cancelled,
    and no command of the guest reaches a socket of theirs. *)
Theorem begin_request_ends_the_previous es0 l es l' :
  run loop_new es0 = Some l -> run (on_message l BeginRequest) es = Some l' ->
  Forall (fun t => scope_of t < scope l') (spawned l) /\
  exists new, commands l' = commands l ++ new /\ Forall (fun c => next_channel l <= fst c) new.
Proof.
  intros H0 H. split.
  - assert (Forall (fun t => scope_of t <= scope l) (spawned l)) as Hsp.
    { apply (run_keeps (fun l => Forall (fun t => scope_of t <= scope l) (spawned l)) es0 loop_new l);
        [|constructor|done]. intros l1 e l2 Hf Ht. by apply (turn_scope l1 e l2 Ht). }
    assert (S (scope l) <= scope l') as Hsc.
    { apply (run_keeps (fun x => S (scope l) <= scope x) es (on_message l BeginRequest) l'); [|simpl; lia|done].
      intros l1 e l2 Hle Ht. destruct (turn_scope l1 e l2 Ht). lia. }
    eapply Forall_impl; [exact Hsp|]. simpl. lia.
  - apply (since_sent (next_channel l) (commands l) l').
    apply (run_keeps (since (next_channel l) (commands l)) es (on_message l BeginRequest) l');
      [intros; by eapply turn_since| |done].
    split; simpl; [done| |exists []; by rewrite app_nil_r]. intros ws' ch. by rewrite lookup_empty.
Qed.

End Host.

(** ** Status texts *)

(** [status_text]; an unknown status has none. *)
Definition status_texts : list (Z * string) :=
  [(100, "Continue"); (101, "Switching Protocols"); (200, "OK"); (201, "Created");
   (202, "Accepted"); (204, "No Content"); (206, "Partial Content"); (301, "Moved Permanently");
   (302, "Found"); (303, "See Other"); (304, "Not Modified"); (307, "Temporary Redirect");
   (308, "Permanent Redirect"); (400, "Bad Request"); (401, "Unauthorized"); (403, "Forbidden");
   (404, "Not Found"); (405, "Method Not Allowed"); (408, "Request Timeout"); (409, "Conflict");
   (410, "Gone"); (413, "Payload Too Large"); (415, "Unsupported Media Type");
   (422, "Unprocessable Entity"); (429, "Too Many Requests"); (500, "Internal Server Error");
   (501, "Not Implemented"); (502, "Bad Gateway"); (503, "Service Unavailable");
   (504, "Gateway Timeout")]%Z%string.

Definition status_text (status : Z) : string :=
  match filter (fun p => fst p = status) status_texts with (_, t) :: _ => t | [] => EmptyString end.

(** ** Concrete runs *)

Definition demo_loop := @loop_new string string string string string string.

Lemma cleared_timer_never_fires_witness :
  exists l l', run demo_loop [Message (ScheduleTimeout 1%Z 10%Z); Message (ScheduleInterval 2%Z 5%Z)] = Some l /\
    run l [Message (ClearTimer 2%Z); TimerDone 0; TimerDone 0] = Some l' /\
    fired 2%Z l' = fired 2%Z l /\ fired 1%Z l' = 1.
Proof.
  eexists _, _. split; [reflexivity|]. split; [reflexivity|]. split; [|vm_compute; reflexivity].
  apply (cleared_timer_never_fires 2%Z _ [TimerDone 0; TimerDone 0]); [vm_compute; lia|reflexivity|reflexivity].
Defined.

Lemma begin_request_ends_the_previous_witness :
  exists l l', run demo_loop [Message (Run (FetchStreaming 1%Z)); Message (WebSocketPair 5%Z)] = Some l /\
    run (on_message l BeginRequest) [Message (WebSocketSend 5%Z "hi"%string); Message (WebSocketPair 6%Z);
      Message (WebSocketSend 6%Z "ho"%string)] = Some l' /\
    Forall (fun t => scope_of t < scope l') (spawned l) /\
    exists new, commands l' = commands l ++ new /\ Forall (fun c => next_channel l <= fst c) new.
Proof.
  eexists _, _. split; [reflexivity|]. split; [reflexivity|].
  apply (begin_request_ends_the_previous
    [Message (Run (FetchStreaming 1%Z)); Message (WebSocketPair 5%Z)] _
    [Message (WebSocketSend 5%Z "hi"%string); Message (WebSocketPair 6%Z); Message (WebSocketSend 6%Z "ho"%string)]);
    reflexivity.
Defined.

End Scheduler.
