(* ===== verification/WebSockets.v ===== *)
(** * WebSocket tasks (src/src/runtime/scheduler.rs)

    The task of one socket: [run_websocket] connects, [run_server_websocket]
    waits for the upgrade, and [pump_websocket] moves messages. A run is the
    sequence of what its [select!] yields. *)

From stdpp Require Import base list strings.
From Stdlib Require Import ZArith Lia.
From S2P Require Import Prelude Scheduler.

Module WebSockets.
Import Scheduler.

Inductive End_ := Client | Server.

(** Messages to the peer, and events for the guest. *)
Inductive Outgoing := Msg (m : string) | CloseFrame (code : Z) (reason : string).
Inductive Incoming :=
| Text (m : string)
| Binary (bytes : list Z)
| Closed (code : Z) (reason : string)
| Failed (e : string).  (* [WebSocketIncoming::Error] *)

(** What the [select!] of a socket task can yield. [Peer None] is a dropped
    connection, [Command None] a dropped command channel. *)
Inductive input :=
| Cancel
| Connected (r : result unit string)
| Upgraded (r : result unit unit)
| Command (c : option WebSocketCommand)
| Peer (m : option Incoming).

Inductive phase :=
| Connecting                                                    (* [run_websocket] *)
| Opening (upgrade : bool) (accepted : bool) (early : list string) (* [run_server_websocket] *)
| Pumping (end_ : End_) (accepted : bool)                       (* [pump_websocket] *)
| Over.

Record Task := mkTask {
  at_ : phase;
  to_peer : list Outgoing;
  to_guest : list Incoming;
  connected : list (result unit string)
}.

Definition client : Task := mkTask Connecting [] [] [].
Definition server : Task := mkTask (Opening false false []) [] [] [].

Definition to (t : Task) (p : phase) : Task := mkTask p (to_peer t) (to_guest t) (connected t).
Definition out (t : Task) (m : list Outgoing) : Task :=
  mkTask (at_ t) (to_peer t ++ m) (to_guest t) (connected t).
Definition tell (t : Task) (m : Incoming) : Task :=
  mkTask (at_ t) (to_peer t) (to_guest t ++ [m]) (connected t).
Definition settle (t : Task) (r : result unit string) : Task :=
  mkTask (at_ t) (to_peer t) (to_guest t) (connected t ++ [r]).

Definition is_closed (m : Incoming) : bool := match m with Closed _ _ => true | _ => false end.

(** The loop of [pump_websocket]. *)
Definition pump_websocket (t : Task) (e : End_) (accepted : bool) (i : input) : option Task :=
  match i with
  | Cancel =>
      let (code, reason) := match e with
                            | Client => (1001%Z, CANCELLED)
                            | Server => (1011%Z, "The worker stopped"%string)
                            end in
      Some (to (tell (out t [CloseFrame code reason]) (Closed 1006 reason)) Over)
  | Command None => Some (to t Over)
  | Command (Some Attach) => Some t
  | Command (Some Accept) => Some (to t (Pumping e true))
  | Command (Some (Send m)) => Some (out t [Msg m])
  | Command (Some (Close code reason)) =>
      Some (to (tell (out t [CloseFrame code reason]) (Closed code reason)) Over)
  | Peer m =>
      if accepted then
        let incoming := default (Closed 1006 EmptyString) m in
        Some (if is_closed incoming then to (tell t incoming) Over else tell t incoming)
      else None
  | _ => None
  end.

(** The loop of [run_server_websocket]. *)
Definition run_server_websocket (t : Task) (upgrade accepted : bool) (early : list string) (i : input)
  : option Task :=
  match i with
  | Cancel => Some (to (tell t (Closed 1006 CANCELLED)) Over)
  | Upgraded r =>
      if upgrade then
        match r with
        | Ok _ => Some (to (out t (Msg <$> early)) (Pumping Server accepted))
        | Err _ => Some (to (tell t (Closed 1006 "The client did not upgrade")) Over)
        end
      else None
  | Command (Some Attach) => Some (to t (Opening true accepted early))
  | Command (Some Accept) => Some (to t (Opening upgrade true early))
  | Command (Some (Send m)) => Some (to t (Opening upgrade accepted (early ++ [m])))
  | Command (Some (Close code reason)) => Some (to (tell t (Closed code reason)) Over)
  | Command None => Some (to (tell t (Closed 1006 "The response did not carry the socket")) Over)
  | _ => None
  end.

(** [run_websocket], up to its pump. *)
Definition run_websocket (t : Task) (i : input) : option Task :=
  match i with
  | Cancel => Some (to (settle t (Err CANCELLED)) Over)
  | Connected (Ok _) => Some (to (settle t (Ok tt)) (Pumping Client false))
  | Connected (Err e) => Some (to (settle t (Err e)) Over)
  | _ => None
  end.

Definition step (t : Task) (i : input) : option Task :=
  match at_ t with
  | Connecting => run_websocket t i
  | Opening upgrade accepted early => run_server_websocket t upgrade accepted early i
  | Pumping e accepted => pump_websocket t e accepted i
  | Over => None
  end.

Fixpoint run (t : Task) (inputs : list input) : option Task :=
  match inputs with [] => Some t | i :: rest => t' ← step t i; run t' rest end.

(** ** Invariant *)

(** What the guest asked to send, in its order. *)
Definition sends (inputs : list input) : list string :=
  omap (fun i => match i with Command (Some (Send m)) => Some m | _ => None end) inputs.

Definition waiting (p : phase) : list string :=
  match p with Opening _ _ early => early | _ => [] end.

Definition accepting (p : phase) : bool :=
  match p with Connecting => false | Opening _ a _ | Pumping _ a => a | Over => false end.

Definition accepts (inputs : list input) : bool :=
  existsb (fun i => match i with Command (Some Accept) => true | _ => false end) inputs.

(** At most one close frame or close event, after everything else. *)
Definition last_frame (l : list Outgoing) : Prop := l = [] \/ exists code reason, l = [CloseFrame code reason].
Definition last_event (l : list Incoming) : Prop := l = [] \/ exists code reason, l = [Closed code reason].

Record task_wf (seen : list input) (t : Task) (msgs : list string) (frame : list Outgoing)
    (told closing : list Incoming) : Prop := {
  wf_peer : to_peer t = (Msg <$> msgs) ++ frame;
  wf_guest : to_guest t = told ++ closing;
  wf_told : Forall (fun m => is_closed m = false) told;
  wf_frame : last_frame frame;
  wf_closing : last_event closing;
  wf_open : at_ t <> Over -> frame = [] /\ closing = [] /\ msgs ++ waiting (at_ t) = sends seen;
  wf_prefix : msgs `prefix_of` sends seen;
  wf_accept : accepts seen = false -> accepting (at_ t) = false /\ told = [];
  wf_settled : length (connected t) <= 1 /\
    match at_ t with Connecting => connected t = [] | _ => True end
}.

Lemma sends_snoc seen i :
  sends (seen ++ [i]) = sends seen ++ match i with Command (Some (Send m)) => [m] | _ => [] end.
Proof. unfold sends. rewrite omap_app. f_equal. by destruct i as [| | |[[]|]|]. Qed.

Lemma accepts_snoc seen i :
  accepts (seen ++ [i]) = accepts seen || match i with Command (Some Accept) => true | _ => false end.
Proof. unfold accepts. rewrite existsb_app. simpl. by rewrite orb_false_r. Qed.

Lemma prefix_snoc (l k r : list string) : l `prefix_of` k -> l `prefix_of` k ++ r.
Proof. intros H. etransitivity; [exact H|]. by apply prefix_app_r. Qed.

(** The task goes on, having sent [ms] and told the guest [xs]. *)
Lemma wf_goes_on seen i t t' msgs frame told closing ms xs :
  task_wf seen t msgs frame told closing -> at_ t <> Over ->
  to_peer t' = to_peer t ++ (Msg <$> ms) -> to_guest t' = to_guest t ++ xs -> Forall (fun m => is_closed m = false) xs ->
  at_ t' <> Over ->
  ms ++ waiting (at_ t') = waiting (at_ t) ++ match i with Command (Some (Send m)) => [m] | _ => [] end ->
  (accepts (seen ++ [i]) = false -> accepting (at_ t') = accepting (at_ t) /\
     (accepting (at_ t) = false -> xs = [])) ->
  length (connected t') <= 1 -> match at_ t' with Connecting => connected t' = [] | _ => True end ->
  task_wf (seen ++ [i]) t' (msgs ++ ms) [] (told ++ xs) [].
Proof.
  intros [Hp Hg Ht Hf Hc Ho Hpre Ha Hs] Hov Ep Eg Hxs Hov' Hw Hacc Hl Hc'.
  destruct (Ho Hov) as (-> & -> & Hsend). rewrite app_nil_r in Hp, Hg.
  split; rewrite ?app_nil_r.
  - by rewrite Ep, Hp, fmap_app.
  - by rewrite Eg, Hg.
  - by apply Forall_app.
  - by left.
  - by left.
  - intros _. split_and!; [done|done|]. rewrite sends_snoc, <-Hsend, <-!app_assoc. by rewrite Hw.
  - rewrite sends_snoc, <-Hsend, <-app_assoc, <-Hw. apply prefix_app. by apply prefix_app_r.
  - intros Hn. destruct (Hacc Hn) as [-> Hx]. rewrite accepts_snoc in Hn. apply orb_false_iff in Hn as [Hn _].
    destruct (Ha Hn) as [Hf' ->]. split; [done|]. by rewrite Hx.
  - done.
Qed.

(** The task ends, with a last frame and a last event. *)
Lemma wf_ends seen i t t' msgs frame told closing f c :
  task_wf seen t msgs frame told closing -> at_ t <> Over -> at_ t' = Over ->
  to_peer t' = to_peer t ++ f -> to_guest t' = to_guest t ++ c -> last_frame f -> last_event c ->
  length (connected t') <= 1 ->
  task_wf (seen ++ [i]) t' msgs f told c.
Proof.
  intros [Hp Hg Ht Hf Hc Ho Hpre Ha Hs] Hov Hov' Ep Eg Hlf Hle Hl.
  destruct (Ho Hov) as (-> & -> & Hsend). rewrite app_nil_r in Hp, Hg.
  split; try done.
  - by rewrite Ep, Hp.
  - by rewrite Eg, Hg.
  - rewrite sends_snoc. by apply prefix_snoc.
  - rewrite accepts_snoc, Hov'. intros [Hn _]%orb_false_iff. split; [done|]. by apply Ha.
  - rewrite Hov'. done.
Qed.

Definition good (seen : list input) (t : Task) : Prop :=
  exists msgs frame told closing, task_wf seen t msgs frame told closing.

Lemma last_frame_one code reason : last_frame [CloseFrame code reason].
Proof. right. eauto. Qed.
Lemma last_event_one code reason : last_event [Closed code reason].
Proof. right. eauto. Qed.

(** The two ways a step goes, by what it sent and told. *)
Ltac goes_on Hwf ms xs :=
  eexists _, _, _, _; eapply (wf_goes_on _ _ _ _ _ _ _ _ ms xs Hwf); simpl; rewrite ?app_nil_r;
    try done; try (by repeat constructor); try (rewrite accepts_snoc; simpl; rewrite orb_true_r; done); try lia.
Ltac ends Hwf f c :=
  eexists _, _, _, _; eapply (wf_ends _ _ _ _ _ _ _ _ f c Hwf); simpl; rewrite ?app_nil_r;
    auto using last_frame_one, last_event_one; try (by left); try done; try lia.

Lemma step_good seen t i t' : good seen t -> step t i = Some t' -> good (seen ++ [i]) t'.
Proof.
  intros (msgs & frame & told & closing & Hwf) H.
  pose proof (wf_settled _ _ _ _ _ _ Hwf) as [Hlen Hcon].
  destruct t as [ph peer guest con]. unfold step in H. simpl in *.
  destruct ph as [|up acc early|e acc|]; [| | |done].
  - subst con. destruct i as [|[u|e]|r|c|m]; simplify_eq/=.
    + ends Hwf (@nil Outgoing) (@nil Incoming).
    + goes_on Hwf (@nil string) (@nil Incoming).
    + ends Hwf (@nil Outgoing) (@nil Incoming).
  - destruct i as [|r|r|[[| |m|code reason]|]|m]; simplify_eq/=.
    + ends Hwf (@nil Outgoing) [Closed 1006 CANCELLED].
    + destruct up; [|done]. destruct r; simplify_eq.
      * goes_on Hwf early (@nil Incoming).
      * ends Hwf (@nil Outgoing) [Closed 1006 "The client did not upgrade"].
    + goes_on Hwf (@nil string) (@nil Incoming).
    + goes_on Hwf (@nil string) (@nil Incoming).
    + goes_on Hwf (@nil string) (@nil Incoming).
    + ends Hwf (@nil Outgoing) [Closed code reason].
    + ends Hwf (@nil Outgoing) [Closed 1006 "The response did not carry the socket"].
  - destruct i as [|r|r|[[| |m|code reason]|]|m]; simplify_eq/=.
    + destruct e; simplify_eq.
      * ends Hwf [CloseFrame 1001 CANCELLED] [Closed 1006 CANCELLED].
      * ends Hwf [CloseFrame 1011 "The worker stopped"] [Closed 1006 "The worker stopped"].
    + goes_on Hwf (@nil string) (@nil Incoming).
    + goes_on Hwf (@nil string) (@nil Incoming).
    + goes_on Hwf [m] (@nil Incoming).
    + ends Hwf [CloseFrame code reason] [Closed code reason].
    + ends Hwf (@nil Outgoing) (@nil Incoming).
    + destruct acc; [|done]. destruct m as [[m|b|code reason|e']|]; simplify_eq/=.
      * goes_on Hwf (@nil string) [Text m].
      * goes_on Hwf (@nil string) [Binary b].
      * ends Hwf (@nil Outgoing) [Closed code reason].
      * goes_on Hwf (@nil string) [Failed e'].
      * ends Hwf (@nil Outgoing) [Closed 1006 EmptyString].
Qed.

Lemma run_good inputs : forall seen t t',
  good seen t -> run t inputs = Some t' -> good (seen ++ inputs) t'.
Proof.
  induction inputs as [|i rest IH]; simpl; intros seen t t' Hg H.
  - injection H as <-. by rewrite app_nil_r.
  - destruct (step t i) as [t1|] eqn:E; simpl in H; [|done].
    replace (seen ++ i :: rest) with ((seen ++ [i]) ++ rest) by by rewrite <-app_assoc.
    eapply IH; [|exact H]. by eapply step_good.
Qed.

Lemma start_good t : t = client \/ t = server -> good [] t.
Proof.
  intros [-> | ->]; exists [], [], [], []; split; simpl; try done; try (by left); by split; [lia|].
Qed.

(** A socket task keeps its promises to both ends: the peer gets a prefix of
    what the guest sent, in order, messages sent before the upgrade first, then
    at most one close frame; the guest gets messages and errors only after it
    accepted, then at most one close event; and a connect is answered at most once. *)
Theorem websocket_task_keeps_order t0 inputs t :
  t0 = client \/ t0 = server -> run t0 inputs = Some t ->
  exists msgs frame told closing,
    to_peer t = (Msg <$> msgs) ++ frame /\ last_frame frame /\ msgs `prefix_of` sends inputs /\
    to_guest t = told ++ closing /\ Forall (fun m => is_closed m = false) told /\ last_event closing /\
    (accepts inputs = false -> told = []) /\ length (connected t) <= 1.
Proof.
  intros Ht H. destruct (run_good inputs [] t0 t (start_good t0 Ht) H)
    as (msgs & frame & told & closing & [? ? ? ? ? _ ? Ha [? _]]).
  exists msgs, frame, told, closing. split_and!; try done. intros Hn. by apply Ha.
Qed.

(** A pair that sends before its upgrade, then talks, then is cancelled. *)
Definition demo_inputs : list input :=
  [Command (Some (Send "early")); Command (Some Attach); Command (Some Accept); Upgraded (Ok tt);
   Command (Some (Send "late")); Peer (Some (Text "hello")); Cancel].

Lemma websocket_task_keeps_order_witness :
  exists t, run server demo_inputs = Some t /\ exists msgs frame told closing,
    to_peer t = (Msg <$> msgs) ++ frame /\ last_frame frame /\ msgs `prefix_of` sends demo_inputs /\
    to_guest t = told ++ closing /\ Forall (fun m => is_closed m = false) told /\ last_event closing /\
    (accepts demo_inputs = false -> told = []) /\ length (connected t) <= 1.
Proof.
  eexists. split; [reflexivity|].
  exact (websocket_task_keeps_order server demo_inputs _ (or_intror eq_refl) eq_refl).
Defined.

End WebSockets.
