(* ===== verification/Timers.v ===== *)
(** * Guest timers (src/src/runtime/bindings/timers.rs, async_context.rs)

    The timer functions of the guest with their callback table, the natives they
    call, the async context frame, and their way through the scheduler and back:
    [setTimeout] fills the table and sends a message, the event loop of Scheduler.v
    answers when the timer is due, and [__executeTimer] runs what the table has. The
    table is also what a body pump waits in for room (src/src/js/stream_body.js,
    [writable]). A reset empties it ([clearGuestState] of [make_clear]).

    The guest uses the functions it is given. What it passes them and what its
    callbacks do is a [script]. *)

From stdpp Require Import base list gmap strings.
From Stdlib Require Import ZArith QArith Lia.
From S2P Require Import Prelude Scheduler.

Local Open Scope Z_scope.

Module Timers.
Import Scheduler.

(** ** JavaScript numbers *)

(** The value of [Number(x)]. A finite number is a rational. *)
Inductive number := NaN | Infinite (negative : bool) | Finite (q : Q).

Definition is_integer (n : number) : option Z :=
  match n with
  | Finite q => if (Qnum q mod Zpos (Qden q) =? 0) then Some (Qnum q / Zpos (Qden q)) else None
  | _ => None
  end.

(** [__coerceDelay]; [Math.trunc] rounds towards zero. *)
Definition __coerceDelay (delay : number) : Z :=
  match delay with
  | Finite q => if 0 <? Qnum q then Z.quot (Qnum q) (Zpos (Qden q)) else 0
  | _ => 0
  end.

(** ** The guest *)

(** The async context: no frame, or one of the guest. *)
Definition Frame := option Z.

(** What a piece of guest code does, in order, and whether it ends by throwing. An
    argument that [queueMicrotask] cannot call is [None]. *)
Inductive script := Script (ops : list op) (throws : bool)
with op :=
| OTimeout (delay : number) (callback : script)
| OInterval (interval : number) (callback : script)
| OClear (id : number)
| OMicrotask (callback : option script)
| OFrame (f : Frame)
| OWritable (stream : StreamId).

(** An entry of [__timerCallbacks]: the closure of [__inSettingFrame], or the
    [resolve] of a pump that waits for room. *)
Inductive entry := Callback (frame : Frame) (callback : script) | Resolve.

(** What waits in the table. *)
Inductive kind := Timeout | Interval | Room.

(** What is recorded of a run: an entry is made in the table (under a frame), its
    message is sent, it is cleared, its callback starts (in the frame it sees), its
    pump is woken, the table is reset. *)
Inductive note :=
| TSet (id : Z) (k : kind) (f : Frame)
| TScheduled (id : Z)
| TClear (id : Z)
| TRan (id : Z) (f : Frame)
| TWoken (id : Z)
| TReset.

(** [__timerCallbacks], [__nextTimerId] (exact below 2^53, which no guest reaches),
    [__intervalIds], the continuation-preserved data of V8, the microtasks with the
    frame V8 keeps for each, the channel of the scheduler. *)
Record Guest := mkGuest {
  timerCallbacks : gmap Z entry;
  nextTimerId : Z;
  intervalIds : gset Z;
  frame : Frame;
  microtasks : list (Frame * script);
  sent : list SchedulerMessage;
  log : list note
}.

Definition guest_new : Guest := mkGuest ∅ 1 ∅ None [] [] [].

Definition record (g : Guest) (e : note) : Guest :=
  mkGuest (timerCallbacks g) (nextTimerId g) (intervalIds g) (frame g) (microtasks g) (sent g)
    (log g ++ [e]).

(** [async_context_set] and [clear_async_context] *)
Definition set_frame (g : Guest) (f : Frame) : Guest :=
  mkGuest (timerCallbacks g) (nextTimerId g) (intervalIds g) f (microtasks g) (sent g) (log g).

Definition clear_async_context (g : Guest) : Guest := set_frame g None.

(** The natives: a message to the scheduler. *)
Definition native_send (g : Guest) (m : SchedulerMessage) : Guest :=
  mkGuest (timerCallbacks g) (nextTimerId g) (intervalIds g) (frame g) (microtasks g)
    (sent g ++ [m]) (log g).

(** A new id, with its entry in the table and, for an interval, in [__intervalIds]. *)
Definition enter (g : Guest) (e : entry) (k : kind) : Guest :=
  let id := nextTimerId g in
  mkGuest (<[id := e]> (timerCallbacks g)) (id + 1)
    (match k with Interval => {[id]} ∪ intervalIds g | _ => intervalIds g end)
    (frame g) (microtasks g) (sent g) (log g ++ [TSet id k (frame g)]).

Section Glue.

(** The conversion of an integral number to a [u64] by the glue of the natives:
    [None] where the call throws. *)
Context (u64_of : Z -> option Z).

(** A native call of the guest that names the id of its entry. *)
Definition schedule (g : Guest) (id : Z) (m : SchedulerMessage) : Guest :=
  record (native_send g m) (TScheduled id).

(** [setTimeout] and [setInterval]: the native call throws where the delay is no
    [u64], and the entry stays. *)
Definition setTimeout (g : Guest) (callback : script) (delay : number) : Guest :=
  let id := nextTimerId g in
  let g := enter g (Callback (frame g) callback) Timeout in
  match u64_of (__coerceDelay delay) with
  | Some ms => schedule g id (ScheduleTimeout id ms)
  | None => g
  end.

Definition setInterval (g : Guest) (callback : script) (interval : number) : Guest :=
  let id := nextTimerId g in
  let g := enter g (Callback (frame g) callback) Interval in
  match u64_of (__coerceDelay interval) with
  | Some ms => schedule g id (ScheduleInterval id ms)
  | None => g
  end.

Definition delete_timer (g : Guest) (id : Z) : Guest :=
  mkGuest (delete id (timerCallbacks g)) (nextTimerId g) (intervalIds g ∖ {[id]}) (frame g)
    (microtasks g) (sent g) (log g).

(** [clearTimeout] and [clearInterval] *)
Definition clearTimeout (g : Guest) (id : number) : Guest :=
  match is_integer id with
  | Some id =>
      if id <? 0 then g
      else
        let g := record (delete_timer g id) (TClear id) in
        match u64_of id with Some i => native_send g (ClearTimer i) | None => g end
  | None => g
  end.

(** [queueMicrotask]; [None] throws a TypeError. *)
Definition queueMicrotask (g : Guest) (callback : option script) : Guest :=
  match callback with
  | None => g
  | Some s =>
      mkGuest (timerCallbacks g) (nextTimerId g) (intervalIds g) (frame g)
        (microtasks g ++ [(frame g, s)]) (sent g) (log g)
  end.

(** [writable] of the body pump *)
Definition writable (g : Guest) (stream : StreamId) : Guest :=
  let id := nextTimerId g in
  schedule (enter g Resolve Room) id (ScheduleWritable id stream).

Definition do_op (g : Guest) (o : op) : Guest :=
  match o with
  | OTimeout delay s => setTimeout g s delay
  | OInterval delay s => setInterval g s delay
  | OClear id => clearTimeout g id
  | OMicrotask s => queueMicrotask g s
  | OFrame f => set_frame g f
  | OWritable stream => writable g stream
  end.

Definition perform (g : Guest) (s : script) : Guest :=
  let 'Script ops _ := s in foldl do_op g ops.

Definition throws (s : script) : bool := let 'Script _ t := s in t.

(** [Map.delete] after the callback, unless the id is an interval by then. *)
Definition forget (g : Guest) (id : Z) : Guest :=
  if bool_decide (id ∈ intervalIds g) then g
  else mkGuest (delete id (timerCallbacks g)) (nextTimerId g) (intervalIds g) (frame g)
         (microtasks g) (sent g) (log g).

(** The closure of [__inSettingFrame]: the frame is put back also when the callback
    throws. *)
Definition inSettingFrame (g : Guest) (id : Z) (f : Frame) (callback : script) : Guest :=
  let previous := frame g in
  let g := record (set_frame g f) (TRan id f) in
  set_frame (perform g callback) previous.

(** [__executeTimer]; after a throw the entry stays. *)
Definition __executeTimer (g : Guest) (id : Z) : Guest :=
  match timerCallbacks g !! id with
  | None => g
  | Some Resolve => forget (record g (TWoken id)) id
  | Some (Callback f callback) =>
      let g := inSettingFrame g id f callback in
      if throws callback then g else forget g id
  end.

(** [clearGuestState], the function [make_clear] builds. *)
Definition clearGuestState (g : Guest) : Guest :=
  record (mkGuest ∅ (nextTimerId g) ∅ None (microtasks g) (sent g) (log g)) TReset.

(** ** With the scheduler *)

Section System.
Context {Storage Kv Database D1 Invoke Response : Type}.
Notation Loop := (@Loop Storage Kv Database D1 Invoke Response).
Notation CallbackMessage := (@CallbackMessage Storage Kv Database D1 Invoke Response).

(** [seen] callbacks of the channel of the loop have been received. *)
Record World := mkWorld {
  guest : Guest;
  loop : Loop;
  seen : nat
}.

Definition initial : World := mkWorld guest_new loop_new 0.

(** An event enters the guest, a microtask runs (V8 leaves some frame behind), the
    next callback message is dispatched ([other] is what the guest does if it is no
    timer), the loop takes the next message or meets another event, the host sends a
    message of its own, or the context is reset. *)
Inductive label :=
| LEvent (s : script)
| LMicrotask (left_behind : Frame)
| LDispatch (other : script)
| LDeliver
| LLoop (e : event)
| LHost (m : SchedulerMessage)
| LReset.

Definition of_guest (m : SchedulerMessage) : bool :=
  match m with
  | ScheduleTimeout _ _ | ScheduleInterval _ _ | ScheduleWritable _ _ | ClearTimer _ => true
  | _ => false
  end.

Definition timer_of (m : CallbackMessage) : option Z :=
  match m with ExecuteTimeout id | ExecuteInterval id => Some id | _ => None end.

Definition with_guest (w : World) (g : Guest) : World := mkWorld g (loop w) (seen w).

Definition exec (w : World) (l : label) : option World :=
  match l with
  | LEvent s => Some (with_guest w (perform (clear_async_context (guest w)) s))
  | LMicrotask f =>
      match microtasks (guest w) with
      | [] => None
      | (saved, s) :: rest =>
          let g := guest w in
          let g := mkGuest (timerCallbacks g) (nextTimerId g) (intervalIds g) saved rest (sent g) (log g) in
          Some (with_guest w (set_frame (perform g s) f))
      end
  | LDispatch other =>
      m ← callbacks (loop w) !! seen w;
      let g := clear_async_context (guest w) in
      Some (mkWorld (match timer_of m with Some id => __executeTimer g id | None => perform g other end)
              (loop w) (S (seen w)))
  | LDeliver =>
      match sent (guest w) with
      | [] => None
      | m :: rest =>
          let g := guest w in
          l' ← turn (loop w) (Message m);
          Some (mkWorld (mkGuest (timerCallbacks g) (nextTimerId g) (intervalIds g) (frame g)
                           (microtasks g) rest (log g)) l' (seen w))
      end
  | LLoop e =>
      match e with
      | Message _ => None
      | _ => l' ← turn (loop w) e; Some (mkWorld (guest w) l' (seen w))
      end
  | LHost m => if of_guest m then None else Some (with_guest w (native_send (guest w) m))
  | LReset => Some (mkWorld (clearGuestState (guest w)) (loop w) (length (callbacks (loop w))))
  end.

Definition run : World -> list label -> option World := run_steps exec.
Definition reached (w : World) : Prop := exists ls, run initial ls = Some w.


(** ** What a run keeps *)

(** An entry is made, and ends when it is cleared or the table is reset. *)
Inductive life := Unborn | Alive | Dead.

Definition life_step (id : Z) (s : life) (e : note) : life :=
  match s, e with
  | Unborn, TSet i _ _ => if bool_decide (i = id) then Alive else Unborn
  | Alive, TClear i => if bool_decide (i = id) then Dead else Alive
  | Alive, TReset => Dead
  | s, _ => s
  end.

Definition life_of (id : Z) (l : list note) : life := foldl (life_step id) Unborn l.

(** How often the callback of [id] was started. *)
Definition is_run (id : Z) (e : note) : bool :=
  match e with TRan i _ | TWoken i => bool_decide (i = id) | _ => false end.

Definition count {A} (p : A -> bool) (l : list A) : nat := length (List.filter p l).

Definition runs (id : Z) (l : list note) : nat := count (is_run id) l.

(** Who carries [id]: messages to the loop, the loop, and messages to the guest. *)
Definition names (id : Z) (m : SchedulerMessage) : bool :=
  match m with
  | ScheduleTimeout i _ | ScheduleInterval i _ | ScheduleWritable i _ => bool_decide (i = id)
  | _ => false
  end.

Definition waits_room (id : Z) (t : Spawned) : bool :=
  match t with SWritable _ i _ => bool_decide (i = id) | _ => false end.

Definition in_loop (id : Z) (l : Loop) : nat :=
  count (fun t => bool_decide (timer_id t = id)) (timers l) + count (waits_room id) (spawned l).

Definition base (id : Z) (w : World) : nat := count (names id) (sent (guest w)) + in_loop id (loop w).

Definition unseen (id : Z) (w : World) : nat :=
  count (timer_callback id) (drop (seen w) (callbacks (loop w))).

(** An interval is carried once at all times; the others until they have run. *)
Definition share (k : kind) (id : Z) (w : World) : nat :=
  match k with
  | Interval => base id w
  | _ => base id w + unseen id w + runs id (log (guest w))
  end.

(** Whether the loop will drop the timer [id], once it has taken all messages. *)
Definition doom_step (id : Z) (c : bool) (m : SchedulerMessage) : bool :=
  match m with
  | ClearTimer i => if bool_decide (i = id) then true else c
  | ScheduleTimeout i _ | ScheduleInterval i _ => if bool_decide (i = id) then false else c
  | _ => c
  end.

Definition doomed (id : Z) (w : World) : bool :=
  foldl (doom_step id) (bool_decide (id ∈ cancelled_ids (loop w))) (sent (guest w)).

Lemma timer_count_app {A} (p : A -> bool) l l' : count p (l ++ l') = (count p l + count p l')%nat.
Proof. unfold count. by rewrite List.filter_app, length_app. Qed.

Lemma timer_count_cons {A} (p : A -> bool) x l : count p (x :: l) = ((if p x then 1 else 0) + count p l)%nat.
Proof. unfold count. simpl. by destruct (p x). Qed.

Lemma count_delete {A} (p : A -> bool) l k x :
  l !! k = Some x -> count p l = ((if p x then 1 else 0) + count p (delete k l))%nat.
Proof.
  intros Hk. rewrite delete_take_drop. rewrite <-(take_drop_middle _ _ _ Hk) at 1.
  rewrite !timer_count_app, timer_count_cons. lia.
Qed.

Lemma timer_count_insert {A} (p : A -> bool) l k x y :
  l !! k = Some x -> ((if p x then 1 else 0) + count p (<[k := y]> l))%nat = ((if p y then 1 else 0) + count p l)%nat.
Proof.
  intros Hk. pose proof (lookup_lt_Some _ _ _ Hk). rewrite insert_take_drop by done.
  rewrite <-(take_drop_middle _ _ _ Hk) at 3. rewrite !timer_count_app, !timer_count_cons. lia.
Qed.

Lemma count_zero {A} (p : A -> bool) l x : count p l = 0%nat -> x ∈ l -> p x = false.
Proof.
  induction l as [|y l IH]; [by intros _ H%elem_of_nil|].
  rewrite timer_count_cons. intros H [->|Hx]%elem_of_cons; [destruct (p y); [lia|done]|].
  apply IH; [|done]. destruct (p y); lia.
Qed.

(** *** One step of the loop *)

Definition one (b : bool) : nat := if b then 1 else 0.

Lemma count_one {A} (p : A -> bool) x : count p [x] = one (p x).
Proof. rewrite timer_count_cons. unfold one, count. simpl. lia. Qed.

Definition same_id (id : Z) (t : Timer) : bool := bool_decide (timer_id t = id).

Lemma turn_message (l l' : Loop) m :
  turn l (Message m) = Some l' ->
  callbacks l' = callbacks l /\
  (forall id, in_loop id l' = (in_loop id l + one (names id m))%nat) /\
  (forall id, bool_decide (id ∈ cancelled_ids l') = doom_step id (bool_decide (id ∈ cancelled_ids l)) m) /\
  (forall t, t ∈ timers l' -> t ∈ timers l \/
     (m = ScheduleTimeout (timer_id t) (interval_ms t) /\ is_interval t = false) \/
     (m = ScheduleInterval (timer_id t) (interval_ms t) /\ is_interval t = true)) /\
  (forall sc i sid, SWritable sc i sid ∈ spawned l' -> SWritable sc i sid ∈ spawned l \/ m = ScheduleWritable i sid).
Proof.
  intros ->%turn_inv. split; [apply on_message_timers|].
  destruct m; unfold in_loop; simpl;
    try match goal with
    | |- context [command ?l ?w ?c] => destruct (command_keeps l w c) as (-> & -> & _ & _ & -> & _)
    | |- context [on_upgrade ?l ?c] => destruct (on_upgrade_keeps l c) as (-> & -> & _ & _ & -> & _)
    end;
    split_and!; intros; rewrite ?timer_count_app, ?count_one; simpl; auto with lia;
    try (unfold one; repeat case_bool_decide; set_solver || lia);
    try (match goal with H : _ ∈ _ ++ [_] |- _ => apply elem_of_app in H as [?|?%list_elem_of_singleton] end;
         subst; naive_solver).
Qed.

Lemma turn_timer (l l' : Loop) k :
  turn l (TimerDone k) = Some l' ->
  exists t, timers l !! k = Some t /\
  (forall t', t' ∈ timers l' -> exists t0, t0 ∈ timers l /\ timer_id t' = timer_id t0 /\ is_interval t' = is_interval t0) /\
  spawned l' = spawned l /\
  if bool_decide (timer_id t ∈ cancelled_ids l)
  then callbacks l' = callbacks l /\ cancelled_ids l' = cancelled_ids l ∖ {[timer_id t]} /\
  forall id, in_loop id l = (in_loop id l' + one (same_id id t))%nat
  else cancelled_ids l' = cancelled_ids l /\
  exists m, callbacks l' = callbacks l ++ [m] /\ timer_of m = Some (timer_id t) /\
  forall id, in_loop id l = (in_loop id l' + one (negb (is_interval t) && same_id id t))%nat.
Proof.
  intros H%turn_inv. unfold on_timer in H. destruct (timers l !! k) as [t|] eqn:Hk; simpl in H; [|done].
  exists t. split; [done|].
  assert (forall t', t' ∈ delete k (timers l) -> t' ∈ timers l) as Hd.
  { intros t'. rewrite delete_take_drop. rewrite <-(take_drop_middle _ _ _ Hk) at 3. set_solver. }
  assert (t ∈ timers l) as Ht by by eapply list_elem_of_lookup_2.
  assert (forall id, count (same_id id) (timers l) = (one (same_id id t) + count (same_id id) (delete k (timers l)))%nat) as Hc.
  { intros id. by apply count_delete. }
  unfold same_id in Hc. case_bool_decide; simplify_eq/=.
  { split_and!; [naive_solver|done..|]. intros id. specialize (Hc id). unfold in_loop, same_id in *. simpl. lia. }
  destruct (is_interval t) eqn:Ei; simplify_eq/=.
  - split_and!; [|done..|].
    { intros t' [?|Hs%list_elem_of_singleton]%elem_of_app; [naive_solver|subst; naive_solver]. }
    eexists; split_and!; [done|done|]. intros id. specialize (Hc id). unfold in_loop in *. simpl.
    rewrite timer_count_app, count_one. simpl in *. unfold one in *. lia.
  - split_and!; [naive_solver|done..|]. eexists; split_and!; [done|done|].
    intros id. specialize (Hc id). unfold in_loop, same_id in *. simpl. lia.
Qed.

Lemma turn_room (l l' : Loop) k :
  turn l (WritableDone k) = Some l' ->
  exists sc i sid, SWritable sc i sid ∈ spawned l /\ timers l' = timers l /\ cancelled_ids l' = cancelled_ids l /\
  (forall sc i sid, SWritable sc i sid ∈ spawned l' -> SWritable sc i sid ∈ spawned l) /\
  callbacks l' = callbacks l ++ [ExecuteTimeout i] /\
  forall id, in_loop id l = (in_loop id l' + one (bool_decide (i = id)))%nat.
Proof.
  intros (sc & i & sid & Hk & H)%turn_inv. unfold on_writable in H. rewrite Hk in H. simplify_eq/=.
  exists sc, i, sid. split; [by eapply list_elem_of_lookup_2|]. split_and!; try done.
  - intros sc' i' sid' (j & Hj)%list_elem_of_lookup. apply list_lookup_insert_Some in Hj as [(? & ? & ?)|[_ ?]]; [done|].
    by eapply list_elem_of_lookup_2.
  - intros id. unfold in_loop. simpl.
    pose proof (timer_count_insert (waits_room id) (spawned l) k _ (SEnded sc) Hk) as Hc. simpl in Hc. unfold one.
    case_bool_decide; lia.
Qed.

(** *** The invariant *)

(** Ids that the glue passes exactly: the guest clears no number past 2^53. *)
Definition safe_note (e : note) : Prop := match e with TClear id => id < 2 ^ 53 | _ => True end.
Definition safe (w : World) : Prop := Forall safe_note (log (guest w)).

Definition set_as (id : Z) (k : kind) (w : World) : Prop := exists f, TSet id k f ∈ log (guest w).

Definition quiet (id : Z) (l : list note) : Prop :=
  forall l1 l2, l = l1 ++ l2 -> life_of id l1 = Dead -> runs id l2 = 0%nat.

Definition msg_kind (w : World) (m : SchedulerMessage) : Prop :=
  match m with
  | ScheduleTimeout i _ => set_as i Timeout w
  | ScheduleInterval i _ => set_as i Interval w
  | ScheduleWritable i _ => set_as i Room w
  | _ => True
  end.

Definition timer_kind (t : Timer) : kind := if is_interval t then Interval else Timeout.

Record Inv (w : World) : Prop := {
  i_seen : (seen w <= length (callbacks (loop w)))%nat;
  i_fresh id : nextTimerId (guest w) <= id ->
    life_of id (log (guest w)) = Unborn /\
    (base id w + unseen id w + runs id (log (guest w)) = 0)%nat /\
    id ∉ intervalIds (guest w);
  i_born id k : set_as id k w -> life_of id (log (guest w)) <> Unborn;
  i_uniq id k f k' f' : TSet id k f ∈ log (guest w) -> TSet id k' f' ∈ log (guest w) -> k = k' /\ f = f';
  i_entry id f s : timerCallbacks (guest w) !! id = Some (Callback f s) ->
    exists k, TSet id k f ∈ log (guest w);
  i_sched id : TScheduled id ∈ log (guest w) -> id < nextTimerId (guest w);
  i_ran id f : TRan id f ∈ log (guest w) -> exists k, TSet id k f ∈ log (guest w);
  i_dead id : life_of id (log (guest w)) = Dead -> timerCallbacks (guest w) !! id = None;
  i_quiet id : quiet id (log (guest w));
  i_sent m : m ∈ sent (guest w) -> msg_kind w m;
  i_timers t : t ∈ timers (loop w) -> set_as (timer_id t) (timer_kind t) w;
  i_rooms sc i sid : SWritable sc i sid ∈ spawned (loop w) -> set_as i Room w;
  i_once id k : set_as id k w -> (share k id w <= 1)%nat;
  i_alive id k : set_as id k w -> life_of id (log (guest w)) = Alive ->
    (k = Interval <-> id ∈ intervalIds (guest w)) /\
    (k = Interval \/ runs id (log (guest w)) = 0%nat -> is_Some (timerCallbacks (guest w) !! id));
  i_carried id k : safe w -> TScheduled id ∈ log (guest w) -> set_as id k w ->
    life_of id (log (guest w)) = Alive ->
    (k <> Room -> doomed id w = false) /\ share k id w = 1%nat
}.

Lemma runs_snoc id l e : runs id (l ++ [e]) = (runs id l + one (is_run id e))%nat.
Proof. unfold runs. by rewrite timer_count_app, count_one. Qed.

Lemma life_snoc id l e : life_of id (l ++ [e]) = life_step id (life_of id l) e.
Proof. unfold life_of. by rewrite foldl_app. Qed.

Lemma life_dead_app id l l' : life_of id l = Dead -> life_of id (l ++ l') = Dead.
Proof.
  intros H. unfold life_of in *. rewrite foldl_app, H. induction l' as [|e l' IH]; [done|]. by destruct e.
Qed.

Lemma quiet_snoc id l e :
  quiet id l -> (life_of id l = Dead -> is_run id e = false) -> quiet id (l ++ [e]).
Proof.
  intros Hq He l1 l2 Hl Hd. destruct l2 as [|x l2 _] using rev_ind; [done|].
  rewrite app_assoc in Hl. apply app_inj_tail in Hl as [-> <-]. rewrite runs_snoc, (Hq l1 l2 eq_refl Hd).
  rewrite He; [done|]. by apply life_dead_app.
Qed.

Lemma quiet_skip id l e : quiet id l -> is_run id e = false -> quiet id (l ++ [e]).
Proof. intros. by apply quiet_snoc. Qed.

Lemma safe_snoc w g e : log g = log (guest w) ++ [e] -> safe (with_guest w g) -> safe w.
Proof. unfold safe. simpl. intros ->. by intros [? _]%Forall_app. Qed.

Lemma drop_unseen id (cs new : list CallbackMessage) n :
  (n <= length cs)%nat ->
  count (timer_callback id) (drop n (cs ++ new)) =
  (count (timer_callback id) (drop n cs) + count (timer_callback id) new)%nat.
Proof. intros H. by rewrite drop_app_le, timer_count_app. Qed.

(** The frame and the microtasks play no part. *)
Lemma inv_frame w g :
  Inv w -> timerCallbacks g = timerCallbacks (guest w) -> nextTimerId g = nextTimerId (guest w) ->
  intervalIds g = intervalIds (guest w) -> sent g = sent (guest w) -> log g = log (guest w) ->
  Inv (with_guest w g).
Proof.
  destruct w as [[cb nx iv fr mt st lg] l n], g as [cb' nx' iv' fr' mt' st' lg']. simpl.
  intros H -> -> -> -> ->. destruct H. by constructor.
Qed.

Lemma fresh_set w id k f : Inv w -> TSet id k f ∈ log (guest w) -> id < nextTimerId (guest w).
Proof.
  intros H Hs. destruct (Z.le_gt_cases (nextTimerId (guest w)) id) as [Hle|]; [|lia].
  destruct (i_born _ H id k); [by exists f|]. by apply (i_fresh _ H).
Qed.

(** Membership in a log that grew by one entry. *)
Ltac in_log H :=
  apply elem_of_app in H as [H|H%list_elem_of_singleton]; [|try discriminate H; try (injection H as; subst)].

Lemma inv_enter w e k :
  Inv w -> (forall f s, e = Callback f s -> f = frame (guest w)) ->
  Inv (with_guest w (enter (guest w) e k)).
Proof.
  intros H He. remember (nextTimerId (guest w)) as nx eqn:Hnx.
  assert (nextTimerId (guest w) <= nx) as Hge by lia.
  pose proof (i_fresh _ H nx Hge) as (Hu & Hz & Hi).
  assert (forall k f, TSet nx k f ∈ log (guest w) -> False) as Hnew.
  { intros k' f' Hs%fresh_set; [lia|done]. }
  assert (forall id, life_of id (log (guest w) ++ [TSet nx k (frame (guest w))]) =
            if decide (id = nx) then Alive else life_of id (log (guest w))) as Hlife.
  { intros id. rewrite life_snoc. simpl. case_decide as E; [subst; rewrite Hu; simpl; by rewrite bool_decide_true|].
    destruct (life_of id _); simpl; [by rewrite bool_decide_false|done..]. }
  constructor; simpl; rewrite <-?Hnx.
  - apply H.
  - intros id Hle. rewrite Hlife, decide_False, runs_snoc by lia. simpl.
    pose proof (i_fresh _ H id ltac:(lia)) as (-> & Hz' & Hi'). unfold base, unseen in *. simpl in *.
    split_and!; [done|lia|]. destruct k; set_solver by lia.
  - intros id k' (f & Hs). rewrite Hlife. case_decide as E; [done|]. simpl in Hs. in_log Hs; [|done].
    apply (i_born _ H id k'). by exists f.
  - intros id k1 f1 k2 f2 H1 H2. in_log H1; in_log H2; [by eapply (i_uniq _ H)|by destruct (Hnew k1 f1)|by destruct (Hnew k2 f2)|done].
  - intros id f s [[<- ->]|[Hne Hl]]%lookup_insert_Some.
    + exists k. rewrite (He f s eq_refl). set_solver.
    + destruct (i_entry _ H id f s Hl) as (k' & ?). exists k'. set_solver.
  - intros id Hs. in_log Hs. pose proof (i_sched _ H id Hs). lia.
  - intros id f Hs. in_log Hs. destruct (i_ran _ H id f Hs) as (k' & ?). exists k'. set_solver.
  - intros id. rewrite Hlife. case_decide; [done|]. rewrite lookup_insert_ne by done. apply H.
  - intros id. apply quiet_skip; [apply H|done].
  - intros m Hm. pose proof (i_sent _ H m Hm) as Hk. destruct m; try done; destruct Hk as (f & ?); exists f; set_solver.
  - intros t Ht. destruct (i_timers _ H t Ht) as (f & ?). exists f. set_solver.
  - intros sc i sid Ht. destruct (i_rooms _ H sc i sid Ht) as (f & ?). exists f. set_solver.
  - intros id k' (f & Hs). simpl in Hs. unfold share, base, unseen in *. simpl. rewrite runs_snoc. simpl. in_log Hs.
    + pose proof (i_once _ H id k' (ex_intro _ f Hs)) as Hw. unfold share, base, unseen in Hw. destruct k'; lia.
    + destruct k; lia.
  - intros id k' (f & Hs). rewrite Hlife, runs_snoc. simpl in *. in_log Hs.
    + pose proof (fresh_set _ _ _ _ H Hs) as Hlt. case_decide; [lia|]. intros Ha. rewrite lookup_insert_ne by done.
      destruct (i_alive _ H id k' (ex_intro _ f Hs) Ha) as [-> Hc]. rewrite Nat.add_0_r.
      split; [|done]. destruct k; set_solver.
    + intros _. rewrite lookup_insert_eq. split; [|by eexists]. destruct k; set_solver.
  - intros id k' Hsafe Hsch (f & Hs). simpl in *. in_log Hsch. apply safe_snoc with (e := TSet nx k (frame (guest w))) in Hsafe; [|simpl; by rewrite <-Hnx].
    rewrite Hlife. in_log Hs.
    + pose proof (fresh_set _ _ _ _ H Hs) as Hlt. rewrite decide_False by lia. intros Ha.
      destruct (i_carried _ H id k' Hsafe Hsch (ex_intro _ f Hs) Ha) as [Hd Hw]. split; [apply Hd|].
      unfold share, base, unseen in *. simpl. rewrite runs_snoc. simpl. destruct k'; lia.
    + pose proof (i_sched _ H _ Hsch). lia.
Qed.

Lemma base_send id w m : base id (with_guest w (native_send (guest w) m)) = (base id w + one (names id m))%nat.
Proof. unfold base. simpl. rewrite timer_count_app, count_one. lia. Qed.

Lemma doomed_send id w m : doomed id (with_guest w (native_send (guest w) m)) = doom_step id (doomed id w) m.
Proof. unfold doomed. simpl. by rewrite foldl_app. Qed.

(** A log that grew keeps the kinds. *)
Lemma set_as_snoc w w' e id k : log (guest w') = log (guest w) ++ [e] -> set_as id k w -> set_as id k w'.
Proof. unfold set_as. intros -> (f & ?). exists f. set_solver. Qed.

Lemma msg_kind_snoc w w' e m : log (guest w') = log (guest w) ++ [e] -> msg_kind w m -> msg_kind w' m.
Proof. intros Hl. destruct m; simpl; eauto using set_as_snoc. Qed.

(** The entry is no [TSet]: the kinds are the same. *)
Lemma set_as_other w w' e id k :
  log (guest w') = log (guest w) ++ [e] -> (forall i k f, e <> TSet i k f) -> set_as id k w' <-> set_as id k w.
Proof.
  intros Hl He. split; [|by apply set_as_snoc with (e := e)]. unfold set_as. rewrite Hl.
  intros (f & Hs). apply elem_of_app in Hs as [Hs|Hs%list_elem_of_singleton]; [by exists f|].
  by destruct (He id k f).
Qed.

Lemma inv_schedule w id k m :
  Inv w -> set_as id k w -> (base id w + unseen id w + runs id (log (guest w)) = 0)%nat ->
  (forall i, names i m = bool_decide (id = i)) -> msg_kind w m ->
  (k <> Room -> forall c, doom_step id c m = false) -> (forall i c, i <> id -> doom_step i c m = c) ->
  Inv (with_guest w (schedule (guest w) id m)).
Proof.
  intros H Hset Hz Hn Hm Hd Hd'. set (w' := with_guest w (schedule (guest w) id m)).
  assert (forall i k, set_as i k w' <-> set_as i k w) as Hsa by (intros; by eapply set_as_other).
  assert (forall i, life_of i (log (guest w')) = life_of i (log (guest w))) as Hl.
  { intros i. simpl. rewrite life_snoc. by destruct (life_of i _). }
  assert (forall i, runs i (log (guest w')) = runs i (log (guest w))) as Hr by (intros; simpl; rewrite runs_snoc; simpl; lia).
  assert (forall i, base i w' = (base i w + one (bool_decide (id = i)))%nat) as Hb.
  { intros i. rewrite <-Hn. apply (base_send i w m). }
  assert (forall i, doomed i w' = doom_step i (doomed i w) m) as Hdo by (intros; apply doomed_send).
  assert (id < nextTimerId (guest w)) as Hlt by (destruct Hset; by eapply fresh_set).
  constructor.
  - apply H.
  - intros i Hi. rewrite Hl, Hr, Hb, bool_decide_false by (simpl in Hi; lia). pose proof (i_fresh _ H i Hi). simpl. by rewrite Nat.add_0_r.
  - intros i k'. rewrite Hsa, Hl. apply H.
  - intros i k1 f1 k2 f2. simpl. intros H1 H2. in_log H1. in_log H2. by eapply (i_uniq _ H).
  - intros i f s Hs. destruct (i_entry _ H i f s Hs) as (k' & ?). exists k'. simpl. set_solver.
  - simpl. intros i Hs. in_log Hs; [by apply (i_sched _ H)|done].
  - simpl. intros i f Hs. in_log Hs. destruct (i_ran _ H i f Hs) as (k' & ?). exists k'. set_solver.
  - intros i. rewrite Hl. apply H.
  - intros i. apply quiet_skip; [apply H|done].
  - intros m' Hm'. apply msg_kind_snoc with (w := w) (e := TScheduled id); [done|].
    simpl in Hm'. apply elem_of_app in Hm' as [Hm'|Hm'%list_elem_of_singleton]; [by apply (i_sent _ H)|by subst].
  - intros t Ht. apply Hsa, (i_timers _ H t Ht).
  - intros sc i sid Ht. apply Hsa, (i_rooms _ H sc i sid Ht).
  - intros i k' Hs%Hsa. pose proof (i_once _ H i k' Hs) as Hw. unfold share in *. rewrite Hb, Hr.
    change (unseen i w') with (unseen i w). case_bool_decide as E; [subst i|]; simpl in *; destruct k'; lia.
  - intros i k' Hs%Hsa. rewrite Hl, Hr. by apply (i_alive _ H).
  - intros i k' Hsafe Hsch Hs%Hsa. rewrite Hl, Hdo. intros Ha. unfold share. rewrite Hb, Hr.
    change (unseen i w') with (unseen i w). destruct (decide (id = i)) as [<-|Hne].
    + rewrite bool_decide_true by done. destruct Hset as (f & Hset), Hs as (f' & Hs).
      destruct (i_uniq _ H _ _ _ _ _ Hset Hs) as [<- _]. split; [intros; by apply Hd|]. simpl. destruct k; lia.
    + simpl in Hsch. in_log Hsch; [|done]. apply (safe_snoc w _ (TScheduled id)) in Hsafe; [|done].
      rewrite bool_decide_false, Hd' by done. simpl. rewrite Nat.add_0_r. by apply (i_carried _ H).
Qed.

Lemma inv_launch w e k m :
  Inv w -> (forall f s, e = Callback f s -> f = frame (guest w)) ->
  let id := nextTimerId (guest w) in
  (k, m) = (Timeout, ScheduleTimeout id (match m with ScheduleTimeout _ d => d | _ => 0 end)) \/
  (k, m) = (Interval, ScheduleInterval id (match m with ScheduleInterval _ d => d | _ => 0 end)) \/
  (k, m) = (Room, ScheduleWritable id (match m with ScheduleWritable _ d => d | _ => 0 end)) ->
  Inv (with_guest w (schedule (enter (guest w) e k) id m)).
Proof.
  intros H He id Hm. pose proof (inv_enter w e k H He) as H1.
  pose proof (i_fresh _ H id ltac:(lia)) as (_ & Hz & _).
  assert (set_as id k (with_guest w (enter (guest w) e k))) as Hset.
  { exists (frame (guest w)). simpl. set_solver. }
  apply (inv_schedule (with_guest w (enter (guest w) e k)) id k m H1 Hset).
  - unfold base, unseen in *. simpl in *. rewrite runs_snoc. simpl. lia.
  - intros i. by destruct Hm as [[= -> ->]|[[= -> ->]|[= -> ->]]].
  - by destruct Hm as [[= -> ->]|[[= -> ->]|[= -> ->]]].
  - intros Hk c. destruct Hm as [[= -> ->]|[[= -> ->]|[= -> ->]]]; simpl; by rewrite ?bool_decide_true.
  - intros i c Hi. destruct Hm as [[= -> ->]|[[= -> ->]|[= -> ->]]]; simpl; by rewrite ?bool_decide_false.
Qed.

(** Steps that make no entry: the table shrinks, callbacks start, entries die. *)
Definition plain (e : note) : bool := match e with TSet _ _ _ | TScheduled _ => false | _ => true end.

Record shrinks (w w' : World) (es : list note) : Prop := {
  s_log : log (guest w') = log (guest w) ++ es;
  s_plain : forallb plain es = true;
  s_next : nextTimerId (guest w') = nextTimerId (guest w);
  s_loop : loop w' = loop w;
  s_seen : (seen w' <= length (callbacks (loop w)))%nat;
  s_entry i e : timerCallbacks (guest w') !! i = Some e -> timerCallbacks (guest w) !! i = Some e;
  s_ints i : i ∈ intervalIds (guest w') -> i ∈ intervalIds (guest w);
  s_sent m : m ∈ sent (guest w') -> m ∈ sent (guest w) \/ exists i, m = ClearTimer i;
  s_base i : count (names i) (sent (guest w')) = count (names i) (sent (guest w));
  s_runs i : (unseen i w' + runs i (log (guest w')) <= unseen i w + runs i (log (guest w)))%nat;
  s_ran i f : TRan i f ∈ es -> exists k, TSet i k f ∈ log (guest w);
  s_quiet i : quiet i (log (guest w'));
  s_dead i : life_of i (log (guest w')) = Dead -> timerCallbacks (guest w') !! i = None;
  s_alive i k : set_as i k w -> life_of i (log (guest w')) = Alive ->
    (k = Interval <-> i ∈ intervalIds (guest w')) /\
    (k = Interval \/ runs i (log (guest w')) = 0%nat -> is_Some (timerCallbacks (guest w') !! i));
  s_carried i k : safe w' -> set_as i k w -> life_of i (log (guest w')) = Alive ->
    (doomed i w = false -> doomed i w' = false) /\
    (k <> Interval -> (unseen i w' + runs i (log (guest w')) = unseen i w + runs i (log (guest w)))%nat)
}.

Lemma life_app_plain i l es :
  forallb plain es = true ->
  (life_of i (l ++ es) = Unborn <-> life_of i l = Unborn) /\ (life_of i (l ++ es) = Alive -> life_of i l = Alive).
Proof.
  unfold life_of. rewrite foldl_app. generalize (foldl (life_step i) Unborn l). clear l.
  induction es as [|e es IH]; [done|]. simpl. intros s [He Hes]%andb_true_iff.
  destruct (IH (life_step i s e) Hes) as [-> Ha]. split.
  - destruct s, e; simpl in *; try done; by case_bool_decide.
  - intros Hl%Ha. destruct s, e; simpl in *; try done.
Qed.

Lemma inv_shrinks w w' es : Inv w -> shrinks w w' es -> Inv w'.
Proof.
  intros H S. pose proof (s_log _ _ _ S) as Hlog.
  assert (forall e, e ∈ log (guest w') -> plain e = false -> e ∈ log (guest w)) as Hold.
  { intros e. rewrite Hlog. intros [?|He]%elem_of_app Hp; [done|].
    pose proof (proj1 (forallb_True _ _) (Is_true_true_2 _ (s_plain _ _ _ S))) as Hf.
    rewrite Forall_forall in Hf. apply Hf in He. by rewrite Hp in He. }
  assert (forall e, e ∈ log (guest w) -> e ∈ log (guest w')) as Hnew by (intros e; rewrite Hlog; set_solver).
  assert (forall i k, set_as i k w' <-> set_as i k w) as Hsa.
  { intros i k. split; intros (f & Hf); exists f; auto. }
  assert (forall i, base i w' = base i w) as Hb.
  { intros i. unfold base. by rewrite (s_base _ _ _ S), (s_loop _ _ _ S). }
  assert (safe w' -> safe w) as Hsafe by (unfold safe; rewrite Hlog, Forall_app; tauto).
  pose proof (fun i => life_app_plain i (log (guest w)) es (s_plain _ _ _ S)) as Hlife. rewrite <-Hlog in Hlife.
  constructor.
  - rewrite (s_loop _ _ _ S). apply S.
  - intros i. rewrite (s_next _ _ _ S). intros Hi. destruct (i_fresh _ H i Hi) as (Hu & Hz & Hn).
    split_and!; [by apply Hlife|rewrite Hb; pose proof (s_runs _ _ _ S i); lia|]. intros Hin%(s_ints _ _ _ S). done.
  - intros i k Hs%Hsa Hu%Hlife. by destruct (i_born _ H i k Hs).
  - intros i k f k' f' H1%Hold H2%Hold; [|done..]. by eapply (i_uniq _ H).
  - intros i f s Hs%(s_entry _ _ _ S). destruct (i_entry _ H i f s Hs) as (k & ?). exists k. auto.
  - intros i Hs%Hold; [|done]. rewrite (s_next _ _ _ S). by apply H.
  - intros i f. rewrite Hlog at 1. intros [Hs|Hs]%elem_of_app.
    + destruct (i_ran _ H i f Hs) as (k & ?). exists k. auto.
    + destruct (s_ran _ _ _ S i f Hs) as (k & ?). exists k. auto.
  - apply S.
  - apply S.
  - intros m Hm. destruct (s_sent _ _ _ S m Hm) as [Ho|(i & ->)]; [|done].
    pose proof (i_sent _ H m Ho) as Hk. destruct m; try done; by apply Hsa.
  - intros t. rewrite (s_loop _ _ _ S). intros Ht. by apply Hsa, (i_timers _ H).
  - intros sc i sid. rewrite (s_loop _ _ _ S). intros Ht. by eapply Hsa, (i_rooms _ H).
  - intros i k Hs%Hsa. pose proof (i_once _ H i k Hs) as Hw. unfold share in *. rewrite Hb.
    pose proof (s_runs _ _ _ S i). destruct k; lia.
  - intros i k Hs%Hsa. by apply (s_alive _ _ _ S).
  - intros i k Hsf Hsch%Hold Hs%Hsa Ha; [|done].
    destruct (i_carried _ H i k (Hsafe Hsf) Hsch Hs) as [Hd Hw]; [by apply Hlife|].
    destruct (s_carried _ _ _ S i k Hsf Hs Ha) as [Hd' Hw']. split; [auto|].
    unfold share in *. rewrite Hb. destruct k; [specialize (Hw' ltac:(done)); lia|done|specialize (Hw' ltac:(done)); lia].
Qed.

Context (u64_small : forall z, 0 <= z < 2 ^ 53 -> u64_of z = Some z).

Lemma life_other i l e :
  (forall k f, e <> TSet i k f) -> e <> TClear i -> e <> TReset -> life_of i (l ++ [e]) = life_of i l.
Proof.
  intros H1 H2 H3. rewrite life_snoc. destruct (life_of i l), e; simpl; try done; case_bool_decide; naive_solver.
Qed.

Lemma life_clear i l id : life_of i (l ++ [TClear id]) = Alive -> i <> id /\ life_of i l = Alive.
Proof.
  rewrite life_snoc. destruct (life_of i l); simpl; try done. case_bool_decide; [done|]. naive_solver.
Qed.

Lemma inv_clear w n : Inv w -> Inv (with_guest w (clearTimeout (guest w) n)).
Proof.
  intros H. unfold clearTimeout. destruct (is_integer n) as [id|]; [|by apply inv_frame].
  destruct (Z.ltb_spec id 0) as [|Hid]; [by apply inv_frame|].
  assert (forall s, s = sent (guest w) \/ (exists i, u64_of id = Some i /\ s = sent (guest w) ++ [ClearTimer i]) ->
    Inv (with_guest w (mkGuest (delete id (timerCallbacks (guest w))) (nextTimerId (guest w))
      (intervalIds (guest w) ∖ {[id]}) (frame (guest w)) (microtasks (guest w)) s (log (guest w) ++ [TClear id])))) as Hw;
    [|destruct (u64_of id) eqn:E; apply Hw; [right; eauto|by left]].
  intros s Hs. assert (forall i, runs i (log (guest w) ++ [TClear id]) = runs i (log (guest w))) as Hr.
  { intros i. rewrite runs_snoc. simpl. lia. }
  apply (inv_shrinks w _ [TClear id] H). constructor; simpl; try done.
  - apply H.
  - intros i e [_ ?]%lookup_delete_Some. done.
  - set_solver.
  - intros m Hm. destruct Hs as [->|(i & _ & ->)]; [by left|]. set_solver.
  - intros i. destruct Hs as [->|(j & _ & ->)]; [done|]. rewrite timer_count_app, count_one. simpl. lia.
  - intros i. unfold unseen. simpl. rewrite Hr. lia.
  - set_solver.
  - intros i. apply quiet_skip; [apply H|done].
  - intros i. rewrite life_snoc. destruct (decide (i = id)) as [->|Hne]; [by rewrite lookup_delete_eq|].
    rewrite lookup_delete_ne by done. destruct (life_of i _) eqn:E; simpl; [done| |intros; by apply (i_dead _ H)].
    by rewrite bool_decide_false.
  - intros i k Hk [Hne Ha]%life_clear. rewrite Hr, lookup_delete_ne by done.
    destruct (i_alive _ H i k Hk Ha) as [-> Hc]. split; [set_solver|done].
  - intros i k Hsafe Hk [Hne Ha]%life_clear. unfold unseen. simpl. rewrite Hr. split; [|done].
    unfold doomed. simpl. destruct Hs as [->|(j & Hj & ->)]; [done|]. rewrite foldl_app. simpl. intros ->.
    unfold safe in Hsafe. simpl in Hsafe. apply Forall_app in Hsafe as [_ Hsafe]. rewrite Forall_singleton in Hsafe. simpl in Hsafe.
    rewrite u64_small in Hj by lia. simplify_eq. by rewrite bool_decide_false.
Qed.

Lemma unseen_next w m : callbacks (loop w) !! seen w = Some m ->
  forall g i, unseen i w = (one (timer_callback i m) + unseen i (mkWorld g (loop w) (S (seen w))))%nat.
Proof. intros Hm g i. unfold unseen. simpl. by rewrite (drop_S _ _ _ Hm), timer_count_cons. Qed.

Lemma timer_of_callback (m : CallbackMessage) id i : timer_of m = Some id -> timer_callback i m = bool_decide (id = i).
Proof. by destruct m; intros [= ->]. Qed.

(** A callback of the table starts: [e] is its note. *)
Lemma timer_inv_start w m id e f :
  Inv w -> callbacks (loop w) !! seen w = Some m -> timer_of m = Some id ->
  is_Some (timerCallbacks (guest w) !! id) ->
  (e = TWoken id \/ exists f s, e = TRan id f /\ timerCallbacks (guest w) !! id = Some (Callback f s)) ->
  Inv (mkWorld (record (set_frame (guest w) f) e) (loop w) (S (seen w))).
Proof.
  intros H Hm Ht Hc He. pose proof (lookup_lt_Some _ _ _ Hm) as Hlt.
  pose proof (unseen_next w m Hm (record (set_frame (guest w) f) e)) as Hu.
  assert (forall i, is_run i e = bool_decide (id = i)) as Hr by (intros; by destruct He as [->|(? & ? & -> & _)]).
  assert (forall i, life_of i (log (guest w) ++ [e]) = life_of i (log (guest w))) as Hl.
  { intros i. by apply life_other; destruct He as [->|(? & ? & -> & _)]. }
  apply (inv_shrinks w _ [e] H). constructor; simpl; try done.
  - by destruct He as [->|(? & ? & -> & _)].
  - intros m' ?. by left.
  - intros i. rewrite (Hu i), runs_snoc, Hr, (timer_of_callback m id i Ht). lia.
  - intros i f' Hin%list_elem_of_singleton. destruct He as [->|(f0 & s & -> & Hs)]; [done|].
    injection Hin as -> ->. by eapply (i_entry _ H).
  - intros i. apply quiet_snoc; [apply H|]. intros Hd%(i_dead _ H). rewrite Hr, bool_decide_false; [done|].
    intros ->. rewrite Hd in Hc. by destruct Hc.
  - intros i. rewrite Hl. apply H.
  - intros i k Hk. rewrite Hl, runs_snoc. intros Ha. destruct (i_alive _ H i k Hk Ha) as [? Hc']. split; [done|].
    intros [?|?]; apply Hc'; [by left|right; lia].
  - intros i k _ Hk _. split; [done|]. intros _. rewrite (Hu i), runs_snoc, Hr, (timer_of_callback m id i Ht). lia.
Qed.

(** There is no entry: nothing runs, and nothing is lost. *)
Lemma inv_miss w m id f :
  Inv w -> callbacks (loop w) !! seen w = Some m -> timer_of m = Some id ->
  timerCallbacks (guest w) !! id = None ->
  Inv (mkWorld (set_frame (guest w) f) (loop w) (S (seen w))).
Proof.
  intros H Hm Ht Hc. pose proof (lookup_lt_Some _ _ _ Hm) as Hlt.
  pose proof (unseen_next w m Hm (set_frame (guest w) f)) as Hu.
  apply (inv_shrinks w _ [] H). constructor; simpl; rewrite ?app_nil_r; try done; try apply H.
  - intros m' ?. by left.
  - intros i. rewrite (Hu i). lia.
  - intros i f'. by rewrite elem_of_nil.
  - intros i k _ Hk Ha. split; [done|]. intros Hki. rewrite (Hu i), (timer_of_callback m id i Ht).
    case_bool_decide as E; [subst i|simpl; lia]. destruct (i_alive _ H id k Hk Ha) as [_ Hs].
    pose proof (i_once _ H id k Hk) as Ho. unfold share in Ho.
    rewrite (Hu id), (timer_of_callback m id id Ht), bool_decide_true in Ho by done.
    destruct (runs id (log (guest w))) eqn:E; [|destruct k; simpl in Ho; [lia|done|lia]].
    rewrite Hc in Hs. by destruct Hs as [? ?]; [right|].
Qed.

(** A message that is no timer. *)
Lemma inv_skip w m f :
  Inv w -> callbacks (loop w) !! seen w = Some m -> timer_of m = None ->
  Inv (mkWorld (set_frame (guest w) f) (loop w) (S (seen w))).
Proof.
  intros H Hm Ht. pose proof (lookup_lt_Some _ _ _ Hm) as Hlt.
  assert (forall i, unseen i w = unseen i (mkWorld (set_frame (guest w) f) (loop w) (S (seen w)))) as Hu.
  { intros i. rewrite (unseen_next w m Hm (set_frame (guest w) f) i). by destruct m. }
  apply (inv_shrinks w _ [] H). constructor; simpl; rewrite ?app_nil_r; try done; try apply H.
  - intros m' ?. by left.
  - intros i. rewrite <-(Hu i). lia.
  - intros i f'. by rewrite elem_of_nil.
  - intros i k _ Hk Ha. split; [done|]. intros _. by rewrite <-(Hu i).
Qed.

Lemma inv_forget w id :
  Inv w -> (0 < runs id (log (guest w)))%nat -> Inv (with_guest w (forget (guest w) id)).
Proof.
  intros H Hr. unfold forget. case_bool_decide as Hin; [by apply inv_frame|].
  apply (inv_shrinks w _ [] H). constructor; simpl; rewrite ?app_nil_r; try done; try apply H.
  - intros i e [_ ?]%lookup_delete_Some. done.
  - intros m' ?. by left.
  - intros i f'. by rewrite elem_of_nil.
  - intros i Hd%(i_dead _ H). by rewrite lookup_delete_None, Hd; right.
  - intros i k Hk Ha. destruct (i_alive _ H i k Hk Ha) as [Hi Hc]. split; [done|]. intros Hor.
    destruct (decide (id = i)) as [<-|]; [|rewrite lookup_delete_ne; auto].
    destruct Hor as [->|?]; [by destruct Hin; apply Hi|lia].
Qed.

Lemma inv_reset w :
  Inv w -> Inv (mkWorld (clearGuestState (guest w)) (loop w) (length (callbacks (loop w)))).
Proof.
  intros H. assert (forall i, life_of i (log (guest w) ++ [TReset]) <> Alive) as Hl.
  { intros i. rewrite life_snoc. by destruct (life_of i _). }
  apply (inv_shrinks w _ [TReset] H). constructor; simpl; try done.
  - intros m ?. by left.
  - intros i. unfold unseen. simpl. rewrite drop_all, runs_snoc. simpl. unfold count. simpl. lia.
  - intros i f Hin%list_elem_of_singleton. done.
  - intros i. apply quiet_skip; [apply H|done].
  - intros i k _ Ha. by destruct (Hl i).
  - intros i k _ _ Ha. by destruct (Hl i).
Qed.

(** *** The guest *)

Lemma inv_op w o : Inv w -> Inv (with_guest w (do_op (guest w) o)).
Proof.
  intros H. destruct o as [d s|d s|n|s|f|st]; simpl.
  - unfold setTimeout. destruct (u64_of _); [apply inv_launch; [done|naive_solver|by left]|].
    apply inv_enter; [done|naive_solver].
  - unfold setInterval. destruct (u64_of _); [apply inv_launch; [done|naive_solver|by right; left]|].
    apply inv_enter; [done|naive_solver].
  - by apply inv_clear.
  - destruct s; by apply inv_frame.
  - by apply inv_frame.
  - apply inv_launch; [done|naive_solver|by right; right].
Qed.

Lemma inv_perform w s : Inv w -> Inv (with_guest w (perform (guest w) s)).
Proof.
  destruct s as [ops t]. simpl. revert w. induction ops as [|o ops IH]; intros w H; simpl.
  - by apply inv_frame.
  - apply (IH (with_guest w (do_op (guest w) o))), inv_op, H.
Qed.

Lemma op_log g o : exists es, log (do_op g o) = log g ++ es.
Proof.
  destruct o as [d s|d s|n|[s|]|f|st]; simpl; unfold setTimeout, setInterval, clearTimeout; repeat case_match; simpl;
    rewrite <-?app_assoc; first [by eexists|by exists []; rewrite app_nil_r].
Qed.

Lemma perform_log g s : exists es, log (perform g s) = log g ++ es.
Proof.
  destruct s as [ops t]. simpl. revert g. induction ops as [|o ops IH]; intros g; simpl.
  - exists []. by rewrite app_nil_r.
  - destruct (IH (do_op g o)) as (es & ->), (op_log g o) as (es' & ->). exists (es' ++ es). by rewrite app_assoc.
Qed.

Lemma runs_in id e l : e ∈ l -> is_run id e = true -> (0 < runs id l)%nat.
Proof.
  intros He Hr. destruct (decide (runs id l = 0%nat)) as [E|]; [|lia].
  apply (count_zero _ _ _ E) in He. congruence.
Qed.

Lemma inv_execute w m id :
  Inv w -> callbacks (loop w) !! seen w = Some m -> timer_of m = Some id ->
  Inv (mkWorld (__executeTimer (clear_async_context (guest w)) id) (loop w) (S (seen w))).
Proof.
  intros H Hm Ht. unfold __executeTimer. simpl. destruct (timerCallbacks (guest w) !! id) as [[f s|]|] eqn:Hc.
  - assert (forall g, Inv (mkWorld g (loop w) (S (seen w))) -> forall f, Inv (mkWorld (set_frame (perform g s) f) (loop w) (S (seen w)))) as Hp.
    { intros g Hg f'. apply (inv_frame (mkWorld (perform g s) (loop w) (S (seen w)))); try done. apply (inv_perform _ s Hg). }
    pose proof (timer_inv_start w m id (TRan id f) f H Hm Ht ltac:(by eexists) ltac:(right; eauto)) as H1.
    unfold inSettingFrame. simpl. destruct (throws s); [by apply Hp|].
    apply (inv_forget (mkWorld _ (loop w) (S (seen w)))); [by apply Hp|]. simpl.
    destruct (perform_log (record (set_frame (clear_async_context (guest w)) f) (TRan id f)) s) as (es & ->).
    apply runs_in with (e := TRan id f); [simpl; set_solver|]. simpl. by apply bool_decide_true.
  - apply (inv_forget (mkWorld _ (loop w) (S (seen w)))).
    + apply timer_inv_start with (m := m) (id := id); eauto.
    + apply runs_in with (e := TWoken id); [simpl; set_solver|]. simpl. by apply bool_decide_true.
  - by eapply inv_miss.
Qed.

(** *** The loop *)

Record moves (w w' : World) (new : list CallbackMessage) : Prop := {
  v_guest : timerCallbacks (guest w') = timerCallbacks (guest w) /\
            nextTimerId (guest w') = nextTimerId (guest w) /\
            intervalIds (guest w') = intervalIds (guest w) /\ log (guest w') = log (guest w);
  v_seen : seen w' = seen w;
  v_new : callbacks (loop w') = callbacks (loop w) ++ new;
  v_sent m : m ∈ sent (guest w') -> m ∈ sent (guest w) \/ of_guest m = false;
  v_timers t : t ∈ timers (loop w') -> set_as (timer_id t) (timer_kind t) w;
  v_rooms sc i sid : SWritable sc i sid ∈ spawned (loop w') -> set_as i Room w;
  v_base i : (base i w' <= base i w)%nat;
  v_once i : ~ set_as i Interval w -> (base i w' + count (timer_callback i) new <= base i w)%nat;
  v_kept i k : set_as i k w -> (share k i w <= 1)%nat -> (k <> Room -> doomed i w = false) ->
    (k <> Room -> doomed i w' = false) /\
    (base i w' + (match k with Interval => 0 | _ => count (timer_callback i) new end) = base i w)%nat
}.

Lemma inv_moves w w' new : Inv w -> moves w w' new -> Inv w'.
Proof.
  intros H V. destruct (v_guest _ _ _ V) as (Hc & Hn & Hi & Hl).
  assert (forall i k, set_as i k w' <-> set_as i k w) as Hsa by (intros; unfold set_as; by rewrite Hl).
  assert (forall i, unseen i w' = (unseen i w + count (timer_callback i) new)%nat) as Hu.
  { intros i. unfold unseen. rewrite (v_new _ _ _ V), (v_seen _ _ _ V). apply drop_unseen, H. }
  assert (forall i k, k <> Interval -> set_as i k w -> ~ set_as i Interval w) as Hno.
  { intros i k Hk (f & H1) (f' & H2). by destruct (i_uniq _ H _ _ _ _ _ H1 H2). }
  constructor; rewrite ?Hc, ?Hn, ?Hi, ?Hl; try (intros; apply H; done).
  - rewrite (v_new _ _ _ V), (v_seen _ _ _ V), length_app. pose proof (i_seen _ H). lia.
  - intros i Hle. destruct (i_fresh _ H i Hle) as (Hun & Hz & Hin). split_and!; [done| |done].
    assert (~ set_as i Interval w) as Hns by (intros Hs; by apply (i_born _ H i _ Hs)).
    rewrite Hu. pose proof (v_once _ _ _ V i Hns). lia.
  - intros i k Hs%Hsa. by eapply (i_born _ H).
  - apply H.
  - apply H.
  - intros m Hm. destruct (v_sent _ _ _ V m Hm) as [Ho|Ho]; [|by destruct m].
    pose proof (i_sent _ H m Ho). destruct m; try done; by apply Hsa.
  - intros t Ht. by apply Hsa, (v_timers _ _ _ V).
  - intros sc i sid Ht. by eapply Hsa, (v_rooms _ _ _ V).
  - intros i k Hs%Hsa. pose proof (i_once _ H i k Hs) as Ho. unfold share in *. rewrite Hu, Hl.
    pose proof (v_base _ _ _ V i). pose proof (v_once _ _ _ V i). pose proof (Hno i k). destruct k; [|lia|];
      assert (~ set_as i Interval w) by auto; naive_solver lia.
  - intros i k Hs%Hsa. by apply (i_alive _ H).
  - intros i k Hsafe Hsch Hs%Hsa Ha. unfold safe in Hsafe. rewrite Hl in Hsafe.
    destruct (i_carried _ H i k Hsafe Hsch Hs Ha) as [Hd Hw].
    destruct (v_kept _ _ _ V i k Hs ltac:(lia) Hd) as [Hd' Hb]. split; [done|].
    unfold share in *. rewrite Hu, Hl. destruct k; lia.
Qed.

Lemma moves_refl_kinds w : Inv w ->
  (forall t, t ∈ timers (loop w) -> set_as (timer_id t) (timer_kind t) w) /\
  (forall sc i sid, SWritable sc i sid ∈ spawned (loop w) -> set_as i Room w).
Proof. intros H. split; intros; [by apply (i_timers _ H)|by eapply (i_rooms _ H)]. Qed.

Lemma inv_deliver w m rest l' :
  Inv w -> sent (guest w) = m :: rest -> turn (loop w) (Message m) = Some l' ->
  Inv (mkWorld (mkGuest (timerCallbacks (guest w)) (nextTimerId (guest w)) (intervalIds (guest w))
                  (frame (guest w)) (microtasks (guest w)) rest (log (guest w))) l' (seen w)).
Proof.
  intros H Hs Ht. destruct (turn_message _ _ _ Ht) as (Hc & Hin & Hcan & Htm & Hrm).
  pose proof (i_sent _ H m ltac:(rewrite Hs; set_solver)) as Hk.
  match goal with |- Inv ?x => assert (forall i, base i x = base i w) as Hb end.
  { intros i. unfold base. simpl. rewrite Hs, timer_count_cons, Hin. unfold one. lia. }
  match goal with |- Inv ?x => assert (forall i, doomed i x = doomed i w) as Hd end.
  { intros i. unfold doomed. simpl. by rewrite Hs, Hcan. }
  apply (inv_moves w _ [] H). constructor; try done.
  - by rewrite app_nil_r.
  - simpl. intros m' ?. left. rewrite Hs. set_solver.
  - intros t [?|[[-> Hi]|[-> Hi]]]%Htm; [by apply (i_timers _ H)|..]; unfold timer_kind; by rewrite Hi.
  - intros sc i sid [?| ->]%Hrm; [by eapply (i_rooms _ H)|done].
  - intros i. by rewrite Hb.
  - intros i _. rewrite Hb. unfold count. simpl. lia.
  - intros i k _ _ Hdo. rewrite Hd, Hb. split; [done|]. unfold count. destruct k; simpl; lia.
Qed.

Lemma doomed_cancelled i l : count (names i) l = 0%nat -> foldl (doom_step i) true l = true.
Proof.
  induction l as [|m l IH]; [done|]. rewrite timer_count_cons. intros Hz.
  assert (names i m = false) as Hn by (destruct (names i m); [lia|done]). rewrite Hn in Hz.
  simpl. replace (doom_step i true m) with true; [by apply IH|].
  destruct m; simpl in *; try done; try by rewrite Hn. by case_bool_decide.
Qed.

Lemma inv_timer w k l' :
  Inv w -> turn (loop w) (TimerDone k) = Some l' -> Inv (mkWorld (guest w) l' (seen w)).
Proof.
  intros H Ht. destruct (turn_timer _ _ _ Ht) as (t & Hk & Htm & Hsp & Hcase).
  assert (t ∈ timers (loop w)) as Hin by by eapply list_elem_of_lookup_2.
  pose proof (i_timers _ H t Hin) as (f & Hset).
  assert (forall t', t' ∈ timers l' -> set_as (timer_id t') (timer_kind t') w) as Hkinds.
  { intros t' (t0 & H0 & -> & Hint)%Htm. unfold timer_kind. rewrite Hint. by apply (i_timers _ H). }
  case_bool_decide as Hcan.
  - destruct Hcase as (Hcb & Hc' & Hn).
    assert (forall i, base i w = (base i (mkWorld (guest w) l' (seen w)) + one (same_id i t))%nat) as Hb.
    { intros i. unfold base. simpl. rewrite Hn. lia. }
    apply (inv_moves w _ [] H). constructor; simpl; try done; rewrite ?app_nil_r; auto.
    + rewrite Hsp. apply H.
    + intros i. rewrite (Hb i). lia.
    + intros i _. rewrite (Hb i). unfold count. simpl. lia.
    + intros i kd (f' & Hi) Hsh Hdo. rewrite (Hb i). unfold same_id. case_bool_decide as E.
      * exfalso. subst i. destruct (i_uniq _ H _ _ _ _ _ Hset Hi) as [<- _].
        assert (doomed (timer_id t) w = true) as Hd.
        { unfold doomed. rewrite bool_decide_true by done. apply doomed_cancelled.
          specialize (Hb (timer_id t)). unfold same_id in Hb. rewrite bool_decide_true in Hb by done.
          specialize (Hn (timer_id t)). unfold same_id in Hn. rewrite bool_decide_true in Hn by done.
          unfold share, base in *. simpl in *. destruct (timer_kind t); lia. }
        rewrite Hdo in Hd; [done|]. unfold timer_kind. by destruct (is_interval t).
      * split; [|unfold count; simpl; destruct kd; lia]. intros Hr. specialize (Hdo Hr). unfold doomed in *. simpl.
        rewrite Hc'. replace (bool_decide (i ∈ _ ∖ _)) with (bool_decide (i ∈ cancelled_ids (loop w))); [done|].
        apply bool_decide_ext. set_solver.
  - destruct Hcase as (Hc' & m & Hcb & Hm & Hn).
    assert (forall i, base i w = (base i (mkWorld (guest w) l' (seen w)) + one (negb (is_interval t) && same_id i t))%nat) as Hb.
    { intros i. unfold base. simpl. rewrite Hn. lia. }
    apply (inv_moves w _ [m] H). constructor; simpl; try done; auto.
    + rewrite Hsp. apply H.
    + intros i. rewrite (Hb i). lia.
    + intros i Hno. rewrite (Hb i), count_one, (timer_of_callback m _ i Hm). unfold same_id.
      destruct (decide (timer_id t = i)) as [<-|E];
        [rewrite !bool_decide_true by done|rewrite !bool_decide_false by done; rewrite andb_false_r; simpl; lia]. destruct (is_interval t) eqn:Ei; simpl; [|lia].
      destruct Hno. exists f. unfold timer_kind in Hset. by rewrite Ei in Hset.
    + intros i kd (f' & Hi) _ Hdo. split; [unfold doomed in *; simpl; by rewrite Hc'|].
      rewrite (Hb i), count_one, (timer_of_callback m _ i Hm). unfold same_id. destruct (decide (timer_id t = i)) as [<-|E].
      * rewrite !bool_decide_true by done. destruct (i_uniq _ H _ _ _ _ _ Hset Hi) as [<- _]. unfold timer_kind. destruct (is_interval t); simpl; lia.
      * rewrite !bool_decide_false by done. rewrite andb_false_r. simpl. destruct kd; lia.
Qed.

Lemma inv_room w k l' :
  Inv w -> turn (loop w) (WritableDone k) = Some l' -> Inv (mkWorld (guest w) l' (seen w)).
Proof.
  intros H Ht. destruct (turn_room _ _ _ Ht) as (sc & id & sid & Hin & Htm & Hc & Hrm & Hcb & Hn).
  destruct (i_rooms _ H _ _ _ Hin) as (f & Hset).
  assert (forall i, base i w = (base i (mkWorld (guest w) l' (seen w)) + one (bool_decide (id = i)))%nat) as Hb.
  { intros i. unfold base. simpl. rewrite Hn. lia. }
  apply (inv_moves w _ [ExecuteTimeout id] H). constructor; simpl; try done; auto.
  - rewrite Htm. apply H.
  - intros sc' i sid' ?%Hrm. by eapply (i_rooms _ H).
  - intros i. rewrite (Hb i). lia.
  - intros i _. rewrite (Hb i), count_one. simpl. lia.
  - intros i kd (f' & Hi) _ Hdo. split; [unfold doomed in *; simpl; by rewrite Hc|].
    rewrite (Hb i), count_one. simpl. case_bool_decide as E; [|simpl; destruct kd; lia].
    subst i. by destruct (i_uniq _ H _ _ _ _ _ Hset Hi) as [<- _].
Qed.

Lemma inv_host w m : Inv w -> of_guest m = false -> Inv (with_guest w (native_send (guest w) m)).
Proof.
  intros H Hm. assert (forall i, names i m = false) as Hn by (intros; by destruct m).
  apply (inv_moves w _ [] H). constructor; simpl; rewrite ?app_nil_r; try done; try apply H.
  - set_solver.
  - intros i. rewrite base_send, Hn. simpl. lia.
  - intros i _. rewrite base_send, Hn. unfold count. simpl. lia.
  - intros i k _ _ Hd. rewrite doomed_send, base_send, Hn. split; [|unfold count; simpl; destruct k; lia].
    intros Hk. rewrite Hd by done. by destruct m.
Qed.

Lemma timer_inv_step w l w' : Inv w -> exec w l = Some w' -> Inv w'.
Proof.
  intros H. destruct l as [s|f|s| |e|m|]; unfold exec.
  - intros [= <-]. by apply (inv_perform (with_guest w (clear_async_context (guest w)))), inv_frame.
  - destruct (microtasks (guest w)) as [|[saved s] rest]; [done|]. intros [= <-].
    match goal with |- context [perform ?g s] => pose proof (inv_perform (with_guest w g) s) as Hp end.
    refine (inv_frame (with_guest w _) _ (Hp _) _ _ _ _ _); try done. by apply inv_frame.
  - destruct (callbacks (loop w) !! seen w) as [m|] eqn:Hm; simpl; [|done]. intros [= <-].
    destruct (timer_of m) as [id|] eqn:Ht; [by eapply inv_execute|].
    by eapply (inv_perform (mkWorld _ (loop w) (S (seen w))) s), inv_skip.
  - destruct (sent (guest w)) as [|m rest] eqn:Hs; [done|].
    destruct (turn (loop w) (Message m)) as [l'|] eqn:Ht; [|done]. intros [= <-]. by eapply inv_deliver.
  - destruct (match e with Message _ => true | _ => false end) eqn:He; [by destruct e|].
    intros Hx. assert (exists l', turn (loop w) e = Some l' /\ w' = mkWorld (guest w) l' (seen w)) as (l' & Ht & ->).
    { destruct e; try done;
        match type of Hx with context [turn (loop w) ?e] => destruct (turn (loop w) e) as [l'|]; [|done] end;
        injection Hx as <-; eauto. }
    destruct e as [| k | ws | k]; [done|by eapply inv_timer| |by eapply inv_room].
    apply turn_inv in Ht as ->. destruct H. by constructor.
  - destruct (of_guest m) eqn:Hm; [done|]. intros [= <-]. by apply inv_host.
  - intros [= <-]. by apply inv_reset.
Qed.

Lemma inv_initial : Inv initial.
Proof.
  constructor; simpl; try done; try (intros; by match goal with H : _ ∈ [] |- _ => apply elem_of_nil in H end);
    try (intros ? ? (? & ?%elem_of_nil); done).
  intros id l1 l2 [-> ->]%symmetry%app_nil. done.
Qed.

Lemma timer_inv_reached w : reached w -> Inv w.
Proof.
  intros (ls & Hr). revert Hr. unfold run. generalize inv_initial. generalize initial.
  induction ls as [|l ls IH]; simpl; intros w0 H0 Hr; [by simplify_eq|].
  destruct (exec w0 l) as [w1|] eqn:E; simpl in Hr; [|done]. eapply IH; [|exact Hr]. by eapply timer_inv_step.
Qed.

(** ** Properties *)

(** A timeout runs at most once, and a pump that waits for room is woken at most
    once, whatever the guest, the host and the scheduler do and in whatever order:
    also if its callback throws and stays in the table, and over any number of
    resets. *)
Theorem timeouts_run_at_most_once w id k :
  reached w -> set_as id k w -> k <> Interval -> (runs id (log (guest w)) <= 1)%nat.
Proof. intros H%timer_inv_reached Hs Hk. pose proof (i_once _ H id k Hs) as Ho. unfold share in Ho. destruct k; [lia|done|lia]. Qed.

(** A timer runs in the async context of the code that set it: the frame its
    callback sees is the one that was current when its id was given out, and no other
    code was given that id. *)
Theorem timers_run_in_their_frame w id f :
  reached w -> TRan id f ∈ log (guest w) ->
  exists k, TSet id k f ∈ log (guest w) /\ forall k' f', TSet id k' f' ∈ log (guest w) -> k' = k /\ f' = f.
Proof.
  intros H%timer_inv_reached Hr. destruct (i_ran _ H id f Hr) as (k & Hs). exists k. split; [done|].
  intros k' f' Hs'. by eapply (i_uniq _ H).
Qed.

(** Once a timer is cleared, or the context is reset, its callback does not run
    again, even if the scheduler had already sent its message or sends it later, in
    the next request. *)
Theorem ended_timers_stay_silent w id l1 l2 :
  reached w -> log (guest w) = l1 ++ l2 -> life_of id l1 = Dead -> runs id l2 = 0%nat.
Proof. intros H%timer_inv_reached Hl Hd. by apply (i_quiet _ H id l1 l2). Qed.

(** C30: No timer is lost. As long as a timer that [setTimeout] or [setInterval]
    returned is neither cleared nor reset, an interval is in the table, stays an
    interval and is carried by exactly one message or timer of the loop, which will not
    drop it; a timeout or a wait for room is carried by exactly one of them until it has
    run, and is in the table till then. So a timeout of which nothing is under way has
    run. *)
Theorem timers_are_never_lost w id k :
  reached w -> safe w -> TScheduled id ∈ log (guest w) -> set_as id k w ->
  life_of id (log (guest w)) = Alive ->
  (k <> Room -> doomed id w = false) /\
  match k with
  | Interval => base id w = 1%nat /\ is_Some (timerCallbacks (guest w) !! id) /\ id ∈ intervalIds (guest w)
  | _ => (base id w + unseen id w + runs id (log (guest w)) = 1)%nat /\
         (runs id (log (guest w)) = 0%nat -> is_Some (timerCallbacks (guest w) !! id))
  end.
Proof.
  intros H%timer_inv_reached Hsafe Hsch Hs Ha. destruct (i_carried _ H id k Hsafe Hsch Hs Ha) as [Hd Hw].
  destruct (i_alive _ H id k Hs Ha) as [Hi Hc]. split; [done|]. destruct k; unfold share in Hw; naive_solver.
Qed.

(** The frame that was current before a timer is current after it, also if the
    callback set another one or threw. *)
Lemma execute_restores_frame g id : frame (__executeTimer g id) = frame g.
Proof.
  unfold __executeTimer, forget, inSettingFrame. destruct (timerCallbacks g !! id) as [[f s|]|]; [|by case_match|done].
  destruct (throws s); [done|]. by case_match.
Qed.


End System.
End Glue.
(** ** Concrete runs *)

Definition demo_u64 (z : Z) : option Z := if (0 <=? z) && (z <? 2 ^ 64) then Some z else None.

Lemma demo_u64_small z : 0 <= z < 2 ^ 53 -> demo_u64 z = Some z.
Proof.
  intros [H1 H2]. unfold demo_u64. destruct (Z.leb_spec 0 z); [|lia]. destruct (Z.ltb_spec z (2 ^ 64)); [done|lia].
Qed.

Definition demo_run := @run demo_u64 string string string string string string.
Definition num (z : Z) : number := Finite (z # 1).

(** A timeout of 5.7 ms that throws, an interval set in frame 7 that clears itself at
    its second run, and a wait for room. *)
Definition demo : list label :=
  [LEvent (Script [OTimeout (Finite (57 # 10)) (Script [] true); OFrame (Some 7);
                   OInterval (num 3) (Script [OFrame (Some 9)] false); OWritable 4] false);
   LDeliver; LDeliver; LDeliver;
   LLoop (TimerDone 0); LLoop (TimerDone 0); LLoop (WritableDone 0); LLoop (TimerDone 0);
   LDispatch (Script [] false); LDispatch (Script [] false); LDispatch (Script [] false)].

Definition demo_end : option World := demo_run initial demo.

(** What the guest ran: the throwing timeout is still in the table, the interval has
    one more tick on its way. *)
Example demo_ran :
  (fun w => (List.filter (fun e => match e with TRan _ _ | TWoken _ => true | _ => false end) (log (guest w)),
             (map_to_list (timerCallbacks (guest w))).*1, unseen 2 w, frame (guest w))) <$> demo_end =
  Some ([TRan 1 None; TRan 2 (Some 7); TWoken 3], [2; 1], 1%nat, None).
Proof. vm_compute. reflexivity. Qed.

Lemma timeouts_run_at_most_once_witness :
  exists w, demo_end = Some w /\ runs 1 (log (guest w)) = 1%nat /\ (runs 1 (log (guest w)) <= 1)%nat.
Proof.
  eexists. split; [vm_compute; reflexivity|]. split; [reflexivity|].
  apply (timeouts_run_at_most_once demo_u64 demo_u64_small _ 1 Timeout);
    [exists demo; vm_compute; reflexivity|exists None; simpl; set_solver|done].
Defined.

Lemma timers_run_in_their_frame_witness :
  exists w, demo_end = Some w /\ exists k, TSet 2 k (Some 7) ∈ log (guest w) /\
    forall k' f', TSet 2 k' f' ∈ log (guest w) -> k' = k /\ f' = Some 7.
Proof.
  eexists. split; [vm_compute; reflexivity|].
  apply (timers_run_in_their_frame demo_u64 demo_u64_small);
    [exists demo; vm_compute; reflexivity|simpl; set_solver].
Defined.

Definition demo_cleared : list label :=
  demo ++ [LEvent (Script [OClear (num 2)] false); LDispatch (Script [] false); LReset].

Lemma ended_timers_stay_silent_witness :
  exists w, demo_run initial demo_cleared = Some w /\ life_of 2 (take 10 (log (guest w))) = Dead /\
    runs 2 (drop 10 (log (guest w))) = 0%nat.
Proof.
  eexists. split; [vm_compute; reflexivity|]. split; [vm_compute; reflexivity|].
  match goal with |- runs 2 (drop 10 (log (guest ?w))) = _ =>
    apply (ended_timers_stay_silent demo_u64 demo_u64_small w 2 (take 10 (log (guest w)))) end;
    [exists demo_cleared; vm_compute; reflexivity|symmetry; apply take_drop|vm_compute; reflexivity].
Defined.

Lemma timers_are_never_lost_witness :
  exists w, demo_end = Some w /\ base 2 w = 1%nat /\ 2 ∈ intervalIds (guest w).
Proof.
  eexists. split; [vm_compute; reflexivity|].
  match goal with |- base 2 ?w = _ /\ _ =>
    destruct (timers_are_never_lost demo_u64 demo_u64_small w 2 Interval) as (_ & H1 & _ & H3) end;
    [exists demo; vm_compute; reflexivity|unfold safe; simpl; repeat constructor|simpl; set_solver
    |exists (Some 7); simpl; set_solver|vm_compute; reflexivity|by split].
Defined.


End Timers.
