(* ===== verification/BodyStreams.v ===== *)
(** * Streams of the guest (src/src/runtime/bindings/streams.rs)

    The native ops by which the guest writes the body of its response and reads the
    bodies it is given, with what runs on top of them: the source of a native
    [ReadableStream] and [__responseFromMeta], the pump that sends a response body to
    the host (src/src/js/stream_body.js) and the task of [ScheduleWritable] that wakes
    it (src/src/runtime/scheduler.rs), over the table and the channels of Streams.v. The
    body is the guest's: its reads and its [cancel()] settle when they please, and what it
    throws may throw again when it is read. A guest that changes the maps of its timers
    stops its own pump, and is left out. *)

From stdpp Require Import base list gmap strings.
From Stdlib Require Import ZArith Lia.
From S2P Require Import Prelude Streams StreamsCorrect.

Module BodyStreams.
Import Streams.

(** ** The ops of a response stream *)

(** [g] is the request they serve, [rx] says which receivers are still there. *)
Definition response_stream_create (m : StreamManager) (g : nat) : StreamId * StreamManager :=
  create_stream m g "response".

Definition response_stream_write (rx : nat -> bool) (m : StreamManager) (g : nat) (id : StreamId)
    (chunk : list Z) : bool * StreamManager :=
  let (r, m) := try_write_chunk rx m g id (Data chunk) in (is_ok r, m).

Definition response_stream_end (rx : nat -> bool) (m : StreamManager) (g : nat) (id : StreamId)
  : StreamManager := snd (try_write_chunk rx m g id Done).

Definition response_stream_error (rx : nat -> bool) (m : StreamManager) (g : nat) (id : StreamId)
    (message : string) : StreamManager := snd (try_write_chunk rx m g id (Error message)).

Definition response_stream_is_closed (m : StreamManager) (id : StreamId) : bool :=
  negb (has_sender m id).

(** ** Reading a native stream *)

(** What the controller of a [ReadableStream] is: it refuses, by throwing, what comes
    after its end. *)
Inductive Controller := Readable (queue : list (list Z)) | Closed (queue : list (list Z)) | Errored (e : string).

Definition enqueue (c : Controller) (chunk : list Z) : option Controller :=
  match c with Readable q => Some (Readable (q ++ [chunk])) | _ => None end.
Definition close (c : Controller) : option Controller :=
  match c with Readable q => Some (Closed q) | _ => None end.
(** [controller.error] does nothing after the end. *)
Definition error (c : Controller) (e : string) : option Controller :=
  match c with Readable _ => Some (Errored e) | _ => Some c end.

(** The object [__nativeStreamRead] calls back with. *)
Record ReadResult := mkRead { r_error : option string; r_done : bool; r_value : list Z }.

(** The callback of [pull]: what it leaves of the controller, and that it settles the
    read. *)
Definition on_read (c : Controller) (r : ReadResult) : Controller * bool :=
  let attempt :=
    match r_error r with
    | Some e => if bool_decide (e = EmptyString) then if r_done r then close c else enqueue c (r_value r) else error c e
    | None => if r_done r then close c else enqueue c (r_value r)
    end in
  (default c attempt, true).

(** [__responseFromMeta]: the body of the Response, the stream that is cancelled, and
    the socket. [body] is the body the message carries itself. *)
Inductive ResponseBody := NoBody | NativeStream (id : StreamId) | Carried (bytes : list Z).

Record Meta := mkMeta {
  status : Z;
  streamId : option StreamId;
  m_body : option (list Z);
  socketId : option Z
}.

Definition null_body_statuses : list Z := [101; 103; 204; 205; 304]%Z.

Record FromMeta := mkFromMeta { body_of : ResponseBody; cancels : option StreamId; pair_of : option Z }.

Definition __responseFromMeta (meta : Meta) : FromMeta :=
  let null_body := bool_decide (status meta ∈ null_body_statuses) in
  mkFromMeta
    (if null_body then NoBody
     else match streamId meta, m_body meta with
          | Some id, _ => NativeStream id
          | None, Some b => Carried b
          | None, None => NoBody
          end)
    (if null_body then streamId meta else None)
    (socketId meta).

(** ** The pump of a response body *)

(** What is thrown, as [errorMessage] and the conversion of what it answers make a text of
    it: the guest's [message] getter or [toString] may throw in turn, and [None] is that
    there is no text. *)
Definition Thrown := option string.

(** A value that the reader of the body yields: the bytes it stands for by its type,
    and whether the test of the pump passes over it ([!value || value.length === 0]). A
    view of a detached buffer throws. *)
Inductive Shape :=
| Uint8 (bytes : list Z)
| Text (utf8 : list Z)
| View (bytes : result (list Z) Thrown)
| Others (text : result (list Z) Thrown).

Record Value := mkValue { skipped : bool; shape : Shape }.

Definition STRICT_CHUNK : string := "a response body chunk must be a Uint8Array".

(** [toBytes]; a value may throw when it is made a string. *)
Definition toBytes (strict : bool) (s : Shape) : result (list Z) Thrown :=
  match s with
  | Uint8 b => Ok b
  | Text b => if strict then Err (Some STRICT_CHUNK) else Ok b
  | View r | Others r => if strict then Err (Some STRICT_CHUNK) else r
  end.

(** A read of the body yields a value or throws, and so may [getReader] before the first
    and the getters the pump reads of a value; the end of the list is [done]. A read that
    never settles is one whose step is never taken. *)
Definition Read := result Value Thrown.

(** The wait for room: its message is on the way, or its task holds the sender the
    table had when the loop took the message. *)
Inductive wait := Asked | Task (sender : option nat).

(** Where the pump is: at [reader.read()], before a write, at the wait for room, at
    [reader.cancel()], or past [ended()]. *)
Inductive at_ :=
| Reading
| Writing (chunk : list Z)
| Waiting (chunk : list Z) (w : wait)
| Cancelling
| Ended.

(** Where the receiver of the stream is. *)
Inductive Receiver := InTable | Taken | Dropped.

#[export] Instance Receiver_eq_dec : EqDecision Receiver.
Proof. solve_decision. Defined.

Record Pump := mkPump {
  mgr : StreamManager;
  sid : StreamId;
  handle : nat;
  rx : Receiver;
  aborted : bool;
  body : list Read;
  at_pump : at_
}.

(** [streamBody] up to its first await. *)
Definition start (m : StreamManager) (g : nat) (b : list Read) : Pump :=
  let (id, m') := response_stream_create m g in
  mkPump m' id (length (chans m)) InTable false b Reading.

Definition rx_here (p : Pump) (h : nat) : bool := match rx p with Dropped => false | _ => true end.

Definition set_at (p : Pump) (m : StreamManager) (b : list Read) (a : at_) : Pump :=
  mkPump m (sid p) (handle p) (rx p) (aborted p) b a.

Section Strict.
Context (strict : bool) (g : nat).

(** The [catch] and [finally] of the pump after a failure: where the text cannot be made
    the [catch] throws before its call, and [failed] keeps the [finally] from ending the
    stream. *)
Definition fail (p : Pump) (b : list Read) (error : Thrown) : Pump :=
  set_at p
    (match error with
     | Some message => response_stream_error (rx_here p) (mgr p) g (sid p) message
     | None => mgr p
     end) b Ended.

(** What the pump awaits of the guest settles, its [read()] or its [cancel()], and the
    pump runs to its next await or its next write. *)
Definition resume (p : Pump) : option Pump :=
  match at_pump p with
  | Reading =>
      match body p with
      | [] => Some (set_at p (response_stream_end (rx_here p) (mgr p) g (sid p)) [] Ended)
      | Err e :: b => Some (fail p b e)
      | Ok v :: b =>
          if skipped v then Some (set_at p (mgr p) b Reading)
          else match toBytes strict (shape v) with
               | Err e => Some (fail p b e)
               | Ok chunk => Some (set_at p (mgr p) b (Writing chunk))
               end
      end
  | Cancelling =>
      Some (set_at p (response_stream_end (rx_here p) (mgr p) g (sid p)) (body p) Ended)
  | Writing _ | Waiting _ _ | Ended => None
  end.

(** The pump writes, and runs to its next await. *)
Definition advance (p : Pump) : option Pump :=
  match at_pump p with
  | Writing chunk =>
      let (written, m) := response_stream_write (rx_here p) (mgr p) g (sid p) chunk in
      if written then Some (set_at p m (body p) Reading)
      else if response_stream_is_closed m (sid p) then Some (set_at p m (body p) Cancelling)
      else Some (set_at p m (body p) (Waiting chunk Asked))
  | Reading | Waiting _ _ | Cancelling | Ended => None
  end.

(** The loop takes [ScheduleWritable] and spawns its task. *)
Definition schedule_writable (p : Pump) : option Pump :=
  match at_pump p with
  | Waiting chunk Asked => Some (set_at p (mgr p) (body p) (Waiting chunk (Task (senders (mgr p) !! sid p))))
  | _ => None
  end.

(** The task of [ScheduleWritable] ends and the pump is woken: at once without a
    sender; when the request is cancelled, closing the stream; when there are two free
    slots; or when the receiver is gone. *)
Definition wake (p : Pump) : option Pump :=
  match at_pump p with
  | Waiting chunk (Task None) => Some (set_at p (mgr p) (body p) (Writing chunk))
  | Waiting chunk (Task (Some h)) =>
      if aborted p then
        Some (mkPump (close_stream (mgr p) (sid p)) (sid p) (handle p)
                (match rx p with InTable => Dropped | r => r end) true (body p) (Writing chunk))
      else if (2 <=? capacity (rx_here p) (mgr p) h) || negb (rx_here p h)
      then Some (set_at p (mgr p) (body p) (Writing chunk))
      else None
  | _ => None
  end.

(** What the guest owes settles; the pump, its wait and the wait's task go on; the host
    takes the receiver, receives from it or drops it; someone closes the stream; the
    request is cancelled. *)
Inductive label := LGuest | LPump | LSchedule | LWake | LTake | LRecv | LHangUp | LClose | LAbort.

Definition exec (p : Pump) (l : label) : option Pump :=
  match l with
  | LGuest => resume p
  | LPump => advance p
  | LSchedule => schedule_writable p
  | LWake => wake p
  | LTake =>
      match rx p, take_receiver (mgr p) (sid p) with
      | InTable, (Some _, m) => Some (mkPump m (sid p) (handle p) Taken (aborted p) (body p) (at_pump p))
      | _, _ => None
      end
  | LRecv =>
      match rx p, pop (mgr p) (handle p) with
      | Taken, Some (_, m) => Some (set_at p m (body p) (at_pump p))
      | _, _ => None
      end
  | LHangUp =>
      match rx p with
      | Taken => Some (mkPump (mgr p) (sid p) (handle p) Dropped (aborted p) (body p) (at_pump p))
      | _ => None
      end
  | LClose =>
      if has_sender (mgr p) (sid p) then
        Some (mkPump (close_stream (mgr p) (sid p)) (sid p) (handle p)
                (match rx p with InTable => Dropped | r => r end) (aborted p) (body p) (at_pump p))
      else None
  | LAbort =>
      if aborted p then None
      else Some (mkPump (mgr p) (sid p) (handle p) (rx p) true (body p) (at_pump p))
  end.

Definition run : Pump -> list label -> option Pump := run_steps exec.

(** ** What a body amounts to *)

(** The chunks up to the end or the first failure, and what tells of it: nothing does where
    the failure has no text. *)
Fixpoint chunks (b : list Read) : list (list Z) * option StreamChunk :=
  match b with
  | [] => ([], Some Done)
  | Err e :: _ => ([], Error <$> e)
  | Ok v :: b =>
      if skipped v then chunks b
      else match toBytes strict (shape v) with
           | Err e => ([], Error <$> e)
           | Ok c => let (cs, t) := chunks b in (c :: cs, t)
           end
  end.

(** ** The invariant *)

(** What the channel of the pump holds of body [b0]. *)
Definition phase (b0 : list Read) (p : Pump) (sent : list StreamChunk) : Prop :=
  let '(all, last) := chunks b0 in
  let '(rest, last') := chunks (body p) in
  exists done,
    match at_pump p with
    | Reading => sent = Data <$> done /\ all = done ++ rest /\ last = last'
    | Writing c | Waiting c _ => sent = Data <$> done /\ all = done ++ c :: rest /\ last = last'
    | Cancelling => sent = Data <$> done /\ done `prefix_of` all /\ senders (mgr p) !! sid p = None
    | Ended =>
        sent = (Data <$> all) ++ option_list last \/
        (sent = Data <$> done /\ done `prefix_of` all /\ senders (mgr p) !! sid p = None)
    end.

Record Inv (b0 : list Read) (p : Pump) (ch : Channel) : Prop := {
  i_chan : chans (mgr p) !! handle p = Some ch;
  i_fifo : (sent ch).*2 = received ch ++ buffer ch;
  i_hwm : 1 <= high_water_mark (mgr p);
  i_bound : length (buffer ch) <= high_water_mark (mgr p) + 1;
  i_spare : at_pump p <> Ended -> length (buffer ch) <= high_water_mark (mgr p);
  i_sender : senders (mgr p) !! sid p = Some (handle p) \/ senders (mgr p) !! sid p = None;
  i_table : rx p = InTable -> receivers (mgr p) !! sid p = Some (handle p);
  i_task c o : at_pump p = Waiting c (Task o) -> o = Some (handle p) \/ o = None /\ senders (mgr p) !! sid p = None;
  i_phase : phase b0 p ((sent ch).*2)
}.

(** What a write does to the channel and its sender. *)
Lemma write_spec b0 p ch c :
  Inv b0 p ch -> at_pump p <> Ended ->
  let '(r, m) := try_write_chunk (rx_here p) (mgr p) g (sid p) c in
  high_water_mark m = high_water_mark (mgr p) /\ receivers m = receivers (mgr p) /\
  match r with
  | Ok _ =>
      senders m = senders (mgr p) /\ (terminal c = false -> length (buffer ch) < high_water_mark (mgr p)) /\
      chans m !! handle p = Some (mkChannel (made_for ch) (era ch) (buffer ch ++ [c]) (Streams.sent ch ++ [(g, c)]) (received ch))
  | Err BufferFull => m = mgr p /\ senders (mgr p) !! sid p = Some (handle p) /\ rx p <> Dropped /\
      terminal c = false /\ high_water_mark (mgr p) <= length (buffer ch)
  | Err _ => chans m = chans (mgr p) /\ senders m !! sid p = None
  end.
Proof.
  intros H Hne. pose proof (i_spare _ _ _ H Hne) as Hsp. pose proof (i_hwm _ _ _ H) as Hh.
  unfold try_write_chunk. destruct (i_sender _ _ _ H) as [-> | Hs]; [|by rewrite Hs].
  unfold capacity, buffer_of, slots. rewrite (i_chan _ _ _ H). unfold rx_here.
  destruct (rx p) eqn:Hrx; cbn [negb].
  3: { destruct (Nat.leb_spec (high_water_mark (mgr p) + 1) 1); [lia|]. rewrite andb_false_r. simpl.
       split_and!; try done. by rewrite lookup_delete_eq. }
  all: destruct (terminal c) eqn:Ht; cbn [negb andb];
    [|destruct (Nat.leb_spec (high_water_mark (mgr p) + 1 - length (buffer ch)) 1)];
    try (destruct (Nat.eqb_spec (high_water_mark (mgr p) + 1 - length (buffer ch)) 0); [lia|]);
    split_and!; try done; try (intros; lia); try lia.
  all: try (destruct (i_sender _ _ _ H); congruence).
  all: by apply StreamsCorrect.push_lookup, H.
Qed.

Lemma inv_finish b0 p ch t b done :
  Inv b0 p ch -> at_pump p <> Ended -> terminal t = true ->
  (Streams.sent ch).*2 = Data <$> done -> done `prefix_of` fst (chunks b0) ->
  (done = fst (chunks b0) /\ Some t = snd (chunks b0)) \/ senders (mgr p) !! sid p = None ->
  exists ch', Inv b0 (set_at p (snd (try_write_chunk (rx_here p) (mgr p) g (sid p) t)) b Ended) ch'.
Proof.
  intros H Hne Ht Hs Hpre Hwhy. pose proof (write_spec b0 p ch t H Hne) as W.
  pose proof (i_spare _ _ _ H Hne) as Hsp.
  destruct (try_write_chunk _ _ _ _ _) as [r m] eqn:E. simpl. destruct W as (Hh & Hr & W).
  assert (forall x, r = Err x -> x <> BufferFull) as Hnf.
  { intros x -> ->. destruct W as (_ & _ & _ & ? & _). congruence. }
  destruct r as [u|x].
  - destruct W as (Hse & _ & Hch). match type of Hch with _ = Some ?x => exists x end. constructor; simpl; rewrite ?Hh, ?Hr, ?Hse; try apply H; try done.
    + rewrite fmap_app, (i_fifo _ _ _ H). simpl. by rewrite app_assoc.
    + rewrite length_app. simpl. lia.
    + unfold phase. simpl. destruct (chunks b0) as [all last], (chunks b) as [rest last'] eqn:Eb. simpl in *.
      exists done. left. rewrite fmap_app, Hs. simpl. destruct Hwhy as [[-> <-]|Hn]; [done|].
      unfold try_write_chunk in E. by rewrite Hn in E.
  - assert (chans m = chans (mgr p) /\ senders m !! sid p = None) as [Hc Hn].
    { destruct x; try done. by destruct (Hnf BufferFull). }
    exists ch. constructor; simpl; rewrite ?Hh, ?Hr, ?Hc; try apply H; try done; [by right|].
    unfold phase. simpl. destruct (chunks b0) as [all last], (chunks b) as [rest last']. simpl in *.
    exists done. by right.
Qed.

(** A step of the pump that leaves the table alone. *)
Lemma inv_at b0 p ch b a :
  Inv b0 p ch -> at_pump p <> Ended -> (forall c o, a = Waiting c (Task o) -> o = Some (handle p) \/ o = None /\ senders (mgr p) !! sid p = None) ->
  phase b0 (set_at p (mgr p) b a) ((Streams.sent ch).*2) -> Inv b0 (set_at p (mgr p) b a) ch.
Proof.
  intros H Hne Ha Hp. constructor; simpl; try apply H; try done. intros _. by apply (i_spare _ _ _ H).
Qed.

(** The pump ends by a failure. *)
Lemma inv_fail b0 p ch e b done :
  Inv b0 p ch -> at_pump p <> Ended -> (Streams.sent ch).*2 = Data <$> done ->
  chunks b0 = (done, Error <$> e) -> exists ch', Inv b0 (fail p b e) ch'.
Proof.
  intros H Hne Hs E0. unfold fail. destruct e as [message|]; simpl in E0.
  - apply (inv_finish b0 p ch (Error message) b done H Hne eq_refl Hs); rewrite E0; [done|by left].
  - exists ch. apply inv_at; try done. unfold phase. simpl. rewrite E0. destruct (chunks b). exists done. left.
    by rewrite Hs, app_nil_r.
Qed.

Lemma inv_resume b0 p ch p' : Inv b0 p ch -> resume p = Some p' -> exists ch', Inv b0 p' ch'.
Proof.
  intros H. pose proof (i_phase _ _ _ H) as Hph. unfold phase in Hph. unfold resume.
  destruct (at_pump p) as [|chunk|chunk w| |] eqn:Hat; [|done..| |done].
  - assert (at_pump p <> Ended) as Hne by congruence.
    destruct (body p) as [|[v|e] b] eqn:Hb; simpl in Hph.
    + destruct (chunks b0) as [all last] eqn:E0, Hph as (done & Hs & Hall & ->). rewrite app_nil_r in Hall. subst all.
      intros [= <-]. apply (inv_finish b0 p ch Done [] done H Hne eq_refl Hs); rewrite E0; [done|by left].
    + destruct (skipped v) eqn:Hsk; [|destruct (toBytes strict (shape v)) as [c|e] eqn:Htb].
      * intros [= <-]. exists ch. by apply inv_at.
      * intros [= <-]. exists ch. apply inv_at; try done. unfold phase. simpl.
        destruct (chunks b0), (chunks b). naive_solver.
      * destruct (chunks b0) as [all last] eqn:E0, Hph as (done & Hs & Hall & ->). rewrite app_nil_r in Hall. subst all.
        intros [= <-]. by apply (inv_fail b0 p ch e b done).
    + destruct (chunks b0) as [all last] eqn:E0, Hph as (done & Hs & Hall & ->). rewrite app_nil_r in Hall. subst all.
      intros [= <-]. by apply (inv_fail b0 p ch e b done).
  - destruct (chunks b0) as [all last] eqn:E0, (chunks (body p)) as [rest last'] eqn:E1, Hph as (done & Hs & Hpre & Hn).
    intros [= <-]. apply (inv_finish b0 p ch Done (body p) done H ltac:(congruence) eq_refl Hs); rewrite ?E0; [done|by right].
Qed.

Lemma inv_advance b0 p ch p' : Inv b0 p ch -> advance p = Some p' -> exists ch', Inv b0 p' ch'.
Proof.
  intros H. pose proof (i_phase _ _ _ H) as Hph. unfold phase in Hph. unfold advance.
  destruct (at_pump p) as [|chunk|chunk w| |] eqn:Hat; [done| |done..].
  assert (at_pump p <> Ended) as Hne by congruence.
  pose proof (write_spec b0 p ch (Data chunk) H Hne) as W. unfold response_stream_write, response_stream_is_closed, has_sender.
  destruct (try_write_chunk _ _ _ _ _) as [r m]. destruct W as (Hh & Hr & W).
  destruct (chunks b0) as [all last] eqn:E0, (chunks (body p)) as [rest last'] eqn:E1, Hph as (done & Hs & -> & ->).
  destruct r as [u|[]]; simpl.
  - destruct W as (Hse & Hlt & Hch). intros [= <-]. specialize (Hlt eq_refl). match type of Hch with _ = Some ?x => exists x end.
    constructor; simpl; rewrite ?Hh, ?Hr, ?Hse; try apply H; try done.
    + rewrite fmap_app, (i_fifo _ _ _ H). simpl. by rewrite app_assoc.
    + rewrite length_app. simpl. lia.
    + intros _. rewrite length_app. simpl. lia.
    + unfold phase. simpl. rewrite E0, E1. exists (done ++ [chunk]).
      rewrite fmap_app, Hs, fmap_app. split_and!; [done|by rewrite <-app_assoc|done].
  - destruct W as (Hc & Hn). rewrite Hn. intros [= <-]. exists ch.
    constructor; simpl; rewrite ?Hh, ?Hr, ?Hc; try apply H; try done; [intros _; by apply (i_spare _ _ _ H)|by right|].
    unfold phase. simpl. rewrite E0, E1. exists done. split_and!; [done|by eexists|done].
  - destruct W as (-> & Hn & _). rewrite Hn. intros [= <-]. exists ch. apply inv_at; try done.
    unfold phase. simpl. rewrite E0, E1. by exists done.
  - destruct W as (Hc & Hn). rewrite Hn. intros [= <-]. exists ch.
    constructor; simpl; rewrite ?Hh, ?Hr, ?Hc; try apply H; try done; [intros _; by apply (i_spare _ _ _ H)|by right|].
    unfold phase. simpl. rewrite E0, E1. exists done. split_and!; [done|by eexists|done].
Qed.

(** The stream is closed; the pump may be woken with it. *)
Lemma body_inv_close b0 p ch ab a :
  Inv b0 p ch -> (a = at_pump p \/ exists c w, at_pump p = Waiting c w /\ a = Writing c) ->
  Inv b0 (mkPump (close_stream (mgr p) (sid p)) (sid p) (handle p)
            (match rx p with InTable => Dropped | r => r end) ab (body p) a) ch.
Proof.
  intros H Ha. constructor; simpl; try apply H; rewrite ?lookup_delete_eq; auto.
  - intros Hne. apply (i_spare _ _ _ H). destruct Ha as [<-|(c & w & -> & ->)]; done.
  - by destruct (rx p).
  - intros c o E. destruct Ha as [->|(? & ? & _ & ->)]; [|done].
    destruct (i_task _ _ _ H c o E) as [->|[-> _]]; auto.
  - pose proof (i_phase _ _ _ H) as Hp. unfold phase in *. simpl. rewrite lookup_delete_eq.
    destruct (chunks b0), (chunks (body p)), Hp as (done & Hp). exists done.
    destruct Ha as [->|(c & w & E & ->)]; [|by rewrite E in Hp]. destruct (at_pump p); naive_solver.
Qed.

Lemma body_inv_exec b0 p ch l p' : Inv b0 p ch -> exec p l = Some p' -> exists ch', Inv b0 p' ch'.
Proof.
  intros H. pose proof (i_phase _ _ _ H) as Hph. destruct l; simpl.
  - by eapply inv_resume.
  - by eapply inv_advance.
  - unfold schedule_writable. destruct (at_pump p) as [| |c []| |] eqn:Ha; try done. intros [= <-]. exists ch.
    apply inv_at; try done; [congruence| |unfold phase in *; by rewrite Ha in Hph].
    intros c' o [= <- <-]. destruct (i_sender _ _ _ H) as [->| Hn]; [by left|right; by rewrite Hn].
  - unfold wake. destruct (at_pump p) as [| |c [|[h|]]| |] eqn:Ha; try done.
    + destruct (aborted p); [|destruct (_ || _); [|done]]; intros [= <-]; exists ch.
      * apply body_inv_close; [done|]. right. eauto.
      * apply inv_at; try done; [congruence|]. unfold phase in *. by rewrite Ha in Hph.
    + intros [= <-]. exists ch. apply inv_at; try done; [congruence|]. unfold phase in *. by rewrite Ha in Hph.
  - destruct (rx p) eqn:Hr; try done. rewrite (i_table _ _ _ H Hr). intros [= <-]. exists ch.
    constructor; simpl; try apply H; done.
  - destruct (rx p) eqn:Hr; try done. unfold pop, buffer_of. rewrite (i_chan _ _ _ H).
    destruct (buffer ch) as [|c rest] eqn:Hb; [done|]. intros [= <-].
    exists (mkChannel (made_for ch) (era ch) rest (Streams.sent ch) (received ch ++ [c])).
    pose proof (i_bound _ _ _ H) as Hbd. rewrite Hb in Hbd.
    constructor; simpl; try apply H; try done.
    + by rewrite list_lookup_alter_eq, (i_chan _ _ _ H).
    + rewrite (i_fifo _ _ _ H), Hb. by rewrite <-app_assoc.
    + simpl in Hbd. lia.
    + intros Hne. pose proof (i_spare _ _ _ H Hne) as Hsp. rewrite Hb in Hsp. simpl in Hsp. lia.
  - destruct (rx p) eqn:Hr; try done. intros [= <-]. exists ch. constructor; simpl; try apply H; done.
  - destruct (has_sender _ _); [|done]. intros [= <-]. exists ch. apply body_inv_close; [done|by left].
  - destruct (aborted p); [done|]. intros [= <-]. exists ch. constructor; simpl; try apply H; done.
Qed.

Lemma body_inv_start m b0 : 1 <= high_water_mark m -> exists ch, Inv b0 (start m g b0) ch.
Proof.
  intros Hh. exists (mkChannel (next_id m) g [] [] []).
  constructor; simpl; rewrite ?lookup_insert_eq; try done; try lia; auto.
  - by rewrite lookup_app_r, Nat.sub_diag by lia.
  - unfold phase. simpl. destruct (chunks b0). by exists [].
Qed.

(** ** Termination *)

Definition has_room (p : Pump) : bool :=
  negb (has_sender (mgr p) (sid p)) || negb (rx_here p (handle p)) ||
  (length (buffer_of (mgr p) (handle p)) <? high_water_mark (mgr p)).

Definition weight (p : Pump) : nat :=
  match at_pump p with
  | Reading => 2
  | Writing _ => if has_room p then 4 else 7
  | Waiting _ Asked => 6
  | Waiting _ (Task _) => 5
  | Cancelling => 3
  | Ended => 0
  end.

Definition measure (p : Pump) : nat :=
  10 * length (body p) + weight p + length (buffer_of (mgr p) (handle p)) +
  match rx p with InTable => 2 | Taken => 1 | Dropped => 0 end +
  (if has_sender (mgr p) (sid p) then 1 else 0) + (if aborted p then 0 else 1).

Definition held (m : StreamManager) (p : Pump) : nat :=
  length (buffer_of m (handle p)) + (if has_sender m (sid p) then 1 else 0).

Lemma write_held b0 p ch c :
  Inv b0 p ch -> at_pump p <> Ended ->
  let '(r, m) := try_write_chunk (rx_here p) (mgr p) g (sid p) c in
  held m p <= held (mgr p) p + (if is_ok r then 1 else 0).
Proof.
  intros H Hne. pose proof (write_spec b0 p ch c H Hne) as W. unfold held, has_sender, buffer_of.
  rewrite (i_chan _ _ _ H). destruct (try_write_chunk _ _ _ _ _) as [r m], W as (_ & _ & W).
  destruct r as [u|[]]; simpl.
  - destruct W as (-> & _ & ->). simpl. rewrite length_app. simpl. case_match; lia.
  - destruct W as (-> & ->). rewrite (i_chan _ _ _ H). lia.
  - destruct W as (-> & _). rewrite (i_chan _ _ _ H). lia.
  - destruct W as (-> & ->). rewrite (i_chan _ _ _ H). lia.
Qed.

Lemma measure_held p m b a :
  exists rest, measure p = 10 * length (body p) + weight p + held (mgr p) p + rest /\
    measure (set_at p m b a) = 10 * length b + weight (set_at p m b a) + held m p + rest.
Proof.
  exists (match rx p with InTable => 2 | Taken => 1 | Dropped => 0 end + (if aborted p then 0 else 1)).
  unfold measure, held. simpl. lia.
Qed.

(** Room for the pump means that its next write does not wait. *)
Lemma room_spec b0 p ch :
  Inv b0 p ch ->
  has_room p = bool_decide (senders (mgr p) !! sid p = None \/ rx p = Dropped \/ length (buffer ch) < high_water_mark (mgr p)).
Proof.
  intros H. apply eq_true_iff_eq. rewrite bool_decide_eq_true. unfold has_room, has_sender, rx_here, buffer_of.
  rewrite (i_chan _ _ _ H), !orb_true_iff, !negb_true_iff, Nat.ltb_lt.
  destruct (senders (mgr p) !! sid p), (rx p); intuition discriminate.
Qed.

Lemma finish_measure b0 p ch t b :
  Inv b0 p ch -> at_pump p <> Ended -> length b <= length (body p) -> 1 < weight p ->
  measure (set_at p (snd (try_write_chunk (rx_here p) (mgr p) g (sid p) t)) b Ended) < measure p.
Proof.
  intros H Hne Hb Hw. pose proof (write_held b0 p ch t H Hne) as Hh. destruct (try_write_chunk _ _ _ _ _) as [r m]. simpl.
  destruct (measure_held p m b Ended) as (rest & -> & ->).
  change (weight (set_at p m b Ended)) with 0. destruct (is_ok r); lia.
Qed.

Lemma fail_measure b0 p ch e b :
  Inv b0 p ch -> at_pump p <> Ended -> length b <= length (body p) -> 1 < weight p -> measure (fail p b e) < measure p.
Proof.
  intros H Hne Hb Hw. unfold fail. destruct e as [message|]; [by eapply finish_measure|].
  destruct (measure_held p (mgr p) b Ended) as (rest & -> & ->). change (weight (set_at p (mgr p) b Ended)) with 0. lia.
Qed.

Lemma resume_measure b0 p ch p' : Inv b0 p ch -> resume p = Some p' -> measure p' < measure p.
Proof.
  intros H. unfold resume. destruct (at_pump p) as [|chunk|chunk w| |] eqn:Hat; [|done..| |done].
  - assert (weight p = 2) as Hw by (unfold weight; by rewrite Hat).
    destruct (body p) as [|[v|e] b] eqn:Hb.
    + intros [= <-]. eapply finish_measure; [done|congruence|simpl; lia|lia].
    + destruct (skipped v); [|destruct (toBytes strict (shape v))]; intros [= <-].
      * unfold measure, weight. simpl. rewrite Hb, Hat. simpl. lia.
      * unfold measure, weight. simpl. rewrite Hb, Hat. simpl. destruct (has_room _); lia.
      * eapply fail_measure; [done|congruence|rewrite Hb; simpl; lia|lia].
    + intros [= <-]. eapply fail_measure; [done|congruence|rewrite Hb; simpl; lia|lia].
  - intros [= <-]. eapply finish_measure; [done|congruence|done|unfold weight; rewrite Hat; lia].
Qed.

Lemma advance_measure b0 p ch p' : Inv b0 p ch -> advance p = Some p' -> measure p' < measure p.
Proof.
  intros H. unfold advance. destruct (at_pump p) as [|chunk|chunk w| |] eqn:Hat; [done| |done..].
  assert (at_pump p <> Ended) as Hne by congruence.
  assert (weight p = if has_room p then 4 else 7) as Hw by (unfold weight; by rewrite Hat).
  rewrite (room_spec b0 p ch H) in Hw.
  pose proof (write_spec b0 p ch (Data chunk) H Hne) as W. pose proof (write_held b0 p ch (Data chunk) H Hne) as Hh.
  unfold response_stream_write, response_stream_is_closed, has_sender.
  destruct (try_write_chunk _ _ _ _ _) as [r m], W as (_ & _ & W).
  assert (forall a, held m p + weight (set_at p m (body p) a) < held (mgr p) p + weight p ->
    measure (set_at p m (body p) a) < measure p) as Hlower.
  { intros a Ha. destruct (measure_held p m (body p) a) as (rest & -> & ->). lia. }
  destruct r as [u|[]]; simpl in *.
  - destruct W as (_ & Hlt & _). rewrite bool_decide_true in Hw by auto. intros [= <-].
    apply Hlower. change (weight _) with 2 at 1. lia.
  - destruct W as (_ & ->). intros [= <-]. apply Hlower. change (weight _) with 3 at 1. case_bool_decide; lia.
  - destruct W as (-> & Hs & Hr & _ & Hle). rewrite Hs. intros [= <-].
    rewrite bool_decide_false in Hw by (rewrite Hs; intuition (discriminate || lia)).
    apply Hlower. change (weight _) with 6 at 1. lia.
  - destruct W as (_ & ->). intros [= <-]. apply Hlower. change (weight _) with 3 at 1. case_bool_decide; lia.
Qed.

(** The receiver leaves, or the stream is closed: the wait gets no longer. *)
Lemma weight_le p p' :
  (at_pump p' = at_pump p) -> (has_room p = true -> has_room p' = true) -> weight p' <= weight p.
Proof.
  intros Ha Hr. unfold weight. rewrite Ha. destruct (at_pump p) as [| |? []| |]; try lia.
  destruct (has_room p); [by rewrite Hr|destruct (has_room p'); lia].
Qed.

Lemma wake_measure b0 p ch p' : Inv b0 p ch -> wake p = Some p' -> measure p' < measure p.
Proof.
  intros H. unfold wake. destruct (at_pump p) as [| |c [|[h|]]| |] eqn:Ha; try done.
  - destruct (i_task _ _ _ H c (Some h) Ha) as [[= ->]|[? _]]; [|done].
    + destruct (aborted p) eqn:Hab; [intros [= <-]|destruct (_ || _) eqn:Hc; [|done]; intros [= <-]].
      * unfold measure, weight, has_room, has_sender. simpl. rewrite Ha, Hab, lookup_delete_eq. simpl.
        unfold buffer_of. simpl. destruct (rx p); lia.
      * assert (has_room (set_at p (mgr p) (body p) (Writing c)) = true) as Hr.
        { unfold has_room. simpl. apply orb_true_iff in Hc as [Hc|Hc].
          - unfold capacity, slots in Hc. apply Nat.leb_le in Hc. unfold rx_here in *. simpl.
            destruct (rx p); simpl; [..|by rewrite orb_true_r];
              destruct (Nat.ltb_spec (length (buffer_of (mgr p) (handle p))) (high_water_mark (mgr p))); rewrite ?orb_true_r; (done || lia).
          - unfold rx_here in *. simpl. rewrite Hc. by rewrite orb_true_r. }
        unfold measure, weight. simpl. rewrite Hr, Ha. lia.
  - destruct (i_task _ _ _ H c None Ha) as [?|[_ Hn]]; [done|]. intros [= <-].
    unfold measure, weight, has_room, has_sender. simpl. rewrite Ha, Hn. simpl. lia.
Qed.

Lemma exec_measure b0 p ch l p' : Inv b0 p ch -> exec p l = Some p' -> measure p' < measure p.
Proof.
  intros H. destruct l; simpl.
  - by eapply resume_measure.
  - by eapply advance_measure.
  - unfold schedule_writable. destruct (at_pump p) as [| |c []| |] eqn:Ha; try done. intros [= <-].
    unfold measure, weight. simpl. rewrite Ha. lia.
  - by eapply wake_measure.
  - destruct (rx p) eqn:Hr; try done. rewrite (i_table _ _ _ H Hr). intros [= <-].
    match goal with |- measure ?x < _ => pose proof (weight_le p x eq_refl) as Hw end.
    unfold measure, has_room, has_sender, rx_here, buffer_of in *. simpl in *. rewrite Hr in *. specialize (Hw id). lia.
  - destruct (rx p) eqn:Hr; try done. unfold pop, buffer_of. rewrite (i_chan _ _ _ H).
    destruct (buffer ch) as [|c rest] eqn:Hb; [done|]. intros [= <-].
    match goal with |- measure ?x < _ => pose proof (weight_le p x eq_refl) as Hw end.
    unfold measure, has_room, has_sender, rx_here, buffer_of in *. simpl in *.
    rewrite list_lookup_alter_eq, Hr, (i_chan _ _ _ H), Hb in *. simpl in *.
    assert (forall b, b || (S (length rest) <? high_water_mark (mgr p)) = true -> b || (length rest <? high_water_mark (mgr p)) = true) as Hm.
    { intros b. rewrite !orb_true_iff, !Nat.ltb_lt. intuition lia. }
    specialize (Hw (Hm _)). lia.
  - destruct (rx p) eqn:Hr; try done. intros [= <-].
    match goal with |- measure ?x < _ => pose proof (weight_le p x eq_refl) as Hw end.
    unfold measure, has_room, has_sender, rx_here, buffer_of in *. simpl in *. rewrite Hr in *.
    rewrite orb_true_r in Hw. specialize (Hw (fun _ => eq_refl)). lia.
  - destruct (has_sender (mgr p) (sid p)) eqn:Hs; [|done]. intros [= <-].
    match goal with |- measure ?x < _ => pose proof (weight_le p x eq_refl) as Hw end.
    unfold measure, has_room in *. rewrite Hs in *. unfold has_sender, rx_here, buffer_of in *. simpl in *.
    rewrite lookup_delete_eq in *. specialize (Hw (fun _ => eq_refl)). destruct (rx p); lia.
  - destruct (aborted p) eqn:Hab; [done|]. intros [= <-].
    match goal with |- measure ?x < _ => pose proof (weight_le p x eq_refl id) as Hw end.
    unfold measure in *. simpl in *. rewrite Hab. lia.
Qed.

(** ** Properties *)

Lemma run_inv m b0 : 1 <= high_water_mark m -> forall ls p,
  run (start m g b0) ls = Some p ->
  (exists ch, Inv b0 p ch) /\ measure p + length ls <= 10 * length b0 + 6.
Proof.
  intros Hh. assert (measure (start m g b0) = 10 * length b0 + 6) as <-.
  { unfold measure, weight, has_sender, buffer_of. simpl. rewrite lookup_insert_eq, lookup_app_r, Nat.sub_diag by lia.
    simpl. lia. }
  generalize (body_inv_start m b0 Hh). generalize (start m g b0). unfold run. intros p0 H0 ls. revert p0 H0.
  induction ls as [|l ls IH]; simpl; intros p0 H0 p; [intros [= <-]; split; [done|lia]|].
  destruct (exec p0 l) as [p1|] eqn:E; simpl; [|done]. intros Hr. destruct H0 as (ch & H0).
  destruct (IH p1 (body_inv_exec _ _ _ _ _ H0 E) p Hr) as [? ?]. pose proof (exec_measure _ _ _ _ _ H0 E). split; [done|lia].
Qed.

(** The whole of a body: its chunks and its end, where that can be told. *)
Definition whole (b0 : list Read) : list StreamChunk := (Data <$> fst (chunks b0)) ++ option_list (snd (chunks b0)).

Lemma phase_prefix b0 p l : phase b0 p l -> l `prefix_of` whole b0.
Proof.
  unfold phase, whole. destruct (chunks b0) as [all last], (chunks (body p)) as [rest last']. simpl.
  intros (done & Hp).
  assert (l = Data <$> done /\ done `prefix_of` all \/ l = (Data <$> all) ++ option_list last) as [[Hl (t & Ht)]|Hl]; [|subst; apply prefix_app_r; rewrite fmap_app; by apply prefix_app_r|by subst].
  destruct (at_pump p); destruct_and?; simplify_eq; try (left; split; [done|by eexists]); naive_solver.
Qed.

(** Nobody hangs up. *)
Definition gentle (l : label) : bool :=
  match l with LHangUp | LClose | LAbort => false | _ => true end.

Lemma write_keeps_senders rxs m id c h :
  senders m !! id = Some h -> rxs h = true -> senders (snd (try_write_chunk rxs m g id c)) = senders m.
Proof. intros Hs Hr. unfold try_write_chunk. rewrite Hs, Hr. by repeat case_match. Qed.

Definition listening (p : Pump) : Prop :=
  senders (mgr p) !! sid p = Some (handle p) /\ rx p <> Dropped /\ aborted p = false.

Lemma gentle_keeps p l p' : listening p -> gentle l = true -> exec p l = Some p' -> listening p'.
Proof.
  intros (Hs & Hr & Ha) Hg. assert (rx_here p (handle p) = true) as Hrx by (unfold rx_here; by destruct (rx p)).
  pose proof (fun c => write_keeps_senders (rx_here p) (mgr p) (sid p) c (handle p) Hs Hrx) as Hw.
  destruct l; try done; simpl.
  - unfold resume, fail, response_stream_error, response_stream_end.
    destruct (at_pump p) as [|c| | |]; try done; [|by intros [= <-]; split_and!; simpl; rewrite ?Hw].
    destruct (body p) as [|[v|e] b]; [|destruct (skipped v); [|destruct (toBytes _ _) as [|e]]|]; intros [= <-];
      try destruct e; split_and!; simpl; rewrite ?Hw; done.
  - unfold advance, response_stream_write. destruct (at_pump p) as [|c| | |]; try done.
    specialize (Hw (Data c)). destruct (try_write_chunk _ _ _ _ _) as [r m]. simpl in Hw.
    destruct (is_ok r); [|destruct (response_stream_is_closed _ _)]; intros [= <-]; split_and!; simpl; rewrite ?Hw; done.
  - unfold schedule_writable. destruct (at_pump p) as [| |? []| |]; try done. intros [= <-]. by split_and!.
  - unfold wake. destruct (at_pump p) as [| |? [|[]]| |]; try done; rewrite ?Ha; [case_match; [|done]|]; intros [= <-]; by split_and!.
  - destruct (rx p); try done. destruct (receivers (mgr p) !! sid p); [|done]. intros [= <-]. by split_and!.
  - destruct (rx p) eqn:Hrx'; try done. unfold pop. destruct (buffer_of _ _); [done|]. intros [= <-]. split_and!; simpl; congruence.
Qed.

Lemma gentle_run m b0 ls p :
  run (start m g b0) ls = Some p -> forallb gentle ls = true -> listening p.
Proof.
  assert (listening (start m g b0)) as H0 by (split_and!; simpl; [by rewrite lookup_insert_eq|done|done]).
  revert H0. generalize (start m g b0). unfold run. induction ls as [|l ls IH]; simpl; intros p0 H0; [by intros [= <-]|].
  destruct (exec p0 l) as [p1|] eqn:E; simpl; [|done]. intros Hr [Hl Hls]%andb_true_iff.
  eapply IH; [|done..]. by eapply gentle_keeps.
Qed.

(** Where the pump stands when neither it nor the host can go on; a host that is there has
    received all there is. *)
Lemma stuck_pump b0 p ch :
  Inv b0 p ch -> Forall (fun l => exec p l = None) [LPump; LSchedule; LWake; LTake; LRecv] ->
  (at_pump p = Ended \/ at_pump p = Reading /\ is_Some (resume p) \/ at_pump p = Cancelling /\ is_Some (resume p)) /\
  (rx p <> Dropped -> buffer ch = []).
Proof.
  intros H Hstuck. rewrite !Forall_cons in Hstuck. destruct Hstuck as (Hadv & Hsch & Hwake & Htake & Hrecv & _). simpl in *.
  assert (rx p <> InTable) as Hnt. { intros E. rewrite E, (i_table _ _ _ H E) in Htake. done. }
  assert (rx p <> Dropped -> buffer ch = []) as Hempty.
  { intros E. destruct (rx p); [done| |done].
    unfold pop, buffer_of in Hrecv. rewrite (i_chan _ _ _ H) in Hrecv. by destruct (buffer ch). }
  split; [|done]. unfold advance, schedule_writable, wake, resume in *. destruct (at_pump p) as [|c|c [|[h|]]| |] eqn:Ha; try done.
  - right; left. split; [done|].
    destruct (body p) as [|[v|e] b]; [by eexists| |by eexists]. destruct (skipped v); [by eexists|]. by destruct (toBytes _ _); eexists.
  - unfold response_stream_write in Hadv. destruct (try_write_chunk _ _ _ _ _) as [r m']. destruct (is_ok r); [done|]. by destruct (response_stream_is_closed m' (sid p)).
  - exfalso. destruct (aborted p); [done|]. destruct (rx p) eqn:Hrx; [done| |].
    + unfold capacity, buffer_of, slots, rx_here in Hwake. rewrite Hrx in Hwake.
      pose proof (i_hwm _ _ _ H). destruct (i_task _ _ _ H c (Some h) Ha) as [[= ->]|[? _]]; [|done].
      rewrite (i_chan _ _ _ H), Hempty in Hwake by done. simpl in Hwake.
      destruct (high_water_mark (mgr p) + 1) as [|[]] eqn:E; [lia..|done].
    + unfold rx_here in Hwake. rewrite Hrx in Hwake. simpl in Hwake. by rewrite orb_true_r in Hwake.
  - right; right. split; [done|by eexists].
  - by left.
Qed.

(** C31: A response body reaches the host in order, without a gap and with its own
    end. Whatever the guest yields, whoever hangs up and however the steps of the guest,
    of the pump, of its wait for room and of the host interleave, what went into the
    channel is a prefix of the chunks of the body followed by its end: the host sees
    [Done] only after the last chunk, and a body that failed never looks complete. Once
    the pump has ended on a stream that is still open, all of it is there: the chunks,
    and [Done] or the message of the failure. A failure of which no message can be made
    is the exception the code has: it ends the pump with the chunks and nothing after
    them. *)
Theorem response_body_arrives_in_order m b0 ls p :
  1 <= high_water_mark m -> run (start m g b0) ls = Some p ->
  exists ch, chans (mgr p) !! handle p = Some ch /\
    received ch ++ buffer ch `prefix_of` whole b0 /\ length (buffer ch) <= high_water_mark (mgr p) + 1 /\
    (at_pump p = Ended -> senders (mgr p) !! sid p <> None -> received ch ++ buffer ch = whole b0).
Proof.
  intros Hh Hr. destruct (run_inv m b0 Hh ls p Hr) as [(ch & H) _]. exists ch. rewrite <-(i_fifo _ _ _ H).
  pose proof (i_phase _ _ _ H) as Hp. split_and!; [apply H|by eapply phase_prefix|apply H|].
  intros Ha Hs. unfold phase, whole in *. rewrite Ha in Hp. destruct (chunks b0), (chunks (body p)). naive_solver.
Qed.

(** C32: The pump of a response body ends where the guest lets it. A run has at most ten
    steps for each value of the body and six more, hang-ups and cancellations included.
    Where neither the pump nor its wait can go on and the host has nothing to take or
    receive, the pump has ended or awaits a promise of the guest: a [read()], or a
    [cancel()] after a client that left. If nobody hung up it is never the [cancel()],
    and the host has received everything: the whole body at the end, and at a [read()]
    all the body has yielded so far. *)
Theorem response_body_pump_ends m b0 ls p :
  1 <= high_water_mark m -> run (start m g b0) ls = Some p ->
  length ls <= 10 * length b0 + 6 /\
  (Forall (fun l => exec p l = None) [LPump; LSchedule; LWake; LTake; LRecv] ->
   (at_pump p = Ended \/ is_Some (exec p LGuest)) /\
   (forallb gentle ls = true ->
    exists ch, chans (mgr p) !! handle p = Some ch /\
      (at_pump p = Ended /\ received ch = whole b0 \/
       at_pump p = Reading /\ received ch ++ whole (body p) = whole b0))).
Proof.
  intros Hh Hr. destruct (run_inv m b0 Hh ls p Hr) as [(ch & H) Hm]. split; [lia|].
  intros Hstuck. pose proof (stuck_pump b0 p ch H Hstuck) as (Hend & Hempty).
  split; [by destruct Hend as [?|[[? ?]|[? ?]]]; auto|].
  intros Hg. destruct (gentle_run m b0 ls p Hr Hg) as (Hs & Hd & _).
  exists ch. split; [apply H|]. pose proof (i_fifo _ _ _ H) as Hf. rewrite (Hempty Hd), app_nil_r in Hf. rewrite <-Hf.
  pose proof (i_phase _ _ _ H) as Hp. unfold phase, whole in *.
  destruct (chunks b0) as [all last], (chunks (body p)) as [rest last'].
  destruct Hp as (done & Hp). destruct Hend as [E|[[E _]|[E _]]]; rewrite E in Hp.
  - left. split; [done|]. naive_solver.
  - right. destruct Hp as (-> & -> & ->). split; [done|]. simpl. by rewrite fmap_app, app_assoc.
  - destruct Hp as (_ & _ & Hn). congruence.
Qed.

End Strict.

(** A read settles whatever becomes of its chunk, and what a stream that ended is given
    changes nothing. *)
Lemma on_read_settles c r : snd (on_read c r) = true.
Proof. done. Qed.

Lemma on_read_after_end c r : (forall q, c <> Readable q) -> fst (on_read c r) = c.
Proof. intros H. unfold on_read. destruct c; [by destruct (H queue)|..]; simpl; by repeat case_match. Qed.

(** A [Response] made from the meta of an answer is one the constructor accepts, and
    no stream is left behind: a status that allows no body gets none and its stream is
    cancelled; any other status gets the stream as its body, or the body the message
    carries. *)
Theorem response_from_meta_is_valid meta :
  let r := __responseFromMeta meta in
  (status meta ∈ null_body_statuses -> body_of r = NoBody /\ cancels r = streamId meta) /\
  (status meta ∉ null_body_statuses ->
     cancels r = None /\ (forall id, streamId meta = Some id -> body_of r = NativeStream id) /\
     (streamId meta = None -> body_of r = match m_body meta with Some b => Carried b | None => NoBody end)) /\
  pair_of r = socketId meta.
Proof.
  unfold __responseFromMeta. simpl. split_and!.
  - intros H. by rewrite bool_decide_true.
  - intros H. rewrite bool_decide_false by done. split_and!; [done|by intros id ->|by intros ->].
  - done.
Qed.

(** ** Concrete runs *)

Definition demo_body : list Read :=
  [Ok (mkValue false (Uint8 [1; 2]%Z)); Ok (mkValue true (Uint8 [])); Ok (mkValue false (Text [3]%Z));
   Ok (mkValue false (Uint8 [4]%Z))].

(** A channel of one chunk and its end: the pump waits for room twice. *)
Definition demo_labels : list label :=
  [LGuest; LPump; LGuest; LGuest; LPump; LSchedule; LTake; LRecv; LWake; LPump; LGuest; LPump; LSchedule;
   LRecv; LWake; LPump; LGuest; LRecv; LRecv].

Definition demo_end : option Pump := run false 0 (start (with_high_water_mark 1) 0 demo_body) demo_labels.

Lemma response_body_arrives_in_order_witness :
  exists p, demo_end = Some p /\ exists ch, chans (mgr p) !! handle p = Some ch /\
    received ch ++ buffer ch `prefix_of` whole false demo_body /\
    length (buffer ch) <= high_water_mark (mgr p) + 1 /\
    (at_pump p = Ended -> senders (mgr p) !! sid p <> None -> received ch ++ buffer ch = whole false demo_body).
Proof.
  eexists. split; [vm_compute; reflexivity|].
  apply (response_body_arrives_in_order false 0 (with_high_water_mark 1) demo_body demo_labels);
    [vm_compute; lia|vm_compute; reflexivity].
Defined.

Lemma response_body_pump_ends_witness :
  exists p, demo_end = Some p /\ at_pump p = Ended /\ length demo_labels <= 10 * length demo_body + 6 /\
    (exists ch, chans (mgr p) !! handle p = Some ch /\
       (at_pump p = Ended /\ received ch = whole false demo_body \/
        at_pump p = Reading /\ received ch ++ whole false (body p) = whole false demo_body)).
Proof.
  eexists. split; [vm_compute; reflexivity|]. split; [reflexivity|].
  match goal with |- _ /\ exists ch, chans (mgr ?p) !! _ = _ /\ _ =>
    destruct (response_body_pump_ends false 0 (with_high_water_mark 1) demo_body demo_labels p) as [Hlen Hend] end;
    [vm_compute; lia|vm_compute; reflexivity|].
  split; [exact Hlen|]. apply Hend; [|vm_compute; reflexivity].
  repeat (apply Forall_cons; split; [vm_compute; reflexivity|]). apply Forall_nil_2.
Defined.

Example demo_whole : whole false demo_body = [Data [1; 2]; Data [3]; Data [4]; Done]%Z.
Proof. reflexivity. Qed.

(** In strict mode the text fails the body, and the host sees the failure after the
    first chunk. *)
Example strict_body_fails :
  whole true demo_body = [Data [1; 2]%Z; Error STRICT_CHUNK].
Proof. reflexivity. Qed.

(** A body that fails with an error whose [message] getter throws: the pump ends, and the
    host that has received the chunk waits on a stream that is open and stays empty. *)
Example untold_failure_leaves_the_host_waiting :
  let b := [Ok (mkValue false (Uint8 [1]%Z)); Err None] in
  option_map (fun p => (at_pump p, has_sender (mgr p) (sid p), chans (mgr p) !! handle p))
    (run false 0 (start (with_high_water_mark 1) 0 b) [LTake; LGuest; LPump; LRecv; LGuest]) =
  Some (Ended, true, Some (mkChannel 1%Z 0 [] [(0, Data [1]%Z)] [Data [1]%Z])).
Proof. vm_compute. reflexivity. Qed.

(** A client that hung up, and a guest whose [cancel()] never settles: the pump stays. *)
Example a_pending_cancel_keeps_the_pump :
  let b := [Ok (mkValue false (Uint8 [1]%Z))] in
  option_map (fun p => (at_pump p, (fun l => bool_decide (is_Some (exec false 0 p l))) <$> [LPump; LSchedule; LWake; LTake; LRecv]))
    (run false 0 (start (with_high_water_mark 1) 0 b) [LTake; LGuest; LHangUp; LPump]) =
  Some (Cancelling, [false; false; false; false; false]).
Proof. vm_compute. reflexivity. Qed.

End BodyStreams.
