(* ===== verification/WebApi.v ===== *)
(** * URL, fetch helpers, clock and console (src/src/runtime/bindings/web_api.rs,
    console.rs)

    The native ops of the guest's [URL] class over the url crate, whose type is a class
    of operations; the normalization of what a guest passes to [fetch] and the buffering
    of its body; the rounded clock; the levels of the console. Strings are lists of
    bytes (UTF-8): the code cuts them at ASCII characters only. *)

From stdpp Require Import base list gmap strings.
From Stdlib Require Import ZArith Lia.
From S2P Require Import Prelude.

Local Open Scope Z_scope.

Module WebApi.

(** ** Strings *)

Definition Str := list Z.

Definition COLON : Z := 58.
Definition CLOSE_BRACKET : Z := 93.
Definition QUESTION : Z := 63.
Definition HASH : Z := 35.
Definition PLUS : Z := 43.

(** [str::find] and [str::rfind] of a character. *)
Definition find (c : Z) (s : Str) : option nat := position (fun x => x =? c) s.

Fixpoint rfind (c : Z) (s : Str) : option nat :=
  match s with
  | [] => None
  | x :: s' => match rfind c s' with Some i => Some (S i) | None => if x =? c then Some 0%nat else None end
  end.

Definition strip_prefix (c : Z) (s : Str) : Str :=
  match s with x :: s' => if x =? c then s' else s | [] => [] end.

Definition is_empty (s : Str) : bool := match s with [] => true | _ => false end.

(** [(!value.is_empty()).then_some(value)] *)
Definition non_empty (s : Str) : option Str := if is_empty s then None else Some s.

Definition digit (c : Z) : option Z := if (48 <=? c) && (c <=? 57) then Some (c - 48) else None.

(** [u16::from_str]: an optional plus sign, digits, at least one, and no overflow. *)
Fixpoint parse_digits (acc : Z) (s : Str) : option Z :=
  match s with
  | [] => Some acc
  | c :: s =>
      d ← digit c;
      let acc := acc * 10 + d in
      if acc <=? 65535 then parse_digits acc s else None
  end.

Definition parse_u16 (s : Str) : option Z :=
  match s with
  | [] => None
  | [c] => digit c
  | c :: s' => if c =? PLUS then parse_digits 0 s' else parse_digits 0 s
  end.

(** [u16::to_string]; a u16 has at most five digits. *)
Fixpoint print_digits (fuel : nat) (n : Z) (acc : Str) : Str :=
  match fuel with
  | O => acc
  | S fuel =>
      let acc := (48 + n mod 10) :: acc in
      if n / 10 =? 0 then acc else print_digits fuel (n / 10) acc
  end.

Definition print_u16 (n : Z) : Str := print_digits 5 n [].

(** ** The url crate *)

(** A setter that answers [Err] leaves the URL as it is: it answers [None]. *)
Class UrlCrate (U : Type) := {
  parse : Str -> option U;
  join : U -> Str -> option U;
  as_str : U -> Str;
  ascii_origin : U -> Str;
  scheme : U -> Str;
  get_username : U -> Str;
  get_password : U -> option Str;
  host_str : U -> option Str;
  get_port : U -> option Z;
  path : U -> Str;
  query : U -> option Str;
  fragment : U -> option Str;
  cannot_be_a_base : U -> bool;
  set_scheme : U -> Str -> option U;
  set_username : U -> Str -> option U;
  set_password : U -> option Str -> option U;
  set_host : U -> Str -> option U;
  set_port : U -> option Z -> option U;
  set_path : U -> Str -> U;
  set_query : U -> option Str -> U;
  set_fragment : U -> option Str -> U
}.

Section Url.
Context {U : Type} `{UrlCrate U}.

Record UrlParts := mkParts {
  href : Str;
  origin : Str;
  protocol : Str;
  username : Str;
  password : Str;
  host : Str;
  hostname : Str;
  port : Str;
  pathname : Str;
  search : Str;
  hash : Str
}.

Definition prefixed (c : Z) (s : option Str) : Str :=
  match s with Some (x :: s) => c :: x :: s | _ => [] end.

(** [UrlParts::of] *)
Definition UrlParts_of (url : U) : UrlParts :=
  let port := match get_port url with Some p => print_u16 p | None => [] end in
  let hostname := default [] (host_str url) in
  mkParts (as_str url) (ascii_origin url) (scheme url ++ [COLON]) (get_username url)
    (default [] (get_password url))
    (if is_empty port then hostname else hostname ++ COLON :: port)
    hostname port (path url) (prefixed QUESTION (query url)) (prefixed HASH (fragment url)).

Definition parse_url (input : Str) (base : option Str) : option U :=
  match base with
  | Some base => url ← parse base; join url input
  | None => parse input
  end.

(** The names of the parts. *)
Inductive part :=
| Protocol | Username | Password | Host | Hostname | Port | Pathname | Search | Hash | OtherPart.

(** [let _ = url.set_x(..)] *)
Definition attempt (url : U) (r : option U) : U := default url r.

(** The split of ["host"]: an IPv6 literal is bracketed and has colons of its own. *)
Definition split_host (value : Str) : Str * option Str :=
  let host_end := match rfind CLOSE_BRACKET value with Some i => S i | None => 0%nat end in
  match find COLON (drop host_end value) with
  | Some colon => (take (host_end + colon) value, Some (drop (host_end + colon + 1) value))
  | None => (value, None)
  end.

(** [apply_url_part] *)
Definition apply_url_part (url : U) (p : part) (value : Str) : U :=
  match p with
  | Protocol => attempt url (set_scheme url (match find COLON value with Some i => take i value | None => value end))
  | Username => attempt url (set_username url value)
  | Password => attempt url (set_password url (non_empty value))
  | Host =>
      let (hostname, port) := split_host value in
      match set_host url hostname with
      | None => url
      | Some url =>
          match port ≫= parse_u16 with
          | Some port => attempt url (set_port url (Some port))
          | None => url
          end
      end
  | Hostname => attempt url (set_host url value)
  | Port =>
      if is_empty value then attempt url (set_port url None)
      else match parse_u16 value with
           | Some port => attempt url (set_port url (Some port))
           | None => url
           end
  | Pathname => if cannot_be_a_base url then url else set_path url value
  | Search => set_query url (non_empty (strip_prefix QUESTION value))
  | Hash => set_fragment url (non_empty (strip_prefix HASH value))
  | OtherPart => url
  end.

Definition url_parse (input : Str) (base : option Str) : option UrlParts := UrlParts_of <$> parse_url input base.

Definition url_update (href : Str) (p : part) (value : Str) : option UrlParts :=
  (fun url => UrlParts_of (apply_url_part url p value)) <$> parse_url href None.

End Url.

(** ** Fetch helpers *)

(** What the guest passes to [fetch]. A header value is a string; a body is opaque. An
    option the guest leaves out is [None]; an empty method is as good as none. *)
Section Fetch.
Context {Body : Type}.

(** An object of the guest, or a [Headers], which iterates its pairs. *)
Inductive HeadersInit := PlainHeaders (o : list (Str * Str)) | HeadersObject (pairs : list (Str * Str)).

Record Request := mkRequest {
  rq_url : Str;
  rq_method : Str;
  rq_headers : HeadersInit;
  rq_body : option Body;
  rq_bodyUsed : bool
}.

Inductive Input := IRequest (r : Request) | IUrl (href : Str) | IOther (text : Str).

(** [body: null] is [Some None]. *)
Record Options := mkOptions {
  o_method : option Str;
  o_headers : option HeadersInit;
  o_body : option (option Body)
}.

Definition GET : Str := [71; 69; 84].

(** [a || b] of strings. *)
Definition or_else (a : option Str) (b : Str) : Str :=
  match a with Some (c :: s) => c :: s | _ => b end.

(** [obj[key] = value] on an object with its keys in order. *)
Fixpoint set_key (o : list (Str * Str)) (k v : Str) : list (Str * Str) :=
  match o with
  | [] => [(k, v)]
  | (k', v') :: o => if bool_decide (k' = k) then (k, v) :: o else (k', v') :: set_key o k v
  end.

Definition plain (h : HeadersInit) : list (Str * Str) :=
  match h with
  | PlainHeaders o => o
  | HeadersObject pairs => foldl (fun o kv => set_key o (fst kv) (snd kv)) [] pairs
  end.

Record Normalized := mkNormalized {
  n_url : Str;
  n_method : Str;
  n_headers : list (Str * Str);
  n_body : option Body
}.

(** [__normalizeFetchInput]; [no_options] stands for a missing second argument. *)
Definition no_options : Options := mkOptions None None None.

Definition __normalizeFetchInput (input : Input) (options : option Options) : Normalized :=
  let o := default no_options options in
  match input with
  | IRequest r =>
      mkNormalized (rq_url r) (or_else (o_method o) (or_else (Some (rq_method r)) GET))
        (plain (default (rq_headers r) (o_headers o)))
        (match o_body o with
         | Some b => b
         | None => if rq_bodyUsed r then None else rq_body r
         end)
  | IUrl s | IOther s =>
      mkNormalized s (or_else (o_method o) GET) (plain (default (PlainHeaders []) (o_headers o)))
        (default None (o_body o))
  end.

End Fetch.

(** [result.set(chunk, offset)] *)
Definition set_at (a : list Z) (offset : nat) (chunk : list Z) : list Z :=
  take offset a ++ chunk ++ drop (offset + length chunk) a.

(** [__bufferBody] on the chunks its reader yields, typed arrays of bytes. *)
Definition __bufferBody (chunks : list (list Z)) : list Z :=
  let total := foldl (fun sum c => (sum + length c)%nat) 0%nat chunks in
  fst (foldl (fun '(r, offset) c => (set_at r offset c, (offset + length c)%nat)) (replicate total 0, 0%nat) chunks).

(** ** Clock and console *)

(** [performance_now], in microseconds; [elapsed] is what the clock says. *)
Definition performance_now (elapsed : Z) : Z := elapsed / 100 * 100.

Inductive LogLevel := LError | LWarn | LInfo | LDebug | LTrace.

Definition console_log (level : Z) : LogLevel :=
  match level with 0 => LError | 1 => LWarn | 2 => LInfo | 3 => LDebug | 4 => LTrace | _ => LInfo end.

Inductive console_method := CLog | CInfo | CWarn | CError | CDebug | CTrace.

(** The level and the text [console.x(...args)] hands to the host; [format] is
    [__formatArg]. *)
Definition console {Arg} (format : Arg -> Str) (m : console_method) (args : list Arg) : LogLevel * Str :=
  (console_log (match m with CLog | CInfo => 2 | CWarn => 1 | CError => 0 | CDebug => 3 | CTrace => 4 end),
   match format <$> args with
   | [] => []
   | a :: l => foldl (fun s a => s ++ 32 :: a) a l
   end).

(** ** Properties of strings *)

Lemma rfind_None c s : rfind c s = None <-> c ∉ s.
Proof.
  induction s as [|x s IH]; simpl; [split; [intros _ ?%elem_of_nil; done|done]|].
  destruct (rfind c s) eqn:E; [|destruct (Z.eqb_spec x c) as [->|]].
  - split; [done|]. intros Hn. assert (Some n = None) by (apply IH; set_solver). done.
  - set_solver.
  - rewrite elem_of_cons. naive_solver.
Qed.

Lemma rfind_app_r c s t : c ∉ t -> rfind c (s ++ t) = rfind c s.
Proof.
  intros Ht. induction s as [|x s IH]; simpl; [by apply rfind_None|]. by rewrite IH.
Qed.

Lemma rfind_Some c s i : rfind c s = Some i -> (i < length s)%nat /\ c ∉ drop (S i) s.
Proof.
  revert i. induction s as [|x s IH]; simpl; intros i; [done|].
  destruct (rfind c s) as [j|] eqn:E.
  - intros [= <-]. destruct (IH j eq_refl). split; [lia|done].
  - destruct (x =? c); [|done]. intros [= <-]. split; [lia|]. rewrite drop_0. by apply rfind_None.
Qed.

Lemma find_app_here c s t : c ∉ s -> find c (s ++ c :: t) = Some (length s).
Proof.
  intros Hs. apply position_Some. split.
  - exists c. split; [by apply list_lookup_middle|by apply Z.eqb_refl].
  - intros j y Hj Hy. rewrite lookup_app_l in Hy by done. apply Z.eqb_neq. intros ->.
    apply Hs. by eapply list_elem_of_lookup_2.
Qed.

Lemma find_absent c s : c ∉ s -> find c s = None.
Proof. intros Hs. apply position_None. intros x Hx. apply Z.eqb_neq. by intros ->. Qed.

(** A host name as [host_str] writes it: colons only inside the brackets of an IPv6
    literal. *)
Definition host_shaped (h : Str) : Prop :=
  COLON ∉ drop (match rfind CLOSE_BRACKET h with Some i => S i | None => 0%nat end) h.

Lemma split_host_port h p :
  host_shaped h -> COLON ∉ p -> CLOSE_BRACKET ∉ p -> split_host (h ++ COLON :: p) = (h, Some p).
Proof.
  intros Hh Hc Hb. unfold split_host.
  rewrite rfind_app_r by (rewrite elem_of_cons; intros [?|?]; done). unfold host_shaped in Hh.
  set (e := match rfind CLOSE_BRACKET h with Some i => S i | None => 0%nat end) in *.
  assert (e <= length h)%nat as He.
  { unfold e. destruct (rfind _ h) eqn:E; [|lia]. apply rfind_Some in E as [? _]. lia. }
  rewrite drop_app_le by done. rewrite find_app_here by done. rewrite length_drop.
  replace (e + (length h - e))%nat with (length h) by lia.
  rewrite take_app_length. rewrite drop_app, drop_ge by lia. simpl.
  replace (length h + 1 - length h)%nat with 1%nat by lia. done.
Qed.

Lemma split_host_plain h : host_shaped h -> split_host h = (h, None).
Proof. intros Hh. unfold split_host. by rewrite find_absent. Qed.

(** Decimal digits. *)
Lemma digit_spec d : 0 <= d < 10 -> digit (48 + d) = Some d.
Proof.
  intros Hd. unfold digit. destruct (Z.leb_spec 48 (48 + d)), (Z.leb_spec (48 + d) 57); try lia. simpl.
  f_equal. lia.
Qed.

Lemma digit_inv c d : digit c = Some d -> 0 <= d < 10 /\ c = 48 + d.
Proof. unfold digit. destruct (Z.leb_spec 48 c), (Z.leb_spec c 57); simpl; naive_solver lia. Qed.

Lemma parse_print_digits fuel : forall n acc,
  0 <= n < 10 ^ Z.of_nat fuel -> (0 < fuel)%nat ->
  exists t, print_digits fuel n acc = t ++ acc /\ t <> [] /\ Forall (fun c => 48 <= c <= 57) t /\
    (n <= 65535 -> parse_digits 0 (t ++ acc) = parse_digits n acc).
Proof.
  induction fuel as [|fuel IH]; intros n acc Hn Hf; [lia|]. simpl.
  assert (0 <= n mod 10 < 10) as Hd by (apply Z.mod_pos_bound; lia).
  pose proof (Z.div_mod n 10 ltac:(lia)) as Hdm.
  assert (0 <= n / 10) as Hq by (apply Z.div_pos; lia).
  destruct (Z.eqb_spec (n / 10) 0) as [Hz|Hz].
  - exists [48 + n mod 10]. split_and!; [done|done|repeat constructor; lia|]. intros Hle. simpl.
    rewrite digit_spec by done. simpl. replace (0 * 10 + n mod 10) with n by lia. by destruct (Z.leb_spec n 65535); [|lia].
  - destruct fuel as [|fuel]; [simpl in Hn; rewrite Z.div_small in Hz; lia|].
    destruct (IH (n / 10) ((48 + n mod 10) :: acc)) as (t & Ht & Hne & Hfo & Hp); [|lia|].
    { split; [done|]. apply Z.div_lt_upper_bound; [lia|]. rewrite Nat2Z.inj_succ, Z.pow_succ_r in Hn by lia. lia. }
    exists (t ++ [48 + n mod 10]). rewrite Ht, <-!app_assoc. split_and!; [done|by destruct t| |].
    + apply Forall_app. split; [done|]. repeat constructor; lia.
    + intros Hle. change ([48 + n mod 10] ++ acc) with ((48 + n mod 10) :: acc). rewrite Hp by lia. simpl. rewrite digit_spec by done. simpl.
      destruct (Z.leb_spec (n / 10 * 10 + n mod 10) 65535); [|lia]. by replace (n / 10 * 10 + n mod 10) with n by lia.
Qed.

Lemma print_u16_spec n : 0 <= n <= 65535 ->
  print_u16 n <> [] /\ Forall (fun c => 48 <= c <= 57) (print_u16 n) /\ parse_u16 (print_u16 n) = Some n.
Proof.
  intros Hn. unfold print_u16.
  destruct (parse_print_digits 5 n []) as (t & Ht & Hne & Hfo & Hp); [simpl; lia|lia|].
  rewrite app_nil_r in *. rewrite Ht. split_and!; [done|done|]. specialize (Hp ltac:(lia)). simpl in Hp.
  unfold parse_u16. destruct t as [|c [|c' t]]; [done| |].
  - simpl in Hp. destruct (digit c) as [d|] eqn:E; simpl in Hp; [|done].
    replace (0 * 10 + d) with d in Hp by lia. by destruct (d <=? 65535).
  - inversion Hfo; subst. destruct (Z.eqb_spec c PLUS) as [->|]; [unfold PLUS in *; lia|done].
Qed.

Lemma parse_digits_bound s : forall acc n, 0 <= acc <= 65535 -> parse_digits acc s = Some n -> 0 <= n <= 65535.
Proof.
  induction s as [|c s IH]; simpl; intros acc n Ha; [naive_solver|].
  destruct (digit c) as [d|] eqn:Hd; simpl; [|done]. apply digit_inv in Hd as [Hd _].
  destruct (Z.leb_spec (acc * 10 + d) 65535); [|done]. apply IH. lia.
Qed.

(** Whatever the guest writes, a port that is set is a port. *)
Lemma parse_u16_bound s n : parse_u16 s = Some n -> 0 <= n <= 65535.
Proof.
  unfold parse_u16. destruct s as [|c [|c' s]]; [done| |].
  - intros [? _]%digit_inv. lia.
  - destruct (c =? PLUS); apply parse_digits_bound; lia.
Qed.


(** ** Properties *)

Section UrlProperties.
Context {U : Type} `{UrlCrate U}.

(** Assigning the [host] of one URL to another is assigning its host name and then
    its port: the composition that [UrlParts::of] makes of them, the split at the colon
    that is not inside the brackets of an IPv6 literal, and the decimal form of the port
    undo each other. A target that refuses the host name keeps its port too. *)
Theorem host_setter_inverts_host (from to : U) :
  host_shaped (default [] (host_str from)) ->
  (forall p, get_port from = Some p -> 0 <= p <= 65535) ->
  apply_url_part to Host (host (UrlParts_of from)) =
  match set_host to (hostname (UrlParts_of from)) with
  | None => to
  | Some to =>
      match get_port from with
      | Some p => attempt to (set_port to (Some p))
      | None => to
      end
  end.
Proof.
  intros Hs Hp. unfold apply_url_part, UrlParts_of. simpl. destruct (get_port from) as [p|].
  - destruct (print_u16_spec p (Hp p eq_refl)) as (Hne & Hd & Hpp).
    destruct (print_u16 p) as [|c ds] eqn:E; [done|]. simpl is_empty. cbv iota.
    assert (forall x, x < 48 \/ 57 < x -> x ∉ c :: ds) as Hnot.
    { intros x Hx Hin. rewrite Forall_forall in Hd. specialize (Hd x Hin). lia. }
    rewrite split_host_port by (try apply Hnot; unfold COLON, CLOSE_BRACKET; done || lia).
    destruct (set_host to _); [|done]. by rewrite <-E in Hpp |- *; simpl; rewrite E, <-E, Hpp.
  - simpl. by rewrite split_host_plain.
Qed.

(** A value that a setter cannot apply changes nothing. *)
Lemma port_setter_ignores (url : U) value :
  value <> [] -> parse_u16 value = None -> apply_url_part url Port value = url.
Proof. intros Hv Hp. simpl. destruct value; [done|]. cbn [is_empty]. by rewrite Hp. Qed.

End UrlProperties.

(** The port setter as the URL Standard has it takes the digits at the front. *)
Definition whatwg_port (value : Str) : option Z :=
  let fix digits (s : Str) : Str :=
    match s with c :: s => match digit c with Some _ => c :: digits s | None => [] end | [] => [] end in
  match digits value with [] => None | ds => parse_digits 0 ds end.

(** On [8080abc] the standard sets the port and this one does not; on [+80] it is the
    other way around. *)
Example port_setter_differs :
  (parse_u16 [56; 48; 56; 48; 97; 98; 99], whatwg_port [56; 48; 56; 48; 97; 98; 99],
   parse_u16 [43; 56; 48], whatwg_port [43; 56; 48]) = (None, Some 8080, Some 80, None).
Proof. reflexivity. Qed.

Lemma total_length (chunks : list (list Z)) : forall n,
  foldl (fun sum c => (sum + length c)%nat) n chunks = (n + length (concat chunks))%nat.
Proof. induction chunks as [|c cs IH]; intros n; simpl; [lia|]. rewrite IH, length_app. lia. Qed.

(** [__bufferBody], which allocates the whole array and copies each chunk to its
    offset, answers the concatenation of the chunks. *)
Theorem buffer_body_concatenates chunks : __bufferBody chunks = concat chunks.
Proof.
  unfold __bufferBody. rewrite total_length. simpl.
  assert (forall (cs : list (list Z)) done, fst (foldl (fun '(r, offset) c => (set_at r offset c, (offset + length c)%nat))
    (done ++ replicate (length (concat cs)) 0, length done) cs) = done ++ concat cs) as Hgen.
  { induction cs as [|c cs IH]; intros done; simpl; [by rewrite app_nil_r|].
    rewrite length_app, replicate_add. unfold set_at at 2. rewrite take_app_length, drop_app, drop_ge by lia. simpl.
    replace (length done + length c - length done)%nat with (length c) by lia.
    rewrite drop_app_length' by (by rewrite length_replicate). rewrite app_assoc, <-length_app, IH. by rewrite app_assoc. }
  apply (Hgen chunks []).
Qed.

(** The clock is behind by less than its grain, never goes back, and answers whole
    grains. *)
Lemma performance_now_grain t :
  performance_now t mod 100 = 0 /\ performance_now t <= t < performance_now t + 100.
Proof.
  unfold performance_now. split; [by apply Z.mod_mul|].
  pose proof (Z.div_mod t 100 ltac:(lia)). pose proof (Z.mod_pos_bound t 100 ltac:(lia)). lia.
Qed.

Lemma performance_now_mono t t' : t <= t' -> performance_now t <= performance_now t'.
Proof. intros Ht. unfold performance_now. pose proof (Z.div_le_mono t t' 100 ltac:(lia) Ht). lia. Qed.

(** A body that was used is not sent again, and what the options say wins. *)
Lemma normalize_body {Body} (r : @Request Body) o :
  n_body (__normalizeFetchInput (IRequest r) o) =
  match o ≫= o_body with
  | Some b => b
  | None => if rq_bodyUsed r then None else rq_body r
  end.
Proof. destruct o as [[m h [b|]]|]; done. Qed.

(** ** Concrete inputs *)

(** A url crate with just a host and a port. *)
#[export] Instance demo_crate : UrlCrate (Str * option Z) := {|
  parse s := Some (s, None); join _ s := Some (s, None); as_str := fst; ascii_origin := fst;
  scheme _ := []; get_username _ := []; get_password _ := None;
  host_str u := Some (fst u); get_port := snd; path _ := []; query _ := None; fragment _ := None;
  cannot_be_a_base _ := false; set_scheme _ _ := None; set_username _ _ := None; set_password _ _ := None;
  set_host u h := Some (h, snd u); set_port u p := Some (fst u, p);
  set_path u _ := u; set_query u _ := u; set_fragment u _ := u
|}.

(** [[::1]:8080] *)
Lemma host_setter_inverts_host_witness :
  apply_url_part ([97], None) Host (host (UrlParts_of ([91; 58; 58; 49; 93], Some 8080))) =
  ([91; 58; 58; 49; 93], Some 8080).
Proof.
  rewrite (host_setter_inverts_host ([91; 58; 58; 49; 93], Some 8080) ([97], None));
    [reflexivity|unfold host_shaped; simpl; set_solver|simpl; intros p [= <-]; lia].
Defined.

End WebApi.
