(* ===== verification/FetchApi.v ===== *)
(** * The guest's fetch (src/src/runtime/bindings/fetch.rs, its script; web_api.rs)

    The body of a request from what the guest passes, the multipart form of a [FormData],
    the content type that goes with it, and the choice between a WebSocket and a fetch.
    The headers of a request are an object of the guest's heap: [fetch] writes the content
    type into the object that [__normalizeFetchInput] answers, which is the guest's own
    when it passed a plain one, so the heap is explicit. Strings are lists of bytes
    (UTF-8), as [TextEncoder] makes them. *)

From stdpp Require Import base list gmap.
From Stdlib Require Import ZArith Lia.
From S2P Require Import Prelude WebApi.

Local Open Scope Z_scope.

Module FetchApi.
Import WebApi.

(** ** Text *)

Definition CR : Z := 13.
Definition LF : Z := 10.
Definition QUOTE : Z := 34.
Definition DASH : Z := 45.
Definition CRLF : Str := [CR; LF].
Definition dashes : Str := [DASH; DASH].

(** [----OpenWorkersBoundary], [Content-Disposition: form-data; name="], [; filename="],
    [Content-Type: ], [application/octet-stream], [blob] *)
Definition boundary_prefix : Str :=
  [45; 45; 45; 45; 79; 112; 101; 110; 87; 111; 114; 107; 101; 114; 115; 66; 111; 117; 110; 100; 97; 114; 121].
Definition disposition : Str :=
  [67; 111; 110; 116; 101; 110; 116; 45; 68; 105; 115; 112; 111; 115; 105; 116; 105; 111; 110; 58; 32; 102; 111; 114; 109;
   45; 100; 97; 116; 97; 59; 32; 110; 97; 109; 101; 61; 34].
Definition filename_attr : Str := [59; 32; 102; 105; 108; 101; 110; 97; 109; 101; 61; 34].
Definition content_type_line : Str := [67; 111; 110; 116; 101; 110; 116; 45; 84; 121; 112; 101; 58; 32].
Definition octet_stream : Str :=
  [97; 112; 112; 108; 105; 99; 97; 116; 105; 111; 110; 47; 111; 99; 116; 101; 116; 45; 115; 116; 114; 101; 97; 109].
Definition blob_name : Str := [98; 108; 111; 98].

(** ** Forms *)

Record Blob := mkBlob { b_bytes : Str; b_type : Str; b_name : option Str }.

(** An entry of a [FormData]: its name, and a text or a blob with the file name it was
    appended with. *)
Inductive FormValue := Text (s : Str) | File (b : Blob) (filename : option Str).

Definition Entry : Type := Str * FormValue.

Definition fname (b : Blob) (filename : option Str) : Str := or_else filename (or_else (b_name b) blob_name).
Definition ftype (b : Blob) : Str := or_else (Some (b_type b)) octet_stream.

(** The parts an entry pushes. *)
Definition entry_parts (boundary : Str) (e : Entry) : list Str :=
  let part := dashes ++ boundary ++ CRLF in
  match snd e with
  | File b filename =>
      let part := part ++ disposition ++ fst e ++ [QUOTE] ++ filename_attr ++ fname b filename ++ [QUOTE] ++ CRLF in
      let part := part ++ content_type_line ++ ftype b ++ CRLF ++ CRLF in
      [part; b_bytes b; CRLF]
  | Text s =>
      let part := part ++ disposition ++ fst e ++ [QUOTE] ++ CRLF ++ CRLF in
      [part ++ s ++ CRLF]
  end.

(** [__serializeFormData]; [random] is the text of [Math.random()] it slices. The copy of
    the parts into one array is the one of [__bufferBody]. *)
Definition __serializeFormData (entries : list Entry) (random : Str) : Str * Str :=
  let boundary := boundary_prefix ++ random in
  let parts := concat (entry_parts boundary <$> entries) ++ [dashes ++ boundary ++ dashes ++ CRLF] in
  (__bufferBody parts, boundary).

(** ** Bodies and headers *)

Inductive Body :=
| BStream (chunks : list Str)
| BForm (entries : list Entry)
| BParams (text : Str)
| BBlob (b : Blob)
| BBuffer (bytes : Str)
| BPrimitive (text : Str)
| BBytes (bytes : Str).

(** The plain objects of the guest, by reference. *)
Definition Obj := list (Str * Str).
Record Heap := mkHeap { objs : gmap nat Obj; next : nat }.

Definition alloc (h : Heap) (o : Obj) : nat * Heap := (next h, mkHeap (<[next h := o]> (objs h)) (S (next h))).
Definition read (h : Heap) (r : nat) : Obj := default [] (objs h !! r).
Definition write (h : Heap) (r : nat) (o : Obj) : Heap := mkHeap (<[r := o]> (objs h)) (next h).

Definition field (o : Obj) (k : Str) : option Str := snd <$> (snd <$> list_find (fun kv => fst kv = k) o).

(** [!o[k]]: missing or empty *)
Definition falsy (o : Obj) (k : Str) : bool := match field o k with Some (_ :: _) => false | _ => true end.

Inductive Headers := PlainRef (r : nat) | HeadersPairs (pairs : list (Str * Str)).

Record Request := mkRequest {
  rq_url : Str;
  rq_method : Str;
  rq_headers : Headers;
  rq_body : option Body;
  rq_bodyUsed : bool
}.

Inductive Input := IRequest (r : Request) | IUrl (href : Str) | IOther (text : Str).

Record Options := mkOptions { o_method : option Str; o_headers : option Headers; o_body : option (option Body) }.

Definition no_options : Options := mkOptions None None None.

(** The object of the headers: the guest's own if it is a plain one. *)
Definition headers_object (h : Heap) (x : Headers) : nat * Heap :=
  match x with
  | PlainRef r => (r, h)
  | HeadersPairs pairs => alloc h (foldl (fun o kv => set_key o (fst kv) (snd kv)) [] pairs)
  end.

Definition missing_headers (h : Heap) (x : option Headers) : nat * Heap :=
  match x with Some x => headers_object h x | None => alloc h [] end.

Record Normalized := mkNormalized { n_url : Str; n_method : Str; n_headers : nat; n_body : option Body }.

(** [__normalizeFetchInput] *)
Definition normalize (h : Heap) (input : Input) (options : option Options) : Normalized * Heap :=
  let o := default no_options options in
  match input with
  | IRequest r =>
      let (x, h) := headers_object h (default (rq_headers r) (o_headers o)) in
      (mkNormalized (rq_url r) (or_else (o_method o) (or_else (Some (rq_method r)) GET)) x
         (match o_body o with Some b => b | None => if rq_bodyUsed r then None else rq_body r end), h)
  | IUrl s | IOther s =>
      let (x, h) := missing_headers h (o_headers o) in
      (mkNormalized s (or_else (o_method o) GET) x (default None (o_body o)), h)
  end.

(** [Content-Type], [content-type], [multipart/form-data; boundary=],
    [application/x-www-form-urlencoded;charset=UTF-8] *)
Definition Content_Type : Str := [67; 111; 110; 116; 101; 110; 116; 45; 84; 121; 112; 101].
Definition content_type : Str := [99; 111; 110; 116; 101; 110; 116; 45; 116; 121; 112; 101].
Definition multipart : Str :=
  [109; 117; 108; 116; 105; 112; 97; 114; 116; 47; 102; 111; 114; 109; 45; 100; 97; 116; 97; 59; 32; 98; 111; 117; 110;
   100; 97; 114; 121; 61].
Definition urlencoded : Str :=
  [97; 112; 112; 108; 105; 99; 97; 116; 105; 111; 110; 47; 120; 45; 119; 119; 119; 45; 102; 111; 114; 109; 45; 117; 114;
   108; 101; 110; 99; 111; 100; 101; 100; 59; 99; 104; 97; 114; 115; 101; 116; 61; 85; 84; 70; 45; 56].

(** The bytes of a body, and the content type it implies. *)
Definition encoded (body : option Body) (random : Str) : option Str * option Str :=
  match body with
  | None => (None, None)
  | Some (BStream chunks) => (Some (__bufferBody chunks), None)
  | Some (BForm entries) =>
      let (bytes, boundary) := __serializeFormData entries random in (Some bytes, Some (multipart ++ boundary))
  | Some (BParams text) => (Some text, Some urlencoded)
  | Some (BBlob b) => (Some (b_bytes b), None)
  | Some (BBuffer b) | Some (BPrimitive b) | Some (BBytes b) => (Some b, None)
  end.

(** [__encodeFetchBody] *)
Definition __encodeFetchBody (h : Heap) (body : option Body) (headers : nat) (random : Str) : option Str * Heap :=
  let (bytes, ty) := encoded body random in
  match ty with
  | Some ty =>
      if falsy (read h headers) Content_Type && falsy (read h headers) content_type
      then (bytes, write h headers (set_key (read h headers) Content_Type ty))
      else (bytes, h)
  | None => (bytes, h)
  end.

(** ** The call *)

(** [toLowerCase], on ASCII letters *)
Definition lower (s : Str) : Str := (fun c => if (65 <=? c) && (c <=? 90) then c + 32 else c) <$> s.

Definition upgrade : Str := [117; 112; 103; 114; 97; 100; 101].
Definition websocket : Str := [119; 101; 98; 115; 111; 99; 107; 101; 116].

Inductive Call :=
| Connect (url : Str) (headers : Obj)
| Streaming (url method : Str) (headers : Obj) (body : option Str).

Definition is_upgrade (o : Obj) : bool :=
  match list_find (fun kv => lower (fst kv) = upgrade) o with
  | Some (_, (_, v)) => bool_decide (lower v = websocket)
  | None => false
  end.

(** [fetch], up to the native it calls; [random] is what [Math.random()] gives it. *)
Definition fetch (h : Heap) (input : Input) (options : option Options) (random : Str) : Call * Heap :=
  let (n, h) := normalize h input options in
  let (body, h) := __encodeFetchBody h (n_body n) (n_headers n) random in
  let headers := read h (n_headers n) in
  (if is_upgrade headers then Connect (n_url n) headers
   else Streaming (n_url n) (n_method n) headers body, h).

(** ** A reader of multipart forms *)

Fixpoint strip (p s : Str) : option Str :=
  match p, s with
  | [], _ => Some s
  | c :: p, x :: s => if x =? c then strip p s else None
  | _ :: _, [] => None
  end.

(** What is before the first occurrence of [p], and after it. *)
Fixpoint cut (p s : Str) : option (Str * Str) :=
  match strip p s with
  | Some rest => Some ([], rest)
  | None => match s with [] => None | c :: s => '(a, r) ← cut p s; Some (c :: a, r) end
  end.

(** An entry as a server sees it: a text, or a file with its name, type and bytes. *)
Inductive Seen := SeenText (s : Str) | SeenFile (name type bytes : Str).

(** The line of the disposition: the name, and the file name if any. *)
Definition read_disposition (line : Str) : option (Str * option Str) :=
  rest ← strip disposition line;
  '(name, rest) ← cut [QUOTE] rest;
  match rest with
  | [] => Some (name, None)
  | _ => rest ← strip filename_attr rest;
         '(f, rest) ← cut [QUOTE] rest;
         match rest with [] => Some (name, Some f) | _ => None end
  end.

(** A part after its boundary: its headers, a blank line, and its content up to the next
    boundary. *)
Definition read_part (boundary s : Str) : option (Str * Seen * Str) :=
  '(line, s) ← cut CRLF s;
  '(name, f) ← read_disposition line;
  match f with
  | None =>
      s ← strip CRLF s;
      '(content, s) ← cut (CRLF ++ dashes ++ boundary) s;
      Some (name, SeenText content, s)
  | Some f =>
      '(line, s) ← cut CRLF s;
      ty ← strip content_type_line line;
      s ← strip CRLF s;
      '(content, s) ← cut (CRLF ++ dashes ++ boundary) s;
      Some (name, SeenFile f ty content, s)
  end.

Fixpoint read_parts (fuel : nat) (boundary s : Str) : option (list (Str * Seen)) :=
  match fuel with
  | O => None
  | S fuel =>
      match strip (dashes ++ CRLF) s with
      | Some [] => Some []
      | Some _ => None
      | None =>
          s ← strip CRLF s;
          '(name, v, s) ← read_part boundary s;
          l ← read_parts fuel boundary s;
          Some ((name, v) :: l)
      end
  end.

(** A form takes fewer parts than bytes, so the length is enough fuel. *)
Definition read_form (boundary s : Str) : option (list (Str * Seen)) :=
  s ← strip (dashes ++ boundary) s; read_parts (length s) boundary s.

(** ** Properties of the reader *)

Lemma strip_app p s : strip p (p ++ s) = Some s.
Proof. induction p as [|c p IH]; [done|]. simpl. by rewrite Z.eqb_refl. Qed.

Lemma strip_Some p s r : strip p s = Some r -> s = p ++ r.
Proof.
  revert s. induction p as [|c p IH]; intros s Hs; simpl in *; [by injection Hs as ->|].
  destruct s as [|x s]; [done|]. destruct (Z.eqb_spec x c) as [->|]; [|done]. by rewrite <-(IH _ Hs).
Qed.

Lemma cut_absent c t s : c ∉ s -> cut (c :: t) s = None.
Proof.
  induction s as [|x s IH]; intros Hn; simpl; [done|]. apply not_elem_of_cons in Hn as [Hx Hn].
  destruct (Z.eqb_spec x c) as [->|]; [done|]. by rewrite IH.
Qed.

(** A pattern whose first character does not come again is found where it was put. *)
Lemma cut_app c t a rest :
  c ∉ t -> cut (c :: t) a = None -> cut (c :: t) (a ++ (c :: t) ++ rest) = Some (a, rest).
Proof.
  intros Ht. induction a as [|x a IH]; intros Hcut.
  - cbn [app]. simpl. rewrite Z.eqb_refl. pose proof (strip_app t rest) as ->. done.
  - assert (strip (c :: t) ((x :: a) ++ (c :: t) ++ rest) = None) as Hnone.
    { destruct (strip (c :: t) ((x :: a) ++ (c :: t) ++ rest)) as [r|] eqn:E; [|done]. exfalso.
      apply strip_Some in E. destruct (decide (length (c :: t) <= length (x :: a))%nat) as [Hl|Hl].
      - assert (x :: a = (c :: t) ++ drop (length (c :: t)) (x :: a)) as Heq.
        { rewrite <-(take_drop (length (c :: t)) (x :: a)) at 1. f_equal.
          rewrite <-(take_app_le (x :: a) ((c :: t) ++ rest)) by done. by rewrite E, take_app_length. }
        rewrite Heq in Hcut. pose proof (strip_app (c :: t) (drop (length (c :: t)) (x :: a))) as Hs.
        destruct ((c :: t) ++ drop (length (c :: t)) (x :: a)) as [|y l] eqn:El; [done|].
        cbn [cut] in Hcut. rewrite Hs in Hcut. done.
      - assert (nth_error (((x :: a) ++ (c :: t) ++ rest) : Str) (length (x :: a)) = Some c) as H1.
        { rewrite nth_error_app2 by lia. by rewrite Nat.sub_diag. }
        rewrite E in H1. rewrite nth_error_app1 in H1 by lia. simpl in H1. apply nth_error_In in H1.
        by apply list_elem_of_In in H1. }
    cbn [app] in *. cbn [cut]. rewrite Hnone. cbn [cut] in Hcut.
    destruct (strip (c :: t) (x :: a)); [done|]. rewrite IH; [done|].
    by destruct (cut (c :: t) a) as [[]|].
Qed.

(** ** Forms are read back *)

(** The names of a form that its headers can carry: no quote, no line break. *)
Definition token (s : Str) : Prop := QUOTE ∉ s /\ CR ∉ s.

Definition content_of (e : Entry) : Str := match snd e with Text s => s | File b _ => b_bytes b end.

Definition writable (boundary : Str) (e : Entry) : Prop :=
  token (fst e) /\
  match snd e with Text _ => True | File b f => token (fname b f) /\ CR ∉ b_type b end /\
  cut (CRLF ++ dashes ++ boundary) (content_of e) = None.

Definition seen (e : Entry) : Str * Seen :=
  (fst e, match snd e with Text s => SeenText s | File b f => SeenFile (fname b f) (ftype b) (b_bytes b) end).

(** The headers of an entry, with the blank line. *)
Definition head_of (e : Entry) : Str :=
  match snd e with
  | Text _ => disposition ++ fst e ++ [QUOTE] ++ CRLF ++ CRLF
  | File b f =>
      disposition ++ fst e ++ [QUOTE] ++ filename_attr ++ fname b f ++ [QUOTE] ++ CRLF ++
      content_type_line ++ ftype b ++ CRLF ++ CRLF
  end.

(** What follows a boundary. *)
Fixpoint after (boundary : Str) (es : list Entry) : Str :=
  match es with
  | [] => dashes ++ CRLF
  | e :: es => CRLF ++ head_of e ++ content_of e ++ CRLF ++ dashes ++ boundary ++ after boundary es
  end.

Lemma concat_entry_parts boundary e : concat (entry_parts boundary e) = dashes ++ boundary ++ CRLF ++ head_of e ++ content_of e ++ CRLF.
Proof.
  destruct e as [name [s|b f]]; unfold entry_parts, head_of, content_of; cbn [fst snd concat];
    rewrite <-?app_assoc; rewrite ?app_nil_r; cbn [app]; rewrite <-?app_assoc; done.
Qed.

Lemma serialized entries random :
  fst (__serializeFormData entries random) =
  dashes ++ (boundary_prefix ++ random) ++ after (boundary_prefix ++ random) entries.
Proof.
  unfold __serializeFormData. cbn [fst]. rewrite buffer_body_concatenates. set (b := boundary_prefix ++ random).
  induction entries as [|e es IH]; [cbn; by rewrite app_nil_r|].
  rewrite fmap_cons. cbn [concat]. rewrite <-app_assoc, concat_app, IH, concat_entry_parts. cbn [after].
  by rewrite <-!app_assoc.
Qed.

Lemma read_disposition_text name : QUOTE ∉ name -> read_disposition (disposition ++ name ++ [QUOTE]) = Some (name, None).
Proof.
  intros Hn. unfold read_disposition. rewrite strip_app. cbn [mbind option_bind].
  change (name ++ [QUOTE]) with (name ++ [QUOTE] ++ []).
  rewrite cut_app by (apply not_elem_of_nil || by apply cut_absent). done.
Qed.

Lemma read_disposition_file name f :
  QUOTE ∉ name -> QUOTE ∉ f ->
  read_disposition (disposition ++ name ++ [QUOTE] ++ filename_attr ++ f ++ [QUOTE]) = Some (name, Some f).
Proof.
  intros Hn Hf. unfold read_disposition. rewrite strip_app. cbn [mbind option_bind].
  rewrite cut_app by (apply not_elem_of_nil || by apply cut_absent).
  cbn [mbind option_bind]. change (filename_attr ++ f ++ [QUOTE]) with (59 :: drop 1 filename_attr ++ f ++ [QUOTE]) at 1.
  cbv iota. rewrite strip_app. cbn [mbind option_bind].
  change (f ++ [QUOTE]) with (f ++ [QUOTE] ++ []).
  rewrite cut_app by (apply not_elem_of_nil || by apply cut_absent). done.
Qed.

Lemma cut_line line rest : CR ∉ line -> cut CRLF (line ++ CRLF ++ rest) = Some (line, rest).
Proof. intros Hn. apply (cut_app CR [LF]); [set_solver by lia|by apply cut_absent]. Qed.

Lemma cut_content boundary content rest :
  CR ∉ boundary -> cut (CRLF ++ dashes ++ boundary) content = None ->
  cut (CRLF ++ dashes ++ boundary) (content ++ CRLF ++ dashes ++ boundary ++ rest) = Some (content, rest).
Proof.
  intros Hb Hc. change (CRLF ++ dashes ++ boundary) with (CR :: LF :: DASH :: DASH :: boundary) in *.
  change (CRLF ++ dashes ++ boundary ++ rest) with ((CR :: LF :: DASH :: DASH :: boundary) ++ rest).
  apply cut_app; [|done]. rewrite !not_elem_of_cons. done.
Qed.

Lemma elem_of_app_free (c : Z) (l k : Str) : c ∉ l -> c ∉ k -> c ∉ l ++ k.
Proof. rewrite not_elem_of_app. done. Qed.

Lemma ftype_line b : CR ∉ b_type b -> CR ∉ content_type_line ++ ftype b.
Proof.
  intros Hb. apply elem_of_app_free; [by apply (bool_decide_unpack _)|]. unfold ftype, or_else.
  destruct (b_type b); [by apply (bool_decide_unpack _)|done].
Qed.

Lemma read_part_entry boundary e rest :
  CR ∉ boundary -> writable boundary e ->
  read_part boundary (head_of e ++ content_of e ++ CRLF ++ dashes ++ boundary ++ rest) = Some (seen e, rest).
Proof.
  intros Hb [[Hq Hc] [Hf Hcut]]. destruct e as [name [s|b f]]; unfold read_part, head_of, content_of, seen in *; cbn [fst snd] in *.
  - replace ((disposition ++ name ++ [QUOTE] ++ CRLF ++ CRLF) ++ s ++ CRLF ++ dashes ++ boundary ++ rest)
      with ((disposition ++ name ++ [QUOTE]) ++ CRLF ++ CRLF ++ s ++ CRLF ++ dashes ++ boundary ++ rest)
      by (by rewrite <-!app_assoc).
    rewrite cut_line by (repeat apply elem_of_app_free; try done; by apply (bool_decide_unpack _)). cbn [mbind option_bind].
    rewrite read_disposition_text by done. cbn [mbind option_bind]. rewrite strip_app. cbn [mbind option_bind].
    rewrite cut_content by done. done.
  - destruct Hf as [[Hfq Hfc] Hty].
    replace ((disposition ++ name ++ [QUOTE] ++ filename_attr ++ fname b f ++ [QUOTE] ++ CRLF ++
              content_type_line ++ ftype b ++ CRLF ++ CRLF) ++ b_bytes b ++ CRLF ++ dashes ++ boundary ++ rest)
      with ((disposition ++ name ++ [QUOTE] ++ filename_attr ++ fname b f ++ [QUOTE]) ++ CRLF ++
            (content_type_line ++ ftype b) ++ CRLF ++ CRLF ++ b_bytes b ++ CRLF ++ dashes ++ boundary ++ rest)
      by (by rewrite <-!app_assoc).
    rewrite cut_line by (repeat apply elem_of_app_free; try done; by apply (bool_decide_unpack _)). cbn [mbind option_bind].
    rewrite read_disposition_file by done. cbn [mbind option_bind].
    rewrite cut_line by (by apply ftype_line). cbn [mbind option_bind].
    rewrite strip_app. cbn [mbind option_bind]. rewrite strip_app. cbn [mbind option_bind].
    rewrite cut_content by done. done.
Qed.

Lemma read_parts_after boundary es : forall fuel,
  CR ∉ boundary -> Forall (writable boundary) es -> (length es < fuel)%nat ->
  read_parts fuel boundary (after boundary es) = Some (seen <$> es).
Proof.
  induction es as [|e es IH]; intros fuel Hb Hw Hl; (destruct fuel as [|fuel]; [lia|]); [done|].
  apply Forall_cons in Hw as [He Hw]. cbn [read_parts after].
  change (strip (dashes ++ CRLF) (CRLF ++ ?x)) with (@None Str).
  rewrite strip_app. cbn [mbind option_bind]. rewrite read_part_entry by done. cbn [mbind option_bind].
  simpl in Hl. rewrite IH by (done || lia). by destruct e.
Qed.

Lemma after_length boundary es : (length es < length (after boundary es))%nat.
Proof.
  induction es as [|e es IH]; [simpl; lia|]. cbn [after]. rewrite !length_app. simpl length at 1 2. lia.
Qed.

Lemma forms_are_read_back entries random :
  CR ∉ random -> Forall (writable (boundary_prefix ++ random)) entries ->
  read_form (boundary_prefix ++ random) (fst (__serializeFormData entries random)) = Some (seen <$> entries).
Proof.
  intros Hr Hw. rewrite serialized. unfold read_form. rewrite (app_assoc dashes (boundary_prefix ++ random) (after _ _)), strip_app. cbn [mbind option_bind].
  apply read_parts_after; [|done|apply after_length].
  apply elem_of_app_free; [by apply (bool_decide_unpack _)|done].
Qed.

(** ** What a server receives *)

Lemma list_find_set_key o k v : list_find (fun kv => fst kv = k) (set_key o k v) <> None /\ field (set_key o k v) k = Some v.
Proof.
  induction o as [|[k' v'] o IH]; unfold field in *; simpl.
  - destruct (decide (k = k)); done.
  - case_bool_decide as Hk; simpl.
    + destruct (decide (k = k)); done.
    + destruct (decide (k' = k)); [done|]. destruct IH as [H1 H2].
      destruct (list_find (fun kv => fst kv = k) (set_key o k v)) as [[]|]; done.
Qed.

Lemma read_write h r o : read (write h r o) r = o.
Proof. unfold read, write. simpl. by rewrite lookup_insert_eq. Qed.

(** A call leaves every object alone but the one its headers are in. *)
Lemma fetch_frame h input options random c h' r :
  fetch h input options random = (c, h') -> r <> n_headers (fst (normalize h input options)) ->
  objs h' !! r = objs h !! r.
Proof.
  unfold fetch. destruct (normalize h input options) as [n h1] eqn:Hn. simpl.
  assert (forall r, r <> n_headers n -> objs h1 !! r = objs h !! r) as Hnorm.
  { intros r' Hr'. unfold normalize in Hn. destruct input as [rq|s|s]; simpl in Hn.
    - unfold headers_object in Hn. destruct (default _ _); injection Hn as <- <-; [done|].
      simpl in *. by rewrite lookup_insert_ne.
    - unfold missing_headers, headers_object in Hn.
      destruct (o_headers _) as [[]|]; injection Hn as <- <-; simpl in *; try done; by rewrite lookup_insert_ne.
    - unfold missing_headers, headers_object in Hn.
      destruct (o_headers _) as [[]|]; injection Hn as <- <-; simpl in *; try done; by rewrite lookup_insert_ne. }
  unfold __encodeFetchBody. destruct (encoded (n_body n) random) as [bytes ty].
  intros Hc Hr. rewrite <-(Hnorm r Hr). destruct ty as [ty|]; [destruct (_ && _)|]; injection Hc as _ <-; [|done|done].
  simpl. by rewrite lookup_insert_ne.
Qed.

(** The entries a server reads from a request: by the boundary its content type names. *)
Definition server_form (headers : Obj) (body : option Str) : option (list (Str * Seen)) :=
  ty ← field headers Content_Type; boundary ← strip multipart ty; body ← body; read_form boundary body.

(** C34: A form that a guest posts arrives: when the headers it passes name no content type,
    the request carries one with the boundary of its own body, and a server that reads the
    body by it gets the entries in order, each text and each file with its name, type and
    bytes, as long as the names hold no quote and no line break and the contents not the
    boundary. *)
Theorem posted_forms_arrive h input options random entries url method headers body h' :
  fetch h input options random = (Streaming url method headers body, h') ->
  n_body (fst (normalize h input options)) = Some (BForm entries) ->
  (let (n, h1) := normalize h input options in
   falsy (read h1 (n_headers n)) Content_Type && falsy (read h1 (n_headers n)) content_type = true) ->
  CR ∉ random -> Forall (writable (boundary_prefix ++ random)) entries ->
  server_form headers body = Some (seen <$> entries).
Proof.
  unfold fetch. destruct (normalize h input options) as [n h1]. cbn [fst]. intros Hf Hb Hct Hr Hw.
  unfold __encodeFetchBody in Hf. rewrite Hb in Hf. unfold encoded in Hf.
  destruct (__serializeFormData entries random) as [bytes boundary] eqn:Hs. rewrite Hct, read_write in Hf.
  case_match; [done|].
  assert (headers = set_key (read h1 (n_headers n)) Content_Type (multipart ++ boundary) /\ body = Some bytes)
    as [-> ->] by (split; congruence).
  unfold server_form. rewrite (proj2 (list_find_set_key _ _ _)). cbn [mbind option_bind]. rewrite strip_app. cbn [mbind option_bind].
  pose proof (forms_are_read_back entries random Hr Hw) as Hrb.
  assert (boundary = boundary_prefix ++ random) as -> by (unfold __serializeFormData in Hs; by injection Hs as _ <-).
  by rewrite Hs in Hrb.
Qed.

(** A text and a file, posted with an empty plain object for headers. *)
Definition demo_entries : list Entry :=
  [([97], Text [104; 105]); ([102], File (mkBlob [1; 13; 10; 45; 45] [] None) (Some [120]))].
Definition demo_heap : Heap := mkHeap {[0%nat := []]} 1.
Definition demo_options (entries : list Entry) : option Options :=
  Some (mkOptions (Some [80; 79; 83; 84]) (Some (PlainRef 0)) (Some (Some (BForm entries)))).

Definition demo_call : Call * Heap := fetch demo_heap (IUrl [117]) (demo_options demo_entries) [107].

Lemma posted_forms_arrive_witness :
  exists url method headers body h', demo_call = (Streaming url method headers body, h') /\
    server_form headers body = Some (seen <$> demo_entries).
Proof.
  destruct demo_call as [[|url method headers body] h'] eqn:E; [discriminate E|].
  exists url, method, headers, body, h'. split; [reflexivity|].
  apply (posted_forms_arrive demo_heap (IUrl [117]) (demo_options demo_entries) [107] demo_entries url method headers body h' E);
    [reflexivity|reflexivity|apply (bool_decide_unpack _); reflexivity|].
  repeat constructor; simpl; try reflexivity; apply (bool_decide_unpack _); reflexivity.
Defined.

(** The same headers object again: the first call left its content type in it, and the
    second form cannot be read by the boundary of the first. *)
Example reused_headers_keep_the_boundary :
  match fetch (snd demo_call) (IUrl [117]) (demo_options demo_entries) [108] with
  | (Streaming _ _ headers body, _) => server_form headers body
  | _ => Some []
  end = None.
Proof. by vm_compute. Qed.

(** A file name with a quote and line breaks writes headers and an entry of its own. *)
Definition injected : Str :=
  [120; 34; 13; 10; 67; 111; 110; 116; 101; 110; 116; 45; 84; 121; 112; 101; 58; 32; 97; 13; 10; 13; 10; 104; 13; 10] ++
  dashes ++ (boundary_prefix ++ [107]) ++ CRLF ++ disposition ++ [122; 34; 13; 10; 13; 10; 50].

Example names_are_not_escaped :
  let (bytes, boundary) := __serializeFormData [([97], File (mkBlob [] [] None) (Some injected))] [107] in
  length <$> read_form boundary bytes = Some 2%nat.
Proof. by vm_compute. Qed.

End FetchApi.
