(* ===== verification/GuestSockets.v ===== *)
(** * The WebSocket class of the guest (src/src/runtime/bindings/websocket.rs)

    The JavaScript class that [setup_websocket] installs: its constructor with the
    validation of its URL, its ready states, [send], [close] and the events it
    dispatches; and a client socket as a whole, with the channel of its commands, the
    task of WebSockets.v and the callbacks that come back. A message that goes out is named
    by a string, whatever its type; what a handler of the guest does are the operations that
    follow the event. *)

From stdpp Require Import base list gmap strings.
From Stdlib Require Import ZArith Lia.
From S2P Require Import Prelude Scheduler WebSockets WebApi.

Local Open Scope Z_scope.

Module GuestSockets.
Import Scheduler WebSockets.

(** ** The constructor *)

Inductive Thrown := TypeError | SyntaxError | InvalidStateError | InvalidAccessError.

Definition HTTP : WebApi.Str := [104; 116; 116; 112; 58].
Definition HTTPS : WebApi.Str := [104; 116; 116; 112; 115; 58].
Definition WS : WebApi.Str := [119; 115; 58].
Definition WSS : WebApi.Str := [119; 115; 115; 58].
Definition SLASHES : WebApi.Str := [47; 47].

Section Construct.
Context {U : Type} `{WebApi.UrlCrate U}.

(** The target of [new WebSocket(url)]: [None] is a missing argument. *)
Definition target (url : option WebApi.Str) : result WebApi.Str Thrown :=
  match url with
  | None => Err TypeError
  | Some url =>
      match WebApi.url_parse url None with
      | None => Err SyntaxError
      | Some parsed =>
          if negb (WebApi.is_empty (WebApi.hash parsed)) then Err SyntaxError
          else if bool_decide (WebApi.protocol parsed = HTTP) then Ok (WS ++ SLASHES ++ drop 7 url)
          else if bool_decide (WebApi.protocol parsed = HTTPS) then Ok (WSS ++ SLASHES ++ drop 8 url)
          else if bool_decide (WebApi.protocol parsed = WS) || bool_decide (WebApi.protocol parsed = WSS) then Ok url
          else Err SyntaxError
      end
  end.

(** The scheme of a URL in its usual form is replaced, and the rest is kept. *)
Lemma target_normalizes rest parsed :
  let url := HTTPS ++ SLASHES ++ rest in
  WebApi.url_parse url None = Some parsed -> WebApi.protocol parsed = HTTPS -> WebApi.hash parsed = [] ->
  target (Some url) = Ok (WSS ++ SLASHES ++ rest).
Proof. simpl. intros -> -> ->. reflexivity. Qed.

End Construct.

(** The crate takes [http:example.com] for [http://example.com/]; the class then cuts
    seven characters and connects to [ws://ample.com]. *)
#[local] Instance lenient_crate : WebApi.UrlCrate unit := {|
  WebApi.parse _ := Some tt; WebApi.join _ _ := None; WebApi.as_str _ := []; WebApi.ascii_origin _ := [];
  WebApi.scheme _ := [104; 116; 116; 112]; WebApi.get_username _ := []; WebApi.get_password _ := None;
  WebApi.host_str _ := Some [101; 120; 97; 109; 112; 108; 101]; WebApi.get_port _ := None;
  WebApi.path _ := [47]; WebApi.query _ := None; WebApi.fragment _ := None;
  WebApi.cannot_be_a_base _ := false; WebApi.set_scheme _ _ := None; WebApi.set_username _ _ := None;
  WebApi.set_password _ _ := None; WebApi.set_host _ _ := None; WebApi.set_port _ _ := None;
  WebApi.set_path u _ := u; WebApi.set_query u _ := u; WebApi.set_fragment u _ := u
|}.

Example target_cuts_the_host :
  target (Some (HTTP ++ [101; 120; 97; 109; 112; 108; 101])) = Ok (WS ++ SLASHES ++ [97; 109; 112; 108; 101]).
Proof. reflexivity. Qed.

(** ** The object *)

Inductive ReadyState := CONNECTING | OPEN | CLOSING | CLOSED.

Inductive ev :=
| EvOpen
| EvMessage (data : string)
| EvBinary (data : list Z)
| EvError (message : string)
| EvClose (code : Z) (reason : string) (wasClean : bool).

(** [_wsId], [_accepted], [_closing], [readyState], and the events dispatched. *)
Record Js := mkJs {
  wsId : option WebSocketId;
  accepted : bool;
  closing : bool;
  readyState : ReadyState;
  events : list ev
}.

Definition constructed : Js := mkJs None false false CONNECTING [].

(** [__adopt]: a handle that is already open. *)
Definition adopt (ws : WebSocketId) : Js := mkJs (Some ws) false false OPEN [].

Definition dispatch (j : Js) (e : ev) : Js :=
  mkJs (wsId j) (accepted j) (closing j) (readyState j) (events j ++ [e]).

Definition ready (j : Js) (r : ReadyState) : Js := mkJs (wsId j) (accepted j) (closing j) r (events j).

(** What the object calls; a call that throws answers its exception. *)
Inductive native :=
| NAccept (ws : WebSocketId)
| NSend (ws : WebSocketId) (data : string)
| NClose (ws : WebSocketId) (code : Z) (reason : string).

(** [_startReceiving], and [accept]: the native refuses an id that is no number. *)
Definition startReceiving (j : Js) : Js * list native * result unit Thrown :=
  if accepted j then (j, [], Ok tt)
  else
    let j' := mkJs (wsId j) true (closing j) (readyState j) (events j) in
    match wsId j with
    | Some ws => (j', [NAccept ws], Ok tt)
    | None => (j', [], Err TypeError)
    end.

(** The callbacks of [__nativeWebSocketConnect]. *)
Definition on_connected (j : Js) (ws : WebSocketId) : Js * list native :=
  let j := mkJs (Some ws) (accepted j) (closing j) (readyState j) (events j) in
  if closing j then
    (dispatch (ready j CLOSED) (EvClose 1006 EmptyString false), [NClose ws 1000 EmptyString])
  else
    let '(j, ns, _) := startReceiving j in
    (dispatch (ready j OPEN) EvOpen, ns).

Definition on_failed (j : Js) (err : option string) : Js :=
  let message := default "connection failed"%string err in
  dispatch (dispatch (ready j CLOSED) (EvError message)) (EvClose 1006 message false).

(** The dispatcher of [_startReceiving]: an error leaves the ready state as it is. *)
Definition on_incoming (j : Js) (m : Incoming) : Js :=
  match m with
  | Text data => dispatch j (EvMessage data)
  | Binary data => dispatch j (EvBinary data)
  | Closed code reason => dispatch (ready j CLOSED) (EvClose code reason true)
  | Failed e => dispatch j (EvError e)
  end.

Definition send (j : Js) (data : string) : Js * list native * result unit Thrown :=
  match readyState j, wsId j with
  | CONNECTING, _ => (j, [], Err InvalidStateError)
  | OPEN, Some ws => (j, [NSend ws data], Ok tt)
  | OPEN, None => (j, [], Err TypeError)
  | _, _ => (j, [], Ok tt)
  end.

(** The first argument of [close]: a number, or a value of another type, with the number
    it compares as. *)
Inductive Code := CUndefined | CNumber (n : Z) | CNaN | COther (n : option Z).

Definition in_range (n : Z) : bool := (3000 <=? n) && (n <=? 4999).

(** [code !== undefined && code !== 1000 && (code < 3000 || code > 4999)] *)
Definition code_refused (c : Code) : bool :=
  match c with
  | CUndefined | CNaN | COther None => false
  | CNumber n => negb (n =? 1000) && negb (in_range n)
  | COther (Some n) => negb (in_range n)
  end.

(** The code the native takes, [as u16]; [None] where it throws. *)
Definition native_code (c : Code) : option Z :=
  match c with CUndefined => Some 1000 | CNumber n => Some n | CNaN => Some 0 | COther _ => None end.

Definition close (j : Js) (code : Code) (reason : option string) : Js * list native * result unit Thrown :=
  if code_refused code then (j, [], Err InvalidAccessError)
  else if match reason with Some r => (123 <? String.length r)%nat | None => false end then (j, [], Err SyntaxError)
  else match readyState j with
       | CLOSING | CLOSED => (j, [], Ok tt)
       | CONNECTING => (mkJs (wsId j) (accepted j) true CLOSING (events j), [], Ok tt)
       | OPEN =>
           match wsId j, native_code code with
           | Some ws, Some c => (ready j CLOSING, [NClose ws c (default EmptyString reason)], Ok tt)
           | _, _ => (ready j CLOSING, [], Err TypeError)
           end
       end.

(** The listeners of an event type: [on] of the object first, then the list in order. *)
Record Listeners := mkListeners { on_handler : option Z; listeners : list Z }.

Definition addEventListener (l : Listeners) (f : Z) : Listeners := mkListeners (on_handler l) (listeners l ++ [f]).
Definition removeEventListener (l : Listeners) (f : Z) : Listeners :=
  mkListeners (on_handler l) (filter (fun x => x <> f) (listeners l)).
Definition called (l : Listeners) : list Z := option_list (on_handler l) ++ listeners l.

(** ** A client socket as a whole *)

(** The object, its commands that wait and whether its channel is in the table, its task
    with the inputs it had, whether its connect was answered, how many of the task's
    events were dispatched, and whether the dispatcher is registered; [said] is what the
    guest sent. *)
Record World := mkWorld {
  js : Js;
  cmds : list WebSocketCommand;
  chan : bool;
  task : Task;
  inputs : list input;
  answered : bool;
  ev_seen : nat;
  registered : bool;
  said : list string
}.

Definition initial : World := mkWorld constructed [] true client [] false 0 false [].

Section Client.
Context (ws : WebSocketId).

Definition with_js (w : World) (j : Js) : World :=
  mkWorld j (cmds w) (chan w) (task w) (inputs w) (answered w) (ev_seen w) (registered w) (said w).

Definition push (w : World) (c : WebSocketCommand) : World :=
  if chan w
  then mkWorld (js w) (cmds w ++ [c]) true (task w) (inputs w) (answered w) (ev_seen w) (registered w)
         (match c with Send m => said w ++ [m] | _ => said w end)
  else w.

(** A native call, with the message it sends and what the loop of Scheduler.v does with
    it: a close takes the channel out of the table. *)
Definition call (w : World) (n : native) : World :=
  match n with
  | NAccept _ =>
      let w := push w Accept in
      mkWorld (js w) (cmds w) (chan w) (task w) (inputs w) (answered w) (ev_seen w) true (said w)
  | NSend _ m => push w (Send m)
  | NClose _ code reason =>
      let w := push w (Close code reason) in
      mkWorld (js w) (cmds w) false (task w) (inputs w) (answered w) (ev_seen w) (registered w) (said w)
  end.

Definition calls (w : World) (ns : list native) : World := foldl call w ns.

(** The guest sends or closes; the task gets an input of its own, or its next command;
    the answer to the connect or the next event is dispatched. All of it in one request:
    the next one cancels the task and clears the callbacks. *)
Inductive label :=
| LSend (data : string)
| LClose (code : Code) (reason : option string)
| LTask (i : input)
| LCommand
| LAnswer
| LEvent.

Definition input_task (w : World) (i : input) (rest : list WebSocketCommand) : option World :=
  t ← step (task w) i;
  Some (mkWorld (js w) rest (chan w) t (inputs w ++ [i]) (answered w) (ev_seen w) (registered w) (said w)).

Definition exec (w : World) (l : label) : option World :=
  match l with
  | LSend data => let '(j, ns, _) := send (js w) data in Some (calls (with_js w j) ns)
  | LClose code reason => let '(j, ns, _) := close (js w) code reason in Some (calls (with_js w j) ns)
  | LTask (Command _) => None
  | LTask i => input_task w i (cmds w)
  | LCommand =>
      match cmds w with
      | c :: rest => input_task w (Command (Some c)) rest
      | [] => if chan w then None else input_task w (Command None) []
      end
  | LAnswer =>
      match answered w, connected (task w) with
      | false, r :: _ =>
          let w := mkWorld (js w) (cmds w) (chan w) (task w) (inputs w) true (ev_seen w) (registered w) (said w) in
          match r with
          | Ok _ => let '(j, ns) := on_connected (js w) ws in Some (calls (with_js w j) ns)
          | Err e => Some (with_js w (on_failed (js w) (Some e)))
          end
      | _, _ => None
      end
  | LEvent =>
      if answered w then
        m ← to_guest (task w) !! ev_seen w;
        Some (mkWorld (if registered w then on_incoming (js w) m else js w) (cmds w) (chan w) (task w)
                (inputs w) true (S (ev_seen w)) (registered w) (said w))
      else None
  end.

Definition run : World -> list label -> option World := run_steps exec.

(** ** The invariant *)

Definition conv (m : Incoming) : ev :=
  match m with
  | Text data => EvMessage data
  | Binary data => EvBinary data
  | Closed code reason => EvClose code reason true
  | Failed e => EvError e
  end.

Definition queued (cs : list WebSocketCommand) : list string :=
  omap (fun c => match c with Send m => Some m | _ => None end) cs.

(** What comes from the peer before its close: its messages, and the errors of the
    connection. *)
Definition from_peer (i : input) : list Incoming :=
  match i with Peer (Some m) => if is_closed m then [] else [m] | _ => [] end.
Definition peer_said (xs : list input) : list Incoming := xs ≫= from_peer.

Definition told (l : list Incoming) : list Incoming := filter (fun m => is_closed m = false) l.

Definition is_close (e : ev) : bool := match e with EvClose _ _ _ => true | _ => false end.

(** The socket opened and the events of its task are dispatched. *)
Definition opened (w : World) : Prop :=
  registered w = true /\ wsId (js w) = Some ws /\ readyState (js w) <> CONNECTING /\
  events (js w) = EvOpen :: (conv <$> take (ev_seen w) (to_guest (task w))) /\
  (readyState (js w) = CLOSED <-> existsb is_closed (take (ev_seen w) (to_guest (task w))) = true).

Definition over (w : World) (es : list ev) : Prop :=
  registered w = false /\ readyState (js w) = CLOSED /\ events (js w) = es.

Definition shape (w : World) : Prop :=
  if answered w then
    opened w \/ over w [EvClose 1006 EmptyString false] \/ exists e, over w [EvError e; EvClose 1006 e false]
  else
    js w = mkJs None false (match readyState (js w) with CLOSING => true | _ => false end) (readyState (js w)) [] /\
    (readyState (js w) = CONNECTING \/ readyState (js w) = CLOSING) /\
    registered w = false /\ ev_seen w = 0%nat /\ cmds w = [].

Record Inv (w : World) : Prop := {
  i_run : WebSockets.run client (inputs w) = Some (task w);
  i_seen : (ev_seen w <= length (to_guest (task w)))%nat;
  i_said : said w = sends (inputs w) ++ queued (cmds w);
  i_shape : shape w
}.

Lemma run_snoc xs t i t' t0 :
  WebSockets.run t0 xs = Some t -> step t i = Some t' -> WebSockets.run t0 (xs ++ [i]) = Some t'.
Proof.
  revert t0. induction xs as [|x xs IH]; simpl; intros t0; [intros [= ->] ->; done|].
  destruct (step t0 x); simpl; [|done]. apply IH.
Qed.

(** The events of a task only grow. *)
Lemma socket_step_grows t i t' : step t i = Some t' -> exists new, to_guest t' = to_guest t ++ new.
Proof.
  destruct t as [ph peer guest con]. unfold step. simpl. destruct ph as [|up acc early|e acc|]; [..|done].
  - destruct i as [|[]|r|c|m]; intros H; simplify_eq/=; exists []; by rewrite app_nil_r.
  - destruct i as [|r|r|[[| |m|code reason]|]|m]; intros H; simplify_eq/=;
      try (by eexists); try (exists []; by rewrite app_nil_r).
    destruct up; [|done]. destruct r; simplify_eq/=; [exists []; by rewrite app_nil_r|by eexists].
  - destruct i as [|r|r|[[| |m|code reason]|]|m]; intros H; simplify_eq/=;
      try (by eexists); try (exists []; by rewrite app_nil_r).
    + destruct e; simplify_eq/=; by eexists.
    + destruct acc; [|done]. destruct m as [[]|]; simplify_eq/=; by eexists.
Qed.

Lemma step_told t i t' :
  step t i = Some t' -> told (to_guest t') = told (to_guest t) ++ from_peer i.
Proof.
  destruct t as [ph peer guest con]. unfold step, told. simpl. destruct ph as [|up acc early|e acc|]; [..|done].
  - destruct i as [|[]|r|c|m]; intros H; simplify_eq/=; by rewrite app_nil_r.
  - destruct i as [|r|r|[[| |m|code reason]|]|m]; intros H; simplify_eq/=;
      rewrite ?filter_app, ?app_nil_r; try done.
    destruct up; [|done]. destruct r; simplify_eq/=; rewrite ?filter_app; simpl; by rewrite ?app_nil_r.
  - destruct i as [|r|r|[[| |m|code reason]|]|m]; intros H; simplify_eq/=;
      rewrite ?filter_app, ?app_nil_r; try done.
    + destruct e; simplify_eq/=; rewrite ?filter_app; simpl; by rewrite ?app_nil_r.
    + destruct acc; [|done]. destruct m as [[]|]; simplify_eq/=; rewrite ?filter_app; simpl; by rewrite ?app_nil_r.
Qed.

Lemma run_told xs : forall t t', WebSockets.run t xs = Some t' -> told (to_guest t') = told (to_guest t) ++ peer_said xs.
Proof.
  induction xs as [|i xs IH]; simpl; intros t t'; [intros [= <-]; by rewrite app_nil_r|].
  destruct (step t i) as [t1|] eqn:E; simpl; [|done]. intros H. by rewrite (IH t1 t' H), (step_told t i t1 E), <-app_assoc.
Qed.

Lemma queued_snoc cs c : queued (cs ++ [c]) = queued cs ++ match c with Send m => [m] | _ => [] end.
Proof. unfold queued. rewrite omap_app. f_equal. by destruct c. Qed.

(** A command keeps what was said in order. *)
Lemma push_keeps w c :
  Inv w -> answered w = true -> Inv (push w c).
Proof.
  intros H Ha. unfold push. destruct (chan w); [|done]. constructor; simpl; try apply H.
  - rewrite queued_snoc, (i_said _ H), app_assoc. destruct c; by rewrite ?app_nil_r.
  - pose proof (i_shape _ H) as Hs. unfold shape in *. simpl. by rewrite Ha in *.
Qed.

Lemma inv_input w i rest w' :
  Inv w -> input_task w i rest = Some w' ->
  match i with Command (Some c) => cmds w = c :: rest | Command None => rest = [] /\ cmds w = [] | _ => rest = cmds w end ->
  Inv w'.
Proof.
  intros H. unfold input_task. destruct (step (task w) i) as [t|] eqn:E; simpl; [|done]. intros [= <-] Hi.
  destruct (socket_step_grows _ _ _ E) as (new & Hnew). pose proof (i_seen _ H) as Hle.
  constructor; simpl.
  - eapply run_snoc; [apply H|done].
  - rewrite Hnew, length_app. lia.
  - rewrite (i_said _ H), sends_snoc, <-app_assoc. f_equal.
    destruct i as [| | |[c|]|]; [by rewrite Hi..| | |by rewrite Hi].
    + rewrite Hi. by destruct c.
    + destruct Hi as [-> ->]. done.
  - pose proof (i_shape _ H) as Hs. unfold shape, opened in *. simpl in *. rewrite Hnew, take_app_le by done.
    destruct (answered w) eqn:Ha; [exact Hs|].
    destruct Hs as (Hj & Hr & Hreg & Hev & Hc). split_and!; try done.
    destruct i as [| | |[c|]|]; try congruence. by destruct Hi.
Qed.

Lemma inv_calls_open w ns :
  Inv w -> answered w = true -> Forall (fun n => match n with NAccept _ => False | _ => True end) ns -> Inv (calls w ns).
Proof.
  revert w. induction ns as [|n ns IH]; intros w H Ha Hn; [done|]. inversion Hn; subst. simpl. apply IH; [| |done].
  - destruct n; [done|by apply push_keeps|]. simpl.
    pose proof (push_keeps w (Close code reason) H Ha) as Hp. destruct Hp as [? ? ? Hs]. constructor; simpl; try done.
  - destruct n; simpl; unfold push; by destruct (chan w).
Qed.

(** The state of an open socket that is not closed may go to closing. *)
Lemma inv_closing w :
  Inv w -> answered w = true -> readyState (js w) = OPEN -> Inv (with_js w (ready (js w) CLOSING)).
Proof.
  intros H Ha Hr. constructor; simpl; try apply H. pose proof (i_shape _ H) as Hs. unfold shape in *. simpl. rewrite Ha in *.
  unfold over in Hs. rewrite Hr in Hs. destruct Hs as [(? & ? & ? & ? & Hc)|[(_ & ? & _)|(e & _ & ? & _)]]; [|done..].
  left. unfold opened. simpl. split_and!; try done. rewrite <-Hc, Hr. done.
Qed.

Lemma inv_same w : Inv w -> Inv (with_js w (js w)).
Proof. by destruct w, 1. Qed.

Lemma socket_inv_close w j ns r code reason :
  Inv w -> close (js w) code reason = (j, ns, r) -> Inv (calls (with_js w j) ns).
Proof.
  intros H. pose proof (i_shape _ H) as Hs. unfold close.
  destruct (code_refused code); [intros [= <- <- <-]; by apply inv_same|].
  destruct (match reason with Some r => _ | None => false end); [intros [= <- <- <-]; by apply inv_same|].
  unfold shape in Hs. destruct (answered w) eqn:Ha.
  - destruct (readyState (js w)) eqn:Hr; [|destruct (wsId (js w)), (native_code code)|..]; intros [= <- <- <-];
      try (by apply inv_same); try (by apply inv_closing).
    + exfalso. unfold opened, over in Hs. rewrite Hr in Hs. naive_solver.
    + apply inv_calls_open; [by apply inv_closing|done|by repeat constructor].
  - destruct Hs as (Hj & [Hr|Hr] & Hreg & Hev & Hc); rewrite Hr; intros [= <- <- <-]; [|by apply inv_same].
    constructor; simpl; try apply H. unfold shape. simpl. rewrite Ha. rewrite Hj, Hr. simpl. split_and!; auto.
Qed.

Lemma inv_answer w r rest :
  Inv w -> answered w = false -> connected (task w) = r :: rest ->
  let w1 := mkWorld (js w) (cmds w) (chan w) (task w) (inputs w) true (ev_seen w) (registered w) (said w) in
  Inv (match r with
       | Ok _ => let '(j, ns) := on_connected (js w) ws in calls (with_js w1 j) ns
       | Err e => with_js w1 (on_failed (js w) (Some e))
       end).
Proof.
  intros H Ha Hc w1. pose proof (i_shape _ H) as Hs. unfold shape in Hs. rewrite Ha in Hs.
  destruct Hs as (Hj & Hr & Hreg & Hev & Hcm). pose proof (i_said _ H) as Hsaid.
  destruct r as [u|e].
  - unfold on_connected. rewrite Hj. simpl. destruct Hr as [Hr|Hr]; rewrite Hr; simpl.
    + unfold push. simpl. destruct (chan w); constructor; simpl; try apply H; try (by rewrite Hev);
        try (rewrite Hcm in *; done); unfold shape; simpl; left; unfold opened; simpl; rewrite Hev; by split_and!.
    + unfold push. simpl. destruct (chan w); constructor; simpl; try apply H;
        try (rewrite Hcm in *; done); unfold shape; simpl; right; left; by split_and!.
  - constructor; simpl; try apply H. unfold shape. simpl. right. right. exists e. rewrite Hj. by split_and!.
Qed.

Lemma inv_event w m :
  Inv w -> answered w = true -> to_guest (task w) !! ev_seen w = Some m ->
  Inv (mkWorld (if registered w then on_incoming (js w) m else js w) (cmds w) (chan w) (task w)
         (inputs w) true (S (ev_seen w)) (registered w) (said w)).
Proof.
  intros H Ha Hm. pose proof (lookup_lt_Some _ _ _ Hm) as Hlt.
  constructor; simpl; try apply H; [lia|]. pose proof (i_shape _ H) as Hs. unfold shape in *. simpl. rewrite Ha in Hs.
  destruct Hs as [(Hreg & Hid & Hnc & Hev & Hc)|[(Hreg & Hr & He)|(e & Hreg & Hr & He)]]; rewrite Hreg.
  - left. unfold opened. simpl. rewrite (take_S_r _ _ _ Hm), fmap_app, existsb_app. simpl. rewrite orb_false_r.
    destruct m as [d|d|code reason|e]; simpl; rewrite Hev; split_and!; try done; rewrite ?orb_false_r, ?orb_true_r; try done.
  - right. left. by split_and!.
  - right. right. exists e. by split_and!.
Qed.

Lemma socket_inv_exec w l w' : Inv w -> exec w l = Some w' -> Inv w'.
Proof.
  intros H. pose proof (i_shape _ H) as Hs. destruct l as [data|code reason|i| | |]; simpl.
  - unfold send. destruct (readyState (js w)) eqn:Hr; [|destruct (wsId (js w)) eqn:Hid|..]; intros [= <-]; try (by apply inv_same).
    destruct (answered w) eqn:Ha; [by apply push_keeps; [apply inv_same|]|].
    unfold shape in Hs. rewrite Ha, Hr in Hs. destruct Hs as (_ & [?|?] & _); done.
  - destruct (close (js w) code reason) as [[j ns] r] eqn:E. intros [= <-]. by eapply socket_inv_close.
  - destruct i; try done; intros E; by eapply inv_input.
  - destruct (cmds w) as [|c rest] eqn:Hc; [destruct (chan w); [done|]|]; intros E; by eapply inv_input.
  - destruct (answered w) eqn:Ha; [done|]. destruct (connected (task w)) as [|r rest] eqn:Hc; [done|].
    intros E. pose proof (inv_answer w r rest H Ha Hc) as Hi. simpl in Hi.
    destruct r; [destruct (on_connected (js w) ws)|]; by simplify_eq.
  - destruct (answered w) eqn:Ha; [|done]. destruct (to_guest (task w) !! ev_seen w) as [m|] eqn:Hm; simpl; [|done].
    intros [= <-]. by apply inv_event.
Qed.

Lemma socket_inv_reached ls w : run initial ls = Some w -> Inv w.
Proof.
  assert (Inv initial) as H0 by (constructor; simpl; try done; unfold shape; simpl; by split_and!; auto).
  revert H0. unfold run. generalize initial. induction ls as [|l ls IH]; simpl; intros w0 H0; [by intros [= <-]|].
  destruct (exec w0 l) as [w1|] eqn:E; simpl; [|done]. apply IH. by eapply socket_inv_exec.
Qed.

(** ** Properties *)

Lemma take_told (l closing : list Incoming) n :
  last_event closing -> (n <= length (l ++ closing))%nat ->
  exists ms c, take n (l ++ closing) = ms ++ c /\ ms `prefix_of` l /\ last_event c.
Proof.
  intros Hl Hn. destruct (decide (n <= length l)%nat) as [Hle|Hgt].
  - exists (take n l), []. rewrite take_app_le, app_nil_r by done. split_and!; [done|apply prefix_take|by left].
  - exists l, closing. rewrite take_ge; [done|]. rewrite length_app in *.
    destruct Hl as [->|(? & ? & ->)]; simpl in *; lia.
Qed.

(** C33: What a client socket tells the guest is a story with one end: nothing yet; a
    failure, as an error and a close; the close of a socket that was closed while it
    connected; or an open, then the messages of the peer and the errors of the connection
    in the order they came and without a gap, then at most one close. It is closed exactly
    when it has told so, whatever errors it told before. The peer gets a prefix of what
    the guest sent while the socket was open, then at most one close frame. *)
Theorem client_socket_story ls w :
  run initial ls = Some w ->
  ((events (js w) = [] \/ events (js w) = [EvClose 1006 EmptyString false] \/
    exists e, events (js w) = [EvError e; EvClose 1006 e false]) \/
   exists ms c, events (js w) = EvOpen :: (conv <$> ms) ++ c /\ ms `prefix_of` peer_said (inputs w) /\
     (c = [] \/ exists code reason, c = [EvClose code reason true])) /\
  (readyState (js w) = CLOSED <-> existsb is_close (events (js w)) = true) /\
  exists msgs frame, to_peer (task w) = (Msg <$> msgs) ++ frame /\ last_frame frame /\ msgs `prefix_of` said w.
Proof.
  intros Hr. pose proof (socket_inv_reached ls w Hr) as H. pose proof (i_run _ H) as Ht.
  destruct (run_good (inputs w) [] client (task w) (start_good _ (or_introl eq_refl)) Ht)
    as (msgs & frame & l & closing & [Hp Hg Htl Hf Hc _ Hpre _ _]). simpl in Hpre.
  assert (l = peer_said (inputs w)) as Htx.
  { pose proof (run_told _ _ _ Ht) as E. rewrite Hg in E. simpl in E. rewrite <-E. unfold told. rewrite filter_app.
    replace (filter _ closing) with (@nil Incoming) by (by destruct Hc as [->|(? & ? & ->)]).
    rewrite app_nil_r. clear -Htl. induction Htl as [|m l Hm _ IH]; [done|]. rewrite filter_cons_True by done. by f_equal. }
  assert (forall l, existsb is_close (conv <$> l) = existsb is_closed l) as Hex.
  { clear. induction l as [|m l IH]; simpl; [done|]. by destruct m; rewrite <-IH. }
  split_and!.
  - pose proof (i_shape _ H) as Hs. unfold shape in Hs. destruct (answered w).
    + destruct Hs as [(_ & _ & _ & He & _)|[(_ & _ & He)|(e & _ & _ & He)]]; [|left; auto|left; right; right; eauto].
      right. pose proof (i_seen _ H) as Hn. rewrite Hg in He, Hn.
      destruct (take_told l closing (ev_seen w) Hc Hn) as (ms & c & E & Hms & Hl).
      exists ms, (conv <$> c). rewrite He, E, fmap_app, <-Htx. split_and!; [done|done|].
      destruct Hl as [->|(code & reason & ->)]; [by left|right; by eexists _, _].
    + destruct Hs as (-> & _). left. by left.
  - pose proof (i_shape _ H) as Hs. unfold shape in Hs. destruct (answered w).
    + destruct Hs as [(_ & _ & _ & -> & ->)|[(_ & -> & ->)|(e & _ & -> & ->)]]; [|done..]. simpl. by rewrite Hex.
    + destruct Hs as (-> & [-> | ->] & _); done.
  - exists msgs, frame. split_and!; [done..|]. rewrite (i_said _ H). etransitivity; [exact Hpre|]. by apply prefix_app_r.
Qed.

End Client.
(** What [close] sends: a code the protocol allows to an application, and a reason that
    fits a control frame, as long as the code is a number. *)
Lemma close_sends_valid_codes j n reason j' ns r :
  close j (CNumber n) reason = (j', ns, r) ->
  Forall (fun x => match x with
                   | NClose _ c rs => (c = 1000 \/ 3000 <= c <= 4999) /\ (String.length rs <= 123)%nat
                   | _ => False end) ns.
Proof.
  unfold close, code_refused, in_range.
  destruct (Z.eqb_spec n 1000), (Z.leb_spec 3000 n), (Z.leb_spec n 4999); simpl; try (intros [= <- <- <-]; constructor).
  all: destruct reason as [rs|]; simpl; [destruct (Nat.ltb_spec 123 (String.length rs))|]; try (intros [= <- <- <-]; constructor).
  all: destruct (readyState j); try (intros [= <- <- <-]; constructor).
  all: destruct (wsId j); intros [= <- <- <-]; first [apply Forall_nil_2|apply Forall_singleton; simpl; lia].
Qed.

(** A code that is no number but compares as one passes the check, and the native throws
    after the object is set closing: it never closes. [NaN] closes with code 0. *)
Example close_with_a_string_code :
  close (mkJs (Some 5) true false OPEN [EvOpen]) (COther (Some 4000)) None =
  (mkJs (Some 5) true false CLOSING [EvOpen], [], Err TypeError).
Proof. reflexivity. Qed.

Example close_with_nan :
  snd (fst (close (mkJs (Some 5) true false OPEN []) CNaN None)) = [NClose 5 0 EmptyString].
Proof. reflexivity. Qed.

(** [accept] before the connection throws and marks the socket accepted: once it is open
    nothing registers the dispatcher. *)
Example accept_while_connecting :
  let '(j, _, r) := startReceiving constructed in
  r = Err TypeError /\ on_connected j 5 = (mkJs (Some 5) true false OPEN [EvOpen], []).
Proof. split; reflexivity. Qed.

Definition demo : list label :=
  [LTask (Connected (Ok tt)); LAnswer; LSend "hi"; LCommand; LCommand; LTask (Peer (Some (Text "a")));
   LTask (Peer (Some (Failed "reset"))); LTask (Peer (Some (Binary [7]))); LEvent; LEvent; LClose (CNumber 3001) (Some "bye"%string); LSend "late"; LCommand; LEvent; LEvent].

Lemma client_socket_story_witness :
  exists w, run 5 initial demo = Some w /\
    events (js w) = [EvOpen; EvMessage "a"; EvError "reset"; EvBinary [7]; EvClose 3001 "bye" true] /\
    (readyState (js w) = CLOSED <-> existsb is_close (events (js w)) = true) /\
    exists msgs frame, to_peer (task w) = (Msg <$> msgs) ++ frame /\ last_frame frame /\ msgs `prefix_of` said w.
Proof.
  eexists. split; [vm_compute; reflexivity|]. split; [vm_compute; reflexivity|].
  apply (client_socket_story 5 demo). vm_compute. reflexivity.
Defined.

End GuestSockets.
