(* ===== verification/Setup.v ===== *)
(** * The global object of a context (src/src/runtime/bindings/, crypto/, snapshot.rs)

    What [ExecutionContext::new_with_pooled_isolate] puts in the global scope before guest
    code runs: the natives, the frozen namespace through which the shared surface reaches
    the host, the states of the natives, and the scripts of the bindings with the names
    they declare. A context starts from V8's globals, or from the runtime snapshot.

    Objects have own data properties with their attributes, as ECMAScript's ordinary
    objects do; prototypes and accessors are left out, since no name of the host is one.
    What a function does is in the other files: here it is a name. *)

From stdpp Require Import base list gmap sets strings.
From S2P Require Import Prelude.

Local Open Scope string_scope.
Local Open Scope list_scope.

Module Setup.

(** ** Objects *)

Inductive Value := Undefined | Native (f : string) | Js (f : string) | Data | Ref (o : nat).

#[export] Instance Value_eq_dec : EqDecision Value.
Proof. solve_decision. Defined.

Record Property := mkProp { value : Value; writable : bool; enumerable : bool; configurable : bool }.

#[export] Instance Property_eq_dec : EqDecision Property.
Proof. solve_decision. Defined.

Record Object := mkObject { props : gmap string Property; extensible : bool }.

(** The objects, with the global object at 0; the names scripts declare with [const],
    [let] and [class]; the types in the [ContextSlots] of the context, if attached. *)
Record Realm := mkRealm {
  objects : gmap nat Object;
  next : nat;
  lexical : gmap string Value;
  slots : option (gset string)
}.

Definition global : nat := 0.

Definition own (r : Realm) (o : nat) (k : string) : option Property := ob ← objects r !! o; props ob !! k.
Definition get (r : Realm) (o : nat) (k : string) : Value := from_option value Undefined (own r o k).

Definition put (r : Realm) (o : nat) (ob : Object) : Realm :=
  mkRealm (<[o := ob]> (objects r)) (next r) (lexical r) (slots r).

(** An assignment, in sloppy mode or through the API: a refusal changes nothing. *)
Definition set (r : Realm) (o : nat) (k : string) (v : Value) : Realm :=
  match objects r !! o with
  | None => r
  | Some ob =>
      match props ob !! k with
      | Some p =>
          if writable p
          then put r o (mkObject (<[k := mkProp v true (enumerable p) (configurable p)]> (props ob)) (extensible ob))
          else r
      | None =>
          if extensible ob then put r o (mkObject (<[k := mkProp v true true true]> (props ob)) true) else r
      end
  end.

(** ValidateAndApplyPropertyDescriptor, for a full data descriptor. *)
Definition compatible (old new : Property) : bool :=
  configurable old ||
  (negb (configurable new) && eqb (enumerable old) (enumerable new) &&
   (writable old || (negb (writable new) && bool_decide (value old = value new)))).

Definition define_own_property (r : Realm) (o : nat) (k : string) (p : Property) : Realm :=
  match objects r !! o with
  | None => r
  | Some ob =>
      let allowed := match props ob !! k with Some old => compatible old p | None => extensible ob end in
      if allowed then put r o (mkObject (<[k := p]> (props ob)) (extensible ob)) else r
  end.

Definition delete_property (r : Realm) (o : nat) (k : string) : Realm :=
  match objects r !! o with
  | None => r
  | Some ob =>
      match props ob !! k with
      | Some p => if configurable p then put r o (mkObject (delete k (props ob)) (extensible ob)) else r
      | None => r
      end
  end.

Definition frozen (p : Property) : Property := mkProp (value p) false (enumerable p) false.

Definition freeze (r : Realm) (o : nat) : Realm :=
  match objects r !! o with None => r | Some ob => put r o (mkObject (frozen <$> props ob) false) end.

Definition new_object (r : Realm) : nat * Realm :=
  (next r, mkRealm (<[next r := mkObject ∅ true]> (objects r)) (S (next r)) (lexical r) (slots r)).

(** ** Scripts *)

(** A script: the names it declares at its top level, with [const], [let] or [class] and
    as functions, and what its statements do to the global scope and to [crypto.subtle]. *)
Inductive Stmt :=
| Assign (k : string) (v : Value)             (* globalThis.k = v *)
| AssignSubtle (k : string) (v : Value)       (* crypto.subtle.k = v *)
| Bind (x : string) (v : Value)               (* const x = v *)
| BindSubtle (x k : string)                   (* const x = crypto.subtle.k *)
| Remove (k : string).                        (* delete globalThis.k *)

Record Script := mkScript { lex : list string; functions : list string; body : list Stmt }.

Definition restricted (r : Realm) (x : string) : bool :=
  match own r global x with Some p => negb (configurable p) | None => false end.

Definition declared (r : Realm) (x : string) : bool := bool_decide (is_Some (lexical r !! x)).

Definition can_declare_function (r : Realm) (f : string) : bool :=
  match own r global f with
  | Some p => configurable p || (writable p && enumerable p)
  | None => match objects r !! global with Some ob => extensible ob | None => false end
  end.

Definition declare_function (r : Realm) (f : string) : Realm :=
  match own r global f with
  | Some p =>
      if configurable p then define_own_property r global f (mkProp (Js f) true true false)
      else define_own_property r global f (mkProp (Js f) (writable p) (enumerable p) false)
  | None => define_own_property r global f (mkProp (Js f) true true false)
  end.

(** GlobalDeclarationInstantiation; [None] is a SyntaxError or a TypeError, before
    anything of the script runs. *)
Definition declare (r : Realm) (s : Script) : option Realm :=
  if forallb (fun x => negb (declared r x) && negb (restricted r x)) (lex s) &&
     forallb (fun f => negb (declared r f) && can_declare_function r f) (functions s)
  then
    let r := foldl declare_function r (functions s) in
    Some (mkRealm (objects r) (next r) (foldl (fun m x => <[x := Undefined]> m) (lexical r) (lex s)) (slots r))
  else None.

Definition subtle (r : Realm) : option nat :=
  match get r global "crypto" with
  | Ref c => match get r c "subtle" with Ref u => Some u | _ => None end
  | _ => None
  end.

Definition bind (r : Realm) (x : string) (v : Value) : Realm :=
  mkRealm (objects r) (next r) (<[x := v]> (lexical r)) (slots r).

Definition run_stmt (r : Realm) (c : Stmt) : option Realm :=
  match c with
  | Assign k v => Some (set r global k v)
  | AssignSubtle k v => u ← subtle r; Some (set r u k v)
  | Bind x v => Some (bind r x v)
  | BindSubtle x k => u ← subtle r; Some (bind r x (get r u k))
  | Remove k => Some (delete_property r global k)
  end.

Fixpoint run_body (r : Realm) (l : list Stmt) : option Realm :=
  match l with [] => Some r | c :: l => r ← run_stmt r c; run_body r l end.

Definition run_script (r : Realm) (s : Script) : option Realm := r ← declare r s; run_body r (body s).

(** The same where nobody looks at the result: up to the statement that throws. *)
Fixpoint run_until_throw (r : Realm) (l : list Stmt) : Realm :=
  match l with
  | [] => r
  | c :: l => match run_stmt r c with None => r | Some r => run_until_throw r l end
  end.

(** [exec_js!] *)
Definition exec_js (r : Realm) (s : Script) : Realm :=
  match declare r s with None => r | Some r => run_until_throw r (body s) end.

(** ** Natives *)

(** [openworkers_wintertc::NATIVE_NAMESPACE], the name the timers read too. *)
Definition NATIVE_NAMESPACE : string := "__ow".

(** [namespace] *)
Definition namespace (r : Realm) : nat * Realm :=
  match get r global NATIVE_NAMESPACE with
  | Ref o => (o, r)
  | _ => let (o, r) := new_object r in
         (o, define_own_property r global NATIVE_NAMESPACE (mkProp (Ref o) false false false))
  end.

Definition register_op (r : Realm) (name : string) (v : Value) : Realm :=
  let (o, r) := namespace r in set r o name v.

Definition seal (r : Realm) : Realm := let (o, r) := namespace r in freeze r o.

(** [register_fn!] *)
Definition register_fn (r : Realm) (name : string) : Realm := set r global name (Native name).

(** [store_state!] and [context_slots::set]: without slots nothing is stored. *)
Definition store_state (r : Realm) (ty : string) : Realm :=
  mkRealm (objects r) (next r) (lexical r) ((fun s => {[ty]} ∪ s) <$> slots r).

(** [context_slots::attach], of empty slots *)
Definition attach (r : Realm) : Realm := mkRealm (objects r) (next r) (lexical r) (Some ∅).

(** ** The setup of each binding

    A step panics where the code unwraps the result of a script; [exec_js!] drops it. *)
Inductive Step :=
| Store (ty : string)
| Fn (name : string)
| Op (name : string) (v : Value)
| ExecJs (s : Script)
| RunJs (s : Script)
| NewCrypto                       (* the objects crypto and crypto.subtle *)
| CryptoFn (name : string)        (* crypto_obj.set *)
| SubtleFn (name : string)        (* subtle_obj.set *)
| Seal.

Definition crypto_object (r : Realm) : option nat :=
  match get r global "crypto" with Ref c => Some c | _ => None end.

Definition exec_step (r : Realm) (st : Step) : option Realm :=
  match st with
  | Store ty => Some (store_state r ty)
  | Fn name => Some (register_fn r name)
  | Op name v => Some (register_op r name v)
  | ExecJs s => Some (exec_js r s)
  | RunJs s => run_script r s
  | NewCrypto =>
      let (c, r) := new_object r in
      let r := set r global "crypto" (Ref c) in
      let (u, r) := new_object r in
      Some (set r c "subtle" (Ref u))
  | CryptoFn name => c ← crypto_object r; Some (set r c name (Native name))
  | SubtleFn name => u ← subtle r; Some (set r u name (Native name))
  | Seal => Some (seal r)
  end.

Fixpoint exec_steps (r : Realm) (l : list Step) : option Realm :=
  match l with [] => Some r | st :: l => r ← exec_step r st; exec_steps r l end.

Definition assigns (l : list string) : list Stmt := (fun k => Assign k (Js k)) <$> l.
Definition script (lex functions assigned : list string) : Script := mkScript lex functions (assigns assigned).

Definition setup_global_aliases : list Step :=
  [RunJs (mkScript [] [] [Assign "self" (Ref global); Assign "global" (Ref global)])].

Definition setup_console : list Step :=
  [Store "ConsoleState"; Fn "__console_log"; ExecJs (script [] ["__formatArg"] ["console"])].

Definition setup_performance : list Step :=
  [Store "PerformanceState"; Op "performanceNow" (Native "performanceNow"); Op "timeOrigin" Data].

Definition setup_timers : list Step :=
  [Store "TimerState"; Fn "__nativeScheduleTimeout"; Fn "__nativeScheduleInterval"; Fn "__nativeClearTimer";
   Fn "__nativeScheduleWritable";
   ExecJs (script [] ["__coerceDelay"; "__inSettingFrame"]
             ["__timerCallbacks"; "__nextTimerId"; "__intervalIds"; "setTimeout"; "setInterval"; "clearTimeout";
              "clearInterval"; "queueMicrotask"; "__executeTimer"])].

Definition setup_fetch_helpers : list Step :=
  [RunJs (script [] [] ["__bufferBody"; "__bindingCall"; "__normalizeFetchInput"])].

(** [invoke] is the feature. *)
Definition setup_fetch (invoke : bool) : list Step :=
  [Store "FetchState"; Fn "__nativeFetchStreaming"; Fn "__nativeBindingFetch"; Fn "__nativeBindingStorage";
   Fn "__nativeBindingKv"; Fn "__nativeBindingDatabase"; Fn "__nativeBindingD1"] ++
  (if invoke then [Fn "__nativeBindingInvoke"] else []) ++
  [Fn "__nativeBindingWorker"; Fn "__nativeBindingDurableObject";
   ExecJs (script [] ["__serializeFormData"] ["__encodeFetchBody"; "fetch"])].

Definition setup_stream_ops : list Step :=
  [Store "StreamState"; Fn "__nativeStreamRead"; Fn "__nativeStreamCancel";
   ExecJs (script [] [] ["__createNativeStream"; "__responseFromMeta"])].

Definition setup_response_stream_ops : list Step :=
  [Store "ResponseStreamState"; Fn "__responseStreamCreate"; Fn "__responseStreamWrite"; Fn "__responseStreamEnd";
   Fn "__responseStreamError"; Fn "__responseStreamIsClosed"].

Definition websocket_script : Script :=
  mkScript ["WS_CONNECTING"; "WS_OPEN"; "WS_CLOSING"; "WS_CLOSED"; "WebSocket"] []
    [Bind "WS_CONNECTING" Data; Bind "WS_OPEN" Data; Bind "WS_CLOSING" Data; Bind "WS_CLOSED" Data;
     Bind "WebSocket" (Js "WebSocket"); Assign "WebSocket" (Js "WebSocket");
     Assign "WebSocketPair" (Js "WebSocketPair")].

Definition setup_websocket : list Step :=
  [Store "WebSocketEventState"; Fn "__nativeWebSocketConnect"; Fn "__nativeWebSocketPair";
   Fn "__nativeWebSocketAccept"; Fn "__nativeWebSocketSend"; Fn "__nativeWebSocketClose"; ExecJs websocket_script].

Definition setup_object_sockets : list Step :=
  [Fn "__nativeObjectSocketId"; Fn "__nativeObjectSocketAccept"; Fn "__nativeObjectSocketSend";
   Fn "__nativeObjectSocketClose"; Fn "__nativeObjectSocketAttachment"; Fn "__nativeObjectSockets"].

Definition setup_durable_object_ids : list Step :=
  [Store "Ids"; Fn "__nativeDurableObjectId"; Fn "__nativeObjectStorage"] ++ setup_object_sockets ++
  [ExecJs (script [] [] ["DurableObject"])].

Definition setup_crypto_classes : list Step :=
  [RunJs (script [] [] ["Crypto"; "SubtleCrypto"; "CryptoKey"; "__createCryptoKey"])].

Definition setup_get_random_values : list Step := [CryptoFn "getRandomValues"].
Definition setup_random_uuid : list Step := [CryptoFn "randomUUID"].

Definition setup_digest : list Step :=
  [SubtleFn "__nativeDigest"; RunJs (mkScript [] [] [AssignSubtle "digest" (Js "digest")])].

Definition setup_hmac : list Step :=
  [SubtleFn "__nativeHmacSign"; SubtleFn "__nativeHmacVerify";
   RunJs (mkScript ["__cryptoKeys"; "__nextKeyId"] []
            [Bind "__cryptoKeys" Data; Bind "__nextKeyId" Data; AssignSubtle "importKey" (Js "hmac importKey");
             AssignSubtle "sign" (Js "hmac sign"); AssignSubtle "verify" (Js "hmac verify")])].

Definition setup_ecdsa : list Step :=
  [SubtleFn "__nativeEcdsaGenerateKey"; SubtleFn "__nativeEcdsaSign"; SubtleFn "__nativeEcdsaVerify";
   RunJs (mkScript ["__originalImportKey"; "__originalSign"; "__originalVerify"] []
            [AssignSubtle "generateKey" (Js "ecdsa generateKey");
             BindSubtle "__originalImportKey" "importKey"; AssignSubtle "importKey" (Js "ecdsa importKey");
             BindSubtle "__originalSign" "sign"; AssignSubtle "sign" (Js "ecdsa sign");
             BindSubtle "__originalVerify" "verify"; AssignSubtle "verify" (Js "ecdsa verify")])].

Definition setup_rsa : list Step :=
  [SubtleFn "__nativeRsaSign"; SubtleFn "__nativeRsaVerify";
   RunJs (mkScript ["__ecdsaImportKey"; "__ecdsaSign"; "__ecdsaVerify"] []
            [BindSubtle "__ecdsaImportKey" "importKey"; BindSubtle "__ecdsaSign" "sign";
             BindSubtle "__ecdsaVerify" "verify"; AssignSubtle "importKey" (Js "rsa importKey");
             AssignSubtle "sign" (Js "rsa sign"); AssignSubtle "verify" (Js "rsa verify")])].

Definition setup_pbkdf2 : list Step :=
  [SubtleFn "__nativePbkdf2DeriveBits";
   RunJs (mkScript ["__rsaImportKey"] []
            [BindSubtle "__rsaImportKey" "importKey"; AssignSubtle "importKey" (Js "pbkdf2 importKey");
             AssignSubtle "deriveBits" (Js "deriveBits")])].

Definition setup_aes : list Step :=
  [SubtleFn "__nativeAesGcmSeal"; SubtleFn "__nativeAesGcmOpen";
   RunJs (mkScript ["__aesBytes"; "__aesGcmArgs"; "__generateKeyFallback"; "__importKeyFallback"] []
            [Bind "__aesBytes" (Js "__aesBytes"); Bind "__aesGcmArgs" (Js "__aesGcmArgs");
             BindSubtle "__generateKeyFallback" "generateKey"; AssignSubtle "generateKey" (Js "aes generateKey");
             BindSubtle "__importKeyFallback" "importKey"; AssignSubtle "importKey" (Js "aes importKey");
             AssignSubtle "exportKey" (Js "exportKey"); AssignSubtle "encrypt" (Js "encrypt");
             AssignSubtle "decrypt" (Js "decrypt")])].

Definition setup_crypto : list Step :=
  [NewCrypto] ++ setup_crypto_classes ++ setup_get_random_values ++ setup_random_uuid ++ setup_digest ++
  setup_hmac ++ setup_ecdsa ++ setup_rsa ++ setup_pbkdf2 ++ setup_aes.

Definition ops_of (l : list string) : list Step := (fun k => Op k (Native k)) <$> l.

Definition setup_text_encoding_natives : list Step := ops_of ["textEncode"; "textDecode"].
Definition setup_url_natives : list Step := ops_of ["urlParse"; "urlUpdate"].
Definition setup_url_pattern_natives : list Step := ops_of ["urlPatternParse"; "urlPatternProcessInput"].
Definition setup_compression_natives : list Step :=
  ops_of ["compressionStart"; "compressionPush"; "compressionFinish"; "compressionDrop"].
Definition setup_navigator_natives : list Step := [Op "userAgent" Data].
Definition setup_async_context_natives : list Step := ops_of ["asyncContextGet"; "asyncContextSet"].

Definition setup_security_restrictions : list Step :=
  [RunJs (mkScript [] [] [Remove "SharedArrayBuffer"; Remove "Atomics"])].

(** ** A context *)

Section Context_.

(** V8's global object, and the shared surface, [openworkers_wintertc::SURFACE] joined in
    one script. *)
Context (builtins : gmap string Property) (surface : Script).

Definition setup_surface : list Step := [RunJs surface].

Definition fresh : Realm := mkRealm {[global := mkObject builtins true]} 1 ∅ None.

(** The steps up to the frozen namespace *)
Definition host_steps (invoke : bool) : list Step :=
  setup_global_aliases ++ setup_console ++ setup_performance ++ setup_timers ++ setup_fetch_helpers ++
  setup_fetch invoke ++ setup_stream_ops ++ setup_response_stream_ops ++ setup_websocket ++
  setup_durable_object_ids ++ setup_crypto ++ setup_text_encoding_natives ++ setup_url_natives ++
  setup_url_pattern_natives ++ setup_compression_natives ++ setup_navigator_natives ++
  setup_async_context_natives ++ [Seal].

(** [create_runtime_snapshot]: the context of the snapshot. *)
Definition create_runtime_snapshot : option Realm :=
  exec_steps fresh (setup_global_aliases ++ setup_surface ++ setup_fetch_helpers).

(** [new_with_pooled_isolate], the context it makes: from the snapshot, or from V8's
    globals with the surface evaluated after the host's natives. *)
Definition new_context (use_snapshot invoke : bool) : option Realm :=
  start ← (if use_snapshot then create_runtime_snapshot else Some fresh);
  exec_steps (attach start)
    (host_steps invoke ++ (if use_snapshot then [] else setup_surface) ++ setup_security_restrictions).

(** [get_snapshot]: what reading the file of the snapshot gives; an empty or unreadable
    file is no snapshot. *)
Definition get_snapshot (read : result (list nat) string) : option (list nat) :=
  match read with Ok [] => None | Ok bytes => Some bytes | Err _ => None end.

(** [LockerManagedIsolate::new] notes whether its isolate started from a snapshot
    ([new_isolate]), and its contexts go by that. *)
Definition open_context (read : result (list nat) string) (invoke : bool) : option Realm :=
  new_context (bool_decide (is_Some (get_snapshot read))) invoke.

(** ** What the guest can do to it *)

Inductive Action :=
| ASet (o : nat) (k : string) (v : Value)
| ADefine (o : nat) (k : string) (p : Property)
| ADelete (o : nat) (k : string)
| AFreeze (o : nat)
| ANew
| ARun (s : Script).

Definition act (r : Realm) (a : Action) : Realm :=
  match a with
  | ASet o k v => set r o k v
  | ADefine o k p => define_own_property r o k p
  | ADelete o k => delete_property r o k
  | AFreeze o => freeze r o
  | ANew => snd (new_object r)
  | ARun s => exec_js r s
  end.

(** The ops, in the order they are registered. *)
Definition ops : list (string * Value) :=
  [("performanceNow", Native "performanceNow"); ("timeOrigin", Data); ("textEncode", Native "textEncode");
   ("textDecode", Native "textDecode"); ("urlParse", Native "urlParse"); ("urlUpdate", Native "urlUpdate");
   ("urlPatternParse", Native "urlPatternParse"); ("urlPatternProcessInput", Native "urlPatternProcessInput");
   ("compressionStart", Native "compressionStart"); ("compressionPush", Native "compressionPush");
   ("compressionFinish", Native "compressionFinish"); ("compressionDrop", Native "compressionDrop");
   ("userAgent", Data); ("asyncContextGet", Native "asyncContextGet"); ("asyncContextSet", Native "asyncContextSet")].

(** What the shared surface reads when it calls an op. *)
Definition read_op (r : Realm) (name : string) : Value :=
  match get r global NATIVE_NAMESPACE with Ref o => get r o name | _ => Undefined end.

(** Names the host's scripts declare. *)
Definition host_lexical : list string :=
  ["WS_CONNECTING"; "WS_OPEN"; "WS_CLOSING"; "WS_CLOSED"; "WebSocket"; "__cryptoKeys"; "__nextKeyId";
   "__originalImportKey"; "__originalSign"; "__originalVerify"; "__ecdsaImportKey"; "__ecdsaSign"; "__ecdsaVerify";
   "__rsaImportKey"; "__aesBytes"; "__aesGcmArgs"; "__generateKeyFallback"; "__importKeyFallback"].
Definition host_functions : list string :=
  ["__formatArg"; "__coerceDelay"; "__inSettingFrame"; "__serializeFormData"].

(** The types whose value each native looks up in the slots. *)
Definition state_types : list string :=
  ["ConsoleState"; "PerformanceState"; "TimerState"; "FetchState"; "StreamState"; "ResponseStreamState";
   "WebSocketEventState"; "Ids"].

(** ** Properties *)

(** A change of one object. *)
Record touches (r r' : Realm) (o : nat) : Prop := {
  t_lex : lexical r' = lexical r;
  t_slots : slots r' = slots r;
  t_next : next r' = next r;
  t_dom : forall x, is_Some (objects r' !! x) <-> is_Some (objects r !! x);
  t_other : forall x, x <> o -> objects r' !! x = objects r !! x
}.

Lemma touches_refl r o : touches r r o.
Proof. by split. Qed.

Lemma touches_put r o ob ob' : objects r !! o = Some ob -> touches r (put r o ob') o.
Proof.
  intros Ho. split; try done; simpl.
  - intros x. destruct (decide (x = o)) as [->|Hn]; [rewrite lookup_insert_eq, Ho; by split; eauto|].
    by rewrite lookup_insert_ne.
  - intros x Hn. by rewrite lookup_insert_ne.
Qed.

Ltac touching :=
  repeat case_match; try apply touches_refl; by eapply touches_put.

Lemma set_touches r o k v : touches r (set r o k v) o.
Proof. unfold set. touching. Qed.
Lemma define_touches r o k p : touches r (define_own_property r o k p) o.
Proof. unfold define_own_property. touching. Qed.
Lemma delete_touches r o k : touches r (delete_property r o k) o.
Proof. unfold delete_property. touching. Qed.
Lemma freeze_touches r o : touches r (freeze r o) o.
Proof. unfold freeze. touching. Qed.
Hint Resolve set_touches define_touches delete_touches freeze_touches : realm.

Lemma own_put r o ob x k : own (put r o ob) x k = if decide (x = o) then props ob !! k else own r x k.
Proof.
  unfold own, put. simpl. destruct (decide (x = o)) as [->|Hn]; [by rewrite lookup_insert_eq|].
  by rewrite lookup_insert_ne.
Qed.

Lemma touches_own r r' o x k : touches r r' o -> x <> o -> own r' x k = own r x k.
Proof. intros Ht Hn. unfold own. by rewrite (t_other _ _ _ Ht). Qed.

(** [set] changes no other property, and no attribute. *)
Lemma own_set_ne r o k v x k' : (x, k') <> (o, k) -> own (set r o k v) x k' = own r x k'.
Proof.
  intros Hn. unfold set. repeat case_match; try done; rewrite own_put; simpl;
    (destruct (decide (x = o)) as [->|]; [|done]); rewrite lookup_insert_ne by congruence;
    unfold own; rewrite H; done.
Qed.

Lemma own_set r o k v ob :
  objects r !! o = Some ob ->
  own (set r o k v) o k =
    match props ob !! k with
    | Some p => Some (if writable p then mkProp v true (enumerable p) (configurable p) else p)
    | None => if extensible ob then Some (mkProp v true true true) else None
    end.
Proof.
  intros Ho. unfold set. rewrite Ho. destruct (props ob !! k) as [p|] eqn:Hp.
  - destruct (writable p); [rewrite own_put, decide_True by done; apply lookup_insert_eq|]. unfold own. by rewrite Ho.
  - destruct (extensible ob); [rewrite own_put, decide_True by done; apply lookup_insert_eq|]. unfold own. by rewrite Ho.
Qed.

Lemma own_delete_ne r o k x k' : (x, k') <> (o, k) -> own (delete_property r o k) x k' = own r x k'.
Proof.
  intros Hn. unfold delete_property. repeat case_match; try done; rewrite own_put; simpl.
  destruct (decide (x = o)) as [->|]; [|done]. rewrite lookup_delete_ne by congruence. unfold own. by rewrite H.
Qed.

Lemma own_define_ne r o k p x k' : (x, k') <> (o, k) -> own (define_own_property r o k p) x k' = own r x k'.
Proof.
  intros Hn. unfold define_own_property. repeat case_match; try done; rewrite own_put; simpl;
    (destruct (decide (x = o)) as [->|]; [|done]); rewrite lookup_insert_ne by congruence;
    unfold own; rewrite H; done.
Qed.

Lemma restricted_set r o k v x : restricted (set r o k v) x = restricted r x.
Proof.
  unfold restricted. destruct (decide ((global, x) = (o, k))) as [Heq|Hn]; [|by rewrite own_set_ne].
  injection Heq as <- <-. destruct (objects r !! global) as [ob|] eqn:Ho.
  - rewrite (own_set _ _ _ _ _ Ho). unfold own. rewrite Ho. simpl.
    destruct (props ob !! x) as [p|]; [by destruct (writable p)|]. by destruct (extensible ob).
  - unfold set. by rewrite Ho.
Qed.

Lemma restricted_delete r o k x : restricted (delete_property r o k) x = restricted r x.
Proof.
  unfold restricted. destruct (decide ((global, x) = (o, k))) as [Heq|Hn]; [|by rewrite own_delete_ne].
  injection Heq as <- <-. unfold delete_property. destruct (objects r !! global) as [ob|] eqn:Ho; [|done].
  destruct (props ob !! x) as [p|] eqn:Hp; [|done]. destruct (configurable p) eqn:Hc; [|done].
  rewrite own_put, decide_True by done. simpl. rewrite lookup_delete_eq. unfold own. rewrite Ho. simpl. rewrite Hp.
  by rewrite Hc.
Qed.

Lemma extensible_touched r r' ob :
  touches r r' global -> objects r !! global = Some ob -> extensible ob = true ->
  (forall ob', objects r' !! global = Some ob' -> extensible ob' = extensible ob) ->
  exists ob', objects r' !! global = Some ob' /\ extensible ob' = true.
Proof.
  intros Ht Ho He Hx. destruct (proj2 (t_dom _ _ _ Ht global) (ex_intro _ ob Ho)) as [ob' Ho'].
  exists ob'. split; [done|]. by rewrite (Hx _ Ho').
Qed.

Lemma extensible_set r o k v x ob ob' :
  objects r !! x = Some ob -> objects (set r o k v) !! x = Some ob' -> extensible ob' = extensible ob.
Proof.
  intros Ho Ho'. destruct (decide (x = o)) as [->|Hn].
  - revert Ho'. unfold set. rewrite Ho. repeat case_match; simpl; rewrite ?lookup_insert_eq, ?Ho; naive_solver.
  - rewrite (t_other _ _ _ (set_touches r o k v)) in Ho' by done. naive_solver.
Qed.

(** What the steps so far declared, their ops, whether the namespace is frozen, whether
    [crypto] is there, and the states in the slots, if attached. *)
Inductive Namespace := Absent | Present (l : list (string * Value)).

Record Summary := mkSum {
  s_lex : list string;
  s_fun : list string;
  s_ops : Namespace;
  s_sealed : bool;
  s_crypto : bool;
  s_states : option (list string)
}.

Definition ops_map (l : list (string * Value)) (sealed : bool) : gmap string Property :=
  list_to_map ((fun '(k, v) => (k, mkProp v (negb sealed) true (negb sealed))) <$> l).

(** The realm after the steps of the summary, over a start that declared [bL] and has the
    fixed properties [bF]. *)
Record inv (bL bF : gset string) (S : Summary) (r : Realm) : Prop := {
  v_global : exists ob, objects r !! global = Some ob /\ extensible ob = true;
  v_next : forall o, is_Some (objects r !! o) -> o < next r;
  v_lex : forall x, is_Some (lexical r !! x) <-> x ∈ bL \/ x ∈ s_lex S;
  v_fix : forall x, restricted r x = true <->
            x ∈ bF \/ x ∈ s_fun S \/ (s_ops S <> Absent /\ x = NATIVE_NAMESPACE);
  v_writable : forall p, own r global "crypto" = Some p -> writable p = true;
  v_ns : match s_ops S with
         | Absent => own r global NATIVE_NAMESPACE = None
         | Present l => exists n, own r global NATIVE_NAMESPACE = Some (mkProp (Ref n) false false false) /\ n <> global /\
                  objects r !! n = Some (mkObject (ops_map l (s_sealed S)) (negb (s_sealed S)))
         end;
  v_crypto : s_crypto S = true -> exists c u,
       get r global "crypto" = Ref c /\ get r c "subtle" = Ref u /\
       is_Some (objects r !! c) /\ is_Some (objects r !! u) /\ c <> global /\ u <> global /\ c <> u /\
       forall n, get r global NATIVE_NAMESPACE = Ref n -> n <> c /\ n <> u;
  v_slots : slots r = (fun l => list_to_set l) <$> s_states S
}.

Lemma get_own r o k v : get r o k = v -> v <> Undefined -> exists p, own r o k = Some p /\ value p = v.
Proof. unfold get. destruct (own r o k) as [p|]; simpl; naive_solver. Qed.

Lemma get_set_ne r o k v x k' : (x, k') <> (o, k) -> get (set r o k v) x k' = get r x k'.
Proof. intros. unfold get. by rewrite own_set_ne. Qed.

(** An assignment elsewhere than to the namespace and the two names. *)
Lemma inv_set bL bF S r o k v :
  inv bL bF S r ->
  (o = global -> k <> NATIVE_NAMESPACE /\ k <> "crypto") ->
  (forall n, get r global NATIVE_NAMESPACE = Ref n -> o <> n) ->
  (s_crypto S = true -> k <> "subtle" \/ forall c, get r global "crypto" = Ref c -> o <> c) ->
  inv bL bF S (set r o k v).
Proof.
  intros [(ob & Hg & He) Hnext Hlex Hfix Hw Hns Hcr Hsl] Ho Hn Hc.
  pose proof (set_touches r o k v) as Ht.
  assert (own (set r o k v) global NATIVE_NAMESPACE = own r global NATIVE_NAMESPACE) as Hns'.
  { apply own_set_ne. intros Heq. injection Heq as <- <-. naive_solver. }
  assert (own (set r o k v) global "crypto" = own r global "crypto") as Hcr'.
  { apply own_set_ne. intros Heq. injection Heq as <- <-. naive_solver. }
  split.
  - destruct (proj2 (t_dom _ _ _ Ht global) (ex_intro _ ob Hg)) as [ob' Ho'].
    exists ob'. split; [done|]. by rewrite (extensible_set _ _ _ _ _ _ _ Hg Ho').
  - intros x. rewrite (t_dom _ _ _ Ht), (t_next _ _ _ Ht). apply Hnext.
  - by rewrite (t_lex _ _ _ Ht).
  - intros x. by rewrite restricted_set.
  - by rewrite Hcr'.
  - rewrite Hns'. destruct (s_ops S) as [|l]; [done|]. destruct Hns as (n & Hp & Hne & Hob).
    exists n. split_and!; [done..|]. rewrite (t_other _ _ _ Ht); [done|].
    apply not_eq_sym, Hn. unfold get. by rewrite Hp.
  - intros Hs. destruct (Hcr Hs) as (c & u & H1 & H2 & H3 & H4 & H5 & H6 & H7 & H8). exists c, u.
    split_and!; [unfold get; by rewrite Hcr'| |by apply (t_dom _ _ _ Ht)..|done|done|done|unfold get; by rewrite Hns'].
    rewrite get_set_ne; [done|]. intros Heq. injection Heq as <- <-. destruct (Hc Hs) as [|Hc']; [done|].
    by apply (Hc' c).
  - by rewrite (t_slots _ _ _ Ht).
Qed.

Lemma inv_set_global bL bF S r k v :
  inv bL bF S r -> k <> NATIVE_NAMESPACE -> k <> "crypto" -> inv bL bF S (set r global k v).
Proof.
  intros Hi H1 H2. apply inv_set; [done|done| |].
  - intros n Hget Heq. subst n. apply get_own in Hget as (p & Hp & Hv); [|done]. pose proof (v_ns _ _ _ _ Hi) as Hns.
    destruct (s_ops S); [congruence|]. destruct Hns as (n' & Hp' & Hne & _). rewrite Hp' in Hp. injection Hp as <-. simpl in Hv. congruence.
  - intros Hs. right. intros c Hc. destruct (v_crypto _ _ _ _ Hi Hs) as (c' & u & ? & ? & ? & ? & ? & _). congruence.
Qed.

Lemma inv_subtle bL bF S r :
  inv bL bF S r -> s_crypto S = true ->
  exists u, subtle r = Some u /\ forall k v, inv bL bF S (set r u k v).
Proof.
  intros Hi Hs. destruct (v_crypto _ _ _ _ Hi Hs) as (c & u & H1 & H2 & H3 & H4 & H5 & H6 & H7 & H8).
  exists u. split; [unfold subtle; by rewrite H1, H2|]. intros k v. apply inv_set; [done| | |].
  - by intros ->.
  - intros n Hn ->. naive_solver.
  - intros _. right. intros c' Hc' ->. congruence.
Qed.

Lemma inv_crypto_fn bL bF S r name :
  inv bL bF S r -> s_crypto S = true -> name <> "subtle" ->
  exists c, crypto_object r = Some c /\ inv bL bF S (set r c name (Native name)).
Proof.
  intros Hi Hs Hn. destruct (v_crypto _ _ _ _ Hi Hs) as (c & u & H1 & H2 & H3 & H4 & H5 & H6 & H7 & H8).
  exists c. split; [unfold crypto_object; by rewrite H1|]. apply inv_set; [done|by intros -> | |by left].
  intros n Hget ->. naive_solver.
Qed.

Lemma inv_delete bL bF S r k :
  inv bL bF S r -> k <> NATIVE_NAMESPACE -> k <> "crypto" -> inv bL bF S (delete_property r global k).
Proof.
  intros Hi H1 H2. pose proof (delete_touches r global k) as Ht.
  assert (forall k', k' <> k -> own (delete_property r global k) global k' = own r global k') as Hown
    by (intros; apply own_delete_ne; congruence).
  destruct Hi as [(ob & Hg & He) Hnext Hlex Hfix Hw Hns Hcr Hsl]. split.
  - unfold delete_property. rewrite Hg. repeat case_match; simpl; rewrite ?lookup_insert_eq; eexists; by split.
  - intros x. rewrite (t_dom _ _ _ Ht), (t_next _ _ _ Ht). apply Hnext.
  - by rewrite (t_lex _ _ _ Ht).
  - intros x. by rewrite restricted_delete.
  - by rewrite Hown.
  - rewrite Hown by done. destruct (s_ops S); [done|]. destruct Hns as (n & Hp & Hne & Hob).
    exists n. by rewrite (t_other _ _ _ Ht).
  - intros Hs. destruct (Hcr Hs) as (c & u & H3 & H4 & H5 & H6 & H7 & H8 & H9 & H10). exists c, u. unfold get in *.
    rewrite !Hown by done. rewrite (touches_own _ _ _ c _ Ht) by done.
    split_and!; try done; by apply (t_dom _ _ _ Ht).
  - by rewrite (t_slots _ _ _ Ht).
Qed.

(** ** Declarations *)

Lemma define_fresh r f p ob :
  objects r !! global = Some ob -> extensible ob = true -> restricted r f = false ->
  define_own_property r global f p = put r global (mkObject (<[f := p]> (props ob)) true).
Proof.
  intros Ho He Hr. unfold define_own_property. rewrite Ho. unfold restricted, own in Hr. rewrite Ho in Hr. simpl in Hr.
  destruct (props ob !! f) as [old|]; [|by rewrite He].
  apply negb_false_iff in Hr. unfold compatible. rewrite Hr. simpl. by rewrite He.
Qed.

Lemma inv_define bL bF S r f p :
  inv bL bF S r -> restricted r f = false -> f <> NATIVE_NAMESPACE -> f <> "crypto" -> configurable p = false ->
  inv bL ({[f]} ∪ bF) S (define_own_property r global f p).
Proof.
  intros Hi Hr H1 H2 Hp. pose proof (define_touches r global f p) as Ht.
  assert (forall k', k' <> f -> own (define_own_property r global f p) global k' = own r global k') as Hown
    by (intros; apply own_define_ne; congruence).
  destruct Hi as [(ob & Hg & He) Hnext Hlex Hfix Hw Hns Hcr Hsl].
  pose proof (define_fresh r f p ob Hg He Hr) as Hd. split.
  - rewrite Hd. simpl. rewrite lookup_insert_eq. by eexists.
  - intros x. rewrite (t_dom _ _ _ Ht), (t_next _ _ _ Ht). apply Hnext.
  - by rewrite (t_lex _ _ _ Ht).
  - intros x. destruct (decide (x = f)) as [->|Hn].
    + split; [set_solver|]. intros _. unfold restricted. rewrite Hd, own_put, decide_True by done. simpl.
      rewrite lookup_insert_eq. by rewrite Hp.
    + unfold restricted at 1. rewrite Hown by done. fold (restricted r x). rewrite Hfix. set_solver.
  - by rewrite Hown.
  - rewrite Hown by done. destruct (s_ops S); [done|]. destruct Hns as (n & Hp' & Hne & Hob).
    exists n. by rewrite (t_other _ _ _ Ht).
  - intros Hs. destruct (Hcr Hs) as (c & u & H3 & H4 & H5 & H6 & H7 & H8 & H9 & H10). exists c, u. unfold get in *.
    rewrite !Hown by done. rewrite (touches_own _ _ _ c _ Ht) by done.
    split_and!; try done; by apply (t_dom _ _ _ Ht).
  - by rewrite (t_slots _ _ _ Ht).
Qed.

Lemma declare_function_define r f :
  restricted r f = false ->
  declare_function r f = define_own_property r global f (mkProp (Js f) true true false).
Proof.
  unfold restricted, declare_function. destruct (own r global f) as [p|]; [|done].
  intros Hr. apply negb_false_iff in Hr. by rewrite Hr.
Qed.

Lemma inv_declare_functions fs : forall bL bF S r,
  inv bL bF S r -> NoDup fs ->
  Forall (fun f => restricted r f = false /\ f <> NATIVE_NAMESPACE /\ f <> "crypto") fs ->
  inv bL (list_to_set fs ∪ bF) S (foldl declare_function r fs).
Proof.
  induction fs as [|f fs IH]; intros bL bF S r Hi Hnd Hall; simpl.
  - by rewrite (left_id_L ∅ (∪)).
  - apply NoDup_cons in Hnd as [Hf Hnd]. apply Forall_cons in Hall as [(Hr & H1 & H2) Hall].
    rewrite declare_function_define by done.
    replace ({[f]} ∪ list_to_set fs ∪ bF) with (list_to_set fs ∪ ({[f]} ∪ bF) : gset string) by set_solver.
    apply IH; [by apply inv_define|done|]. apply Forall_forall. intros g Hg.
    destruct (proj1 (Forall_forall _ _) Hall g Hg) as (Hrg & H3 & H4). split_and!; [|done..].
    unfold restricted. by rewrite own_define_ne by (intros Heq; injection Heq as <-; done).
Qed.

Lemma foldl_lexical_lookup (l : list string) (m : gmap string Value) x :
  is_Some (foldl (fun m x => <[x := Undefined]> m) m l !! x) <-> is_Some (m !! x) \/ x ∈ l.
Proof.
  revert m. induction l as [|y l IH]; intros m; simpl; [set_solver|]. rewrite IH, elem_of_cons.
  destruct (decide (x = y)) as [->|Hn]; [rewrite lookup_insert_eq|rewrite lookup_insert_ne by done].
  - split; [|intros; left; by eexists]. by intros [_|]; auto.
  - naive_solver.
Qed.

Lemma inv_relex bL bF S r m (bL' : gset string) :
  inv bL bF S r -> (forall x, is_Some (m !! x) <-> x ∈ bL' \/ x ∈ s_lex S) ->
  inv bL' bF S (mkRealm (objects r) (next r) m (slots r)).
Proof. intros [] Hm. by split. Qed.

(** Names that are neither declared nor fixed can be declared. *)
Lemma inv_declare bL bF S r s :
  inv bL bF S r -> NoDup (functions s) ->
  Forall (fun x => declared r x = false /\ restricted r x = false) (lex s ++ functions s) ->
  Forall (fun f => f <> NATIVE_NAMESPACE /\ f <> "crypto") (functions s) ->
  exists r', declare r s = Some r' /\
    inv (bL ∪ list_to_set (lex s)) (list_to_set (functions s) ∪ bF) S r'.
Proof.
  intros Hi Hnd Hall Hnames. apply Forall_app in Hall as [Hl Hf]. unfold declare.
  rewrite !(proj2 (forallb_forall _ _)); simpl.
  - eexists. split; [done|].
    assert (inv bL (list_to_set (functions s) ∪ bF) S (foldl declare_function r (functions s))) as Hd.
    { apply inv_declare_functions; [done..|]. apply Forall_forall. intros f Hin.
      pose proof (proj1 (Forall_forall _ _) Hf f Hin). pose proof (proj1 (Forall_forall _ _) Hnames f Hin). naive_solver. }
    eapply inv_relex; [done|]. intros x. rewrite foldl_lexical_lookup, (v_lex _ _ _ _ Hd).
    rewrite elem_of_union, elem_of_list_to_set. naive_solver.
  - intros f Hin. apply list_elem_of_In in Hin. destruct (proj1 (Forall_forall _ _) Hf f Hin) as [-> Hr].
    unfold can_declare_function. unfold restricted in Hr. destruct (v_global _ _ _ _ Hi) as (ob & -> & ->).
    destruct (own r global f) as [p|]; [|done]. apply negb_false_iff in Hr. by rewrite Hr.
  - intros x Hin. apply list_elem_of_In in Hin. by destruct (proj1 (Forall_forall _ _) Hl x Hin) as [-> ->].
Qed.

(** ** Bodies *)

(** Statements that keep the namespace and [crypto], and bind what is declared. *)
Definition stmt_fits (declared : list string) (crypto : bool) (c : Stmt) : bool :=
  match c with
  | Assign k _ | Remove k => bool_decide (k <> NATIVE_NAMESPACE) && bool_decide (k <> "crypto")
  | AssignSubtle _ _ => crypto
  | Bind x _ => bool_decide (x ∈ declared)
  | BindSubtle x _ => bool_decide (x ∈ declared) && crypto
  end.

Lemma inv_bind bL bF S r x v : inv bL bF S r -> is_Some (lexical r !! x) -> inv bL bF S (bind r x v).
Proof.
  intros Hi Hx. apply (inv_relex bL); [done|]. intros y. rewrite <-(v_lex _ _ _ _ Hi).
  destruct (decide (y = x)) as [->|Hn]; [rewrite lookup_insert_eq|by rewrite lookup_insert_ne].
  split; [done|by eexists].
Qed.

Lemma inv_body l : forall bL bF S r ds,
  inv bL bF S r -> (forall x, x ∈ ds -> is_Some (lexical r !! x)) ->
  forallb (stmt_fits ds (s_crypto S)) l = true ->
  exists r', run_body r l = Some r' /\ inv bL bF S r'.
Proof.
  induction l as [|c l IH]; intros bL bF S r ds Hi Hds Hfit; [by exists r|].
  simpl in Hfit. apply andb_true_iff in Hfit as [Hc Hl]. simpl.
  enough (exists r1, run_stmt r c = Some r1 /\ inv bL bF S r1 /\ (forall x, x ∈ ds -> is_Some (lexical r1 !! x)))
    as (r1 & -> & Hi1 & Hds1) by (simpl; by eapply IH).
  assert (forall x v, x ∈ ds -> inv bL bF S (bind r x v) /\ forall y, y ∈ ds -> is_Some (lexical (bind r x v) !! y)) as Hbind.
  { intros x v Hx. split; [apply inv_bind; auto|]. intros y Hy. simpl.
    destruct (decide (y = x)) as [->|]; [rewrite lookup_insert_eq; eauto|rewrite lookup_insert_ne; auto]. }
  destruct c; simpl in Hc |- *; rewrite ?andb_true_iff, ?bool_decide_eq_true in Hc.
  - eexists. split_and!; [done|by destruct Hc; apply inv_set_global|]. by rewrite (t_lex _ _ _ (set_touches r global k v)).
  - destruct (inv_subtle _ _ _ _ Hi Hc) as (u & -> & Hu). eexists. split_and!; [done|done|].
    by rewrite (t_lex _ _ _ (set_touches r u k v)).
  - eexists. split; [done|]. by apply Hbind.
  - destruct Hc as [Hx Hcr]. destruct (inv_subtle _ _ _ _ Hi Hcr) as (u & -> & Hu). eexists. split; [done|].
    by apply Hbind.
  - eexists. split_and!; [done|by destruct Hc; apply inv_delete|]. by rewrite (t_lex _ _ _ (delete_touches r global k)).
Qed.

(** ** Steps *)

Lemma inv_script bL bF S r s :
  inv bL bF S r -> NoDup (functions s) ->
  Forall (fun x => declared r x = false /\ restricted r x = false) (lex s ++ functions s) ->
  Forall (fun f => f <> NATIVE_NAMESPACE /\ f <> "crypto") (functions s) ->
  forallb (stmt_fits (lex s) (s_crypto S)) (body s) = true ->
  exists r', run_script r s = Some r' /\ inv (bL ∪ list_to_set (lex s)) (list_to_set (functions s) ∪ bF) S r'.
Proof.
  intros Hi Hnd Hall Hnames Hfit. unfold run_script.
  destruct (inv_declare _ _ _ _ _ Hi Hnd Hall Hnames) as (r1 & -> & Hi1). simpl. apply (inv_body _ _ _ _ _ (lex s)); [done| |done].
  intros x Hx. apply (v_lex _ _ _ _ Hi1). left. set_solver.
Qed.

Definition with_names (S : Summary) (ls fs : list string) : Summary :=
  mkSum (s_lex S ++ ls) (s_fun S ++ fs) (s_ops S) (s_sealed S) (s_crypto S) (s_states S).

Lemma inv_rebase bL bF S r ls fs :
  inv (bL ∪ list_to_set ls) (list_to_set fs ∪ bF) S r -> inv bL bF (with_names S ls fs) r.
Proof.
  intros [H1 H2 H3 H4 H5 H6 H7 H8]. split; simpl; try done.
  - intros x. rewrite H3. set_solver.
  - intros x. rewrite H4. set_solver.
Qed.

Definition sum_script (S : Summary) (s : Script) : option Summary :=
  if forallb (fun x => bool_decide (x ∈ host_lexical ++ host_functions) && negb (bool_decide (x ∈ s_lex S)) &&
                       negb (bool_decide (x ∈ s_fun S))) (lex s ++ functions s) &&
     bool_decide (NoDup (functions s)) && forallb (stmt_fits (lex s) (s_crypto S)) (body s)
  then Some (with_names S (lex s) (functions s)) else None.

Definition with_ops (S : Summary) (l : list (string * Value)) (sealed : bool) : Summary :=
  mkSum (s_lex S) (s_fun S) (Present l) sealed (s_crypto S) (s_states S).

Definition ops_so_far (S : Summary) : list (string * Value) :=
  match s_ops S with Absent => [] | Present l => l end.

Definition sum_step (S : Summary) (st : Step) : option Summary :=
  match st with
  | Store ty => Some (mkSum (s_lex S) (s_fun S) (s_ops S) (s_sealed S) (s_crypto S) (cons ty <$> s_states S))
  | Fn name => if stmt_fits [] false (Assign name Undefined) then Some S else None
  | Op name v =>
      if negb (s_sealed S) && negb (bool_decide (name ∈ fst <$> ops_so_far S))
      then Some (with_ops S (ops_so_far S ++ [(name, v)]) false) else None
  | ExecJs s | RunJs s => sum_script S s
  | NewCrypto =>
      if s_crypto S then None
      else Some (mkSum (s_lex S) (s_fun S) (s_ops S) (s_sealed S) true (s_states S))
  | CryptoFn name => if s_crypto S && bool_decide (name <> "subtle") then Some S else None
  | SubtleFn _ => if s_crypto S then Some S else None
  | Seal => if s_sealed S then None else Some (with_ops S (ops_so_far S) true)
  end.

Fixpoint sum_steps (S : Summary) (l : list Step) : option Summary :=
  match l with [] => Some S | st :: l => S ← sum_step S st; sum_steps S l end.

Definition host_clear (bL bF : gset string) : Prop :=
  forall x, x ∈ host_lexical ++ host_functions -> x ∉ bL /\ x ∉ bF.

Lemma host_names_apart x : x ∈ host_lexical ++ host_functions -> x <> NATIVE_NAMESPACE /\ x <> "crypto".
Proof.
  intros Hx. assert (forallb (fun y => bool_decide (y <> NATIVE_NAMESPACE) && bool_decide (y <> "crypto"))
                       (host_lexical ++ host_functions) = true) as Hall by (by vm_compute).
  rewrite forallb_forall in Hall. apply list_elem_of_In, Hall in Hx.
  by rewrite andb_true_iff, !bool_decide_eq_true in Hx.
Qed.

Lemma inv_host_script bL bF S S' r s :
  inv bL bF S r -> host_clear bL bF -> sum_script S s = Some S' ->
  exists r', run_script r s = Some r' /\ inv bL bF S' r'.
Proof.
  intros Hi Hclear Hsum. unfold sum_script in Hsum. case_match eqn:Hc; [|done]. injection Hsum as <-.
  rewrite !andb_true_iff, bool_decide_eq_true in Hc. destruct Hc as [[Hall Hnd] Hfit]. rewrite forallb_forall in Hall.
  assert (forall x, x ∈ lex s ++ functions s ->
            x ∈ host_lexical ++ host_functions /\ declared r x = false /\ restricted r x = false) as Hnames.
  { intros x Hx. apply list_elem_of_In, Hall in Hx.
    rewrite !andb_true_iff, !negb_true_iff, bool_decide_eq_true, !bool_decide_eq_false in Hx.
    destruct Hx as [[Hh H1] H2]. destruct (Hclear x Hh) as [H3 H4]. destruct (host_names_apart x Hh) as [H5 _].
    split_and!; [done| |].
    - apply bool_decide_eq_false. rewrite (v_lex _ _ _ _ Hi). tauto.
    - apply not_true_is_false. rewrite (v_fix _ _ _ _ Hi). tauto. }
  destruct (inv_script _ _ _ _ s Hi Hnd) as (r' & Hr' & Hi').
  - apply Forall_forall. intros x Hx. apply Hnames in Hx. tauto.
  - apply Forall_forall. intros x Hx. apply host_names_apart, Hnames. set_solver.
  - done.
  - exists r'. split; [done|]. by apply inv_rebase.
Qed.

Lemma ops_map_snoc l k v sealed :
  k ∉ l.*1 -> ops_map (l ++ [(k, v)]) sealed = <[k := mkProp v (negb sealed) true (negb sealed)]> (ops_map l sealed).
Proof.
  intros Hk. unfold ops_map. rewrite fmap_app. simpl. rewrite list_to_map_snoc; [done|].
  rewrite <-list_fmap_compose. rewrite (list_fmap_ext _ fst); [done|]. by intros i [] _.
Qed.

Lemma ops_map_none l k sealed : k ∉ l.*1 -> ops_map l sealed !! k = None.
Proof.
  intros Hk. unfold ops_map. apply not_elem_of_list_to_map. rewrite <-list_fmap_compose.
  rewrite (list_fmap_ext _ fst); [done|]. by intros i [] _.
Qed.

(** A new object is not yet referred to. *)
Lemma inv_new bL bF S r : inv bL bF S r -> inv bL bF S (snd (new_object r)).
Proof.
  intros Hi. pose proof (v_next _ _ _ _ Hi) as Hnext.
  assert (forall o, is_Some (objects r !! o) -> objects (snd (new_object r)) !! o = objects r !! o) as Hold.
  { intros o Ho. simpl. rewrite lookup_insert_ne; [done|]. pose proof (Hnext o Ho). lia. }
  destruct Hi as [(ob & Hg & He) _ Hlex Hfix Hw Hns Hcr Hsl].
  assert (forall o k, is_Some (objects r !! o) -> own (snd (new_object r)) o k = own r o k) as Hown
    by (intros o k Ho; unfold own; by rewrite Hold).
  assert (is_Some (objects r !! global)) as Hsome by (by eexists).
  split; try done.
  - exists ob. by rewrite Hold.
  - intros o [x Ho]. simpl in Ho |- *. destruct (decide (o = next r)) as [->|Hn]; [lia|].
    rewrite lookup_insert_ne in Ho by done. assert (o < next r) by (apply Hnext; by eexists). lia.
  - intros x. unfold restricted. rewrite Hown by done. apply Hfix.
  - by rewrite Hown.
  - rewrite Hown by done. destruct (s_ops S); [done|]. destruct Hns as (n & Hp & Hne & Hob).
    exists n. by rewrite Hold by (by eexists).
  - intros Hs. destruct (Hcr Hs) as (c & u & H3 & H4 & H5 & H6 & H7 & H8 & H9 & H10). exists c, u. unfold get in *.
    rewrite !Hown by done. by rewrite !Hold.
Qed.

Lemma inv_namespace bL bF S r :
  inv bL bF S r -> s_sealed S = false ->
  exists n, fst (namespace r) = n /\ get (snd (namespace r)) global NATIVE_NAMESPACE = Ref n /\
    inv bL bF (with_ops S (ops_so_far S) false) (snd (namespace r)).
Proof.
  intros Hi Hs. unfold namespace. pose proof (v_ns _ _ _ _ Hi) as Hns. destruct (s_ops S) as [|l] eqn:Hops.
  - unfold get. rewrite Hns. simpl.
    pose proof (inv_new _ _ _ _ Hi) as Hi1. set (r1 := snd (new_object r)) in *.
    change (mkRealm _ _ _ _) with r1.
    assert (own r1 global NATIVE_NAMESPACE = None) as Hnone.
    { pose proof (v_ns _ _ _ _ Hi1) as Hns1. by rewrite Hops in Hns1. }
    assert (objects r1 !! next r = Some (mkObject ∅ true)) as Hn by apply lookup_insert_eq.
    assert (next r <> global) as Hne.
    { destruct (v_global _ _ _ _ Hi) as (ob & Hg & _). pose proof (v_next _ _ _ _ Hi global (ex_intro _ ob Hg)). lia. }
    assert (restricted r1 NATIVE_NAMESPACE = false) as Hr by (unfold restricted; by rewrite Hnone).
    set (p := mkProp (Ref (next r)) false false false). pose proof (define_touches r1 global NATIVE_NAMESPACE p) as Ht.
    assert (forall k', k' <> NATIVE_NAMESPACE ->
              own (define_own_property r1 global NATIVE_NAMESPACE p) global k' = own r1 global k') as Hown
      by (intros; apply own_define_ne; congruence).
    destruct (v_global _ _ _ _ Hi1) as (ob & Hg & He).
    pose proof (define_fresh r1 NATIVE_NAMESPACE p ob Hg He Hr) as Hd.
    assert (own (define_own_property r1 global NATIVE_NAMESPACE p) global NATIVE_NAMESPACE = Some p) as Hp.
    { rewrite Hd, own_put, decide_True by done. apply lookup_insert_eq. }
    exists (next r). split_and!; [done|by rewrite Hp|].
    pose proof (v_fix _ _ _ _ Hi1) as Hfix. rewrite Hops in Hfix.
    assert (forall x, x ∈ bF \/ x ∈ s_fun S -> x <> NATIVE_NAMESPACE) as Hx.
    { intros x Hx ->. assert (restricted r1 NATIVE_NAMESPACE = true) by (apply Hfix; tauto). congruence. }
    split; simpl.
    + rewrite Hd. simpl. rewrite lookup_insert_eq. by eexists.
    + intros x. rewrite (t_dom _ _ _ Ht), (t_next _ _ _ Ht). apply (v_next _ _ _ _ Hi1).
    + rewrite (t_lex _ _ _ Ht). apply (v_lex _ _ _ _ Hi1).
    + intros x. destruct (decide (x = NATIVE_NAMESPACE)) as [->|Hn'].
      * unfold restricted. rewrite Hp. simpl. split; [intros _; right; right|]; done.
      * unfold restricted at 1. rewrite Hown by done. fold (restricted r1 x). rewrite Hfix. naive_solver.
    + rewrite Hown by done. apply (v_writable _ _ _ _ Hi1).
    + exists (next r). split_and!; [done|done|]. rewrite (t_other _ _ _ Ht) by done. unfold ops_so_far. by rewrite Hops.
    + intros Hc. destruct (v_crypto _ _ _ _ Hi Hc) as (c0 & u0 & G1 & G2 & G3 & G4 & _).
      destruct (v_crypto _ _ _ _ Hi1 Hc) as (c & u & H3 & H4 & H5 & H6 & H7 & H8 & H9 & H10). exists c, u.
      assert (c = c0 /\ u = u0) as [-> ->].
      { assert (get r1 global "crypto" = get r global "crypto" /\ get r1 c0 "subtle" = get r c0 "subtle") as [E1 E2].
        { unfold get, own. unfold r1. simpl. rewrite !lookup_insert_ne; [done| |done].
          pose proof (v_next _ _ _ _ Hi c0 G3). lia. }
        rewrite E1 in H3. assert (c = c0) by congruence. subst c. split; [done|congruence]. }
      unfold get in *. rewrite Hown, (touches_own _ _ _ c0 _ Ht), Hp by done. simpl.
      split_and!; try done; [by apply (t_dom _ _ _ Ht)..|]. intros n Heq. injection Heq as <-.
      pose proof (v_next _ _ _ _ Hi c0 G3). pose proof (v_next _ _ _ _ Hi u0 G4). lia.
    + rewrite (t_slots _ _ _ Ht). apply (v_slots _ _ _ _ Hi1).
  - destruct Hns as (n & Hp & Hne & Hob). assert (get r global NATIVE_NAMESPACE = Ref n) as Hget by (unfold get; by rewrite Hp).
    rewrite Hget. exists n. split_and!; [done|done|]. simpl. destruct S as [? ? ? ? ? ?]; simpl in *. subst. done.
Qed.

(** A change of the object of the namespace alone. *)
Lemma inv_of_namespace bL bF S r r' n l l' sealed :
  inv bL bF (with_ops S l false) r -> get r global NATIVE_NAMESPACE = Ref n -> touches r r' n ->
  (objects r !! n = Some (mkObject (ops_map l false) true) ->
   objects r' !! n = Some (mkObject (ops_map l' sealed) (negb sealed))) ->
  inv bL bF (with_ops S l' sealed) r'.
Proof.
  intros Hi Hget Ht Hob. destruct (v_ns _ _ _ _ Hi) as (n' & Hp & Hne & Hob0).
  assert (n' = n) as -> by (unfold get in Hget; rewrite Hp in Hget; simpl in Hget; congruence).
  assert (forall k, own r' global k = own r global k) as Hown by (intros; by apply (touches_own _ _ _ _ _ Ht), not_eq_sym).
  destruct Hi as [(ob & Hg & He) Hnext Hlex Hfix Hw _ Hcr Hsl]. split.
  - exists ob. by rewrite (t_other _ _ _ Ht) by (by apply not_eq_sym).
  - intros x. rewrite (t_dom _ _ _ Ht), (t_next _ _ _ Ht). apply Hnext.
  - rewrite (t_lex _ _ _ Ht). apply Hlex.
  - intros x. unfold restricted at 1. rewrite Hown. fold (restricted r x). rewrite Hfix. simpl.
    assert (Present l <> Absent /\ Present l' <> Absent) by done. tauto.
  - rewrite Hown. apply Hw.
  - exists n. rewrite Hown. split_and!; [done|done|]. by apply Hob.
  - intros Hs. destruct (Hcr Hs) as (c & u & H3 & H4 & H5 & H6 & H7 & H8 & H9 & H10). exists c, u.
    destruct (H10 n Hget) as [H11 H12]. unfold get in *. rewrite !Hown, (touches_own _ _ _ c _ Ht) by (by apply not_eq_sym).
    split_and!; try done; by apply (t_dom _ _ _ Ht).
  - rewrite (t_slots _ _ _ Ht). apply Hsl.
Qed.

Lemma inv_register_op bL bF S r name v :
  inv bL bF S r -> s_sealed S = false -> name ∉ (ops_so_far S).*1 ->
  inv bL bF (with_ops S (ops_so_far S ++ [(name, v)]) false) (register_op r name v).
Proof.
  intros Hi Hs Hn. destruct (inv_namespace _ _ _ _ Hi Hs) as (n & Hn1 & Hget & Hi'). unfold register_op.
  destruct (namespace r) as [n' r']. simpl in *. subst n'.
  eapply inv_of_namespace; [done|done|apply set_touches|]. intros Hob. unfold set. rewrite Hob. simpl.
  rewrite ops_map_none by done. simpl. rewrite lookup_insert_eq. by rewrite ops_map_snoc.
Qed.

Lemma ops_map_frozen l : frozen <$> ops_map l false = ops_map l true.
Proof.
  unfold ops_map. rewrite <-list_to_map_fmap. f_equal. rewrite <-list_fmap_compose.
  apply list_fmap_ext. by intros i [k v] _.
Qed.

Lemma inv_seal bL bF S r :
  inv bL bF S r -> s_sealed S = false -> inv bL bF (with_ops S (ops_so_far S) true) (seal r).
Proof.
  intros Hi Hs. destruct (inv_namespace _ _ _ _ Hi Hs) as (n & Hn1 & Hget & Hi'). unfold seal.
  destruct (namespace r) as [n' r']. simpl in *. subst n'.
  eapply inv_of_namespace; [done|done|apply freeze_touches|]. intros Hob. unfold freeze. rewrite Hob. simpl.
  rewrite lookup_insert_eq. by rewrite ops_map_frozen.
Qed.

Definition with_crypto (S : Summary) : Summary :=
  mkSum (s_lex S) (s_fun S) (s_ops S) (s_sealed S) true (s_states S).

Lemma get_namespace_lt bL bF S r n : inv bL bF S r -> get r global NATIVE_NAMESPACE = Ref n -> n < next r /\ n <> global.
Proof.
  intros Hi Hget. pose proof (v_ns _ _ _ _ Hi) as Hns. unfold get in Hget. destruct (s_ops S); [by rewrite Hns in Hget|].
  destruct Hns as (n' & Hp & Hne & Hob). rewrite Hp in Hget. injection Hget as <-. split; [|done].
  apply (v_next _ _ _ _ Hi). by eexists.
Qed.

Lemma inv_set_crypto bL bF S r v :
  inv bL bF S r -> s_crypto S = false ->
  inv bL bF S (set r global "crypto" v) /\ get (set r global "crypto" v) global "crypto" = v.
Proof.
  intros Hi Hs. pose proof (set_touches r global "crypto" v) as Ht.
  assert (own (set r global "crypto" v) global NATIVE_NAMESPACE = own r global NATIVE_NAMESPACE) as Hns'
    by (by apply own_set_ne).
  pose proof Hi as [(ob & Hg & He) Hnext Hlex Hfix Hw Hns Hcr Hsl].
  assert (exists p, own (set r global "crypto" v) global "crypto" = Some p /\ value p = v /\ writable p = true)
    as (p & Hp & Hv & Hpw).
  { rewrite (own_set _ _ _ _ _ Hg). unfold own in Hw. rewrite Hg in Hw. simpl in Hw.
    destruct (props ob !! "crypto") as [p|]; [rewrite (Hw p) by done|rewrite He]; by eexists. }
  split; [|unfold get; by rewrite Hp]. split.
  - destruct (proj2 (t_dom _ _ _ Ht global) (ex_intro _ ob Hg)) as [ob' Ho'].
    exists ob'. split; [done|]. by rewrite (extensible_set _ _ _ _ _ _ _ Hg Ho').
  - intros x. rewrite (t_dom _ _ _ Ht), (t_next _ _ _ Ht). apply Hnext.
  - by rewrite (t_lex _ _ _ Ht).
  - intros x. by rewrite restricted_set.
  - naive_solver.
  - rewrite Hns'. destruct (s_ops S) as [|l]; [done|]. destruct Hns as (n & Hq & Hne & Hob).
    exists n. split_and!; [done..|]. by rewrite (t_other _ _ _ Ht).
  - congruence.
  - by rewrite (t_slots _ _ _ Ht).
Qed.

Lemma own_new r o k : objects r !! next r = None -> own (snd (new_object r)) o k = own r o k.
Proof.
  intros Hn. unfold own. simpl. destruct (decide (o = next r)) as [->|Ho]; [by rewrite lookup_insert_eq, Hn|].
  by rewrite lookup_insert_ne.
Qed.

Lemma next_free bL bF S r : inv bL bF S r -> objects r !! next r = None.
Proof.
  intros Hi. apply eq_None_not_Some. intros Hx. pose proof (v_next _ _ _ _ Hi _ Hx). lia.
Qed.

Lemma inv_new_crypto bL bF S r :
  inv bL bF S r -> s_crypto S = false ->
  exists r', exec_step r NewCrypto = Some r' /\ inv bL bF (with_crypto S) r'.
Proof.
  intros Hi Hs. simpl. eexists. split; [done|].
  pose proof (inv_new _ _ _ _ Hi) as Hi1. set (c := next r) in *.
  change (mkRealm (<[c := mkObject ∅ true]> (objects r)) (Datatypes.S c) (lexical r) (slots r)) with (snd (new_object r)).
  set (r1 := snd (new_object r)) in *.
  destruct (inv_set_crypto _ _ _ r1 (Ref c) Hi1 Hs) as [Hi2 Hc].
  set (r2 := set r1 global "crypto" (Ref c)) in *.
  pose proof (inv_new _ _ _ _ Hi2) as Hi3. set (u := next r2) in *.
  change (mkRealm (<[u := mkObject ∅ true]> (objects r2)) (Datatypes.S u) (lexical r2) (slots r2)) with (snd (new_object r2)).
  set (r3 := snd (new_object r2)) in *.
  assert (next r1 = Datatypes.S c /\ u = Datatypes.S c) as [Hnr1 Hu] by (split; [done|]; apply (t_next _ _ _ (set_touches r1 global "crypto" (Ref c)))).
  destruct (v_global _ _ _ _ Hi) as (ob0 & Hg0 & _). pose proof (v_next _ _ _ _ Hi global (ex_intro _ _ Hg0)) as Hcg.
  assert (objects r3 !! c = Some (mkObject ∅ true)) as Hoc.
  { unfold r3. simpl. rewrite lookup_insert_ne by (subst u; lia).
    rewrite (t_other _ _ _ (set_touches r1 global "crypto" (Ref c))) by (subst c; unfold global in *; lia). apply lookup_insert_eq. }
  assert (objects r3 !! u = Some (mkObject ∅ true)) as Hou by apply lookup_insert_eq.
  assert (forall n, get r3 global NATIVE_NAMESPACE = Ref n -> n < c) as Hnc.
  { intros n. unfold get, r3. rewrite own_new by (by eapply next_free). unfold r2. rewrite own_set_ne by done.
    unfold r1. rewrite own_new by (by eapply next_free). intros Hn. by apply (get_namespace_lt _ _ _ _ _ Hi). }
  assert (inv bL bF S (set r3 c "subtle" (Ref u))) as Hi4.
  { apply inv_set; [done| | |congruence]; [intros Heq; unfold global in *; lia|]. intros n Hn Heq. apply Hnc in Hn. lia. }
  pose proof (set_touches r3 c "subtle" (Ref u)) as Ht.
  destruct Hi4 as [H1 H2 H3 H4 H5 H6 _ H8]. split; try done. intros _. exists c, u.
  assert (forall k, own (set r3 c "subtle" (Ref u)) global k = own r3 global k) as Hown
    by (intros; apply (touches_own _ _ _ _ _ Ht); unfold global in *; lia).
  split_and!; [| |apply (t_dom _ _ _ Ht); by eexists..|unfold global in *; lia|unfold global in *; lia|lia|].
  - unfold get. rewrite Hown. unfold r3. rewrite own_new by (by eapply next_free). done.
  - unfold get. rewrite (own_set _ _ _ _ _ Hoc). done.
  - intros n. unfold get. rewrite Hown. intros Hn. apply Hnc in Hn. lia.
Qed.

Lemma exec_js_run r s r' : run_script r s = Some r' -> exec_js r s = r'.
Proof.
  unfold run_script, exec_js. destruct (declare r s) as [r1|]; [simpl|done]. clear r. revert r1.
  induction (body s) as [|c l IH]; intros r1 Hr; simpl in *; [congruence|]. destruct (run_stmt r1 c); [by apply IH|done].
Qed.

Lemma setup_inv_step bL bF S S' r st :
  inv bL bF S r -> host_clear bL bF -> sum_step S st = Some S' ->
  exists r', exec_step r st = Some r' /\ inv bL bF S' r'.
Proof.
  intros Hi Hclear Hsum. destruct st; simpl in Hsum.
  - injection Hsum as <-. eexists. split; [done|]. destruct Hi as [? ? ? ? ? ? ? Hsl]. split; simpl; try done.
    rewrite Hsl. by destruct (s_states S).
  - case_match eqn:Hf; [|done]. injection Hsum as <-. rewrite andb_true_iff, !bool_decide_eq_true in Hf.
    destruct Hf. eexists. split; [done|]. by apply inv_set_global.
  - case_match eqn:Hf; [|done]. injection Hsum as <-. rewrite andb_true_iff, !negb_true_iff, bool_decide_eq_false in Hf.
    destruct Hf. eexists. split; [done|]. by apply inv_register_op.
  - destruct (inv_host_script _ _ _ _ _ _ Hi Hclear Hsum) as (r' & Hr & Hi'). exists r'. simpl. by rewrite (exec_js_run _ _ _ Hr).
  - apply (inv_host_script _ _ _ _ _ _ Hi Hclear Hsum).
  - destruct (s_crypto S) eqn:Hc; [done|]. injection Hsum as <-. by apply inv_new_crypto.
  - case_match eqn:Hf; [|done]. injection Hsum as <-. rewrite andb_true_iff, bool_decide_eq_true in Hf. destruct Hf as [Hc Hn].
    destruct (inv_crypto_fn _ _ _ _ _ Hi Hc Hn) as (c & Hco & Hi'). simpl. rewrite Hco. by eexists.
  - case_match eqn:Hc; [|done]. injection Hsum as <-. destruct (inv_subtle _ _ _ _ Hi Hc) as (u & Hu & Hi').
    simpl. rewrite Hu. by eexists.
  - destruct (s_sealed S) eqn:Hs; [done|]. injection Hsum as <-. eexists. split; [done|]. by apply inv_seal.
Qed.

Lemma inv_steps l : forall bL bF S S' r,
  inv bL bF S r -> host_clear bL bF -> sum_steps S l = Some S' ->
  exists r', exec_steps r l = Some r' /\ inv bL bF S' r'.
Proof.
  induction l as [|st l IH]; intros bL bF S S' r Hi Hclear Hsum; simpl in *.
  - injection Hsum as <-. by exists r.
  - destruct (sum_step S st) as [S1|] eqn:Hst; [|done].
    destruct (setup_inv_step _ _ _ _ _ _ Hi Hclear Hst) as (r1 & -> & Hi1). by apply (IH _ _ S1).
Qed.

Lemma exec_steps_app l1 l2 r r1 : exec_steps r l1 = Some r1 -> exec_steps r (l1 ++ l2) = exec_steps r1 l2.
Proof.
  revert r. induction l1 as [|st l1 IH]; intros r; simpl; [congruence|]. destruct (exec_step r st); simpl; auto; done.
Qed.

(** ** The context that results *)

(** The global constants of the language, which are fixed. *)
Definition CONSTANTS : list string := ["NaN"; "Infinity"; "undefined"].

(** The surface declares names that neither the host nor the language uses, and assigns
    globals. *)
Definition SPECIAL : list string := [NATIVE_NAMESPACE; "crypto"; "SharedArrayBuffer"; "Atomics"].

Definition surface_fits : bool :=
  forallb (fun x => negb (bool_decide (x ∈ host_lexical ++ host_functions ++ CONSTANTS ++ SPECIAL)))
    (lex surface ++ functions surface) &&
  bool_decide (NoDup (functions surface)) && forallb (stmt_fits (lex surface) false) (body surface).

Hypothesis fixed_builtins : forall k p, builtins !! k = Some p -> configurable p = false -> k ∈ CONSTANTS.
Hypothesis no_host_builtins : builtins !! NATIVE_NAMESPACE = None /\ builtins !! "crypto" = None.
Hypothesis the_surface_fits : surface_fits = true.

Definition fixed : gset string := dom (filter (fun kp => configurable (snd kp) = false) builtins).

Lemma elem_of_fixed x : x ∈ fixed <-> exists p, builtins !! x = Some p /\ configurable p = false.
Proof.
  unfold fixed. rewrite elem_of_dom. split.
  - intros [p Hp]. apply map_lookup_filter_Some in Hp. by exists p.
  - intros (p & H1 & H2). exists p. by apply map_lookup_filter_Some.
Qed.

Lemma fixed_constants x : x ∈ fixed -> x ∈ CONSTANTS.
Proof. rewrite elem_of_fixed. intros (p & H1 & H2). by eapply fixed_builtins. Qed.

Lemma fresh_inv : inv ∅ fixed (mkSum [] [] Absent false false None) fresh.
Proof.
  destruct no_host_builtins as [Hns Hcr]. split; simpl; try done.
  - eexists. by rewrite lookup_singleton_eq.
  - intros o [ob Ho]. apply lookup_singleton_Some in Ho as [<- _]. unfold global. lia.
  - intros x. rewrite lookup_empty. split; [by intros []|set_solver].
  - intros x. unfold restricted, own. simpl. rewrite lookup_singleton_eq. simpl. rewrite elem_of_fixed.
    destruct (builtins !! x) as [p|] eqn:Hx; [rewrite negb_true_iff|]; rewrite elem_of_nil; clear; naive_solver.
  - unfold own. simpl. rewrite lookup_singleton_eq. simpl. by rewrite Hcr.
Qed.

Lemma stmt_fits_mono ds b c : stmt_fits ds false c = true -> stmt_fits ds b c = true.
Proof. destruct c; simpl; try done; by rewrite ?andb_false_r. Qed.

Lemma surface_names x :
  x ∈ lex surface ++ functions surface -> x ∉ host_lexical /\ x ∉ host_functions /\ x ∉ CONSTANTS /\ x ∉ SPECIAL.
Proof.
  intros Hx. unfold surface_fits in the_surface_fits. rewrite !andb_true_iff in the_surface_fits.
  destruct the_surface_fits as [[Hall _] _]. rewrite forallb_forall in Hall. apply list_elem_of_In, Hall in Hx.
  by rewrite negb_true_iff, bool_decide_eq_false, !not_elem_of_app in Hx.
Qed.

Lemma special_names x : x ∉ SPECIAL -> x <> NATIVE_NAMESPACE /\ x <> "crypto".
Proof. unfold SPECIAL. rewrite !not_elem_of_cons. tauto. Qed.

(** The names of the surface are free wherever the host's and the language's are taken. *)
Lemma inv_surface S r :
  inv ∅ fixed S r -> (forall x, x ∈ s_lex S -> x ∈ host_lexical) -> (forall x, x ∈ s_fun S -> x ∈ host_functions) ->
  exists r', run_script r surface = Some r' /\
    inv (list_to_set (lex surface)) (list_to_set (functions surface) ∪ fixed) S r'.
Proof.
  intros Hi Hl Hf. pose proof the_surface_fits as Hfits. unfold surface_fits in Hfits.
  rewrite !andb_true_iff, bool_decide_eq_true in Hfits. destruct Hfits as [[_ Hnd] Hfit].
  replace (list_to_set (lex surface)) with (∅ ∪ list_to_set (lex surface) : gset string) by (by rewrite (left_id_L ∅ (∪))).
  apply inv_script; [done|done| | |].
  - apply Forall_forall. intros x Hin. destruct (surface_names x Hin) as (H1 & H2 & H3 & H4). split.
    + apply bool_decide_eq_false. rewrite (v_lex _ _ _ _ Hi). intros [Hx|Hx]; [by apply not_elem_of_empty in Hx|auto].
    + apply not_true_is_false. rewrite (v_fix _ _ _ _ Hi). pose proof (fixed_constants x). pose proof (Hf x).
      destruct (special_names x H4). tauto.
  - apply Forall_forall. intros f Hin. apply special_names, surface_names. apply elem_of_app. by right.
  - rewrite forallb_forall in Hfit |- *. intros c Hc. by apply stmt_fits_mono, Hfit.
Qed.

(** The steps of the host, and the two orders of the surface. *)
Definition host_summary : Summary :=
  mkSum host_lexical host_functions (Present ops) true true (Some (reverse state_types)).

Definition start_summary : Summary := mkSum [] [] Absent false false None.

Lemma snapshot_steps_sum :
  sum_steps start_summary setup_global_aliases = Some start_summary /\
  sum_steps start_summary setup_fetch_helpers = Some start_summary.
Proof. by vm_compute. Qed.

Lemma host_steps_sum invoke : sum_steps (mkSum [] [] Absent false false (Some [])) (host_steps invoke) = Some host_summary.
Proof. destruct invoke; by vm_compute. Qed.

Lemma surface_clear : host_clear (list_to_set (lex surface)) (list_to_set (functions surface) ∪ fixed).
Proof.
  intros x Hx. assert (x ∉ lex surface ++ functions surface) as Hn.
  { intros Hin. destruct (surface_names x Hin) as (H1 & H2 & _). apply elem_of_app in Hx. tauto. }
  assert (x ∉ CONSTANTS) as Hc.
  { intros Hin. assert (forallb (fun y => negb (bool_decide (y ∈ host_lexical ++ host_functions))) CONSTANTS = true) as Hall'
      by (by vm_compute). rewrite forallb_forall in Hall'. apply list_elem_of_In, Hall' in Hin.
    by rewrite negb_true_iff, bool_decide_eq_false in Hin. }
  pose proof (fixed_constants x). rewrite not_elem_of_app in Hn.
  rewrite elem_of_union, !elem_of_list_to_set. tauto.
Qed.

Lemma fixed_clear : host_clear ∅ fixed.
Proof. intros x Hx. destruct (surface_clear x Hx) as [_ H]. rewrite not_elem_of_union in H. by destruct H. Qed.

Lemma inv_attach bL bF S r :
  inv bL bF S r ->
  inv bL bF (mkSum (s_lex S) (s_fun S) (s_ops S) (s_sealed S) (s_crypto S) (Some [])) (attach r).
Proof. intros []. by split. Qed.

Lemma delete_absent r k : restricted r k = false -> own (delete_property r global k) global k = None.
Proof.
  unfold restricted, delete_property, own. destruct (objects r !! global) as [ob|] eqn:Ho; simpl; [|by rewrite Ho].
  destruct (props ob !! k) as [p|] eqn:Hp; simpl; [|by rewrite Ho]. intros Hc. apply negb_false_iff in Hc. rewrite Hc. simpl.
  rewrite lookup_insert_eq. apply lookup_delete_eq.
Qed.

(** The names a context has taken when guest code starts. *)
Definition taken (x : string) : Prop :=
  x ∈ host_lexical ++ host_functions \/ x = NATIVE_NAMESPACE \/ x ∈ lex surface ++ functions surface \/ x ∈ fixed.

Definition final (r : Realm) : Prop :=
  inv (list_to_set (lex surface)) (list_to_set (functions surface) ∪ fixed) host_summary r.

Lemma security_ends r :
  final r -> exists r', exec_steps r setup_security_restrictions = Some r' /\ final r' /\
    own r' global "SharedArrayBuffer" = None /\ own r' global "Atomics" = None.
Proof.
  intros Hi. assert (forall k, k ∈ ["SharedArrayBuffer"; "Atomics"] -> restricted r k = false) as Hr.
  { intros k Hk. apply not_true_is_false. rewrite (v_fix _ _ _ _ Hi). rewrite elem_of_union, elem_of_list_to_set.
    assert (k ∉ functions surface) as Hn.
    { intros Hin. destruct (surface_names k) as (_ & _ & _ & Hsp); [apply elem_of_app; by right|].
      apply Hsp. unfold SPECIAL. rewrite !elem_of_cons. rewrite !elem_of_cons in Hk. destruct Hk as [->|[->|Hk]]; tauto. }
    pose proof (fixed_constants k) as Hc.
    assert (k ∉ CONSTANTS /\ k ∉ host_functions /\ k <> NATIVE_NAMESPACE) by (clear -Hk; set_solver). naive_solver. }
  simpl. eexists. split; [reflexivity|].
  set (r1 := delete_property _ global "SharedArrayBuffer"). set (r2 := delete_property r1 global "Atomics").
  assert (final r1) as Hi1 by (apply inv_delete; [|done|done]; apply (inv_relex _ _ _ _ _ _ Hi), (v_lex _ _ _ _ Hi)).
  split_and!; [by apply inv_delete| |].
  - unfold r2. rewrite own_delete_ne by done. apply (delete_absent (mkRealm _ _ _ _)). apply Hr. set_solver.
  - apply delete_absent. unfold r1. rewrite restricted_delete. apply Hr. set_solver.
Qed.

Lemma setup_surface_ends S r :
  inv ∅ fixed S r -> (forall x, x ∈ s_lex S -> x ∈ host_lexical) -> (forall x, x ∈ s_fun S -> x ∈ host_functions) ->
  exists r', exec_steps r setup_surface = Some r' /\
    inv (list_to_set (lex surface)) (list_to_set (functions surface) ∪ fixed) S r'.
Proof. intros Hi Hl Hf. destruct (inv_surface S r Hi Hl Hf) as (r' & Hr & Hi'). exists r'. simpl. by rewrite Hr. Qed.

Lemma create_runtime_snapshot_ends :
  exists r, create_runtime_snapshot = Some r /\
    inv (list_to_set (lex surface)) (list_to_set (functions surface) ∪ fixed) start_summary r.
Proof.
  destruct (inv_steps _ _ _ _ _ _ fresh_inv fixed_clear (proj1 snapshot_steps_sum)) as (r1 & Hr1 & Hi1).
  destruct (setup_surface_ends _ _ Hi1) as (r2 & Hr2 & Hi2); [set_solver..|].
  destruct (inv_steps _ _ _ _ _ _ Hi2 surface_clear (proj2 snapshot_steps_sum)) as (r3 & Hr3 & Hi3).
  exists r3. split; [|done]. unfold create_runtime_snapshot.
  by rewrite (exec_steps_app _ _ _ _ Hr1), (exec_steps_app _ _ _ _ Hr2).
Qed.

Lemma new_context_ends use_snapshot invoke :
  exists r, new_context use_snapshot invoke = Some r /\ final r /\
    own r global "SharedArrayBuffer" = None /\ own r global "Atomics" = None.
Proof.
  unfold new_context. destruct use_snapshot.
  - destruct create_runtime_snapshot_ends as (r0 & -> & Hi0).
    destruct (inv_steps _ _ _ _ _ _ (inv_attach _ _ _ _ Hi0) surface_clear (host_steps_sum invoke)) as (r1 & Hr1 & Hi1).
    destruct (security_ends _ Hi1) as (r2 & Hr2 & Hi2). exists r2. split; [|done].
    change (exec_steps (attach r0) (host_steps invoke ++ [] ++ setup_security_restrictions) = Some r2).
    by rewrite (exec_steps_app _ _ _ _ Hr1).
  - destruct (inv_steps _ _ _ _ _ _ (inv_attach _ _ _ _ fresh_inv) fixed_clear (host_steps_sum invoke)) as (r1 & Hr1 & Hi1).
    destruct (setup_surface_ends _ _ Hi1) as (r2 & Hr2 & Hi2); [done..|].
    destruct (security_ends _ Hi2) as (r3 & Hr3 & Hi3). exists r3. split; [|done].
    change (exec_steps (attach fresh) (host_steps invoke ++ setup_surface ++ setup_security_restrictions) = Some r3).
    by rewrite (exec_steps_app _ _ _ _ Hr1), (exec_steps_app _ _ _ _ Hr2).
Qed.
(** ** The namespace under attack *)

(** The namespace is where the host put it, and frozen. *)
Definition sealed (r : Realm) : Prop :=
  exists n, own r global NATIVE_NAMESPACE = Some (mkProp (Ref n) false false false) /\ n <> global /\ n < next r /\
    objects r !! n = Some (mkObject (ops_map ops true) false).

Lemma final_sealed r : final r -> sealed r.
Proof.
  intros Hi. destruct (v_ns _ _ _ _ Hi) as (n & Hp & Hne & Hob). exists n. split_and!; try done.
  apply (v_next _ _ _ _ Hi). by eexists.
Qed.

Lemma ops_map_fixed k p : ops_map ops true !! k = Some p -> writable p = false /\ configurable p = false.
Proof.
  intros Hp. apply elem_of_list_to_map_2 in Hp. apply list_elem_of_fmap in Hp as ([k' v] & Heq & _).
  injection Heq as -> ->. done.
Qed.

Lemma compatible_fixed old new : compatible old new = true -> writable old = false -> configurable old = false -> new = old.
Proof.
  destruct old as [v w e c], new as [v' w' e' c']. unfold compatible. simpl. intros Hc -> ->. simpl in Hc.
  rewrite !andb_true_iff, !negb_true_iff, bool_decide_eq_true in Hc. destruct Hc as [[-> He] [-> ->]].
  apply eqb_prop in He. congruence.
Qed.

(** What changes one object and keeps the two fixed places keeps the namespace. *)
Lemma sealed_touch r r' o :
  sealed r -> touches r r' o ->
  (forall k p, own r o k = Some p -> writable p = false -> configurable p = false -> own r' o k = Some p) ->
  (forall ob, objects r !! o = Some ob -> extensible ob = false ->
     (forall k p, props ob !! k = Some p -> writable p = false /\ configurable p = false) -> objects r' !! o = Some ob) ->
  sealed r'.
Proof.
  intros (n & Hp & Hne & Hlt & Hob) Ht Hkeep Hfrozen. exists n. rewrite (t_next _ _ _ Ht). split_and!; try done.
  - destruct (decide (o = global)) as [->|Hn]; [by apply Hkeep|]. by rewrite (touches_own _ _ _ _ _ Ht) by auto.
  - destruct (decide (o = n)) as [->|Hn]; [|by rewrite (t_other _ _ _ Ht) by auto].
    apply Hfrozen; [done|done|]. intros k p. apply ops_map_fixed.
Qed.

Lemma sealed_set r o k v : sealed r -> sealed (set r o k v).
Proof.
  intros Hs. apply (sealed_touch r _ o Hs (set_touches r o k v)).
  - intros k' p Hp Hw Hc. destruct (decide (k' = k)) as [->|Hn]; [|rewrite own_set_ne by congruence; done].
    unfold own in Hp. destruct (objects r !! o) as [ob|] eqn:Ho; [|done]. simpl in Hp.
    rewrite (own_set _ _ _ _ _ Ho), Hp. by rewrite Hw.
  - intros ob Ho He Hall. unfold set. rewrite Ho. destruct (props ob !! k) as [p|] eqn:Hp.
    + by destruct (Hall _ _ Hp) as [-> _].
    + by rewrite He.
Qed.

Lemma sealed_define r o k p : sealed r -> sealed (define_own_property r o k p).
Proof.
  intros Hs. apply (sealed_touch r _ o Hs (define_touches r o k p)).
  - intros k' q Hq Hw Hc. destruct (decide (k' = k)) as [->|Hn]; [|rewrite own_define_ne by congruence; done].
    unfold own in Hq. unfold define_own_property. destruct (objects r !! o) as [ob|] eqn:Ho; [|done]. simpl in Hq.
    rewrite Hq. destruct (compatible q p) eqn:Hcp; [|unfold own; by rewrite Ho].
    rewrite (compatible_fixed _ _ Hcp Hw Hc). rewrite own_put, decide_True by done. apply lookup_insert_eq.
  - intros ob Ho He Hall. unfold define_own_property. rewrite Ho. destruct (props ob !! k) as [q|] eqn:Hq; [|by rewrite He].
    destruct (Hall _ _ Hq) as [Hw Hc]. destruct (compatible q p) eqn:Hcp; [|done].
    rewrite (compatible_fixed _ _ Hcp Hw Hc), insert_id by done. simpl. rewrite lookup_insert_eq. by destruct ob.
Qed.

Lemma sealed_delete r o k : sealed r -> sealed (delete_property r o k).
Proof.
  intros Hs. apply (sealed_touch r _ o Hs (delete_touches r o k)).
  - intros k' q Hq Hw Hc. destruct (decide (k' = k)) as [->|Hn]; [|rewrite own_delete_ne by congruence; done].
    unfold own in Hq. unfold delete_property. destruct (objects r !! o) as [ob|] eqn:Ho; [|done]. simpl in Hq.
    rewrite Hq, Hc. unfold own. by rewrite Ho.
  - intros ob Ho He Hall. unfold delete_property. rewrite Ho. destruct (props ob !! k) as [q|] eqn:Hq; [|done].
    by destruct (Hall _ _ Hq) as [_ ->].
Qed.

Lemma frozen_fixed p : writable p = false -> configurable p = false -> frozen p = p.
Proof. destruct p. simpl. by intros -> ->. Qed.

Lemma sealed_freeze r o : sealed r -> sealed (freeze r o).
Proof.
  intros Hs. apply (sealed_touch r _ o Hs (freeze_touches r o)).
  - intros k' q Hq Hw Hc. unfold own in Hq. unfold freeze. destruct (objects r !! o) as [ob|] eqn:Ho; [|done]. simpl in Hq.
    rewrite own_put, decide_True by done. simpl. rewrite lookup_fmap, Hq. simpl. by rewrite frozen_fixed.
  - intros ob Ho He Hall. unfold freeze. rewrite Ho. simpl. rewrite lookup_insert_eq. f_equal.
    destruct ob as [ps ext]. simpl in *. subst. f_equal. apply map_eq. intros k. rewrite lookup_fmap.
    destruct (ps !! k) as [p|] eqn:Hp; [|done]. simpl. destruct (Hall _ _ Hp). by rewrite frozen_fixed.
Qed.

Lemma sealed_new r : sealed r -> sealed (snd (new_object r)).
Proof.
  intros (n & Hp & Hne & Hlt & Hob). exists n. unfold own in *. simpl.
  rewrite !lookup_insert_ne by (unfold global in *; lia). split_and!; try done. lia.
Qed.

Lemma sealed_relex r m : sealed r -> sealed (mkRealm (objects r) (next r) m (slots r)).
Proof. done. Qed.

Lemma sealed_run r s : sealed r -> sealed (exec_js r s).
Proof.
  intros Hs. unfold exec_js. destruct (declare r s) as [r1|] eqn:Hd; [|done].
  assert (sealed r1) as Hs1.
  { unfold declare in Hd. case_match; [|done]. injection Hd as <-. apply sealed_relex. clear -Hs.
    revert r Hs. induction (functions s) as [|f fs IH]; intros r Hs; simpl; [done|]. apply IH. unfold declare_function.
    repeat case_match; by apply sealed_define. }
  clear Hd Hs. revert r1 Hs1. induction (body s) as [|c l IH]; intros r1 Hs; simpl; [done|].
  destruct (run_stmt r1 c) as [r2|] eqn:Hc; [|done]. apply IH. clear IH. destruct c; simpl in Hc.
  - injection Hc as <-. by apply sealed_set.
  - destruct (subtle r1); [injection Hc as <-; by apply sealed_set|done].
  - by injection Hc as <-.
  - destruct (subtle r1); [by injection Hc as <-|done].
  - injection Hc as <-. by apply sealed_delete.
Qed.

Lemma sealed_act r a : sealed r -> sealed (act r a).
Proof.
  destruct a; unfold act; auto using sealed_set, sealed_define, sealed_delete, sealed_freeze, sealed_new, sealed_run.
Qed.

(** What the host answers to an op. *)
Definition op_of (name : string) : Value :=
  from_option (fun '(_, (_, v)) => v) Undefined (list_find (fun p => fst p = name) ops).

Lemma ops_map_find l name :
  from_option value Undefined (ops_map l true !! name) =
  from_option (fun '(_, (_, v)) => v) Undefined (list_find (fun p => fst p = name) l).
Proof.
  unfold ops_map. induction l as [|[k v] l IH]; [done|]. rewrite fmap_cons. simpl.
  destruct (decide (k = name)) as [->|Hn]; [by rewrite lookup_insert_eq|].
  rewrite lookup_insert_ne by done. simpl in IH. rewrite IH. by destruct (list_find _ l) as [[i [k' v']]|].
Qed.

Lemma sealed_read_op r name : sealed r -> read_op r name = op_of name.
Proof.
  intros (n & Hp & _ & _ & Hob). unfold read_op, get. rewrite Hp. unfold own. cbn [from_option value]. rewrite Hob.
  apply ops_map_find.
Qed.

(** A context is set up whatever the snapshot file holds, from the runtime snapshot or
    from V8's globals, where the order of the host's scripts and the surface differs: no
    script of the host fails on a name that is taken, SharedArrayBuffer and Atomics are
    gone, every native finds its state in the slots, and the surface reads each op the
    host registered, and no other. *)
Theorem contexts_are_set_up read invoke :
  exists r, open_context read invoke = Some r /\
    own r global "SharedArrayBuffer" = None /\ own r global "Atomics" = None /\
    slots r = Some (list_to_set state_types) /\
    forall name, read_op r name = op_of name.
Proof.
  unfold open_context.
  destruct (new_context_ends (bool_decide (is_Some (get_snapshot read))) invoke) as (r & Hr & Hi & Hs & Ha).
  exists r. split_and!; [done..| |].
  - rewrite (v_slots _ _ _ _ Hi). change (Some (list_to_set (reverse state_types) : gset string) = Some (list_to_set state_types)).
    apply (f_equal Some), set_eq. intros x. by rewrite !elem_of_list_to_set, elem_of_reverse.
  - intros name. by apply sealed_read_op, final_sealed.
Qed.

(** C28: A guest cannot answer an op in the host's place: whatever it assigns, defines,
    deletes or freezes on any object, the global object and the namespace among them, and
    whatever its scripts declare and run, the shared surface goes on to read the host's
    ops. *)
Theorem guest_cannot_answer_an_op use_snapshot invoke r actions name :
  new_context use_snapshot invoke = Some r -> read_op (foldl act r actions) name = op_of name.
Proof.
  intros Hr. destruct (new_context_ends use_snapshot invoke) as (r' & Hr' & Hi & _).
  assert (r' = r) as -> by congruence. apply sealed_read_op. pose proof (final_sealed _ Hi) as Hs. clear -Hs.
  revert r Hs. induction actions as [|a l IH]; intros r Hs; simpl; [done|]. by apply IH, sealed_act.
Qed.

(** The names a worker's script cannot declare at its top level with [const], [let] or
    [class] are exactly those the host's and the surface's scripts declare, the namespace
    and the fixed globals of the language; a script that declares none of them loads. *)
Theorem worker_declarations use_snapshot invoke r ls l :
  new_context use_snapshot invoke = Some r ->
  (is_Some (declare r (mkScript ls [] l)) <-> forall x, x ∈ ls -> ~ taken x).
Proof.
  intros Hr. destruct (new_context_ends use_snapshot invoke) as (r' & Hr' & Hi & _).
  assert (r' = r) as -> by congruence. clear Hr Hr'.
  assert (forall x, taken x <-> declared r x = true \/ restricted r x = true) as Htaken.
  { intros x. unfold declared. rewrite bool_decide_eq_true, (v_lex _ _ _ _ Hi), (v_fix _ _ _ _ Hi).
    unfold taken. change (s_lex host_summary) with host_lexical. change (s_fun host_summary) with host_functions.
    rewrite !elem_of_app, elem_of_union, !elem_of_list_to_set.
    assert (s_ops host_summary <> Absent) by done. tauto. }
  unfold declare. cbn [functions lex forallb]. rewrite andb_true_r.
  destruct (forallb _ ls) eqn:Hall; (split; [|]).
  - intros _ x Hx. rewrite forallb_forall in Hall. apply list_elem_of_In, Hall in Hx.
    rewrite Htaken. rewrite andb_true_iff, !negb_true_iff in Hx. destruct Hx as [-> ->]. by intros [].
  - by eexists.
  - by intros [].
  - intros Hno. exfalso. apply not_true_iff_false in Hall. apply Hall. apply forallb_forall. intros x Hx.
    apply list_elem_of_In, Hno in Hx. rewrite Htaken in Hx.
    destruct (declared r x), (restricted r x); naive_solver.
Qed.

End Context_.
(** ** Witnesses *)

Definition demo_builtins : gmap string Property :=
  {[ "NaN" := mkProp Data false false false; "SharedArrayBuffer" := mkProp (Js "SharedArrayBuffer") true false true;
     "Atomics" := mkProp Data true false true; "Map" := mkProp (Js "Map") true false true ]}.

Definition demo_surface : Script := mkScript ["URL_PARTS"] ["toUSVString"] (Bind "URL_PARTS" Data :: assigns ["URL"; "Headers"]).

Lemma demo_fixed k p : demo_builtins !! k = Some p -> configurable p = false -> k ∈ CONSTANTS.
Proof.
  intros Hk Hc. assert (map_Forall (fun k p => configurable p = false -> k ∈ CONSTANTS) demo_builtins) as Hall
    by (by apply (bool_decide_eq_true_1 _); vm_compute).
  by apply (Hall k p).
Qed.

Lemma demo_no_host : demo_builtins !! NATIVE_NAMESPACE = None /\ demo_builtins !! "crypto" = None.
Proof. by vm_compute. Qed.

Lemma demo_fits : surface_fits demo_surface = true.
Proof. by vm_compute. Qed.

Definition demo_context : Realm := default (fresh ∅) (new_context demo_builtins demo_surface true true).

Lemma demo_context_made : new_context demo_builtins demo_surface true true = Some demo_context.
Proof.
  destruct (new_context_ends demo_builtins demo_surface demo_fixed demo_no_host demo_fits true true) as (r & Hr & _).
  unfold demo_context. by rewrite Hr.
Qed.

Lemma contexts_are_set_up_witness : exists r, open_context demo_builtins demo_surface (Ok [7]) true = Some r /\
  read_op r "urlParse" = Native "urlParse".
Proof.
  destruct (contexts_are_set_up demo_builtins demo_surface demo_fixed demo_no_host demo_fits (Ok [7]) true)
    as (r & Hr & _ & _ & _ & Hop).
  exists r. split; [exact Hr|]. rewrite Hop. reflexivity.
Defined.

(** The guest assigns the namespace, defines its name anew, deletes an op and replaces it. *)
Definition demo_attack : list Action :=
  [ASet global "__ow" Data; ADefine global "__ow" (mkProp Data true true true); ADelete 1 "urlParse";
   ASet 1 "urlParse" (Js "mine"); ADefine 1 "urlParse" (mkProp (Js "mine") false true false);
   ARun (mkScript [] ["__ow"] [Remove "__ow"; Assign "crypto" Data])].

Lemma guest_cannot_answer_an_op_witness :
  new_context demo_builtins demo_surface true true = Some demo_context /\
  read_op (foldl act demo_context demo_attack) "urlParse" = Native "urlParse".
Proof.
  pose proof demo_context_made as Hr. split; [exact Hr|].
  rewrite (guest_cannot_answer_an_op demo_builtins demo_surface demo_fixed demo_no_host demo_fits true true _ demo_attack "urlParse" Hr).
  reflexivity.
Defined.

Lemma worker_declarations_witness :
  new_context demo_builtins demo_surface true true = Some demo_context /\
  is_Some (declare demo_context (mkScript ["router"; "WebSocketPair"; "DurableObject"] [] [])).
Proof.
  pose proof demo_context_made as Hr. split; [exact Hr|].
  apply (worker_declarations demo_builtins demo_surface demo_fixed demo_no_host demo_fits true true _ _ [] Hr).
  intros x Hx Ht.
  assert (forallb (fun x => negb (bool_decide (x ∈ host_lexical ++ host_functions)) && negb (bool_decide (x = "__ow")) &&
            negb (bool_decide (x ∈ ["URL_PARTS"; "toUSVString"])) && negb (bool_decide (x ∈ ({["NaN"]} : gset string))))
            ["router"; "WebSocketPair"; "DurableObject"] = true) as Hall by (vm_compute; reflexivity).
  rewrite forallb_forall in Hall. apply list_elem_of_In, Hall in Hx.
  rewrite !andb_true_iff, !negb_true_iff, !bool_decide_eq_false in Hx. destruct Hx as [[[H1 H2] H3] H4].
  assert (fixed demo_builtins = {["NaN"]}) as Hf by (vm_compute; reflexivity).
  unfold taken in Ht. rewrite Hf in Ht. destruct Ht as [Ht|[Ht|[Ht|Ht]]];
    [exact (H1 Ht)|exact (H2 Ht)|exact (H3 Ht)|exact (H4 Ht)].
Defined.

(** The host's [class WebSocket] and its constants are declared in the scope of the guest:
    a worker with its own does not load. *)
Example own_websocket_does_not_load :
  declare demo_context (mkScript ["WebSocket"] [] []) = None /\ declare demo_context (mkScript ["WS_OPEN"] [] []) = None.
Proof. by vm_compute. Qed.

End Setup.
