(* ===== verification/CodeCache.v ===== *)
(** * Packed code caches (src/src/snapshot.rs)

    The wire format that carries a source with its V8 code cache. Bytes are
    integers from 0 to 255; a [str] is a list of bytes that is valid UTF-8. *)

From stdpp Require Import base list.
From Stdlib Require Import ZArith Lia.
From S2P Require Import Prelude.

Local Open Scope Z_scope.

Module CodeCache.

Definition CODE_CACHE_MAGIC : Z := 0xC0DECA5E.

(** [u32::to_le_bytes] and [u32::from_le_bytes]. *)
Definition to_le_bytes (n : Z) : list Z :=
  [Z.land n 255; Z.land (Z.shiftr n 8) 255; Z.land (Z.shiftr n 16) 255; Z.land (Z.shiftr n 24) 255].

Definition from_le_bytes (b : list Z) : option Z :=
  match b with
  | [b0; b1; b2; b3] =>
      Some (Z.lor b0 (Z.lor (Z.shiftl b1 8) (Z.lor (Z.shiftl b2 16) (Z.shiftl b3 24))))
  | _ => None
  end.

(** The well-formed byte sequences of Unicode, as [std::str::from_utf8] checks
    them. *)
Definition between (lo hi b : Z) : bool := (lo <=? b) && (b <=? hi).

Fixpoint utf8 (fuel : nat) (b : list Z) : bool :=
  match fuel, b with
  | _, [] => true
  | O, _ => false
  | S fuel, b0 :: r =>
      if b0 <? 128 then (0 <=? b0) && utf8 fuel r
      else match r with
           | b1 :: r1 =>
               if between 0xC2 0xDF b0 then between 0x80 0xBF b1 && utf8 fuel r1
               else match r1 with
                    | b2 :: r2 =>
                        let second3 :=
                          if b0 =? 0xE0 then between 0xA0 0xBF b1
                          else if b0 =? 0xED then between 0x80 0x9F b1
                          else between 0xE1 0xEF b0 && between 0x80 0xBF b1 in
                        if between 0xE0 0xEF b0
                        then second3 && between 0x80 0xBF b2 && utf8 fuel r2
                        else match r2 with
                             | b3 :: r3 =>
                                 let second4 :=
                                   if b0 =? 0xF0 then between 0x90 0xBF b1
                                   else if b0 =? 0xF4 then between 0x80 0x8F b1
                                   else between 0xF1 0xF3 b0 && between 0x80 0xBF b1 in
                                 second4 && between 0x80 0xBF b2 && between 0x80 0xBF b3 && utf8 fuel r3
                             | [] => false
                             end
                    | [] => false
                    end
           | [] => false
           end
  end.

(** Every step consumes a byte, so the length is fuel enough. *)
Definition valid_utf8 (b : list Z) : bool := utf8 (length b) b.

(** [pack_code_cache]; [as u32] keeps the low 32 bits of the length. *)
Definition pack_code_cache (source cache : list Z) : list Z :=
  to_le_bytes CODE_CACHE_MAGIC ++ to_le_bytes (wrap_u32 (Z.of_nat (length source))) ++ source ++ cache.

(** [is_code_cache] *)
Definition is_code_cache (data : list Z) : bool :=
  if (length data <? 8)%nat then false
  else match from_le_bytes (take 4 data) with
       | Some magic => magic =? CODE_CACHE_MAGIC
       | None => false
       end.

(** [unpack_code_cache] *)
Definition unpack_code_cache (data : list Z) : option (list Z * list Z) :=
  if negb (is_code_cache data) then None
  else
    n ← from_le_bytes (take 4 (drop 4 data));
    let source_end := (8 + Z.to_nat n)%nat in
    if (length data <? source_end)%nat then None
    else
      let source := take (Z.to_nat n) (drop 8 data) in
      if valid_utf8 source then Some (source, drop source_end data) else None.

(** ** Little-endian words *)

Definition byte (b : Z) : Prop := 0 <= b < 256.

Lemma le_arith b0 b1 b2 b3 :
  byte b0 -> byte b1 -> byte b2 -> byte b3 ->
  Z.lor b0 (Z.lor (Z.shiftl b1 8) (Z.lor (Z.shiftl b2 16) (Z.shiftl b3 24))) =
  b0 + 256 * b1 + 65536 * b2 + 16777216 * b3.
Proof.
  unfold byte. intros H0 H1 H2 H3.
  assert (forall a b k, 0 <= a < 2 ^ k -> 0 <= k -> 0 <= b -> Z.lor a (Z.shiftl b k) = a + b * 2 ^ k) as Hlor.
  { intros a b k Ha Hk Hb. rewrite Z.shiftl_mul_pow2 by done.
    pose proof (Z.add_lor_land a (b * 2 ^ k)). assert (Z.land a (b * 2 ^ k) = 0); [|lia].
    apply Z.bits_inj'. intros n Hn. rewrite Z.land_spec, Z.bits_0.
    destruct (decide (n < k)) as [Hlt|Hge].
    - rewrite Z.mul_pow2_bits_low by lia. apply andb_false_r.
    - destruct (decide (a = 0)) as [->|Hnz]; [by rewrite Z.bits_0|].
      rewrite (Z.bits_above_log2 a); [done|lia|].
      apply Z.log2_lt_pow2; [lia|]. apply (Z.lt_le_trans _ (2 ^ k)); [lia|]. apply Z.pow_le_mono_r; lia. }
  replace (Z.shiftl b3 24) with (Z.shiftl (Z.shiftl b3 8) 16) by (by rewrite Z.shiftl_shiftl).
  rewrite <-Z.shiftl_lor. rewrite (Hlor b2 b3 8) by lia.
  replace (Z.shiftl (b2 + b3 * 2 ^ 8) 16) with (Z.shiftl (Z.shiftl (b2 + b3 * 2 ^ 8) 8) 8)
    by (by rewrite Z.shiftl_shiftl).
  rewrite <-Z.shiftl_lor, (Hlor b1), (Hlor b0) by lia. lia.
Qed.

Lemma to_le_arith n :
  to_le_bytes n = [n mod 256; (n / 256) mod 256; (n / 65536) mod 256; (n / 16777216) mod 256].
Proof.
  unfold to_le_bytes. change 255 with (Z.ones 8). rewrite !Z.land_ones, !Z.shiftr_div_pow2 by lia. done.
Qed.

Lemma from_to_le n : 0 <= n < 2 ^ 32 -> from_le_bytes (to_le_bytes n) = Some n.
Proof.
  intros Hn. rewrite to_le_arith. unfold from_le_bytes.
  rewrite le_arith by (apply Z.mod_pos_bound; lia). f_equal.
  pose proof (Z.div_mod n 256). pose proof (Z.div_mod (n / 256) 256).
  pose proof (Z.div_mod (n / 65536) 256).
  rewrite (Z.mod_small (n / 16777216)) by (split; [apply Z.div_pos; lia|apply Z.div_lt_upper_bound; lia]).
  replace (n / 65536) with (n / 256 / 256) in * by (rewrite Z.div_div; done || lia).
  replace (n / 16777216) with (n / 256 / 256 / 256) in * by (rewrite !Z.div_div; done || lia). lia.
Qed.

Lemma to_from_le b n : Forall byte b -> from_le_bytes b = Some n -> b = to_le_bytes n /\ 0 <= n < 2 ^ 32.
Proof.
  intros Hb H. destruct b as [|b0 [|b1 [|b2 [|b3 [|]]]]]; try done. unfold from_le_bytes in H.
  rewrite !Forall_cons in Hb. destruct Hb as (H0 & H1 & H2 & H3 & _).
  rewrite le_arith in H by done. injection H as <-. unfold byte in *. split; [|lia]. rewrite to_le_arith.
  repeat f_equal; symmetry.
  - Z.div_mod_to_equations; lia.
  - Z.div_mod_to_equations; lia.
  - Z.div_mod_to_equations; lia.
  - Z.div_mod_to_equations; lia.
Qed.

(** ** Packing *)

Lemma length_to_le n : length (to_le_bytes n) = 4%nat.
Proof. done. Qed.

Lemma pack_magic source cache : is_code_cache (pack_code_cache source cache) = true.
Proof.
  unfold is_code_cache, pack_code_cache.
  rewrite !length_app, !length_to_le. simpl length.
  destruct (Nat.ltb_spec (4 + (4 + (length source + length cache))) 8); [lia|].
  rewrite take_app_length' by done. rewrite from_to_le by done. by apply Z.eqb_eq.
Qed.

Lemma unpack_pack source cache :
  valid_utf8 source = true -> Z.of_nat (length source) < 2 ^ 32 ->
  unpack_code_cache (pack_code_cache source cache) = Some (source, cache).
Proof.
  intros Hu Hl. unfold unpack_code_cache. rewrite pack_magic. cbn [negb].
  assert (drop 4 (pack_code_cache source cache) =
          to_le_bytes (wrap_u32 (Z.of_nat (length source))) ++ source ++ cache) as H4.
  { unfold pack_code_cache. by rewrite drop_app_length'. }
  assert (drop 8 (pack_code_cache source cache) = source ++ cache) as H8.
  { change 8%nat with (4 + 4)%nat. rewrite <-drop_drop, H4. by rewrite drop_app_length'. }
  rewrite H4, take_app_length' by done.
  assert (wrap_u32 (Z.of_nat (length source)) = Z.of_nat (length source)) as ->
    by (apply wrap_small; lia).
  rewrite from_to_le by lia. cbn [mbind option_bind]. rewrite Nat2Z.id.
  replace (length (pack_code_cache source cache)) with (8 + (length source + length cache))%nat
    by (unfold pack_code_cache; rewrite !length_app, !length_to_le; lia).
  destruct (Nat.ltb_spec (8 + (length source + length cache)) (8 + length source)); [lia|].
  rewrite H8, take_app_length, Hu, <-drop_drop, H8, drop_app_length. done.
Qed.

Lemma pack_unpack data source cache :
  Forall byte data -> unpack_code_cache data = Some (source, cache) ->
  data = pack_code_cache source cache /\ valid_utf8 source = true.
Proof.
  intros Hb H. unfold unpack_code_cache in H.
  destruct (is_code_cache data) eqn:Hm; cbn [negb] in H; [|done].
  unfold is_code_cache in Hm. destruct (Nat.ltb_spec (length data) 8) as [|Hlen]; [done|].
  destruct (from_le_bytes (take 4 data)) as [magic|] eqn:E0; [|done]. apply Z.eqb_eq in Hm. subst magic.
  destruct (from_le_bytes (take 4 (drop 4 data))) as [n|] eqn:E1; cbn [mbind option_bind] in H; [|done].
  destruct (Nat.ltb_spec (length data) (8 + Z.to_nat n)) as [|Hn]; [done|].
  destruct (valid_utf8 _) eqn:Hu; [|done]. injection H as <- <-.
  apply to_from_le in E0 as [E0 _]; [|by apply Forall_take].
  apply to_from_le in E1 as [E1 Hr]; [|by apply Forall_take, Forall_drop].
  split; [|done]. unfold pack_code_cache. rewrite <-E0.
  assert (length (take (Z.to_nat n) (drop 8 data)) = Z.to_nat n) as Hl
    by (rewrite length_take, length_drop; lia).
  rewrite Hl. rewrite Z2Nat.id by lia. change (wrap_u32 n) with (wrap 32 n). rewrite (wrap_small 32 n) by lia. rewrite <-E1.
  assert (take 4 (drop 4 data) ++ drop 8 data = drop 4 data) as H48.
  { change 8%nat with (4 + 4)%nat. by rewrite <-drop_drop, take_drop. }
  assert (take (Z.to_nat n) (drop 8 data) ++ drop (S (S (S (S (S (S (S (S (Z.to_nat n))))))))) data =
    drop 8 data) as ->.
  { rewrite <-(take_drop (Z.to_nat n) (drop 8 data)) at 2. f_equal. by rewrite drop_drop. }
  by rewrite H48, take_drop.
Qed.

(** A packed source with its cache comes back as it was, for every source
    below 4 GiB; and unpacking accepts nothing but packed buffers of a valid
    UTF-8 source, so a buffer that unpacks is the packing of what it gives. *)
Theorem code_cache_roundtrip :
  (forall source cache, valid_utf8 source = true -> Z.of_nat (length source) < 2 ^ 32 ->
     unpack_code_cache (pack_code_cache source cache) = Some (source, cache)) /\
  (forall data source cache, Forall byte data -> unpack_code_cache data = Some (source, cache) ->
     data = pack_code_cache source cache /\ valid_utf8 source = true).
Proof. split; [exact unpack_pack|exact pack_unpack]. Qed.

(** "h\xC3\xA9" with a cache of three bytes. *)
Lemma code_cache_roundtrip_witness :
  unpack_code_cache (pack_code_cache [104; 0xC3; 0xA9] [1; 2; 3]) = Some ([104; 0xC3; 0xA9], [1; 2; 3]).
Proof. exact (proj1 code_cache_roundtrip [104; 0xC3; 0xA9] [1; 2; 3] eq_refl eq_refl). Defined.

End CodeCache.
