(* ===== verification/Handlers.v ===== *)
(** * What the guest is handed (src/src/runtime/callback_handlers.rs)

    The JavaScript values that carry the answers of the host to the guest: the
    objects that the [populate_*] functions fill, and the number conversion they
    use. [v8::json::parse] and the JSON printer are parameters.

    A guest object is the list of its properties in the order they were first
    set; setting a property again replaces its value. *)

From stdpp Require Import base list strings sets gmap.
From Stdlib Require Import ZArith Lia.
From S2P Require Import Prelude.

Module Handlers.

Open Scope Z_scope.

(** ** Numbers

    [z as f64]: to nearest, ties to even. The result of an integer is an integer;
    [ulp z] is the distance between two doubles around it. *)

Definition ulp (z : Z) : Z := 2 ^ Z.max 0 (Z.log2 (Z.abs z) - 52).

Definition round_even (z u : Z) : Z :=
  let q := z / u in
  let r := z mod u in
  if (2 * r <? u) then q * u
  else if (u <? 2 * r) then (q + 1) * u
  else if Z.even q then q * u else (q + 1) * u.

Definition as_f64 (z : Z) : Z := round_even z (ulp z).

(** A JavaScript number: the integer it is, or the bits of the double the host
    passed through. *)
Inductive number :=
| Int (z : Z)
| Double (bits : Z).

(** ** Values *)

Inductive Value :=
| VUndefined
| VNull
| VBool (b : bool)
| VNumber (n : number)
| VString (s : string)
| VBytes (bytes : list Z)
| VArray (l : list Value)
| VObject (fields : list (string * Value))
| VError (message : string).

Definition Object := list (string * Value).

(** [v8::Number::new(scope, z as f64)] *)
Definition vnum (z : Z) : Value := VNumber (Int (as_f64 z)).

(** [object.set(key, value)] *)
Fixpoint set (o : Object) (k : string) (v : Value) : Object :=
  match o with
  | [] => [(k, v)]
  | (k', v') :: o' => if String.eqb k k' then (k', v) :: o' else (k', v') :: set o' k v
  end.

(** [object.set(key, value)] with a key the host does not choose, on an object made by
    [v8::Object::new]: [__proto__] goes to the setter of [Object.prototype], which
    makes no property. *)
Definition set_key (o : Object) (k : string) (v : Value) : Object :=
  if String.eqb k "__proto__" then o else set o k v.

(** [object.get(key)]: undefined for a property it has not. *)
Fixpoint get (o : Object) (k : string) : Value :=
  match o with
  | [] => VUndefined
  | (k', v) :: o' => if String.eqb k k' then v else get o' k
  end.

(** ** Fetch answers *)

(** [HttpResponseMeta] *)
Record HttpResponseMeta := mkMeta {
  status : Z;
  status_text : string;
  headers : list (string * string)
}.

(** An array of [[key, value]] pairs, which keeps duplicates. *)
Definition header_pairs (hs : list (string * string)) : Value :=
  VArray (map (fun '(k, v) => VArray [VString k; VString v]) hs).

Definition populate_fetch_meta (o : Object) (meta : HttpResponseMeta) (stream_id : Z) : Object :=
  let o := set o "status" (vnum (status meta)) in
  let o := set o "statusText" (VString (status_text meta)) in
  let o := set o "headers" (header_pairs (headers meta)) in
  set o "streamId" (vnum stream_id).

Definition populate_upgrade_meta (o : Object) (meta : HttpResponseMeta) (ws_id : Z) : Object :=
  let o := populate_fetch_meta o meta 0 in
  let o := set o "streamId" VNull in
  set o "socketId" (vnum ws_id).

(** ** Stream chunks *)

Inductive StreamChunk :=
| Data (bytes : list Z)
| Done
| ChunkError (message : string).

Definition populate_stream_chunk_result (o : Object) (chunk : StreamChunk) : Object :=
  match chunk with
  | Data bytes => set (set o "done" (VBool false)) "value" (VBytes bytes)
  | Done => set o "done" (VBool true)
  | ChunkError e => set o "error" (VString e)
  end.

(** ** Storage *)

(** The body of a storage response; a stream is pumped into a new stream of the
    context by a task. *)
Inductive ResponseBody := BodyBytes (bytes : list Z) | BodyStream | BodyNone.

Inductive StorageResult :=
| Body (maybe_body : option (list Z))
| Head (size : Z) (etag : option string)
| List_ (keys : list string) (truncated : bool)
| StorageError (message : string)
| Response (status : Z) (headers : list (string * string)) (body : ResponseBody).

Definition strings (l : list string) : Value := VArray (map VString l).

(** [stream_id] is what [create_stream] answers, if it is called. *)
Definition populate_storage_result (o : Object) (r : StorageResult) (stream_id : Z) : Object :=
  match r with
  | Body maybe_body =>
      let o := set o "success" (VBool true) in
      match maybe_body with Some b => set o "body" (VBytes b) | None => o end
  | Head size etag =>
      let o := set (set o "success" (VBool true)) "size" (vnum size) in
      match etag with Some e => set o "etag" (VString e) | None => o end
  | List_ keys truncated =>
      set (set (set o "success" (VBool true)) "keys" (strings keys)) "truncated" (VBool truncated)
  | StorageError e => set (set o "success" (VBool false)) "error" (VString e)
  | Response st hs body =>
      let o := set (set o "success" (VBool true)) "status" (vnum st) in
      let o := set o "headers" (header_pairs hs) in
      match body with
      | BodyBytes b => set o "body" (VBytes b)
      | BodyStream => set o "streamId" (vnum stream_id)
      | BodyNone => o
      end
  end.

(** ** Key-value store, databases *)

(** [SqlPrimitive] *)
Inductive SqlPrimitive :=
| SqlNull
| SqlBool (b : bool)
| SqlInt (z : Z)
| SqlFloat (bits : Z)
| SqlString (s : string)
| SqlBytes (bytes : list Z).

Definition sql_primitive_to_v8 (v : SqlPrimitive) : Value :=
  match v with
  | SqlNull => VNull
  | SqlBool b => VBool b
  | SqlInt z => vnum z
  | SqlFloat bits => VNumber (Double bits)
  | SqlString s => VString s
  | SqlBytes bytes => VArray (map (fun b => VNumber (Int b)) bytes)
  end.

Section Json.

(** [v8::json::parse] over the text [serde_json] prints. *)
Context (json_parse : string -> option Value).

Inductive KvResult :=
| KvValue (json : option string)
| KvOk
| KvKeys (keys : list string)
| KvError (message : string).

Definition populate_kv_result (o : Object) (r : KvResult) : Object :=
  match r with
  | KvValue json =>
      let o := set o "success" (VBool true) in
      set o "value" (match json with Some s => default VNull (json_parse s) | None => VNull end)
  | KvOk => set o "success" (VBool true)
  | KvKeys keys => set (set o "success" (VBool true)) "keys" (strings keys)
  | KvError e => set (set o "success" (VBool false)) "error" (VString e)
  end.

Inductive DatabaseResult :=
| Rows (json : string)
| DatabaseError (message : string)
| Table (columns : list string) (rows : list (list SqlPrimitive)).

(** One row of a table, column by column; [zip] stops at the shorter side. *)
Definition row_object (columns : list string) (row : list SqlPrimitive) : Object :=
  foldl (fun o '(c, v) => set_key o c (sql_primitive_to_v8 v)) [] (zip columns row).

Definition set_database_error (o : Object) (e : string) : Object :=
  set (set o "success" (VBool false)) "error" (VString e).

Definition populate_database_result (o : Object) (r : DatabaseResult) : Object :=
  match r with
  | Rows json =>
      set (set o "success" (VBool true)) "rows"
        (match json_parse json with Some v => v | None => VString json end)
  | DatabaseError e => set_database_error o e
  | Table columns rows =>
      set (set o "success" (VBool true)) "rows"
        (VArray (map (fun row => VObject (row_object columns row)) rows))
  end.

End Json.

(** ** D1 *)

Record D1Meta := mkD1Meta {
  duration : Z;
  changes : Z;
  last_row_id : Z;
  changed_db : bool;
  size_after : Z
}.

Record D1StatementResult := mkStatement {
  columns : list string;
  rows : list (list SqlPrimitive);
  meta : D1Meta
}.

Inductive D1ErrorKind := DType | DRange | DSql | DInterrupted | DOverloaded | DUnavailable.
Record D1Error := mkD1Error { kind : D1ErrorKind; message : string }.

Inductive D1Result :=
| Query (s : D1StatementResult)
| Batch (results : list D1StatementResult)
| Exec (count : Z) (duration : Z)
| D1Failed (e : D1Error).

Definition d1_error_message (e : D1Error) : string :=
  let prefix := match kind e with
                | DType => "D1_TYPE_ERROR"%string
                | DRange => "D1_RANGE_ERROR"%string
                | DSql | DInterrupted | DOverloaded | DUnavailable => "D1_ERROR"%string
                end in
  (prefix +:+ ": " +:+ message e)%string.

Definition populate_d1_statement (o : Object) (s : D1StatementResult) : Object :=
  let m : Object := [] in
  let m := set m "duration" (VNumber (Double (duration (meta s)))) in
  let m := set m "changes" (vnum (changes (meta s))) in
  let m := set m "last_row_id" (vnum (last_row_id (meta s))) in
  let m := set m "changed_db" (VBool (changed_db (meta s))) in
  let m := set m "size_after" (vnum (size_after (meta s))) in
  let o := set o "columns" (strings (columns s)) in
  let o := set o "rows" (VArray (map (fun row => VArray (map sql_primitive_to_v8 row)) (rows s))) in
  set o "meta" (VObject m).

Definition populate_d1_result (o : Object) (r : D1Result) : Object :=
  match r with
  | Query s => populate_d1_statement o s
  | Batch results =>
      set o "results" (VArray (map (fun s => VObject (populate_d1_statement [] s)) results))
  | Exec count d => set (set o "count" (vnum count)) "duration" (VNumber (Double d))
  | D1Failed e => set o "error" (VString (d1_error_message e))
  end.

(** ** The numbers *)

(** An integer of at most 53 bits is a double. *)
Lemma as_f64_exact z : Z.abs z <= 2 ^ 53 -> as_f64 z = z.
Proof.
  intros Hz. unfold as_f64, ulp. destruct (Z.eq_dec (Z.abs z) (2 ^ 53)) as [E|E].
  - assert (z = 2 ^ 53 \/ z = - 2 ^ 53) as [->| ->] by lia; by vm_compute.
  - assert (Z.log2 (Z.abs z) <= 52) as Hl.
    { destruct (Z.eq_dec (Z.abs z) 0) as [->|]; [by vm_compute|].
      assert (Z.log2 (Z.abs z) < 53); [|lia]. apply Z.log2_lt_pow2; lia. }
    replace (Z.max 0 (Z.log2 (Z.abs z) - 52)) with 0 by lia.
    unfold round_even. simpl Z.pow. rewrite Z.div_1_r, Z.mod_1_r. simpl. lia.
Qed.

Lemma round_even_near z u : 0 < u -> Z.abs (round_even z u - z) * 2 <= u.
Proof.
  intros Hu. unfold round_even. pose proof (Z.div_mod z u ltac:(lia)) as Hd.
  pose proof (Z.mod_pos_bound z u Hu) as Hm.
  set (q := z / u) in *. set (r := z mod u) in *.
  destruct (Z.ltb_spec (2 * r) u); [nia|]. destruct (Z.ltb_spec u (2 * r)); [nia|].
  destruct (Z.even q); nia.
Qed.

Lemma vnum_inj a b : Z.abs a <= 2 ^ 53 -> Z.abs b <= 2 ^ 53 -> vnum a = vnum b -> a = b.
Proof. intros Ha Hb [= E]. by rewrite !as_f64_exact in E. Qed.

(** ** Properties of objects *)

Lemma get_set o k v k' : get (set o k v) k' = if String.eqb k' k then v else get o k'.
Proof.
  induction o as [|[k0 v0] o IH]; simpl; [done|].
  destruct (String.eqb_spec k k0) as [->|Hk]; simpl.
  - by destruct (String.eqb_spec k' k0).
  - destruct (String.eqb_spec k' k0) as [->|Hk']; simpl.
    + by destruct (String.eqb_spec k0 k).
    + done.
Qed.

(** ** What the guest reads back

    Readers of the objects, as a guest would write them. *)

Definition as_int (v : Value) : option Z :=
  match v with VNumber (Int z) => Some z | _ => None end.

Definition as_string (v : Value) : option string :=
  match v with VString s => Some s | _ => None end.

Definition as_array (v : Value) : option (list Value) :=
  match v with VArray l => Some l | _ => None end.

Definition as_pair (v : Value) : option (string * string) :=
  match v with VArray [VString k; VString v] => Some (k, v) | _ => None end.

Definition as_sql (v : Value) : option SqlPrimitive :=
  match v with
  | VNull => Some SqlNull
  | VBool b => Some (SqlBool b)
  | VNumber (Int z) => Some (SqlInt z)
  | VNumber (Double bits) => Some (SqlFloat bits)
  | VString s => Some (SqlString s)
  | VArray l => SqlBytes <$> mapM as_int l
  | _ => None
  end.

Definition read_meta (o : Object) : option (HttpResponseMeta * Z) :=
  st ← as_int (get o "status"); text ← as_string (get o "statusText");
  hs ← as_array (get o "headers") ≫= mapM as_pair;
  sid ← as_int (get o "streamId");
  Some (mkMeta st text hs, sid).

Definition read_chunk (o : Object) : option StreamChunk :=
  match get o "error", get o "done", get o "value" with
  | VString e, _, _ => Some (ChunkError e)
  | _, VBool true, _ => Some Done
  | _, VBool false, VBytes b => Some (Data b)
  | _, _, _ => None
  end.

Definition read_columns (o : Object) : option (list string) :=
  as_array (get o "columns") ≫= mapM as_string.

Definition read_rows (o : Object) : option (list (list SqlPrimitive)) :=
  as_array (get o "rows") ≫= mapM (fun row => as_array row ≫= mapM as_sql).

Lemma mapM_map {A B} (f : A -> B) (g : B -> option A) l :
  (forall x, x ∈ l -> g (f x) = Some x) -> mapM g (map f l) = Some l.
Proof.
  induction l as [|x l IH]; intros H; simpl; [done|].
  rewrite H by set_solver. simpl. rewrite IH; [done|]. intros y Hy. apply H. set_solver.
Qed.

(** The values a double holds without loss. *)
Definition fits (v : SqlPrimitive) : Prop :=
  match v with SqlInt z => Z.abs z <= 2 ^ 53 | _ => True end.

Lemma as_sql_fits v : fits v -> as_sql (sql_primitive_to_v8 v) = Some v.
Proof.
  destruct v; simpl; intros H; try done.
  - by rewrite as_f64_exact.
  - by rewrite mapM_map.
Qed.

Lemma headers_back hs : (as_array (header_pairs hs) ≫= mapM as_pair) = Some hs.
Proof. simpl. apply mapM_map. by intros [k v]. Qed.

Lemma rows_back rs :
  Forall (Forall fits) rs ->
  mapM (fun row => as_array row ≫= mapM as_sql)
    (map (fun row => VArray (map sql_primitive_to_v8 row)) rs) = Some rs.
Proof.
  rewrite Forall_forall. intros H. apply mapM_map. intros row Hrow. simpl. apply mapM_map.
  intros v Hv. apply as_sql_fits. specialize (H row Hrow). rewrite Forall_forall in H. auto.
Qed.

(** The guest reads back what the host answered. A fetch answer gives its
    status, status text, the headers in order with their duplicates, and its
    stream; a chunk is told apart from the end and from an error; a D1 statement
    gives its columns, duplicate names included, and its rows. The numbers have to
    fit a double: status codes always do, ids and SQL integers up to 2^53. *)
Theorem answers_cross_unchanged (m : HttpResponseMeta) (sid : Z) (c : StreamChunk)
    (s : D1StatementResult) :
  0 <= status m < 2 ^ 16 -> 0 <= sid <= 2 ^ 53 -> Forall (Forall fits) (rows s) ->
  read_meta (populate_fetch_meta [] m sid) = Some (m, sid) /\
  read_chunk (populate_stream_chunk_result [] c) = Some c /\
  read_columns (populate_d1_result [] (Query s)) = Some (columns s) /\
  read_rows (populate_d1_result [] (Query s)) = Some (rows s).
Proof.
  intros Hst Hsid Hrows. split_and!.
  - unfold read_meta, populate_fetch_meta. rewrite !get_set. cbn [String.eqb Ascii.eqb Bool.eqb].
    unfold vnum, as_int. rewrite !as_f64_exact by lia. unfold as_string.
    cbn [mbind option_bind]. rewrite headers_back. by destruct m.
  - by destruct c.
  - unfold read_columns, populate_d1_result, populate_d1_statement. rewrite !get_set.
    cbn [String.eqb Ascii.eqb Bool.eqb]. by apply mapM_map.
  - unfold read_rows, populate_d1_result, populate_d1_statement. rewrite !get_set.
    cbn [String.eqb Ascii.eqb Bool.eqb]. by apply rows_back.
Qed.

Definition demo_meta : HttpResponseMeta :=
  mkMeta 200 "OK" [("set-cookie", "a=1"); ("set-cookie", "b=2")]%string.

Definition demo_statement : D1StatementResult :=
  mkStatement ["id"; "id"]%string [[SqlInt (2 ^ 53); SqlBytes [1; 255]]; [SqlNull; SqlBool true]]
    (mkD1Meta 0 0 7 false 4096).

Lemma answers_cross_unchanged_witness :
  read_meta (populate_fetch_meta [] demo_meta 5) = Some (demo_meta, 5) /\
  read_chunk (populate_stream_chunk_result [] (Data [104; 105])) = Some (Data [104; 105]) /\
  read_columns (populate_d1_result [] (Query demo_statement)) = Some (columns demo_statement) /\
  read_rows (populate_d1_result [] (Query demo_statement)) = Some (rows demo_statement).
Proof.
  apply (answers_cross_unchanged demo_meta 5 (Data [104; 105]) demo_statement).
  - by vm_compute.
  - lia.
  - repeat constructor; simpl; lia.
Defined.

(** The bound is needed: two integers past 2^53 give the guest one number. *)
Example integers_past_53_bits_collide :
  sql_primitive_to_v8 (SqlInt (2 ^ 53 + 1)) = sql_primitive_to_v8 (SqlInt (2 ^ 53)).
Proof. by vm_compute. Qed.

(** What a plain object holds after its keys were set in turn: the last value of each
    key, and nothing for [__proto__]. *)
Lemma set_keys_get (l : list (string * Value)) c :
  c <> "__proto__"%string ->
  get (foldl (fun o p => set_key o (fst p) (snd p)) [] l) c =
  default VUndefined (snd <$> last (filter (fun p => fst p = c) l)).
Proof.
  intros Hc. induction l as [|[k v] l IH] using rev_ind; [done|].
  rewrite foldl_snoc, filter_app, filter_cons, filter_nil. unfold set_key at 1. simpl.
  destruct (String.eqb_spec k "__proto__") as [->|Hp].
  - rewrite decide_False by done. by rewrite app_nil_r, IH.
  - rewrite get_set. destruct (String.eqb_spec c k) as [->|Hk].
    + rewrite decide_True by done. by rewrite last_snoc.
    + rewrite decide_False by congruence. by rewrite app_nil_r, IH.
Qed.

(** A column called [__proto__] does not reach the guest. *)
Example proto_column_is_lost :
  row_object ["id"; "__proto__"] [SqlInt 1; SqlInt 2] = [("id"%string, vnum 1)].
Proof. by vm_compute. Qed.

End Handlers.
