(* ===== verification/Dispatch.v ===== *)
(** * Settling the promises of the guest

    src/src/runtime/dispatch.rs, the callback tables of src/src/runtime/mod.rs,
    the ops that register callbacks (bindings/fetch.rs, streams.rs,
    websocket.rs) and the part of [ExecutionContext::reset] that clears them.

    Guest code is what the environment chooses: a [script] lists the ops guest
    code calls while it runs, and how it ends. Guest code runs inside an answer
    (a resolve function that starts new calls), and an invoke that is ready at
    once settles inside guest code, so scripts nest. *)

From stdpp Require Import base list gmap strings relations sets.
From Stdlib Require Import ZArith Lia.
From S2P Require Import Prelude Handlers.

Module Dispatch.
Import Handlers.

Open Scope Z_scope.

Definition CallbackId := Z.
Definition WebSocketId := Z.

(** A function of the guest, by identity. *)
Definition Fn := Z.

(** [Guest]: how guest code ended. *)
Inductive Guest :=
| Returned
| Threw (v : Value)
| Terminated.

(** [InvokeResult]; a value comes with whether its text fits a V8 string and
    what [v8::json::parse] makes of it. *)
Inductive InvokeResult :=
| InvokeError (message : string)
| InvokeValue (fits_string : bool) (parsed : option Value).

(** What polling the future of a host function answers at once. *)
Inductive Poll := Ready (r : InvokeResult) | Pending | Panicked.

Inductive script := Script (ops : list op) (ends : Guest)
with op :=
| Await (resolve reject : Fn)
| ReadStream (resolve : Fn)
| Accept (ws : WebSocketId) (dispatcher : Fn)
| Invoke (resolve reject : Fn) (polled : Poll) (on_resolve on_reject : script).

Definition ending (s : script) : Guest := let 'Script _ e := s in e.

(** The calls into guest code, with the promise each answers. *)
Inductive call :=
| CResolve (id : CallbackId) (f : Fn) (v : Value)
| CReject (id : CallbackId) (f : Fn) (v : Value)
| CStream (id : CallbackId) (f : Fn) (v : Value)
| CTimer (id : CallbackId)
| CSocket (ws : WebSocketId) (f : Fn) (args : list Value).

(** The tables ([Tables], [FetchState], [StreamState], [WebSocketEventState]).
    The counter is a u64 that starts at 1 and is never set back; 2^64 calls do not
    happen, so it is kept unbounded. [calls] records the calls into guest code and
    how each ended, [sent] the callbacks handed to the scheduler. *)
Record World := mkWorld {
  fetch : gmap CallbackId Fn;
  fetch_error : gmap CallbackId Fn;
  stream : gmap CallbackId Fn;
  ws_event : gmap WebSocketId Fn;
  next_id : CallbackId;
  inline_calls : Z;
  sent : list CallbackId;
  calls : list (call * Guest)
}.

Definition initial : World := mkWorld ∅ ∅ ∅ ∅ 1 0 [] [].

(** ** Registering *)

(** [register_callbacks_with_error] *)
Definition register_callbacks_with_error (w : World) (resolve reject : Fn) : World * CallbackId :=
  (mkWorld (<[next_id w := resolve]> (fetch w)) (<[next_id w := reject]> (fetch_error w))
     (stream w) (ws_event w) (next_id w + 1) (inline_calls w) (sent w) (calls w), next_id w).

(** [scheduler_tx.send] of an operation that answers [id]. *)
Definition send (w : World) (id : CallbackId) : World :=
  mkWorld (fetch w) (fetch_error w) (stream w) (ws_event w) (next_id w) (inline_calls w)
    (sent w ++ [id]) (calls w).

(** [native_stream_read] *)
Definition native_stream_read (w : World) (resolve : Fn) : World :=
  send (mkWorld (fetch w) (fetch_error w) (<[next_id w := resolve]> (stream w)) (ws_event w)
          (next_id w + 1) (inline_calls w) (sent w) (calls w)) (next_id w).

(** [__nativeWebSocketAccept] *)
Definition accept (w : World) (ws : WebSocketId) (f : Fn) : World :=
  mkWorld (fetch w) (fetch_error w) (stream w) (<[ws := f]> (ws_event w)) (next_id w)
    (inline_calls w) (sent w) (calls w).

Definition set_inline (w : World) (n : Z) : World :=
  mkWorld (fetch w) (fetch_error w) (stream w) (ws_event w) (next_id w) n (sent w) (calls w).

Definition log (w : World) (c : call) (e : Guest) : World :=
  mkWorld (fetch w) (fetch_error w) (stream w) (ws_event w) (next_id w) (inline_calls w)
    (sent w) (calls w ++ [(c, e)]).

(** Take both sides of a promise out of their tables. *)
Definition remove_pair (w : World) (id : CallbackId) : World :=
  mkWorld (delete id (fetch w)) (delete id (fetch_error w)) (stream w) (ws_event w) (next_id w)
    (inline_calls w) (sent w) (calls w).

(** ** Settling *)

Definition MAX_INLINE_CALLS : Z := 16.
Definition PANICKED : string := "invoke: the host function panicked".

Section Settling.
(** What guest code does to the tables while it runs. *)
Context (perform : World -> script -> World).

(** [call_guest] *)
Definition call_guest_with (w : World) (c : call) (s : script) : World :=
  perform (log w c (ending s)) s.

(** [dispatch_binding_callbacks] *)
Definition dispatch_binding_callbacks_with (w : World) (id : CallbackId)
    (error_msg : option string) (result_value : option Value)
    (on_resolve on_reject : script) : World :=
  let resolve := fetch w !! id in
  let reject := fetch_error w !! id in
  let w := remove_pair w id in
  match error_msg with
  | Some e =>
      match reject with
      | Some reject => call_guest_with w (CReject id reject (VError e)) on_reject
      | None => w
      end
  | None =>
      match result_value, resolve with
      | Some value, Some resolve =>
          let w := call_guest_with w (CResolve id resolve value) on_resolve in
          match ending on_resolve, reject with
          | Threw thrown, Some reject => call_guest_with w (CReject id reject thrown) on_reject
          | _, _ => w
          end
      | _, _ => w
      end
  end.

(** The two sides of an invoke result ([settle_invoke]). *)
Definition invoke_sides (r : InvokeResult) : option string * option Value :=
  match r with
  | InvokeError message => (Some message, None)
  | InvokeValue true parsed => (None, Some (default VNull parsed))
  | InvokeValue false _ => (Some "invoke: the answer is too large"%string, None)
  end.

(** [settle_invoke] *)
Definition settle_invoke_with (w : World) (id : CallbackId) (r : InvokeResult)
    (on_resolve on_reject : script) : World :=
  let '(error, value) := invoke_sides r in
  dispatch_binding_callbacks_with w id error value on_resolve on_reject.

(** The op of an invoke binding ([setup_invoke]): past the budget, or when the
    host is not ready, the scheduler settles the call. *)
Definition native_binding_invoke_with (w : World) (resolve reject : Fn) (polled : Poll)
    (on_resolve on_reject : script) : World :=
  let '(w, id) := register_callbacks_with_error w resolve reject in
  if MAX_INLINE_CALLS <=? inline_calls w then send w id
  else match polled with
       | Ready r =>
           settle_invoke_with (set_inline w (inline_calls w + 1)) id r on_resolve on_reject
       | Pending => send w id
       | Panicked =>
           settle_invoke_with (set_inline w (inline_calls w + 1)) id (InvokeError PANICKED)
             on_resolve on_reject
       end.

End Settling.

(** Guest code runs: its ops, one after the other. *)
Fixpoint perform (w : World) (s : script) {struct s} : World :=
  let 'Script ops _ := s in
  (fix go (w : World) (ops : list op) {struct ops} : World :=
     match ops with [] => w | o :: ops => go (do_op w o) ops end) w ops
with do_op (w : World) (o : op) {struct o} : World :=
  match o with
  | Await resolve reject =>
      let '(w, id) := register_callbacks_with_error w resolve reject in send w id
  | ReadStream resolve => native_stream_read w resolve
  | Accept ws f => accept w ws f
  | Invoke resolve reject polled s1 s2 =>
      native_binding_invoke_with perform w resolve reject polled s1 s2
  end.

Definition call_guest : World -> call -> script -> World := call_guest_with perform.
Definition dispatch_binding_callbacks := dispatch_binding_callbacks_with perform.
Definition settle_invoke := settle_invoke_with perform.

(** ** Messages *)

(** [ObjectStorageResult]; the bytes of a stored value come with what
    [deserialize] makes of them. *)
Inductive ObjectStorageResult :=
| ObjectError (message : string)
| Values (values : list (option (option Value)))
| Entries (entries : list (string * option Value))
| Written (deleted : Z)
| Alarm (at_ : option Z).

(** [stored_value] *)
Definition stored_value (bytes : option Value) : Value := default VUndefined bytes.

Definition object_storage_value (r : ObjectStorageResult) : string + Value :=
  match r with
  | ObjectError message => inl message
  | Values values =>
      inr (VArray (map (fun b => match b with Some b => stored_value b | None => VUndefined end)
                       values))
  | Entries entries =>
      inr (VArray (map (fun '(k, b) => VArray [VString k; stored_value b]) entries))
  | Written deleted => inr (vnum deleted)
  | Alarm (Some at_) => inr (vnum at_)
  | Alarm None => inr VNull
  end.

(** [WebSocketIncoming] *)
Inductive WebSocketIncoming :=
| Text (s : string)
| Binary (bytes : list Z)
| Closed (code : Z) (reason : string)
| SocketError (e : string).

Inductive CallbackMessage :=
| ExecuteTimeout (id : CallbackId)
| ExecuteInterval (id : CallbackId)
| FetchError (id : CallbackId) (error : string)
| FetchStreamingSuccess (id : CallbackId) (meta : HttpResponseMeta) (stream_id : Z)
| BindingUpgrade (id : CallbackId) (meta : HttpResponseMeta) (ws : WebSocketId)
| StreamChunk (id : CallbackId) (chunk : Handlers.StreamChunk)
| StorageResult (id : CallbackId) (r : Handlers.StorageResult)
| KvResult (id : CallbackId) (r : Handlers.KvResult)
| DatabaseResult (id : CallbackId) (r : Handlers.DatabaseResult)
| InvokeAnswer (id : CallbackId) (r : InvokeResult)
| D1Answer (id : CallbackId) (r : D1Result)
| ObjectStorage (id : CallbackId) (r : ObjectStorageResult)
| WebSocketConnected (id : CallbackId) (ws : WebSocketId)
| WebSocketConnectError (id : CallbackId) (error : string)
| WebSocketEvent (ws : WebSocketId) (incoming : WebSocketIncoming).

Section Messages.
Context (json_parse : string -> option Value).

(** What [settle] is called with for the messages of the bindings: the error, or
    the value. [new_stream] is the id [create_stream] would give the body of a
    storage response. *)
Definition binding_answer (m : CallbackMessage) (new_stream : Z)
  : option (CallbackId * (string + Value)) :=
  match m with
  | StorageResult id (StorageError e) => Some (id, inl e)
  | StorageResult id r => Some (id, inr (VObject (populate_storage_result [] r new_stream)))
  | KvResult id (KvError e) => Some (id, inl e)
  | KvResult id r => Some (id, inr (VObject (populate_kv_result json_parse [] r)))
  | DatabaseResult id (DatabaseError e) => Some (id, inl e)
  | DatabaseResult id r => Some (id, inr (VObject (populate_database_result json_parse [] r)))
  | D1Answer id (D1Failed e) => Some (id, inl (d1_error_message e))
  | D1Answer id r => Some (id, inr (VObject (populate_d1_result [] r)))
  | ObjectStorage id r => Some (id, object_storage_value r)
  | WebSocketConnected id ws => Some (id, inr (vnum ws))
  | WebSocketConnectError id e => Some (id, inl e)
  | _ => None
  end.

(** [settle] *)
Definition settle (w : World) (id : CallbackId) (a : string + Value)
    (on_resolve on_reject : script) : World :=
  match a with
  | inl e => dispatch_binding_callbacks w id (Some e) None on_resolve on_reject
  | inr v => dispatch_binding_callbacks w id None (Some v) on_resolve on_reject
  end.

(** [dispatch_ws_event] *)
Definition dispatch_ws_event (w : World) (ws : WebSocketId) (incoming : WebSocketIncoming)
    (on_event : script) : World :=
  let f := ws_event w !! ws in
  let w := match incoming with
           | Closed _ _ => mkWorld (fetch w) (fetch_error w) (stream w) (delete ws (ws_event w))
                             (next_id w) (inline_calls w) (sent w) (calls w)
           | _ => w
           end in
  match f with
  | None => w
  | Some f =>
      let args := match incoming with
                  | Text s => [VString "message"; VString s]
                  | Binary bytes => [VString "message"; VBytes bytes]
                  | Closed code reason => [VString "close"; vnum code; VString reason]
                  | SocketError e => [VString "error"; VString e]
                  end in
      call_guest w (CSocket ws f args) on_event
  end.

(** [dispatch]: [s2] is what the reject function of the promise does if it is
    called, [s1] what any other function does. [has_timer] tells whether
    [__executeTimer] still is a function of the guest. *)
Definition dispatch (w : World) (m : CallbackMessage) (has_timer : bool) (new_stream : Z)
    (s1 s2 : script) : World :=
  match m with
  | ExecuteTimeout id | ExecuteInterval id =>
      if has_timer then call_guest w (CTimer id) s1 else w
  | FetchError id e =>
      let callback := fetch_error w !! id in
      let w := remove_pair w id in
      match callback with
      | Some f => call_guest w (CReject id f (VError e)) s2
      | None => w
      end
  | FetchStreamingSuccess id meta stream_id =>
      let callback := fetch w !! id in
      let on_error := fetch_error w !! id in
      let w := remove_pair w id in
      match callback with
      | Some f =>
          let w := call_guest w (CResolve id f (VObject (populate_fetch_meta [] meta stream_id))) s1 in
          match ending s1, on_error with
          | Threw thrown, Some g => call_guest w (CReject id g thrown) s2
          | _, _ => w
          end
      | None => w
      end
  | BindingUpgrade id meta ws =>
      let callback := fetch w !! id in
      let w := remove_pair w id in
      match callback with
      | Some f => call_guest w (CResolve id f (VObject (populate_upgrade_meta [] meta ws))) s1
      | None => w
      end
  | StreamChunk id chunk =>
      let callback := stream w !! id in
      let w := mkWorld (fetch w) (fetch_error w) (delete id (stream w)) (ws_event w) (next_id w)
                 (inline_calls w) (sent w) (calls w) in
      match callback with
      | Some f => call_guest w (CStream id f (VObject (populate_stream_chunk_result [] chunk))) s1
      | None => w
      end
  | InvokeAnswer id r => settle_invoke w id r s1 s2
  | WebSocketEvent ws incoming => dispatch_ws_event w ws incoming s1
  | _ =>
      match binding_answer m new_stream with
      | Some (id, a) => settle w id a s1 s2
      | None => w
      end
  end.

(** The tables at the end of [ExecutionContext::reset]. *)
Definition reset (w : World) : World :=
  mkWorld ∅ ∅ ∅ ∅ (next_id w) (inline_calls w) (sent w) (calls w).

(** ** Executions *)

Inductive label :=
| LGuest (s : script)
| LMessage (m : CallbackMessage) (has_timer : bool) (new_stream : Z) (s1 s2 : script)
| LRound
| LReset.

Definition step (w : World) (l : label) : World :=
  match l with
  | LGuest s => perform w s
  | LMessage m t n s1 s2 => dispatch w m t n s1 s2
  | LRound => set_inline w 0
  | LReset => reset w
  end.

Definition run : World -> list label -> World := foldl step.

End Messages.

(** ** Settlements *)

(** The calls that answer one promise. *)
Definition about (id : CallbackId) (c : call) : bool :=
  match c with
  | CResolve i _ _ | CReject i _ _ | CStream i _ _ => bool_decide (i = id)
  | CTimer _ | CSocket _ _ _ => false
  end.

Definition settlements (w : World) (id : CallbackId) : list (call * Guest) :=
  filter (fun p => about id (fst p) = true) (calls w).

(** A promise waits for its answer. *)
Definition waiting (w : World) (id : CallbackId) : Prop :=
  is_Some (fetch w !! id) \/ is_Some (stream w !! id).

(** No answer, one answer, or a resolve that threw and the reject that got what it
    threw. *)
Definition once (id : CallbackId) (l : list (call * Guest)) : Prop :=
  l = [] \/ (exists c, l = [c]) \/
  exists f v x g e, l = [(CResolve id f v, Threw x); (CReject id g x, e)].

Record wf (w : World) : Prop := {
  wf_pairs : forall id, is_Some (fetch w !! id) <-> is_Some (fetch_error w !! id);
  wf_apart : forall id, is_Some (fetch w !! id) -> stream w !! id = None;
  wf_waiting : forall id, waiting w id -> id < next_id w /\ settlements w id = [];
  wf_fresh : forall id, next_id w <= id -> settlements w id = [];
  wf_once : forall id, once id (settlements w id)
}.

(** What no longer waits is not answered again. *)
Definition later (w w' : World) : Prop :=
  next_id w <= next_id w' /\
  forall id, id < next_id w -> ~ waiting w id ->
    ~ waiting w' id /\ settlements w' id = settlements w id.

Definition good (w w' : World) : Prop := wf w' /\ later w w'.

Lemma later_refl w : later w w.
Proof. split; [lia|done]. Qed.

Lemma later_trans a b c : later a b -> later b c -> later a c.
Proof.
  intros [H1 H2] [H3 H4]. split; [lia|]. intros id Hid Hw.
  destruct (H2 id Hid Hw) as [Hb Eb]. destruct (H4 id ltac:(lia) Hb) as [Hc Ec]. split; congruence.
Qed.

Lemma good_refl w : wf w -> good w w.
Proof. intros H. split; [done|apply later_refl]. Qed.

Lemma good_trans a b c : good a b -> good b c -> good a c.
Proof. intros [_ Ha] [Hb Hl]. split; [done|by eapply later_trans]. Qed.

Lemma settlements_log w c e id :
  settlements (log w c e) id = settlements w id ++ (if about id c then [(c, e)] else []).
Proof.
  unfold settlements. simpl. rewrite filter_app, filter_cons, filter_nil. simpl.
  by destruct (about id c).
Qed.

(** A call that answers nobody changes no promise. *)
Lemma log_nobody w c e : wf w -> (forall id, about id c = false) -> good w (log w c e).
Proof.
  intros [P A W F O] Hc. assert (forall id, settlements (log w c e) id = settlements w id) as E.
  { intros id. by rewrite settlements_log, Hc, app_nil_r. }
  split.
  - constructor; try done; intros id; rewrite E; auto.
  - split; [done|]. intros id _ Hw. split; [exact Hw|]. apply E.
Qed.

(** A call that answers [id], which no longer waits. *)
Lemma log_wf w c e id :
  wf w -> id < next_id w -> ~ waiting w id -> (forall i, about i c = bool_decide (id = i)) ->
  once id (settlements w id ++ [(c, e)]) -> wf (log w c e).
Proof.
  intros [P A W F O] Hid Hnw Hc Hone.
  assert (forall i, settlements (log w c e) i =
            if bool_decide (id = i) then settlements w i ++ [(c, e)] else settlements w i) as E.
  { intros i. rewrite settlements_log, Hc. case_bool_decide; [done|]. by rewrite app_nil_r. }
  constructor; try done; intros i; rewrite E; case_bool_decide; subst; auto.
  - intros Hw. by destruct Hnw.
  - intros. simpl in *. lia.
Qed.

Lemma log_later w w' c e id :
  later w w' -> waiting w id -> (forall i, about i c = bool_decide (id = i)) ->
  later w (log w' c e).
Proof.
  intros [H1 H2] Hw Hc. split; [done|]. intros i Hi Hnw. destruct (H2 i Hi Hnw) as [Hn E].
  split; [exact Hn|]. rewrite settlements_log, Hc, E. case_bool_decide; [by subst|]. apply app_nil_r.
Qed.

(** *** Tables *)

Lemma remove_pair_good w id : wf w -> good w (remove_pair w id).
Proof.
  intros [P A W F O].
  assert (forall i, waiting (remove_pair w id) i -> waiting w i) as Hsub.
  { intros i [H|H]; [left|by right]. unfold remove_pair in H. simpl in H.
    rewrite lookup_delete_is_Some in H. tauto. }
  split.
  - constructor; simpl; try done.
    + intros i. rewrite !lookup_delete_is_Some. by rewrite P.
    + intros i. rewrite lookup_delete_is_Some. naive_solver.
    + intros i Hi. by apply W, Hsub.
  - split; [done|]. intros i _ Hw. split; [by intros ?%Hsub|done].
Qed.

Lemma remove_pair_gone w id : wf w -> is_Some (fetch w !! id) -> ~ waiting (remove_pair w id) id.
Proof.
  intros H Hf [Hw|Hw]; simpl in Hw.
  - rewrite lookup_delete_is_Some in Hw. tauto.
  - rewrite (wf_apart _ H) in Hw by done. by destruct Hw.
Qed.

Definition remove_stream (w : World) (id : CallbackId) : World :=
  mkWorld (fetch w) (fetch_error w) (delete id (stream w)) (ws_event w) (next_id w)
    (inline_calls w) (sent w) (calls w).

Lemma remove_stream_good w id : wf w -> good w (remove_stream w id).
Proof.
  intros [P A W F O].
  assert (forall i, waiting (remove_stream w id) i -> waiting w i) as Hsub.
  { intros i [H|H]; [by left|right]. unfold remove_stream in H. simpl in H.
    rewrite lookup_delete_is_Some in H. tauto. }
  split.
  - constructor; simpl; try done.
    + intros i Hi. rewrite lookup_delete_None. right. by apply A.
    + intros i Hi. by apply W, Hsub.
  - split; [done|]. intros i _ Hw. split; [by intros ?%Hsub|done].
Qed.

(** Registering takes an id that was never used. *)
Lemma register_good w f g : wf w -> good w (fst (register_callbacks_with_error w f g)).
Proof.
  intros [P A W F O]. simpl.
  assert (fetch w !! next_id w = None /\ stream w !! next_id w = None) as [Nf Ns].
  { split; apply eq_None_not_Some; intros H; (destruct (W (next_id w)); [|lia]); [by left|by right]. }
  split.
  - constructor; simpl; try done.
    + intros id. rewrite !lookup_insert_is_Some. by rewrite P.
    + intros id. rewrite lookup_insert_is_Some. intros [<-|[_ H]]; auto.
    + intros id. unfold waiting. simpl. rewrite lookup_insert_is_Some. intros [[<-|[_ H]]|H].
      * split; [lia|]. by apply F.
      * destruct (W id); [by left|]. split; [lia|done].
      * destruct (W id); [by right|]. split; [lia|done].
    + intros id Hid. apply F. lia.
  - split; [simpl; lia|]. intros id Hid Hw. split; [|done]. intros Hw'. apply Hw.
    unfold waiting in *. simpl in Hw'. rewrite lookup_insert_is_Some in Hw'.
    destruct Hw' as [[?|[_ ?]]|?]; [lia|by left|by right].
Qed.

Lemma stream_read_good w f : wf w -> good w (native_stream_read w f).
Proof.
  intros [P A W F O].
  assert (fetch w !! next_id w = None) as Nf.
  { apply eq_None_not_Some; intros H; destruct (W (next_id w)); [by left|]. lia. }
  split.
  - constructor; simpl; try done.
    + intros id H. rewrite lookup_insert_None. split; [by apply A|]. intros <-. rewrite Nf in H.
      by destruct H.
    + intros id. unfold waiting. simpl. rewrite lookup_insert_is_Some. intros [H|[<-|[_ H]]].
      * destruct (W id); [by left|]. split; [lia|done].
      * split; [lia|]. by apply F.
      * destruct (W id); [by right|]. split; [lia|done].
    + intros id Hid. apply F. lia.
  - split; [simpl; lia|]. intros id Hid Hw. split; [|done]. intros Hw'. apply Hw.
    unfold waiting in *. simpl in Hw'. rewrite lookup_insert_is_Some in Hw'.
    destruct Hw' as [?|[?|[_ ?]]]; [by left|lia|by right].
Qed.

(** What only touches the sockets, the budget or the scheduler. *)
Lemma same_tables_good w w' :
  wf w -> fetch w' = fetch w -> fetch_error w' = fetch_error w -> stream w' = stream w ->
  next_id w' = next_id w -> calls w' = calls w -> good w w'.
Proof.
  intros [P A W F O] E1 E2 E3 E4 E5.
  assert (forall id, settlements w' id = settlements w id) as Es by (intros; unfold settlements; by rewrite E5).
  assert (forall id, waiting w' id <-> waiting w id) as Ew by (intros; unfold waiting; by rewrite E1, E3).
  split.
  - constructor; rewrite ?E1, ?E2, ?E3, ?E4; auto; intros id; rewrite ?Es, ?Ew; auto.
  - split; [lia|]. intros id _. rewrite Es, Ew. auto.
Qed.

(** *** Guest code *)

(** Induction over nested scripts. *)
Section ScriptInd.
Context (P : script -> Prop) (Q : op -> Prop).
Context (HS : forall ops e, Forall Q ops -> P (Script ops e)).
Context (HA : forall f g, Q (Await f g)) (HR : forall f, Q (ReadStream f)).
Context (HC : forall ws f, Q (Accept ws f)).
Context (HI : forall f g p s1 s2, P s1 -> P s2 -> Q (Invoke f g p s1 s2)).

Fixpoint script_nested_ind (s : script) : P s :=
  match s with
  | Script ops e =>
      HS ops e ((fix go ops : Forall Q ops :=
                   match ops with
                   | [] => @List.Forall_nil _ Q
                   | o :: ops => @List.Forall_cons _ Q o ops (op_nested_ind o) (go ops)
                   end) ops)
  end
with op_nested_ind (o : op) : Q o :=
  match o with
  | Await f g => HA f g
  | ReadStream f => HR f
  | Accept ws f => HC ws f
  | Invoke f g p s1 s2 => HI f g p s1 s2 (script_nested_ind s1) (script_nested_ind s2)
  end.
End ScriptInd.

Lemma perform_unfold ops e w : perform w (Script ops e) = foldl do_op w ops.
Proof. simpl. revert w. induction ops as [|o ops IH]; intros w; simpl; [done|]. apply IH. Qed.

Definition keeps (s : script) : Prop := forall w, wf w -> good w (perform w s).

(** Answering [id] for the first time. *)
Lemma first_answer w c s id :
  keeps s -> wf w -> id < next_id w -> ~ waiting w id -> settlements w id = [] ->
  (forall i, about i c = bool_decide (id = i)) ->
  wf (call_guest w c s) /\ later (log w c (ending s)) (call_guest w c s) /\
  ~ waiting (call_guest w c s) id /\ settlements (call_guest w c s) id = [(c, ending s)].
Proof.
  intros Hk Hwf Hid Hnw Hs Hc.
  assert (wf (log w c (ending s))) as Hl.
  { eapply log_wf; eauto. rewrite Hs. right. left. by eexists. }
  destruct (Hk _ Hl) as [Hw' Hlat]. split_and!; [done|done|..]; destruct Hlat as [_ H];
    destruct (H id Hid Hnw) as [H1 H2].
  - exact H1.
  - unfold call_guest, call_guest_with. rewrite H2, settlements_log, Hs, Hc.
    by rewrite bool_decide_true.
Qed.

(** One answer to a promise that has left its table. *)
Lemma answer_good w w1 c s id :
  keeps s -> good w w1 -> waiting w id -> ~ waiting w1 id -> settlements w1 id = [] ->
  id < next_id w1 -> (forall i, about i c = bool_decide (id = i)) ->
  good w (call_guest w1 c s) /\ ~ waiting (call_guest w1 c s) id /\
  settlements (call_guest w1 c s) id = [(c, ending s)].
Proof.
  intros Hk [Hwf Hlat] Hw Hnw Hs Hid Hc.
  destruct (first_answer w1 c s id Hk Hwf Hid Hnw Hs Hc) as (H1 & H2 & H3 & H4).
  split_and!; [|done|done]. split; [done|]. eapply later_trans; [|exact H2].
  by eapply log_later.
Qed.

(** The reject of a resolve that threw. *)
Lemma second_answer w w1 id f v x g s :
  keeps s -> good w w1 -> waiting w id -> ~ waiting w1 id -> id < next_id w1 ->
  settlements w1 id = [(CResolve id f v, Threw x)] ->
  good w (call_guest w1 (CReject id g x) s).
Proof.
  intros Hk [Hwf Hlat] Hw Hnw Hid Hs.
  assert (forall i, about i (CReject id g x) = bool_decide (id = i)) as Hc by done.
  assert (wf (log w1 (CReject id g x) (ending s))) as Hl.
  { eapply log_wf; eauto. rewrite Hs. right. right. by repeat eexists. }
  destruct (Hk _ Hl) as [H1 H2]. split; [exact H1|]. eapply later_trans; [|exact H2].
  by eapply log_later.
Qed.

Lemma pair_taken w id :
  wf w -> is_Some (fetch w !! id) ->
  waiting w id /\ good w (remove_pair w id) /\ ~ waiting (remove_pair w id) id /\
  settlements (remove_pair w id) id = [] /\ id < next_id (remove_pair w id).
Proof.
  intros Hwf Hf. assert (waiting w id) as Hw by by left. destruct (wf_waiting _ Hwf id Hw).
  split_and!; [done|by apply remove_pair_good|by apply remove_pair_gone|done|done].
Qed.

(** A resolve, with the reject behind it. *)
Lemma resolve_good w id f g v s1 s2 :
  keeps s1 -> keeps s2 -> wf w -> fetch w !! id = Some f -> 
  good w (let w1 := call_guest (remove_pair w id) (CResolve id f v) s1 in
          match ending s1, g with
          | Threw x, Some g => call_guest w1 (CReject id g x) s2
          | _, _ => w1
          end).
Proof.
  intros K1 K2 Hwf Hf. destruct (pair_taken w id Hwf) as (Hw & Hg & Hn & Hs & Hid); [by eexists|].
  destruct (answer_good w _ (CResolve id f v) s1 id K1 Hg Hw Hn Hs Hid) as (G1 & N1 & S1); [done|].
  simpl. destruct (ending s1) eqn:He; try exact G1. destruct g as [g|]; [|exact G1].
  eapply second_answer; [done|exact G1|done|done| |exact S1].
  destruct G1 as [_ [Hle _]], (wf_waiting _ Hwf id Hw). lia.
Qed.

Lemma reject_good w id g v s :
  keeps s -> wf w -> fetch_error w !! id = Some g ->
  good w (call_guest (remove_pair w id) (CReject id g v) s).
Proof.
  intros K Hwf Hg0. destruct (pair_taken w id Hwf) as (Hw & Hg & Hn & Hs & Hid).
  { apply (wf_pairs _ Hwf). by eexists. }
  by apply (answer_good w _ (CReject id g v) s id K Hg Hw Hn Hs Hid).
Qed.

Lemma binding_callbacks_good w id err val s1 s2 :
  keeps s1 -> keeps s2 -> wf w -> good w (dispatch_binding_callbacks w id err val s1 s2).
Proof.
  intros K1 K2 Hwf. unfold dispatch_binding_callbacks, dispatch_binding_callbacks_with.
  pose proof (remove_pair_good w id Hwf) as Hr.
  destruct err as [e|]; simpl.
  - destruct (fetch_error w !! id) as [g|] eqn:Hg; [|done]. by apply (reject_good w id g (VError e) s2).
  - destruct val as [v|]; [|done]. destruct (fetch w !! id) as [f|] eqn:Hf; [|done].
    by apply (resolve_good w id f (fetch_error w !! id) v s1 s2).
Qed.

Lemma settle_invoke_good w id r s1 s2 :
  keeps s1 -> keeps s2 -> wf w -> good w (settle_invoke w id r s1 s2).
Proof.
  intros. unfold settle_invoke, settle_invoke_with. destruct (invoke_sides r).
  by apply binding_callbacks_good.
Qed.

Lemma invoke_good w f g p s1 s2 :
  keeps s1 -> keeps s2 -> wf w -> good w (native_binding_invoke_with perform w f g p s1 s2).
Proof.
  intros K1 K2 Hwf. unfold native_binding_invoke_with. pose proof (register_good w f g Hwf) as Hr.
  destruct (register_callbacks_with_error w f g) as [w1 id]. simpl in Hr. destruct (Hr) as [Hw1 _].
  assert (good w (send w1 id)) as Hs by (eapply good_trans; [exact Hr|by apply same_tables_good]).
  assert (forall n r, good w (settle_invoke (set_inline w1 n) id r s1 s2)) as Hset.
  { intros n r. assert (good w1 (set_inline w1 n)) as Hn by by apply same_tables_good.
    destruct (Hn) as [Hwn _]. eapply good_trans; [exact Hr|]. eapply good_trans; [exact Hn|].
    by apply settle_invoke_good. }
  destruct (_ <=? _); [done|]. destruct p; [by apply Hset|done|by apply Hset].
Qed.

Lemma perform_keeps s : keeps s.
Proof.
  apply (script_nested_ind keeps (fun o => forall w, wf w -> good w (do_op w o))).
  - intros ops e Hops w Hwf. rewrite perform_unfold. revert w Hwf.
    induction Hops as [|o ops Ho _ IH]; intros w Hwf; simpl; [by apply good_refl|].
    destruct (Ho w Hwf) as [H1 H2]. eapply good_trans; [split; [exact H1|exact H2]|by apply IH].
  - intros f g w Hwf. simpl. eapply good_trans; [exact (register_good w f g Hwf)|].
    apply same_tables_good; try done. apply (register_good w f g Hwf).
  - intros f w. apply stream_read_good.
  - intros ws f w Hwf. by apply same_tables_good.
  - intros f g p s1 s2 K1 K2 w Hwf. by apply invoke_good.
Qed.

(** *** Messages *)

Section Correct.
Context (json_parse : string -> option Value).

Lemma settle_good w id a s1 s2 : wf w -> good w (settle w id a s1 s2).
Proof. intros. destruct a; by apply binding_callbacks_good; try apply perform_keeps. Qed.

Lemma call_nobody_good w c s : wf w -> (forall id, about id c = false) -> good w (call_guest w c s).
Proof.
  intros Hwf Hc. pose proof (log_nobody w c (ending s) Hwf Hc) as Hl.
  eapply good_trans; [exact Hl|]. by apply perform_keeps, Hl.
Qed.

Lemma stream_chunk_good w id chunk t n s1 s2 :
  wf w -> good w (dispatch json_parse w (StreamChunk id chunk) t n s1 s2).
Proof.
  intros Hwf. simpl. change (mkWorld _ _ (delete id _) _ _ _ _ _) with (remove_stream w id).
  pose proof (remove_stream_good w id Hwf) as Hr. destruct (stream w !! id) as [f|] eqn:Hf; [|done].
  assert (waiting w id) as Hw by (right; by eexists). destruct (wf_waiting _ Hwf id Hw) as [Hid Hs].
  eapply answer_good; [apply perform_keeps|exact Hr|done| |done|done|done].
  intros [H|H]; simpl in H.
  - rewrite (wf_apart _ Hwf id H) in Hf. done.
  - rewrite lookup_delete_is_Some in H. tauto.
Qed.

Lemma dispatch_ws_event_good w ws incoming s : wf w -> good w (dispatch_ws_event w ws incoming s).
Proof.
  intros Hwf. unfold dispatch_ws_event.
  set (w1 := match incoming with Closed _ _ => _ | _ => _ end).
  assert (good w w1) as Hg.
  { unfold w1. destruct incoming; try by apply good_refl. by apply same_tables_good. }
  destruct (ws_event w !! ws) as [f|]; [|done].
  eapply good_trans; [exact Hg|]. apply call_nobody_good; [apply Hg|done].
Qed.

Lemma dispatch_good w m t n s1 s2 : wf w -> good w (dispatch json_parse w m t n s1 s2).
Proof.
  intros Hwf. pose proof perform_keeps as K. destruct m as [id|id|id e|id meta sid|id meta ws|id chunk| | | |id r| | | | |ws inc].
  all: try (unfold dispatch; destruct (binding_answer _ _ _) as [[i a]|];
            [by apply settle_good|by apply good_refl]).
  - simpl. destruct t; [by apply call_nobody_good|by apply good_refl].
  - simpl. destruct t; [by apply call_nobody_good|by apply good_refl].
  - simpl. destruct (fetch_error w !! id) as [g|] eqn:Hg; [|by apply remove_pair_good].
    by apply reject_good.
  - simpl. destruct (fetch w !! id) as [f|] eqn:Hf; [|by apply remove_pair_good].
    by apply (resolve_good w id f (fetch_error w !! id) _ s1 s2).
  - simpl. destruct (fetch w !! id) as [f|] eqn:Hf; [|by apply remove_pair_good].
    assert (good w (let w1 := call_guest (remove_pair w id)
      (CResolve id f (VObject (populate_upgrade_meta [] meta ws))) s1 in
      match ending s1, @None Fn with
      | Threw x, Some g => call_guest w1 (CReject id g x) s2 | _, _ => w1 end)) as H
      by by apply (resolve_good w id f None _ s1 s2).
    simpl in H. by destruct (ending s1).
  - by apply stream_chunk_good.
  - by apply settle_invoke_good.
  - by apply dispatch_ws_event_good.
Qed.

Lemma reset_good w : wf w -> good w (reset w).
Proof.
  intros [P A W F O].
  assert (forall id, ~ waiting (reset w) id) as Hn.
  { intros id [H|H]; simpl in H; rewrite lookup_empty in H; by destruct H. }
  split.
  - constructor; simpl; try done.
    intros id Hid. by destruct (Hn id).
  - split; [done|]. intros id _ _. split; [apply Hn|done].
Qed.

Lemma dispatch_step_good w l : wf w -> good w (step json_parse w l).
Proof.
  intros Hwf. destruct l; simpl.
  - by apply perform_keeps.
  - by apply dispatch_good.
  - by apply same_tables_good.
  - by apply reset_good.
Qed.

Lemma dispatch_run_good ls : forall w, wf w -> good w (run json_parse w ls).
Proof.
  induction ls as [|l ls IH]; intros w Hwf; simpl; [by apply good_refl|].
  destruct (dispatch_step_good w l Hwf) as [H1 H2]. eapply good_trans; [by split|by apply IH].
Qed.

Lemma tables_initial_wf : wf initial.
Proof.
  constructor; try done.
  - intros id [H|H]; simpl in H; rewrite lookup_empty in H; by destruct H.
  - intros id. by left.
Qed.

Lemma dispatch_run_wf ls : wf (run json_parse initial ls).
Proof. apply dispatch_run_good, tables_initial_wf. Qed.

(** C13: a promise is answered at most once. Whatever guest code does, nested
    calls and inline invokes included, and whatever messages arrive, duplicates and
    late ones included, over any number of requests of a context: each callback id
    gets no call; or one call, of its resolve or its reject; or two, a resolve that
    threw and then the reject with what it threw (a resolve that throws is not always
    followed by its reject, see [thrown_upgrade_is_lost]); and a promise that still
    waits got no call. *)
Theorem promises_settle_once (ls : list label) (id : CallbackId) :
  once id (settlements (run json_parse initial ls) id) /\
  (waiting (run json_parse initial ls) id -> settlements (run json_parse initial ls) id = []).
Proof.
  pose proof (dispatch_run_wf ls) as H. split; [apply (wf_once _ H)|apply (wf_waiting _ H)].
Qed.

(** *** Answers *)

(** What each message owes its promise. *)
Definition answer (m : CallbackMessage) (new_stream : Z) : option (CallbackId * (string + Value)) :=
  match m with
  | FetchError id e => Some (id, inl e)
  | FetchStreamingSuccess id meta sid => Some (id, inr (VObject (populate_fetch_meta [] meta sid)))
  | BindingUpgrade id meta ws => Some (id, inr (VObject (populate_upgrade_meta [] meta ws)))
  | InvokeAnswer id r =>
      Some (id, match invoke_sides r with
                | (Some e, _) => inl e
                | (None, v) => inr (default VNull v)
                end)
  | _ => binding_answer json_parse m new_stream
  end.

(** Whether a resolve that throws rejects the promise. *)
Definition throw_rejects (m : CallbackMessage) : bool :=
  match m with BindingUpgrade _ _ _ => false | _ => true end.

(** The calls that settle a promise with the functions [f] and [g]. *)
Definition settled_by (id : CallbackId) (f g : Fn) (a : string + Value) (rejects : bool)
    (e1 e2 : Guest) : list (call * Guest) :=
  match a with
  | inl e => [(CReject id g (VError e), e2)]
  | inr v =>
      (CResolve id f v, e1) ::
      match e1 with Threw x => if rejects then [(CReject id g x, e2)] else [] | _ => [] end
  end.

Lemma reject_calls w id f g v s :
  wf w -> fetch w !! id = Some f ->
  ~ waiting (call_guest (remove_pair w id) (CReject id g v) s) id /\
  settlements (call_guest (remove_pair w id) (CReject id g v) s) id =
    [(CReject id g v, ending s)].
Proof.
  intros Hwf Hf. destruct (pair_taken w id Hwf) as (Hw & Hg & Hn & Hs & Hid); [by eexists|].
  apply (answer_good w (remove_pair w id) (CReject id g v) s id); auto using perform_keeps.
Qed.

Lemma resolve_calls w id f g v s1 s2 (rejects : bool) :
  wf w -> fetch w !! id = Some f ->
  let w1 := call_guest (remove_pair w id) (CResolve id f v) s1 in
  let w2 := match ending s1 with
            | Threw x => if rejects then call_guest w1 (CReject id g x) s2 else w1
            | _ => w1
            end in
  ~ waiting w2 id /\ settlements w2 id = settled_by id f g (inr v) rejects (ending s1) (ending s2).
Proof.
  intros Hwf Hf w1 w2. destruct (pair_taken w id Hwf) as (Hw & Hg & Hn & Hs & Hid); [by eexists|].
  destruct (answer_good w _ (CResolve id f v) s1 id (perform_keeps s1) Hg Hw Hn Hs Hid)
    as ([Hw1 [Hle _]] & N1 & S1); [done|].
  fold w1 in Hw1, Hle, N1, S1. unfold w2, settled_by.
  destruct (ending s1) as [|x|] eqn:He; [by rewrite S1| |by rewrite S1].
  destruct rejects; [|by rewrite S1].
  assert (id < next_id w1) as Hid1 by (destruct (wf_waiting _ Hwf id Hw); lia).
  assert (wf (log w1 (CReject id g x) (ending s2))) as Hl.
  { eapply log_wf; eauto. rewrite S1. right. right. by repeat eexists. }
  destruct (perform_keeps s2 _ Hl) as [_ [_ H2]]. destruct (H2 id Hid1 N1) as [H3 H4].
  split; [exact H3|]. unfold call_guest at 1, call_guest_with. rewrite H4, settlements_log, S1. simpl.
  by rewrite bool_decide_true.
Qed.

Lemma callbacks_calls w id f g a s1 s2 :
  wf w -> fetch w !! id = Some f -> fetch_error w !! id = Some g ->
  ~ waiting (settle w id a s1 s2) id /\
  settlements (settle w id a s1 s2) id = settled_by id f g a true (ending s1) (ending s2).
Proof.
  intros Hwf Hf Hg. unfold settle, dispatch_binding_callbacks, dispatch_binding_callbacks_with.
  rewrite Hf, Hg. destruct a as [e|v].
  - by apply (reject_calls w id f g (VError e) s2).
  - by apply (resolve_calls w id f g v s1 s2 true).
Qed.

(** An answer reaches its promise, and only it. For every message that
    answers a callback whose promise waits, the dispatch calls the resolve function
    with the value, or the reject function with the error, and the reject function
    with the exception when the resolve function threw (an upgrade excepted); then
    the promise no longer waits, and every promise that had its answer keeps it. *)
Theorem answers_reach_their_promise (ls : list label) m t n s1 s2 id a f g :
  let w := run json_parse initial ls in
  let w' := dispatch json_parse w m t n s1 s2 in
  answer m n = Some (id, a) -> fetch w !! id = Some f -> fetch_error w !! id = Some g ->
  ~ waiting w' id /\
  settlements w' id = settled_by id f g a (throw_rejects m) (ending s1) (ending s2) /\
  forall i, i < next_id w -> ~ waiting w i -> settlements w' i = settlements w i.
Proof.
  intros w w' Ha Hf Hg. pose proof (dispatch_run_wf ls) as Hwf. fold w in Hwf.
  assert (later w w') as [_ Hl] by by apply dispatch_good.
  cut (~ waiting w' id /\ settlements w' id = settled_by id f g a (throw_rejects m) (ending s1) (ending s2)).
  { intros [? ?]. split_and!; [done|done|]. intros i Hi Hnw. by apply Hl. }
  unfold w'. clear Hl w'. destruct m; try discriminate Ha.
  all: try (unfold dispatch; unfold answer in Ha; rewrite Ha; by apply callbacks_calls).
  - injection Ha as -> <-. unfold dispatch. rewrite Hg. by apply (reject_calls w id f g _ s2).
  - injection Ha as -> <-. unfold dispatch. rewrite Hf, Hg.
    by apply (resolve_calls w id f g _ s1 s2 true).
  - injection Ha as -> <-. unfold dispatch. rewrite Hf.
    pose proof (resolve_calls w id f g (VObject (populate_upgrade_meta [] meta0 ws)) s1 s2 false Hwf Hf) as H.
    simpl in *. by destruct (ending s1).
  - unfold answer in Ha. simpl. unfold settle_invoke, settle_invoke_with.
    destruct r as [e|[] p]; simpl in *; injection Ha as -> <-.
    + by apply (callbacks_calls w id f g (inl e) s1 s2).
    + by apply (callbacks_calls w id f g (inr (default VNull p)) s1 s2).
    + by apply (callbacks_calls w id f g (inl _) s1 s2).
Qed.

(** The callback a message answers. *)
Definition callback_of (m : CallbackMessage) : option CallbackId :=
  match m with
  | ExecuteTimeout _ | ExecuteInterval _ | WebSocketEvent _ _ => None
  | FetchError id _ | FetchStreamingSuccess id _ _ | BindingUpgrade id _ _ | StreamChunk id _
  | StorageResult id _ | KvResult id _ | DatabaseResult id _ | InvokeAnswer id _
  | D1Answer id _ | ObjectStorage id _ | WebSocketConnected id _ | WebSocketConnectError id _ =>
      Some id
  end.

Lemma binding_answer_id m n id a : binding_answer json_parse m n = Some (id, a) -> callback_of m = Some id.
Proof. destruct m as [| | | | | |? r|? r|? r| |? r|? r| | |]; simpl; try done; try destruct r; simpl; by intros [= <- <-]. Qed.

Lemma settle_nobody w id a s1 s2 :
  fetch w !! id = None -> fetch_error w !! id = None -> calls (settle w id a s1 s2) = calls w.
Proof.
  intros Hf Hg. unfold settle, dispatch_binding_callbacks, dispatch_binding_callbacks_with.
  rewrite Hf, Hg. by destruct a.
Qed.

(** A message whose promise does not wait calls no guest code. *)
Lemma dispatch_nobody w m t n s1 s2 id :
  wf w -> callback_of m = Some id -> ~ waiting w id ->
  calls (dispatch json_parse w m t n s1 s2) = calls w.
Proof.
  intros Hwf Hc Hn.
  assert (fetch w !! id = None) as Hf by (apply eq_None_not_Some; intros H; apply Hn; by left).
  assert (stream w !! id = None) as Hs by (apply eq_None_not_Some; intros H; apply Hn; by right).
  assert (fetch_error w !! id = None) as Hg.
  { apply eq_None_not_Some. rewrite <-(wf_pairs _ Hwf). intros H. apply Hn. by left. }
  destruct m; try discriminate Hc.
  all: try (unfold dispatch; destruct (binding_answer json_parse _ n) as [[i a]|] eqn:Hb;
            [apply binding_answer_id in Hb; rewrite Hc in Hb; injection Hb as <-; by apply settle_nobody|done]).
  all: injection Hc as ->; simpl; rewrite ?Hf, ?Hg, ?Hs; try done.
  unfold settle_invoke, settle_invoke_with. destruct (invoke_sides r) as [[e|] v];
    unfold dispatch_binding_callbacks_with; rewrite ?Hf, ?Hg; [done|by destruct v].
Qed.

(** An answer to an earlier request finds no callback. After a reset, and
    whatever the next requests of the context do, a message for a callback that was
    registered before the reset calls no guest code: the ids keep counting, so no
    later promise can have the id. *)
Theorem late_answers_find_nothing (ls ls' : list label) m t n s1 s2 id :
  let w := run json_parse initial ls in
  let w' := run json_parse (reset w) ls' in
  callback_of m = Some id -> id < next_id w ->
  calls (dispatch json_parse w' m t n s1 s2) = calls w'.
Proof.
  intros w w' Hc Hid. pose proof (reset_good w (dispatch_run_wf ls)) as [Hr _].
  destruct (dispatch_run_good ls' (reset w) Hr) as [Hw' [_ Hl]].
  apply (dispatch_nobody w' m t n s1 s2 id Hw' Hc). apply Hl; [done|].
  intros [H|H]; simpl in H; rewrite lookup_empty in H; by destruct H.
Qed.

End Correct.

(** *** Concrete executions *)

Definition quiet : script := Script [] Returned.

(** A request starts two calls, and an invoke whose resolve starts a third. *)
Definition demo : list label :=
  [LRound; LGuest (Script [Await 10 11; Await 20 21; Invoke 30 31 (Ready (InvokeValue true None))
                             (Script [Await 40 41] Returned) quiet] Returned)].

Definition demo_meta : HttpResponseMeta := mkMeta 204 "No Content" [].

Lemma answers_reach_their_promise_witness :
  settlements (dispatch (fun _ => None) (run (fun _ => None) initial demo)
    (FetchStreamingSuccess 1 demo_meta 7) true 0 (Script [] (Threw (VError "bad"))) quiet) 1 =
  [(CResolve 1 10 (VObject (populate_fetch_meta [] demo_meta 7)), Threw (VError "bad"));
   (CReject 1 11 (VError "bad"), Returned)].
Proof.
  destruct (answers_reach_their_promise (fun _ => None) demo (FetchStreamingSuccess 1 demo_meta 7) true 0
    (Script [] (Threw (VError "bad"))) quiet 1
    (inr (VObject (populate_fetch_meta [] demo_meta 7))) 10 11) as (_ & H & _);
    [by vm_compute..|exact H].
Defined.

Lemma late_answers_find_nothing_witness :
  let w := run (fun _ => None) initial demo in
  let w' := run (fun _ => None) (reset w) demo in
  calls (dispatch (fun _ => None) w' (FetchError 2 "late") true 0 quiet quiet) = calls w'.
Proof.
  apply (late_answers_find_nothing (fun _ => None) demo demo (FetchError 2 "late") true 0 quiet quiet 2);
    by vm_compute.
Defined.

Lemma promises_settle_once_witness :
  waiting (run (fun _ => None) initial demo) 4 /\
  settlements (run (fun _ => None) initial demo) 4 = [].
Proof.
  assert (waiting (run (fun _ => None) initial demo) 4) as Hw by (left; exists 40; by vm_compute).
  split; [exact Hw|]. by apply (promises_settle_once (fun _ => None) demo 4).
Defined.

(** An upgrade whose resolve function throws: the promise left its table and got
    neither a value nor the exception, so it stays pending for good. *)
Example thrown_upgrade_is_lost :
  let w := dispatch (fun _ => None) (run (fun _ => None) initial demo)
             (BindingUpgrade 1 demo_meta 5) true 0 (Script [] (Threw (VError "bad"))) quiet in
  fetch w !! 1 = None /\ fetch_error w !! 1 = None /\
  settlements w 1 =
    [(CResolve 1 10 (VObject (populate_upgrade_meta [] demo_meta 5)), Threw (VError "bad"))].
Proof. vm_compute. done. Qed.

End Dispatch.
