(* ===== verification/Gc.v ===== *)
(** * External memory of an isolate

    src/src/gc/js_lock.rs and src/src/gc/external_memory.rs: guards that tell V8
    how much memory lives outside its heap, at once under the lock of an isolate,
    through the accumulator of the isolate otherwise. The V8 mutex is the
    [JsLock]'s precondition; [told] is the sum of what V8 was told. *)

From stdpp Require Import base list gmap fin_maps relations.
From Stdlib Require Import ZArith Lia.
From S2P Require Import Prelude.

Module Gc.

Open Scope Z_scope.

Definition Isolate := nat.
Definition Thread := nat.

(** [ExternalMemoryGuard]; [pending_delta] is the isolate it captured. *)
Record Guard := mkGuard {
  amount : Z;
  pending_delta : option Isolate;
  dropped : bool
}.

(** [JsLock], with the state of the thread it saved. *)
Record JsLock := mkLock {
  on : Thread;
  isolate : Isolate;
  previous : option Isolate;
  released : bool
}.

(** [CURRENT_STATE] of each thread, the accumulators, what each V8 isolate was
    told, and the guards and locks alive. *)
Record World := mkWorld {
  current : gmap Thread Isolate;
  pending : gmap Isolate Z;
  told : gmap Isolate Z;
  guards : list Guard;
  locks : list JsLock
}.

Definition initial : World := mkWorld ∅ ∅ ∅ [] [].

Definition at_ (m : gmap Isolate Z) (i : Isolate) : Z := default 0 (m !! i).

(** [adjust_external_memory] *)
Definition adjust_external_memory (w : World) (i : Isolate) (delta : Z) : World :=
  if delta =? 0 then w
  else mkWorld (current w) (pending w) (<[i := at_ (told w) i + delta]> (told w)) (guards w) (locks w).

(** [pending.fetch_add], on an [AtomicI64]. *)
Definition fetch_add (w : World) (i : Isolate) (delta : Z) : World :=
  mkWorld (current w) (<[i := wrap_i64 (at_ (pending w) i + delta)]> (pending w)) (told w)
    (guards w) (locks w).

Definition set_guards (w : World) (gs : list Guard) : World :=
  mkWorld (current w) (pending w) (told w) gs (locks w).

(** [JsLock::new]: what was deferred is applied, and the thread knows its lock. *)
Definition lock_new (w : World) (t : Thread) (i : Isolate) : World :=
  let p := at_ (pending w) i in
  let w1 := mkWorld (current w) (<[i := 0]> (pending w)) (told w) (guards w) (locks w) in
  let w2 := adjust_external_memory w1 i p in
  mkWorld (<[t := i]> (current w2)) (pending w2) (told w2) (guards w2)
    (locks w2 ++ [mkLock t i (current w !! t) false]).

(** [JsLock::drop] *)
Definition lock_drop (w : World) (k : nat) : option World :=
  l ← locks w !! k;
  if released l then None
  else Some (mkWorld (match previous l with
                      | Some i => <[on l := i]> (current w)
                      | None => delete (on l) (current w)
                      end)
               (pending w) (told w) (guards w)
               (<[k := mkLock (on l) (isolate l) (previous l) true]> (locks w))).

(** [ExternalMemoryGuard::new] *)
Definition guard_new (w : World) (t : Thread) (a : Z) : World :=
  match current w !! t with
  | Some i =>
      let w := adjust_external_memory w i a in
      set_guards w (guards w ++ [mkGuard a (Some i) false])
  | None => set_guards w (guards w ++ [mkGuard a None false])
  end.

(** [ExternalMemoryGuard::empty] *)
Definition guard_empty (w : World) (t : Thread) : World :=
  set_guards w (guards w ++ [mkGuard 0 (current w !! t) false]).

(** [ExternalMemoryGuard::adjust] *)
Definition adjust (w : World) (t : Thread) (k : nat) (delta : Z) : option World :=
  g ← guards w !! k;
  if dropped g then None
  else if delta =? 0 then Some w
  else
    let a := wrap_i64 (amount g + delta) in
    Some (match current w !! t with
          | Some i =>
              let captured := match pending_delta g with Some j => Some j | None => Some i end in
              set_guards (adjust_external_memory w i delta)
                (<[k := mkGuard a captured false]> (guards w))
          | None =>
              let w' := match pending_delta g with Some i => fetch_add w i delta | None => w end in
              set_guards w' (<[k := mkGuard a (pending_delta g) false]> (guards w))
          end).

(** [ExternalMemoryGuard::set] *)
Definition set_amount (w : World) (t : Thread) (k : nat) (n : Z) : option World :=
  g ← guards w !! k; adjust w t k (wrap_i64 (n - amount g)).

(** [ExternalMemoryGuard::drop] *)
Definition guard_drop (w : World) (t : Thread) (k : nat) : option World :=
  g ← guards w !! k;
  if dropped g then None
  else
    let gs := <[k := mkGuard (amount g) (pending_delta g) true]> (guards w) in
    if amount g =? 0 then Some (set_guards w gs)
    else Some (match current w !! t, pending_delta g with
               | Some i, _ => set_guards (adjust_external_memory w i (wrap_i64 (- amount g))) gs
               | None, Some i => set_guards (fetch_add w i (wrap_i64 (- amount g))) gs
               | None, None => set_guards w gs
               end).

(** ** Executions *)

Inductive label :=
| LLock (t : Thread) (i : Isolate)
| LUnlock (k : nat)
| LNew (t : Thread) (a : Z)
| LEmpty (t : Thread)
| LAdjust (t : Thread) (k : nat) (delta : Z)
| LSet (t : Thread) (k : nat) (n : Z)
| LDrop (t : Thread) (k : nat).

Definition step_to (w : World) (l : label) : option World :=
  match l with
  | LLock t i => Some (lock_new w t i)
  | LUnlock k => lock_drop w k
  | LNew t a => Some (guard_new w t a)
  | LEmpty t => Some (guard_empty w t)
  | LAdjust t k delta => adjust w t k delta
  | LSet t k n => set_amount w t k n
  | LDrop t k => guard_drop w t k
  end.

(** A guard is used under no lock, or under the lock of its own isolate. *)
Definition at_home (w : World) (t : Thread) (k : nat) : bool :=
  match current w !! t, guards w !! k ≫= pending_delta with
  | None, _ => true
  | Some i, Some j => Nat.eqb i j
  | Some _, None => false
  end.

(** Guards are made under a lock (one made under none tracks nothing) and used at
    home. *)
Definition disciplined (w : World) (l : label) : bool :=
  match l with
  | LLock _ _ | LUnlock _ => true
  | LNew t _ | LEmpty t => match current w !! t with Some _ => true | None => false end
  | LAdjust t k _ | LSet t k _ | LDrop t k => at_home w t k
  end.

Definition careful (w : World) (l : label) : option World :=
  if disciplined w l then step_to w l else None.

(** ** The balance of an isolate *)

Definition counts (i : Isolate) (g : Guard) : Z :=
  if dropped g then 0 else if decide (pending_delta g = Some i) then amount g else 0.

(** What the guards of an isolate hold. *)
Definition held (i : Isolate) (gs : list Guard) : Z := foldr (fun g n => counts i g + n) 0 gs.

(** What V8 was told and what waits is what the guards hold, in 64 bits; every
    guard knows its isolate. *)
Record balanced (w : World) : Prop := {
  bal_sum : forall i, exists k, at_ (told w) i + at_ (pending w) i = held i (guards w) + k * 2 ^ 64;
  bal_known : Forall (fun g => is_Some (pending_delta g)) (guards w)
}.

Lemma wrap_i64_shift z : exists k, wrap_i64 z = z + k * 2 ^ 64.
Proof.
  unfold wrap_i64. pose proof (Z.div_mod (z + 2 ^ 63) (2 ^ 64) ltac:(lia)) as H.
  exists (- ((z + 2 ^ 63) / 2 ^ 64)). lia.
Qed.

Lemma held_app i gs g : held i (gs ++ [g]) = held i gs + counts i g.
Proof. induction gs as [|x gs IH]; simpl; [lia|]. fold (held i gs). unfold held in *. lia. Qed.

Lemma held_insert i k gs g g' :
  gs !! k = Some g -> held i (<[k := g']> gs) = held i gs - counts i g + counts i g'.
Proof.
  revert k. induction gs as [|x gs IH]; intros [|k] H; simplify_eq/=; [lia|].
  unfold held in *. rewrite (IH k H). lia.
Qed.

Lemma at_insert m i j z : at_ (<[i := z]> m) j = if decide (i = j) then z else at_ m j.
Proof. unfold at_. rewrite lookup_insert. by case_decide. Qed.

Lemma told_adjust w i d j :
  at_ (told (adjust_external_memory w i d)) j = at_ (told w) j + if decide (i = j) then d else 0.
Proof.
  unfold adjust_external_memory. destruct (Z.eqb_spec d 0) as [->|]; [case_decide; lia|].
  simpl. rewrite at_insert. case_decide; subst; lia.
Qed.

Lemma adjust_keeps w i d :
  pending (adjust_external_memory w i d) = pending w /\
  guards (adjust_external_memory w i d) = guards w /\
  current (adjust_external_memory w i d) = current w /\
  locks (adjust_external_memory w i d) = locks w.
Proof. unfold adjust_external_memory. by destruct (d =? 0). Qed.

(** An operation that moves the sum as it moves what the guards hold. *)
Lemma balanced_change w w' :
  balanced w -> Forall (fun g => is_Some (pending_delta g)) (guards w') ->
  (forall j, exists k, at_ (told w') j + at_ (pending w') j - (at_ (told w) j + at_ (pending w) j) =
                       held j (guards w') - held j (guards w) + k * 2 ^ 64) ->
  balanced w'.
Proof.
  intros [Hs _] Hk H. split; [|done]. intros j. destruct (Hs j) as [a Ha], (H j) as [b Hb].
  exists (a + b). lia.
Qed.

Lemma lock_new_balanced w t i : balanced w -> balanced (lock_new w t i).
Proof.
  intros Hb. unfold lock_new. set (w1 := mkWorld _ (<[i := 0]> _) _ _ _). 
  destruct (adjust_keeps w1 i (at_ (pending w) i)) as (Ep & Eg & _ & _).
  apply (balanced_change w); [done|simpl; rewrite Eg; apply Hb|]. intros j. exists 0. simpl.
  rewrite told_adjust, Ep, Eg. simpl. rewrite at_insert. case_decide; subst; lia.
Qed.

Lemma lock_drop_balanced w k w' : balanced w -> lock_drop w k = Some w' -> balanced w'.
Proof.
  intros Hb H. unfold lock_drop in H. step_cases H.
  all: apply (balanced_change w); [done|apply Hb|]; intros i; exists 0; simpl; lia.
Qed.

Lemma guard_new_balanced w t i a :
  balanced w -> current w !! t = Some i -> balanced (guard_new w t a).
Proof.
  intros Hb Hc. unfold guard_new. rewrite Hc. destruct (adjust_keeps w i a) as (Ep & Eg & _ & _).
  apply (balanced_change w); [done|simpl; rewrite Eg|].
  - apply Forall_app. split; [apply Hb|]. repeat constructor. simpl. by eexists.
  - intros j. exists 0. simpl. rewrite told_adjust, Ep, Eg, held_app. unfold counts. simpl.
    repeat case_decide; simplify_eq; lia.
Qed.

Lemma guard_empty_balanced w t i :
  balanced w -> current w !! t = Some i -> balanced (guard_empty w t).
Proof.
  intros Hb Hc. apply (balanced_change w); [done|simpl|].
  - apply Forall_app. split; [apply Hb|]. repeat constructor. simpl. rewrite Hc. by eexists.
  - intros j. exists 0. simpl. rewrite held_app. unfold counts. simpl. case_decide; lia.
Qed.

(** A guard of isolate [i] changes by [d], told at once or deferred. *)
Lemma change_balanced w t k g i a (dead : bool) d :
  balanced w -> guards w !! k = Some g -> dropped g = false -> pending_delta g = Some i ->
  (exists m, d = (if dead then 0 else a) - amount g + m * 2 ^ 64) ->
  at_home w t k = true ->
  balanced (set_guards (match current w !! t with
                        | Some j => adjust_external_memory w j d
                        | None => fetch_add w i d
                        end) (<[k := mkGuard a (Some i) dead]> (guards w))).
Proof.
  intros Hb Hg Hdr Hp [m Hd] Hh. apply (balanced_change w); [done|simpl|].
  - apply Forall_insert; [apply Hb|]. by eexists.
  - intros j. simpl. rewrite (held_insert j k (guards w) g) by done. unfold counts. simpl.
    rewrite Hdr, Hp. unfold at_home in Hh. rewrite Hg in Hh. simpl in Hh. rewrite Hp in Hh.
    destruct (current w !! t) as [i'|].
    + apply Nat.eqb_eq in Hh as ->. rewrite told_adjust.
      destruct (adjust_keeps w i d) as (Ep & _). rewrite Ep. 
      destruct (decide (i = j)) as [->|Hne].
      * rewrite !decide_True by done. exists m. destruct dead; lia.
      * rewrite !decide_False by congruence. exists 0. destruct dead; lia.
    + simpl. rewrite at_insert. destruct (decide (i = j)) as [->|Hne].
      * rewrite !decide_True by done. destruct (wrap_i64_shift (at_ (pending w) j + d)) as [m' Hm'].
        exists (m + m'). destruct dead; lia.
      * rewrite !decide_False by congruence. exists 0. destruct dead; lia.
Qed.

Lemma adjust_balanced w t k d w' :
  balanced w -> at_home w t k = true -> adjust w t k d = Some w' -> balanced w'.
Proof.
  intros Hb Hh H. unfold adjust in H. destruct (guards w !! k) as [g|] eqn:Hg; [|done]. simpl in H.
  destruct (dropped g) eqn:Hdr; [done|]. destruct (d =? 0); [by simplify_eq|].
  destruct (wrap_i64_shift (amount g + d)) as [m Hm].
  assert (is_Some (pending_delta g)) as [i Hp].
  { exact (Forall_lookup_1 _ _ _ _ (bal_known _ Hb) Hg). }
  pose proof (change_balanced w t k g i (wrap_i64 (amount g + d)) false d Hb Hg Hdr Hp
                ltac:(exists (- m); lia) Hh) as Hc.
  rewrite Hp in H. by destruct (current w !! t); simplify_eq.
Qed.

Lemma guard_drop_balanced w t k w' :
  balanced w -> at_home w t k = true -> guard_drop w t k = Some w' -> balanced w'.
Proof.
  intros Hb Hh H. unfold guard_drop in H. destruct (guards w !! k) as [g|] eqn:Hg; [|done]. simpl in H.
  destruct (dropped g) eqn:Hdr; [done|].
  assert (is_Some (pending_delta g)) as [i Hp].
  { exact (Forall_lookup_1 _ _ _ _ (bal_known _ Hb) Hg). }
  destruct (wrap_i64_shift (- amount g)) as [m Hm].
  pose proof (change_balanced w t k g i (amount g) true (wrap_i64 (- amount g)) Hb Hg Hdr Hp
                ltac:(exists m; lia) Hh) as Hc.
  destruct (Z.eqb_spec (amount g) 0) as [E|E].
  - simplify_eq. apply (balanced_change w); [done|simpl|].
    + apply Forall_insert; [apply Hb|]. rewrite Hp. by eexists.
    + intros j. exists 0. simpl. rewrite (held_insert j k (guards w) g) by done.
      unfold counts. simpl. rewrite Hdr, E. case_decide; lia.
  - rewrite Hp in H. by destruct (current w !! t); simplify_eq.
Qed.

Lemma careful_balanced w l w' : balanced w -> careful w l = Some w' -> balanced w'.
Proof.
  intros Hb H. unfold careful in H. destruct (disciplined w l) eqn:Hd; [|done].
  destruct l as [t i|k|t a|t|t k d|t k n|t k]; simpl in *.
  - simplify_eq. by apply lock_new_balanced.
  - by eapply lock_drop_balanced.
  - destruct (current w !! t) as [i|] eqn:Hc; [|done]. simplify_eq. by eapply guard_new_balanced.
  - destruct (current w !! t) as [i|] eqn:Hc; [|done]. simplify_eq. by eapply guard_empty_balanced.
  - by eapply adjust_balanced.
  - unfold set_amount in H. step_cases H. by eapply adjust_balanced.
  - by eapply guard_drop_balanced.
Qed.

Definition reach : World -> Prop :=
  reachable (eq initial) (fun w w' => exists l, careful w l = Some w').

Lemma reach_balanced w : reach w -> balanced w.
Proof.
  apply reachable_invariant.
  - intros ? <-. split; [|done]. intros i. exists 0. done.
  - intros s s' Hb [l Hl]. by eapply careful_balanced.
Qed.

Lemma held_none i gs : Forall (fun g => dropped g = true) gs -> held i gs = 0.
Proof.
  intros H. induction H as [|g gs Hg _ IH]; [done|]. change (counts i g + held i gs = 0).
  rewrite IH. unfold counts. by rewrite Hg.
Qed.

Lemma lock_new_told w t i :
  at_ (told (lock_new w t i)) i = at_ (told w) i + at_ (pending w) i /\
  at_ (pending (lock_new w t i)) i = 0.
Proof.
  unfold lock_new. set (w1 := mkWorld _ (<[i := 0]> _) _ _ _).
  destruct (adjust_keeps w1 i (at_ (pending w) i)) as (Ep & _). simpl. rewrite told_adjust, Ep. simpl.
  rewrite at_insert, !decide_True by done. done.
Qed.

(** C27: no external memory is counted twice or forgotten. When guards are made
    under a lock and used under no lock or under the lock of their own isolate, on
    any threads, then as soon as an isolate is locked V8 has been told, in 64 bits,
    exactly what the live guards of this isolate hold, deferred drops included, and
    nothing when they are all dropped. *)
Theorem external_memory_balances w t i :
  reach w ->
  (exists k, at_ (told (lock_new w t i)) i = held i (guards w) + k * 2 ^ 64) /\
  (Forall (fun g => dropped g = true) (guards w) ->
     exists k, at_ (told (lock_new w t i)) i = k * 2 ^ 64).
Proof.
  intros Hr. pose proof (reach_balanced w Hr) as Hb. destruct (lock_new_told w t i) as [Et _].
  assert (exists k, at_ (told (lock_new w t i)) i = held i (guards w) + k * 2 ^ 64) as H.
  { rewrite Et. apply (bal_sum _ Hb). }
  split; [done|]. intros Hd. rewrite (held_none i _ Hd) in H. by setoid_rewrite Z.add_0_l in H.
Qed.

(** Two isolates, guards of both; the one of isolate 0 shrinks and drops on
    another thread, without its lock. *)
Definition demo : list label :=
  [LLock 0 0; LNew 0 1000%Z; LLock 1 1; LNew 1 30%Z; LUnlock 0; LSet 2 0 400%Z; LDrop 2 0]%nat.

Definition demo_world : World := default initial (run_steps careful initial demo).

Lemma external_memory_balances_witness :
  exists k, at_ (told (lock_new demo_world 0%nat 0%nat)) 0%nat =
            held 0%nat (guards demo_world) + k * 2 ^ 64.
Proof.
  refine (proj1 (external_memory_balances demo_world 0%nat 0%nat _)).
  eapply (run_steps_reachable careful (eq initial) initial demo); [done|]. by vm_compute.
Defined.

(** The lock of another isolate: a guard of isolate 0 that drops while its thread
    holds the lock of isolate 1 takes its bytes from isolate 1, although it
    captured isolate 0. *)
Example foreign_lock_charges_the_wrong_isolate :
  exists w, run_steps step_to initial 
      [LLock 0 0; LNew 0 1000%Z; LUnlock 0; LLock 0 1; LDrop 0 0; LUnlock 1]%nat = Some w /\
    at_ (told (lock_new w 0%nat 0%nat)) 0%nat = 1000 /\
    at_ (told (lock_new w 0%nat 1%nat)) 1%nat = -1000 /\
    Forall (fun g => dropped g = true) (guards w).
Proof. eexists. split; [by vm_compute|]. split_and!; try by vm_compute. by repeat constructor. Qed.

End Gc.
