(* ===== verification/Traceable.v ===== *)
(** * Sizes of external memory (src/src/gc/traceable.rs, src/gc-derive/src/lib.rs)

    The trait by which a value says how much memory it holds outside the V8 heap, with
    its implementations for the containers of the standard library, the body its derive
    macro generates, and [Tracked], a value with a guard of Gc.v. A container is its
    contents with what the size depends on: the capacity of a vector or string, the
    number of strong references of an [Rc] or [Arc]. *)

From stdpp Require Import base list gmap strings.
From Stdlib Require Import ZArith Lia.
From S2P Require Import Prelude Gc.

Local Open Scope Z_scope.

Module Traceable.

(** [GcTraceable], with [size_of] of the type. *)
Class GcTraceable (T : Type) := {
  external_memory_size : T -> Z;
  size_of : Z
}.

(** ** Implementations *)

Record Buffer := mkBuffer { capacity : Z }.
#[export] Instance buffer_traceable : GcTraceable Buffer := {| external_memory_size b := capacity b; size_of := 24 |}.

Record Bytes := mkBytes { len : Z }.
#[export] Instance bytes_traceable : GcTraceable Bytes := {| external_memory_size b := len b; size_of := 32 |}.

Section Containers.
Context {T : Type} `{GcTraceable T}.

Definition option_size (v : option T) : Z := match v with Some v => external_memory_size v | None => 0 end.

Record Boxed := mkBoxed { unbox : T }.
Definition box_size (b : Boxed) : Z := wrap_usize (size_of (T := T) + external_memory_size (unbox b)).

(** [Rc] and [Arc]: a handle, with the strong count at the time it is asked. *)
Record Shared := mkShared { target : T; strong_count : Z }.
Definition shared_size (r : Shared) : Z :=
  if strong_count r =? 1 then wrap_usize (size_of (T := T) + external_memory_size (target r)) else 0.

Record Vec := mkVec { items : list T; vec_capacity : Z }.
Definition vec_size (v : Vec) : Z :=
  wrap_usize (wrap_usize (vec_capacity v * size_of (T := T)) +
              wrap_usize (foldr (fun x s => external_memory_size x + s) 0 (items v))).

End Containers.
Arguments Boxed : clear implicits.
Arguments Shared : clear implicits.
Arguments Vec : clear implicits.

#[export] Instance option_traceable T `{GcTraceable T} : GcTraceable (option T) :=
  {| external_memory_size := option_size; size_of := size_of (T := T) |}.
#[export] Instance box_traceable T `{GcTraceable T} : GcTraceable (Boxed T) :=
  {| external_memory_size := box_size; size_of := 8 |}.
#[export] Instance shared_traceable T `{GcTraceable T} : GcTraceable (Shared T) :=
  {| external_memory_size := shared_size; size_of := 8 |}.
#[export] Instance vec_traceable T `{GcTraceable T} : GcTraceable (Vec T) :=
  {| external_memory_size := vec_size; size_of := 24 |}.

(** ** The derive macro *)

(** An attribute of a field: its path, and the names in its list. *)
Record Attr := mkAttr { attr_path : string; metas : list string }.

(** [has_gc_track_attr]: every name in the list of a [gc] attribute is [track]. *)
Definition has_gc_track_attr (attrs : list Attr) : bool :=
  existsb (fun a => bool_decide (attr_path a = "gc"%string) &&
                    forallb (fun n => bool_decide (n = "track"%string)) (metas a)) attrs.

(** The terms the generated body adds up: the places of the tracked fields. *)
Definition generate_struct_body (fields : list (list Attr)) : list nat :=
  omap (fun '(i, attrs) => if has_gc_track_attr attrs then Some i else None) (enumerate fields).

(** [derive_gc_traceable]: enums and unions are refused. *)
Inductive Data := Struct (fields : list (list Attr)) | Enum | Union.

Definition derive_gc_traceable (d : Data) : result (list nat) string :=
  match d with
  | Struct fields => Ok (generate_struct_body fields)
  | Enum => Err "GcTraceable cannot be derived for enums"%string
  | Union => Err "GcTraceable cannot be derived for unions"%string
  end.

(** What the generated body answers for a value with these field sizes. *)
Definition derived_size (sizes : list Z) (body : list nat) : Z :=
  foldl (fun s i => wrap_usize (s + default 0 (sizes !! i))) 0 body.

(** ** Values with a guard *)

(** [Tracked]: the value, and its guard by its place in the world of Gc.v. *)
Record Tracked (T : Type) := mkTracked { value : T; guard : nat }.
Arguments mkTracked {T} _ _.
Arguments value {T} _.
Arguments guard {T} _.

Section Tracking.
Context {T : Type} `{GcTraceable T}.

(** [Tracked::new], through [tracked_guard] *)
Definition tracked_new (w : Gc.World) (t : Gc.Thread) (v : T) : Tracked T * Gc.World :=
  (mkTracked v (length (Gc.guards w)), Gc.guard_new w t (wrap_i64 (external_memory_size v))).

(** [get_mut] *)
Definition get_mut (x : Tracked T) (f : T -> T) : Tracked T := mkTracked (f (value x)) (guard x).

Definition update_size (w : Gc.World) (t : Gc.Thread) (x : Tracked T) : option Gc.World :=
  Gc.set_amount w t (guard x) (wrap_i64 (external_memory_size (value x))).

(** [into_inner] *)
Definition into_inner (w : Gc.World) (t : Gc.Thread) (x : Tracked T) : option (T * Gc.World) :=
  w' ← Gc.guard_drop w t (guard x); Some (value x, w').

(** ** Properties *)

Lemma wrap_i64_range z : - 2 ^ 63 <= wrap_i64 z < 2 ^ 63.
Proof. unfold wrap_i64. pose proof (Z.mod_pos_bound (z + 2 ^ 63) (2 ^ 64) ltac:(lia)). lia. Qed.

Lemma wrap_i64_add a z : wrap_i64 (a + wrap_i64 z) = wrap_i64 (a + z).
Proof.
  unfold wrap_i64. f_equal.
  replace (a + ((z + 2 ^ 63) mod 2 ^ 64 - 2 ^ 63) + 2 ^ 63) with (a + (z + 2 ^ 63) mod 2 ^ 64) by lia.
  rewrite Z.add_mod_idemp_r by lia. f_equal. lia.
Qed.

(** The guards of the world after [adjust]. *)
Lemma adjust_guard w t k delta w' g :
  Gc.guards w !! k = Some g -> Gc.adjust w t k delta = Some w' ->
  (exists g', Gc.guards w' !! k = Some g' /\ Gc.dropped g' = false /\
     Gc.amount g' = (if delta =? 0 then Gc.amount g else wrap_i64 (Gc.amount g + delta))) /\
  forall j, j <> k -> Gc.guards w' !! j = Gc.guards w !! j.
Proof.
  intros Hg. unfold Gc.adjust. rewrite Hg. simpl. destruct (Gc.dropped g) eqn:Hd; [done|].
  destruct (Z.eqb_spec delta 0) as [->|Hne]; [intros [= <-]; split; [by exists g|done]|]. intros [= <-].
  pose proof (lookup_lt_Some _ _ _ Hg) as Hlt.
  destruct (Gc.current w !! t); simpl; (split; [|intros j Hj; by rewrite list_lookup_insert_ne]);
    rewrite list_lookup_insert_eq by done; by eexists.
Qed.

(** What V8 is told of a tracked value is its size. A new one has a guard of its size,
    and after [update_size], whatever was done to the value since, its guard holds the size
    the value has now; the guards of others do not change. *)
Theorem tracked_values_hold_their_size w t (x : Tracked T) w' g :
  Gc.guards w !! guard x = Some g -> - 2 ^ 63 <= Gc.amount g < 2 ^ 63 ->
  update_size w t x = Some w' ->
  (exists g', Gc.guards w' !! guard x = Some g' /\ Gc.amount g' = wrap_i64 (external_memory_size (value x))) /\
  forall j, j <> guard x -> Gc.guards w' !! j = Gc.guards w !! j.
Proof.
  intros Hg Hr. unfold update_size, Gc.set_amount. rewrite Hg. simpl. intros Ha.
  destruct (adjust_guard _ _ _ _ _ _ Hg Ha) as [(g' & Hg' & _ & Hamt) Hj]. split; [|done]. exists g'. split; [done|].
  rewrite Hamt. set (n := wrap_i64 (external_memory_size (value x))).
  assert (- 2 ^ 63 <= n < 2 ^ 63) as Hn by apply wrap_i64_range.
  rewrite wrap_i64_add, Zplus_minus. rewrite (wrap_i64_small n) by done.
  destruct (Z.eqb_spec (wrap_i64 (n - Gc.amount g)) 0) as [E|]; [|done].
  unfold wrap_i64 in E. assert ((n - Gc.amount g + 2 ^ 63) mod 2 ^ 64 = 2 ^ 63) as Em by lia.
  destruct (Z_lt_ge_dec (n - Gc.amount g + 2 ^ 63) 0);
    [rewrite <-(Z_mod_plus_full _ 1) in Em; rewrite Z.mod_small in Em; lia|].
  destruct (Z_lt_ge_dec (n - Gc.amount g + 2 ^ 63) (2 ^ 64)); [rewrite Z.mod_small in Em; lia|].
  rewrite <-(Z_mod_plus_full _ (-1)) in Em. rewrite Z.mod_small in Em; lia.
Qed.

Lemma tracked_new_guard w t (v : T) :
  let '(x, w') := tracked_new w t v in
  exists g, Gc.guards w' !! guard x = Some g /\ Gc.amount g = wrap_i64 (external_memory_size v) /\ Gc.dropped g = false.
Proof.
  simpl. unfold Gc.guard_new. destruct (Gc.current w !! t); simpl.
  - assert (Gc.guards (Gc.adjust_external_memory w i (wrap_i64 (external_memory_size v))) = Gc.guards w) as ->.
    { unfold Gc.adjust_external_memory. by destruct (_ =? 0). }
    rewrite lookup_app_r, Nat.sub_diag by lia. by eexists.
  - rewrite lookup_app_r, Nat.sub_diag by lia. by eexists.
Qed.

End Tracking.

Lemma wrap_usize_add_l a b : wrap_usize (wrap_usize a + b) = wrap_usize (a + b).
Proof. unfold wrap_usize, wrap. by rewrite Zplus_mod_idemp_l. Qed.

Lemma wrap_usize_idem a : wrap_usize (wrap_usize a) = wrap_usize a.
Proof. unfold wrap_usize, wrap. apply Zmod_mod. Qed.

(** A derived size is the sum of the sizes of the fields marked, in place, modulo the
    width of [usize]. *)
Lemma derived_size_sum fields sizes :
  length sizes = length fields ->
  derived_size sizes (generate_struct_body fields) =
  wrap_usize (foldr (fun p s => (if has_gc_track_attr (fst p) then snd p else 0) + s) 0 (zip fields sizes)).
Proof.
  intros Hlen. unfold derived_size, generate_struct_body, enumerate.
  assert (forall fs ss off all acc, drop off all = ss -> length ss = length fs ->
    wrap_usize (foldl (fun s i => wrap_usize (s + default 0 (all !! i))) acc
      (omap (fun '(i, attrs) => if has_gc_track_attr attrs then Some i else None) (imap (fun i x => ((off + i)%nat, x)) fs))) =
    wrap_usize (acc + foldr (fun p s => (if has_gc_track_attr (fst p) then snd p else 0) + s) 0 (zip fs ss))) as Hgen.
  { induction fs as [|f fs IH]; intros ss off all acc Hd Hl; [simpl; f_equal; lia|]. destruct ss as [|z ss]; [done|].
    assert (all !! off = Some z) as Hz by (rewrite <-(Nat.add_0_r off), <-lookup_drop, Hd; done).
    assert (drop (S off) all = ss) as Hd' by (rewrite <-Nat.add_1_r, <-drop_drop, Hd; done).
    rewrite imap_cons. simpl. rewrite Nat.add_0_r.
    assert (imap ((fun i x => ((off + i)%nat, x)) ∘ S) fs = imap (fun i x => ((S off + i)%nat, x)) fs) as Him.
    { apply imap_ext. intros i x _. simpl. f_equal. lia. }
    destruct (has_gc_track_attr f); simpl; rewrite Him.
    - rewrite (IH ss (S off) all) by (done || simpl in Hl; lia). rewrite Hz. simpl.
      rewrite wrap_usize_add_l. f_equal. lia.
    - rewrite (IH ss (S off) all) by (done || simpl in Hl; lia). done. }
  rewrite <-(Z.add_0_l (foldr _ _ _)), <-(Hgen fields sizes 0%nat sizes 0); [|by rewrite drop_0|done].
  set (l := omap _ _). change (omap _ _) with l. clearbody l.
  destruct l as [|i l] using rev_ind; [done|]. rewrite foldl_app. simpl. by rewrite wrap_usize_idem.
Qed.

(** A value behind two handles is counted by neither. *)
Example shared_values_are_counted_by_none :
  let b := mkBuffer 1024 in
  external_memory_size (mkShared b 2) + external_memory_size (mkShared b 2) = 0 /\
  external_memory_size (mkShared b 1) = 1048.
Proof. split; reflexivity. Qed.

(** A value that grows is not told until [update_size]. *)
Lemma tracked_values_hold_their_size_witness :
  exists w w' g', w = Gc.guard_new (Gc.lock_new Gc.initial 0%nat 0%nat) 0%nat 1024 /\
    update_size w 0%nat (mkTracked (mkBuffer 4096) 0%nat) = Some w' /\
    Gc.guards w' !! 0%nat = Some g' /\ Gc.amount g' = 4096.
Proof.
  eexists _, _. destruct (tracked_values_hold_their_size
    (Gc.guard_new (Gc.lock_new Gc.initial 0%nat 0%nat) 0%nat 1024) 0%nat (mkTracked (mkBuffer 4096) 0%nat) _
    (Gc.mkGuard 1024 (Some 0%nat) false) ltac:(vm_compute; reflexivity) ltac:(simpl; lia) ltac:(vm_compute; reflexivity))
    as [(g' & Hg & Ha) _].
  exists g'. split; [reflexivity|]. split; [vm_compute; reflexivity|]. split; [exact Hg|]. exact Ha.
Defined.

End Traceable.
