(* ===== verification/Isolates.v ===== *)
(** * Isolates, contexts and the pointers between them
    (src/src/locker_managed_isolate.rs, request_context.rs, context_slots.rs,
    v8_helpers.rs, and the parts of execution_context.rs and pool.rs that own them)

    The records behind a request and who keeps them alive: the isolate is shared by
    reference counts, but an [ExecutionContext] also carries its raw pointer, a cached
    context carries it into the pool and out again, and a V8 context carries the raw
    address of the [ContextSlots] that its [RequestContext] owns. The model has the
    isolates and slots that are freed; a use of a freed one, or a drop under the lock of
    another isolate, is [Undefined]. *)

From stdpp Require Import base list gmap.
From Stdlib Require Import ZArith Lia.
From S2P Require Import Prelude.

Module Isolates.

(** ** Parameters of an isolate *)

Definition MB : Z := 1024 * 1024.
Definition MAX_YOUNG_GENERATION : Z := 24 * MB.

(** [RuntimeLimits], the part that sizes the heap. *)
Record HeapLimits := mkLimits { heap_initial_mb : Z; heap_max_mb : Z }.

Record CreateParams := mkParams {
  initial_heap : Z;
  max_heap : Z;
  max_young : Z;
  atomics_wait : bool;
  array_buffer_max : option Z
}.

(** [worker_create_params]; [sandbox] is the feature. *)
Definition worker_create_params (sandbox : bool) (l : HeapLimits) : CreateParams :=
  let heap_max := wrap_usize (heap_max_mb l * MB) in
  mkParams (wrap_usize (heap_initial_mb l * MB)) heap_max (Z.min MAX_YOUNG_GENERATION heap_max) false
    (if sandbox then None else Some heap_max).

(** A worker never gets more young space than its heap, and the cap of its ArrayBuffers is
    the one of its heap, for every limit that fits the machine. *)
Lemma create_params_within_heap sandbox l :
  (0 <= heap_max_mb l < 2 ^ 44)%Z ->
  let p := worker_create_params sandbox l in
  (max_heap p = heap_max_mb l * MB /\ max_young p <= max_heap p)%Z /\
  (forall cap, array_buffer_max p = Some cap -> cap = max_heap p).
Proof.
  intros Hl. simpl. unfold MB, MAX_YOUNG_GENERATION in *.
  rewrite wrap_usize_small by lia. split; [lia|]. destruct sandbox; naive_solver.
Qed.

(** ** Slots of a context *)

(** A type, and a value of it; [ContextSlots] is a map by type. *)
Definition TypeId := nat.
Definition Slots := gmap TypeId Z.

(** Who owns the slots: the cache of a tagged isolate, or the event of a request. *)
Inductive Owner := InCache (t : nat) | OfRequest (q : nat).

#[export] Instance Owner_eq_dec : EqDecision Owner.
Proof. solve_decision. Defined.

(** The [ContextSlots] that exist, and the private property of each V8 context. *)
Record Heap := mkHeap {
  slots : gmap nat (Owner * Slots);
  private : gmap nat nat
}.

(** What a native sees of the slots of the current context: there are none, they are
    there, or they are gone. *)
Inductive Deref := Missing | Live (m : Slots) | Dangling.

Definition deref (h : Heap) (ctx : nat) : Deref :=
  match private h !! ctx with
  | None => Missing
  | Some s => match slots h !! s with Some (_, m) => Live m | None => Dangling end
  end.

(** [attach] *)
Definition attach (h : Heap) (ctx s : nat) : Heap := mkHeap (slots h) (<[ctx := s]> (private h)).

(** [set]; [None] is a use of freed slots. *)
Definition set (h : Heap) (ctx : nat) (ty : TypeId) (v : Z) : option Heap :=
  match private h !! ctx with
  | None => Some h
  | Some s =>
      match slots h !! s with
      | Some (o, m) => Some (mkHeap (<[s := (o, <[ty := v]> m)]> (slots h)) (private h))
      | None => None
      end
  end.

(** [get] *)
Definition get (h : Heap) (ctx : nat) (ty : TypeId) : option (option Z) :=
  match deref h ctx with Missing => Some None | Live m => Some (m !! ty) | Dangling => None end.

(** ** Owners *)

(** [RequestContext]: its V8 context and its slots. *)
Record RequestContext := mkRequest { context : nat; _slots : nat }.

(** [ExecutionContext]: the raw pointer, the reference that keeps the isolate alive, and
    the request. *)
Record ExecutionContext := mkExecution { isolate : nat; pooled : nat; request : RequestContext }.

Record CachedContext := mkCached { c_request : RequestContext; isolate_ptr : nat }.

(** [TaggedIsolate]; [in_pool] says whether the pool still refers to it. *)
Record TaggedIsolate := mkTagged { t_isolate : nat; cached_contexts : list CachedContext; in_pool : bool }.

(** An event of [execute_pinned]: the references it holds and its context. *)
Record Event := mkEvent { e_tagged : nat; e_pooled : nat; e_ctx : option ExecutionContext }.

(** Names are fresh numbers; [freed] are the isolates that were dropped. *)
Record State := mkState {
  next : nat;
  tagged : gmap nat TaggedIsolate;
  events : gmap nat Event;
  heap : Heap;
  freed : gset nat
}.

Definition initial : State := mkState 0 ∅ ∅ (mkHeap ∅ ∅) ∅.

Definition set_heap (s : State) (h : Heap) : State := mkState (next s) (tagged s) (events s) h (freed s).
Definition set_event (s : State) (q : nat) (e : Event) : State :=
  mkState (next s) (tagged s) (<[q := e]> (events s)) (heap s) (freed s).
Definition set_tagged (s : State) (t : nat) (x : TaggedIsolate) : State :=
  mkState (next s) (<[t := x]> (tagged s)) (events s) (heap s) (freed s).

(** Drops a [RequestContext]: its context, then its slots. *)
Definition drop_request (h : Heap) (r : RequestContext) : Heap :=
  mkHeap (delete (_slots r) (slots h)) (delete (context r) (private h)).

(** The slots change hands with their request. *)
Definition hand_over (h : Heap) (r : RequestContext) (o : Owner) : Heap :=
  mkHeap (alter (fun p => (o, snd p)) (_slots r) (slots h)) (private h).

(** [LockerManagedIsolate::new] in [TaggedIsolate::new] *)
Definition isolate_new (s : State) : State :=
  mkState (S (next s)) (<[next s := mkTagged (next s) [] true]> (tagged s)) (events s) (heap s) (freed s).

(** [new_with_pooled_isolate]: new slots, a new context with their address, and the raw
    pointer of the isolate that is locked. *)
Definition new_with_pooled_isolate (s : State) (q : nat) (locked : nat) : ExecutionContext * State :=
  let ctx := next s in
  let h := attach (mkHeap (<[ctx := (OfRequest q, ∅)]> (slots (heap s))) (private (heap s))) ctx ctx in
  (mkExecution locked locked (mkRequest ctx ctx),
   mkState (S (next s)) (tagged s) (events s) h (freed s)).

(** [from_cached] and [into_parts] *)
Definition from_cached (ptr pooled : nat) (r : RequestContext) : ExecutionContext := mkExecution ptr pooled r.
Definition into_parts (ec : ExecutionContext) : RequestContext * nat := (request ec, isolate ec).

Inductive outcome := Undefined | Next (s : State).

Inductive label :=
| LIsolate                                   (* a new isolate in the pool *)
| LAcquire (q t : nat)                       (* an event gets a slot *)
| LCold (q : nat)                            (* its context is made *)
| LWarm (q : nat) (i : nat)                  (* or taken from the cache *)
| LUse (q : nat) (ty : TypeId) (v : Z)       (* JavaScript runs and a native uses its slots *)
| LStore (q : nat)                           (* the context goes to the cache *)
| LDiscard (q : nat)                         (* or is dropped under the lock *)
| LEvict (q : nat) (i : nat)                 (* a cached context is dropped under the lock *)
| LRelease (q : nat)                         (* the event lets go of the isolate *)
| LReclaim (t : nat)                         (* the pool does *)
| LDropTagged (t : nat)                      (* the last reference to a tagged isolate goes *)
| LDropIsolate (i : nat).                    (* and the last one to its isolate *)

(** References to a tagged isolate, and to an isolate. *)
Definition tagged_held (s : State) (t : nat) : bool :=
  existsb (fun e => e_tagged (snd e) =? t) (map_to_list (events s)) ||
  match tagged s !! t with Some x => in_pool x | None => false end.

Definition isolate_held (s : State) (i : nat) : bool :=
  existsb (fun e => (e_pooled (snd e) =? i) ||
             match e_ctx (snd e) with Some ec => pooled ec =? i | None => false end) (map_to_list (events s)) ||
  existsb (fun x => t_isolate (snd x) =? i) (map_to_list (tagged s)).

(** [drop_under_lock]: the isolate of [lock] is locked, and what is dropped is of it. *)
Definition drop_under_lock (s : State) (lock ptr : nat) (r : RequestContext) : outcome :=
  if bool_decide (lock ∈ freed s) || negb (lock =? ptr) then Undefined
  else Next (set_heap s (drop_request (heap s) r)).

(** [Drop for TaggedIsolate]: the cached contexts, under the lock of the isolate. *)
Fixpoint drop_all (s : State) (lock : nat) (l : list CachedContext) : outcome :=
  match l with
  | [] => Next s
  | c :: l =>
      match drop_under_lock s lock (isolate_ptr c) (c_request c) with
      | Undefined => Undefined
      | Next s => drop_all s lock l
      end
  end.

Definition exec (s : State) (l : label) : option outcome :=
  match l with
  | LIsolate => Some (Next (isolate_new s))
  | LAcquire q t =>
      x ← tagged s !! t;
      match events s !! q with
      | Some _ => None
      | None => if in_pool x then Some (Next (set_event s q (mkEvent t (t_isolate x) None))) else None
      end
  | LCold q =>
      e ← events s !! q;
      match e_ctx e with
      | Some _ => None
      | None =>
          if bool_decide (e_pooled e ∈ freed s) then Some Undefined
          else
            let (ec, s) := new_with_pooled_isolate s q (e_pooled e) in
            Some (Next (set_event s q (mkEvent (e_tagged e) (e_pooled e) (Some ec))))
      end
  | LWarm q i =>
      e ← events s !! q;
      x ← tagged s !! e_tagged e;
      '(c, rest) ← swap_remove i (cached_contexts x);
      match e_ctx e with
      | Some _ => None
      | None =>
          let ec := from_cached (isolate_ptr c) (e_pooled e) (c_request c) in
          let s := set_heap s (hand_over (heap s) (c_request c) (OfRequest q)) in
          let s := set_tagged s (e_tagged e) (mkTagged (t_isolate x) rest (in_pool x)) in
          Some (Next (set_event s q (mkEvent (e_tagged e) (e_pooled e) (Some ec))))
      end
  | LUse q ty v =>
      e ← events s !! q;
      ec ← e_ctx e;
      if bool_decide (isolate ec ∈ freed s) then Some Undefined
      else match set (heap s) (context (request ec)) ty v with
           | None => Some Undefined
           | Some h => Some (Next (set_heap s h))
           end
  | LStore q =>
      e ← events s !! q;
      ec ← e_ctx e;
      x ← tagged s !! e_tagged e;
      let (r, ptr) := into_parts ec in
      let s := set_heap s (hand_over (heap s) r (InCache (e_tagged e))) in
      let s := set_tagged s (e_tagged e) (mkTagged (t_isolate x) (cached_contexts x ++ [mkCached r ptr]) (in_pool x)) in
      Some (Next (set_event s q (mkEvent (e_tagged e) (e_pooled e) None)))
  | LDiscard q =>
      e ← events s !! q;
      ec ← e_ctx e;
      match drop_under_lock s (e_pooled e) (isolate ec) (request ec) with
      | Undefined => Some Undefined
      | Next s => Some (Next (set_event s q (mkEvent (e_tagged e) (e_pooled e) None)))
      end
  | LEvict q i =>
      e ← events s !! q;
      x ← tagged s !! e_tagged e;
      '(c, rest) ← swap_remove i (cached_contexts x);
      match drop_under_lock s (e_pooled e) (isolate_ptr c) (c_request c) with
      | Undefined => Some Undefined
      | Next s => Some (Next (set_tagged s (e_tagged e) (mkTagged (t_isolate x) rest (in_pool x))))
      end
  | LRelease q =>
      e ← events s !! q;
      match e_ctx e with
      | Some _ => None
      | None => Some (Next (mkState (next s) (tagged s) (delete q (events s)) (heap s) (freed s)))
      end
  | LReclaim t =>
      x ← tagged s !! t;
      Some (Next (set_tagged s t (mkTagged (t_isolate x) (cached_contexts x) false)))
  | LDropTagged t =>
      x ← tagged s !! t;
      if tagged_held s t then None
      else match drop_all s (t_isolate x) (cached_contexts x) with
           | Undefined => Some Undefined
           | Next s => Some (Next (mkState (next s) (delete t (tagged s)) (events s) (heap s) (freed s)))
           end
  | LDropIsolate i =>
      if isolate_held s i || negb (i <? next s) then None
      else Some (Next (mkState (next s) (tagged s) (events s) (heap s) ({[i]} ∪ freed s)))
  end.

Fixpoint run (s : State) (ls : list label) : option outcome :=
  match ls with
  | [] => Some (Next s)
  | l :: ls => o ← exec s l; match o with Undefined => Some Undefined | Next s => run s ls end
  end.

(** ** The invariant *)

(** A request owns its slots, under its owner, and its context has their address. *)
Definition rc_ok (h : Heap) (o : Owner) (r : RequestContext) : Prop :=
  context r = _slots r /\ private h !! context r = Some (_slots r) /\
  exists m, slots h !! _slots r = Some (o, m).

Definition slot_of (c : CachedContext) : nat := _slots (c_request c).

Record tagged_ok (s : State) (t : nat) (x : TaggedIsolate) : Prop := {
  t_alive : t_isolate x ∉ freed s;
  t_bound : t_isolate x < next s /\ t < next s;
  t_cache : Forall (fun c => isolate_ptr c = t_isolate x /\ rc_ok (heap s) (InCache t) (c_request c)) (cached_contexts x);
  t_nodup : NoDup (slot_of <$> cached_contexts x)
}.

Record event_ok (s : State) (q : nat) (e : Event) : Prop := {
  e_iso : exists x, tagged s !! e_tagged e = Some x /\ e_pooled e = t_isolate x;
  e_own ec : e_ctx e = Some ec ->
    isolate ec = e_pooled e /\ pooled ec = e_pooled e /\ rc_ok (heap s) (OfRequest q) (request ec)
}.

Record wf (s : State) : Prop := {
  w_tagged t x : tagged s !! t = Some x -> tagged_ok s t x;
  w_events q e : events s !! q = Some e -> event_ok s q e;
  w_slots k : is_Some (slots (heap s) !! k) -> k < next s;
  w_freed i : i ∈ freed s -> i < next s
}.

(** The slots of other owners are untouched. *)
Lemma rc_ok_drop h o r o' r' :
  rc_ok h o r -> rc_ok h o' r' -> _slots r <> _slots r' -> rc_ok (drop_request h r) o' r'.
Proof.
  intros (Hc & _ & _) (Hc' & Hp' & m & Hs') Hne. unfold rc_ok, drop_request. simpl.
  rewrite !lookup_delete_ne by congruence. eauto.
Qed.

Lemma rc_ok_hand h o r o' r' : rc_ok h o' r' -> _slots r <> _slots r' -> rc_ok (hand_over h r o) o' r'.
Proof.
  intros (Hc' & Hp' & m & Hs') Hne. unfold rc_ok, hand_over. simpl. rewrite lookup_alter_ne by done. eauto.
Qed.

Lemma rc_ok_handed h o r o' : rc_ok h o r -> rc_ok (hand_over h r o') o' r.
Proof.
  intros (Hc & Hp & m & Hs). unfold rc_ok, hand_over. simpl. rewrite lookup_alter_eq, Hs. split_and!; [done..|by exists m].
Qed.

Lemma rc_ok_distinct h o r o' r' : rc_ok h o r -> rc_ok h o' r' -> o <> o' -> _slots r <> _slots r'.
Proof. intros (_ & _ & m & Hs) (_ & _ & m' & Hs') Hne E. rewrite E in Hs. congruence. Qed.

Lemma rc_ok_set h h' ctx ty v o r : set h ctx ty v = Some h' -> rc_ok h o r -> rc_ok h' o r.
Proof.
  unfold set. destruct (private h !! ctx) as [k|]; [|by intros [= <-]].
  destruct (slots h !! k) as [[o' m']|] eqn:E; [|done]. intros [= <-] (Hc & Hp & m & Hs).
  split_and!; [done..|]. simpl. destruct (decide (k = _slots r)) as [->|]; [|rewrite lookup_insert_ne by done; by exists m].
  rewrite lookup_insert_eq. rewrite E in Hs. simplify_eq. by eexists.
Qed.

(** Changing the heap under the other owners. *)
Lemma tagged_ok_heap s s' t x :
  tagged_ok s t x -> freed s' = freed s -> next s <= next s' ->
  (forall r, rc_ok (heap s) (InCache t) r -> rc_ok (heap s') (InCache t) r) -> tagged_ok s' t x.
Proof.
  intros [Ha Hb Hc Hn] Hf Hle Hr. constructor; rewrite ?Hf; [done|lia| |done].
  eapply Forall_impl; [exact Hc|]. intros c [? ?]. split; auto.
Qed.

Lemma event_ok_heap s s' q e :
  event_ok s q e -> (forall t x, tagged s !! t = Some x -> exists x', tagged s' !! t = Some x' /\ t_isolate x' = t_isolate x) ->
  (forall r, rc_ok (heap s) (OfRequest q) r -> rc_ok (heap s') (OfRequest q) r) -> event_ok s' q e.
Proof.
  intros [(x & Ht & Hp) Ho] Ht' Hr. constructor.
  - destruct (Ht' _ _ Ht) as (x' & ? & E). exists x'. by rewrite E.
  - intros ec He. destruct (Ho ec He) as (? & ? & ?). auto.
Qed.

Lemma swap_remove_cache i (l : list CachedContext) c rest (P : CachedContext -> Prop) :
  swap_remove i l = Some (c, rest) -> Forall P l -> NoDup (slot_of <$> l) ->
  P c /\ Forall P rest /\ NoDup (slot_of <$> rest) /\ slot_of c ∉ slot_of <$> rest.
Proof.
  intros (_ & Hp & _)%swap_remove_Some Hf Hn. rewrite Hp in Hf, Hn. simpl in Hn.
  apply Forall_cons in Hf as [? ?]. apply NoDup_cons in Hn as [? ?]. done.
Qed.

Lemma not_elem_slot c' c (l : list CachedContext) : slot_of c ∉ slot_of <$> l -> c' ∈ l -> slot_of c <> slot_of c'.
Proof. intros Hn Hin E. apply Hn. rewrite E. by apply list_elem_of_fmap_2. Qed.

Lemma Forall_rest (P Q : CachedContext -> Prop) l :
  Forall P l -> (forall c, c ∈ l -> P c -> Q c) -> Forall Q l.
Proof. rewrite !Forall_forall. eauto. Qed.

Lemma wf_initial : wf initial.
Proof. constructor; simpl; intros *; rewrite ?lookup_empty; try done; try (by intros [? ?]); set_solver. Qed.

(** Dropping the cached contexts one by one under the lock is defined, and leaves the rest
    as it is. *)
Lemma drop_all_ok l : forall s lock t,
  lock ∉ freed s -> Forall (fun c => isolate_ptr c = lock /\ rc_ok (heap s) (InCache t) (c_request c)) l ->
  NoDup (slot_of <$> l) ->
  exists h, drop_all s lock l = Next (set_heap s h) /\
    (forall o r, rc_ok (heap s) o r -> o <> InCache t -> rc_ok h o r) /\
    (forall k, is_Some (slots h !! k) -> is_Some (slots (heap s) !! k)).
Proof.
  induction l as [|c l IH]; intros s lock t Hf Hl Hn; simpl.
  { exists (heap s). split_and!; [by destruct s|done|done]. }
  apply Forall_cons in Hl as [[Hptr Hc] Hl]. rewrite fmap_cons in Hn. apply NoDup_cons in Hn as [Hnc Hn].
  unfold drop_under_lock. rewrite Hptr, bool_decide_false, Nat.eqb_refl by done. simpl.
  destruct (IH (set_heap s (drop_request (heap s) (c_request c))) lock t) as (h & E & Hr & Hk); [done| |done|].
  { eapply Forall_rest; [exact Hl|]. intros c' Hin [? ?]. split; [done|]. simpl. eapply rc_ok_drop; [done..|].
    by apply (not_elem_slot c' c l). }
  exists h. rewrite E. split_and!; [done| |].
  - intros o r Ho Hne. apply Hr; [|done]. simpl. eapply rc_ok_drop; [done..|]. by eapply rc_ok_distinct.
  - intros k Hs%Hk. simpl in Hs. destruct Hs as [y Hy]. apply lookup_delete_Some in Hy as [_ ?]. by eexists.
Qed.

(** ** Steps *)

(** The state of a step is well-formed, and a step is defined. *)
Definition fine (o : option outcome) : Prop :=
  match o with None => True | Some Undefined => False | Some (Next s) => wf s end.

Lemma event_alive s q e : wf s -> events s !! q = Some e -> e_pooled e ∉ freed s.
Proof. intros H He. destruct (e_iso _ _ _ (w_events _ H q e He)) as (x & Hx & ->). by apply (w_tagged _ H _ _ Hx). Qed.

(** A new event, or one whose context changed. *)
Lemma wf_set_event s q e : wf s -> event_ok (set_event s q e) q e -> wf (set_event s q e).
Proof.
  intros H He. constructor; simpl; try apply H.
  - intros t x Ht. destruct (w_tagged _ H t x Ht). by constructor.
  - intros q' e' [[<- <-]|[? Hq]]%lookup_insert_Some; [done|]. destruct (w_events _ H q' e' Hq). by constructor.
Qed.

Lemma fine_cold s q : wf s -> fine (exec s (LCold q)).
Proof.
  intros H. simpl. destruct (events s !! q) as [e|] eqn:He; simpl; [|done]. destruct (e_ctx e) eqn:Hc; [done|].
  rewrite bool_decide_false by (by eapply event_alive). simpl.
  assert (slots (heap s) !! next s = None) as Hn.
  { apply eq_None_not_Some. intros Hs%(w_slots _ H). lia. }
  set (h := attach (mkHeap (<[next s := (OfRequest q, ∅)]> (slots (heap s))) (private (heap s))) (next s) (next s)).
  assert (forall o r, rc_ok (heap s) o r -> rc_ok h o r) as Hr.
  { intros o r (Hcr & Hp & m & Hs). assert (_slots r <> next s) by (intros E; rewrite E in Hs; congruence).
    unfold rc_ok, h. simpl. rewrite !lookup_insert_ne by congruence. eauto. }
  destruct (w_events _ H q e He) as [(x & Hx & Hp) _].
  apply (wf_set_event (mkState (S (next s)) (tagged s) (events s) h (freed s))).
  - constructor; simpl.
    + intros t x' Ht. apply (tagged_ok_heap s); simpl; auto. by apply (w_tagged _ H).
    + intros q' e' Hq. apply (event_ok_heap s); simpl; eauto. by apply (w_events _ H).
    + intros k. rewrite lookup_insert_is_Some'. intros [<-|Hk]; [lia|]. pose proof (w_slots _ H k Hk). lia.
    + intros i Hi. pose proof (w_freed _ H i Hi). lia.
  - constructor; simpl; [by exists x|]. intros ec [= <-]. simpl. split_and!; [done..|].
    unfold rc_ok, h. simpl. rewrite !lookup_insert_eq. eauto.
Qed.

Lemma fine_warm s q i : wf s -> fine (exec s (LWarm q i)).
Proof.
  intros H. simpl. destruct (events s !! q) as [e|] eqn:He; simpl; [|done].
  destruct (tagged s !! e_tagged e) as [x|] eqn:Hx; simpl; [|done].
  destruct (swap_remove i (cached_contexts x)) as [[c rest]|] eqn:Hsw; simpl; [|done].
  destruct (e_ctx e) eqn:Hc; [done|].
  destruct (w_tagged _ H _ _ Hx) as [Ha Hb Hca Hnd].
  destruct (swap_remove_cache _ _ _ _ _ Hsw Hca Hnd) as ([Hptr Hrc] & Hrest & Hnd' & Hnot).
  destruct (w_events _ H q e He) as [(x' & Hx' & Hp) _]. rewrite Hx in Hx'. injection Hx' as <-.
  assert (forall o r, rc_ok (heap s) o r -> o <> InCache (e_tagged e) -> rc_ok (hand_over (heap s) (c_request c) (OfRequest q)) o r) as Hr.
  { intros o r Ho Hne. apply rc_ok_hand; [done|]. intros E. by eapply (rc_ok_distinct _ _ _ _ _ Ho Hrc). }
  simpl. match goal with |- wf (set_event ?s1 _ _) => apply (wf_set_event s1) end.
  - constructor; simpl.
    + intros t x' [[<- <-]|[Hne Ht]]%lookup_insert_Some.
      * constructor; simpl; [done|done| |done]. eapply Forall_rest; [exact Hrest|]. intros c' Hin [? ?]. split; [done|].
        apply rc_ok_hand; [done|]. by apply (not_elem_slot c' c rest).
      * apply (tagged_ok_heap s); simpl; auto; [by apply (w_tagged _ H)|]. intros r Ho. apply Hr; [done|congruence].
    + intros q' e' Hq. apply (event_ok_heap s); simpl; [by apply (w_events _ H)| |].
      * intros t y Hy. destruct (decide (e_tagged e = t)) as [<-|]; [rewrite lookup_insert_eq; simplify_eq; eauto|].
        rewrite lookup_insert_ne by done. eauto.
      * intros r Ho. by apply Hr.
    + intros k [y Hy]. apply (w_slots _ H). destruct (decide (_slots (c_request c) = k)) as [<-|];
        [rewrite lookup_alter_eq in Hy; destruct (slots (heap s) !! _slots (c_request c)); [by eexists|done]|].
      rewrite lookup_alter_ne in Hy by done. by eexists.
    + apply H.
  - constructor; simpl; [rewrite lookup_insert_eq; by eexists|]. intros ec [= <-]. simpl. split_and!; [congruence|done|].
    by eapply rc_ok_handed.
Qed.

Lemma fine_use s q ty v : wf s -> fine (exec s (LUse q ty v)).
Proof.
  intros H. simpl. destruct (events s !! q) as [e|] eqn:He; simpl; [|done]. destruct (e_ctx e) as [ec|] eqn:Hc; simpl; [|done].
  destruct (e_own _ _ _ (w_events _ H q e He) ec Hc) as (Hi & _ & Hcr & Hp & m & Hs).
  rewrite bool_decide_false by (rewrite Hi; by eapply event_alive).
  destruct (set (heap s) (context (request ec)) ty v) as [h|] eqn:E; [|unfold set in E; by rewrite Hp, Hs in E].
  simpl. constructor; simpl; try apply H.
  - intros t x Ht. apply (tagged_ok_heap s); simpl; auto; [by apply (w_tagged _ H)|]. intros r. by eapply rc_ok_set.
  - intros q' e' Hq. apply (event_ok_heap s); simpl; eauto; [by apply (w_events _ H)|]. intros r. by eapply rc_ok_set.
  - intros k [y Hy]. unfold set in E. rewrite Hp, Hs in E. injection E as <-. simpl in Hy. apply (w_slots _ H).
    apply lookup_insert_Some in Hy as [[<- _]|[_ ?]]; by eexists.
Qed.

Lemma fine_store s q : wf s -> fine (exec s (LStore q)).
Proof.
  intros H. simpl. destruct (events s !! q) as [e|] eqn:He; simpl; [|done]. destruct (e_ctx e) as [ec|] eqn:Hc; simpl; [|done].
  destruct (tagged s !! e_tagged e) as [x|] eqn:Hx; simpl; [|done].
  destruct (w_tagged _ H _ _ Hx) as [Ha Hb Hca Hnd].
  destruct (w_events _ H q e He) as [(x' & Hx' & Hp) Hown]. rewrite Hx in Hx'. injection Hx' as <-.
  destruct (Hown ec Hc) as (Hi & _ & Hrc).
  assert (forall o r, rc_ok (heap s) o r -> o <> OfRequest q -> rc_ok (hand_over (heap s) (request ec) (InCache (e_tagged e))) o r) as Hr.
  { intros o r Ho Hne. apply rc_ok_hand; [done|]. intros E. by eapply (rc_ok_distinct _ _ _ _ _ Ho Hrc). }
  constructor; simpl.
  - intros t x' [[<- <-]|[Hne Ht]]%lookup_insert_Some.
    + constructor; simpl; [done|done| |].
      * apply Forall_app. split; [|apply Forall_singleton; simpl; split; [congruence|by eapply rc_ok_handed]].
        eapply Forall_impl; [exact Hca|]. intros c [? Ho]. split; [done|]. by apply Hr.
      * rewrite fmap_app. apply NoDup_app. split; [done|]. split; [|apply NoDup_singleton].
        intros k Hk ->%list_elem_of_singleton. apply list_elem_of_fmap in Hk as (c & E & Hin).
        rewrite Forall_forall in Hca. destruct (Hca c Hin) as [_ Ho]. by eapply (rc_ok_distinct _ _ _ _ _ Hrc Ho).
    + apply (tagged_ok_heap s); simpl; [by apply (w_tagged _ H)|done|done|]. intros r Ho. by apply Hr.
  - intros q' e' [[<- <-]|[Hne Hq]]%lookup_insert_Some.
    + constructor; simpl; [rewrite lookup_insert_eq; by eexists|done].
    + apply (event_ok_heap s); simpl; [by apply (w_events _ H)| |].
      * intros t y Hy. destruct (decide (e_tagged e = t)) as [<-|]; [rewrite lookup_insert_eq; simplify_eq; eauto|].
        rewrite lookup_insert_ne by done. eauto.
      * intros r Ho. apply Hr; [done|congruence].
  - intros k [y Hy]. apply (w_slots _ H). destruct (decide (_slots (request ec) = k)) as [<-|];
      [rewrite lookup_alter_eq in Hy; destruct (slots (heap s) !! _slots (request ec)); [by eexists|done]|].
    rewrite lookup_alter_ne in Hy by done. by eexists.
  - apply H.
Qed.

(** A request that is dropped under the lock of its own isolate. *)
Lemma drop_under_lock_ok s lock ptr r :
  lock ∉ freed s -> ptr = lock -> drop_under_lock s lock ptr r = Next (set_heap s (drop_request (heap s) r)).
Proof. intros Hf ->. unfold drop_under_lock. by rewrite bool_decide_false, Nat.eqb_refl. Qed.

Lemma drop_slots h r k : is_Some (slots (drop_request h r) !! k) -> is_Some (slots h !! k).
Proof. intros [y Hy]. simpl in Hy. apply lookup_delete_Some in Hy as [_ ?]. by eexists. Qed.

Lemma fine_discard s q : wf s -> fine (exec s (LDiscard q)).
Proof.
  intros H. simpl. destruct (events s !! q) as [e|] eqn:He; simpl; [|done]. destruct (e_ctx e) as [ec|] eqn:Hc; simpl; [|done].
  destruct (w_events _ H q e He) as [(x & Hx & Hp) Hown]. destruct (Hown ec Hc) as (Hi & _ & Hrc).
  rewrite drop_under_lock_ok by (done || by eapply event_alive). simpl.
  assert (forall o r, rc_ok (heap s) o r -> o <> OfRequest q -> rc_ok (drop_request (heap s) (request ec)) o r) as Hr.
  { intros o r Ho Hne. eapply rc_ok_drop; [done..|]. by eapply rc_ok_distinct. }
  constructor; simpl.
  - intros t y Ht. apply (tagged_ok_heap s); simpl; [by apply (w_tagged _ H)|done|done|]. intros r Ho. by apply Hr.
  - intros q' e' [[<- <-]|[Hne Hq]]%lookup_insert_Some; [constructor; simpl; [by eexists|done]|].
    apply (event_ok_heap s); simpl; [by apply (w_events _ H)|by eauto|]. intros r Ho. apply Hr; [done|congruence].
  - intros k Hk%drop_slots. by apply (w_slots _ H).
  - apply H.
Qed.

Lemma fine_evict s q i : wf s -> fine (exec s (LEvict q i)).
Proof.
  intros H. simpl. destruct (events s !! q) as [e|] eqn:He; simpl; [|done].
  destruct (tagged s !! e_tagged e) as [x|] eqn:Hx; simpl; [|done].
  destruct (swap_remove i (cached_contexts x)) as [[c rest]|] eqn:Hsw; simpl; [|done].
  destruct (w_tagged _ H _ _ Hx) as [Ha Hb Hca Hnd].
  destruct (swap_remove_cache _ _ _ _ _ Hsw Hca Hnd) as ([Hptr Hrc] & Hrest & Hnd' & Hnot).
  destruct (w_events _ H q e He) as [(x' & Hx' & Hp) _]. rewrite Hx in Hx'. injection Hx' as <-.
  rewrite drop_under_lock_ok by (congruence || by eapply event_alive). simpl.
  assert (forall o r, rc_ok (heap s) o r -> o <> InCache (e_tagged e) -> rc_ok (drop_request (heap s) (c_request c)) o r) as Hr.
  { intros o r Ho Hne. eapply rc_ok_drop; [done..|]. by eapply rc_ok_distinct. }
  constructor; simpl.
  - intros t y [[<- <-]|[Hne Ht]]%lookup_insert_Some.
    + constructor; simpl; [done|done| |done]. eapply Forall_rest; [exact Hrest|]. intros c' Hin [? ?]. split; [done|].
      eapply rc_ok_drop; [done..|]. by apply (not_elem_slot c' c rest).
    + apply (tagged_ok_heap s); simpl; [by apply (w_tagged _ H)|done|done|]. intros r Ho. apply Hr; [done|congruence].
  - intros q' e' Hq. apply (event_ok_heap s); simpl; [by apply (w_events _ H)| |].
    + intros t y Hy. destruct (decide (e_tagged e = t)) as [<-|]; [rewrite lookup_insert_eq; simplify_eq; eauto|].
      rewrite lookup_insert_ne by done. eauto.
    + intros r Ho. by apply Hr.
  - intros k Hk%drop_slots. by apply (w_slots _ H).
  - apply H.
Qed.

Lemma existsb_map {A} (m : gmap nat A) (f : nat * A -> bool) k a :
  existsb f (map_to_list m) = false -> m !! k = Some a -> f (k, a) = false.
Proof.
  intros He Hk. destruct (f (k, a)) eqn:E; [|done]. rewrite <-He. symmetry. apply existsb_exists.
  exists (k, a). split; [|done]. by apply list_elem_of_In, elem_of_map_to_list.
Qed.

Lemma fine_drop_tagged s t : wf s -> fine (exec s (LDropTagged t)).
Proof.
  intros H. simpl. destruct (tagged s !! t) as [x|] eqn:Hx; simpl; [|done].
  destruct (tagged_held s t) eqn:Hh; [done|]. unfold tagged_held in Hh. apply orb_false_iff in Hh as [Hh _].
  destruct (w_tagged _ H _ _ Hx) as [Ha Hb Hca Hnd].
  destruct (drop_all_ok _ s _ t Ha Hca Hnd) as (h & -> & Hr & Hk). simpl. constructor; simpl.
  - intros t' y [Hne Ht]%lookup_delete_Some. apply (tagged_ok_heap s); simpl; [by apply (w_tagged _ H)|done|done|].
    intros r Ho. apply Hr; [done|congruence].
  - intros q e Hq. destruct (w_events _ H q e Hq) as [(y & Hy & Hp) Hown]. constructor.
    + exists y. simpl. rewrite lookup_delete_ne; [done|]. intros E.
      pose proof (existsb_map _ _ _ _ Hh Hq) as Hf. simpl in Hf. apply Nat.eqb_neq in Hf. congruence.
    + intros ec Hc. destruct (Hown ec Hc) as (? & ? & ?). split_and!; [done..|]. by apply Hr.
  - intros k Hs%Hk. by apply (w_slots _ H).
  - apply H.
Qed.

Lemma fine_exec s l : wf s -> fine (exec s l).
Proof.
  intros H. destruct l as [|q t|q|q i|q ty v|q|q|q i|q|t|t|i];
    auto using fine_cold, fine_warm, fine_use, fine_store, fine_discard, fine_evict, fine_drop_tagged.
  - simpl. constructor; simpl.
    + intros t x [[<- <-]|[Hne Ht]]%lookup_insert_Some.
      * constructor; simpl; [|lia|constructor|constructor]. intros Hf%(w_freed _ H). lia.
      * apply (tagged_ok_heap s); simpl; [by apply (w_tagged _ H)|done|lia|done].
    + intros q e Hq. apply (event_ok_heap s); simpl; [by apply (w_events _ H)| |done].
      intros t x Ht. assert (t <> next s) by (intros ->; destruct (w_tagged _ H _ _ Ht) as [_ [_ ?] _ _]; lia).
      rewrite lookup_insert_ne by done. eauto.
    + intros k Hk%(w_slots _ H). lia.
    + intros i Hi%(w_freed _ H). lia.
  - simpl. destruct (tagged s !! t) as [x|] eqn:Hx; simpl; [|done]. destruct (events s !! q) eqn:Hq; [done|].
    destruct (in_pool x); [|done]. simpl. apply wf_set_event; [done|]. constructor; simpl; [by eexists|done].
  - simpl. destruct (events s !! q) as [e|] eqn:He; simpl; [|done]. destruct (e_ctx e) eqn:Hc; [done|]. simpl.
    constructor; simpl; try apply H.
    + intros t x Ht. destruct (w_tagged _ H t x Ht). by constructor.
    + intros q' e' [_ Hq]%lookup_delete_Some. destruct (w_events _ H q' e' Hq). by constructor.
  - simpl. destruct (tagged s !! t) as [x|] eqn:Hx; simpl; [|done]. constructor; simpl; try apply H.
    + intros t' y [[<- <-]|[Hne Ht]]%lookup_insert_Some.
      * destruct (w_tagged _ H _ _ Hx) as [? ? ? ?]. by constructor.
      * destruct (w_tagged _ H _ _ Ht) as [? ? ? ?]. by constructor.
    + intros q e Hq. apply (event_ok_heap s); simpl; [by apply (w_events _ H)| |done].
      intros t' y Hy. destruct (decide (t = t')) as [<-|]; [rewrite lookup_insert_eq; simplify_eq; eauto|].
      rewrite lookup_insert_ne by done. eauto.
  - simpl. destruct (isolate_held s i) eqn:Hh; [done|]. destruct (Nat.ltb_spec i (next s)); simpl; [|done].
    unfold isolate_held in Hh. apply orb_false_iff in Hh as [_ Hh]. constructor; simpl; try apply H.
    + intros t x Ht. destruct (w_tagged _ H t x Ht) as [? ? ? ?]. constructor; simpl; try done.
      pose proof (existsb_map _ _ _ _ Hh Ht) as Hf. simpl in Hf. apply Nat.eqb_neq in Hf. set_solver.
    + intros q e Hq. destruct (w_events _ H q e Hq). by constructor.
    + intros j [->%elem_of_singleton|Hj]%elem_of_union; [done|by apply (w_freed _ H)].
Qed.

Lemma run_fine ls : forall s, wf s -> fine (run s ls).
Proof.
  induction ls as [|l ls IH]; intros s H; [done|]. simpl. pose proof (fine_exec s l H) as Hf.
  destruct (exec s l) as [[|s']|]; [done|by apply IH|done].
Qed.

(** ** Properties *)

(** C29: The raw pointers are sound. However isolates are made and reclaimed, and contexts
    are made, cached, reused, evicted and dropped by events that interleave, no step uses an
    isolate or binding state that was freed, and no context is dropped under the lock of
    another isolate. *)
Theorem raw_pointers_are_sound ls : run initial ls <> Some Undefined.
Proof. pose proof (run_fine ls initial wf_initial) as H. intros E. by rewrite E in H. Qed.

(** The binding state of a context is its own: what a native finds for a type is what
    was last stored for this type in this context, and storing changes nothing for another
    type or for a context that has slots of its own. *)
Theorem context_state_is_isolated h h' ctx ty v :
  set h ctx ty v = Some h' -> is_Some (private h !! ctx) ->
  get h' ctx ty = Some (Some v) /\
  (forall ty', ty' <> ty -> get h' ctx ty' = get h ctx ty') /\
  (forall ctx' ty', private h !! ctx' <> private h !! ctx -> get h' ctx' ty' = get h ctx' ty').
Proof.
  unfold set, get, deref. intros E [s Hs]. rewrite Hs in E. destruct (slots h !! s) as [[o m]|] eqn:Em; [|done].
  injection E as <-. simpl. rewrite Hs, lookup_insert_eq. split_and!.
  - f_equal. apply lookup_insert_eq.
  - intros ty' Hne. rewrite Em. f_equal. by apply lookup_insert_ne.
  - intros ctx' ty' Hne. destruct (private h !! ctx') as [s'|] eqn:Hs'; [|done]. rewrite lookup_insert_ne by congruence. done.
Qed.

(** ** Concrete runs *)

(** Two events on one isolate, one context reused, the isolate reclaimed under the second
    event and dropped after it. *)
Definition demo : list label :=
  [LIsolate; LAcquire 0 0; LCold 0; LUse 0 1 5%Z; LStore 0; LAcquire 1 0; LWarm 1 0; LCold 0; LUse 1 1 6%Z;
   LDiscard 0; LRelease 0; LReclaim 0; LUse 1 2 7%Z; LStore 1; LRelease 1; LDropTagged 0; LDropIsolate 0].

Example demo_ends :
  match run initial demo with Some (Next s) => Some (freed s, size (slots (heap s)), size (tagged s)) | _ => None end =
  Some ({[0]}, 0, 0).
Proof. vm_compute. reflexivity. Qed.

Lemma context_state_is_isolated_witness :
  exists h h', h = attach (mkHeap {[3 := (OfRequest 0, ∅)]} ∅) 8 3 /\ set h 8 1 5%Z = Some h' /\
    get h' 8 1 = Some (Some 5%Z).
Proof.
  eexists _, _. split; [reflexivity|]. split; [vm_compute; reflexivity|].
  apply (context_state_is_isolated (attach (mkHeap {[3 := (OfRequest 0, ∅)]} ∅) 8 3) _ 8 1 5%Z);
    [vm_compute; reflexivity|vm_compute; by eexists].
Defined.

End Isolates.
