(* ===== verification/ExecutionContext.v ===== *)
(** * Running one event in a context

    src/src/execution_context.rs ([exec], [drain_waituntil], [await_event_loop],
    [trigger_fetch_event], [trigger_task_event], [check_termination_reason],
    [reset], [abort]) with the exit conditions of src/src/execution_helpers.rs.

    The guest, the watchdogs and the client act between the observations the code
    makes, so every observation is an input: a [View] is what the code can read at
    one point, and a [PollEnv] is what one poll of the event loop sees. The effects
    the code has on its surroundings (the fair queue, the scheduler, the client)
    are recorded in order. An event that still waits when its polls are used up
    has no result. *)

From stdpp Require Import base list strings gmap.
From Stdlib Require Import ZArith Lia.
From S2P Require Import Prelude Streams Dispatch.

Module ExecutionContext.

Open Scope Z_scope.

Definition WebSocketId := Z.

(** ** Exit conditions (execution_helpers.rs) *)

Inductive EventLoopExit :=
| ResponseReady
| HandlerComplete
| StreamsComplete
| FullyComplete
| SocketClosed.

Inductive PromiseState := Pending | Fulfilled | Rejected.

(** The promises of the handle that dispatch.js answers for the event; [None] is a
    property that is not a promise. *)
Record Handle := mkHandle {
  answer : option PromiseState;
  done_ : option PromiseState;
  streamed : option PromiseState
}.

(** [settled] *)
Definition settled (p : option PromiseState) : bool :=
  match p with Some Pending => false | _ => true end.

Definition check_exit_condition (handle : option Handle) (c : EventLoopExit) : bool :=
  match handle with
  | None => true
  | Some h =>
      match c with
      | ResponseReady => settled (answer h)
      | HandlerComplete => settled (done_ h)
      | StreamsComplete => settled (streamed h)
      | FullyComplete => settled (done_ h) && settled (streamed h)
      | SocketClosed => true
      end
  end.

(** Whether the event is done, and whether its body is still going out. *)
Definition get_completion_state (handle : option Handle) : bool * bool :=
  match handle with
  | None => (true, false)
  | Some h => (settled (done_ h), negb (settled (streamed h)))
  end.

(** [AbortConfig::default], in milliseconds. *)
Definition grace_period : Z := 100.

(** ** What the code reads *)

(** [socket_open] is whether the dispatcher of the socket is in its table,
    [response_stream] whether the answered response streams, and then whether its
    stream still has a sender. *)
Record View := mkView {
  handle : option Handle;
  socket_registered : bool;
  response_stream : option bool;
  terminating : bool;
  memory_hit : bool;
  wall_triggered : bool;
  cpu_terminated : bool
}.

(** One round of callbacks: how many ran, or a closed channel, and what the code
    reads afterwards, at [now]. *)
Record Round := mkRound {
  count : nat;
  closed : bool;
  after : View;
  now : Z
}.

(** One poll of the event loop: whether the deadline has passed, whether the fair
    queue grants the lock, what is read before the JavaScript, in each round and at
    the end, and whether the guard of the turn fired. *)
Record PollEnv := mkPoll {
  expired : bool;
  granted : bool;
  start : View;
  rounds : nat -> Round;
  turn_triggered : bool;
  finish : View
}.

(** Effects, in order. *)
Inductive effect :=
| TryLock (got : bool)
| Unlock
| Expire
| Refill
| SignalDisconnect
| NewWallGuard
| SendUpgrade (socket : option WebSocketId)
| SendResponse (status : Z)
| SendTaskResult
| SendClose (socket : WebSocketId).

(** [WallClock]: the guard of the event, with a deadline or without one, or one
    guard per turn. *)
Inductive WallClock := Event (has_deadline : bool) | PerTurn.

(** What the loop keeps over its polls. *)
Record LoopState := mkLoop {
  abort_signaled_at : option Z;
  hit : bool
}.

(** ** The event loop *)

(** [check_exit_with_abort] *)
Definition check_exit_with_abort (c : EventLoopExit) (abort : option Z) (st : LoopState)
    (socket : option WebSocketId) (r : Round) : bool * LoopState * list effect :=
  let v := after r in
  match c with
  | SocketClosed => (negb (bool_decide (is_Some socket) && socket_registered v), st, [])
  | _ =>
      let base_exit := check_exit_condition (handle v) c in
      match abort with
      | None => (base_exit, st, [])
      | Some grace =>
          let '(request_complete, streaming) := get_completion_state (handle v) in
          let gone := streaming && bool_decide (abort_signaled_at st = None) &&
                      match response_stream v with Some has_sender => negb has_sender | None => false end in
          let st' := if gone then mkLoop (Some (now r)) (hit st) else st in
          let grace_exceeded := match abort_signaled_at st' with
                                | Some t => grace <? now r - t
                                | None => false
                                end in
          (base_exit || (request_complete && grace_exceeded), st',
           if gone then [SignalDisconnect] else [])
      end
  end.

(** [is_terminated] *)
Definition is_terminated (has_cpu : bool) (wall : WallClock) (st : LoopState) (v : View) : bool :=
  terminating v || memory_hit v ||
  match wall with Event _ => wall_triggered v | PerTurn => hit st end ||
  (has_cpu && cpu_terminated v).

Definition MAX_COALESCE_ROUNDS : nat := 4.

(** The rounds of one poll: the result, if a round ends the loop. *)
Fixpoint coalesce (n k : nat) (c : EventLoopExit) (abort : option Z) (st : LoopState)
    (socket : option WebSocketId) (e : PollEnv)
  : option (result unit string) * LoopState * list effect :=
  match n with
  | O => (None, st, [])
  | S n' =>
      let r := rounds e k in
      if closed r then (Some (Err "Event loop channel closed"%string), st, [])
      else
        let '(should_exit, st', eff) := check_exit_with_abort c abort st socket r in
        if should_exit then (Some (Ok tt), st', eff)
        else if Nat.eqb (count r) 0 || Nat.eqb n' 0 then (None, st', eff)
        else let '(res, st'', eff') := coalesce n' (S k) c abort st' socket e in
             (res, st'', eff ++ eff')
  end.

Definition TERMINATED : string := "Execution terminated".

(** One poll of [await_event_loop]; [shared] is whether requests share the isolate
    (there is a fair queue). *)
Definition poll (shared has_cpu : bool) (wall : WallClock) (c : EventLoopExit) (abort : option Z)
    (socket : option WebSocketId) (st : LoopState) (e : PollEnv)
  : option (result unit string) * LoopState * list effect :=
  if (match wall with Event true => expired e | _ => false end)
  then (Some (Err TERMINATED), st, [Expire])
  else if shared && negb (granted e) then (None, st, [TryLock false])
  else
    let locked := if shared then [TryLock true] else [] in
    let unlocked := if shared then [Unlock] else [] in
    let turn_guard := match wall with
                      | Event _ => []
                      | PerTurn => (if has_cpu then [Refill] else []) ++ [NewWallGuard]
                      end in
    if is_terminated has_cpu wall st (start e)
    then (Some (Err TERMINATED), st, locked ++ turn_guard ++ unlocked)
    else
      let '(res, st', eff) := coalesce MAX_COALESCE_ROUNDS 0 c abort st socket e in
      match res with
      | Some r => (Some r, st', locked ++ turn_guard ++ eff ++ unlocked)
      | None =>
          let st'' := match wall with
                      | PerTurn => if turn_triggered e then mkLoop (abort_signaled_at st') true else st'
                      | Event _ => st'
                      end in
          (if is_terminated has_cpu wall st'' (finish e) then Some (Err TERMINATED) else None, st'',
           locked ++ turn_guard ++ eff ++ unlocked)
      end.

(** [await_event_loop]: the polls until one is ready. [None] is a loop that still
    waits after all of them. *)
Fixpoint await_event_loop (shared has_cpu : bool) (wall : WallClock) (c : EventLoopExit)
    (abort : option Z) (socket : option WebSocketId) (st : LoopState) (es : list PollEnv)
  : option (result unit string) * LoopState * list effect :=
  match es with
  | [] => (None, st, [])
  | e :: es =>
      let '(res, st', eff) := poll shared has_cpu wall c abort socket st e in
      match res with
      | Some r => (Some r, st', eff)
      | None =>
          let '(res', st'', eff') := await_event_loop shared has_cpu wall c abort socket st' es in
          (res', st'', eff ++ eff')
      end
  end.

Definition loop0 : LoopState := mkLoop None false.

(** ** Effects in sequence

    A computation of the context: its value, or [None] while it still waits, and
    the effects so far. *)

Definition M (A : Type) : Type := option A * list effect.

Definition ret {A} (a : A) : M A := (Some a, []).
Definition tell (e : effect) : M unit := (Some tt, [e]).
Definition bind {A B} (m : M A) (k : A -> M B) : M B :=
  match m with
  | (Some a, l) => let '(r, l') := k a in (r, l ++ l')
  | (None, l) => (None, l)
  end.

Declare Scope ctx_scope.
Notation "'let*' x := m 'in' k" := (bind m (fun x => k))
  (at level 200, x name, m at level 100, k at level 200) : ctx_scope.
Open Scope ctx_scope.

(** A run of the event loop as a computation: its result and its [hit] flag. *)
Definition event_loop (shared has_cpu : bool) (wall : WallClock) (c : EventLoopExit)
    (abort : option Z) (socket : option WebSocketId) (es : list PollEnv)
  : M (result unit string * bool) :=
  let '(res, st, eff) := await_event_loop shared has_cpu wall c abort socket loop0 es in
  ((fun r => (r, hit st)) <$> res, eff).

(** A phase that takes the fair queue and the lock once; [tries] are the answers of
    the queue, poll by poll. *)
Fixpoint locked_phase (shared : bool) (tries : list bool) : M unit :=
  if shared then
    match tries with
    | [] => (None, [])
    | true :: _ => (Some tt, [TryLock true; Unlock])
    | false :: tries => let* _ := tell (TryLock false) in locked_phase shared tries
    end
  else ret tt.

(** What a fetch event meets: the answers of the queue, of the guest handler
    ([trigger_fetch_handler]) and of the response reader ([read_response_object],
    the status; [read_response_socket]). *)
Record FetchEnv := mkFetch {
  upgrade : bool;
  f_tries : list bool;
  f_triggered : result unit string;
  f_response : list PollEnv;
  f_read_tries : list bool;
  f_read : result Z string;
  f_socket : option WebSocketId;
  f_streams : list PollEnv
}.

Record TaskEnv := mkTask {
  t_tries : list bool;
  t_triggered : result unit string;
  t_polls : list PollEnv;
  t_read_tries : list bool
}.

Inductive EventInit := Fetch (init : option FetchEnv) | Task (init : option TaskEnv).

(** The limits of the context: whether requests share the isolate, whether there is
    a CPU guard, and whether the wall clock has a deadline. *)
Record Limits := mkLimits { shared : bool; has_cpu : bool; has_deadline : bool }.

Definition REFUSE_SOCKET : string :=
  "The response carries a WebSocket, but the request is not a WebSocket upgrade".
Definition REFUSE_101 : string :=
  "A 101 response must carry the client end of a WebSocketPair".

(** The socket the response hands over, or why it is refused. *)
Definition upgrade_of (socket : option WebSocketId) (upgrade : bool) (status : Z)
  : option WebSocketId * option string :=
  match socket with
  | Some ws => if upgrade then (Some ws, None) else (None, Some REFUSE_SOCKET)
  | None => if status =? 101 then (None, Some REFUSE_101) else (None, None)
  end.

(** [trigger_fetch_event]: the socket it leaves in the context, and the status. *)
Definition trigger_fetch_event (l : Limits) (f : FetchEnv)
  : M (option WebSocketId * result Z string) :=
  let* _ := locked_phase (shared l) (f_tries f) in
  match f_triggered f with
  | Err e => ret (None, Err e)
  | Ok _ =>
      let* r := event_loop (shared l) (has_cpu l) (Event (has_deadline l)) ResponseReady None None
             (f_response f) in
      match fst r with
      | Err e => ret (None, Err e)
      | Ok _ =>
          let* _ := locked_phase (shared l) (f_read_tries f) in
          match f_read f with
          | Err e => ret (None, Err e)
          | Ok status =>
              let '(up, refusal) := upgrade_of (f_socket f) (upgrade f) status in
              let* _ := tell (SendUpgrade up) in
              match refusal with
              | Some e => ret (up, Err e)
              | None =>
                  let* _ := tell (SendResponse status) in
                  let* s := event_loop (shared l) (has_cpu l) (Event (has_deadline l)) StreamsComplete
                         (Some grace_period) up (f_streams f) in
                  match fst s with
                  | Err e => ret (up, Err e)
                  | Ok _ => ret (up, Ok status)
                  end
              end
          end
      end
  end.

(** [trigger_task_event], with the 200 [exec] maps it to. *)
Definition trigger_task_event (l : Limits) (t : TaskEnv)
  : M (option WebSocketId * result Z string) :=
  let* _ := locked_phase (shared l) (t_tries t) in
  match t_triggered t with
  | Err e => ret (None, Err e)
  | Ok _ =>
      let* r := event_loop (shared l) (has_cpu l) (Event (has_deadline l)) HandlerComplete None None
             (t_polls t) in
      match fst r with
      | Err e => ret (None, Err e)
      | Ok _ =>
          let* _ := tell (SendUpgrade None) in
          let* _ := locked_phase (shared l) (t_read_tries t) in
          let* _ := tell SendTaskResult in
          ret (None, Ok 200)
      end
  end.

(** [str::contains] *)
Definition contains (s sub : string) : bool :=
  match String.index 0 sub s with Some _ => true | None => false end.

(** [check_termination_reason] *)
Definition check_termination_reason (r : result Z string) (cpu wall memory aborted : bool)
  : result unit TerminationReason :=
  if cpu then Err CpuTimeLimit
  else if wall then Err WallClockTimeout
  else if memory then Err MemoryLimit
  else if aborted then Err Aborted
  else match r with
       | Ok _ => Ok tt
       | Err e => if contains e "Max event loop iterations" then Err MaxIterationsReached
                  else Err (Exception e)
       end.

(** What [exec] meets besides its event: the flags at its start, whether the socket
    has a reader when the event ends and after its own loop, the polls of the
    socket, and what is read at the end. *)
Record ExecEnv := mkExec {
  aborted_before : bool;
  cpu_spent : bool;
  event : EventInit;
  reader_after_event : bool;
  socket_polls : list PollEnv;
  reader_at_end : bool;
  at_end : View;
  aborted : bool
}.

Definition socket_open (socket : option WebSocketId) (registered : bool) : bool :=
  bool_decide (is_Some socket) && registered.

(** The socket of an upgrade, in its own loop, one deadline per turn. *)
Definition serve_socket (l : Limits) (x : ExecEnv) (socket : option WebSocketId)
    (r : result Z string) : M (result Z string * bool) :=
  if is_ok r && socket_open socket (reader_after_event x) then
    let* s := event_loop (shared l) (has_cpu l) PerTurn SocketClosed None socket (socket_polls x) in
    let* _ := tell NewWallGuard in
    ret (match fst s with Err e => Err e | Ok _ => r end, snd s)
  else ret (r, false).

(** A socket that no reader reads is closed with the event. *)
Definition close_unread (x : ExecEnv) (socket : option WebSocketId) : M unit :=
  match socket with
  | Some ws => if socket_open socket (reader_at_end x) then ret tt else tell (SendClose ws)
  | None => ret tt
  end.

(** The part of [exec] after the event: the socket, the close of one that has no
    reader, and the reason. The outcome, and whether the budget is kept for
    [drain_waituntil]. *)
Definition end_event (l : Limits) (x : ExecEnv) (socket : option WebSocketId) (r : result Z string)
  : M (result unit TerminationReason * bool) :=
  let* rh := serve_socket l x socket r in
  let* _ := close_unread x socket in
  let outcome := check_termination_reason (fst rh) (has_cpu l && cpu_terminated (at_end x))
                   (snd rh || wall_triggered (at_end x)) (memory_hit (at_end x)) (aborted x) in
  ret (outcome, is_ok outcome).

(** [exec] *)
Definition exec (l : Limits) (x : ExecEnv) : M (result unit TerminationReason * bool) :=
  if aborted_before x then ret (Err Aborted, false)
  else
    let* _ := tell NewWallGuard in
    if has_cpu l && cpu_spent x then ret (Err CpuTimeLimit, false)
    else
      match event x with
      | Fetch None => ret (Err (Other "FetchInit already consumed"), false)
      | Task None => ret (Err (Other "TaskInit already consumed"), false)
      | Fetch (Some f) =>
          let* sr := trigger_fetch_event l f in end_event l x (fst sr) (snd sr)
      | Task (Some t) =>
          let* sr := trigger_task_event l t in end_event l x (fst sr) (snd sr)
      end.

(** [drain_waituntil], on the budget that [exec] kept or a fresh one. *)
Definition drain_waituntil (l : Limits) (budget : bool) (polls : list PollEnv) (v : View)
    (aborted : bool) : M (result unit TerminationReason) :=
  let* _ := (if budget then ret tt else tell NewWallGuard) in
  let* r := event_loop (shared l) (has_cpu l) (Event (has_deadline l)) FullyComplete None None polls in
  ret (check_termination_reason (match fst r with Ok _ => Ok 200 | Err e => Err e end)
         (has_cpu l && cpu_terminated v) (wall_triggered v) (memory_hit v) aborted).

(** ** Reuse *)

(** What a context keeps from one request to the next. *)
Record Context := mkContext {
  is_terminating : bool;
  pending : option Handle;
  budget : bool;
  abort_flag : bool;
  streams : Streams.StreamManager;
  callback_rx : list Dispatch.CallbackMessage;
  fetch_response_tx : bool;
  tables : Dispatch.World
}.

(** [run_clear_guest_state]: a turn under the limits of a request. [spent] is a CPU
    guard that starts spent, [called] how the function of the guest ended, [cpu] and
    [wall] the guards after it. *)
Definition run_clear_guest_state (spent : bool) (called : result unit string) (cpu wall : bool)
  : result unit string :=
  if spent then Err "reset: the CPU time limit"%string
  else if cpu then Err "reset: the CPU time limit"%string
  else if wall then Err "reset: the wall clock limit"%string
  else match called with Ok _ => Ok tt | Err m => Err ("reset: " +:+ m)%string end.

(** [reset]: the termination flag goes first, or the guest function could not run;
    an error leaves the rest as it is, and the pool drops the context. *)
Definition reset (c : Context) (spent : bool) (called : result unit string) (cpu wall : bool)
  : result unit string * Context :=
  let c1 := mkContext false None false (abort_flag c) (streams c) (callback_rx c)
              (fetch_response_tx c) (tables c) in
  match run_clear_guest_state spent called cpu wall with
  | Err e => (Err e, c1)
  | Ok _ => (Ok tt, mkContext false None false false (Streams.clear (streams c)) [] false
                      (Dispatch.reset (tables c)))
  end.

(** [abort] *)
Definition abort (c : Context) : Context :=
  mkContext true (pending c) (budget c) true (streams c) (callback_rx c) (fetch_response_tx c)
    (tables c).

(** A context that was reset waits for nothing and holds nothing of the request
    before, even one that was aborted. *)
Lemma reset_leaves_nothing c spent called cpu wall c' :
  reset c spent called cpu wall = (Ok tt, c') ->
  is_terminating c' = false /\ pending c' = None /\ budget c' = false /\ abort_flag c' = false /\
  Streams.active_count (streams c') = 0%nat /\ callback_rx c' = [] /\
  (forall id, ~ Dispatch.waiting (tables c') id) /\
  Dispatch.next_id (tables c') = Dispatch.next_id (tables c).
Proof.
  unfold reset, run_clear_guest_state. intros H.
  destruct spent, cpu, wall, called as [[]|e]; try discriminate H. injection H as <-.
  split_and!; try done. intros id [Hw|Hw]; simpl in Hw; rewrite lookup_empty in Hw; by destruct Hw.
Qed.

(** ** The fair queue *)

(** Replay the calls on the queue: whether the request holds it afterwards, or
    [None] if it locks or unlocks out of turn. *)
Fixpoint replay (held : bool) (l : list effect) : option bool :=
  match l with
  | [] => Some held
  | TryLock got :: l => if held then None else replay got l
  | Unlock :: l => if held then replay false l else None
  | _ :: l => replay held l
  end.

Lemma replay_app l1 l2 h : replay h (l1 ++ l2) = h' ← replay h l1; replay h' l2.
Proof.
  revert h. induction l1 as [|e l1 IH]; intros h; simpl; [done|].
  destruct e; simpl; try apply IH; destruct h; simpl; try done; apply IH.
Qed.

(** Effects that leave the queue alone. *)
Definition aside (e : effect) : bool := match e with TryLock _ | Unlock => false | _ => true end.

Lemma replay_aside l h : forallb aside l = true -> replay h l = Some h.
Proof. induction l as [|[] l IH]; simpl; try done; auto. Qed.

Lemma check_exit_signals c ab st sock r b st' eff :
  check_exit_with_abort c ab st sock r = (b, st', eff) -> Forall (eq SignalDisconnect) eff.
Proof.
  unfold check_exit_with_abort. intros H.
  destruct (get_completion_state (handle (after r))) as [rc streaming].
  destruct c; [..|by simplify_eq]; (destruct ab as [g|]; [|by simplify_eq]);
    injection H as <- <- <-; case_match; by repeat constructor.
Qed.

(** The rounds of a poll have no effect but to tell the guest of a disconnect. *)
Lemma coalesce_signals n : forall k c ab st sock e res st' eff,
  coalesce n k c ab st sock e = (res, st', eff) -> Forall (eq SignalDisconnect) eff.
Proof.
  induction n as [|n IH]; intros k c ab st sock e res st' eff; simpl; [by intros [= <- <- <-]|].
  destruct (closed (rounds e k)); [by intros [= <- <- <-]|].
  destruct (check_exit_with_abort c ab st sock (rounds e k)) as [[b st1] eff1] eqn:Hc.
  apply check_exit_signals in Hc. destruct b; [by intros [= <- <- <-]|].
  destruct (_ || _); [by intros [= <- <- <-]|].
  destruct (coalesce n (S k) c ab st1 sock e) as [[res2 st2] eff2] eqn:Hr.
  intros [= <- <- <-]. apply Forall_app. split; [done|by eapply IH].
Qed.

Lemma signals_aside eff : Forall (eq SignalDisconnect) eff -> forallb aside eff = true.
Proof. induction 1 as [|e eff <- _ IH]; [done|exact IH]. Qed.

Lemma turn_guard_aside wall has_cpu :
  forallb aside (match wall with
                 | Event _ => []
                 | PerTurn => (if has_cpu : bool then [Refill] else []) ++ [NewWallGuard]
                 end) = true.
Proof. by destruct wall, has_cpu. Qed.

(** What a poll does between its lock and its unlock. *)
Lemma replay_locked (sh : bool) mid :
  forallb aside mid = true ->
  replay false ((if sh then [TryLock true] else []) ++ mid ++ (if sh then [Unlock] else [])) = Some false.
Proof.
  intros H. destruct sh; simpl; rewrite replay_app.
  - by rewrite (replay_aside mid true H).
  - by rewrite (replay_aside mid false H).
Qed.

(** Every poll gives the queue back before it returns. *)
Lemma poll_replay sh cpu wall c ab sock st e res st' eff :
  poll sh cpu wall c ab sock st e = (res, st', eff) -> replay false eff = Some false.
Proof.
  unfold poll. destruct (match wall with Event true => expired e | _ => false end);
    [by intros [= <- <- <-]|].
  destruct (sh && negb (granted e)); [by intros [= <- <- <-]|].
  pose proof (turn_guard_aside wall cpu) as Ht.
  destruct (is_terminated cpu wall st (start e)).
  { intros [= <- <- <-]. by apply replay_locked. }
  destruct (coalesce MAX_COALESCE_ROUNDS 0 c ab st sock e) as [[r st1] eff1] eqn:Hc.
  apply coalesce_signals, signals_aside in Hc.
  assert (forall tg, forallb aside tg = true ->
    replay false ((if sh then [TryLock true] else []) ++ tg ++ eff1 ++ (if sh then [Unlock] else [])) = Some false) as Hr.
  { intros tg Htg. rewrite (app_assoc tg). apply replay_locked. by rewrite forallb_app, Htg. }
  destruct r as [r|]; intros [= <- <- <-]; by apply Hr.
Qed.

Lemma await_replay sh cpu wall c ab sock es : forall st res st' eff,
  await_event_loop sh cpu wall c ab sock st es = (res, st', eff) -> replay false eff = Some false.
Proof.
  induction es as [|e es IH]; intros st res st' eff; simpl; [by intros [= <- <- <-]|].
  destruct (poll sh cpu wall c ab sock st e) as [[r st1] eff1] eqn:Hp. apply poll_replay in Hp.
  destruct r as [r|]; [by intros [= <- <- <-]|].
  destruct (await_event_loop sh cpu wall c ab sock st1 es) as [[r2 st2] eff2] eqn:Ha.
  intros [= <- <- <-]. rewrite replay_app, Hp. simpl. by eapply IH.
Qed.

(** Computations that leave the queue as they find it. *)
Definition releases {A} (m : M A) : Prop := replay false (snd m) = Some false.

Lemma releases_bind {A B} (m : M A) (k : A -> M B) :
  releases m -> (forall a, releases (k a)) -> releases (bind m k).
Proof.
  unfold releases. destruct m as [[a|] l]; simpl; [|done]. intros Hm Hk. specialize (Hk a).
  destruct (k a) as [r l']. simpl in *. by rewrite replay_app, Hm.
Qed.

Lemma releases_ret {A} (a : A) : releases (ret a).
Proof. done. Qed.

Lemma releases_tell e : aside e = true -> releases (tell e).
Proof. by destruct e. Qed.

Lemma releases_loop sh cpu wall c ab sock es : releases (event_loop sh cpu wall c ab sock es).
Proof.
  unfold releases, event_loop.
  destruct (await_event_loop sh cpu wall c ab sock loop0 es) as [[r st] eff] eqn:H.
  by apply await_replay in H.
Qed.

Lemma releases_locked sh tries : releases (locked_phase sh tries).
Proof.
  destruct sh; [|by destruct tries]. induction tries as [|[] tries IH]; [done..|].
  unfold releases in *. simpl. by destruct (locked_phase true tries).
Qed.

Create HintDb queue.
#[local] Hint Resolve releases_bind releases_ret releases_loop releases_locked : queue.
#[local] Hint Extern 1 (releases (tell _)) => (apply releases_tell; reflexivity) : queue.
#[local] Hint Extern 2 (releases (match ?x with _ => _ end)) => (destruct x) : queue.
#[local] Hint Extern 2 (releases (let '(_, _) := ?x in _)) => (destruct x) : queue.

Lemma releases_fetch l f : releases (trigger_fetch_event l f).
Proof. unfold trigger_fetch_event. eauto 20 with queue. Qed.

Lemma releases_task l t : releases (trigger_task_event l t).
Proof. unfold trigger_task_event. eauto 20 with queue. Qed.

Lemma releases_end l x socket r : releases (end_event l x socket r).
Proof. unfold end_event, serve_socket, close_unread. eauto 20 with queue. Qed.

#[local] Hint Resolve releases_fetch releases_task releases_end : queue.

(** A request never keeps the fair queue. Whatever the guest, the watchdogs and
    the client do, on every path of [exec] and [drain_waituntil], errors, limits and
    waiting included, a request locks the queue only when it does not hold it,
    unlocks it only when it does, and does not hold it when it returns or waits. *)
Theorem requests_give_the_queue_back (l : Limits) (x : ExecEnv) budget polls v aborted :
  replay false (snd (exec l x)) = Some false /\
  replay false (snd (drain_waituntil l budget polls v aborted)) = Some false.
Proof.
  split.
  - change (releases (exec l x)). unfold exec. eauto 20 with queue.
  - change (releases (drain_waituntil l budget polls v aborted)). unfold drain_waituntil.
    eauto 20 with queue.
Qed.

(** ** What an outcome means *)

(** The exit condition, as the round [r] saw it; with the grace of a client that is
    gone, a request that is complete may also end. *)
Definition met (c : EventLoopExit) (ab : option Z) (sock : option WebSocketId) (r : Round) : bool :=
  negb (closed r) &&
  match c with
  | SocketClosed => negb (socket_open sock (socket_registered (after r)))
  | _ => check_exit_condition (handle (after r)) c ||
         (bool_decide (is_Some ab) && fst (get_completion_state (handle (after r))))
  end.

(** One of the polls saw the condition, within its four rounds. *)
Definition seen (c : EventLoopExit) (ab : option Z) (sock : option WebSocketId)
    (es : list PollEnv) : Prop :=
  exists e k, e ∈ es /\ (k < MAX_COALESCE_ROUNDS)%nat /\ met c ab sock (rounds e k) = true.

Lemma check_exit_met c ab st sock r st' eff :
  closed r = false -> check_exit_with_abort c ab st sock r = (true, st', eff) -> met c ab sock r = true.
Proof.
  unfold check_exit_with_abort, met, socket_open. intros -> H.
  destruct (get_completion_state (handle (after r))) as [rc streaming]. simpl.
  destruct c; [..|by injection H]; (destruct ab as [g|]; injection H as H _ _; [|by rewrite H]);
    rewrite bool_decide_true by (by eexists); simpl; destruct rc; rewrite ?orb_true_r, ?orb_false_r in *; done.
Qed.

Lemma coalesce_met n : forall k c ab st sock e st' eff,
  coalesce n k c ab st sock e = (Some (Ok tt), st', eff) ->
  exists j, (j < k + n)%nat /\ met c ab sock (rounds e j) = true.
Proof.
  induction n as [|n IH]; intros k c ab st sock e st' eff; simpl; [done|].
  destruct (closed (rounds e k)) eqn:Hcl; [done|].
  destruct (check_exit_with_abort c ab st sock (rounds e k)) as [[b st1] eff1] eqn:Hc.
  destruct b.
  { intros _. exists k. split; [lia|]. by eapply check_exit_met. }
  destruct (_ || _); [done|].
  destruct (coalesce n (S k) c ab st1 sock e) as [[res2 st2] eff2] eqn:Hr.
  intros [= -> <- <-]. destruct (IH _ _ _ _ _ _ _ _ Hr) as (j & Hj & Hm). exists j. split; [lia|done].
Qed.

Lemma poll_met sh cpu wall c ab sock st e st' eff :
  poll sh cpu wall c ab sock st e = (Some (Ok tt), st', eff) ->
  exists k, (k < MAX_COALESCE_ROUNDS)%nat /\ met c ab sock (rounds e k) = true.
Proof.
  unfold poll. destruct (match wall with Event true => expired e | _ => false end); [done|].
  destruct (sh && negb (granted e)); [done|]. destruct (is_terminated cpu wall st (start e)); [done|].
  destruct (coalesce MAX_COALESCE_ROUNDS 0 c ab st sock e) as [[r st1] eff1] eqn:Hc.
  destruct r as [r|].
  - intros [= -> <- <-]. destruct (coalesce_met _ _ _ _ _ _ _ _ _ Hc) as (j & Hj & Hm). eauto.
  - destruct (is_terminated _ _ _ (finish e)); done.
Qed.

Lemma await_seen sh cpu wall c ab sock es : forall st st' eff,
  await_event_loop sh cpu wall c ab sock st es = (Some (Ok tt), st', eff) -> seen c ab sock es.
Proof.
  induction es as [|e es IH]; intros st st' eff; simpl; [done|].
  destruct (poll sh cpu wall c ab sock st e) as [[r st1] eff1] eqn:Hp.
  destruct r as [r|].
  - intros [= -> <- <-]. destruct (poll_met _ _ _ _ _ _ _ _ _ _ Hp) as (k & Hk & Hm).
    exists e, k. split_and!; [apply elem_of_cons; by left|done|done].
  - destruct (await_event_loop sh cpu wall c ab sock st1 es) as [[r2 st2] eff2] eqn:Ha.
    intros [= -> <- <-]. destruct (IH _ _ _ Ha) as (e' & k & He & ?).
    exists e', k. split; [apply elem_of_cons; by right|done].
Qed.

Lemma loop_seen sh cpu wall c ab sock es b :
  fst (event_loop sh cpu wall c ab sock es) = Some (Ok tt, b) -> seen c ab sock es.
Proof.
  unfold event_loop. destruct (await_event_loop sh cpu wall c ab sock loop0 es) as [[r st] eff] eqn:H.
  simpl. destruct r as [r|]; [|done]. simpl. intros [= -> <-]. by eapply await_seen.
Qed.

Lemma bind_inv {A B} (m : M A) (k : A -> M B) b :
  fst (bind m k) = Some b -> exists a, fst m = Some a /\ fst (k a) = Some b /\
                                       snd (bind m k) = snd m ++ snd (k a).
Proof.
  destruct m as [[a|] l]; simpl; [|done]. intros H. exists a. destruct (k a) as [r l'] eqn:Hk.
  simpl in *. eauto.
Qed.

(** ** The client *)

(** The answers the client gets. *)
Definition to_client (e : effect) : bool :=
  match e with SendResponse _ | SendTaskResult => true | _ => false end.

Definition answers (l : list effect) : list effect := filter (fun e => to_client e = true) l.

Lemma answers_app l l' : answers (l ++ l') = answers l ++ answers l'.
Proof. apply filter_app. Qed.

Lemma answers_none l : forallb (negb ∘ to_client) l = true -> answers l = [].
Proof.
  induction l as [|e l IH]; [done|]. simpl. intros [He Hl]%andb_prop. unfold answers.
  rewrite filter_cons. rewrite decide_False by (by destruct (to_client e)). by apply IH.
Qed.

Lemma signals_quiet eff : Forall (eq SignalDisconnect) eff -> answers eff = [].
Proof. intros H. apply answers_none. induction H as [|e eff <- _ IH]; [done|exact IH]. Qed.

Lemma poll_quiet sh cpu wall c ab sock st e res st' eff :
  poll sh cpu wall c ab sock st e = (res, st', eff) -> answers eff = [].
Proof.
  unfold poll. destruct (match wall with Event true => expired e | _ => false end);
    [by intros [= <- <- <-]|].
  destruct (sh && negb (granted e)); [by intros [= <- <- <-]|].
  destruct (is_terminated cpu wall st (start e)).
  { intros [= <- <- <-]. by destruct sh, wall, cpu. }
  destruct (coalesce MAX_COALESCE_ROUNDS 0 c ab st sock e) as [[r st1] eff1] eqn:Hc.
  apply coalesce_signals, signals_quiet in Hc.
  destruct r as [r|]; intros [= <- <- <-]; rewrite !answers_app, Hc; by destruct sh, wall, cpu.
Qed.

Lemma await_quiet sh cpu wall c ab sock es : forall st res st' eff,
  await_event_loop sh cpu wall c ab sock st es = (res, st', eff) -> answers eff = [].
Proof.
  induction es as [|e es IH]; intros st res st' eff; simpl; [by intros [= <- <- <-]|].
  destruct (poll sh cpu wall c ab sock st e) as [[r st1] eff1] eqn:Hp. apply poll_quiet in Hp.
  destruct r as [r|]; [by intros [= <- <- <-]|].
  destruct (await_event_loop sh cpu wall c ab sock st1 es) as [[r2 st2] eff2] eqn:Ha.
  intros [= <- <- <-]. rewrite answers_app, Hp. by eapply IH.
Qed.

Lemma loop_quiet sh cpu wall c ab sock es : answers (snd (event_loop sh cpu wall c ab sock es)) = [].
Proof.
  unfold event_loop. destruct (await_event_loop sh cpu wall c ab sock loop0 es) as [[r st] eff] eqn:H.
  by apply await_quiet in H.
Qed.

Lemma locked_quiet sh tries : answers (snd (locked_phase sh tries)) = [].
Proof.
  destruct sh; [|by destruct tries]. induction tries as [|[] tries IH]; [done..|].
  simpl. destruct (locked_phase true tries). exact IH.
Qed.

#[local] Arguments bind : simpl never.
#[local] Arguments event_loop : simpl never.
#[local] Arguments answers : simpl never.

(** ** Success *)

(** Every phase of a fetch went through: the handler ran, the response was there,
    it was read, and its body went out. *)
Definition fetch_done (f : FetchEnv) (socket : option WebSocketId) (status : Z) : Prop :=
  f_triggered f = Ok tt /\ seen ResponseReady None None (f_response f) /\
  f_read f = Ok status /\ upgrade_of (f_socket f) (upgrade f) status = (socket, None) /\
  seen StreamsComplete (Some grace_period) socket (f_streams f).

Lemma fetch_ok l f socket status :
  fst (trigger_fetch_event l f) = Some (socket, Ok status) ->
  fetch_done f socket status /\ answers (snd (trigger_fetch_event l f)) = [SendResponse status].
Proof.
  unfold trigger_fetch_event, fetch_done. intros H. apply bind_inv in H as ([] & _ & H & ->).
  rewrite answers_app, locked_quiet. simpl.
  destruct (f_triggered f) as [[]|e]; [|done]. apply bind_inv in H as ([r b] & Hr & H & ->).
  rewrite answers_app, loop_quiet. simpl in H |- *. destruct r as [[]|e]; [|done].
  apply loop_seen in Hr. apply bind_inv in H as ([] & _ & H & ->).
  rewrite answers_app, locked_quiet. simpl. destruct (f_read f) as [st|e]; [|done].
  destruct (upgrade_of (f_socket f) (upgrade f) st) as [up refusal] eqn:Hu.
  apply bind_inv in H as ([] & _ & H & ->). simpl in H. destruct refusal as [e|]; [done|].
  apply bind_inv in H as ([] & _ & H & ->). simpl in H.
  apply bind_inv in H as ([r b'] & Hs & H & ->). simpl in H. destruct r as [[]|e]; [|done].
  apply loop_seen in Hs. injection H as <- <-.
  split; [split_and!; done|].
  rewrite !answers_app, loop_quiet. done.
Qed.

Lemma task_ok l t socket status :
  fst (trigger_task_event l t) = Some (socket, Ok status) ->
  socket = None /\ t_triggered t = Ok tt /\ seen HandlerComplete None None (t_polls t) /\
  answers (snd (trigger_task_event l t)) = [SendTaskResult].
Proof.
  unfold trigger_task_event. intros H. apply bind_inv in H as ([] & _ & H & ->).
  rewrite answers_app, locked_quiet. simpl.
  destruct (t_triggered t) as [[]|e]; [|done]. apply bind_inv in H as ([r b] & Hr & H & ->).
  rewrite answers_app, loop_quiet. simpl in H |- *. destruct r as [[]|e]; [|done].
  apply loop_seen in Hr. apply bind_inv in H as ([] & _ & H & ->).
  apply bind_inv in H as ([] & _ & H & ->). apply bind_inv in H as ([] & _ & H & ->).
  injection H as <- <-. rewrite !answers_app, locked_quiet. split_and!; done.
Qed.

Lemma reason_ok r cpu wall memory ab :
  check_termination_reason r cpu wall memory ab = Ok tt ->
  (exists s, r = Ok s) /\ cpu = false /\ wall = false /\ memory = false /\ ab = false.
Proof.
  unfold check_termination_reason. intros H. destruct cpu, wall, memory, ab; try discriminate H.
  destruct r as [s|e]; [split_and!; eauto|]. by destruct (contains e _).
Qed.

Lemma close_quiet x socket : answers (snd (close_unread x socket)) = [].
Proof. unfold close_unread. destruct socket; [by case_match|done]. Qed.

(** The socket of an upgrade is served until it has no reader. *)
Lemma end_ok l x socket r kept :
  fst (end_event l x socket r) = Some (Ok tt, kept) ->
  kept = true /\ answers (snd (end_event l x socket r)) = [] /\ (exists s, r = Ok s) /\
  (has_cpu l = true -> cpu_terminated (at_end x) = false) /\ wall_triggered (at_end x) = false /\
  memory_hit (at_end x) = false /\ aborted x = false /\
  (socket_open socket (reader_after_event x) = true -> seen SocketClosed None socket (socket_polls x)).
Proof.
  unfold end_event. intros H. apply bind_inv in H as ([r' h] & Hs & H & ->).
  apply bind_inv in H as ([] & _ & H & ->). injection H as H <-. simpl in H.
  apply reason_ok in H as ([s ->] & Hc & [-> Hw]%orb_false_iff & Hm & Ha).
  assert (is_ok (check_termination_reason (Ok s) (has_cpu l && cpu_terminated (at_end x))
    (false || wall_triggered (at_end x)) (memory_hit (at_end x)) (aborted x)) = true) as ->
    by by rewrite Hc, Hw, Hm, Ha.
  rewrite !answers_app. unfold serve_socket in *.
  rewrite close_quiet.
  destruct (is_ok r && socket_open socket (reader_after_event x)) eqn:Hb.
  - apply bind_inv in Hs as ([q b] & Hq & Hs & ->). simpl in Hs.
    destruct q as [[]|e]; simpl in Hs; [|done]. injection Hs as -> ->.
    rewrite answers_app, loop_quiet. split_and!; eauto using loop_seen.
    intros Hcpu. by rewrite Hcpu in Hc.
  - injection Hs as ->. simpl in Hb. split_and!; eauto.
    + intros Hcpu. by rewrite Hcpu in Hc.
    + intros Ho. congruence.
Qed.

(** What an [Ok] of [exec] means. *)
Lemma exec_ok (l : Limits) (x : ExecEnv) kept :
  fst (exec l x) = Some (Ok tt, kept) ->
  kept = true /\ aborted_before x = false /\ aborted x = false /\ memory_hit (at_end x) = false /\
  wall_triggered (at_end x) = false /\ (has_cpu l = true -> cpu_terminated (at_end x) = false) /\
  match event x with
  | Fetch (Some f) =>
      exists socket status, fetch_done f socket status /\
        answers (snd (exec l x)) = [SendResponse status] /\
        (socket_open socket (reader_after_event x) = true -> seen SocketClosed None socket (socket_polls x))
  | Task (Some t) =>
      t_triggered t = Ok tt /\ seen HandlerComplete None None (t_polls t) /\
      answers (snd (exec l x)) = [SendTaskResult]
  | _ => False
  end.
Proof.
  unfold exec. destruct (aborted_before x); [done|]. intros H.
  apply bind_inv in H as ([] & _ & H & ->). rewrite answers_app. simpl (answers (snd (tell _))).
  destruct (has_cpu l && cpu_spent x); [done|]. destruct (event x) as [[f|]|[t|]]; try done.
  - apply bind_inv in H as ([socket r] & Hf & H & ->). simpl in H.
    destruct (end_ok l x socket r kept H) as (Hk & Hq & [s ->] & Hcpu & Hw & Hm & Ha & Hs).
    destruct (fetch_ok l f socket s Hf) as [Hd Hans]. split_and!; try done.
    exists socket, s. rewrite answers_app, Hans. cbn [fst snd]. rewrite Hq. done.
  - apply bind_inv in H as ([socket r] & Ht & H & ->). simpl in H.
    destruct (end_ok l x socket r kept H) as (Hk & Hq & [s ->] & Hcpu & Hw & Hm & Ha & _).
    destruct (task_ok l t socket s Ht) as (-> & Htr & Hse & Hans). split_and!; try done.
    rewrite answers_app, Hans. cbn [fst snd]. rewrite Hq. done.
Qed.

(** C14: success means done. When [exec] answers Ok, no limit was hit and nothing
    was aborted; a fetch ran its handler, had its response, sent it once,
    and its body went out (or the client is gone and the
    request complete); its socket, if it has one with a reader, was served until the
    reader was gone; a task ran its handler to the end and sent one result. The
    budget is kept for the waitUntil work. *)
Theorem exec_ok_means_done (l : Limits) (x : ExecEnv) kept :
  fst (exec l x) = Some (Ok tt, kept) ->
  kept = true /\ aborted_before x = false /\ aborted x = false /\ memory_hit (at_end x) = false /\
  wall_triggered (at_end x) = false /\ (has_cpu l = true -> cpu_terminated (at_end x) = false) /\
  match event x with
  | Fetch (Some f) =>
      exists socket status, fetch_done f socket status /\
        answers (snd (exec l x)) = [SendResponse status] /\
        (socket_open socket (reader_after_event x) = true -> seen SocketClosed None socket (socket_polls x))
  | Task (Some t) =>
      t_triggered t = Ok tt /\ seen HandlerComplete None None (t_polls t) /\
      answers (snd (exec l x)) = [SendTaskResult]
  | _ => False
  end.
Proof. apply exec_ok. Qed.

(** ** Deadlines *)

(** A run of the event loop ends at its deadline at the latest. *)
Lemma await_deadline sh cpu c ab sock es : forall st,
  Exists (fun e => expired e = true) es ->
  is_Some (fst (fst (await_event_loop sh cpu (Event true) c ab sock st es))).
Proof.
  induction es as [|e es IH]; intros st H; [by inversion H|]. simpl.
  destruct (poll sh cpu (Event true) c ab sock st e) as [[r st1] eff1] eqn:Hp.
  destruct r as [r|]; [by eexists|].
  apply Exists_cons in H as [He|H]; [unfold poll in Hp; by rewrite He in Hp|].
  specialize (IH st1 H). by destruct (await_event_loop sh cpu (Event true) c ab sock st1 es) as [[r2 st2] eff2].
Qed.

Lemma loop_deadline sh cpu c ab sock es :
  Exists (fun e => expired e = true) es -> is_Some (fst (event_loop sh cpu (Event true) c ab sock es)).
Proof.
  intros H. apply (await_deadline sh cpu c ab sock es loop0) in H. unfold event_loop.
  destruct (await_event_loop sh cpu (Event true) c ab sock loop0 es) as [[[r|] st] eff]; simpl in *; [by eexists|by destruct H].
Qed.

Lemma locked_granted sh tries : sh = false \/ true ∈ tries -> is_Some (fst (locked_phase sh tries)).
Proof.
  intros [->|H]; [by destruct tries; eexists|]. destruct sh; [|by destruct tries; eexists].
  induction tries as [|[] tries IH]; [by apply not_elem_of_nil in H|by eexists|].
  apply elem_of_cons in H as [|H]; [done|]. specialize (IH H). simpl.
  by destruct (locked_phase true tries) as [[]].
Qed.

Lemma bind_ends {A B} (m : M A) (k : A -> M B) :
  is_Some (fst m) -> (forall a, fst m = Some a -> is_Some (fst (k a))) -> is_Some (fst (bind m k)).
Proof.
  intros [a Ha] H. specialize (H a Ha). destruct m as [o l]. simpl in *. subst. unfold bind.
  by destruct (k a).
Qed.

Lemma fetch_ends l f :
  has_deadline l = true -> shared l = false \/ (true ∈ f_tries f /\ true ∈ f_read_tries f) ->
  Exists (fun e => expired e = true) (f_response f) -> Exists (fun e => expired e = true) (f_streams f) ->
  is_Some (fst (trigger_fetch_event l f)).
Proof.
  intros Hd Hl H1 H2. unfold trigger_fetch_event. rewrite Hd.
  apply bind_ends; [apply locked_granted; tauto|]. intros [] _.
  destruct (f_triggered f); [|by eexists].
  apply bind_ends; [by apply loop_deadline|]. intros [r b] _. simpl. destruct r; [|by eexists].
  apply bind_ends; [apply locked_granted; tauto|]. intros [] _. destruct (f_read f) as [st|]; [|by eexists].
  destruct (upgrade_of (f_socket f) (upgrade f) st) as [up refusal].
  apply bind_ends; [by eexists|]. intros [] _. destruct refusal; [by eexists|].
  apply bind_ends; [by eexists|]. intros [] _.
  apply bind_ends; [by apply loop_deadline|]. intros [[] ?] _; by eexists.
Qed.

Lemma fetch_no_socket l f socket r :
  f_socket f = None -> fst (trigger_fetch_event l f) = Some (socket, r) -> socket = None.
Proof.
  unfold trigger_fetch_event. intros Hn H. apply bind_inv in H as ([] & _ & H & _).
  destruct (f_triggered f); [|by simplify_eq/=]. apply bind_inv in H as ([[] ?] & _ & H & _); [|by simplify_eq/=].
  apply bind_inv in H as ([] & _ & H & _). destruct (f_read f) as [st|]; [|by simplify_eq/=].
  rewrite Hn in H. simpl in H. destruct (st =? 101).
  all: apply bind_inv in H as ([] & _ & H & _); simplify_eq/=; try done.
  apply bind_inv in H as ([] & _ & H & _). apply bind_inv in H as ([[] ?] & _ & H & _); by simplify_eq/=.
Qed.

(** C16: an event ends. With a wall clock, a fetch event whose response hands over
    no socket, and any waitUntil work, come to an outcome once each wait has seen
    its deadline, provided the fair queue grants its turns: no guest, host or client
    can make them wait longer. *)
Theorem deadline_ends_the_event (l : Limits) (x : ExecEnv) f budget polls v ab :
  has_deadline l = true -> event x = Fetch (Some f) -> f_socket f = None ->
  shared l = false \/ (true ∈ f_tries f /\ true ∈ f_read_tries f) ->
  Exists (fun e => expired e = true) (f_response f) ->
  Exists (fun e => expired e = true) (f_streams f) ->
  Exists (fun e => expired e = true) polls ->
  is_Some (fst (exec l x)) /\ is_Some (fst (drain_waituntil l budget polls v ab)).
Proof.
  intros Hd He Hn Hl H1 H2 H3. split.
  - unfold exec. destruct (aborted_before x); [by eexists|]. apply bind_ends; [by eexists|]. intros [] _.
    destruct (has_cpu l && cpu_spent x); [by eexists|]. rewrite He.
    apply bind_ends; [by apply fetch_ends|]. intros [socket r] Hf. simpl.
    apply fetch_no_socket in Hf as ->; [|done]. unfold end_event, serve_socket. simpl.
    rewrite andb_false_r. apply bind_ends; [by eexists|]. intros [r' h] _.
    apply bind_ends; [by eexists|]. intros [] _. by eexists.
  - unfold drain_waituntil. rewrite Hd. apply bind_ends; [by destruct budget; eexists|]. intros [] _.
    apply bind_ends; [by apply loop_deadline|]. intros [r b] _. by eexists.
Qed.

(** ** A concrete event *)

Definition calm (h : Handle) : View := mkView (Some h) false None false false false false.
Definition waiting_handle : Handle := mkHandle (Some Pending) (Some Pending) (Some Pending).
Definition answered : Handle := mkHandle (Some Fulfilled) (Some Pending) (Some Pending).
Definition finished : Handle := mkHandle (Some Fulfilled) (Some Fulfilled) (Some Fulfilled).

(** A poll whose second round sees the handle [h]. *)
Definition poll_to (h : Handle) : PollEnv :=
  mkPoll false true (calm waiting_handle)
    (fun k => mkRound (match k with O => 2 | _ => 0 end)%nat false
                (calm (match k with O => waiting_handle | _ => h end)) 0)
    false (calm h).

Definition denied : PollEnv :=
  mkPoll false false (calm waiting_handle) (fun _ => mkRound 0 false (calm waiting_handle) 0) false
    (calm waiting_handle).

Definition demo_fetch : FetchEnv :=
  mkFetch false [false; true] (Ok tt) [denied; poll_to answered] [true] (Ok 200) None
    [poll_to finished].

Definition demo_event (f : FetchEnv) : ExecEnv :=
  mkExec false false (Fetch (Some f)) false [] false (calm finished) false.

Definition demo_limits : Limits := mkLimits true true true.

Lemma exec_ok_means_done_witness :
  answers (snd (exec demo_limits (demo_event demo_fetch))) = [SendResponse 200].
Proof.
  destruct (exec_ok_means_done demo_limits (demo_event demo_fetch) true)
    as (_ & _ & _ & _ & _ & _ & socket & status & Hd & Ha & _); [by vm_compute|].
  destruct Hd as (_ & _ & [= <-] & _). exact Ha.
Defined.

(** The same event, stuck: the response never comes, the deadline passes. *)
Definition past_deadline : PollEnv :=
  mkPoll true false (calm waiting_handle) (fun _ => mkRound 0 false (calm waiting_handle) 0) false
    (calm waiting_handle).

Definition stuck_fetch : FetchEnv :=
  mkFetch false [false; true] (Ok tt) [denied; past_deadline] [true] (Ok 200) None
    [past_deadline].

Lemma deadline_ends_the_event_witness :
  is_Some (fst (exec demo_limits (demo_event stuck_fetch))) /\
  is_Some (fst (drain_waituntil demo_limits true [past_deadline] (calm finished) false)).
Proof.
  apply (deadline_ends_the_event demo_limits (demo_event stuck_fetch) stuck_fetch true
    [past_deadline] (calm finished) false); try done.
  - right. split; set_solver.
  - apply Exists_cons_tl, Exists_cons_hd. done.
  - apply Exists_cons_hd. done.
  - apply Exists_cons_hd. done.
Defined.

End ExecutionContext.
