(* ===== verification/Turns.v ===== *)
(** * Requests that share an isolate take turns

    The event loops of ExecutionContext.v on one turn queue. A poll is synchronous:
    nothing else of the thread runs while its closure does, so the polls of the
    requests of an isolate happen one after the other, each with the answers the
    queue gives it. *)

From stdpp Require Import base list sets.
From S2P Require Import Prelude FairQueue AsyncWaiter Streams Dispatch ExecutionContext.

Module Turns.
Import ExecutionContext.

Section Client.
Context {Q : Type} `{FairQueue Q}.

(** One poll of the event loop of the request [who], with what it sees apart from
    the queue. *)
Record Poll := mkTurn {
  who : nat;
  with_cpu : bool;
  clock : WallClock;
  until : EventLoopExit;
  grace : option Z;
  upgraded : option WebSocketId;
  state : LoopState;
  env : PollEnv
}.

(** The answer of the queue takes the place of [granted]. *)
Definition grant (e : PollEnv) (g : bool) : PollEnv :=
  mkPoll (expired e) g (start e) (rounds e) (turn_triggered e) (finish e).

(** The calls of a poll on the queue. *)
Fixpoint on_queue (q : Q) (t : nat) (l : list effect) : Q :=
  match l with
  | [] => q
  | TryLock _ :: l => on_queue (snd (q_try q t)) t l
  | Unlock :: l => on_queue (q_unlock q) t l
  | _ :: l => on_queue q t l
  end.

(** One poll on the queue: its effects, and the queue after it. *)
Definition turn (q : Q) (p : Poll) : list effect * Q :=
  let g := fst (q_try q (who p)) in
  let eff := snd (poll true (with_cpu p) (clock p) (until p) (grace p) (upgraded p) (state p)
                    (grant (env p) g)) in
  (eff, on_queue q (who p) eff).

Fixpoint turns (q : Q) (ps : list Poll) : list (list effect) * Q :=
  match ps with
  | [] => ([], q)
  | p :: ps =>
      let '(eff, q) := turn q p in
      let '(effs, q) := turns q ps in (eff :: effs, q)
  end.

(** A poll that is granted its lock is never told no. *)
Lemma granted_never_refused cpu wall c ab sock st e :
  granted e = true -> TryLock false ∉ snd (poll true cpu wall c ab sock st e).
Proof.
  intros Hg. unfold poll. destruct (match wall with Event true => expired e | _ => false end); [set_solver|].
  rewrite Hg. simpl (true && negb true). cbv iota.
  assert (TryLock false ∉ match wall with
    | Event _ => [] | PerTurn => (if cpu then [Refill] else []) ++ [NewWallGuard] end) as Ht
    by (destruct wall, cpu; set_solver).
  destruct (is_terminated cpu wall st (start e)); [set_solver|].
  destruct (coalesce MAX_COALESCE_ROUNDS 0 c ab st sock e) as [[r st1] eff] eqn:Hc.
  apply coalesce_signals in Hc. rewrite Forall_forall in Hc.
  assert (TryLock false ∉ eff) by (intros Hin; by specialize (Hc _ Hin)).
  destruct r; set_solver.
Qed.

(** The queue follows the replay of the calls. *)
Lemma on_queue_replay t l : forall q h h',
  replay h l = Some h' -> TryLock false ∉ l -> q_free q = negb h ->
  q_free (on_queue q t l) = negb h'.
Proof.
  induction l as [|e l IH]; intros q h h' Hr Hn Hq; simpl in *; [by simplify_eq|].
  rewrite elem_of_cons in Hn.
  destruct e; simpl in *; try (eapply IH; [exact Hr|tauto|done]).
  - destruct h; [done|]. destruct got; [|tauto]. eapply IH; [exact Hr|tauto|]. apply q_try_taken.
  - destruct h; [|done]. eapply IH; [exact Hr|tauto|]. apply q_unlock_free.
Qed.

Lemma turn_free q p :
  q_free q = true -> q_free (snd (turn q p)) = true /\ TryLock false ∉ fst (turn q p).
Proof.
  intros Hq. unfold turn. rewrite q_try_answers, Hq. simpl.
  set (e := grant (env p) true).
  pose proof (granted_never_refused (with_cpu p) (clock p) (until p) (grace p) (upgraded p) (state p) e
                eq_refl) as Hn.
  destruct (poll true (with_cpu p) (clock p) (until p) (grace p) (upgraded p) (state p) e)
    as [[r st'] eff] eqn:Hp.
  split; [|exact Hn]. apply poll_replay in Hp. by apply (on_queue_replay (who p) eff q false false).
Qed.

(** C15: requests that share an isolate never wait for each other's JavaScript.
    Whatever the requests of an isolate poll, in whatever order, on a new queue: no
    poll is turned away, and the queue is free after each of them. *)
Theorem shared_requests_take_turns (ps : list Poll) :
  Forall (fun eff => TryLock false ∉ eff) (fst (turns q_new ps)) /\
  q_free (snd (turns q_new ps)) = true.
Proof.
  generalize q_new_free. generalize q_new. induction ps as [|p ps IH]; intros q Hq; cbn [turns]; [done|].
  destruct (turn q p) as [eff q1] eqn:Ht. destruct (turn_free q p Hq) as [Hf Hn].
  rewrite Ht in Hf, Hn. simpl in *. specialize (IH q1 Hf). destruct (turns q1 ps) as [effs q2].
  simpl in *. destruct IH. split; [by constructor|done].
Qed.

End Client.

(** Two requests on the waiter of an isolate. *)
Definition demo_turns : list (Poll) :=
  [mkTurn 1 true (Event true) ResponseReady None None loop0 (poll_to answered);
   mkTurn 2 true (Event true) ResponseReady None None loop0 denied;
   mkTurn 1 false PerTurn SocketClosed None (Some 3%Z) loop0 (poll_to answered)].

Lemma shared_requests_take_turns_witness :
  fst (turns (Q := Waiter.AsyncWaiter) q_new demo_turns) =
    [[TryLock true; Unlock]; [TryLock true; Unlock]; [TryLock true; NewWallGuard; Unlock]] /\
  q_free (snd (turns (Q := Waiter.AsyncWaiter) q_new demo_turns)) = true.
Proof. split; [by vm_compute|]. apply (shared_requests_take_turns demo_turns). Defined.

End Turns.
