(* ===== verification/DurableObject.v ===== *)
(** * A Durable Object (src/src/execution_context/durable_object.rs)

    The loop that serves the events of one object: which events it takes and which
    callbacks it runs (input gate), when its answers leave (output gate, on the
    queue of ObjectQueue.v), and when it stops.

    Guest code is what the environment chooses: a [Guest] is what one run of it
    does, and the [script] of an object lists its runs in order. What durable_object.js
    answers ([blocked], [failure], [reading], [pinned], the state of each event) only
    changes when guest code runs. What arrives from other threads is an input of the
    poll or the round that meets it. *)

From stdpp Require Import base list gmap strings relations.
From Stdlib Require Import ZArith Lia.
From S2P Require Import Prelude ObjectQueue Handlers Dispatch.

Module DurableObject.
Import ObjectQueue.

Definition EventId := nat.
Definition WebSocketId := Z.

(** [ObjectEvent], by identity; a fetch with whether it is an upgrade. *)
Inductive ObjectEvent :=
| Fetch (id : EventId) (upgrade : bool)
| Alarm (id : EventId)
| SocketEvent (id : EventId).

Definition event_id (e : ObjectEvent) : EventId :=
  match e with Fetch id _ | Alarm id | SocketEvent id => id end.

(** A response, by its status; [Refused] is the 500 that tells the caller why. *)
Inductive HttpResponse := Response (status : Z) | Refused (message : string).

Definition REFUSE_SOCKET : string :=
  "The response carries a WebSocket, but the request is not a WebSocket upgrade".
Definition REFUSE_101 : string :=
  "A 101 response must carry the client end of a WebSocketPair".

(** [Held]: an answer and the gate it waits for. *)
Record Held (T : Type) := mkHeld { held_answer : T; held_gate : nat }.
Arguments mkHeld {T}.
Arguments held_answer {T}.
Arguments held_gate {T}.

(** [InFlight]; [res_tx] and [done_tx] are whether the caller is still there to be
    answered. *)
Inductive InFlight :=
| FetchInFlight (id : EventId) (res_tx upgrade : bool) (held : option (Held HttpResponse))
    (disconnected : bool)
| AlarmInFlight (id : EventId) (done_tx : bool) (held : option (Held (result unit string)))
| SocketInFlight (id : EventId).

Definition flight_id (f : InFlight) : EventId :=
  match f with FetchInFlight id _ _ _ _ | AlarmInFlight id _ _ | SocketInFlight id => id end.

(** [Gate] *)
Inductive Gate :=
| GateState (blocked reading : bool)
| Broken (message : string).

Definition gate_open (g : Gate) : bool :=
  match g with GateState blocked reading => negb blocked && negb reading | Broken _ => false end.

Definition gate_reading (g : Gate) : bool :=
  match g with GateState _ reading => reading | Broken _ => false end.

(** What the code reads of the run of an event: of a fetch, whether its response is
    there, what [read_response_object] and [read_response_socket] answer, whether
    the event is complete, whether its body still goes out on a stream with no
    sender; of an alarm or a socket event, whether it is done and its error. *)
Record Run := mkRun {
  ready : bool;
  response : result Z string;
  socket : option WebSocketId;
  complete : bool;
  client_gone : bool;
  run_done : bool;
  run_error : option string
}.

Definition fresh_run : Run := mkRun false (Err "No response set"%string) None false false false None.

Section Object.

Context {StorageOp SocketOp Answer Host : Type}.
Context (writes : StorageOp -> bool).
Context (storage_error : string -> Answer) (is_error : Answer -> bool).
Context (handle_storage : Host -> StorageOp -> option Answer * Host).
Context (handle_socket : Host -> SocketOp -> Host).
Context (host0 : Host).

(** What the guest asks of the scheduler. *)
Inductive Ask :=
| AskStorage (callback_id : CallbackId) (op : StorageOp)
| AskSocket (op : SocketOp)
| AskOutbound
| AskUngated.

(** One run of guest code: its ops, what durable_object.js answers after it, and
    whether it was terminated. *)
Record Guest := mkGuest {
  asks : list Ask;
  gate_after : Gate;
  pinned_after : bool;
  runs_after : gmap EventId Run;
  terminated : bool
}.

(** What the object did, with the gate as it was: events and callbacks that came,
    events taken, callbacks run, answers sent and the gate each waited for. *)
Inductive Entry :=
| Mailed (l : list ObjectEvent)
| Called (l : list Dispatch.CallbackMessage)
| Took (id : EventId) (g : Gate)
| Ran (m : Dispatch.CallbackMessage) (g : Gate)
| SentResponse (id : EventId) (r : HttpResponse) (gate : nat)
| SentAlarm (id : EventId) (r : result unit string) (gate : nat)
| Upgraded (id : EventId) (ws : WebSocketId)
| SignalledDisconnect (id : EventId).

(** The object: its guest, its scheduler, and what it did. [progress] is how far
    the queue gets before each look at a gate. *)
Record Object := mkObject {
  script : list Guest;
  gate : Gate;
  pinned : bool;
  runs : gmap EventId Run;
  messages : list (@Message StorageOp SocketOp);
  next_gate : nat;
  served : nat;
  progress : list nat;
  log : list Entry
}.

Definition set_messages (o : Object) (ms : list Message) (n : nat) : Object :=
  mkObject (script o) (gate o) (pinned o) (runs o) ms n (served o) (progress o) (log o).

Definition note (o : Object) (e : Entry) : Object :=
  mkObject (script o) (gate o) (pinned o) (runs o) (messages o) (next_gate o) (served o)
    (progress o) (log o ++ [e]).

Definition run_of (o : Object) (id : EventId) : Run := default fresh_run (runs o !! id).

(** An op of the guest, sent to the scheduler. *)
Definition ask (o : Object) (a : Ask) : Object :=
  match a with
  | AskStorage id op => set_messages o (messages o ++ [MStorage id op]) (next_gate o)
  | AskSocket op => set_messages o (messages o ++ [MSocket op]) (next_gate o)
  | AskOutbound => set_messages o (messages o ++ [MOutbound (next_gate o)]) (S (next_gate o))
  | AskUngated => set_messages o (messages o ++ [MUngated (next_gate o)]) (S (next_gate o))
  end.

(** Guest code runs; whether it was terminated. *)
Definition enter (o : Object) : bool * Object :=
  match script o with
  | [] => (false, o)
  | g :: script' =>
      let o := foldl ask o (asks g) in
      (terminated g,
       mkObject script' (gate_after g) (pinned_after g) (runs_after g) (messages o) (next_gate o)
         (served o) (progress o) (log o))
  end.

(** [barrier] *)
Definition barrier (o : Object) : nat * Object :=
  (next_gate o, set_messages o (messages o ++ [MBarrier (next_gate o)]) (S (next_gate o))).

(** [Held::poll]: the queue may have moved on since the last look. *)
Definition poll_gate (o : Object) (g : nat) : option bool * Object :=
  let o := match progress o with
           | [] => o
           | n :: rest => mkObject (script o) (gate o) (pinned o) (runs o) (messages o) (next_gate o)
                            (served o + n) rest (log o)
           end in
  (gate_status writes storage_error is_error handle_storage handle_socket host0 (messages o)
     (served o) g, o).

(** [stopped] *)
Definition stopped (cpu wall memory : bool) : option TerminationReason :=
  if cpu then Some CpuTimeLimit
  else if wall then Some WallClockTimeout
  else if memory then Some MemoryLimit
  else None.

(** What the constructor meets: a CPU guard that starts spent, the limits it goes
    over, and the exception it throws. *)
Record ConstructEnv := mkConstruct {
  guard_spent : bool;
  over_cpu : bool;
  over_wall : bool;
  over_memory : bool;
  thrown : option string
}.

(** [construct] *)
Definition construct (o : Object) (c : ConstructEnv) : result Object TerminationReason :=
  if guard_spent c then Err CpuTimeLimit
  else
    let '(term, o) := enter o in
    match stopped (over_cpu c) (over_wall c) (over_memory c), thrown c with
    | Some reason, _ => Err reason
    | None, None => if term then Err (Other "Execution terminated") else Ok o
    | None, Some message => Err (if term then Other "Execution terminated" else Exception message)
    end.

(** [DurableObject::new]; [context] is what [new_with_pooled_isolate] answers. *)
Definition new_object (context : result Object TerminationReason) (c : ConstructEnv)
  : result Object TerminationReason :=
  let? o := context in construct o c.

(** ** Taking events *)

(** How a turn ends early: with an error, or with a panic ([expect]). *)
Inductive Stop := Failed (message : string) | Panicked.

(** [admit]: the fetch handler that is terminated is an error; [alarm()] and
    [socket()] are expected not to be. *)
Definition admit_event (o : Object) (e : ObjectEvent) : result (InFlight * Object) (Stop * Object) :=
  let o := note o (Took (event_id e) (gate o)) in
  let '(term, o) := enter o in
  match e with
  | Fetch id upgrade =>
      if term then Err (Failed "Execution terminated", o)
      else Ok (FetchInFlight id true upgrade None false, o)
  | Alarm id => if term then Err (Panicked, o) else Ok (AlarmInFlight id true None, o)
  | SocketEvent id => if term then Err (Panicked, o) else Ok (SocketInFlight id, o)
  end.

(** Events of a list, in order, as long as the gate is open: what is left, the
    events taken and the object. *)
Fixpoint admit_list (o : Object) (inflight : list InFlight) (l : list ObjectEvent)
  : result (list ObjectEvent * list InFlight * Object) (Stop * Object * list ObjectEvent) :=
  match l with
  | [] => Ok ([], inflight, o)
  | e :: l' =>
      if gate_open (gate o) then
        match admit_event o e with
        | Ok (f, o) => admit_list o (inflight ++ [f]) l'
        | Err (stop, o) => Err (stop, o, l')
        end
      else Ok (l, inflight, o)
  end.

(** What the loop keeps between polls. [mail] is what the mailbox holds. *)
Record Loop := mkLoop {
  queue : list ObjectEvent;
  mail : list ObjectEvent;
  inflight : list InFlight;
  pending : list Dispatch.CallbackMessage;
  closed : bool
}.

(** The [while] of a round: the queue first, then the mailbox, which tells that it
    is closed only once it is empty. An error leaves what the mailbox still holds. *)
Definition admit_all (o : Object) (t : Loop) (mail_closed : bool)
  : result (Loop * Object) (Stop * Object * list ObjectEvent) :=
  match admit_list o (inflight t) (queue t) with
  | Err (stop, o, _) => Err (stop, o, mail t)
  | Ok ((_ :: _) as queue', inflight', o) =>
      Ok (mkLoop queue' (mail t) inflight' (pending t) (closed t), o)
  | Ok ([], inflight', o) =>
      let? r := admit_list o inflight' (mail t) in
      let '(mail', inflight', o) := r in
      let closed' := closed t || (bool_decide (mail' = []) && gate_open (gate o) && mail_closed) in
      Ok (mkLoop [] mail' inflight' (pending t) closed', o)
  end.

(** ** Callbacks *)

Definition is_storage (m : Dispatch.CallbackMessage) : bool :=
  match m with Dispatch.ObjectStorage _ _ => true | _ => false end.

(** The callback that runs next: any, or the first storage result while the object
    reads. *)
Definition next_callback (o : Object) (pending : list Dispatch.CallbackMessage) : option nat :=
  if gate_reading (gate o) then position is_storage pending
  else match pending with [] => None | _ => Some 0 end.

(** The loop of [drain_gated]; every turn takes one callback out, so as many turns
    as there are callbacks are enough. *)
Fixpoint run_callbacks (fuel : nat) (o : Object) (pending : list Dispatch.CallbackMessage)
    (count : nat) : Object * list Dispatch.CallbackMessage * nat :=
  match fuel with
  | O => (o, pending, count)
  | S fuel' =>
      match next_callback o pending ≫= fun i => vec_remove i pending with
      | None => (o, pending, count)
      | Some (m, pending') =>
          let o := note o (Ran m (gate o)) in
          run_callbacks fuel' (snd (enter o)) pending' (S count)
      end
  end.

(** [drain_gated] *)
Definition drain_gated (o : Object) (pending arrived : list Dispatch.CallbackMessage)
    (channel_closed : bool)
  : result (Object * list Dispatch.CallbackMessage * nat) (Stop * Object) :=
  let o := note o (Called arrived) in
  let pending := pending ++ arrived in
  if channel_closed then Err (Failed "Event loop channel closed", o)
  else Ok (run_callbacks (length pending) o pending 0).

(** ** Answers *)

(** The response a fetch sends, and the socket it hands over. *)
Definition respond (r : Run) (status : Z) (upgrade : bool) : HttpResponse * option WebSocketId :=
  match socket r with
  | Some ws => if upgrade then (Response status, Some ws) else (Refused REFUSE_SOCKET, None)
  | None => if (status =? 101)%Z then (Refused REFUSE_101, None) else (Response status, None)
  end.

(** [answer] for a fetch, in its three parts: reading the response and holding it;
    sending it; telling the guest that the client is gone. *)
Definition hold_response (o : Object) (id : EventId) (res_tx upgrade : bool)
    (held : option (Held HttpResponse)) : Object * bool * bool * option (Held HttpResponse) * bool :=
  let r := run_of o id in
  if res_tx && bool_decide (held = None) && ready r then
    match response r with
    | Ok status =>
        let '(resp, up) := respond r status upgrade in
        let o := match up with Some ws => note o (Upgraded id ws) | None => o end in
        let '(b, o) := barrier o in
        (o, res_tx, false, Some (mkHeld resp b), true)
    | Err _ => (o, false, upgrade, None, true)
    end
  else (o, res_tx, upgrade, held, false).

Definition send_response (o : Object) (id : EventId) (res_tx : bool)
    (held : option (Held HttpResponse)) : Object * bool * option (Held HttpResponse) * bool :=
  match held with
  | None => (o, res_tx, held, false)
  | Some h =>
      let '(status, o) := poll_gate o (held_gate h) in
      match status with
      | None => (o, res_tx, held, false)
      | Some open =>
          (if open then note o (SentResponse id (held_answer h) (held_gate h)) else o,
           false, None, true)
      end
  end.

Definition tell_disconnect (o : Object) (id : EventId) (res_tx disconnected : bool)
  : Object * bool * bool :=
  if negb res_tx && negb disconnected && client_gone (run_of o id)
  then (snd (enter (note o (SignalledDisconnect id))), true, true)
  else (o, disconnected, false).

(** One event of [answer]: the object, whether and how the event stays, and whether
    it answered or ran guest code. *)
Definition answer_fetch (o : Object) (id : EventId) (res_tx upgrade : bool)
    (held : option (Held HttpResponse)) (disconnected : bool) : Object * option InFlight * bool :=
  let '(o, res_tx, upgrade, held, a1) := hold_response o id res_tx upgrade held in
  let '(o, res_tx, held, a2) := send_response o id res_tx held in
  let '(o, disconnected, a3) := tell_disconnect o id res_tx disconnected in
  (o, if res_tx || negb (complete (run_of o id))
      then Some (FetchInFlight id res_tx upgrade held disconnected) else None,
   a1 || a2 || a3).

Definition answer_alarm (o : Object) (id : EventId) (done_tx : bool)
    (held : option (Held (result unit string))) : Object * option InFlight * bool :=
  let r := run_of o id in
  let '(o, held) :=
    match held with
    | Some h => (o, Some h)
    | None =>
        if run_done r then
          let '(b, o) := barrier o in
          (o, Some (mkHeld (match run_error r with Some e => Err e | None => Ok tt end) b))
        else (o, None)
    end in
  match held with
  | None => (o, Some (AlarmInFlight id done_tx None), false)
  | Some h =>
      let '(status, o) := poll_gate o (held_gate h) in
      match status with
      | None => (o, Some (AlarmInFlight id done_tx (Some h)), false)
      | Some open =>
          (if open && done_tx then note o (SentAlarm id (held_answer h) (held_gate h)) else o,
           None, true)
      end
  end.

Definition answer_one (o : Object) (f : InFlight) : Object * option InFlight * bool :=
  match f with
  | FetchInFlight id res_tx upgrade held disconnected =>
      answer_fetch o id res_tx upgrade held disconnected
  | AlarmInFlight id done_tx held => answer_alarm o id done_tx held
  | SocketInFlight id => if run_done (run_of o id) then (o, None, true) else (o, Some f, false)
  end.

(** [answer] *)
Fixpoint answer (o : Object) (inflight : list InFlight) : Object * list InFlight * bool :=
  match inflight with
  | [] => (o, [], false)
  | f :: rest =>
      let '(o, kept, a) := answer_one o f in
      let '(o, rest', a') := answer o rest in
      (o, option_list kept ++ rest', a || a')
  end.

(** The body of a response: its chunks with what the guest asks before each. *)
Definition Chunk := result (list Z) string.
Definition WRITE_FAILED : string := "a storage write of the Durable Object failed".

(** [gated]: each chunk waits for its own barrier. [room] is how many sends find a
    receiver. *)
Fixpoint gated (o : Object) (chunks : list (list Ask * Chunk)) (room : nat) : list Chunk * Object :=
  match chunks with
  | [] => ([], o)
  | (asked, chunk) :: chunks =>
      let '(b, o) := barrier (foldl ask o asked) in
      if bool_decide (b ∈ leaves writes storage_error is_error handle_storage handle_socket host0 (messages o))
      then match room with
           | O => ([], o)
           | S room => let '(out, o) := gated o chunks room in (chunk :: out, o)
           end
      else (match room with O => [] | S _ => [Err WRITE_FAILED] end, o)
  end.

(** ** Turns *)

(** What a round meets: events and callbacks that arrived, and channels that closed. *)
Record RoundEnv := mkRound {
  mail_in : list ObjectEvent;
  mail_closed : bool;
  calls_in : list Dispatch.CallbackMessage;
  calls_closed : bool
}.

Definition MAX_ROUNDS : nat := 4.

(** [turn]: whether it took an event, and whether it wakes itself for more work. *)
Fixpoint turn_rounds (n k : nat) (o : Object) (t : Loop) (took : bool) (env : nat -> RoundEnv)
  : result (Object * Loop * bool * bool) (Stop * Object * list ObjectEvent) :=
  match n with
  | O => Ok (o, t, took, false)
  | S n' =>
      let e := env k in
      let before := length (inflight t) in
      let o := note o (Mailed (mail_in e)) in
      let t := mkLoop (queue t) (mail t ++ mail_in e) (inflight t) (pending t) (closed t) in
      let? r := admit_all o t (mail_closed e) in
      let '(t, o) := r in
      let admitted := length (inflight t) - before in
      let? d := match drain_gated o (pending t) (calls_in e) (calls_closed e) with
                | Ok d => Ok d
                | Err stop => Err (stop, mail t)
                end in
      let '(o, pending', count) := d in
      let t := mkLoop (queue t) (mail t) (inflight t) pending' (closed t) in
      match gate o with
      | Broken _ => Ok (o, t, took, false)
      | GateState _ _ =>
          let '(o, inflight', answered) := answer o (inflight t) in
          let t := mkLoop (queue t) (mail t) inflight' (pending t) (closed t) in
          let took := took || (0 <? admitted) in
          if (admitted =? 0) && (count =? 0) && negb answered then Ok (o, t, took, false)
          else if n' =? 0 then Ok (o, t, took, true)
          else turn_rounds n' (S k) o t took env
      end
  end.

(** ** Serving *)

(** [ObjectSpec]'s durations and [GATE_TIMEOUT], in milliseconds. *)
Definition GATE_TIMEOUT : Z := 30000.

(** The timers of [serve]. *)
Record Timers := mkTimers {
  idle_at : Z;
  gate_at : option Z;
  drain_at : option Z
}.

(** What a poll meets: its rounds, the limits its turn went over, the callers that
    left, and the time. *)
Record PollEnv := mkPoll {
  rounds : nat -> RoundEnv;
  cpu_hit : bool;
  wall_hit : bool;
  memory_hit : bool;
  left : list EventId;
  now : Z
}.

(** [caller_left]: a caller that was answered, and a socket event, never leaves. *)
Definition caller_left (left : list EventId) (f : InFlight) : bool :=
  match f with
  | FetchInFlight id res_tx _ _ _ => res_tx && bool_decide (id ∈ left)
  | AlarmInFlight id done_tx _ => done_tx && bool_decide (id ∈ left)
  | SocketInFlight _ => false
  end.

(** How a poll ends: the loop is over, it panics, or it waits. *)
Inductive Polled :=
| Over (r : result unit TerminationReason)
| Panic
| Waits.

Definition BLOCKED_TOO_LONG : string := "blockConcurrencyWhile held the object for too long".
Definition DRAIN_OVER : string := "events in flight did not end after the object closed".

(** [sleep] for [d], started at [t] unless it already runs. *)
Definition start_timer (timer : option Z) (t d : Z) : Z := default (t + d)%Z timer.

(** The part of a poll after its turn. *)
Definition after_turn (idle drain : Z) (active took : bool) (o : Object) (t : Loop) (tm : Timers)
    (e : PollEnv) : Polled * Loop * Timers :=
  match gate o with
  | Broken message => (Over (Err (Exception message)), t, tm)
  | GateState blocked _ =>
      let gate_at' := if blocked then Some (start_timer (gate_at tm) (now e) GATE_TIMEOUT) else None in
      if match gate_at' with Some at_ => (at_ <=? now e)%Z | None => false end
      then (Over (Err (Other BLOCKED_TOO_LONG)), t, mkTimers (idle_at tm) gate_at' (drain_at tm))
      else
        let inflight' := filter (fun f => caller_left (left e) f = false) (inflight t) in
        let t := mkLoop (queue t) (mail t) inflight' (pending t) (closed t) in
        let busy := active || took || pinned o || negb (bool_decide (inflight' = [])) in
        let idle_at' := if busy then (now e + idle)%Z else idle_at tm in
        if bool_decide (inflight' = []) && (closed t || (idle_at' <=? now e)%Z)
        then (Over (Ok tt), t, mkTimers idle_at' gate_at' (drain_at tm))
        else if closed t then
          let drain_at' := start_timer (drain_at tm) (now e) drain in
          (if (drain_at' <=? now e)%Z then Over (Err (Other DRAIN_OVER)) else Waits, t,
           mkTimers idle_at' gate_at' (Some drain_at'))
        else (Waits, t, mkTimers idle_at' gate_at' (drain_at tm))
  end.

(** One poll of [serve]. *)
Definition poll (idle drain : Z) (o : Object) (t : Loop) (tm : Timers) (e : PollEnv)
  : Polled * Object * Loop * Timers :=
  let active := negb (bool_decide (inflight t = [])) in
  match turn_rounds MAX_ROUNDS 0 o t false (rounds e) with
  | Err (Panicked, o, m) => (Panic, o, mkLoop [] m [] [] (closed t), tm)
  | Err (Failed message, o, m) =>
      (Over (Err (default (Exception message) (stopped (cpu_hit e) (wall_hit e) (memory_hit e)))),
       o, mkLoop [] m [] [] (closed t), tm)
  | Ok (o, t, took, _) =>
      match stopped (cpu_hit e) (wall_hit e) (memory_hit e) with
      | Some reason => (Over (Err reason), o, t, tm)
      | None =>
          let '(p, t, tm) := after_turn idle drain active took o t tm e in (p, o, t, tm)
      end
  end.

(** [serve]: the polls until one ends the loop. *)
Fixpoint serve_polls (idle drain : Z) (o : Object) (t : Loop) (tm : Timers) (es : list PollEnv)
  : Polled * Object * Loop * Timers :=
  match es with
  | [] => (Waits, o, t, tm)
  | e :: es =>
      let '(p, o, t, tm) := poll idle drain o t tm e in
      match p with
      | Waits => serve_polls idle drain o t tm es
      | _ => (p, o, t, tm)
      end
  end.

(** [DurableObject::serve], with what the mailbox holds. *)
Definition serve_object (idle drain start : Z) (cpu_spent : bool) (o : Object) (first : ObjectEvent)
    (mailbox : list ObjectEvent) (es : list PollEnv) : Polled * Object * Loop * Timers :=
  let t := mkLoop [first] mailbox [] [] false in
  let tm := mkTimers (start + idle)%Z None None in
  if cpu_spent then (Over (Err CpuTimeLimit), o, t, tm)
  else serve_polls idle drain o t tm es.

(** ** The lives of an object *)

(** A round of [run]: what came before it, when it starts, the context the script
    leaves, what the constructor meets, whether the CPU guard of [serve] starts
    spent, and its polls. *)
Record Life := mkLife {
  came : list ObjectEvent;
  start : Z;
  context : result Object TerminationReason;
  constructor : ConstructEnv;
  cpu_spent : bool;
  polls : list PollEnv
}.

(** [run]: each life with its first event, how it ended and the object it left;
    and what the mailbox holds. A panic ends the task. *)
Fixpoint run (idle drain : Z) (mailbox : list ObjectEvent) (lives : list Life)
  : list (ObjectEvent * option (Polled * Object * Loop)) * list ObjectEvent :=
  match lives with
  | [] => ([], mailbox)
  | life :: lives =>
      match mailbox ++ came life with
      | [] => ([], [])
      | first :: rest =>
          match new_object (context life) (constructor life) with
          | Err _ => let '(ls, m) := run idle drain rest lives in ((first, None) :: ls, m)
          | Ok o =>
              let '(p, o, t, _) :=
                serve_object idle drain (start life) (cpu_spent life) o first rest (polls life) in
              match p with
              | Over _ =>
                  let '(ls, m) := run idle drain (mail t) lives in ((first, Some (p, o, t)) :: ls, m)
              | _ => ([(first, Some (p, o, t))], mail t)
              end
          end
      end
  end.

End Object.

End DurableObject.
