(* ===== verification/DurableObjectCorrect.v ===== *)
(** * Correctness of a Durable Object

    Events go in one by one in the order they came and only through an open input
    gate; callbacks run in order, and only storage results run while the object
    reads; an answer leaves once, and only after the writes made before it were
    committed. *)

From stdpp Require Import base list gmap strings relations.
From Stdlib Require Import ZArith Lia.
From S2P Require Import Prelude ObjectQueue Handlers Dispatch DurableObject.

Module DurableObjectCorrect.
Import ObjectQueue DurableObject.

Section Correct.

Context {StorageOp SocketOp Answer Host : Type}.
Context (writes : StorageOp -> bool).
Context (storage_error : string -> Answer) (is_error : Answer -> bool).
Context (handle_storage : Host -> StorageOp -> option Answer * Host).
Context (handle_socket : Host -> SocketOp -> Host).
Context (host0 : Host).

Local Notation Object := (@Object StorageOp SocketOp).
Local Notation commits := (all_commit writes storage_error is_error handle_storage handle_socket host0).
Local Notation poll_gate := (poll_gate writes storage_error is_error handle_storage handle_socket host0).
Local Notation answer_one := (answer_one writes storage_error is_error handle_storage handle_socket host0).
Local Notation answer := (answer writes storage_error is_error handle_storage handle_socket host0).
Local Notation turn_rounds := (turn_rounds writes storage_error is_error handle_storage handle_socket host0).
Local Notation poll := (poll writes storage_error is_error handle_storage handle_socket host0).
Local Notation serve_polls := (serve_polls writes storage_error is_error handle_storage handle_socket host0).
Local Notation serve_object := (serve_object writes storage_error is_error handle_storage handle_socket host0).
Implicit Types (o : Object) (t : Loop) (f : InFlight).

(** ** What a log says *)

Definition mailed (l : list Entry) : list EventId :=
  mjoin (omap (fun e => match e with Mailed l => Some (event_id <$> l) | _ => None end) l).
Definition called (l : list Entry) : list Dispatch.CallbackMessage :=
  mjoin (omap (fun e => match e with Called l => Some l | _ => None end) l).
Definition taken (l : list Entry) : list EventId :=
  omap (fun e => match e with Took id _ => Some id | _ => None end) l.
Definition ran (l : list Entry) : list Dispatch.CallbackMessage :=
  omap (fun e => match e with Ran m _ => Some m | _ => None end) l.
Definition sent (l : list Entry) : list EventId :=
  omap (fun e => match e with SentResponse id _ _ | SentAlarm id _ _ => Some id | _ => None end) l.

(** A barrier whose writes before it are all committed. *)
Definition committed (ms : list (@Message StorageOp SocketOp)) (b : nat) : Prop :=
  exists pre post, ms = pre ++ MBarrier b :: post /\ commits (omap work_of pre) = true.

(** Every entry respects its gate. *)
Definition entry_ok (ms : list (@Message StorageOp SocketOp)) (e : Entry) : Prop :=
  match e with
  | Took _ g => gate_open g = true
  | Ran m g => gate_reading g = true -> is_storage m = true
  | SentResponse _ _ b | SentAlarm _ _ b => committed ms b
  | _ => True
  end.

Record object_wf (o : Object) : Prop := {
  wf_gates : NoDup (omap gate_name (messages o));
  wf_next : Forall (fun g => (g < next_gate o)%nat) (omap gate_name (messages o));
  wf_log : Forall (entry_ok (messages o)) (log o)
}.

(** The answers that are held wait for a barrier, and have a caller. *)
Definition flight_ok (ms : list (@Message StorageOp SocketOp)) (f : InFlight) : Prop :=
  match f with
  | FetchInFlight _ res_tx _ (Some h) _ => MBarrier (held_gate h) ∈ ms /\ res_tx = true
  | AlarmInFlight _ done_tx (Some h) => MBarrier (held_gate h) ∈ ms /\ done_tx = true
  | AlarmInFlight _ done_tx None => done_tx = true
  | _ => True
  end.

(** The object after some of its code: still well formed, nothing unsaid. *)
Record after_code (o o' : Object) : Prop := {
  ac_wf : object_wf o';
  ac_messages : messages o `prefix_of` messages o'
}.

Lemma committed_prefix ms ms' b : ms `prefix_of` ms' -> committed ms b -> committed ms' b.
Proof.
  intros [k ->] (pre & post & -> & H). exists pre, (post ++ k). by rewrite <-app_assoc.
Qed.

Lemma entry_prefix ms ms' e : ms `prefix_of` ms' -> entry_ok ms e -> entry_ok ms' e.
Proof. intros Hp. destruct e; simpl; try done; by apply committed_prefix. Qed.

Lemma flight_prefix ms ms' f : ms `prefix_of` ms' -> flight_ok ms f -> flight_ok ms' f.
Proof.
  intros [k ->]. destruct f as [? ? ? [h|] ?|? ? [h|]|]; simpl; try done;
    intros [H ?]; (split; [|done]); apply elem_of_app; by left.
Qed.

Lemma after_refl o : object_wf o -> after_code o o.
Proof. by split. Qed.

Lemma after_trans o1 o2 o3 : after_code o1 o2 -> after_code o2 o3 -> after_code o1 o3.
Proof. intros [_ H1] [H2 H3]. split; [done|by etrans]. Qed.

(** ** Small steps *)

Lemma note_wf o e : object_wf o -> entry_ok (messages o) e -> after_code o (note o e).
Proof. intros [G N L] He. split; [|done]. constructor; try done. simpl.
  apply Forall_app. by repeat constructor. Qed.

Lemma add_message o ms n m :
  object_wf o -> ms = messages o ++ [m] ->
  (gate_name m = None /\ n = next_gate o \/ gate_name m = Some (next_gate o) /\ n = S (next_gate o)) ->
  after_code o (set_messages o ms n).
Proof.
  intros [G N L] -> Hm. split; [|simpl; by eexists].
  assert (omap gate_name (messages o ++ [m]) =
          omap gate_name (messages o) ++ option_list (gate_name m)) as E.
  { rewrite omap_app. simpl. by destruct (gate_name m). }
  constructor; simpl; rewrite ?E.
  - destruct Hm as [[-> _]|[-> _]]; simpl; [by rewrite app_nil_r|].
    apply NoDup_app. split_and!; [done| |apply NoDup_singleton].
    rewrite Forall_forall in N. intros g Hg ->%list_elem_of_singleton. specialize (N _ Hg). lia.
  - destruct Hm as [[-> ->]|[-> ->]]; simpl; [by rewrite app_nil_r|].
    apply Forall_app. split; [eapply Forall_impl; [exact N|]; simpl; lia|].
    repeat constructor.
  - eapply Forall_impl; [exact L|]. intros e. apply entry_prefix. by eexists.
Qed.

Lemma ask_wf o a : object_wf o -> after_code o (ask o a).
Proof. intros H. destruct a; simpl; (eapply add_message; [done|done|simpl; tauto]). Qed.

Lemma asks_wf l : forall o, object_wf o -> after_code o (foldl ask o l).
Proof.
  induction l as [|a l IH]; intros o Ho; simpl; [by apply after_refl|].
  eapply after_trans; [by apply ask_wf|]. apply IH, ask_wf, Ho.
Qed.

Lemma ask_log l : forall o, log (foldl ask o l) = log o.
Proof. induction l as [|[] l IH]; intros o; simpl; [done|..]; by rewrite IH. Qed.

Lemma enter_wf o : object_wf o -> after_code o (snd (enter o)).
Proof.
  intros Ho. unfold enter. destruct (script o) as [|g script']; [by apply after_refl|]. simpl.
  destruct (asks_wf (asks g) o Ho) as [[G N L] Hp]. by split.
Qed.

Lemma enter_log o : log (snd (enter o)) = log o.
Proof. unfold enter. destruct (script o); simpl; [done|]. apply ask_log. Qed.

Lemma barrier_wf o b o' :
  object_wf o -> barrier o = (b, o') ->
  after_code o o' /\ MBarrier b ∈ messages o' /\ log o' = log o.
Proof.
  intros Ho [= <- <-]. split_and!; [|simpl; apply elem_of_app; right; by apply list_elem_of_singleton|done].
  eapply add_message; [done|done|simpl; tauto].
Qed.

(** An open barrier has all its writes committed. *)
Lemma open_committed o served b :
  object_wf o -> MBarrier b ∈ messages o ->
  gate_status writes storage_error is_error handle_storage handle_socket host0 (messages o) served b
    = Some true ->
  committed (messages o) b.
Proof.
  intros [G _ _] Hin Hst. apply gate_status_leaves in Hst.
  apply list_elem_of_split in Hin as (pre & post & E). rewrite E in *. exists pre, post. split; [done|].
  rewrite omap_app in G. simpl in G. apply NoDup_app in G as (_ & Hd & [Hn _]%NoDup_cons).
  apply (gate_leaves_iff writes storage_error is_error handle_storage handle_socket host0 pre
           (MBarrier b) b post); [done|done| |done|done].
  intros H. apply (Hd b H). by left.
Qed.

Lemma poll_gate_wf o b st o' :
  object_wf o -> poll_gate o b = (st, o') ->
  after_code o o' /\ log o' = log o /\ messages o' = messages o /\
  (MBarrier b ∈ messages o -> st = Some true -> committed (messages o') b).
Proof.
  intros Ho. unfold DurableObject.poll_gate. destruct (progress o) as [|n rest]; intros [= <- <-].
  - split_and!; [by apply after_refl|done|done|]. intros. by eapply open_committed.
  - simpl. split_and!; [by split; [destruct Ho|]|done|done|]. intros. by eapply open_committed.
Qed.

(** ** Logs *)

Lemma mailed_app l l' : mailed (l ++ l') = mailed l ++ mailed l'.
Proof. unfold mailed. by rewrite omap_app, join_app. Qed.
Lemma called_app l l' : called (l ++ l') = called l ++ called l'.
Proof. unfold called. by rewrite omap_app, join_app. Qed.
Lemma taken_app l l' : taken (l ++ l') = taken l ++ taken l'.
Proof. apply omap_app. Qed.
Lemma ran_app l l' : ran (l ++ l') = ran l ++ ran l'.
Proof. apply omap_app. Qed.
Lemma sent_app l l' : sent (l ++ l') = sent l ++ sent l'.
Proof. apply omap_app. Qed.

(** The part of the loop that wrote an entry. *)
Inductive part := PMail | PCalls | PTake | PRun | PAnswer.
Definition part_of (e : Entry) : part :=
  match e with
  | Mailed _ => PMail | Called _ => PCalls | Took _ _ => PTake | Ran _ _ => PRun
  | _ => PAnswer
  end.

Lemma part_logs p l :
  Forall (fun e => part_of e = p) l ->
  (p <> PMail -> mailed l = []) /\ (p <> PCalls -> called l = []) /\ (p <> PTake -> taken l = []) /\
  (p <> PRun -> ran l = []) /\ (p <> PAnswer -> sent l = []).
Proof.
  induction 1 as [|e l He _ (M & C & T & R & S)]; [done|].
  destruct e; simpl in He; subst p; split_and!; intros Hp; try done;
    try (rewrite <-(M ltac:(done)); done); try (rewrite <-(C ltac:(done)); done);
    try (rewrite <-(T ltac:(done)); done); try (rewrite <-(R ltac:(done)); done);
    rewrite <-(S ltac:(done)); done.
Qed.

(** Code that writes entries of one part. *)
Record wrote (p : part) (o o' : Object) (new : list Entry) : Prop := {
  wr_log : log o' = log o ++ new;
  wr_part : Forall (fun e => part_of e = p) new
}.

Lemma wrote_nil p o o' : log o' = log o -> wrote p o o' [].
Proof. intros H. split; [by rewrite app_nil_r|done]. Qed.

Lemma wrote_trans p o1 o2 o3 n1 n2 : wrote p o1 o2 n1 -> wrote p o2 o3 n2 -> wrote p o1 o3 (n1 ++ n2).
Proof. intros [E1 F1] [E2 F2]. split; [by rewrite E2, E1, app_assoc|by apply Forall_app]. Qed.

Lemma wrote_note p o e : part_of e = p -> wrote p o (note o e) [e].
Proof. intros H. split; [done|by repeat constructor]. Qed.

(** ** Taking events *)

Lemma admit_spec o e :
  object_wf o -> gate_open (gate o) = true ->
  match admit_event o e with
  | Ok (f, o') =>
      after_code o o' /\ wrote PTake o o' [Took (event_id e) (gate o)] /\
      flight_ok (messages o') f /\ flight_id f = event_id e
  | Err (_, o') => after_code o o' /\ wrote PTake o o' [Took (event_id e) (gate o)]
  end.
Proof.
  intros Ho Hg. unfold admit_event.
  destruct (note_wf o (Took (event_id e) (gate o)) Ho Hg) as [H1 H2].
  set (o1 := note o (Took (event_id e) (gate o))) in *.
  pose proof (enter_wf o1 H1) as He. pose proof (enter_log o1) as Hl.
  destruct (enter o1) as [term o2]. simpl in He, Hl.
  assert (after_code o o2) as Ha by (eapply after_trans; [by split|done]).
  assert (wrote PTake o o2 [Took (event_id e) (gate o)]) as Hw by (split; [by rewrite Hl|by repeat constructor]).
  destruct e as [id up|id|id], term; simpl; split_and!; done.
Qed.

Lemma admit_list_spec l : forall o fl,
  object_wf o ->
  match admit_list o fl l with
  | Ok (l', fl', o') =>
      exists a new es, l = a ++ l' /\ fl' = fl ++ new /\ flight_id <$> new = event_id <$> a /\
        Forall (flight_ok (messages o')) new /\ after_code o o' /\ wrote PTake o o' es /\
        taken es = event_id <$> a /\ (l' <> [] -> gate_open (gate o') = false)
  | Err (_, o', rest) =>
      exists a es, l = a ++ rest /\ after_code o o' /\ wrote PTake o o' es /\
        taken es = event_id <$> a /\ a <> []
  end.
Proof.
  induction l as [|e l IH]; intros o fl Ho; simpl.
  { exists [], [], []. split_and!; try done;
      first [by rewrite app_nil_r|by apply after_refl|by apply wrote_nil]. }
  destruct (gate_open (gate o)) eqn:Hg.
  2:{ exists [], [], []. split_and!; try done;
      first [by rewrite app_nil_r|by apply after_refl|by apply wrote_nil]. }
  pose proof (admit_spec o e Ho Hg) as Ha. destruct (admit_event o e) as [[f o1]|[st o1]]; simpl.
  - destruct Ha as (Ha & Hw & Hf & Hid). specialize (IH o1 (fl ++ [f]) (ac_wf _ _ Ha)).
    destruct (admit_list o1 (fl ++ [f]) l) as [[[l' fl'] o']|[[st o'] rest]].
    + destruct IH as (a & new & es & -> & -> & Hids & Hok & Ha' & Hw' & Ht & Hc).
      exists (e :: a), (f :: new), ([Took (event_id e) (gate o)] ++ es). split_and!; try done.
      * by rewrite <-app_assoc.
      * rewrite !fmap_cons. by rewrite Hid, Hids.
      * constructor; [|done]. by eapply flight_prefix; [apply Ha'|].
      * by eapply after_trans.
      * by eapply wrote_trans.
      * simpl. by rewrite Ht.
    + destruct IH as (a & es & -> & Ha' & Hw' & Ht & _).
      exists (e :: a), ([Took (event_id e) (gate o)] ++ es). split_and!; try done.
      * by eapply after_trans.
      * by eapply wrote_trans.
      * simpl. by rewrite Ht.
  - destruct Ha as [Ha Hw]. exists [e], [Took (event_id e) (gate o)]. by split_and!.
Qed.

(** ** Callbacks *)

(** The callback taken is the first of its class. *)
Lemma next_callback_first o pending i m rest :
  next_callback o pending = Some i -> vec_remove i pending = Some (m, rest) ->
  (gate_reading (gate o) = true -> is_storage m = true) /\
  forall c, filter (fun x => is_storage x = c) pending =
            (if bool_decide (is_storage m = c) then [m] else []) ++ filter (fun x => is_storage x = c) rest.
Proof.
  unfold next_callback. intros Hi Hr.
  destruct (vec_remove_split pending rest i m Hr) as (pre & post & -> & -> & Hlen).
  destruct (gate_reading (gate o)).
  - apply position_Some in Hi as [(x & Hx & Hst) Hlt].
    rewrite lookup_app_r in Hx by lia. replace (i - length pre) with 0 in Hx by lia. simplify_eq/=.
    assert (Forall (fun y => is_storage y = false) pre) as Hpre.
    { apply Forall_forall. intros y [j Hj]%list_elem_of_lookup.
      apply (Hlt j); [apply lookup_lt_Some in Hj; lia|]. by apply lookup_app_l_Some. }
    split; [done|]. intros c. rewrite !filter_app, filter_cons.
    destruct c.
    + assert (filter (fun x => is_storage x = true) pre = []) as ->.
      { clear -Hpre. induction Hpre as [|y pre Hy _ IH]; [done|]. rewrite filter_cons.
        rewrite decide_False by congruence. done. }
      rewrite decide_True by done. by rewrite bool_decide_true.
    + rewrite decide_False by congruence. by rewrite bool_decide_false by congruence.
  - destruct pre as [|x pre]; [|by destruct post; simplify_eq/=; destruct i].
    split; [done|]. intros c. simpl. rewrite filter_cons.
    destruct (decide (is_storage m = c)); [by rewrite bool_decide_true|by rewrite bool_decide_false].
Qed.

Lemma run_callbacks_spec n : forall o pending count o' pending' count',
  object_wf o -> run_callbacks n o pending count = (o', pending', count') ->
  after_code o o' /\ exists es, wrote PRun o o' es /\
    forall c, filter (fun x => is_storage x = c) pending =
              filter (fun x => is_storage x = c) (ran es) ++ filter (fun x => is_storage x = c) pending'.
Proof.
  induction n as [|n IH]; intros o pending count o' pending' count' Ho; simpl.
  { intros [= <- <- <-]. split; [by apply after_refl|]. exists []. split; [by apply wrote_nil|done]. }
  destruct (next_callback o pending) as [i|] eqn:Hi; simpl.
  2:{ intros [= <- <- <-]. split; [by apply after_refl|]. exists []. split; [by apply wrote_nil|done]. }
  destruct (vec_remove i pending) as [[m rest]|] eqn:Hr.
  2:{ intros [= <- <- <-]. split; [by apply after_refl|]. exists []. split; [by apply wrote_nil|done]. }
  destruct (next_callback_first o pending i m rest Hi Hr) as [Hst Hf].
  pose proof (note_wf o (Ran m (gate o)) Ho Hst) as Hn.
  set (o1 := note o (Ran m (gate o))) in *. pose proof (enter_wf o1 (ac_wf _ _ Hn)) as He.
  intros H. destruct (IH _ _ _ _ _ _ (ac_wf _ _ He) H) as (Ha & es & Hw & Hs).
  split; [eapply after_trans; [exact Hn|]; by eapply after_trans|].
  exists ([Ran m (gate o)] ++ es). split.
  - eapply wrote_trans; [|exact Hw]. split; [by rewrite enter_log|by repeat constructor].
  - intros c. rewrite Hf, Hs, ran_app, filter_app, app_assoc. f_equal. f_equal. simpl.
    rewrite filter_cons, filter_nil. by case_bool_decide; case_decide.
Qed.

Lemma next_callback_removes o pending i :
  next_callback o pending = Some i -> exists m rest, vec_remove i pending = Some (m, rest).
Proof.
  unfold next_callback, vec_remove. intros H.
  assert (is_Some (pending !! i)) as [m ->]; [|by eexists _, _].
  destruct (gate_reading (gate o)).
  - apply position_Some in H as [(x & -> & _) _]. by eexists.
  - destruct pending; simplify_eq/=. by eexists.
Qed.

Lemma next_callback_None o pending :
  next_callback o pending = None ->
  pending = [] \/ gate_reading (gate o) = true /\ Forall (fun m => is_storage m = false) pending.
Proof.
  unfold next_callback. destruct (gate_reading (gate o)).
  - intros H. right. split; [done|]. apply Forall_forall. by apply position_None.
  - destruct pending; [by left|done].
Qed.

(** The loop of [drain_gated] ends because no callback may run, not because it ran
    out of turns. *)
Lemma run_callbacks_done n : forall o pending count o' pending' count',
  length pending <= n -> run_callbacks n o pending count = (o', pending', count') ->
  next_callback o' pending' = None /\ length pending' + count' = length pending + count.
Proof.
  induction n as [|n IH]; intros o pending count o' pending' count' Hn; simpl.
  { intros [= <- <- <-]. destruct pending; [|simpl in Hn; lia]. unfold next_callback. simpl.
    by destruct (gate_reading (gate o)). }
  destruct (next_callback o pending) as [i|] eqn:Ei; simpl; [|by intros [= <- <- <-]].
  destruct (next_callback_removes o pending i Ei) as (m & rest & E). rewrite E.
  intros H. apply vec_remove_split in E as (pre & post & -> & -> & _).
  apply IH in H as [? H]; rewrite ?length_app in *; simpl in *; [split; [done|lia]|lia].
Qed.

(** ** Answers *)

Definition owes (f : InFlight) : bool :=
  match f with
  | FetchInFlight _ res_tx _ _ _ => res_tx
  | AlarmInFlight _ done_tx _ => done_tx
  | SocketInFlight _ => false
  end.

(** The events whose callers still wait. *)
Definition owing (fl : list InFlight) : list EventId :=
  omap (fun f => if owes f then Some (flight_id f) else None) fl.

(** One answer more, one caller less. *)
Definition still (b : bool) (id : EventId) : list EventId := if b then [id] else [].

Local Notation send_response := (send_response writes storage_error is_error handle_storage handle_socket host0).
Local Notation answer_fetch := (answer_fetch writes storage_error is_error handle_storage handle_socket host0).
Local Notation answer_alarm := (answer_alarm writes storage_error is_error handle_storage handle_socket host0).

Lemma hold_response_spec o id r u h d o' r' u' h' a :
  object_wf o -> flight_ok (messages o) (FetchInFlight id r u h d) ->
  hold_response o id r u h = (o', r', u', h', a) ->
  after_code o o' /\ (exists es, wrote PAnswer o o' es /\ sent es = []) /\
  flight_ok (messages o') (FetchInFlight id r' u' h' d) /\ (r' = true -> r = true).
Proof.
  intros Ho Hf. unfold hold_response.
  destruct (r && bool_decide (h = None) && ready (run_of o id)) eqn:Hc.
  2:{ intros [= <- <- <- <- <-]. split_and!; try done. exists []. split; [|done].
      by apply wrote_nil. }
  destruct (response (run_of o id)) as [status|e].
  2:{ intros [= <- <- <- <- <-]. split_and!; try done. exists []. split; [|done].
      by apply wrote_nil. }
  destruct (respond (run_of o id) status u) as [resp up].
  set (o1 := match up with Some ws => note o (Upgraded id ws) | None => o end).
  assert (after_code o o1 /\ exists es, wrote PAnswer o o1 es /\ sent es = []) as [H1 (es & Hw & Hs)].
  { unfold o1. destruct up as [ws|].
    - split; [by apply note_wf|]. exists [Upgraded id ws]. split; [by apply wrote_note|done].
    - split; [by apply after_refl|]. exists []. split; [by apply wrote_nil|done]. }
  destruct (barrier o1) as [b o2] eqn:Hb. intros [= <- <- <- <- <-].
  destruct (barrier_wf o1 b o2 (ac_wf _ _ H1) Hb) as (H2 & Hin & Hl).
  apply andb_prop in Hc as [[-> _]%andb_prop _]. split_and!; try done.
  - by eapply after_trans.
  - exists (es ++ []). split; [|by rewrite app_nil_r]. eapply wrote_trans; [exact Hw|by apply wrote_nil].
Qed.

Lemma send_response_spec o id r u h d o' r' h' a :
  object_wf o -> flight_ok (messages o) (FetchInFlight id r u h d) ->
  send_response o id r h = (o', r', h', a) ->
  after_code o o' /\ (exists es, wrote PAnswer o o' es /\ sent es ++ still r' id ⊆+ still r id) /\
  flight_ok (messages o') (FetchInFlight id r' u h' d).
Proof.
  intros Ho Hf. unfold DurableObject.send_response. destruct h as [h|].
  2:{ intros [= <- <- <- <-]. split_and!; [by apply after_refl| |done]. exists []. split; [by apply wrote_nil|done]. }
  destruct Hf as [Hin ->].
  destruct (poll_gate o (held_gate h)) as [st o1] eqn:Hp.
  destruct (poll_gate_wf o (held_gate h) st o1 Ho Hp) as (H1 & Hl & Hm & Hc).
  destruct st as [open|].
  - intros [= <- <- <- <-]. destruct open.
    + assert (entry_ok (messages o1) (SentResponse id (held_answer h) (held_gate h))) as He by by apply Hc.
      split_and!; [|..|done].
      * eapply after_trans; [exact H1|]. apply note_wf; [apply H1|done].
      * exists [SentResponse id (held_answer h) (held_gate h)]. split; [|done].
        split; [by simpl; rewrite Hl|by repeat constructor].
    + split_and!; [done| |done]. exists []. split; [by apply wrote_nil|]. apply submseteq_nil_l.
  - intros [= <- <- <- <-]. split_and!; [done| |by rewrite Hm]. exists []. split; [by apply wrote_nil|done].
Qed.

Lemma tell_disconnect_spec o id r d o' d' a :
  object_wf o -> tell_disconnect o id r d = (o', d', a) ->
  after_code o o' /\ exists es, wrote PAnswer o o' es /\ sent es = [].
Proof.
  intros Ho. unfold tell_disconnect. destruct (_ && _).
  - intros [= <- _ _]. pose proof (note_wf o (SignalledDisconnect id) Ho I) as H1.
    split; [eapply after_trans; [exact H1|]; apply enter_wf, H1|].
    exists [SignalledDisconnect id]. split; [|done]. split; [by rewrite enter_log|by repeat constructor].
  - intros [= <- _ _]. split; [by apply after_refl|]. exists []. split; [by apply wrote_nil|done].
Qed.

(** What answering one event does. *)
Definition answered_ok (o : Object) (f : InFlight) (o' : Object) (kept : option InFlight) : Prop :=
  after_code o o' /\ Forall (flight_ok (messages o')) (option_list kept) /\
  (exists es, wrote PAnswer o o' es /\ sent es ++ owing (option_list kept) ⊆+ owing [f]).

Lemma answer_fetch_spec o id r u h d o' kept a :
  object_wf o -> flight_ok (messages o) (FetchInFlight id r u h d) ->
  answer_fetch o id r u h d = (o', kept, a) ->
  answered_ok o (FetchInFlight id r u h d) o' kept.
Proof.
  intros Ho Hf. unfold DurableObject.answer_fetch.
  destruct (hold_response o id r u h) as [[[[o1 r1] u1] h1] a1] eqn:E1.
  destruct (hold_response_spec _ _ _ _ _ d _ _ _ _ _ Ho Hf E1) as (A1 & (e1 & W1 & S1) & F1 & R1).
  destruct (send_response o1 id r1 h1) as [[[o2 r2] h2] a2] eqn:E2.
  destruct (send_response_spec _ _ _ u1 _ d _ _ _ _ (ac_wf _ _ A1) F1 E2) as (A2 & (e2 & W2 & S2) & F2).
  destruct (tell_disconnect o2 id r2 d) as [[o3 d3] a3] eqn:E3.
  destruct (tell_disconnect_spec _ _ _ _ _ _ _ (ac_wf _ _ A2) E3) as (A3 & e3 & W3 & S3).
  intros [= <- <- <-]. split_and!.
  - eapply after_trans; [exact A1|]. by eapply after_trans.
  - destruct (_ || _); simpl; [|done]. repeat constructor.
    apply (flight_prefix (messages o2)); [apply A3|]. by destruct h2.
  - exists (e1 ++ e2 ++ e3). split; [eapply wrote_trans; [done|]; by eapply wrote_trans|].
    rewrite !sent_app, S1, S3, app_nil_r. simpl.
    transitivity (sent e2 ++ still r2 id).
    { apply submseteq_skips_l. destruct (r2 || _) eqn:Ek; simpl; [by destruct r2|apply submseteq_nil_l]. }
    rewrite S2. unfold owing. simpl. destruct r1; simpl; [rewrite R1 by done; done|apply submseteq_nil_l].
Qed.

Lemma answer_alarm_spec o id dn h o' kept a :
  object_wf o -> flight_ok (messages o) (AlarmInFlight id dn h) ->
  answer_alarm o id dn h = (o', kept, a) ->
  answered_ok o (AlarmInFlight id dn h) o' kept.
Proof.
  intros Ho Hf. unfold DurableObject.answer_alarm.
  assert (dn = true) as -> by by destruct h; [apply Hf|].
  match goal with |- (let '(_, _) := ?x in _) = _ -> _ => destruct x as [o1 h1] eqn:E1 end.
  assert (after_code o o1 /\ log o1 = log o /\
    (forall x, h1 = Some x -> MBarrier (held_gate x) ∈ messages o1)) as (A1 & L1 & B1).
  { destruct h as [x|]; [simplify_eq; split_and!; [by apply after_refl|done|]; intros y [= <-]; apply Hf|].
    destruct (run_done (run_of o id)).
    - destruct (barrier o) as [b o2] eqn:Eb. simplify_eq. destruct (barrier_wf o b o1 Ho Eb) as (? & ? & ?).
      split_and!; try done. by intros y [= <-].
    - simplify_eq. split_and!; [by apply after_refl|done|done]. }
  destruct h1 as [x|].
  2:{ intros [= <- <- <-]. split_and!; [done|by repeat constructor|]. exists []. split; [by apply wrote_nil|done]. }
  destruct (poll_gate o1 (held_gate x)) as [st o2] eqn:Hp.
  destruct (poll_gate_wf o1 (held_gate x) st o2 (ac_wf _ _ A1) Hp) as (A2 & L2 & M2 & C2).
  assert (after_code o o2) as A by by eapply after_trans.
  destruct st as [open|]; intros [= <- <- <-].
  - destruct open; simpl.
    + assert (entry_ok (messages o2) (SentAlarm id (held_answer x) (held_gate x))) as He by (apply C2; auto).
      split_and!; [eapply after_trans; [exact A|]; apply note_wf; [apply A|done]|done|].
      exists [SentAlarm id (held_answer x) (held_gate x)]. split; [|done].
      split; [simpl; by rewrite L2, L1|by repeat constructor].
    + split_and!; [done|done|]. exists []. split; [apply wrote_nil; congruence|apply submseteq_nil_l].
  - split_and!; [done|repeat constructor; simpl; rewrite M2; auto|].
    exists []. split; [apply wrote_nil; congruence|done].
Qed.

Lemma answer_one_spec o f o' kept a :
  object_wf o -> flight_ok (messages o) f -> answer_one o f = (o', kept, a) -> answered_ok o f o' kept.
Proof.
  intros Ho Hf. destruct f; simpl.
  - by apply answer_fetch_spec.
  - by apply answer_alarm_spec.
  - destruct (run_done _); intros [= <- <- <-]; (split_and!; [by apply after_refl|by repeat constructor|]);
      exists []; (split; [by apply wrote_nil|done]).
Qed.

Lemma answer_spec fl : forall o o' fl' a,
  object_wf o -> Forall (flight_ok (messages o)) fl -> answer o fl = (o', fl', a) ->
  after_code o o' /\ Forall (flight_ok (messages o')) fl' /\
  exists es, wrote PAnswer o o' es /\ sent es ++ owing fl' ⊆+ owing fl.
Proof.
  induction fl as [|f fl IH]; intros o o' fl' a Ho Hf; cbn [DurableObject.answer].
  { intros [= <- <- <-]. split_and!; [by apply after_refl|done|]. exists []. split; [by apply wrote_nil|done]. }
  apply Forall_cons in Hf as [Hf Hfl].
  destruct (answer_one o f) as [[o1 kept] a1] eqn:E1.
  destruct (answer_one_spec o f o1 kept a1 Ho Hf E1) as (A1 & K1 & e1 & W1 & S1).
  destruct (answer o1 fl) as [[o2 fl2] a2] eqn:E2.
  destruct (IH o1 o2 fl2 a2 (ac_wf _ _ A1)) as (A2 & K2 & e2 & W2 & S2); [|done|].
  { eapply Forall_impl; [exact Hfl|]. intros g. apply flight_prefix, A1. }
  intros [= <- <- <-]. split_and!.
  - by eapply after_trans.
  - apply Forall_app. split; [|done]. eapply Forall_impl; [exact K1|]. intros g. apply flight_prefix, A2.
  - exists (e1 ++ e2). split; [by eapply wrote_trans|].
    assert (owing (f :: fl) = owing [f] ++ owing fl) as -> by apply (omap_app _ [f] fl).
    unfold owing in *. rewrite omap_app, sent_app.
    rewrite <-(submseteq_app _ _ _ _ S1 S2). rewrite <-!app_assoc.
    apply submseteq_skips_l. rewrite !app_assoc. apply submseteq_app; [|done].
    by rewrite Permutation_app_comm.
Qed.

(** ** The loop *)

Lemma wrote_logs p o o' es :
  wrote p o o' es ->
  (p = PTake -> mailed (log o') = mailed (log o) /\ called (log o') = called (log o) /\
     taken (log o') = taken (log o) ++ taken es /\ ran (log o') = ran (log o) /\ sent (log o') = sent (log o)) /\
  (p = PRun -> mailed (log o') = mailed (log o) /\ called (log o') = called (log o) /\
     taken (log o') = taken (log o) /\ ran (log o') = ran (log o) ++ ran es /\ sent (log o') = sent (log o)) /\
  (p = PAnswer -> mailed (log o') = mailed (log o) /\ called (log o') = called (log o) /\
     taken (log o') = taken (log o) /\ ran (log o') = ran (log o) /\ sent (log o') = sent (log o) ++ sent es).
Proof.
  intros [-> Hp]. rewrite mailed_app, called_app, taken_app, ran_app, sent_app.
  destruct (part_logs p es Hp) as (M & C & T & R & S).
  split_and!; intros ->; rewrite ?M, ?C, ?T, ?R, ?S by done; rewrite !app_nil_r; done.
Qed.

Local Notation of_class c := (filter (fun x => is_storage x = c)).

(** What holds between the parts of a turn; [box] is the first event and what the
    mailbox held. *)
Record loop_wf (box : list EventId) (o : Object) (t : Loop) : Prop := {
  l_object : object_wf o;
  l_flight : Forall (flight_ok (messages o)) (inflight t);
  l_order : taken (log o) ++ (event_id <$> queue t) ++ (event_id <$> mail t) = box ++ mailed (log o);
  l_queue : queue t = [] /\ taken (log o) <> [] \/
            event_id <$> queue t = firstn 1 box /\ taken (log o) = [];
  l_owing : sent (log o) ++ owing (inflight t) ⊆+ taken (log o);
  l_calls : forall c, of_class c (ran (log o)) ++ of_class c (pending t) = of_class c (called (log o))
}.

(** Every event that came was taken or is in the mailbox; but the first may be lost,
    when the object took none. *)
Definition order_ok (box : list EventId) (o : Object) (mailbox : list ObjectEvent) : Prop :=
  taken (log o) <> [] /\ taken (log o) ++ (event_id <$> mailbox) = box ++ mailed (log o) \/
  taken (log o) = [] /\ event_id <$> mailbox = tail box ++ mailed (log o).

(** What holds of the object whatever happens, errors and panics included. *)
Record object_ok (box : list EventId) (o : Object) (mailbox : list ObjectEvent) : Prop := {
  ok_object : object_wf o;
  ok_order : order_ok box o mailbox;
  ok_sent : sent (log o) ⊆+ taken (log o);
  ok_calls : forall c, of_class c (ran (log o)) `prefix_of` of_class c (called (log o))
}.

Lemma loop_object box o t : loop_wf box o t -> object_ok box o (mail t).
Proof.
  intros [W F O Q S C]. split; [done| | |].
  - destruct Q as [[Q T]|[Q T]]; rewrite Q in O; [by left|right].
    rewrite T in O. simpl in O. destruct box; simplify_eq/=; done.
  - etrans; [|exact S]. apply submseteq_inserts_r. done.
  - intros c. rewrite <-C. by eexists.
Qed.

Lemma mail_wf box o t l :
  loop_wf box o t ->
  loop_wf box (note o (Mailed l)) (mkLoop (queue t) (mail t ++ l) (inflight t) (pending t) (closed t)).
Proof.
  intros [W F O Q S C]. destruct (note_wf o (Mailed l) W I) as [W' Hp].
  split; simpl; rewrite ?mailed_app, ?called_app, ?taken_app, ?ran_app, ?sent_app, ?app_nil_r; try done.
  rewrite fmap_app. unfold mailed at 2. simpl. rewrite !app_nil_r.
  rewrite (app_assoc box), <-O. by rewrite !app_assoc.
Qed.

Lemma owing_app l l' : owing (l ++ l') = owing l ++ owing l'.
Proof. apply omap_app. Qed.

Lemma owing_ids l : owing l ⊆+ flight_id <$> l.
Proof.
  induction l as [|f l IH]; simpl; [done|]. destruct (owes f); [by apply submseteq_skip|by apply submseteq_cons].
Qed.

(** Events taken from the front of what waits. *)
Lemma take_wf box o o' t q m fl new a es :
  loop_wf box o t -> after_code o o' -> wrote PTake o o' es -> taken es = event_id <$> a ->
  fl = inflight t ++ new -> flight_id <$> new = event_id <$> a ->
  Forall (flight_ok (messages o')) new ->
  queue t ++ mail t = a ++ q ++ m -> (q = [] /\ (taken (log o) <> [] \/ a <> []) \/ a = [] /\ q = queue t) ->
  forall cl, loop_wf box o' (mkLoop q m fl (pending t) cl).
Proof.
  intros [W F O Q S C] Ha Hw Ht -> Hid Hok Hq Hd cl.
  destruct (wrote_logs _ _ _ _ Hw) as [(M & Cl & T & R & Se) _]; [done|].
  split; simpl; rewrite ?M, ?Cl, ?T, ?R, ?Se, ?Ht; try done.
  - apply Ha.
  - apply Forall_app. split; [|done]. eapply Forall_impl; [exact F|]. intros g. apply flight_prefix, Ha.
  - by rewrite <-O, <-!app_assoc, <-!fmap_app, Hq.
  - destruct Hd as [[-> Hd]|[-> ->]]; [left; split; [done|]|by rewrite app_nil_r].
    intros [HT HA]%app_nil. by destruct Hd; [|destruct a].
  - rewrite owing_app, app_assoc. apply submseteq_app; [done|]. rewrite <-Hid. apply owing_ids.
Qed.

Lemma take_ok box o o' t a rest es :
  loop_wf box o t -> after_code o o' -> wrote PTake o o' es -> taken es = event_id <$> a ->
  queue t ++ mail t = a ++ rest -> a <> [] -> object_ok box o' rest.
Proof.
  intros [W F O Q S C] Ha Hw Ht Hq Hne. destruct (wrote_logs _ _ _ _ Hw) as [(M & Cl & T & R & Se) _]; [done|].
  split; unfold order_ok; rewrite ?M, ?Cl, ?T, ?R, ?Se, ?Ht.
  - apply Ha.
  - left. split; [by intros [_ ?%fmap_nil_inv]%app_nil|]. by rewrite <-O, <-!app_assoc, <-!fmap_app, Hq.
  - apply submseteq_inserts_r. etrans; [|exact S]. by apply submseteq_inserts_r.
  - intros c. rewrite <-C. by eexists.
Qed.

Lemma queue_short box o t a rest :
  loop_wf box o t -> queue t = a ++ rest -> rest = [] /\ (taken (log o) <> [] \/ a <> []) \/ a = [] /\ rest = queue t.
Proof.
  intros Hl Hq. destruct a as [|e a]; [by right|left].
  destruct (l_queue _ _ _ Hl) as [[Q _]|[Q _]]; rewrite Hq in Q; [done|].
  destruct box; [done|]. destruct a, rest; simplify_eq/=. by split; [|right].
Qed.

Lemma admit_all_wf box o t mc :
  loop_wf box o t ->
  match admit_all o t mc with
  | Ok (t', o') => loop_wf box o' t'
  | Err (_, o', m) => object_ok box o' m
  end.
Proof.
  intros Hl. unfold admit_all. pose proof (admit_list_spec (queue t) o (inflight t) (l_object _ _ _ Hl)) as H.
  destruct (admit_list o (inflight t) (queue t)) as [[[q fl] o1]|[[st o1] rest]]; simpl.
  2:{ destruct H as (a & es & Hq & Ha & Hw & Ht & Hne).
      assert (rest = []) as ->.
      { destruct (queue_short box o t a rest Hl Hq) as [[? _]|[-> _]]; done. }
      eapply take_ok; [done|done|done|exact Ht| |done]. by rewrite Hq, app_nil_r. }
  destruct H as (a & new & es & Hq & -> & Hid & Hok & Ha & Hw & Ht & _). cbn.
  assert (forall cl, loop_wf box o1 (mkLoop q (mail t) (inflight t ++ new) (pending t) cl)) as H1.
  { eapply take_wf; [done|done|done|exact Ht|done|done|done| |by eapply queue_short].
    by rewrite Hq, <-app_assoc. }
  destruct q as [|e q]; [|apply H1]. specialize (H1 (closed t)).
  pose proof (admit_list_spec (mail t) o1 (inflight t ++ new) (l_object _ _ _ H1)) as H.
  destruct (admit_list o1 (inflight t ++ new) (mail t)) as [[[m fl] o2]|[[st o2] rest]]; simpl.
  - destruct H as (a2 & new2 & es2 & Hm & -> & Hid2 & Hok2 & Ha2 & Hw2 & Ht2 & _).
    apply (take_wf box o1 o2 _ [] m _ new2 a2 es2 H1); try done. destruct a2; [by right|left; by split; [|right]].
  - destruct H as (a2 & es2 & Hm & Ha2 & Hw2 & Ht2 & Hne).
    by apply (take_ok box o1 o2 _ a2 rest es2 H1).
Qed.

Lemma drain_gated_wf box o t arrived cc :
  loop_wf box o t ->
  match drain_gated o (pending t) arrived cc with
  | Ok (o', p', _) => loop_wf box o' (mkLoop (queue t) (mail t) (inflight t) p' (closed t))
  | Err (_, o') => object_ok box o' (mail t)
  end.
Proof.
  intros [W F O Q S C]. unfold drain_gated. destruct (note_wf o (Called arrived) W I) as [W1 Hp1].
  set (o1 := note o (Called arrived)) in *.
  assert (loop_wf box o1 (mkLoop (queue t) (mail t) (inflight t) (pending t ++ arrived) (closed t))) as H1.
  { unfold o1. split; simpl; rewrite ?mailed_app, ?called_app, ?taken_app, ?ran_app, ?sent_app, ?app_nil_r; try done.
    intros c. unfold called at 2. simpl. rewrite app_nil_r, !filter_app, <-C. by rewrite !app_assoc. }
  destruct cc; [by apply (loop_object _ _ _ H1)|]. clear W F O Q S C. destruct H1 as [W F O Q S C].
  destruct (run_callbacks (length (pending t ++ arrived)) o1 (pending t ++ arrived) 0) as [[o2 p2] n] eqn:E.
  destruct (run_callbacks_spec _ _ _ _ _ _ _ W E) as (Ha & es & Hw & Hs).
  destruct (wrote_logs _ _ _ _ Hw) as (_ & [(M & Cl & T & R & Se) _]); [done|].
  split; simpl in *; rewrite ?M, ?Cl, ?T, ?R, ?Se; try done.
  - apply Ha.
  - eapply Forall_impl; [exact F|]. intros g. apply flight_prefix, Ha.
  - intros c. rewrite filter_app, <-app_assoc, <-Hs. apply C.
Qed.

Lemma answer_wf box o t o' fl a :
  loop_wf box o t -> answer o (inflight t) = (o', fl, a) ->
  loop_wf box o' (mkLoop (queue t) (mail t) fl (pending t) (closed t)).
Proof.
  intros [W F O Q S C] E. destruct (answer_spec _ _ _ _ _ W F E) as (Ha & Hf & es & Hw & Hs).
  destruct (wrote_logs _ _ _ _ Hw) as (_ & _ & H). destruct H as (M & Cl & T & R & Se); [done|].
  split; simpl; rewrite ?M, ?Cl, ?T, ?R, ?Se; try done.
  - apply Ha.
  - rewrite <-app_assoc. etrans; [|exact S]. by apply submseteq_skips_l.
Qed.

Lemma turn_rounds_wf box n : forall k o t took env,
  loop_wf box o t ->
  match turn_rounds n k o t took env with
  | Ok (o', t', _, _) => loop_wf box o' t'
  | Err (_, o', m) => object_ok box o' m
  end.
Proof.
  induction n as [|n IH]; intros k o t took env Hl; cbn [DurableObject.turn_rounds]; [done|].
  pose proof (mail_wf box o t (mail_in (env k)) Hl) as H1.
  pose proof (admit_all_wf box _ _ (mail_closed (env k)) H1) as H2.
  destruct (admit_all _ _ (mail_closed (env k))) as [[t2 o2]|[[st o2] m]]; cbn [result_bind]; [|done].
  pose proof (drain_gated_wf box o2 t2 (calls_in (env k)) (calls_closed (env k)) H2) as H3.
  destruct (drain_gated o2 (pending t2) (calls_in (env k)) (calls_closed (env k))) as [[[o3 p3] cnt]|[st o3]];
    cbn [result_bind]; [|done].
  destruct (gate o3); [|done]. cbn [inflight].
  destruct (answer o3 (inflight t2)) as [[o4 fl4] ans] eqn:E.
  pose proof (answer_wf box o3 (mkLoop (queue t2) (mail t2) (inflight t2) p3 (closed t2)) o4 fl4 ans H3 E) as H4.
  destruct (_ && _ && _); [done|]. destruct (n =? 0)%nat; [done|]. by apply IH.
Qed.

(** Callers that left take their events along. *)
Lemma leave_wf box o t P `{!forall f, Decision (P f)} :
  loop_wf box o t ->
  loop_wf box o (mkLoop (queue t) (mail t) (filter P (inflight t)) (pending t) (closed t)).
Proof.
  intros [W F O Q S C]. split; simpl; try done.
  - rewrite Forall_forall in *. intros f [_ Hf]%list_elem_of_filter. by apply F.
  - etrans; [|exact S]. apply submseteq_skips_l. clear. induction (inflight t) as [|f l IH]; [done|].
    rewrite filter_cons. unfold owing in *. destruct (decide (P f)); simpl; destruct (owes f); auto;
      [by apply submseteq_skip|by apply submseteq_cons].
Qed.

Lemma after_turn_wf box idle drain active took o t tm e p t' tm' :
  loop_wf box o t -> after_turn idle drain active took o t tm e = (p, t', tm') -> loop_wf box o t'.
Proof.
  intros Hl. unfold after_turn. destruct (gate o); [|by intros [= <- <- <-]].
  assert (loop_wf box o (mkLoop (queue t) (mail t)
    (filter (fun f => caller_left (left e) f = false) (inflight t)) (pending t) (closed t))) as Hf
    by by apply leave_wf.
  repeat case_match; intros [= <- <- <-]; done.
Qed.

Lemma poll_wf box idle drain o t tm e p o' t' tm' :
  loop_wf box o t -> poll idle drain o t tm e = (p, o', t', tm') ->
  object_ok box o' (mail t') /\ (p = Waits -> loop_wf box o' t').
Proof.
  intros Hl. unfold DurableObject.poll.
  pose proof (turn_rounds_wf box MAX_ROUNDS 0 o t false (rounds e) Hl) as Ht.
  destruct (turn_rounds MAX_ROUNDS 0 o t false (rounds e)) as [[[[o1 t1] took] w]|[[[msg|] o1] m]].
  - destruct (stopped _ _ _); [intros [= <- <- <- <-]; split; [by eapply loop_object|done]|].
    destruct (after_turn _ _ _ _ _ _ _ _) as [[p2 t2] tm2] eqn:E. intros [= <- <- <- <-].
    apply (after_turn_wf box) in E; [|done]. split; [by eapply loop_object|done].
  - intros [= <- <- <- <-]. done.
  - intros [= <- <- <- <-]. done.
Qed.

Lemma serve_polls_ok box idle drain es : forall o t tm p o' t' tm',
  loop_wf box o t -> serve_polls idle drain o t tm es = (p, o', t', tm') ->
  object_ok box o' (mail t').
Proof.
  induction es as [|e es IH]; intros o t tm p o' t' tm' Hl; simpl.
  { intros [= <- <- <- <-]. by eapply loop_object. }
  destruct (poll idle drain o t tm e) as [[[p1 o1] t1] tm1] eqn:E.
  destruct (poll_wf box _ _ _ _ _ _ _ _ _ _ Hl E) as [H1 H2].
  destruct p1; [by intros [= <- <- <- <-]..|]. by apply IH, H2.
Qed.

(** An object as [DurableObject::new] finds it: what the script sent is in order,
    nothing was done. *)
Definition fresh (o : Object) : Prop := object_wf o /\ log o = [].

Lemma new_object_fresh ctx c o :
  (forall o0, ctx = Ok o0 -> fresh o0) -> new_object ctx c = Ok o -> fresh o.
Proof.
  unfold new_object, construct. intros Hc. destruct ctx as [o0|]; simpl; [|done].
  destruct (Hc o0 eq_refl) as [H0 L0]. pose proof (enter_wf o0 H0) as [He _].
  pose proof (enter_log o0) as Hl. destruct (enter o0) as [term o1]. simpl in *.
  intros Ho. assert (o = o1) as -> by (repeat case_match; simplify_eq; done).
  split; [done|congruence].
Qed.

Lemma serve_object_ok idle drain at_ spent o first mailbox es p o' t' tm' :
  fresh o -> serve_object idle drain at_ spent o first mailbox es = (p, o', t', tm') ->
  object_ok (event_id first :: (event_id <$> mailbox)) o' (mail t').
Proof.
  intros [Ho Hlog] Hs.
  assert (loop_wf (event_id first :: (event_id <$> mailbox)) o (mkLoop [first] mailbox [] [] false)) as Hl.
  { split; rewrite ?Hlog; simpl; try done; [by rewrite app_nil_r|by right]. }
  unfold DurableObject.serve_object in Hs. destruct spent.
  - simplify_eq. by apply (loop_object _ _ _ Hl).
  - by eapply serve_polls_ok.
Qed.

(** A loop that ends well has nothing in flight. *)
Lemma after_turn_ends idle drain active took o t tm e t' tm' :
  after_turn idle drain active took o t tm e = (Over (Ok tt), t', tm') ->
  inflight t' = [] /\ (closed t' = true \/ (idle_at tm' <= now e)%Z).
Proof.
  unfold after_turn. intros H. destruct (gate o) as [blocked reading|]; [|done].
  destruct (match _ with Some at_ => _ | None => false end); [done|].
  match type of H with context [if ?c then (Over (Ok tt), _, _) else _] => destruct c eqn:Hc end.
  - apply andb_prop in Hc as [Hi%bool_decide_eq_true Hc]. simplify_eq/=. split; [done|].
    apply orb_prop in Hc as [->|?%Z.leb_le]; [by left|by right].
  - repeat case_match; simplify_eq.
Qed.

Lemma poll_ends idle drain o t tm e o' t' tm' :
  poll idle drain o t tm e = (Over (Ok tt), o', t', tm') ->
  inflight t' = [] /\ (closed t' = true \/ (idle_at tm' <= now e)%Z).
Proof.
  unfold DurableObject.poll.
  destruct (turn_rounds MAX_ROUNDS 0 o t false (rounds e)) as [[[[o1 t1] took] w]|[[[msg|] o1] m]]; [|done..].
  destruct (stopped _ _ _); [done|]. destruct (after_turn _ _ _ _ _ _ _ _) as [[p t2] tm2] eqn:E.
  intros [= -> <- <- <-]. by eapply after_turn_ends.
Qed.

Lemma serve_polls_ends idle drain es : forall o t tm o' t' tm',
  serve_polls idle drain o t tm es = (Over (Ok tt), o', t', tm') ->
  inflight t' = [] /\ (closed t' = true \/ Exists (fun e => (idle_at tm' <= now e)%Z) es).
Proof.
  induction es as [|e es IH]; intros o t tm o' t' tm'; simpl; [done|].
  destruct (poll idle drain o t tm e) as [[[p1 o1] t1] tm1] eqn:E. destruct p1 as [r| |]; [|done|].
  - intros [= -> <- <- <-]. apply poll_ends in E as [Hi [Hc|Hc]]; split; try done; [by left|].
    right. by left.
  - intros [Hi Hc]%IH. split; [done|]. destruct Hc; [by left|right; by right].
Qed.

(** ** The lives of an object *)

(** What a life took out of the mailbox: its events, or the first one alone, which
    is lost when the object took none. *)
Definition used (r : ObjectEvent * option (Polled * Object * Loop)) : list EventId :=
  match r with
  | (first, None) => [event_id first]
  | (first, Some (_, o, _)) =>
      match taken (log o) with [] => [event_id first] | l => l end
  end.

(** What came while it lived. *)
Definition came_in (r : ObjectEvent * option (Polled * Object * Loop)) : list EventId :=
  match r with (_, Some (_, o, _)) => mailed (log o) | (_, None) => [] end.

Lemma order_used first o mailbox box p t :
  order_ok (event_id first :: box) o mailbox ->
  used (first, Some (p, o, t)) ++ (event_id <$> mailbox) = event_id first :: box ++ mailed (log o).
Proof.
  unfold used. intros [[Hne H]|[-> H]]; [|by rewrite H]. by destruct (taken (log o)).
Qed.

Local Notation run := (run writes storage_error is_error handle_storage handle_socket host0).

Lemma mjoin_cons {A} (x : list A) l : mjoin (x :: l) = x ++ mjoin l.
Proof. done. Qed.

Lemma run_uses idle drain lives : forall mailbox ls m,
  (forall life o, life ∈ lives -> context life = Ok o -> fresh o) ->
  run idle drain mailbox lives = (ls, m) ->
  mjoin (used <$> ls) ++ (event_id <$> m) =
  (event_id <$> mailbox) ++
    mjoin (zip_with (fun life r => (event_id <$> came life) ++ came_in r) lives ls).
Proof.
  induction lives as [|life lives IH]; intros mailbox ls m Hf; simpl.
  { intros [= <- <-]. simpl. by rewrite app_nil_r. }
  destruct (mailbox ++ came life) as [|first rest] eqn:E.
  { intros [= <- <-]. apply app_nil in E as [-> _]. done. }
  assert (event_id <$> mailbox ++ came life = event_id first :: (event_id <$> rest)) as E' by by rewrite E.
  rewrite fmap_app in E'.
  assert (forall life' o, life' ∈ lives -> context life' = Ok o -> fresh o) as Hf'
    by (intros; eapply Hf; [by right|done]).
  destruct (new_object (context life) (constructor life)) as [o|] eqn:En.
  2:{ destruct (DurableObject.run _ _ _ _ _ _ _ _ _ _) as [ls' m'] eqn:Er. intros [= <- <-].
      specialize (IH _ _ _ Hf' Er). rewrite fmap_cons. cbn [zip_with].
      rewrite !mjoin_cons. cbn [used came_in]. rewrite <-app_assoc, IH, app_nil_r, (app_assoc (event_id <$> mailbox)), E'. done. }
  destruct (DurableObject.serve_object _ _ _ _ _ _ _ _ _ _ _ _ _ _) as [[[p o1] t1] tm1] eqn:Es.
  assert (fresh o) as Ho by (eapply new_object_fresh; [|exact En]; intros; eapply Hf; [by left|done]).
  pose proof (order_used _ _ _ _ p t1 (ok_order _ _ _ (serve_object_ok _ _ _ _ _ _ _ _ _ _ _ _ Ho Es))) as Hu.
  rewrite app_comm_cons, <-E' in Hu.
  assert (forall ls', mjoin (used <$> ls') ++ (event_id <$> m) = (event_id <$> mail t1) ++
     mjoin (zip_with (fun life r => (event_id <$> came life) ++ came_in r) lives ls') ->
     mjoin (used <$> (first, Some (p, o1, t1)) :: ls') ++ (event_id <$> m) = (event_id <$> mailbox) ++
     mjoin (zip_with (fun life r => (event_id <$> came life) ++ came_in r) (life :: lives)
       ((first, Some (p, o1, t1)) :: ls'))) as Hstep.
  { intros ls' H. rewrite fmap_cons. cbn [zip_with]. rewrite !mjoin_cons. cbn [came_in]. rewrite <-app_assoc, H.
    rewrite app_assoc, Hu, <-!app_assoc. done. }
  destruct p; [destruct (DurableObject.run _ _ _ _ _ _ _ _ _ _) as [ls' m'] eqn:Er| |];
    intros [= <- <-]; apply Hstep; [by apply IH|by destruct lives; rewrite app_nil_r..].
Qed.

(** ** Bodies *)

Definition ask_work (a : Ask (StorageOp := StorageOp) (SocketOp := SocketOp)) : option Queued :=
  match a with
  | AskStorage id op => Some (Storage id op)
  | AskSocket op => Some (Socket op)
  | AskOutbound | AskUngated => None
  end.

(** The reference: chunks pass as long as all the work before them committed. *)
Fixpoint committed_chunks (work : list Queued) (chunks : list (list Ask * Chunk)) : list Chunk :=
  match chunks with
  | [] => []
  | (asked, chunk) :: chunks =>
      let work := work ++ omap ask_work asked in
      if commits work then chunk :: committed_chunks work chunks else [Err WRITE_FAILED]
  end.

Lemma asked_work l : forall o,
  omap work_of (messages (foldl ask o l)) = omap work_of (messages o) ++ omap ask_work l.
Proof.
  induction l as [|a l IH]; intros o; simpl; [by rewrite app_nil_r|]. rewrite IH.
  destruct a; simpl; rewrite omap_app; simpl; by rewrite <-app_assoc.
Qed.

Lemma last_barrier_leaves o b :
  object_wf o -> (exists pre, messages o = pre ++ [MBarrier b]) ->
  b ∈ leaves writes storage_error is_error handle_storage handle_socket host0 (messages o) <->
  commits (omap work_of (messages o)) = true.
Proof.
  intros [G _ _] [pre E]. rewrite E in *. rewrite !omap_app in *. simpl in *. rewrite app_nil_r.
  apply NoDup_app in G as (_ & Hd & _).
  apply gate_leaves_iff; [done|done| |set_solver]. intros H. apply (Hd b H). by left.
Qed.

(** ** What an object promises *)

(** C7: the body of a response that is gated is the one whose chunks each follow
    only work that committed, and ends with an error at the first that does not,
    as far as the receiver takes it. *)
Theorem gated_body_equiv o chunks room :
  object_wf o ->
  fst (gated writes storage_error is_error handle_storage handle_socket host0 o chunks room) =
  firstn room (committed_chunks (omap work_of (messages o)) chunks).
Proof.
  revert o room. induction chunks as [|[asked c] chunks IH]; intros o room Ho; cbn [gated committed_chunks];
    [by rewrite firstn_nil|].
  destruct (barrier (foldl ask o asked)) as [b o1] eqn:E.
  destruct (asks_wf asked o Ho) as [H1 _]. destruct (barrier_wf _ _ _ H1 E) as ([H2 _] & Hb & _).
  assert (omap work_of (messages o1) = omap work_of (messages o) ++ omap ask_work asked) as Hw.
  { rewrite <-asked_work. injection E as _ <-. simpl. by rewrite omap_app, app_nil_r. }
  assert (b ∈ leaves writes storage_error is_error handle_storage handle_socket host0 (messages o1) <->
    commits (omap work_of (messages o) ++ omap ask_work asked) = true) as Hiff.
  { rewrite <-Hw. by apply last_barrier_leaves; [|injection E as <- <-; eexists]. }
  rewrite <-Hw in *. destruct (commits (omap work_of (messages o1))) eqn:Ec.
  - rewrite (bool_decide_true _ (proj2 Hiff eq_refl)). destruct room; [done|].
    specialize (IH o1 room H2). destruct (gated _ _ _ _ _ _ o1 chunks room). simpl in *. by rewrite IH.
  - rewrite bool_decide_false by (by intros ?%Hiff). by destruct room as [|[]].
Qed.

(** C6: an object takes the events of its mailbox in the order they came, the first
    one first, each at a moment when it neither reads its storage nor is blocked. *)
Theorem events_enter_in_order idle drain at_ spent o first mailbox es p o' t' tm' :
  fresh o -> serve_object idle drain at_ spent o first mailbox es = (p, o', t', tm') ->
  taken (log o') `prefix_of` event_id first :: (event_id <$> mailbox) ++ mailed (log o') /\
  forall id g, Took id g ∈ log o' -> gate_open g = true.
Proof.
  intros Ho Hs. destruct (serve_object_ok _ _ _ _ _ _ _ _ _ _ _ _ Ho Hs) as [W O _ _]. split.
  - destruct O as [[_ O]|[-> _]]; [|apply prefix_nil]. rewrite app_comm_cons, <-O. by eexists.
  - intros id g Hin. by apply (proj1 (Forall_forall _ _) (wf_log _ W) _ Hin).
Qed.

(** While an object reads its storage only storage results run; and of each
    kind, storage results or others, callbacks run in the order they came, each
    once. *)
Theorem callbacks_wait_for_reads idle drain at_ spent o first mailbox es p o' t' tm' :
  fresh o -> serve_object idle drain at_ spent o first mailbox es = (p, o', t', tm') ->
  (forall m g, Ran m g ∈ log o' -> gate_reading g = true -> is_storage m = true) /\
  forall c, of_class c (ran (log o')) `prefix_of` of_class c (called (log o')).
Proof.
  intros Ho Hs. destruct (serve_object_ok _ _ _ _ _ _ _ _ _ _ _ _ Ho Hs) as [W _ _ C].
  split; [|done]. intros m g Hin. by apply (proj1 (Forall_forall _ _) (wf_log _ W) _ Hin).
Qed.

(** An object ends without an error only when no event is in flight, and either
    its mailbox closed or its idle timer ran out. *)
Theorem object_ends_without_events idle drain at_ spent o first mailbox es o' t' tm' :
  serve_object idle drain at_ spent o first mailbox es = (Over (Ok tt), o', t', tm') ->
  inflight t' = [] /\ (closed t' = true \/ Exists (fun e => (idle_at tm' <= now e)%Z) es).
Proof.
  unfold DurableObject.serve_object. destruct spent; [done|]. apply serve_polls_ends.
Qed.

(** Over all the lives of an object, every event that came was used by one life
    or waits in the mailbox, in the order they came; a life that was built uses the
    events it took, and loses its first event only if it took none. *)
Theorem lives_share_the_mailbox idle drain mailbox lives ls m :
  (forall life o, life ∈ lives -> context life = Ok o -> fresh o) ->
  run idle drain mailbox lives = (ls, m) ->
  mjoin (used <$> ls) ++ (event_id <$> m) =
  (event_id <$> mailbox) ++
    mjoin (zip_with (fun life r => (event_id <$> came life) ++ came_in r) lives ls).
Proof. apply run_uses. Qed.

(** Draining ends with nothing left that may run: no callback at all, or none
    but the ones that wait for the object's reads. *)
Theorem drain_runs_all_it_may o pending arrived o' rest n :
  drain_gated o pending arrived false = Ok (o', rest, n) ->
  (rest = [] \/ gate_reading (gate o') = true /\ Forall (fun m => is_storage m = false) rest) /\
  (length rest + n = length pending + length arrived)%nat.
Proof.
  unfold drain_gated. intros [= [H Hc]%run_callbacks_done]; [|done].
  split; [by apply next_callback_None|]. rewrite length_app in Hc. lia.
Qed.

End Correct.

(** ** A run *)

(** The constructor writes; the fetch writes and responds; then the alarm reads, ends
    once its read answers, and the object stays idle for 100 ms. *)
Definition demo_run_fetch : Run := mkRun true (Ok 200%Z) None true false false None.
Definition demo_run_alarm (d : bool) : Run := mkRun false (Err "No response set"%string) None false false d None.
Definition demo_fetch : Guest (StorageOp := nat) (SocketOp := unit) :=
  mkGuest [AskStorage 2%Z 7; AskStorage 3%Z 0] (GateState false true) false {[1 := demo_run_fetch]} false.
Definition demo_read : Guest (StorageOp := nat) (SocketOp := unit) :=
  mkGuest [] (GateState false false) false {[1 := demo_run_fetch]} false.
Definition demo_alarm (d : bool) : Guest (StorageOp := nat) (SocketOp := unit) :=
  mkGuest [] (GateState false false) false {[1 := demo_run_fetch; 2 := demo_run_alarm d]} false.

Definition demo_context (script : list (Guest (StorageOp := nat) (SocketOp := unit))) :=
  mkObject script (GateState false false) false ∅ [] 0 0 [0; 9; 9] [].
Definition demo_ok : ConstructEnv := mkConstruct false false false false None.

Definition demo_object : Object (StorageOp := nat) (SocketOp := unit) :=
  mkObject [demo_fetch; demo_read; demo_alarm false; demo_alarm true] (GateState false false) false ∅
    [MStorage 1%Z 5] 0 0 [0; 9; 9] [].

Lemma demo_fresh : fresh demo_writes Err demo_is_error demo_storage (fun h (_ : unit) => h) [] demo_object.
Proof. by split; [constructor; try constructor|]. Qed.

Definition quiet : RoundEnv := mkRound [] false [] false.
Definition demo_rounds (k : nat) : RoundEnv :=
  match k with
  | 0 => mkRound [Alarm 2] false [Dispatch.ExecuteTimeout 9%Z] false
  | 1 => mkRound [] false [Dispatch.ObjectStorage 3%Z (Dispatch.Written 0)] false
  | _ => quiet
  end.

Definition demo_serve (es : list PollEnv) :=
  serve_object demo_writes Err demo_is_error demo_storage (fun h (_ : unit) => h) [] 100 50 0 false
    demo_object (Fetch 1 false) [] es.
Definition demo_polls : list PollEnv :=
  [mkPoll demo_rounds false false false [] 10; mkPoll (fun _ => quiet) false false false [] 20;
   mkPoll (fun _ => quiet) false false false [] 300].

Definition demo_end : Object (StorageOp := nat) (SocketOp := unit) :=
  snd (fst (fst (demo_serve demo_polls))).

Lemma demo_result :
  demo_serve demo_polls =
  (Over (Ok tt), demo_end, mkLoop [] [] [] [] false, mkTimers 110 None None).
Proof. vm_compute. reflexivity. Qed.

Lemma events_enter_in_order_witness :
  taken (log demo_end) = [1; 2] /\ taken (log demo_end) `prefix_of` [1; 2].
Proof.
  split; [by vm_compute|].
  exact (proj1 (events_enter_in_order demo_writes Err demo_is_error demo_storage (fun h (_ : unit) => h) []
    _ _ _ _ _ _ _ _ _ _ _ _ demo_fresh demo_result)).
Defined.

Lemma callbacks_wait_for_reads_witness :
  Forall (fun m => is_storage m = true) (omap (fun e =>
    match e with Ran m g => if gate_reading g then Some m else None | _ => None end) (log demo_end)) /\
  filter (fun x => is_storage x = false) (ran (log demo_end)) `prefix_of` [Dispatch.ExecuteTimeout 9%Z].
Proof.
  destruct (callbacks_wait_for_reads demo_writes Err demo_is_error demo_storage (fun h (_ : unit) => h) []
    _ _ _ _ _ _ _ _ _ _ _ _ demo_fresh demo_result) as [_ H].
  split; [by vm_compute; repeat constructor|exact (H false)].
Defined.

Lemma object_ends_without_events_witness :
  inflight (mkLoop [] [] [] [] false) = [] /\ (false = true \/ Exists (fun e => (110 <= now e)%Z) demo_polls).
Proof.
  exact (object_ends_without_events demo_writes Err demo_is_error demo_storage (fun h (_ : unit) => h) []
    _ _ _ _ _ _ _ _ _ _ _ demo_result).
Defined.

(** Two lives: the constructor of the first throws, the second serves both events
    left. *)
Definition demo_lives : list (Life (StorageOp := nat) (SocketOp := unit)) :=
  [mkLife [Fetch 7 false; Fetch 1 false] 0 (Ok demo_object)
     (mkConstruct false false false false (Some "no"%string)) false [];
   mkLife [] 0 (Ok (mkObject (demo_read :: script demo_object) (GateState false false) false ∅
     [MStorage 1%Z 5] 0 0 [0; 9; 9] [])) demo_ok false demo_polls].

Definition demo_run :=
  run demo_writes Err demo_is_error demo_storage (fun h (_ : unit) => h) [] 100 50 [] demo_lives.

Lemma lives_share_the_mailbox_witness :
  mjoin (used <$> fst demo_run) = [7; 1; 2] /\
  mjoin (used <$> fst demo_run) ++ (event_id <$> snd demo_run) =
  mjoin (zip_with (fun life r => (event_id <$> came life) ++ came_in r) demo_lives (fst demo_run)).
Proof.
  split; [by vm_compute|].
  apply (lives_share_the_mailbox demo_writes Err demo_is_error demo_storage (fun h (_ : unit) => h) []
    100 50 [] demo_lives (fst demo_run) (snd demo_run)); [|by vm_compute].
  intros life o Hin Ho. unfold demo_lives in Hin.
  rewrite !elem_of_cons, elem_of_nil in Hin. destruct Hin as [->|[->|[]]];
    simpl in Ho; simplify_eq; (split; [constructor; try constructor|]); done.
Defined.

Lemma drain_runs_all_it_may_witness :
  let r := drain_gated demo_object [Dispatch.ExecuteTimeout 9%Z] [Dispatch.ExecuteTimeout 8%Z] false in
  exists o', r = Ok (o', [Dispatch.ExecuteTimeout 8%Z], 1) /\ gate_reading (gate o') = true.
Proof.
  eexists. split; [by vm_compute|].
  assert (drain_gated demo_object [Dispatch.ExecuteTimeout 9%Z] [Dispatch.ExecuteTimeout 8%Z] false =
    Ok (match drain_gated demo_object [Dispatch.ExecuteTimeout 9%Z] [Dispatch.ExecuteTimeout 8%Z] false with
        | Ok (o, _, _) => o | Err (_, o) => o end, [Dispatch.ExecuteTimeout 8%Z], 1)) as E by by vm_compute.
  destruct (proj1 (drain_runs_all_it_may _ _ _ _ _ _ E)) as [H|[H _]]; [done|exact H].
Defined.

(** A constructor that blocks the object for longer than [idle] loses the first
    event: the object ends well and never took it. *)
Example blocked_constructor_loses_first_event :
  let blocked := mkObject [] (GateState true false) false ∅ [] 0 0 [] [] in
  let '(p, o, t, _) :=
    serve_object demo_writes Err demo_is_error demo_storage (fun h (_ : unit) => h) [] 100 50 0 false
      blocked (Fetch 1 false) []
      [mkPoll (fun _ => quiet) false false false [] 10; mkPoll (fun _ => quiet) false false false [] 110] in
  p = Over (Ok tt) /\ taken (log o) = [] /\ queue t = [Fetch 1 false].
Proof. by vm_compute. Qed.

(** An alarm handler that is terminated panics, where a fetch handler is an error. *)
Example terminated_alarm_panics :
  let stuck := mkGuest (StorageOp := nat) (SocketOp := unit) [] (GateState false false) false ∅ true in
  let serve first :=
    fst (fst (fst (serve_object demo_writes Err demo_is_error demo_storage (fun h (_ : unit) => h) [] 100 50 0
      false (demo_context [stuck]) first []
      [mkPoll (fun _ => quiet) true false false [] 10]))) in
  serve (Alarm 1) = Panic /\ serve (Fetch 1 false) = Over (Err CpuTimeLimit).
Proof. by vm_compute. Qed.

(** A chunk after a write that commits, then one after a write that fails. *)
Lemma gated_body_equiv_witness :
  fst (gated demo_writes Err demo_is_error demo_storage (fun h (_ : unit) => h) [] demo_object
    [([AskStorage 4%Z 6], Ok [1%Z]); ([AskStorage 5%Z 13], Ok [2%Z]); ([], Ok [3%Z])] 5) =
  [Ok [1%Z]; Err WRITE_FAILED].
Proof.
  rewrite (gated_body_equiv demo_writes Err demo_is_error demo_storage (fun h (_ : unit) => h) [] demo_object);
    [by vm_compute|exact (proj1 demo_fresh)].
Defined.

End DurableObjectCorrect.
