(* ===== verification/ObjectSteps.v ===== *)
(** * The runs of guest code behind what an object did

    Everything an object takes, runs and answers happens between two runs of its guest
    code. [steps] is what a property must survive to hold all along [serve_object]; it is
    proved once, for the gates of ObjectGates.v and for the answers below: an answer waits
    for a barrier that comes after all that the guest asked up to the run which made the
    event ready, and says what durable_object.js answered then. *)

From stdpp Require Import base list gmap strings.
From Stdlib Require Import ZArith Lia.
From S2P Require Import Prelude ObjectQueue Handlers Dispatch DurableObject DurableObjectCorrect.

Module ObjectSteps.
Import ObjectQueue DurableObject DurableObjectCorrect.

Section Steps.

Context {StorageOp SocketOp Answer Host : Type}.
Context (writes : StorageOp -> bool).
Context (storage_error : string -> Answer) (is_error : Answer -> bool).
Context (handle_storage : Host -> StorageOp -> option Answer * Host).
Context (handle_socket : Host -> SocketOp -> Host).
Context (host0 : Host).

Local Notation Object := (@Object StorageOp SocketOp).
Local Notation Message := (@Message StorageOp SocketOp).
Local Notation Ask := (@Ask StorageOp SocketOp).
Local Notation Guest := (@Guest StorageOp SocketOp).
Local Notation commits := (all_commit writes storage_error is_error handle_storage handle_socket host0).
Local Notation poll_gate := (poll_gate writes storage_error is_error handle_storage handle_socket host0).
Local Notation answer_alarm := (answer_alarm writes storage_error is_error handle_storage handle_socket host0).
Local Notation answer_fetch := (answer_fetch writes storage_error is_error handle_storage handle_socket host0).
Local Notation send_response := (send_response writes storage_error is_error handle_storage handle_socket host0).
Local Notation answer_one := (answer_one writes storage_error is_error handle_storage handle_socket host0).
Local Notation answer := (answer writes storage_error is_error handle_storage handle_socket host0).
Local Notation turn_rounds := (turn_rounds writes storage_error is_error handle_storage handle_socket host0).
Local Notation poll := (poll writes storage_error is_error handle_storage handle_socket host0).
Local Notation serve_polls := (serve_polls writes storage_error is_error handle_storage handle_socket host0).
Local Notation serve_object := (serve_object writes storage_error is_error handle_storage handle_socket host0).
Implicit Types (o : Object) (t : Loop) (f : InFlight).

(** The entries of a log that come just before a run of guest code. *)
Definition enters (e : Entry) : bool :=
  match e with Took _ _ | Ran _ _ | SignalledDisconnect _ => true | _ => false end.

Definition entered (l : list Entry) : nat := length (filter (fun e => enters e = true) l).

Lemma entered_snoc l e : entered (l ++ [e]) = if enters e then S (entered l) else entered l.
Proof.
  unfold entered. rewrite filter_app, length_app, filter_cons, filter_nil.
  destruct (enters e); [rewrite decide_True by done|rewrite decide_False by done]; simpl; lia.
Qed.

Lemma entered_app l k : entered (l ++ k) = entered l + entered k.
Proof. unfold entered. by rewrite filter_app, length_app. Qed.

(** ** Properties that last *)

(** Messages and log only grow. *)
Definition grew o o' : Prop := messages o `prefix_of` messages o' /\ log o `prefix_of` log o'.

#[local] Instance grew_preorder : PreOrder grew.
Proof. split; [by split|]. intros o1 o2 o3 [] []. split; by etrans. Qed.

Lemma note_grew o e : grew o (note o e).
Proof. split; [done|by eexists]. Qed.

Lemma set_messages_grew o l n : grew o (set_messages o (messages o ++ l) n).
Proof. split; [by eexists|done]. Qed.

Lemma asks_grew l : forall o, grew o (foldl ask o l).
Proof. induction l as [|a l IH]; intros o; [done|]. simpl. etrans; [|apply IH]. destruct a; apply set_messages_grew. Qed.

Lemma enter_grew o : grew o (snd (enter o)).
Proof. unfold enter. destruct (script o) as [|g l]; [done|]. destruct (asks_grew (asks g) o). by split. Qed.

Lemma poll_gate_grew o b : grew o (snd (poll_gate o b)).
Proof. unfold DurableObject.poll_gate. simpl. by destruct (progress o). Qed.

(** The gate an entry tells is the one the object has. *)
Definition shown o (e : Entry) : Prop :=
  match e with Took _ g | Ran _ g => g = gate o | SignalledDisconnect _ => True | _ => False end.

Definition quiet (e : Entry) : Prop :=
  match e with Mailed _ | Called _ | Upgraded _ _ => True | _ => False end.

(** What a run says of the answer to an event. *)
Definition says_response (r : HttpResponse) (run : Run) : Prop :=
  ready run = true /\ exists status upgrade, response run = Ok status /\ r = fst (respond run status upgrade).

Definition says_alarm (r : result unit string) (run : Run) : Prop :=
  run_done run = true /\ r = match run_error run with Some e => Err e | None => Ok tt end.

(** A property [I] of an object, with [H] of every answer it holds. *)
Record steps (I : Object -> Prop) (H : forall T, (T -> Run -> Prop) -> Object -> EventId -> Held T -> Prop)
    : Prop := {
  st_note o e : I o -> quiet e -> I (note o e);
  st_enter o e : I o -> shown o e -> I (snd (enter (note o e)));
  st_barrier o : I o -> I (snd (barrier o));
  st_poll o b : I o -> I (snd (poll_gate o b));
  st_hold T (says : T -> Run -> Prop) o id a :
    I o -> says a (run_of o id) -> H T says (snd (barrier o)) id (mkHeld a (fst (barrier o)));
  st_grew T says o o' id h : grew o o' -> H T says o id h -> H T says o' id h;
  st_response o id h :
    I o -> H _ says_response o id h -> I (note o (SentResponse id (held_answer h) (held_gate h)));
  st_alarm o id h : I o -> H _ says_alarm o id h -> I (note o (SentAlarm id (held_answer h) (held_gate h)))
}.

Section Walk.

Context (I : Object -> Prop) (H : forall T, (T -> Run -> Prop) -> Object -> EventId -> Held T -> Prop).
Context (laws : steps I H).

Definition flight_held o f : Prop :=
  match f with
  | FetchInFlight id _ _ (Some h) _ => H _ says_response o id h
  | AlarmInFlight id _ (Some h) => H _ says_alarm o id h
  | _ => True
  end.

Definition good o (fl : list InFlight) : Prop := I o /\ Forall (flight_held o) fl.

Lemma flight_held_grew o o' f : grew o o' -> flight_held o f -> flight_held o' f.
Proof. intros Hg. destruct f as [? ? ? [h|] ?|? ? [h|]|]; simpl; try done; by apply (st_grew I H laws). Qed.

Lemma flights_grew o o' fl : grew o o' -> Forall (flight_held o) fl -> Forall (flight_held o') fl.
Proof. intros Hg Hf. eapply Forall_impl; [exact Hf|]. intros f. by apply flight_held_grew. Qed.

Lemma enter_kept o e : I o -> shown o e -> I (snd (enter (note o e))) /\ grew o (snd (enter (note o e))).
Proof.
  intros Ho He. split; [by apply (st_enter I H laws)|]. etrans; [apply note_grew|apply enter_grew].
Qed.

Lemma admit_event_good o e :
  I o ->
  match admit_event o e with
  | Ok (f, o') => I o' /\ grew o o' /\ flight_held o' f
  | Err (_, o') => I o'
  end.
Proof.
  intros Ho. unfold admit_event. destruct (enter_kept o (Took (event_id e) (gate o)) Ho eq_refl) as [Hi Hg].
  destruct (enter _) as [term o']. simpl in Hi, Hg. by destruct e, term.
Qed.

Lemma admit_list_good l : forall o fl,
  good o fl ->
  match admit_list o fl l with Ok (_, fl', o') => good o' fl' | Err (_, o', _) => I o' end.
Proof.
  induction l as [|e l IH]; intros o fl [Ho Hf]; simpl; [by split|]. destruct (gate_open (gate o)); [|by split].
  pose proof (admit_event_good o e Ho) as Ha. destruct (admit_event o e) as [[f o']|[st o']]; [|done].
  destruct Ha as (Hi & Hg & Hh). apply IH. split; [done|]. apply Forall_app. split; [by eapply flights_grew|].
  by apply Forall_singleton.
Qed.

Lemma admit_all_good o t mc :
  good o (inflight t) ->
  match admit_all o t mc with Ok (t', o') => good o' (inflight t') | Err (_, o', _) => I o' end.
Proof.
  intros Ho. unfold admit_all. pose proof (admit_list_good (queue t) o (inflight t) Ho) as Hq.
  destruct (admit_list o (inflight t) (queue t)) as [[[q fl] o']|[[st o'] l]]; [|done]. destruct q; [|done].
  pose proof (admit_list_good (mail t) o' fl Hq) as Hm. by destruct (admit_list o' fl (mail t)) as [[[m fl'] o'']|[[st o''] l]].
Qed.

Lemma run_callbacks_good n : forall o pending count,
  I o -> I (fst (fst (run_callbacks n o pending count))) /\ grew o (fst (fst (run_callbacks n o pending count))).
Proof.
  induction n as [|n IH]; intros o pending count Ho; simpl; [done|]. destruct (_ ≫= _) as [[m rest]|]; [|done].
  destruct (enter_kept o (Ran m (gate o)) Ho eq_refl) as [Hi Hg].
  destruct (IH _ rest (S count) Hi) as [Hi' Hg']. split; [done|by etrans].
Qed.

Lemma drain_gated_good o pending arrived cc :
  I o ->
  match drain_gated o pending arrived cc with
  | Ok (o', _, _) => I o' /\ grew o o'
  | Err (_, o') => I o'
  end.
Proof.
  intros Ho. unfold drain_gated. pose proof (st_note I H laws o (Called arrived) Ho Logic.I) as Hn.
  destruct cc; [done|].
  destruct (run_callbacks_good (length (pending ++ arrived)) _ (pending ++ arrived) 0 Hn) as [Hi Hg].
  destruct (run_callbacks _ _ _ _) as [[o' p'] n']. split; [done|]. etrans; [apply note_grew|done].
Qed.

(** ** Answers *)

Lemma poll_gate_good o b : I o -> I (snd (poll_gate o b)) /\ grew o (snd (poll_gate o b)).
Proof. intros Ho. split; [by apply (st_poll I H laws)|apply poll_gate_grew]. Qed.

Lemma barrier_good o : I o -> I (snd (barrier o)) /\ grew o (snd (barrier o)).
Proof. intros Ho. split; [by apply (st_barrier I H laws)|apply set_messages_grew]. Qed.

Lemma hold_response_good o id r u h :
  I o -> from_option (H _ says_response o id) True h ->
  let o' := fst (fst (fst (fst (hold_response o id r u h)))) in
  I o' /\ grew o o' /\ from_option (H _ says_response o' id) True (snd (fst (hold_response o id r u h))).
Proof.
  intros Ho Hh. unfold hold_response. destruct (_ && _) eqn:E; [|done].
  destruct (response (run_of o id)) as [st|] eqn:Er; [|done].
  assert (I (match snd (respond (run_of o id) st u) with Some ws => note o (Upgraded id ws) | None => o end)) as Hu
    by (destruct (snd _); [by apply (st_note I H laws)|done]).
  assert (says_response (fst (respond (run_of o id) st u)) (run_of o id)) as Hs.
  { apply andb_prop in E as [_ Hr]. split; [done|]. by exists st, u. }
  destruct (respond (run_of o id) st u) as [resp up]. simpl in *. destruct up as [ws|].
  - destruct (barrier_good _ Hu) as [Hi Hg]. split_and!; [done|by etrans; [apply note_grew|]|].
    by apply (st_hold I H laws _ says_response (note o (Upgraded id ws)) id resp).
  - destruct (barrier_good _ Hu) as [Hi Hg]. split_and!; [done|done|].
    by apply (st_hold I H laws _ says_response o id resp).
Qed.

Lemma send_response_good o id r h :
  I o -> from_option (H _ says_response o id) True h ->
  let o' := fst (fst (fst (send_response o id r h))) in
  I o' /\ grew o o' /\ from_option (H _ says_response o' id) True (snd (fst (send_response o id r h))).
Proof.
  intros Ho Hh. unfold DurableObject.send_response. destruct h as [h|]; [|done]. simpl in Hh.
  destruct (poll_gate_good o (held_gate h) Ho) as [Hi Hg].
  pose proof (st_grew I H laws _ _ _ _ _ _ Hg Hh) as Hh'. destruct (poll_gate o (held_gate h)) as [[[]|] o']; simpl in *.
  - split_and!; [by apply (st_response I H laws)|by etrans; [|apply note_grew]|done].
  - done.
  - done.
Qed.

Lemma tell_disconnect_good o id r d :
  I o -> I (fst (fst (tell_disconnect o id r d))) /\ grew o (fst (fst (tell_disconnect o id r d))).
Proof. intros Ho. unfold tell_disconnect. destruct (_ && _); [|done]. by apply enter_kept. Qed.

Lemma answer_fetch_good o id r u h d :
  I o -> from_option (H _ says_response o id) True h ->
  let '(o', kept, _) := answer_fetch o id r u h d in
  I o' /\ grew o o' /\ Forall (flight_held o') (option_list kept).
Proof.
  intros Ho Hh. unfold DurableObject.answer_fetch.
  pose proof (hold_response_good o id r u h Ho Hh) as H1.
  destruct (hold_response o id r u h) as [[[[o1 r1] u1] h1] a1]. destruct H1 as (I1 & G1 & H1). simpl in I1, G1, H1.
  pose proof (send_response_good o1 id r1 h1 I1 H1) as H2.
  destruct (send_response o1 id r1 h1) as [[[o2 r2] h2] a2]. destruct H2 as (I2 & G2 & H2). simpl in I2, G2, H2.
  pose proof (tell_disconnect_good o2 id r2 d I2) as H3.
  destruct (tell_disconnect o2 id r2 d) as [[o3 d3] a3]. destruct H3 as [I3 G3]. simpl in I3, G3.
  split_and!; [done|by etrans; [exact G1|etrans; [exact G2|exact G3]]|].
  destruct (_ || _); [|by constructor]. apply Forall_singleton. destruct h2; [|done]. simpl in *.
  by eapply (st_grew I H laws).
Qed.

(** An alarm that is held, or not yet, is answered or kept. *)
Lemma send_alarm_good o id d h :
  I o -> H _ says_alarm o id h ->
  let '(o', kept, _) := answer_alarm o id d (Some h) in
  I o' /\ grew o o' /\ Forall (flight_held o') (option_list kept).
Proof.
  intros Ho Hh. unfold DurableObject.answer_alarm.
  destruct (poll_gate_good o (held_gate h) Ho) as [Hi Hg]. pose proof (st_grew I H laws _ _ _ _ _ _ Hg Hh) as Hh'.
  destruct (poll_gate o (held_gate h)) as [[[]|] o']; simpl in *.
  - destruct d; [|by split_and!]. split_and!; [by apply (st_alarm I H laws)|by etrans; [|apply note_grew]|by constructor].
  - by split_and!.
  - split_and!; [done|done|]. by apply Forall_singleton.
Qed.

Lemma answer_alarm_good o id d h :
  I o -> from_option (H _ says_alarm o id) True h ->
  let '(o', kept, _) := answer_alarm o id d h in
  I o' /\ grew o o' /\ Forall (flight_held o') (option_list kept).
Proof.
  intros Ho Hh. destruct h as [h|]; [by apply send_alarm_good|].
  destruct (run_done (run_of o id)) eqn:E.
  - assert (answer_alarm o id d None = answer_alarm (snd (barrier o)) id d
      (Some (mkHeld (match run_error (run_of o id) with Some e => Err e | None => Ok tt end) (fst (barrier o))))) as ->
      by (unfold DurableObject.answer_alarm; by rewrite E).
    destruct (barrier_good o Ho) as [Hi Hg].
    pose proof (send_alarm_good (snd (barrier o)) id d _ Hi
      (st_hold I H laws _ says_alarm o id _ Ho (conj E eq_refl))) as Hs.
    destruct (answer_alarm (snd (barrier o)) id d _) as [[o' kept] a]. destruct Hs as (? & ? & ?).
    split_and!; [done|by etrans|done].
  - unfold DurableObject.answer_alarm. rewrite E. split_and!; [done|done|]. by apply Forall_singleton.
Qed.

Lemma answer_one_good o f :
  I o -> flight_held o f ->
  let '(o', kept, _) := answer_one o f in I o' /\ grew o o' /\ Forall (flight_held o') (option_list kept).
Proof.
  intros Ho Hf. destruct f as [id r u h d|id d h|id]; simpl answer_one.
  - apply answer_fetch_good; [done|by destruct h].
  - apply answer_alarm_good; [done|by destruct h].
  - destruct (run_done _); split_and!; try done; by repeat constructor.
Qed.

Lemma turn_answers_good fl : forall o,
  good o fl -> let '(o', fl', _) := answer o fl in good o' fl' /\ grew o o'.
Proof.
  induction fl as [|f fl IH]; intros o [Ho Hf]; simpl; [by split|]. apply Forall_cons in Hf as [H1 Hf].
  pose proof (answer_one_good o f Ho H1) as Ha. destruct (answer_one o f) as [[o1 k] a]. destruct Ha as (I1 & G1 & K1).
  specialize (IH o1 (conj I1 (flights_grew _ _ _ G1 Hf))). destruct (answer o1 fl) as [[o2 r] a'].
  destruct IH as [[I2 F2] G2]. split; [|by etrans]. split; [done|]. apply Forall_app. split; [by eapply flights_grew|done].
Qed.

(** ** Turns *)

Lemma turn_rounds_good n : forall k o t took env,
  good o (inflight t) ->
  match turn_rounds n k o t took env with
  | Ok (o', t', _, _) => good o' (inflight t')
  | Err (_, o', _) => I o'
  end.
Proof.
  induction n as [|n IH]; intros k o t took env Ho; [done|]. cbn [DurableObject.turn_rounds].
  set (t1 := mkLoop _ _ _ _ _).
  assert (good (note o (Mailed (mail_in (env k)))) (inflight t1)) as H1.
  { destruct Ho as [Ho Hf]. split; [by apply (st_note I H laws)|]. eapply flights_grew; [apply note_grew|done]. }
  pose proof (admit_all_good _ t1 (mail_closed (env k)) H1) as Ha.
  destruct (admit_all _ t1 _) as [[t2 o2]|[[st o2] m]]; cbn [result_bind]; [|done]. destruct Ha as [I2 F2].
  pose proof (drain_gated_good o2 (pending t2) (calls_in (env k)) (calls_closed (env k)) I2) as Hd.
  destruct (drain_gated o2 _ _ _) as [[[o3 p3] c3]|[st o3]]; cbn [result_bind]; [|done]. destruct Hd as [I3 G3].
  assert (good o3 (inflight t2)) as H3 by (split; [done|by eapply flights_grew]).
  destruct (gate o3); [|done]. cbn [inflight]. pose proof (turn_answers_good (inflight t2) o3 H3) as Hans.
  destruct (answer o3 (inflight t2)) as [[o4 fl4] a4]. destruct Hans as [H4 _].
  destruct (_ && _); [done|]. destruct (n =? 0)%nat; [done|]. by apply IH.
Qed.

Lemma after_turn_good idle drain active took o t tm e :
  good o (inflight t) -> good o (inflight (snd (fst (after_turn idle drain active took o t tm e)))).
Proof.
  intros [Ho Hf]. split; [done|]. unfold after_turn.
  assert (Forall (flight_held o) (filter (fun f => caller_left (left e) f = false) (inflight t))) as Hl.
  { apply Forall_forall. intros f [_ Hin]%list_elem_of_filter. by apply (proj1 (Forall_forall _ _) Hf). }
  destruct (gate o); [|done]. destruct (match _ with Some at_ => _ | None => _ end); [done|].
  destruct (_ && _); [done|]. by destruct (closed t).
Qed.

Lemma poll_good idle drain o t tm e :
  good o (inflight t) -> let '(_, o', t', _) := poll idle drain o t tm e in good o' (inflight t').
Proof.
  intros Ho. unfold DurableObject.poll. pose proof (turn_rounds_good MAX_ROUNDS 0 o t false (rounds e) Ho) as Ht.
  destruct (turn_rounds _ _ _ _ _ _) as [[[[o1 t1] k1] w1]|[[st o1] m]]; [|by destruct st; split].
  destruct (stopped _ _ _); [done|].
  pose proof (after_turn_good idle drain (negb (bool_decide (inflight t = []))) k1 o1 t1 tm e Ht) as Hafter.
  by destruct (after_turn _ _ _ _ _ _ _ _) as [[p t2] tm2].
Qed.

Lemma serve_polls_good idle drain es : forall o t tm,
  good o (inflight t) -> let '(_, o', t', _) := serve_polls idle drain o t tm es in good o' (inflight t').
Proof.
  induction es as [|e es IH]; intros o t tm Ho; simpl; [done|]. pose proof (poll_good idle drain o t tm e Ho) as Hp.
  destruct (poll idle drain o t tm e) as [[[p o1] t1] tm1]. destruct p; [done|done|by apply IH].
Qed.

Lemma serve_object_keeps idle drain at_ spent o first mailbox es :
  I o -> I (snd (fst (fst (serve_object idle drain at_ spent o first mailbox es)))).
Proof.
  intros Ho. unfold DurableObject.serve_object. destruct spent; [done|].
  pose proof (serve_polls_good idle drain es o (mkLoop [first] mailbox [] [] false)
    (mkTimers (at_ + idle)%Z None None) (conj Ho (Forall_nil_2 _))) as Hs.
  destruct (serve_polls _ _ _ _ _ _) as [[[p o'] t'] tm']. apply Hs.
Qed.

End Walk.

(** ** The guest runs of an object *)

Section Runs.

(** The object [serve_object] starts with. *)
Context (o0 : Object).

(** What the guest asks of a message. *)
Definition asked_of (m : Message) : option Ask :=
  match m with
  | MStorage id op => Some (AskStorage id op)
  | MSocket op => Some (AskSocket op)
  | MOutbound _ => Some AskOutbound
  | MUngated _ => Some AskUngated
  | MBarrier _ => None
  end.

(** After [k] runs of the guest (or all there are): the last one, the gate, an event, and
    all that was asked. *)
Definition last_run (k : nat) : option Guest := last (take k (script o0)).
Definition gate_at (k : nat) : Gate := from_option gate_after (gate o0) (last_run k).
Definition runs_at (k : nat) : gmap EventId Run := from_option runs_after (runs o0) (last_run k).
Definition run_at (k : nat) (id : EventId) : Run := default fresh_run (runs_at k !! id).
Definition asked_at (k : nat) : list Ask :=
  omap asked_of (messages o0) ++ mjoin (asks <$> take k (script o0)).

(** The answer [a] to an event waits for barrier [b]: there was a number of runs, no more
    than [k], after which durable_object.js said [a] of the event, and all that the guest
    asked in them comes before the barrier. *)
Definition answer_of {T} (says : T -> Run -> Prop) (ms : list Message) (k : nat) (id : EventId) (a : T)
    (b : nat) : Prop :=
  exists K pre post, (K <= k)%nat /\ ms = pre ++ MBarrier b :: post /\ omap asked_of pre = asked_at K /\
    says a (run_at K id).

Definition entry_step (ms : list Message) (k : nat) (e : Entry) : Prop :=
  match e with
  | Took _ g | Ran _ g => g = gate_at k
  | SentResponse id r b => answer_of says_response ms k id r b
  | SentAlarm id r b => answer_of says_alarm ms k id r b
  | _ => True
  end.

(** An object that is where its runs left it. *)
Record in_step o : Prop := {
  is_script : script o = drop (entered (log o)) (script o0);
  is_gate : gate o = gate_at (entered (log o));
  is_runs : runs o = runs_at (entered (log o));
  is_asked : omap asked_of (messages o) = asked_at (entered (log o));
  is_log : forall i e, log o !! i = Some e -> entry_step (messages o) (entered (take i (log o))) e
}.

Definition held_step T (says : T -> Run -> Prop) o (id : EventId) (h : Held T) : Prop :=
  answer_of says (messages o) (entered (log o)) id (held_answer h) (held_gate h).

Lemma next_run k :
  match drop k (script o0) with
  | [] => take (S k) (script o0) = take k (script o0) /\ drop (S k) (script o0) = []
  | g :: l => take (S k) (script o0) = take k (script o0) ++ [g] /\ drop (S k) (script o0) = l
  end.
Proof.
  generalize (script o0). induction k as [|k IH]; intros [|g l]; try done. specialize (IH l). simpl in *.
  destruct (drop k l) as [|g' l']; destruct IH as [E1 E2]; (split; [by rewrite E1|exact E2]).
Qed.

Lemma asks_messages l : forall o, omap asked_of (messages (foldl ask o l)) = omap asked_of (messages o) ++ l.
Proof.
  induction l as [|a l IH]; intros o; simpl; [by rewrite app_nil_r|]. rewrite IH.
  destruct a; simpl; rewrite omap_app; simpl; by rewrite <-app_assoc.
Qed.

Lemma answer_of_grew {T} (says : T -> Run -> Prop) ms ms' k k' id a b :
  ms `prefix_of` ms' -> (k <= k')%nat -> answer_of says ms k id a b -> answer_of says ms' k' id a b.
Proof.
  intros [l ->] Hk (K & pre & post & ? & -> & ? & ?). exists K, pre, (post ++ l). split_and!; [lia| |done|done].
  by rewrite <-app_assoc.
Qed.

Lemma entry_step_grew ms ms' k e : ms `prefix_of` ms' -> entry_step ms k e -> entry_step ms' k e.
Proof. intros Hp. destruct e; simpl; try done; by apply answer_of_grew. Qed.

Lemma log_step_grew ms ms' l :
  ms `prefix_of` ms' -> (forall i e, l !! i = Some e -> entry_step ms (entered (take i l)) e) ->
  forall i e, l !! i = Some e -> entry_step ms' (entered (take i l)) e.
Proof. intros Hp Hl i e Hi. eapply entry_step_grew; [exact Hp|by apply Hl]. Qed.

Lemma log_step_snoc ms l e :
  (forall i e, l !! i = Some e -> entry_step ms (entered (take i l)) e) -> entry_step ms (entered l) e ->
  forall i e', (l ++ [e]) !! i = Some e' -> entry_step ms (entered (take i (l ++ [e]))) e'.
Proof.
  intros Hl He i e' [[Hi Hlt]|[-> <-]]%lookup_snoc_Some.
  - rewrite take_app_le by lia. by apply Hl.
  - by rewrite take_app_length.
Qed.

Lemma note_step o e : in_step o -> enters e = false -> entry_step (messages o) (entered (log o)) e -> in_step (note o e).
Proof.
  intros [H1 H2 H3 H4 H5] Hn He. split; simpl; rewrite ?entered_snoc, ?Hn; try done. by apply log_step_snoc.
Qed.

Lemma enter_step o e : in_step o -> shown o e -> in_step (snd (enter (note o e))).
Proof.
  intros [H1 H2 H3 H4 H5] He.
  assert (enters e = true) as Hn by by destruct e.
  assert (forall i e', (log o ++ [e]) !! i = Some e' ->
    entry_step (messages o) (entered (take i (log o ++ [e]))) e') as Hl.
  { apply log_step_snoc; [done|]. destruct e; simpl in *; try done; congruence. }
  pose proof (next_run (entered (log o))) as Hr. rewrite <-H1 in Hr.
  unfold enter. simpl. destruct (script o) as [|g l] eqn:Es; destruct Hr as [Ht Hd].
  - split; simpl; rewrite ?entered_snoc, ?Hn; unfold gate_at, runs_at, asked_at, last_run; rewrite ?Ht, ?Hd; done.
  - split; simpl; rewrite ?ask_log; simpl; rewrite ?entered_snoc, ?Hn; unfold gate_at, runs_at, asked_at, last_run;
      rewrite ?Ht, ?Hd, ?last_snoc; try done.
    + rewrite asks_messages. simpl. rewrite H4. unfold asked_at.
      by rewrite fmap_app, join_app, <-app_assoc; simpl; rewrite app_nil_r.
    + eapply log_step_grew; [|exact Hl]. apply (asks_grew (asks g) (note o e)).
Qed.

Lemma in_step_messages o l n :
  in_step o -> omap asked_of l = [] -> in_step (set_messages o (messages o ++ l) n).
Proof.
  intros [H1 H2 H3 H4 H5] Hl. split; simpl; try done.
  - by rewrite omap_app, Hl, app_nil_r.
  - eapply log_step_grew; [|exact H5]. by eexists.
Qed.

Lemma run_of_step o id : in_step o -> run_of o id = run_at (entered (log o)) id.
Proof. intros Ho. unfold run_of, run_at. by rewrite (is_runs o Ho). Qed.

Lemma in_step_steps : steps in_step held_step.
Proof.
  split.
  - intros o e Ho Hq. apply note_step; [done|by destruct e|by destruct e].
  - apply enter_step.
  - intros o Ho. by apply in_step_messages.
  - intros o b [H1 H2 H3 H4 H5]. unfold DurableObject.poll_gate. by destruct (progress o).
  - intros T says o id a Ho Hs. unfold held_step, answer_of. simpl.
    exists (entered (log o)), (messages o), []. rewrite (is_asked o Ho), <-run_of_step by done. by split_and!.
  - intros T says o o' id h [Hm [l Hl]] Hh. eapply answer_of_grew; [done| |exact Hh]. rewrite Hl, entered_app. lia.
  - intros o id h Ho Hh. by apply note_step.
  - intros o id h Ho Hh. by apply note_step.
Qed.

Lemma in_step_start : log o0 = [] -> in_step o0.
Proof.
  intros H. split; rewrite H; try done. unfold asked_at. simpl. by rewrite app_nil_r.
Qed.

End Runs.

Lemma serve_object_in_step idle drain at_ spent o first mailbox es p o' t' tm' :
  log o = [] -> serve_object idle drain at_ spent o first mailbox es = (p, o', t', tm') -> in_step o o'.
Proof.
  intros Hl He. pose proof (serve_object_keeps _ _ (in_step_steps o) idle drain at_ spent o first mailbox es) as Hk.
  rewrite He in Hk. by apply Hk, in_step_start.
Qed.

(** ** Answers *)

(** Messages have at most one barrier of a name. *)
Lemma barrier_split (pre pre' post post' : list Message) b :
  NoDup (omap gate_name (pre ++ MBarrier b :: post)) ->
  pre ++ MBarrier b :: post = pre' ++ MBarrier b :: post' -> pre = pre'.
Proof.
  revert pre'. induction pre as [|m pre IH]; intros [|m' pre'] Hn E; simplify_eq/=; [done| | |].
  - rewrite omap_app in Hn. simpl in Hn. apply NoDup_cons in Hn as [Hn _]. destruct Hn.
    apply elem_of_app. right. by left.
  - rewrite omap_app in Hn. simpl in Hn. apply NoDup_cons in Hn as [Hn _]. destruct Hn.
    apply elem_of_app. right. by left.
  - f_equal. eapply IH; [|done]. destruct (gate_name m'); [by apply NoDup_cons in Hn as [_ ?]|done].
Qed.

(** The answer [a] to an event, that left after [k] runs of the guest with barrier [b]:
    all the work the guest asked up to the run that made it ready was done and committed. *)
Definition waited_for {T} (says : T -> Run -> Prop) (o : Object) (ms : list Message) (k : nat) (id : EventId)
    (a : T) (b : nat) : Prop :=
  exists K pre post, (K <= k)%nat /\ says a (run_at o K id) /\
    ms = pre ++ MBarrier b :: post /\ omap asked_of pre = asked_at o K /\ commits (omap work_of pre) = true.

Lemma answer_waited {T} (says : T -> Run -> Prop) o o' k id a b :
  object_wf writes storage_error is_error handle_storage handle_socket host0 o' ->
  answer_of o says (messages o') k id a b ->
  committed writes storage_error is_error handle_storage handle_socket host0 (messages o') b ->
  waited_for says o (messages o') k id a b.
Proof.
  intros [Hn _ _] (K & pre & post & Hk & E & Ha & Hs) (pre' & post' & E' & Hc).
  exists K, pre, post. split_and!; try done. rewrite E in Hn, E'. by rewrite (barrier_split _ _ _ _ _ Hn E').
Qed.

(** C5: a response or the outcome of an alarm leaves at most once, for an event the object
    took. It is what durable_object.js answered after some run of the guest, before it left;
    and everything the guest asked up to the end of that run comes before the barrier the
    answer waited for, with every write of it committed. *)
Theorem answers_wait_for_writes idle drain at_ spent o first mailbox es p o' t' tm' :
  fresh writes storage_error is_error handle_storage handle_socket host0 o ->
  serve_object idle drain at_ spent o first mailbox es = (p, o', t', tm') ->
  NoDup (event_id first :: (event_id <$> mailbox) ++ mailed (log o')) ->
  NoDup (sent (log o')) /\ sent (log o') ⊆ taken (log o') /\
  forall i,
    match log o' !! i with
    | Some (SentResponse id r b) =>
        waited_for says_response o (messages o') (entered (take i (log o'))) id r b
    | Some (SentAlarm id r b) => waited_for says_alarm o (messages o') (entered (take i (log o'))) id r b
    | _ => True
    end.
Proof.
  intros Ho Hs Hn. pose proof (serve_object_in_step _ _ _ _ _ _ _ _ _ _ _ _ (proj2 Ho) Hs) as Hi.
  destruct (serve_object_ok _ _ _ _ _ _ _ _ _ _ _ _ _ _ _ _ _ _ Ho Hs) as [W O S _]. split_and!.
  - eapply NoDup_sub; [exact S|]. destruct O as [[_ O]|[-> _]]; [|constructor].
    rewrite app_comm_cons, <-O in Hn. by apply NoDup_app in Hn as [? _].
  - intros id Hid. by eapply elem_of_submseteq.
  - intros i. destruct (log o' !! i) as [e|] eqn:E; [|done].
    pose proof (is_log _ _ Hi i e E) as He. apply list_elem_of_lookup_2 in E.
    pose proof (proj1 (Forall_forall _ _) (wf_log _ _ _ _ _ _ _ W) _ E) as Hc.
    destruct e; try done; by apply answer_waited.
Qed.

End Steps.

(** ** A run *)

(** The run of DurableObjectCorrect.v: the response of its fetch leaves after three runs
    of the guest, the outcome of its alarm after four. *)
Notation demo_waited says := (waited_for demo_writes Err demo_is_error demo_storage (fun h (_ : unit) => h) []
  says demo_object (messages demo_end)).

Lemma answers_wait_for_writes_witness :
  demo_waited says_response 3 1 (Response 200) 0 /\ demo_waited says_alarm 4 2 (Ok tt) 1.
Proof.
  destruct (answers_wait_for_writes demo_writes Err demo_is_error demo_storage (fun h (_ : unit) => h) []
    _ _ _ _ _ _ _ _ _ _ _ _ demo_fresh demo_result) as (_ & _ & H).
  - vm_compute. repeat constructor; set_solver.
  - split; [exact (H 7)|exact (H 11)].
Defined.

End ObjectSteps.
