(* ===== verification/Platform.v ===== *)
(** * Foreground tasks of V8 (src/src/platform.rs)

    V8 posts tasks to an isolate from any thread; the thread that holds the lock of
    the isolate runs them, and an event loop that waits on the isolate is woken.

    The queues live in a heap ([Arc]); the registry gives the queue of each isolate
    address. [World] also keeps the time, the waiters of the event loops, the wakers
    woken since their loops last polled, and a history, newest first. *)

From stdpp Require Import base list gmap relations sorting.
From Stdlib Require Import ZArith Lia.
From S2P Require Import Prelude.

Module Platform.

(** Isolate addresses, [Arc<ForegroundTasks>] by identity, tasks and wakers. *)
Notation Key := Z (only parsing).
Notation Arc := nat (only parsing).
Notation Task := nat (only parsing).
Notation Waker := nat (only parsing).

(** [Queue] *)
Record Queue := mkQueue {
  ready : list Task;
  delayed : list (Z * Task);
  wakers : list Waker
}.

(** [ForegroundTasks] *)
Record ForegroundTasks := mkTasks { key : Key; queue : Queue }.

(** [Waiter] *)
Record Waiter := mkWaiter { tasks : Arc; waker : option Waker }.

Inductive Event :=
| Posted (a : Arc) (t : Task) (due : option Z)
| Ran (a : Arc) (t : Task) (was_ready : bool) (at_ : Z)
| Forgot (a : Arc) (gone : list Task) (gone_later : list Task)
| Registered (a : Arc) (w : Waker).

Record World := mkWorld {
  registry : gmap Key Arc;
  heap : list ForegroundTasks;
  waiters : list (option Waiter);
  notified : gset Waker;
  now : Z;
  history : list Event
}.

Definition initial : World := mkWorld ∅ [] [] ∅ 0 [].

Definition set_queue (w : World) (a : Arc) (q : Queue) : World :=
  mkWorld (registry w) (alter (fun t => mkTasks (key t) q) a (heap w)) (waiters w) (notified w) (now w)
    (history w).

Definition happen (w : World) (e : Event) : World :=
  mkWorld (registry w) (heap w) (waiters w) (notified w) (now w) (e :: history w).

Definition queue_at (w : World) (a : Arc) : option Queue := queue <$> heap w !! a.

(** ** The registry *)

(** [ForegroundTasks::new], put in the registry. *)
Definition insert_new (w : World) (k : Key) : Arc * World :=
  let a := length (heap w) in
  (a, mkWorld (<[k := a]> (registry w)) (heap w ++ [mkTasks k (mkQueue [] [] [])]) (waiters w) (notified w)
        (now w) (history w)).

(** [tasks_at] *)
Definition tasks_at (w : World) (k : Key) : Arc * World :=
  match registry w !! k with Some a => (a, w) | None => insert_new w k end.

(** [register] *)
Definition register (w : World) (k : Key) : Arc * World := insert_new w k.

(** [forget], lock by lock: its place in the registry, if it still has it; its tasks. *)
Definition unregister (w : World) (a : Arc) : option World :=
  t ← heap w !! a;
  let registry' :=
    if bool_decide (registry w !! key t = Some a) then delete (key t) (registry w) else registry w in
  Some (mkWorld registry' (heap w) (waiters w) (notified w) (now w) (history w)).

Definition clear (w : World) (a : Arc) : option World :=
  t ← heap w !! a;
  Some (happen (set_queue w a (mkQueue [] [] (wakers (queue t))))
          (Forgot a (ready (queue t)) (delayed (queue t)).*2)).

Definition forget (w : World) (a : Arc) : option World := w ← unregister w a; clear w a.

(** ** Tasks *)

(** [post]; a delay is in nanoseconds. *)
Definition post (w : World) (a : Arc) (task : Task) (delay : option Z) : option World :=
  q ← queue_at w a;
  match delay with
  | None =>
      let w := set_queue w a (mkQueue (ready q ++ [task]) (delayed q) []) in
      let w := happen w (Posted a task None) in
      Some (mkWorld (registry w) (heap w) (waiters w) (notified w ∪ list_to_set (wakers q)) (now w)
              (history w))
  | Some d =>
      let due := (now w + Z.max d 0)%Z in
      Some (happen (set_queue w a (mkQueue (ready q) (delayed q ++ [(due, task)]) (wakers q)))
              (Posted a task (Some due)))
  end.

(** [post_task], [post_delayed_task] and their non-nestable kin: the queue is looked up
    under the lock of the registry, then the task goes in under its own. *)
Definition post_task (w : World) (k : Key) (task : Task) (delay : option Z) : option World :=
  let '(a, w) := tasks_at w k in post w a task delay.

(** [next] *)
Definition next (w : World) (a : Arc) : option (option Task * World) :=
  q ← queue_at w a;
  match ready q with
  | task :: ready' =>
      Some (Some task, happen (set_queue w a (mkQueue ready' (delayed q) (wakers q)))
                         (Ran a task true (now w)))
  | [] =>
      match position (fun p => (fst p <=? now w)%Z) (delayed q) with
      | None => Some (None, w)
      | Some i =>
          '(p, delayed') ← swap_remove i (delayed q);
          Some (Some (snd p), happen (set_queue w a (mkQueue [] delayed' (wakers q)))
                                (Ran a (snd p) false (now w)))
      end
  end.

Definition pass (w : World) (d : Z) : World :=
  mkWorld (registry w) (heap w) (waiters w) (notified w) (now w + Z.max d 0)%Z (history w).

(** What the run of a task posts, and how long it takes. *)
Record Effect := mkEffect { posts : list (Key * Task * option Z); took : Z }.

Fixpoint post_all (w : World) (l : list (Key * Task * option Z)) : option World :=
  match l with
  | [] => Some w
  | (k, t, d) :: l => w ← post_task w k t d; post_all w l
  end.

(** [run]: the tasks it ran, and the world. [script] is what each task does, in the
    order they run. *)
Fixpoint run (fuel : nat) (w : World) (a : Arc) (script : list Effect)
  : option (list Task * list Effect * World) :=
  match fuel with
  | O => Some ([], script, w)
  | S fuel =>
      '(t, w) ← next w a;
      match t with
      | None => Some ([], script, w)
      | Some t =>
          let '(e, script) := match script with [] => (mkEffect [] 0, []) | e :: s => (e, s) end in
          w ← post_all w (posts e);
          '(ts, script, w) ← run fuel (pass w (took e)) a script;
          Some (t :: ts, script, w)
      end
  end.

(** ** Waiters *)

Definition set_waiters (w : World) (l : list (option Waiter)) : World :=
  mkWorld (registry w) (heap w) l (notified w) (now w) (history w).

(** [waiter] *)
Definition waiter (w : World) (a : Arc) : World := set_waiters w (waiters w ++ [Some (mkWaiter a None)]).

(** [Waiter::register]; the poll takes the notification of its waker. *)
Definition waiter_register (w : World) (i : nat) (wk : Waker) : option World :=
  x ← mjoin (waiters w !! i);
  q ← queue_at w (tasks x);
  let wakers' := if bool_decide (wk ∈ wakers q) then wakers q else wakers q ++ [wk] in
  let w := set_queue w (tasks x) (mkQueue (ready q) (delayed q) wakers') in
  let w := set_waiters w (<[i := Some (mkWaiter (tasks x) (Some wk))]> (waiters w)) in
  let w := mkWorld (registry w) (heap w) (waiters w) (notified w ∖ {[wk]}) (now w) (history w) in
  Some (happen w (Registered (tasks x) wk)).

(** [Waiter::drop] *)
Definition waiter_drop (w : World) (i : nat) : option World :=
  x ← mjoin (waiters w !! i);
  let w := set_waiters w (<[i := None]> (waiters w)) in
  match waker x with
  | None => Some w
  | Some mine =>
      q ← queue_at w (tasks x);
      Some (set_queue w (tasks x)
              (mkQueue (ready q) (delayed q) (filter (fun known => known <> mine) (wakers q))))
  end.

(** ** Any interleaving *)

(** Steps of the threads, one lock each: what posts and what forgets takes two, and other
    threads come in between. A thread that posts holds the [Arc] it found, however old. *)
Inductive Op :=
| Register (k : Key)
| Unregister (a : Arc)
| Clear (a : Arc)
| Find (k : Key)
| Post (a : Arc) (t : Task) (delay : option Z)
| Next (a : Arc)
| NewWaiter (a : Arc)
| Poll (i : nat) (wk : Waker)
| DropWaiter (i : nat)
| Pass (d : Z).

(** Whether another event loop polled last with this waker. *)
Definition used_by_others (w : World) (i : nat) (wk : Waker) : bool :=
  existsb (fun p => negb (fst p =? i) &&
                    match snd p with Some x => bool_decide (waker x = Some wk) | None => false end)
    (enumerate (waiters w)).

(** An event loop polls with the waker of its own task, and a task runs one event
    loop at a time: no two loops poll with one waker. *)
Definition exec (w : World) (o : Op) : option World :=
  match o with
  | Register k => Some (snd (register w k))
  | Unregister a => unregister w a
  | Clear a => clear w a
  | Find k => Some (snd (tasks_at w k))
  | Post a t d => post w a t d
  | Next a => snd <$> next w a
  | NewWaiter a => Some (waiter w a)
  | Poll i wk => if used_by_others w i wk then None else waiter_register w i wk
  | DropWaiter i => waiter_drop w i
  | Pass d => Some (pass w d)
  end.

Definition reachable_world : World -> Prop :=
  reachable (fun w => w = initial) (fun w w' => exists o, exec w o = Some w').

End Platform.
