(* ===== verification/PlatformCorrect.v ===== *)
(** * Correctness of the foreground tasks

    In every interleaving of the threads: a task runs at most once, tasks without a
    delay run in the order they were posted, a delayed task not before it is due;
    an event loop that waits is woken by the tasks posted since it registered; and
    [run] comes to an end with nothing due. *)

From stdpp Require Import base list gmap relations sorting.
From Stdlib Require Import ZArith Lia.
From S2P Require Import Prelude Platform.

Module PlatformCorrect.
Import Platform.

(** ** What a history says *)

Definition event_arc (e : Event) : Arc :=
  match e with Posted a _ _ | Ran a _ _ _ | Forgot a _ _ | Registered a _ => a end.

(** Oldest first. *)
Fixpoint project {A} (f : Event -> list A) (h : list Event) : list A :=
  match h with [] => [] | e :: h => project f h ++ f e end.

Definition of_arc {A} (a : Arc) (f : Event -> list A) (e : Event) : list A :=
  if decide (event_arc e = a) then f e else [].

(** Tasks without a delay: posted; and run or dropped. *)
Definition ready_in (a : Arc) := project (of_arc a (fun e =>
  match e with Posted _ t None => [t] | _ => [] end)).
Definition ready_out (a : Arc) := project (of_arc a (fun e =>
  match e with Ran _ t true _ => [t] | Forgot _ gone _ => gone | _ => [] end)).

(** All tasks: posted; run; and run or dropped. *)
Definition posted (a : Arc) := project (of_arc a (fun e =>
  match e with Posted _ t _ => [t] | _ => [] end)).
Definition gone (a : Arc) := project (of_arc a (fun e =>
  match e with Ran _ t _ _ => [t] | Forgot _ l l' => l ++ l' | _ => [] end)).
Definition ran (a : Arc) := project (of_arc a (fun e =>
  match e with Ran _ t _ _ => [t] | _ => [] end)).

(** A task that ran was posted to the same isolate, and was due. *)
Definition ran_ok (h : list Event) (e : Event) : Prop :=
  match e with
  | Ran a t true _ => Posted a t None ∈ h
  | Ran a t false at_ => exists due, Posted a t (Some due) ∈ h /\ (due <= at_)%Z
  | _ => True
  end.

Record arc_ok (h : list Event) (a : Arc) (q : Queue) : Prop := {
  aq_ready : ready_out a h ++ ready q = ready_in a h;
  aq_all : gone a h ++ ready q ++ (delayed q).*2 ≡ₚ posted a h;
  aq_now : Forall (fun t => Posted a t None ∈ h) (ready q);
  aq_later : Forall (fun p => Posted a (snd p) (Some (fst p)) ∈ h) (delayed q)
}.

Record task_inv (w : World) : Prop := {
  ti_registry : map_Forall (fun k a => key <$> heap w !! a = Some k) (registry w);
  ti_arcs : Forall (fun e => event_arc e < length (heap w)) (history w);
  ti_queues : forall a t, heap w !! a = Some t -> arc_ok (history w) a (queue t);
  ti_ran : Forall (ran_ok (history w)) (history w)
}.

(** ** Histories that grow *)

Lemma project_cons {A} (f : Event -> list A) e h : project f (e :: h) = project f h ++ f e.
Proof. done. Qed.

Lemma of_arc_here {A} a (f : Event -> list A) e : event_arc e = a -> of_arc a f e = f e.
Proof. intros H. unfold of_arc. by rewrite decide_True. Qed.

Lemma of_arc_other {A} a (f : Event -> list A) e : event_arc e <> a -> of_arc a f e = [].
Proof. intros H. unfold of_arc. by rewrite decide_False. Qed.

Lemma project_none {A} a (f : Event -> list A) h :
  Forall (fun e => event_arc e <> a) h -> project (of_arc a f) h = [].
Proof. induction 1 as [|e h He _ IH]; simpl; [done|]. by rewrite IH, of_arc_other. Qed.

Lemma ran_ok_cons h e x : ran_ok h x -> ran_ok (e :: h) x.
Proof.
  destruct x as [|a t [] at_|?|?]; simpl; try done; [by right|].
  intros (due & H & ?). exists due. split; [by right|done].
Qed.

Lemma arc_ok_other h a q e : event_arc e <> a -> arc_ok h a q -> arc_ok (e :: h) a q.
Proof.
  intros He [R A N L]. unfold ready_in, ready_out, posted, gone in *.
  split; unfold ready_in, ready_out, posted, gone; rewrite ?project_cons, ?of_arc_other, ?app_nil_r by done;
    try done.
  - eapply Forall_impl; [exact N|]. by right.
  - eapply Forall_impl; [exact L|]. by right.
Qed.

(** Only the tasks of the queue matter. *)
Lemma arc_ok_tasks h a q q' :
  ready q' = ready q -> delayed q' = delayed q -> arc_ok h a q -> arc_ok h a q'.
Proof. intros Hr Hd [R A N L]. by split; rewrite ?Hr, ?Hd. Qed.

Lemma arc_ok_new h a wk : Forall (fun e => event_arc e <> a) h -> arc_ok h a (mkQueue [] [] wk).
Proof.
  intros H. split; try done; unfold ready_in, ready_out, posted, gone; by rewrite !project_none.
Qed.

(** One queue changes and one event happens. *)
Lemma set_happen_inv w a t q e :
  task_inv w -> heap w !! a = Some t -> event_arc e = a ->
  arc_ok (e :: history w) a q -> ran_ok (e :: history w) e ->
  task_inv (happen (set_queue w a q) e).
Proof.
  intros [G A Q R] Ht <- Hq He. split; simpl.
  - intros k b Hb. specialize (G k b Hb). destruct (decide (b = event_arc e)) as [->|Hne].
    + rewrite list_lookup_alter_eq, Ht. by rewrite Ht in G.
    + by rewrite list_lookup_alter_ne.
  - rewrite length_alter. constructor; [by eapply lookup_lt_Some|done].
  - intros b x Hx. destruct (decide (b = event_arc e)) as [->|Hne].
    + rewrite list_lookup_alter_eq, Ht in Hx. by simplify_eq/=.
    + rewrite list_lookup_alter_ne in Hx by done. by apply arc_ok_other, Q.
  - constructor; [done|]. eapply Forall_impl; [exact R|]. apply ran_ok_cons.
Qed.

(** Waiters and wakers do not matter to the tasks. *)
Lemma tasks_only_inv w w' :
  registry w' = registry w -> heap w' = heap w -> history w' = history w -> task_inv w -> task_inv w'.
Proof. intros H1 H2 H3 [G A Q R]. by split; rewrite ?H1, ?H2, ?H3. Qed.

Lemma set_wakers_inv w a q wk :
  task_inv w -> queue_at w a = Some q -> task_inv (set_queue w a (mkQueue (ready q) (delayed q) wk)).
Proof.
  intros [G A Q R] Hq. unfold queue_at in Hq. apply fmap_Some in Hq as (t & Ht & ->). split; simpl.
  - intros k b Hb. specialize (G k b Hb). destruct (decide (b = a)) as [->|Hne].
    + rewrite list_lookup_alter_eq, Ht. by rewrite Ht in G.
    + by rewrite list_lookup_alter_ne.
  - by rewrite length_alter.
  - intros b x Hx. destruct (decide (b = a)) as [->|Hne].
    + rewrite list_lookup_alter_eq, Ht in Hx. simplify_eq/=. by eapply arc_ok_tasks, Q.
    + rewrite list_lookup_alter_ne in Hx by done. by apply Q.
  - done.
Qed.

(** ** Each operation *)

Ltac open_arc := unfold ready_in, ready_out, posted, gone in *.
(** The projections of a history that ends with an event of the arc itself. *)
Ltac here :=
  cbn [ready delayed wakers]; open_arc; rewrite ?project_cons; rewrite ?of_arc_here by done; cbv beta iota;
  rewrite ?app_nil_r.

Lemma insert_new_inv w k : task_inv w -> task_inv (snd (insert_new w k)).
Proof.
  intros [G A Q R]. split; simpl.
  - intros k' b. destruct (decide (k' = k)) as [->|Hne].
    + rewrite lookup_insert_eq. intros [= <-]. rewrite lookup_app_r, Nat.sub_diag by done. done.
    + rewrite lookup_insert_ne by done. intros Hb. specialize (G k' b Hb). simpl in G.
      destruct (heap w !! b) eqn:E; [|done]. by rewrite (lookup_app_l_Some _ _ _ _ E).
  - rewrite length_app. eapply Forall_impl; [exact A|]. simpl. lia.
  - intros b x Hx. apply lookup_app_Some in Hx as [Hx|[Hb Hx]]; [by apply Q|].
    apply list_lookup_singleton_Some in Hx as [Hl <-]. apply arc_ok_new.
    eapply Forall_impl; [exact A|]. simpl. lia.
  - done.
Qed.

Lemma tasks_at_inv w k a w' :
  task_inv w -> tasks_at w k = (a, w') -> task_inv w' /\ is_Some (heap w' !! a) /\
  registry w' !! k = Some a /\ now w' = now w /\ waiters w' = waiters w /\ notified w' = notified w /\
  history w' = history w.
Proof.
  intros Hi. unfold tasks_at. destruct (registry w !! k) as [b|] eqn:E.
  - intros [= <- <-]. split_and!; try done. pose proof (ti_registry _ Hi k b E) as H. simpl in H.
    destruct (heap w !! b); [by eexists|done].
  - intros [= <- <-]. split_and!; [by apply insert_new_inv|simpl; rewrite lookup_app_r, Nat.sub_diag by done; by eexists|
      simpl; by rewrite lookup_insert_eq|done..].
Qed.

Lemma post_inv w a t d w' : task_inv w -> post w a t d = Some w' -> task_inv w'.
Proof.
  intros Hi. unfold post, queue_at. destruct (heap w !! a) as [x|] eqn:Hx; simpl; [|done].
  destruct (ti_queues _ Hi a x Hx) as [R A N L]. destruct d as [d|]; intros [= <-].
  - eapply set_happen_inv; [done|done|done| |done]. split; here; try done.
    + rewrite fmap_app, !app_assoc. simpl. apply Permutation_app; [|done]. by rewrite <-app_assoc.
    + eapply Forall_impl; [exact N|]. by right.
    + apply Forall_app. split; [eapply Forall_impl; [exact L|]; by right|]. repeat constructor.
  - eapply tasks_only_inv; [..|eapply (set_happen_inv w a x (mkQueue (ready (queue x) ++ [t]) (delayed (queue x)) [])
      (Posted a t None)); [done|done|done| |done]]; try done.
    split; here.
    + by rewrite app_assoc, R.
    + rewrite <-A, <-!app_assoc. apply Permutation_app; [done|]. apply Permutation_app; [done|].
      apply Permutation_app_comm.
    + apply Forall_app. split; [eapply Forall_impl; [exact N|]; by right|]. repeat constructor.
    + eapply Forall_impl; [exact L|]. by right.
Qed.

Lemma post_task_inv w k t d w' : task_inv w -> post_task w k t d = Some w' -> task_inv w'.
Proof.
  intros Hi. unfold post_task. destruct (tasks_at w k) as [a w1] eqn:E.
  apply tasks_at_inv in E as (H1 & _); [|done]. by apply post_inv.
Qed.

Lemma unregister_inv w a w' : task_inv w -> unregister w a = Some w' -> task_inv w'.
Proof.
  intros [G A Q R]. unfold unregister. destruct (heap w !! a) as [x|]; simpl; [|done]. intros [= <-].
  split; try done. simpl. case_bool_decide; [|done]. intros k b [_ Hb]%lookup_delete_Some. by apply G.
Qed.

Lemma clear_inv w a w' : task_inv w -> clear w a = Some w' -> task_inv w'.
Proof.
  intros Hi. unfold clear. destruct (heap w !! a) as [x|] eqn:Hx; simpl; [|done]. intros [= <-].
  destruct (ti_queues _ Hi a x Hx) as [R A N L].
  eapply (set_happen_inv w); [done|done|done| |done]. split; here; try done.
Qed.

Lemma next_inv w a r w' : task_inv w -> next w a = Some (r, w') -> task_inv w'.
Proof.
  intros Hi. unfold next, queue_at. destruct (heap w !! a) as [x|] eqn:Hx; simpl; [|done].
  destruct (ti_queues _ Hi a x Hx) as [R A N L]. destruct (ready (queue x)) as [|t ready'].
  - rewrite app_nil_r in R. simpl in A.
    destruct (position _ _) as [i|] eqn:Ep; [|by intros [= _ <-]].
    destruct (swap_remove i (delayed (queue x))) as [[p delayed']|] eqn:Es; simpl; [|done]. intros [= _ <-].
    apply position_Some in Ep as [(y & Hy & Hdue%Z.leb_le) _].
    apply swap_remove_Some in Es as (Hp & Hperm & _). assert (y = p) as -> by congruence.
    assert (Posted a (snd p) (Some (fst p)) ∈ history w) as Hin
      by (apply (proj1 (Forall_forall _ _) L); by eapply list_elem_of_lookup_2).
    eapply set_happen_inv; [done|done|done| |simpl; exists (fst p); split; [by right|done]].
    split; here; try done.
    + rewrite <-A, Hperm. simpl. by rewrite <-app_assoc.
    + apply Forall_forall. intros z Hz. right. apply (proj1 (Forall_forall _ _) L). rewrite Hperm. by right.
  - intros [= _ <-]. apply Forall_cons in N as [Ht N].
    eapply set_happen_inv; [done|done|done| |simpl; by right].
    split; here.
    + by rewrite <-app_assoc.
    + by rewrite <-A, <-app_assoc.
    + eapply Forall_impl; [exact N|]. by right.
    + eapply Forall_impl; [exact L|]. by right.
Qed.

Lemma waiter_register_inv w i wk w' : task_inv w -> waiter_register w i wk = Some w' -> task_inv w'.
Proof.
  intros Hi. unfold waiter_register. destruct (mjoin (waiters w !! i)) as [x|]; simpl; [|done].
  destruct (queue_at w (tasks x)) as [q|] eqn:Hq; simpl; [|done]. intros [= <-].
  pose proof Hq as Hq'. unfold queue_at in Hq'. apply fmap_Some in Hq' as (t & Ht & ->).
  destruct (ti_queues _ Hi _ _ Ht) as [R A N L].
  eapply tasks_only_inv; [..|eapply (set_happen_inv w (tasks x) t _ (Registered (tasks x) wk));
    [done|done|done| |done]]; try done.
  split; here; try done;
    [eapply Forall_impl; [exact N|]|eapply Forall_impl; [exact L|]]; by right.
Qed.

Lemma waiter_drop_inv w i w' : task_inv w -> waiter_drop w i = Some w' -> task_inv w'.
Proof.
  intros Hi. unfold waiter_drop. destruct (mjoin (waiters w !! i)) as [x|]; simpl; [|done].
  destruct (waker x); [|by intros [= <-]; eapply tasks_only_inv; [..|exact Hi]].
  destruct (queue_at _ (tasks x)) as [q|] eqn:Hq; simpl; [|done]. intros [= <-].
  apply set_wakers_inv; [by eapply tasks_only_inv; [..|exact Hi]|done].
Qed.

Lemma exec_inv w o w' : task_inv w -> exec w o = Some w' -> task_inv w'.
Proof.
  intros Hi. destruct o; simpl.
  - intros [= <-]. by apply insert_new_inv.
  - by apply unregister_inv.
  - by apply clear_inv.
  - intros [= <-]. destruct (tasks_at w k) as [a w1] eqn:E. by apply tasks_at_inv in E as [? _].
  - by apply post_inv.
  - destruct (next w a) as [[r w1]|] eqn:E; simpl; [|done]. intros [= <-]. by eapply next_inv.
  - intros [= <-]. by eapply tasks_only_inv; [..|exact Hi].
  - destruct (used_by_others w i wk); [done|]. by apply waiter_register_inv.
  - by apply waiter_drop_inv.
  - intros [= <-]. by eapply tasks_only_inv; [..|exact Hi].
Qed.

Lemma reachable_tasks w : reachable_world w -> task_inv w.
Proof.
  apply reachable_invariant.
  - intros s ->. split; [apply map_Forall_empty|done|by intros [] t|done].
  - intros s s' Hs [o He]. by eapply exec_inv.
Qed.

(** ** Wake-ups *)

(** No task without a delay came to the queue since the waker registered. *)
Fixpoint quiet_since (a : Arc) (wk : Waker) (h : list Event) : bool :=
  match h with
  | [] => true
  | Registered a' wk' :: h => (bool_decide (a' = a) && bool_decide (wk' = wk)) || quiet_since a wk h
  | Posted a' _ None :: h => negb (bool_decide (a' = a)) && quiet_since a wk h
  | _ :: h => quiet_since a wk h
  end.

(** A waker that was not woken is known to its queue, which got nothing since. *)
Definition waits (w : World) (a : Arc) (wk : Waker) : Prop :=
  wk ∈ notified w \/
  exists q, queue_at w a = Some q /\ wk ∈ wakers q /\ quiet_since a wk (history w) = true.

Definition live (w : World) (i : nat) (a : Arc) (wk : Waker) : Prop :=
  waiters w !! i = Some (Some (mkWaiter a (Some wk))).

Record wake_inv (w : World) : Prop := {
  wi_waits : forall i a wk, live w i a wk -> waits w a wk;
  wi_distinct : forall i j a b wk, live w i a wk -> live w j b wk -> i = j
}.

Lemma queue_at_set w a b q : is_Some (queue_at w a) ->
  queue_at (set_queue w a q) b = if decide (b = a) then Some q else queue_at w b.
Proof.
  unfold queue_at. simpl. intros [x Hx]. case_decide as E.
  - subst. rewrite list_lookup_alter_eq. by destruct (heap w !! a).
  - by rewrite list_lookup_alter_ne.
Qed.

(** Steps that only add to the heap, or take tasks out. *)
Lemma waits_mono w w' a wk :
  notified w ⊆ notified w' ->
  (forall q, queue_at w a = Some q -> exists q', queue_at w' a = Some q' /\ wakers q' = wakers q) ->
  (quiet_since a wk (history w) = true -> quiet_since a wk (history w') = true) ->
  waits w a wk -> waits w' a wk.
Proof.
  intros Hn Hq Hh [?|(q & H1 & H2 & H3)]; [left; set_solver|right].
  destruct (Hq q H1) as (q' & ? & E). exists q'. rewrite E. auto.
Qed.

Lemma wake_same w w' :
  waiters w' = waiters w -> notified w' = notified w ->
  (forall a q, queue_at w a = Some q -> exists q', queue_at w' a = Some q' /\ wakers q' = wakers q) ->
  (forall a wk, quiet_since a wk (history w) = true -> quiet_since a wk (history w') = true) ->
  wake_inv w -> wake_inv w'.
Proof.
  intros Hw Hn Hq Hh [W D]. split; unfold live in *; rewrite Hw.
  - intros i a wk Hl. eapply (waits_mono w); [by rewrite Hn|apply Hq|apply Hh|by eapply W].
  - done.
Qed.

Lemma set_same_wakers w a q q' b :
  queue_at w a = Some q -> wakers q' = wakers q ->
  forall x, queue_at w b = Some x -> exists x', queue_at (set_queue w a q') b = Some x' /\ wakers x' = wakers x.
Proof.
  intros Hq Hw x Hx. rewrite queue_at_set by by eexists. case_decide; [|by exists x]. subst.
  exists q'. split; [done|]. congruence.
Qed.

Lemma insert_new_wake w k : wake_inv w -> wake_inv (snd (insert_new w k)).
Proof.
  apply wake_same; try done. intros a q. unfold queue_at. simpl. intros (t & Ht & ->)%fmap_Some.
  exists (queue t). by rewrite (lookup_app_l_Some _ _ _ _ Ht).
Qed.

Lemma post_wake w a t d w' : wake_inv w -> post w a t d = Some w' -> wake_inv w'.
Proof.
  intros Hi. unfold post. destruct (queue_at w a) as [q|] eqn:Hq; simpl; [|done]. destruct d; intros [= <-].
  - eapply wake_same; [..|exact Hi]; try done. intros b. by apply (set_same_wakers w a q).
  - destruct Hi as [W D]. split; [|done]. intros i b wk Hl. destruct (W i b wk Hl) as [?|(x & Hx & Hin & Hs)].
    { left. simpl. set_solver. }
    destruct (decide (b = a)) as [->|Hne].
    + left. simpl. rewrite Hq in Hx. simplify_eq. apply elem_of_union. right. by apply elem_of_list_to_set.
    + right. exists x. split_and!; [|done|simpl; by rewrite bool_decide_false by done].
      change (queue_at (set_queue w a (mkQueue (ready q ++ [t]) (delayed q) [])) b = Some x).
      rewrite queue_at_set by by eexists. by rewrite decide_False.
Qed.

Lemma not_used w i wk j b :
  used_by_others w i wk = false -> j <> i -> live w j b wk -> False.
Proof.
  unfold used_by_others. intros Hu Hne Hl.
  assert (existsb (fun p => negb (fst p =? i) &&
    match snd p with Some x => bool_decide (waker x = Some wk) | None => false end)
    (enumerate (waiters w)) = true) as Hx; [|congruence].
  apply existsb_exists. exists (j, Some (mkWaiter b (Some wk))). split.
  - apply list_elem_of_In, elem_of_enumerate, Hl.
  - simpl. apply Nat.eqb_neq in Hne as ->. by rewrite bool_decide_true.
Qed.

Lemma poll_wake w i wk w' :
  wake_inv w -> used_by_others w i wk = false -> waiter_register w i wk = Some w' -> wake_inv w'.
Proof.
  intros [W D] Hu. unfold waiter_register. destruct (waiters w !! i) as [[x|]|] eqn:Hx; simpl; try done.
  destruct (queue_at w (tasks x)) as [q|] eqn:Hq; simpl; [|done]. intros [= <-].
  set (wakers' := if bool_decide (wk ∈ wakers q) then wakers q else wakers q ++ [wk]).
  set (q' := mkQueue (ready q) (delayed q) wakers').
  assert (forall k, k ∈ wakers q \/ k = wk -> k ∈ wakers') as Hk.
  { intros k. unfold wakers'. case_bool_decide; [|set_solver]. by intros [?| ->]. }
  assert (forall j b k, <[i:=Some (mkWaiter (tasks x) (Some wk))]> (waiters w) !! j =
      Some (Some (mkWaiter b (Some k))) ->
    j = i /\ b = tasks x /\ k = wk \/ j <> i /\ k <> wk /\ live w j b k) as Hl.
  { intros j b k Hj. apply list_lookup_insert_Some in Hj as [(-> & [= <- <-] & _)|[Hne Hj]]; [by left|].
    right. split_and!; [done| |done]. intros ->. by apply (not_used w i wk j b Hu). }
  split.
  - intros j b k [(-> & -> & ->)|(Hne & Hkw & Hj)]%Hl.
    + right. exists q'. split_and!.
      * change (queue_at (set_queue w (tasks x) q') (tasks x) = Some q').
        rewrite queue_at_set by by eexists. by rewrite decide_True.
      * apply Hk. by right.
      * simpl. by rewrite !bool_decide_true.
    + destruct (W j b k Hj) as [?|(y & Hy & Hin & Hs)]; [left; simpl; set_solver|right].
      exists (if decide (b = tasks x) then q' else y). split_and!.
      * change (queue_at (set_queue w (tasks x) q') b = Some (if decide (b = tasks x) then q' else y)).
        rewrite queue_at_set by by eexists. by case_decide.
      * case_decide; [|done]. subst. rewrite Hq in Hy. simplify_eq. apply Hk. by left.
      * simpl. by rewrite Hs, orb_true_r.
  - intros j j' b b' k [(-> & -> & ->)|(? & ? & H1)]%Hl [(-> & -> & ?)|(? & ? & H2)]%Hl; try done.
    by eapply D.
Qed.

Lemma drop_wake w i w' : wake_inv w -> waiter_drop w i = Some w' -> wake_inv w'.
Proof.
  intros [W D]. unfold waiter_drop. destruct (waiters w !! i) as [[x|]|] eqn:Hx; simpl; try done.
  assert (forall j b k, <[i:=None]> (waiters w) !! j = Some (Some (mkWaiter b (Some k))) ->
    j <> i /\ live w j b k) as Hl.
  { intros j b k [(-> & [=] & _)|[Hne Hj]]%list_lookup_insert_Some. done. }
  assert (wake_inv (set_waiters w (<[i:=None]> (waiters w)))) as Hi.
  { split; [intros j b k [_ H]%Hl; by eapply W|intros j j' b b' k [_ H]%Hl [_ H']%Hl; by eapply D]. }
  destruct (waker x) as [mine|] eqn:Em; [|by intros [= <-]].
  destruct (queue_at _ (tasks x)) as [q|] eqn:Hq; simpl; [|done]. intros [= <-].
  split; [|apply (wi_distinct _ Hi)]. intros j b k Hj.
  assert (k <> mine) as Hne.
  { intros ->. apply Hl in Hj as [Hji Hj]. apply Hji, (D j i b (tasks x) mine Hj).
    unfold live. rewrite Hx. by destruct x; simplify_eq/=. }
  destruct (wi_waits _ Hi j b k Hj) as [?|(y & Hy & Hin & Hs)]; [by left|right].
  rewrite queue_at_set by by eexists. case_decide as E; [|by exists y].
  subst. rewrite Hq in Hy. simplify_eq. eexists. split_and!; [done| |done]. simpl.
  by apply list_elem_of_filter.
Qed.

Lemma step_wake w0 w1 o : wake_inv w0 -> exec w0 o = Some w1 -> wake_inv w1.
Proof.
  intros Hi He. destruct o; simpl in He.
  - simplify_eq. by apply insert_new_wake.
  - unfold unregister in He. destruct (heap w0 !! a); simplify_eq/=.
    eapply wake_same; [..|exact Hi]; try done. intros b y Hy. by exists y.
  - unfold clear in He. destruct (heap w0 !! a) as [x|] eqn:Hx; simplify_eq/=.
    eapply wake_same; [..|exact Hi]; try done. intros b y Hy.
    apply (set_same_wakers w0 a (queue x) _ b); [|done|exact Hy]. unfold queue_at. by rewrite Hx.
  - simplify_eq. unfold tasks_at. destruct (registry w0 !! k); [done|]. by apply insert_new_wake.
  - by eapply post_wake.
  - destruct (next w0 a) as [[r w2]|] eqn:E; simplify_eq/=. unfold next in E.
    destruct (queue_at w0 a) as [q|] eqn:Hq; simplify_eq/=.
    repeat case_match; simplify_eq/=; try done.
    + destruct (swap_remove _ _) as [[p d]|]; simplify_eq/=.
      eapply wake_same; [..|exact Hi]; try done. intros b. by apply (set_same_wakers w0 a q).
    + eapply wake_same; [..|exact Hi]; try done. intros b. by apply (set_same_wakers w0 a q).
  - simplify_eq. destruct Hi as [W D]. split.
    + intros i b wk [Hl|[_ Hl]]%lookup_app_Some; [by eapply W|]. by apply list_lookup_singleton_Some in Hl as [_ [=]].
    + intros i j b b' wk [Hl|[_ Hl]]%lookup_app_Some [Hl'|[_ Hl']]%lookup_app_Some;
        try (by apply list_lookup_singleton_Some in Hl as [_ [=]]);
        try (by apply list_lookup_singleton_Some in Hl' as [_ [=]]). by eapply D.
  - destruct (used_by_others w0 i wk) eqn:Hu; [done|]. by eapply poll_wake.
  - by eapply drop_wake.
  - simplify_eq. by eapply wake_same; [..|exact Hi]; [done|done|eauto|done].
Qed.

Lemma reachable_wakes w : reachable_world w -> wake_inv w.
Proof.
  apply reachable_invariant; [|intros s s' Hs [o He]; by eapply step_wake].
  intros s ->. split; unfold live; simpl; intros; by rewrite lookup_nil in *.
Qed.

(** ** The end of [run] *)

Definition waiting (w : World) (a : Arc) : nat :=
  match queue_at w a with Some q => length (ready q) + length (delayed q) | None => 0 end.

(** All the posts a script makes. *)
Fixpoint all_posts (script : list Effect) : nat :=
  match script with [] => 0 | e :: script => length (posts e) + all_posts script end.

Lemma waiting_set w a b q e : is_Some (queue_at w a) ->
  waiting (happen (set_queue w a q) e) b =
  if decide (b = a) then length (ready q) + length (delayed q) else waiting w b.
Proof.
  intros H. unfold waiting. change (queue_at (happen (set_queue w a q) e) b) with (queue_at (set_queue w a q) b).
  rewrite queue_at_set by done. by case_decide.
Qed.

Lemma queue_at_heap w a : is_Some (heap w !! a) -> exists q, queue_at w a = Some q.
Proof. unfold queue_at. intros [t ->]. by eexists. Qed.

Lemma next_counts w a :
  is_Some (heap w !! a) ->
  next w a = Some (None, w) \/
  exists t w', next w a = Some (Some t, w') /\ is_Some (heap w' !! a) /\ S (waiting w' a) = waiting w a.
Proof.
  intros Ha. destruct (queue_at_heap w a Ha) as [q Hq]. unfold next. rewrite Hq. simpl.
  assert (forall q', is_Some (alter (fun t => mkTasks (key t) q') a (heap w) !! a)) as Hs.
  { intros q'. rewrite list_lookup_alter_eq. by apply fmap_is_Some. }
  destruct (ready q) as [|t ready'] eqn:Er.
  - destruct (position _ _) as [i|] eqn:Ep; [|by left]. right.
    destruct (swap_remove_is_Some i (delayed q)) as [[p d'] Es]; [by eapply position_lt|]. rewrite Es. simpl.
    eexists _, _. split_and!; [done|apply Hs|]. rewrite waiting_set by by eexists. rewrite decide_True by done.
    unfold waiting. rewrite Hq, Er. apply swap_remove_Some in Es as (_ & _ & El). simpl. lia.
  - right. eexists _, _. split_and!; [done|apply Hs|]. rewrite waiting_set by by eexists.
    rewrite decide_True by done. unfold waiting. rewrite Hq, Er. simpl. lia.
Qed.

Lemma post_task_counts w k t d a :
  task_inv w -> is_Some (heap w !! a) ->
  exists w', post_task w k t d = Some w' /\ is_Some (heap w' !! a) /\ waiting w' a <= S (waiting w a).
Proof.
  intros Hi Ha. unfold post_task. destruct (tasks_at w k) as [b w1] eqn:E.
  destruct (tasks_at_inv w k b w1 Hi E) as (H1 & Hb & _).
  assert (heap w1 !! a = heap w !! a) as Hsame.
  { unfold tasks_at in E. destruct (registry w !! k); [by simplify_eq|]. injection E as _ <-. simpl.
    destruct Ha as [x Hx]. rewrite Hx. by apply lookup_app_l_Some. }
  assert (waiting w1 a = waiting w a) as Hw by (unfold waiting, queue_at; by rewrite Hsame).
  destruct (queue_at_heap w1 b Hb) as [q Hq]. unfold post. rewrite Hq. simpl.
  destruct (queue_at_heap w1 a) as [qa Hqa]; [by rewrite Hsame|].
  assert (forall q', is_Some (alter (fun t => mkTasks (key t) q') b (heap w1) !! a)) as Hs.
  { intros q'. destruct (decide (a = b)) as [->|]; [rewrite list_lookup_alter_eq; by apply fmap_is_Some|].
    rewrite list_lookup_alter_ne by done. by rewrite Hsame. }
  destruct d as [d|]; (eexists; split_and!; [done|apply Hs|]); rewrite <-Hw.
  - rewrite waiting_set by by eexists. case_decide; [subst; rewrite Hq in Hqa; simplify_eq|lia].
    unfold waiting. rewrite Hq. simpl. rewrite length_app. simpl. lia.
  - change (waiting (happen (set_queue w1 b (mkQueue (ready q ++ [t]) (delayed q) [])) (Posted b t None)) a
      <= S (waiting w1 a)).
    rewrite waiting_set by by eexists. case_decide; [subst; rewrite Hq in Hqa; simplify_eq|lia].
    unfold waiting. rewrite Hq. simpl. rewrite length_app. simpl. lia.
Qed.

Lemma post_all_counts l : forall w a,
  task_inv w -> is_Some (heap w !! a) ->
  exists w', post_all w l = Some w' /\ task_inv w' /\ is_Some (heap w' !! a) /\
    waiting w' a <= length l + waiting w a.
Proof.
  induction l as [|[[k t] d] l IH]; intros w a Hi Ha; simpl; [by exists w|].
  destruct (post_task_counts w k t d a Hi Ha) as (w1 & E & Ha1 & Hw1). rewrite E. simpl.
  destruct (IH w1 a (post_task_inv _ _ _ _ _ Hi E) Ha1) as (w2 & -> & ? & ? & ?). exists w2. split_and!; try done. lia.
Qed.

Lemma run_ends fuel : forall w a script,
  task_inv w -> is_Some (heap w !! a) -> waiting w a + all_posts script < fuel ->
  exists ts script' w', run fuel w a script = Some (ts, script', w') /\ next w' a = Some (None, w').
Proof.
  induction fuel as [|fuel IH]; intros w a script Hi Ha Hf; [lia|]. cbn [run].
  destruct (next_counts w a Ha) as [E|(t & w1 & E & Ha1 & Hw1)]; rewrite E; simpl.
  { by exists [], script, w. }
  assert (exists e rest, (match script with [] => (mkEffect [] 0, []) | e :: s => (e, s) end) = (e, rest) /\
    length (posts e) + all_posts rest <= all_posts script) as (e & rest & -> & Hp).
  { destruct script as [|e rest]; [by exists (mkEffect [] 0), []|by exists e, rest]. }
  destruct (post_all_counts (posts e) w1 a (next_inv _ _ _ _ Hi E) Ha1) as (w2 & -> & H2 & Ha2 & Hw2). simpl.
  destruct (IH (pass w2 (took e)) a rest) as (ts & s' & w3 & -> & Hn).
  - by eapply tasks_only_inv; [..|exact H2].
  - done.
  - change (waiting (pass w2 (took e)) a) with (waiting w2 a). lia.
  - by exists (t :: ts), s', w3.
Qed.

(** ** What the queues promise *)

Lemma ran_gone a h : ran a h ⊆+ gone a h.
Proof.
  induction h as [|e h IH]; [done|]. unfold ran, gone in *. rewrite !project_cons. apply submseteq_app; [done|].
  unfold of_arc. case_decide; [|done]. destruct e; try done. apply submseteq_nil_l.
Qed.


(** No wake-up is lost: an event loop that polled and was not woken since is
    still known to the queue of its isolate, and no task without a delay came to that
    queue since the poll. *)
Theorem no_wakeup_is_lost w i a wk :
  reachable_world w -> waiters w !! i = Some (Some (mkWaiter a (Some wk))) -> wk ∉ notified w ->
  quiet_since a wk (history w) = true /\ exists q, queue_at w a = Some q /\ wk ∈ wakers q.
Proof.
  intros Hi%reachable_wakes Hl Hn. destruct (wi_waits _ Hi i a wk Hl) as [?|(q & ? & ? & ?)]; [done|].
  split; [done|by exists q].
Qed.

(** [run] ends, whatever its tasks post as long as they post finitely often, and
    then no task of the isolate is due. *)
Theorem run_leaves_nothing_due w a script :
  reachable_world w -> is_Some (heap w !! a) ->
  exists ts script' w',
    run (S (waiting w a + all_posts script)) w a script = Some (ts, script', w') /\
    next w' a = Some (None, w').
Proof. intros Hi%reachable_tasks Ha. apply run_ends; [done|done|lia]. Qed.

(** An isolate that goes leaves the queue of a newer isolate at its address alone. *)
Lemma forget_keeps_newer w a w' k b :
  forget w a = Some w' -> registry w !! k = Some b -> b <> a -> registry w' !! k = Some b.
Proof.
  unfold forget, unregister. destruct (heap w !! a) as [t|] eqn:E0; simpl; [|done]. unfold clear. simpl. rewrite E0.
  simpl. intros [= <-] Hb Hne. simpl. case_bool_decide as E; [|done]. rewrite lookup_delete_ne; [done|]. congruence.
Qed.

(** ** A run *)

(** An isolate at address 7, a loop that waits on it, two tasks, one delayed. *)
Definition demo_ops : list Op :=
  [Register 7%Z; NewWaiter 0; Poll 0 100; Find 7%Z; Post 0 1 (Some 50%Z); Pass 10; Post 0 2 None; Next 0].

Definition demo_world : World := default initial (run_steps exec initial demo_ops).

Lemma demo_world_reachable : reachable_world demo_world.
Proof. eapply (run_steps_reachable exec (fun w => w = initial) initial demo_ops); [done|by vm_compute]. Qed.

Definition demo_queue : Queue := mkQueue [] [(50%Z, 1)] [].


(** The loop at the poll, before the task that wakes it. *)
Definition demo_asleep : World := default initial (run_steps exec initial (firstn 6 demo_ops)).

Lemma no_wakeup_is_lost_witness :
  100 ∈ notified demo_world /\
  quiet_since 0 100 (history demo_asleep) = true /\
  exists q, queue_at demo_asleep 0 = Some q /\ 100 ∈ wakers q.
Proof.
  split; [refine (proj1 (bool_decide_eq_true _) _); by vm_compute|].
  apply (no_wakeup_is_lost demo_asleep 0 0 100).
  - eapply (run_steps_reachable exec (fun w => w = initial) initial (firstn 6 demo_ops)); [done|by vm_compute].
  - by vm_compute.
  - refine (proj1 (bool_decide_eq_false _) _); by vm_compute.
Defined.

(** The first task posts another; the delayed one is due. *)
Definition demo_due : World := default initial (run_steps exec initial (firstn 7 demo_ops ++ [Pass 50])).

Lemma run_leaves_nothing_due_witness :
  let script := [mkEffect [(7%Z, 3, None)] 20; mkEffect [] 90] in
  ((fun r => fst (fst r)) <$> run 4 demo_due 0 script) = Some [2; 3; 1] /\
  exists ts script' w', run 4 demo_due 0 script = Some (ts, script', w') /\ next w' 0 = Some (None, w').
Proof.
  split; [by vm_compute|].
  apply (run_leaves_nothing_due demo_due 0 [mkEffect [(7%Z, 3, None)] 20; mkEffect [] 90]); [|eexists; by vm_compute].
  eapply (run_steps_reachable exec (fun w => w = initial) initial (firstn 7 demo_ops ++ [Pass 50]));
    [done|by vm_compute].
Defined.

(** A loop that is polled with another waker leaves the first one behind. *)
Example second_waker_leaves_the_first :
  (wakers <$> (queue_at (default initial
    (run_steps exec initial [Register 7%Z; NewWaiter 0; Poll 0 100; Poll 0 101; DropWaiter 0])) 0)) = Some [100].
Proof. by vm_compute. Qed.

End PlatformCorrect.
