(* ===== verification/Worker.v ===== *)
(** * A worker that owns its isolate (src/src/worker.rs)

    The builder, and one event run through the context of ExecutionContext.v: an
    abort before the event is read first, then the context is reset, the event runs
    to its end, and the waitUntil work is drained. *)

From stdpp Require Import base list gmap strings.
From Stdlib Require Import ZArith Lia.
From S2P Require Import Prelude Streams Handlers Dispatch ExecutionContext.

Module Worker.
Import ExecutionContext.

(** ** Building *)

Section Build.
Context {Script Ops RuntimeLimits Made : Type} (default_limits : RuntimeLimits).
(** [ExecutionContext::new_with_pooled_isolate] on an isolate of these limits. *)
Context (new_context : RuntimeLimits -> Script -> Ops -> result Made TerminationReason).

(** [WorkerBuilder] *)
Record WorkerBuilder := mkBuilder {
  b_script : option Script;
  b_ops : option Ops;
  b_limits : option RuntimeLimits
}.

Definition builder : WorkerBuilder := mkBuilder None None None.
Definition set_script (b : WorkerBuilder) (x : Script) : WorkerBuilder := mkBuilder (Some x) (b_ops b) (b_limits b).
Definition set_ops (b : WorkerBuilder) (x : Ops) : WorkerBuilder := mkBuilder (b_script b) (Some x) (b_limits b).
Definition set_limits (b : WorkerBuilder) (x : RuntimeLimits) : WorkerBuilder :=
  mkBuilder (b_script b) (b_ops b) (Some x).

(** [new_with_ops] *)
Definition new_with_ops (script : Script) (limits : option RuntimeLimits) (ops : Ops)
  : result Made TerminationReason :=
  new_context (default default_limits limits) script ops.

(** [build] *)
Definition build (b : WorkerBuilder) : result Made TerminationReason :=
  match b_script b with
  | None => Err (InitializationError "Script is required")
  | Some script =>
      match b_ops b with
      | None => Err (InitializationError "Operations handle is required")
      | Some ops => new_with_ops script (b_limits b) ops
      end
  end.

(** The order of the setters does not matter, and a worker is built exactly when
    both parts are set and its context is. *)
Lemma build_ok b m :
  build b = Ok m <->
  exists script ops, b_script b = Some script /\ b_ops b = Some ops /\
    new_context (default default_limits (b_limits b)) script ops = Ok m.
Proof. unfold build, new_with_ops. destruct (b_script b), (b_ops b); naive_solver. Qed.

End Build.

(** ** Running an event *)

(** What [reset] meets: a CPU guard that starts spent, how the guest function ended,
    and the guards after it. *)
Record ResetEnv := mkReset {
  r_spent : bool;
  r_called : result unit string;
  r_cpu : bool;
  r_wall : bool
}.

(** What [drain_waituntil] meets. *)
Record DrainEnv := mkDrain { d_polls : list PollEnv; d_view : View; d_aborted : bool }.

(** [Worker::exec]: its outcome with what it did, and the context it leaves to the
    event. *)
Definition worker_exec (l : Limits) (c : Context) (r : ResetEnv) (x : ExecEnv) (d : DrainEnv)
  : M (result unit TerminationReason) * Context :=
  if abort_flag c then (ret (Err Aborted), c)
  else
    let '(res, c) := reset c (r_spent r) (r_called r) (r_cpu r) (r_wall r) in
    match res with
    | Err e => (ret (Err (Other e)), c)
    | Ok _ =>
        (let* o := exec l x in
         match fst o with
         | Err e => ret (Err e)
         | Ok _ => drain_waituntil l (snd o) (d_polls d) (d_view d) (d_aborted d)
         end, c)
    end.

(** [Worker::abort] *)
Definition worker_abort (c : Context) : Context := abort c.

Lemma drain_ok l b polls v ab :
  fst (drain_waituntil l b polls v ab) = Some (Ok tt) ->
  seen FullyComplete None None polls /\ answers (snd (drain_waituntil l b polls v ab)) = [] /\ ab = false.
Proof.
  unfold drain_waituntil. intros H. apply bind_inv in H as ([] & _ & H & ->).
  apply bind_inv in H as ([r w] & Hl & H & ->). injection H as H.
  apply reason_ok in H as ([s Hs] & _ & _ & _ & ->). destruct r as [[]|e]; [|done].
  rewrite !answers_app, loop_quiet. split_and!; [by eapply loop_seen|by destruct b|done].
Qed.

(** An event of a worker that answers Ok ran on a context that was not aborted
    and holds nothing of the events before it; the client got its one answer; and
    the handler, the response body and every waitUntil promise were complete. *)
Theorem worker_ok_means_whole_event l c r x d c' m :
  worker_exec l c r x d = (m, c') -> fst m = Some (Ok tt) ->
  abort_flag c = false /\ is_terminating c' = false /\ abort_flag c' = false /\
  Streams.active_count (streams c') = 0%nat /\ callback_rx c' = [] /\
  (forall id, ~ Dispatch.waiting (tables c') id) /\
  (exists e, answers (snd m) = [e]) /\ seen FullyComplete None None (d_polls d) /\ d_aborted d = false.
Proof.
  unfold worker_exec. destruct (abort_flag c) eqn:Ha; [by intros [= <- <-]|].
  destruct (reset c (r_spent r) (r_called r) (r_cpu r) (r_wall r)) as [res c1] eqn:Hr.
  destruct res as [[]|e]; intros [= <- <-]; [|done]. intros H.
  apply bind_inv in H as ([o kept] & He & H & ->). destruct o as [[]|e]; simpl in H; [|done].
  apply drain_ok in H as (Hs & Hq & Hd). simpl.
  assert (exists e, answers (snd (exec l x)) = [e]) as [e Hans].
  { apply exec_ok in He as (_ & _ & _ & _ & _ & _ & He). destruct (event x) as [[f|]|[t|]]; try done.
    - destruct He as (socket & status & _ & He & _). by eexists.
    - destruct He as (_ & _ & He). by eexists. }
  rewrite answers_app, Hans, Hq. apply reset_leaves_nothing in Hr as (? & _ & _ & ? & ? & ? & ? & _).
  split_and!; try done. by eexists.
Qed.

(** Once a worker is aborted it answers Aborted to every event and runs none of them:
    no effect, no change of its context. *)
Lemma aborted_worker_runs_nothing l c events :
  Forall (fun e => worker_exec l (worker_abort c) (fst (fst e)) (snd (fst e)) (snd e) =
                   (ret (Err Aborted), worker_abort c)) events.
Proof. apply Forall_forall. intros [[r x] d] _. done. Qed.

(** ** A concrete event *)

Definition demo_context : Context :=
  mkContext false None false false Streams.new [] false
    Dispatch.initial.

Definition demo_drain : DrainEnv := mkDrain [poll_to finished] (calm finished) false.

Lemma worker_ok_means_whole_event_witness :
  let r := worker_exec demo_limits demo_context (mkReset false (Ok tt) false false) (demo_event demo_fetch) demo_drain in
  fst (fst r) = Some (Ok tt) /\ (exists e, answers (snd (fst r)) = [e]) /\
  seen FullyComplete None None (d_polls demo_drain).
Proof.
  intros r. assert (fst (fst r) = Some (Ok tt)) as Hr by by vm_compute.
  destruct (worker_ok_means_whole_event demo_limits demo_context (mkReset false (Ok tt) false false)
    (demo_event demo_fetch) demo_drain (snd r) (fst r)) as (_ & _ & _ & _ & _ & _ & H1 & H2 & _);
    [exact (surjective_pairing r)|exact Hr|]. split_and!; [exact Hr|exact H1|exact H2].
Defined.

End Worker.
