(* ===== verification/Readers.v ===== *)
(** * Between the host and the objects of an event (src/src/execution_helpers.rs)

    What the host reads out of the handle that the dispatch answers (promises,
    response, headers, task result) and what it hands to the guest (requests, tasks).

    A JavaScript value is what the code can see of it. The fields of a [JObject] are
    what [get] answers for each key, [None] where a getter throws; a key it has not
    gives undefined. A function is what its call answers, [None] when it throws or is
    terminated. Conversions that can run guest code or that depend on the printing of
    numbers are parameters. *)

From stdpp Require Import base list gmap strings.
From Stdlib Require Import ZArith Lia.
From S2P Require Import Prelude Streams Handlers Dispatch ExecutionContext.

Module Readers.

Notation PromiseState := ExecutionContext.PromiseState.

Inductive Js :=
| JUndefined
| JNull
| JBool (b : bool)
| JNumber (n : Handlers.number)
| JString (s : string)
| JBytes (bytes : list Z)
| JArray (l : list Js)
| JMap (entries : list (Js * Js))
| JPromise (state : PromiseState) (value : Js)
| JFunction (returns : option Js)
| JObject (fields : list (string * option Js)).

Definition Fields := list (string * option Js).

(** [object.set] of a key the host chooses. *)
Fixpoint set_field (o : Fields) (k : string) (v : Js) : Fields :=
  match o with
  | [] => [(k, Some v)]
  | (k', v') :: o' => if String.eqb k k' then (k', Some v) :: o' else (k', v') :: set_field o' k v
  end.

(** [object.set] of any other key, on an object made by [v8::Object::new]; see
    [Handlers.set_key]. *)
Definition set_field_key (o : Fields) (k : string) (v : Js) : Fields :=
  if String.eqb k "__proto__" then o else set_field o k v.

Fixpoint get_field (o : Fields) (k : string) : option Js :=
  match o with
  | [] => Some JUndefined
  | (k', v) :: o' => if String.eqb k k' then v else get_field o' k
  end.

(** [v8::Number::new(scope, z as f64)] *)
Definition jnum (z : Z) : Js := JNumber (Handlers.Int (Handlers.as_f64 z)).

Definition is_nullish (v : Js) : bool := match v with JUndefined | JNull => true | _ => false end.
Definition is_true (v : Js) : bool := match v with JBool true => true | _ => false end.

(** [to_object]: a primitive gets a wrapper, which answers [get] like it. *)
Definition to_object (v : Js) : option Js := if is_nullish v then None else Some v.

(** What the host does to the guest. *)
Inductive effect :=
| ClearAsyncContext
| Call (name : string) (argument : Js)
| Checkpoint
| EndDispatch
| Disconnect.

(** How a call into the guest ends; [Panic] is an [expect] that fails. *)
Inductive outcome (A : Type) := Done (a : A) | Failed (message : string) | Panic.
Arguments Done {A}.
Arguments Failed {A}.
Arguments Panic {A}.

Section Reader.

(** ToString of a value that is no string, and [get] on a value that is no plain
    object; ToUint32 of a value that is no integer; the keys an object owns; a double
    as an unsigned integer. *)
Context (to_string_other : Js -> option string).
Context (get_other : Js -> string -> option Js).
Context (to_uint32_other : Js -> option Z).
Context (own_keys : Js -> option (list Js)).
Context (double_as_u64 : Z -> Z).

Definition to_string (v : Js) : option string :=
  match v with JString s => Some s | _ => to_string_other v end.

Definition prop (v : Js) (k : string) : option Js :=
  match v with JObject fields => get_field fields k | _ => get_other v k end.

(** [uint32_value] *)
Definition uint32_value (v : Js) : option Z :=
  match v with
  | JNumber (Handlers.Int z) => Some (wrap_u32 z)
  | _ => to_uint32_other v
  end.

(** [number_value] of a number, [as u64], which saturates. *)
Definition number_as_u64 (n : Handlers.number) : Z :=
  match n with
  | Handlers.Int z => Z.max 0 (Z.min z (2 ^ 64 - 1))
  | Handlers.Double bits => double_as_u64 bits
  end.

(** ** The promises of a handle *)

(** [promise_state] *)
Definition promise_state (handle : Js) (name : string) : option PromiseState :=
  match prop handle name with Some (JPromise st _) => Some st | _ => None end.

(** What the event loop of ExecutionContext.v sees of a handle. *)
Definition handle_of (handle : Js) : ExecutionContext.Handle :=
  ExecutionContext.mkHandle (promise_state handle "answer") (promise_state handle "done")
    (promise_state handle "streamed").

(** [answered_response] *)
Definition answered_response (handle : Js) : option Js :=
  v ← prop handle "answer";
  match v with JPromise ExecutionContext.Fulfilled r => to_object r | _ => None end.

(** [read_response_socket] *)
Definition read_response_socket (handle : option Js) : option Z :=
  handle ← handle;
  response ← answered_response handle;
  client ← prop response "webSocket" ≫= to_object;
  id ← prop client "_pairId";
  match id with JNumber n => Some (number_as_u64 n) | _ => None end.

(** [ListenerMarks] and [read_marks] *)
Record ListenerMarks := mkMarks { late : bool; after_settle : bool }.

Definition read_marks (handle : option Js) : ListenerMarks :=
  match handle with
  | None => mkMarks false false
  | Some handle =>
      match prop handle "marks" with
      | None | Some (JUndefined | JNull | JBool _ | JNumber _ | JString _) => mkMarks false false
      | Some marks =>
          let flag name := default false (is_true <$> prop marks name) in
          mkMarks (flag "late"%string) (flag "afterSettle"%string)
      end
  end.

(** [get_response_stream_id] *)
Definition get_response_stream_id (handle : option Js) : option Z :=
  handle ← handle;
  response ← answered_response handle;
  id ← prop response "_responseStreamId";
  if is_nullish id then None else uint32_value id.

(** ** Headers *)

(** The values of one entry of a Headers map. *)
Definition header_values (key : string) (v : Js) : list (string * string) :=
  match v with
  | JArray l => omap (fun e => pair key <$> to_string e) l
  | _ => option_list (pair key <$> to_string v)
  end.

(** [Map::as_array]: keys and values in turn. *)
Definition as_array (entries : list (Js * Js)) : list Js :=
  mjoin ((fun p => [fst p; snd p]) <$> entries).

Definition index (entries : list Js) (i : nat) : Js := default JUndefined (entries !! i).

(** The loop over the array of a Headers map, two places at a time. *)
Fixpoint read_entries (fuel : nat) (entries : list Js) (i : nat) : list (string * string) :=
  match fuel with
  | O => []
  | S fuel =>
      if i <? length entries then
        match to_string (index entries i) with
        | Some key => header_values key (index entries (i + 1))
        | None => []
        end ++ read_entries fuel entries (i + 2)
      else []
  end.

(** The loop over the properties of a plain object. *)
Definition read_properties (headers_obj : Js) (keys : list Js) : list (string * string) :=
  omap (fun k =>
    key ← to_string k;
    v ← prop headers_obj key;
    s ← to_string v;
    Some (key, s)) keys.

(** [extract_headers_from_response] *)
Definition extract_headers_from_response (resp : Js) : list (string * string) :=
  match prop resp "headers" ≫= to_object with
  | None => []
  | Some headers_obj =>
      match prop headers_obj "_map" with
      | Some (JMap entries) =>
          let entries := as_array entries in read_entries (length entries) entries 0
      | _ =>
          match own_keys headers_obj with
          | Some keys => read_properties headers_obj keys
          | None => []
          end
      end
  end.

(** ** Responses *)

Inductive ResponseBody :=
| BodyNone
| BodyBytes (bytes : list Z)
| BodyStream (channel : nat) (id : Z).

Record HttpResponse := mkResponse {
  status : Z;
  headers : list (string * string);
  body : ResponseBody
}.

(** The bytes [_getRawBody()] answers; none if it is no function, throws, or answers
    something else. *)
Definition raw_body (resp : Js) : list Z :=
  match prop resp "_getRawBody" with
  | Some (JFunction (Some (JBytes bytes))) => bytes
  | _ => []
  end.

(** [read_response_object]; the status is cast to 16 bits. *)
Definition read_response_object (handle : option Js) (m : Streams.StreamManager)
  : result HttpResponse string * Streams.StreamManager :=
  match handle ≫= answered_response with
  | None => (Err "No response set"%string, m)
  | Some resp =>
      let status := wrap 16 (default 200%Z (prop resp "status" ≫= uint32_value)) in
      let stream_id :=
        prop resp "_responseStreamId" ≫= fun v => if is_nullish v then None else uint32_value v in
      let headers := extract_headers_from_response resp in
      match stream_id with
      | Some id =>
          match Streams.take_receiver m id with
          | (Some channel, m) => (Ok (mkResponse status headers (BodyStream channel id)), m)
          | (None, m) => (Ok (mkResponse status headers BodyNone), m)
          end
      | None => (Ok (mkResponse status headers (BodyBytes (raw_body resp))), m)
      end
  end.

(** The task that sends a response body, one turn of its [select!] at a time: what
    the receiver answered and whether the client took it, or that the client left. *)
Inductive Turn :=
| Received (chunk : option Streams.StreamChunk) (taken : bool)
| ClientLeft.

(** What the client got, whether the stream was closed, and whether the task is
    over. *)
Fixpoint send_body (turns : list Turn) : list (result (list Z) string) * bool * bool :=
  match turns with
  | [] => ([], false, false)
  | ClientLeft :: _ => ([], true, true)
  | Received (Some (Streams.Data bytes)) true :: turns =>
      let '(out, closed, over) := send_body turns in (Ok bytes :: out, closed, over)
  | Received (Some (Streams.Data _)) false :: _ => ([], true, true)
  | Received (Some Streams.Done) _ :: _ => ([], false, true)
  | Received (Some (Streams.Error e)) taken :: _ => (if taken then [Err e] else [], false, true)
  | Received None _ :: _ => ([], false, true)
  end.

(** ** Handing events to the guest *)

(** What the microtasks make of the handle. *)
Context (checkpoint : Js -> Js).

(** [dispatch] *)
Definition dispatch (dispatcher : Js) (name : string) (argument : Js) : outcome Js * list effect :=
  match prop dispatcher name with
  | Some (JFunction returns) =>
      let calls := [ClearAsyncContext; Call name argument] in
      match returns with
      | None => (Failed "Execution terminated", calls)
      | Some answer =>
          match to_object answer with
          | None => (Panic, calls)
          | Some handle =>
              let handle := checkpoint handle in
              match prop handle "endDispatch" with
              | Some (JFunction None) =>
                  (Failed "Execution terminated", calls ++ [Checkpoint; EndDispatch])
              | Some (JFunction (Some _)) => (Done handle, calls ++ [Checkpoint; EndDispatch])
              | _ => (Done handle, calls ++ [Checkpoint])
              end
          end
      end
  | _ => (Panic, [])
  end.

(** [signal_client_disconnect] *)
Definition signal_client_disconnect (handle : option Js) : list effect :=
  match handle ≫= (fun h => prop h "disconnect") with
  | Some (JFunction _) => [Disconnect]
  | _ => []
  end.

(** *** Tasks *)

Context {Json : Type} (json_print : Json -> string) (json_parse : string -> option Js).
Context (json_stringify : Js -> option string) (from_str : string -> option Json).

Inductive TaskSource :=
| Schedule (time : Z) (cron : option string)
| OtherSource.

Record TaskInit := mkTaskInit {
  task_id : string;
  attempt : Z;
  payload : option Json;
  source : option TaskSource
}.

(** [set_task_fields] *)
Definition set_task_fields (event : Fields) (task : TaskInit) : Fields :=
  let event := set_field event "taskId" (JString (task_id task)) in
  let event := set_field event "attempt" (jnum (attempt task)) in
  let event :=
    match payload task with
    | Some p => match json_parse (json_print p) with
                | Some parsed => set_field event "payload" parsed
                | None => event
                end
    | None => event
    end in
  match source task with
  | Some (Schedule time cron) =>
      let event := set_field event "scheduledTime" (jnum time) in
      match cron with
      | Some cron => set_field event "cron" (JString cron)
      | None => event
      end
  | _ => event
  end.

(** [trigger_task_handler] *)
Definition trigger_task_handler (dispatcher : Js) (task : TaskInit) : outcome Js * list effect :=
  dispatch dispatcher "task" (JObject (set_task_fields [] task)).

Record TaskResult := mkResult { success : bool; data : option Json; error : option string }.

(** [to_rust_string_lossy] of any value. *)
Definition to_lossy (v : Js) : string := default ""%string (to_string v).

(** [read_task_result] *)
Definition read_task_result (handle : option Js) : TaskResult :=
  let result :=
    handle ← handle;
    v ← prop handle "done";
    match v with JPromise ExecutionContext.Fulfilled r => to_object r | _ => None end in
  match result with
  | None => mkResult false None (Some "the task gave no result"%string)
  | Some result =>
      mkResult (default false (is_true <$> prop result "success"))
        (v ← prop result "data";
         if is_nullish v then None else json_stringify v ≫= from_str)
        (v ← prop result "error";
         if is_nullish v then None else Some (to_lossy v))
  end.

(** *** Requests *)

Inductive RequestBody :=
| RequestNone
| RequestBytes (bytes : list Z)
| RequestStream.

(** The headers of a request as an object. *)
Definition headers_object (headers : list (string * string)) : Fields :=
  foldl (fun o p => set_field_key o (fst p) (JString (snd p))) [] headers.

(** The init object of a Request. *)
Definition request_init (method : string) (headers : list (string * string)) (body : RequestBody)
    (body_stream_id : option Z) : Fields :=
  let init := set_field [] "method" (JString method) in
  let init := set_field init "_fromHost" (JBool true) in
  let init := set_field init "headers" (JObject (headers_object headers)) in
  match body_stream_id, body with
  | Some id, _ => set_field init "_bodyStreamId" (jnum id)
  | None, RequestBytes (b :: bs) => set_field init "body" (JBytes (b :: bs))
  | None, _ => init
  end.

(** The object without a Request constructor. *)
Definition plain_request (url method : string) (headers : list (string * string)) : Fields :=
  let o := set_field [] "url" (JString url) in
  let o := set_field o "method" (JString method) in
  set_field o "headers" (JObject (headers_object headers)).

(** [trigger_fetch_handler]; [request_constructor] is what [new Request(url, init)]
    answers, if the global is a function. *)
Definition trigger_fetch_handler (request_constructor : option (string -> Js -> option Js))
    (dispatcher : Js) (url method : string) (headers : list (string * string)) (body : RequestBody)
    (body_stream_id : option Z) : outcome Js * list effect :=
  let request :=
    match request_constructor with
    | Some new_request =>
        default (JObject []) (new_request url (JObject (request_init method headers body body_stream_id)))
    | None => JObject (plain_request url method headers)
    end in
  dispatch dispatcher "fetch" request.

(** ** Correctness *)

Lemma get_set_field o k v c :
  get_field (set_field o k v) c = if String.eqb c k then Some v else get_field o c.
Proof.
  induction o as [|[k' v'] o IH]; simpl; [done|].
  destruct (String.eqb_spec k k') as [->|Hk]; simpl.
  - by destruct (String.eqb c k').
  - destruct (String.eqb_spec c k') as [->|Hc]; [|done].
    by destruct (String.eqb_spec k' k) as [->|].
Qed.

(** *** Headers *)

Definition entry_headers (p : Js * Js) : list (string * string) :=
  match to_string (fst p) with Some key => header_values key (snd p) | None => [] end.

Lemma as_array_app l l' : as_array (l ++ l') = as_array l ++ as_array l'.
Proof. unfold as_array. by rewrite fmap_app, join_app. Qed.

Lemma length_as_array l : length (as_array l) = 2 * length l.
Proof.
  induction l as [|p l IH]; [done|]. change (as_array (p :: l)) with (fst p :: snd p :: as_array l).
  simpl. lia.
Qed.

(** The loop over the array is the loop over the entries. *)
Lemma read_entries_spec es : forall pre fuel,
  length es <= fuel ->
  read_entries fuel (as_array (pre ++ es)) (2 * length pre) = mjoin (entry_headers <$> es).
Proof.
  induction es as [|[k v] es IH]; intros pre fuel Hf.
  - destruct fuel; [done|]. cbn [read_entries]. rewrite app_nil_r, length_as_array.
    by rewrite (proj2 (Nat.ltb_ge _ _)).
  - destruct fuel as [|fuel]; [simpl in Hf; lia|]. cbn [read_entries].
    assert (as_array (pre ++ (k, v) :: es) = as_array pre ++ k :: v :: as_array es) as Ha
      by by rewrite as_array_app.
    rewrite (proj2 (Nat.ltb_lt _ _)) by (rewrite length_as_array, length_app; simpl; lia).
    assert (index (as_array (pre ++ (k, v) :: es)) (2 * length pre) = k) as ->.
    { unfold index. rewrite Ha, lookup_app_r by (rewrite length_as_array; lia).
      by rewrite length_as_array, Nat.sub_diag. }
    assert (index (as_array (pre ++ (k, v) :: es)) (2 * length pre + 1) = v) as ->.
    { unfold index. rewrite Ha, lookup_app_r by (rewrite length_as_array; lia). rewrite length_as_array.
      by replace (2 * length pre + 1 - 2 * length pre) with 1 by lia. }
    specialize (IH (pre ++ [(k, v)]) fuel). rewrite length_app, <-app_assoc in IH. simpl in IH, Hf.
    replace (2 * length pre + 2) with (length pre + 1 + (length pre + 1 + 0)) by lia.
    rewrite IH by lia. done.
Qed.

(** The map of a Headers object: one value as a string, several as an array. *)
Definition headers_map (hs : list (string * (string + list string))) : Js :=
  JMap ((fun p => (JString (fst p), match snd p with
                                    | inl v => JString v
                                    | inr vs => JArray (JString <$> vs)
                                    end)) <$> hs).

Definition header_lines (hs : list (string * (string + list string))) : list (string * string) :=
  mjoin ((fun p => match snd p with inl v => [(fst p, v)] | inr vs => pair (fst p) <$> vs end) <$> hs).

(** The headers the client gets are those of the guest's Headers object, in its
    order, a name with several values (set-cookie) giving one line for each. *)
Theorem response_headers_cross resp h hs :
  prop resp "headers" = Some h -> is_nullish h = false -> prop h "_map" = Some (headers_map hs) ->
  extract_headers_from_response resp = header_lines hs.
Proof.
  intros Hr Hn Hm. unfold extract_headers_from_response. rewrite Hr. simpl. unfold to_object. rewrite Hn, Hm.
  unfold headers_map. set (es := fmap _ hs).
  pose proof (read_entries_spec es [] (length (as_array es))) as H. simpl in H.
  rewrite H by (rewrite length_as_array; lia). clear H.
  unfold es, header_lines. clear. f_equal. rewrite <-list_fmap_compose. apply list_fmap_ext.
  intros _ [name vs] _. unfold entry_headers. simpl. destruct vs as [v|vs]; [done|].
  simpl. induction vs as [|v vs IH]; [done|]. simpl. f_equal. exact IH.
Qed.

(** *** Responses *)

(** A response is read exactly when the answer of the handle is fulfilled with
    a value that is not null or undefined, which the exit condition for a response
    saw; its status fits 16 bits, and is the guest's when that is a status. *)
Theorem response_read_when_answered handle m :
  match fst (read_response_object (Some handle) m) with
  | Ok r =>
      exists v, prop handle "answer" = Some (JPromise ExecutionContext.Fulfilled v) /\ is_nullish v = false /\
        ExecutionContext.check_exit_condition (Some (handle_of handle)) ExecutionContext.ResponseReady = true /\
        (0 <= status r < 2 ^ 16)%Z /\
        (forall z, prop v "status" = Some (JNumber (Handlers.Int z)) -> (0 <= z < 2 ^ 16)%Z -> status r = z)
  | Err e => e = "No response set"%string /\
      forall v, prop handle "answer" = Some (JPromise ExecutionContext.Fulfilled v) -> is_nullish v = true
  end.
Proof.
  unfold read_response_object. simpl. unfold answered_response.
  destruct (prop handle "answer") as [a|] eqn:Ha; simpl; [|by split].
  destruct a as [| | | | | | | |st v| |]; simpl; try by (split; [done|intros ? [=]]).
  destruct st; simpl; try by (split; [done|intros ? [=]]).
  unfold to_object. destruct (is_nullish v) eqn:Hv; simpl; [by split; [|intros ? [= <-]]|].
  set (st := wrap 16 _). set (hs := extract_headers_from_response v).
  assert (forall r, status r = st -> exists v', Some (JPromise ExecutionContext.Fulfilled v) =
      Some (JPromise ExecutionContext.Fulfilled v') /\ is_nullish v' = false /\
      ExecutionContext.check_exit_condition (Some (handle_of handle)) ExecutionContext.ResponseReady = true /\
      (0 <= status r < 2 ^ 16)%Z /\
      (forall z, prop v' "status" = Some (JNumber (Handlers.Int z)) -> (0 <= z < 2 ^ 16)%Z -> status r = z)) as Hgo.
  { intros r ->. exists v. refine (conj eq_refl (conj Hv (conj _ (conj _ _)))); [|by apply wrap_range|].
    - simpl. unfold promise_state. by rewrite Ha.
    - intros z Hz Hb. unfold st. rewrite Hz. simpl. unfold wrap_u32. rewrite (wrap_small 32) by lia.
      by apply wrap_small. }
  destruct (prop v "_responseStreamId" ≫= _) as [id|]; [|by apply Hgo].
  by destruct (Streams.receivers m !! id); apply Hgo.
Qed.

(** The client gets the chunks of a response body in order and nothing after
    the end, an error of the stream last; the stream is closed exactly when the
    client left, by itself or by a chunk it did not take. *)
Theorem response_body_in_order turns :
  exists data rest,
    turns = ((fun b => Received (Some (Streams.Data b)) true) <$> data) ++ rest /\
    send_body turns =
      ((Ok <$> data) ++ match rest with Received (Some (Streams.Error e)) true :: _ => [Err e] | _ => [] end,
       match rest with ClientLeft :: _ | Received (Some (Streams.Data _)) false :: _ => true | _ => false end,
       negb (bool_decide (rest = []))).
Proof.
  induction turns as [|t turns IH]; [by exists [], []|].
  destruct t as [[[b| |e]|] []|];
    try (eexists [], _; split; [reflexivity|]; simpl; done).
  destruct IH as (data & rest & -> & IH). exists (b :: data), rest. split; [done|].
  rewrite fmap_cons. cbn [app]. simpl send_body. rewrite IH. done.
Qed.

(** *** Events *)

Lemma headers_object_get hs c :
  c <> "__proto__"%string ->
  get_field (headers_object hs) c =
  Some (default JUndefined (JString ∘ snd <$> last (filter (fun p => fst p = c) hs))).
Proof.
  intros Hc. unfold headers_object. induction hs as [|[k v] hs IH] using rev_ind; [done|].
  rewrite foldl_snoc, filter_app, filter_cons, filter_nil. unfold set_field_key at 1. simpl.
  destruct (String.eqb_spec k "__proto__") as [->|Hp].
  - rewrite decide_False by done. by rewrite app_nil_r, IH.
  - rewrite get_set_field. destruct (String.eqb_spec c k) as [->|Hk].
    + rewrite decide_True by done. by rewrite last_snoc.
    + rewrite decide_False by congruence. by rewrite app_nil_r, IH.
Qed.

Lemma filter_no_key (hs : list (string * string)) k :
  k ∉ hs.*1 -> filter (fun p => fst p = k) hs = [].
Proof.
  induction hs as [|[k' v] hs IH]; simpl; [done|]. intros Hk. apply not_elem_of_cons in Hk as [Hne Hk].
  rewrite filter_cons. rewrite decide_False by (simpl; congruence). by apply IH.
Qed.

Lemma filter_key (hs : list (string * string)) k v :
  NoDup (hs.*1) -> (k, v) ∈ hs -> filter (fun p => fst p = k) hs = [(k, v)].
Proof.
  induction hs as [|[k' v'] hs IH]; simpl; intros Hn Hin; [by apply elem_of_nil in Hin|].
  apply NoDup_cons in Hn as [Hk Hn]. rewrite filter_cons. simpl.
  apply elem_of_cons in Hin as [[= <- <-]|Hin].
  - rewrite decide_True by done. f_equal. by apply filter_no_key.
  - rewrite decide_False; [by apply IH|]. intros ->. apply Hk. apply list_elem_of_fmap. by exists (k, v).
Qed.

Lemma jnum_exact z : (Z.abs z <= 2 ^ 53)%Z -> jnum z = JNumber (Handlers.Int z).
Proof. intros H. unfold jnum. by rewrite Handlers.as_f64_exact. Qed.

Ltac read_fields := rewrite ?get_set_field; cbn [String.eqb Ascii.eqb Bool.eqb get_field].

(** The guest reads the task it was given in the event: id, attempt, payload,
    and the time and cron of the schedule that fired it, with the fields of a part
    that is missing undefined. *)
Theorem task_reaches_guest task :
  (0 <= attempt task <= 2 ^ 53)%Z ->
  match source task with Some (Schedule time _) => (Z.abs time <= 2 ^ 53)%Z | _ => True end ->
  let event := set_task_fields [] task in
  get_field event "taskId" = Some (JString (task_id task)) /\
  get_field event "attempt" = Some (JNumber (Handlers.Int (attempt task))) /\
  get_field event "payload" =
    Some (default JUndefined (p ← payload task; json_parse (json_print p))) /\
  get_field event "scheduledTime" =
    Some (match source task with Some (Schedule time _) => JNumber (Handlers.Int time) | _ => JUndefined end) /\
  get_field event "cron" =
    Some (match source task with Some (Schedule _ (Some cron)) => JString cron | _ => JUndefined end).
Proof.
  intros Ha Ht event. unfold event, set_task_fields. rewrite jnum_exact by lia.
  destruct (payload task) as [p|]; simpl; [destruct (json_parse (json_print p))|];
    destruct (source task) as [[time [cron|]|]|]; rewrite ?jnum_exact by done;
    split_and!; by read_fields.
Qed.

(** The guest gets the request of the client: its method, the mark that it comes
    from the host, every header (but one called [__proto__]), and its body, as the
    stream or the bytes that arrived. *)
Theorem request_reaches_guest method hs body id :
  NoDup (hs.*1) ->
  match id with Some id => (0 <= id <= 2 ^ 53)%Z | None => True end ->
  let init := request_init method hs body id in
  get_field init "method" = Some (JString method) /\
  get_field init "_fromHost" = Some (JBool true) /\
  (exists h, get_field init "headers" = Some (JObject h) /\
    (forall k v, (k, v) ∈ hs -> k <> "__proto__"%string -> get_field h k = Some (JString v)) /\
    (forall k, k ∉ hs.*1 -> k <> "__proto__"%string -> get_field h k = Some JUndefined)) /\
  get_field init "_bodyStreamId" =
    Some (match id with Some id => JNumber (Handlers.Int id) | None => JUndefined end) /\
  get_field init "body" =
    Some (match id, body with None, RequestBytes (b :: bs) => JBytes (b :: bs) | _, _ => JUndefined end).
Proof.
  intros Hn Hid init.
  assert (forall k v, (k, v) ∈ hs -> k <> "__proto__"%string ->
    get_field (headers_object hs) k = Some (JString v)) as H1.
  { intros k v Hin Hk. rewrite headers_object_get by done. by rewrite (filter_key hs k v). }
  assert (forall k, k ∉ hs.*1 -> k <> "__proto__"%string ->
    get_field (headers_object hs) k = Some JUndefined) as H2.
  { intros k Hin Hk. rewrite headers_object_get by done. by rewrite filter_no_key. }
  unfold init, request_init. destruct id as [id|]; [rewrite jnum_exact by lia|destruct body as [|[|b bs]|]];
    (split; [by read_fields|split; [by read_fields|split; [exists (headers_object hs); split; [by read_fields|by split]|
      split; by read_fields]]]).
Qed.

(** *** Dispatch *)

(** With a dispatch that answers an object for every event it takes, handing an
    event to the guest never panics: it answers the handle after the microtasks ran,
    or that the guest was terminated; and the event starts without the async context
    of another. *)
Theorem dispatch_never_panics dispatcher name argument returns :
  prop dispatcher name = Some (JFunction returns) ->
  (forall answer, returns = Some answer -> is_nullish answer = false) ->
  let '(out, calls) := dispatch dispatcher name argument in
  firstn 2 calls = [ClearAsyncContext; Call name argument] /\
  match out with
  | Done handle => exists answer, returns = Some answer /\ handle = checkpoint answer /\ Checkpoint ∈ calls
  | Failed e => e = "Execution terminated"%string
  | Panic => False
  end.
Proof.
  intros Hd Hr. unfold dispatch. rewrite Hd. destruct returns as [answer|]; [|done].
  unfold to_object. rewrite (Hr answer eq_refl).
  destruct (prop (checkpoint answer) "endDispatch") as [[| | | | | | | | |[r|]|]|];
    (split; [done|]); try done;
    (exists answer; split_and!; [done|done|simpl; by right; right; left]).
Qed.

End Reader.

(** ** Concrete values *)

Definition no_string (v : Js) : option string := None.
Definition no_get (v : Js) (k : string) : option Js := Some JUndefined.

Definition demo_headers : list (string * (string + list string)) :=
  [("content-type", inl "text/html"); ("set-cookie", inr ["a=1"; "b=2"])]%string.

Definition demo_headers_object : Js := JObject [("_map"%string, Some (headers_map demo_headers))].

Definition demo_response : Js :=
  JObject [("status"%string, Some (jnum 404)); ("headers"%string, Some demo_headers_object);
           ("_getRawBody"%string, Some (JFunction (Some (JBytes [104; 105]%Z))))].

Lemma response_headers_cross_witness :
  extract_headers_from_response no_string no_get (fun _ => None) demo_response =
  [("content-type", "text/html"); ("set-cookie", "a=1"); ("set-cookie", "b=2")]%string.
Proof.
  rewrite (response_headers_cross no_string no_get (fun _ => None) demo_response demo_headers_object demo_headers);
    by vm_compute.
Defined.

(** A status past 16 bits is cut. *)
Example long_status_is_cut :
  fst (read_response_object no_string no_get (fun _ => None) (fun _ => None)
    (Some (JObject [("answer"%string, Some (JPromise ExecutionContext.Fulfilled
      (JObject [("status"%string, Some (jnum 65736))])))])) Streams.new) =
  Ok (mkResponse 200 [] (BodyBytes [])).
Proof. by vm_compute. Qed.

Definition demo_task : TaskInit (Json := Js) :=
  mkTaskInit "t1" 2 (Some (JString "x")) (Some (Schedule 1700000000000 (Some "* * * * *"%string))).

Lemma task_reaches_guest_witness :
  let event := set_task_fields (fun _ : Js => "x"%string) (fun s => Some (JString s)) [] demo_task in
  get_field event "attempt" = Some (JNumber (Handlers.Int 2)) /\
  get_field event "cron" = Some (JString "* * * * *").
Proof.
  destruct (task_reaches_guest (fun _ : Js => "x"%string) (fun s => Some (JString s)) demo_task)
    as (_ & Ha & _ & _ & Hc); [simpl; lia|simpl; lia|]. split; [exact Ha|exact Hc].
Defined.

Definition demo_request_headers : list (string * string) :=
  [("host", "example.com"); ("__proto__", "x")]%string.

Lemma request_reaches_guest_witness :
  exists h, get_field (request_init "POST" demo_request_headers (RequestBytes [1; 2]%Z) None) "headers" =
              Some (JObject h) /\
    get_field h "host" = Some (JString "example.com").
Proof.
  destruct (request_reaches_guest "POST" demo_request_headers (RequestBytes [1; 2]%Z) None)
    as (_ & _ & (h & Hh & H1 & _) & _); [vm_compute; repeat constructor; set_solver|done|].
  exists h. split; [exact Hh|]. apply H1; [by left|done].
Defined.

(** A header called [__proto__] does not reach the guest. *)
Example proto_header_is_lost :
  headers_object demo_request_headers = [("host"%string, Some (JString "example.com"))].
Proof. by vm_compute. Qed.

Definition demo_dispatcher : Js :=
  JObject [("fetch"%string, Some (JFunction (Some (JObject []))))].

Lemma dispatch_never_panics_witness :
  dispatch no_get (fun h => h) demo_dispatcher "fetch" JNull =
    (Done (JObject []), [ClearAsyncContext; Call "fetch" JNull; Checkpoint]) /\
  let '(out, calls) := dispatch no_get (fun h => h) demo_dispatcher "fetch" JNull in
  firstn 2 calls = [ClearAsyncContext; Call "fetch" JNull] /\
  match out with
  | Done handle => exists answer, Some (JObject []) = Some answer /\ handle = answer /\ Checkpoint ∈ calls
  | Failed e => e = "Execution terminated"%string
  | Panic => False
  end.
Proof.
  split; [by vm_compute|].
  apply (dispatch_never_panics no_get (fun h => h) demo_dispatcher "fetch" JNull (Some (JObject []))); [done|].
  by intros answer [= <-].
Defined.

End Readers.
