(* ===== verification/Natives.v ===== *)
(** * The native ops of the bindings

    src/src/runtime/bindings/fetch.rs, websocket.rs, durable_object.rs and streams.rs:
    the functions the glue in JavaScript calls. Each reads its arguments, throws when
    they are wrong, and otherwise registers the callbacks of its promise and sends one
    message to the scheduler. Arguments are the values of Readers.v; what serde_v8,
    the structured clone of V8 and openworkers-core make of a value are parameters. *)

From stdpp Require Import base list gmap strings.
From Stdlib Require Import ZArith Lia.
From S2P Require Import Prelude Handlers Dispatch Readers.

Module Natives.
Import Readers.

Definition WebSocketId := Z.
Definition CallbackId := Dispatch.CallbackId.

(** What ends an op early: a TypeError or RangeError of the op, or an exception that
    is already thrown. *)
Inductive Throw := TypeError (message : string) | RangeError (message : string) | Pending.

(** A string between double quotes. *)
Definition quoted (s : string) : string :=
  let quote := String (Ascii.ascii_of_nat 34) EmptyString in (quote +:+ s +:+ quote)%string.

Section Natives.

(** Methods, D1 ops, SQL parameters and JSON of openworkers-core and serde. *)
Context {Method D1Op SqlParam Json : Type}.
(** [str::parse::<HttpMethod>] *)
Context (parse_method : string -> option Method).

(** ** Requests *)

(** [FetchOptions]; the defaults are serde's. *)
Record FetchOptions := mkOptions {
  o_url : string;
  o_method : option string;
  o_headers : list (string * string);
  o_body : option (list Z)
}.

Record HttpRequest := mkRequest {
  url : string;
  method : Method;
  headers : list (string * string);
  body : option (list Z)
}.

(** [serde_v8::from_v8_any] *)
Context (from_v8_options : Js -> result FetchOptions string).
Context (from_v8_string : Js -> option string).

Definition default_method : string := "GET".

(** [parse_http_request] *)
Definition parse_http_request (options : Js) : result HttpRequest string :=
  match from_v8_options options with
  | Err e => Err ("fetch: the options are not a request object: " +:+ e)%string
  | Ok opts =>
      let m := default default_method (o_method opts) in
      match parse_method m with
      | None => Err ("fetch: unknown method " +:+ quoted m)%string
      | Some method => Ok (mkRequest (o_url opts) method (o_headers opts) (o_body opts))
      end
  end.

(** ** Operations *)

Inductive StorageOp :=
| StorageGet (key : string) | StorageFetch (key : string) | StoragePut (key : string) (body : list Z)
| StorageHead (key : string) | StorageList (prefix : option string) (limit : option Z)
| StorageDelete (key : string).

Inductive KvOp :=
| KvGet (key : string) | KvPut (key : string) (value : Json) (expires_in : option Z)
| KvDelete (key : string) | KvList (prefix : option string) (limit : option Z).

Inductive DatabaseOp := Query (sql : string) (params : list SqlParam).

Inductive ObjectStorageOp :=
| Get (keys : list string)
| List (start start_after end_ prefix : option string) (reverse : bool) (limit : option Z)
| Write (puts : list (string * list Z)) (deletes : list string) (delete_all : bool)
| GetAlarm
| SetAlarm (at_ : option Z).

Inductive WebSocketOutgoing := Text (text : string) | Binary (bytes : list Z) | Close (code : Z) (reason : string).

Inductive ObjectSocketOp :=
| Accept (socket : WebSocketId) (tags : list string) (hibernatable : bool)
| Send (socket : WebSocketId) (message : WebSocketOutgoing)
| Attachment (socket : WebSocketId) (value : option (list Z)).

(** The messages of [SchedulerMessage] these ops send; an object frame with the bytes
    it counts while it waits. *)
Inductive Message :=
| FetchStreaming (id : CallbackId) (r : HttpRequest)
| BindingFetch (id : CallbackId) (name : string) (r : HttpRequest)
| BindingWorker (id : CallbackId) (name : string) (r : HttpRequest)
| BindingStorage (id : CallbackId) (name : string) (op : StorageOp)
| BindingKv (id : CallbackId) (name : string) (op : KvOp)
| BindingDatabase (id : CallbackId) (name : string) (op : DatabaseOp)
| BindingD1 (id : CallbackId) (name : string) (op : D1Op)
| BindingDurableObject (id : CallbackId) (name object : string) (r : HttpRequest)
| ObjectStorage (id : CallbackId) (op : ObjectStorageOp)
| WebSocketConnect (id : CallbackId) (ws : WebSocketId) (url : string) (headers : list (string * string))
| WebSocketPair (ws : WebSocketId)
| WebSocketAccept (ws : WebSocketId)
| WebSocketSend (ws : WebSocketId) (m : WebSocketOutgoing)
| WebSocketClose (ws : WebSocketId) (code : Z) (reason : string)
| ObjectSocket (op : ObjectSocketOp) (waiting : option Z).

(** ** State *)

(** What the ops of a context change: the callback tables, what was sent, the bytes of
    object frames that wait, and the socket ids of the process. *)
Record State := mkState {
  tables : Dispatch.World;
  outbox : list Message;
  frames : Z;
  next_socket : WebSocketId
}.

Definition send (s : State) (m : Message) : State :=
  mkState (tables s) (outbox s ++ [m]) (frames s) (next_socket s).

(** How an op ends; [rv] is what it answers. *)
Definition Ended : Type := result Js Throw * State.

Definition arg (args : list Js) (i : nat) : Js := default JUndefined (args !! i).

(** [v8::Local::<v8::Function>::try_from] *)
Context (as_function : Js -> option Dispatch.Fn).

(** [resolve_reject] *)
Definition resolve_reject (resolve reject : Js) : result (Dispatch.Fn * Dispatch.Fn) Throw :=
  match as_function resolve, as_function reject with
  | Some f, Some g => Ok (f, g)
  | _, _ => Err (TypeError "the resolve and reject callbacks are not functions")
  end.

(** The end of an async op: both callbacks under a fresh id, then the message. *)
Definition await_answer (s : State) (resolve reject : Js) (m : CallbackId -> Message) (rv : Js) : Ended :=
  match resolve_reject resolve reject with
  | Err t => (Err t, s)
  | Ok (f, g) =>
      let '(w, id) := Dispatch.register_callbacks_with_error (tables s) f g in
      (Ok rv, mkState (Dispatch.send w id) (outbox s ++ [m id]) (frames s) (next_socket s))
  end.

Definition string_arg (v : Js) (message : string) : result string Throw :=
  match from_v8_string v with Some s => Ok s | None => Err (TypeError message) end.

Definition request_arg (v : Js) : result HttpRequest Throw :=
  match parse_http_request v with Ok r => Ok r | Err e => Err (TypeError e) end.

(** Arguments first, then the callbacks: an op that throws changes nothing. *)
Definition async_op (s : State) (parsed : result (CallbackId -> Message) Throw) (resolve reject : Js) : Ended :=
  match parsed with
  | Err t => (Err t, s)
  | Ok m => await_answer s resolve reject m JUndefined
  end.

(** ** fetch.rs *)

(** [__nativeFetchStreaming] *)
Definition native_fetch_streaming (s : State) (args : list Js) : Ended :=
  async_op s (let? r := request_arg (arg args 0) in Ok (fun id => FetchStreaming id r)) (arg args 1) (arg args 2).

(** [setup_binding_fetch_helper]: [__nativeBindingFetch] and [__nativeBindingWorker]. *)
Definition native_binding_fetch (message : CallbackId -> string -> HttpRequest -> Message) (s : State)
    (args : list Js) : Ended :=
  async_op s
    (let? name := string_arg (arg args 0) "binding fetch: the binding name is not a string" in
     let? r := request_arg (arg args 1) in
     Ok (fun id => message id name r)) (arg args 2) (arg args 3).

(** [StorageParams] *)
Record StorageParams := mkStorage {
  s_key : string; s_body : option (list Z); s_prefix : option string; s_limit : option Z
}.
Context (from_v8_storage : Js -> result StorageParams string).

Definition storage_op (operation : string) (p : StorageParams) : result StorageOp Throw :=
  if String.eqb operation "get" then Ok (StorageGet (s_key p))
  else if String.eqb operation "fetch" then Ok (StorageFetch (s_key p))
  else if String.eqb operation "put" then
    match s_body p with
    | Some body => Ok (StoragePut (s_key p) body)
    | None => Err (TypeError "storage put: takes a body")
    end
  else if String.eqb operation "head" then Ok (StorageHead (s_key p))
  else if String.eqb operation "list" then Ok (StorageList (s_prefix p) (s_limit p))
  else if String.eqb operation "delete" then Ok (StorageDelete (s_key p))
  else Err (TypeError ("storage: unknown operation " +:+ quoted operation)).

(** [__nativeBindingStorage] *)
Definition native_binding_storage (s : State) (args : list Js) : Ended :=
  async_op s
    (let? name := string_arg (arg args 0) "storage: the binding name is not a string" in
     let? operation := string_arg (arg args 1) "storage: the operation is not a string" in
     let? p := match from_v8_storage (arg args 2) with
               | Ok p => Ok p
               | Err e => Err (TypeError ("storage: bad parameters: " +:+ e))
               end in
     let? op := storage_op operation p in
     Ok (fun id => BindingStorage id name op)) (arg args 3) (arg args 4).

(** [KvParams] *)
Record KvParams := mkKv {
  k_key : string; k_value : option Json; k_expires_in : option Z; k_prefix : option string; k_limit : option Z
}.
Context (from_v8_kv : Js -> result KvParams string).

Definition kv_op (operation : string) (p : KvParams) : result KvOp Throw :=
  if String.eqb operation "get" then Ok (KvGet (k_key p))
  else if String.eqb operation "put" then
    match k_value p with
    | Some value => Ok (KvPut (k_key p) value (k_expires_in p))
    | None => Err (TypeError "kv put: takes a value")
    end
  else if String.eqb operation "delete" then Ok (KvDelete (k_key p))
  else if String.eqb operation "list" then Ok (KvList (k_prefix p) (k_limit p))
  else Err (TypeError ("kv: unknown operation " +:+ quoted operation)).

(** [__nativeBindingKv] *)
Definition native_binding_kv (s : State) (args : list Js) : Ended :=
  async_op s
    (let? name := string_arg (arg args 0) "kv: the binding name is not a string" in
     let? operation := string_arg (arg args 1) "kv: the operation is not a string" in
     let? p := match from_v8_kv (arg args 2) with
               | Ok p => Ok p
               | Err e => Err (TypeError ("kv: bad parameters: " +:+ e))
               end in
     let? op := kv_op operation p in
     Ok (fun id => BindingKv id name op)) (arg args 3) (arg args 4).

(** [DatabaseParams] and [__nativeBindingDatabase] *)
Context (from_v8_database : Js -> result (string * list SqlParam) string).

Definition native_binding_database (s : State) (args : list Js) : Ended :=
  async_op s
    (let? name := string_arg (arg args 0) "database: the binding name is not a string" in
     let? operation := string_arg (arg args 1) "database: the operation is not a string" in
     let? p := match from_v8_database (arg args 2) with
               | Ok p => Ok p
               | Err e => Err (TypeError ("database: bad parameters: " +:+ e))
               end in
     let? op := (if String.eqb operation "query" then Ok (Query (fst p) (snd p))
                 else Err (TypeError ("database: unknown operation " +:+ quoted operation))) in
     Ok (fun id => BindingDatabase id name op)) (arg args 3) (arg args 4).

(** [__nativeBindingD1] *)
Context (from_v8_d1 : Js -> result D1Op string).

Definition native_binding_d1 (s : State) (args : list Js) : Ended :=
  async_op s
    (let? name := string_arg (arg args 0) "d1: the binding name is not a string" in
     let? op := match from_v8_d1 (arg args 1) with
                | Ok op => Ok op
                | Err e => Err (TypeError ("D1_TYPE_ERROR: " +:+ e))
                end in
     Ok (fun id => BindingD1 id name op)) (arg args 2) (arg args 3).

(** [__nativeBindingDurableObject] *)
Definition native_binding_durable_object (s : State) (args : list Js) : Ended :=
  async_op s
    (let? name := string_arg (arg args 0) "durable object: the binding name is not a string" in
     let? object := string_arg (arg args 1) "durable object: the id is not a string" in
     let? r := request_arg (arg args 2) in
     Ok (fun id => BindingDurableObject id name object r)) (arg args 3) (arg args 4).

(** ** websocket.rs *)

(** ToString, [None] when it throws; ToNumber; a double without its fraction. *)
Context (to_string : Js -> option string).
Context (to_number : Js -> option Handlers.number).
Context (trunc : Z -> Z).

Definition integer_of (n : Handlers.number) : Z :=
  match n with Handlers.Int z => z | Handlers.Double bits => trunc bits end.

(** [as u64] and [as u16] saturate. *)
Definition as_u64 (n : Handlers.number) : Z := Z.max 0 (Z.min (integer_of n) (2 ^ 64 - 1)).
Definition as_u16 (n : Handlers.number) : Z := Z.max 0 (Z.min (integer_of n) (2 ^ 16 - 1)).

(** [socket_id], and [socket_of] of durable_object.rs *)
Definition socket_id (v : Js) : result WebSocketId Throw :=
  match v with
  | JNumber n => Ok (as_u64 n)
  | _ => Err (TypeError "WebSocket: the socket id is not a number")
  end.

(** [string_of]: the exception of the conversion is the answer. *)
Definition string_of (v : Js) : result string Throw :=
  match to_string v with Some s => Ok s | None => Err Pending end.

(** [outgoing] *)
Definition outgoing (data : Js) : result WebSocketOutgoing Throw :=
  match data with
  | JString _ => let? text := string_of data in Ok (Text text)
  | JBytes bytes => Ok (Binary bytes)
  | _ => Err (TypeError "WebSocket: send takes a string, an ArrayBuffer or a view")
  end.

(** [next_socket_id]; the ids of a process do not run out. *)
Definition next_socket_id (s : State) : WebSocketId * State :=
  (next_socket s, mkState (tables s) (outbox s) (frames s) (next_socket s + 1)%Z).

Context (from_v8_headers : Js -> result (list (string * string)) string).

(** [__nativeWebSocketConnect]: the socket id is taken before the arguments are read. *)
Definition native_websocket_connect (s : State) (args : list Js) : Ended :=
  let '(ws, s) := next_socket_id s in
  async_op s
    (let? url := string_of (arg args 0) in
     let? headers := (if is_nullish (arg args 1) then Ok []
                      else match from_v8_headers (arg args 1) with
                           | Ok h => Ok h
                           | Err e => Err (TypeError ("WebSocket: the headers are not a name/value object: " +:+ e))
                           end) in
     Ok (fun id => WebSocketConnect id ws url headers)) (arg args 2) (arg args 3).

(** [__nativeWebSocketPair] *)
Definition native_websocket_pair (s : State) (args : list Js) : Ended :=
  let '(ws, s) := next_socket_id s in
  (Ok (jnum ws), send s (WebSocketPair ws)).

(** [__nativeWebSocketAccept] *)
Definition native_websocket_accept (s : State) (args : list Js) : Ended :=
  match socket_id (arg args 0) with
  | Err t => (Err t, s)
  | Ok ws =>
      match as_function (arg args 1) with
      | None => (Err (TypeError "WebSocket: the dispatcher is not a function"), s)
      | Some f =>
          (Ok JUndefined, mkState (Dispatch.accept (tables s) ws f) (outbox s ++ [WebSocketAccept ws])
                            (frames s) (next_socket s))
      end
  end.

(** An op that only sends a message. *)
Definition sync_op (s : State) (parsed : result Message Throw) : Ended :=
  match parsed with Err t => (Err t, s) | Ok m => (Ok JUndefined, send s m) end.

(** [__nativeWebSocketSend] *)
Definition native_websocket_send (s : State) (args : list Js) : Ended :=
  sync_op s
    (let? ws := socket_id (arg args 0) in
     let? m := outgoing (arg args 1) in
     Ok (WebSocketSend ws m)).

(** [__nativeWebSocketClose] *)
Definition native_websocket_close (s : State) (args : list Js) : Ended :=
  sync_op s
    (let? ws := socket_id (arg args 0) in
     let? code := match arg args 1 with
                  | JNumber n => Ok (as_u16 n)
                  | _ => Err (TypeError "WebSocket: the close code is not a number")
                  end in
     let? reason := string_of (arg args 2) in
     Ok (WebSocketClose ws code reason)).

(** ** durable_object.rs *)

(** [ObjectIdSource], and the runner that makes ids and holds the sockets. *)
Inductive ObjectIdSource := Name (name : string) | FromText (text : string) | Unique.

Record HeldSocket := mkHeld { h_id : Z; h_tags : list string; h_attachment : option (list Z) }.

Context (durable_object_id : string -> ObjectIdSource -> result string string).
Context (durable_object_sockets : list HeldSocket).
(** The structured clone of V8: [None] with a DataCloneError thrown. *)
Context (serialize : Js -> option (list Z)) (deserialize : list Z -> option Js).

Definition id_source (kind : string) (value : option string) : result ObjectIdSource Throw :=
  if String.eqb kind "name" then
    match value with Some n => Ok (Name n) | None => Err (TypeError "durable object: not an id source") end
  else if String.eqb kind "text" then
    match value with Some t => Ok (FromText t) | None => Err (TypeError "durable object: not an id source") end
  else if String.eqb kind "unique" then Ok Unique
  else Err (TypeError "durable object: not an id source").

(** [__nativeDurableObjectId] *)
Definition native_durable_object_id (s : State) (args : list Js) : Ended :=
  (let? binding := string_arg (arg args 0) "durable object: the binding name is not a string" in
   let? kind := string_arg (arg args 1) "durable object: the id kind is not a string" in
   let? source := id_source kind (from_v8_string (arg args 2)) in
   match durable_object_id binding source with
   | Ok id => Ok (JString id)
   | Err message => Err (TypeError message)
   end, s).

(** A conversion that throws gives a value all the same, the empty string or none, and
    leaves its exception behind for the guest: the second part is whether it did. *)
Definition Converted (A : Type) : Type := A * bool.

Definition converted {A B} (c : Converted A) (k : A -> Converted B) : Converted B :=
  let '(a, threw) := c in let '(b, threw') := k a in (b, threw || threw').

Lemma fst_converted {A B} (c : Converted A) (k : A -> Converted B) : fst (converted c k) = fst (k (fst c)).
Proof. unfold converted. destruct c as [a t]. simpl. by destruct (k a). Qed.

Local Notation "'let!' x ':=' c 'in' k" := (converted c (fun x => k))
  (at level 200, x name, c at level 100, k at level 200).

(** [to_rust_string_lossy] of a value *)
Definition lossy (v : Js) : Converted string :=
  match to_string v with Some s => (s, false) | None => (""%string, true) end.

(** [field], [string_field] and [strings]; a getter that throws gives no value. *)
Definition field (op : Fields) (name : string) : Converted (option Js) :=
  match get_field op name with
  | Some v => (if is_nullish v then None else Some v, false)
  | None => (None, true)
  end.

Definition string_field (op : Fields) (name : string) : Converted (option string) :=
  let! v := field op name in
  match v with Some v => let! s := lossy v in (Some s, false) | None => (None, false) end.

Definition strings (v : option Js) : Converted (list string) :=
  match v with
  | Some (JArray l) => (fst <$> (lossy <$> l), existsb snd (lossy <$> l))
  | _ => ([], false)
  end.

Definition is_set (op : Fields) (name : string) : Converted bool :=
  let! v := field op name in (default false (is_true <$> v), false).

(** The puts of a write: an entry that is no array ends the op with no exception of its
    own, and a value that cannot be cloned with one. *)
Fixpoint parse_puts (entries : list Js) : Converted (option (list (string * list Z))) :=
  match entries with
  | [] => (Some [], false)
  | JArray entry :: entries =>
      let! key := lossy (arg entry 0) in
      match serialize (arg entry 1) with
      | None => (None, true)
      | Some bytes =>
          let! rest := parse_puts entries in (cons (key, bytes) <$> rest, false)
      end
  | _ :: _ => (None, false)
  end.

(** [number_value], [as u64] *)
Definition number_field (v : option Js) : Converted (option Z) :=
  match v with
  | Some v => match to_number v with Some n => (Some (as_u64 n), false) | None => (None, true) end
  | None => (None, false)
  end.

(** [parse_storage_op]: the op, or nothing and the error of its own it threw. *)
Definition parse_storage_op (value : Js) : Converted (result ObjectStorageOp (option Throw)) :=
  match value with
  | JUndefined | JNull => (Err (Some (TypeError "durable object storage: the op is not an object")), false)
  | _ =>
      (* an object of another kind has none of the fields *)
      let op := match value with JObject fields => fields | _ => [] end in
      let! kind := string_field op "kind" in
      let kind := default ""%string kind in
      if String.eqb kind "get" then
        let! v := field op "keys" in
        let! keys := strings v in
        (Ok (Get keys), false)
      else if String.eqb kind "list" then
        let! reverse := is_set op "reverse" in
        let! v := field op "limit" in
        let! limit := number_field v in
        let! start := string_field op "start" in
        let! start_after := string_field op "startAfter" in
        let! end_ := string_field op "end" in
        let! prefix := string_field op "prefix" in
        (Ok (List start start_after end_ prefix reverse limit), false)
      else if String.eqb kind "write" then
        let! v := field op "puts" in
        let! puts := match v with Some (JArray l) => parse_puts l | _ => (Some [], false) end in
        match puts with
        | None => (Err None, false)
        | Some puts =>
            let! v := field op "deletes" in
            let! delete_all := is_set op "deleteAll" in
            let! deletes := strings v in
            (Ok (Write puts deletes delete_all), false)
        end
      else if String.eqb kind "getAlarm" then (Ok GetAlarm, false)
      else if String.eqb kind "setAlarm" then
        let! v := field op "at" in
        (Ok (SetAlarm (match v with Some (JNumber n) => Some (integer_of n) | _ => None end)), false)
      else (Err (Some (TypeError "durable object storage: unknown op")), false)
  end.

(** [op_bytes] *)
Definition lengths (l : list string) : Z := foldr (fun k n => Z.of_nat (String.length k) + n)%Z 0%Z l.

Definition op_bytes (op : ObjectStorageOp) : Z :=
  match op with
  | Get keys => lengths keys
  | Write puts deletes _ =>
      (foldr (fun p n => Z.of_nat (String.length (fst p) + length (snd p)) + n) 0 puts + lengths deletes)%Z
  | List _ _ _ _ _ _ | GetAlarm | SetAlarm _ => 0%Z
  end.

(** The end of a native whose conversions may have thrown: it did what it did, and the
    guest sees the exception. *)
Definition rethrown (threw : bool) (e : Ended) : Ended :=
  match fst e with Ok _ => if threw then (Err Pending, snd e) else e | Err _ => e end.

(** [__nativeObjectStorage] *)
Definition native_object_storage (s : State) (args : list Js) : Ended :=
  let '(parsed, threw) := parse_storage_op (arg args 0) in
  rethrown threw
    match parsed with
    | Err (Some t) => (Err t, s)
    | Err None => (Ok JUndefined, s)
    | Ok op => await_answer s (arg args 1) (arg args 2) (fun id => ObjectStorage id op) (jnum (op_bytes op))
    end.

Definition MAX_ATTACHMENT : nat := 2048.
Definition MAX_WAITING_FRAMES : Z := 64 * 1024 * 1024.

(** [__nativeObjectSocketId] *)
Definition native_object_socket_id (s : State) (args : list Js) : Ended :=
  let '(ws, s) := next_socket_id s in (Ok (jnum ws), s).

(** [__nativeObjectSocketAccept] *)
Definition native_object_socket_accept (s : State) (args : list Js) : Ended :=
  let '(tags, threw) := strings (Some (arg args 1)) in
  match socket_id (arg args 0) with
  | Err t => (Err t, s)
  | Ok socket => rethrown threw (sync_op s (Ok (ObjectSocket (Accept socket tags (is_true (arg args 2))) None)))
  end.

Definition frame_bytes (m : WebSocketOutgoing) : Z :=
  match m with
  | Text text => Z.of_nat (String.length text)
  | Binary bytes => Z.of_nat (length bytes)
  | Close _ _ => 0
  end.

(** [__nativeObjectSocketSend]: the bytes count until the frame left
    ([Waiting::new]). *)
Definition native_object_socket_send (s : State) (args : list Js) : Ended :=
  match (let? socket := socket_id (arg args 0) in
         let? m := outgoing (arg args 1) in Ok (socket, m)) with
  | Err t => (Err t, s)
  | Ok (socket, m) =>
      if (MAX_WAITING_FRAMES <=? frames s)%Z
      then (Err (RangeError "WebSocket: 64 MiB of frames wait to go out; send more once they left"), s)
      else (Ok JUndefined,
            mkState (tables s) (outbox s ++ [ObjectSocket (Send socket m) (Some (frame_bytes m))])
              (frames s + frame_bytes m)%Z (next_socket s))
  end.

(** [Waiting::drop] *)
Definition frame_left (s : State) (bytes : Z) : State :=
  mkState (tables s) (outbox s) (frames s - bytes)%Z (next_socket s).

(** [__nativeObjectSocketClose]; 1000 when the conversion of the code throws. *)
Definition native_object_socket_close (s : State) (args : list Js) : Ended :=
  match socket_id (arg args 0) with
  | Err t => (Err t, s)
  | Ok socket =>
      let code := to_number (arg args 1) in
      let '(reason, threw) := lossy (arg args 2) in
      rethrown (threw || bool_decide (code = None))
        (sync_op s (Ok (ObjectSocket (Send socket (Close (default 1000%Z (as_u16 <$> code)) reason)) None)))
  end.

(** [__nativeObjectSocketAttachment] *)
Definition native_object_socket_attachment (print : nat -> string) (s : State) (args : list Js) : Ended :=
  sync_op s
    (let? socket := socket_id (arg args 0) in
     let? value :=
       (if is_nullish (arg args 1) then Ok None
        else match serialize (arg args 1) with
             | None => Err Pending
             | Some bytes =>
                 if (MAX_ATTACHMENT <? length bytes)%nat
                 then Err (TypeError ("serializeAttachment: the attachment is " +:+ print (length bytes) +:+
                                      " bytes, more than 2048"))
                 else Ok (Some bytes)
             end) in
     Ok (ObjectSocket (Attachment socket value) None)).

(** [__nativeObjectSockets] *)
Definition native_object_sockets (s : State) (args : list Js) : Ended :=
  (Ok (JArray ((fun h =>
     JObject (set_field (set_field (set_field [] "id" (jnum (h_id h)))
                "tags" (JArray (JString <$> h_tags h)))
                "attachment" (default JNull (h_attachment h ≫= deserialize)))) <$> durable_object_sockets)), s).

(** ** Promises *)

(** The ops that answer a promise. *)
Inductive AsyncNative :=
| NFetchStreaming | NBindingFetch | NBindingWorker | NBindingStorage | NBindingKv | NBindingDatabase
| NBindingD1 | NBindingDurableObject | NWebSocketConnect | NObjectStorage.
#[global] Instance async_native_eq : EqDecision AsyncNative.
Proof. solve_decision. Defined.

Definition call (n : AsyncNative) : State -> list Js -> Ended :=
  match n with
  | NFetchStreaming => native_fetch_streaming
  | NBindingFetch => native_binding_fetch BindingFetch
  | NBindingWorker => native_binding_fetch BindingWorker
  | NBindingStorage => native_binding_storage
  | NBindingKv => native_binding_kv
  | NBindingDatabase => native_binding_database
  | NBindingD1 => native_binding_d1
  | NBindingDurableObject => native_binding_durable_object
  | NWebSocketConnect => native_websocket_connect
  | NObjectStorage => native_object_storage
  end.

(** The promise a message answers. *)
Definition answers (m : Message) : option CallbackId :=
  match m with
  | FetchStreaming id _ | BindingFetch id _ _ | BindingWorker id _ _ | BindingStorage id _ _
  | BindingKv id _ _ | BindingDatabase id _ _ | BindingD1 id _ _ | BindingDurableObject id _ _ _
  | ObjectStorage id _ | WebSocketConnect id _ _ _ => Some id
  | _ => None
  end.

(** The op left everything as it was, but the ids of sockets. *)
Definition unchanged (s s' : State) : Prop :=
  tables s' = tables s /\ outbox s' = outbox s /\ frames s' = frames s.

(** The op sent one message, which answers a promise that is new and waits. *)
Definition asked (s s' : State) : Prop :=
  exists m, outbox s' = outbox s ++ [m] /\ answers m = Some (Dispatch.next_id (tables s)) /\
    is_Some (Dispatch.fetch (tables s') !! Dispatch.next_id (tables s)) /\
    is_Some (Dispatch.fetch_error (tables s') !! Dispatch.next_id (tables s)) /\
    Dispatch.sent (tables s') = Dispatch.sent (tables s) ++ [Dispatch.next_id (tables s)] /\
    Dispatch.next_id (tables s') = (Dispatch.next_id (tables s) + 1)%Z /\ frames s' = frames s.

Definition asked_or_threw (s : State) (e : Ended) : Prop :=
  match fst e with Err _ => unchanged s (snd e) | Ok _ => asked s (snd e) end.

Lemma await_asks s resolve reject m rv :
  (forall id, answers (m id) = Some id) -> asked_or_threw s (await_answer s resolve reject m rv).
Proof.
  intros Hm. unfold await_answer. destruct (resolve_reject resolve reject) as [[f g]|t]; [|by split_and!].
  simpl. exists (m (Dispatch.next_id (tables s))).
  split_and!; try done; simpl; rewrite lookup_insert_eq; by eexists.
Qed.

Lemma async_asks s parsed resolve reject :
  (forall m, parsed = Ok m -> forall id, answers (m id) = Some id) ->
  asked_or_threw s (async_op s parsed resolve reject).
Proof.
  intros Hm. destruct parsed as [m|t]; simpl; [apply await_asks; by apply Hm|by split_and!].
Qed.

Lemma result_bind_Ok {A B E} (r : result A E) (k : A -> result B E) b :
  result_bind r k = Ok b -> exists a, r = Ok a /\ k a = Ok b.
Proof. destruct r as [a|e]; simpl; [|done]. by exists a. Qed.

(** The message of an op that is built by binds. *)
Ltac built := intros m Hm; repeat (apply result_bind_Ok in Hm as (? & _ & Hm)); injection Hm as <-; done.

(** C20: an op of the bindings either throws and changes nothing the guest can see, or
    puts both callbacks of its promise under a fresh id and sends exactly one message
    that answers that id. Two ops of an object's storage do otherwise: a write whose list
    of puts holds something that is no entry does neither, and one that has the
    conversion of a field throw does both. *)
Theorem native_ops_ask_once n s args r s' :
  call n s args = (r, s') ->
  match r with
  | Err t => unchanged s s' \/
      n = NObjectStorage /\ t = Pending /\ (exists op, parse_storage_op (arg args 0) = (Ok op, true)) /\
      asked s s'
  | Ok _ => asked s s' \/
      n = NObjectStorage /\ parse_storage_op (arg args 0) = (Err None, false) /\ s' = s
  end.
Proof.
  intros H. destruct (decide (n = NObjectStorage)) as [->|Hn].
  - simpl in H. unfold native_object_storage in H.
    destruct (parse_storage_op (arg args 0)) as [[op|[t|]] threw]; unfold rethrown in H.
    + pose proof (await_asks s (arg args 1) (arg args 2) (fun id => ObjectStorage id op) (jnum (op_bytes op))
        (fun _ => eq_refl)) as Ha. unfold asked_or_threw in Ha.
      destruct (await_answer _ _ _ _ _) as [[v|t] s1]; simpl in *; [|simplify_eq; by left].
      destruct threw; simplify_eq; [right; eauto|by left].
    + simpl in H. simplify_eq. by left; split_and!.
    + simpl in H. destruct threw; simplify_eq; [by left; split_and!|by right].
  - assert (asked_or_threw s (call n s args)) as Ha
      by (destruct n; simpl; try done; apply async_asks; built).
    rewrite H in Ha. destruct r; by left.
Qed.

(** ** Frames *)

(** The frames of an object: sends of the guest, and frames that left the queue. *)
Inductive FrameStep := GuestSends (args : list Js) | FrameLeaves (i : nat).

(** The frames that wait. *)
Fixpoint frame_run (s : State) (waiting : list Z) (steps : list FrameStep) : State * list Z :=
  match steps with
  | [] => (s, waiting)
  | GuestSends args :: steps =>
      let '(r, s') := native_object_socket_send s args in
      let bytes := (frames s' - frames s)%Z in
      frame_run s' (if is_ok r then waiting ++ [bytes] else waiting) steps
  | FrameLeaves i :: steps =>
      match vec_remove i waiting with
      | Some (bytes, waiting) => frame_run (frame_left s bytes) waiting steps
      | None => frame_run s waiting steps
      end
  end.

Lemma frame_run_counts steps : forall s waiting s' waiting' largest,
  frames s = sum waiting -> Forall (fun b => 0 <= b)%Z waiting ->
  (0 <= frames s < MAX_WAITING_FRAMES + largest)%Z -> (0 <= largest)%Z ->
  Forall (fun x => match x with
                   | GuestSends args => forall m, outgoing (arg args 1) = Ok m -> (frame_bytes m <= largest)%Z
                   | FrameLeaves _ => True
                   end) steps ->
  frame_run s waiting steps = (s', waiting') ->
  frames s' = sum waiting' /\ (0 <= frames s' < MAX_WAITING_FRAMES + largest)%Z.
Proof.
  induction steps as [|[args|i] steps IH]; intros s w s' w' largest Hs Hw Hb Hl Hst; simpl.
  { by intros [= <- <-]. }
  - apply Forall_cons in Hst as [Hm Hst]. unfold native_object_socket_send.
    destruct (socket_id (arg args 0)) as [socket|t]; simpl; [|by apply IH].
    destruct (outgoing (arg args 1)) as [m|t]; simpl; [|by apply IH].
    destruct (Z.leb_spec MAX_WAITING_FRAMES (frames s)) as [Hge|Hlt]; simpl; [by apply IH|].
    specialize (Hm m eq_refl).
    assert (0 <= frame_bytes m)%Z as Hpos by (destruct m; simpl; lia).
    intros H. eapply IH in H; [exact H|..|exact Hl|exact Hst]; simpl.
    + rewrite sum_app, <-Hs. simpl. lia.
    + apply Forall_app. split; [done|]. repeat constructor. lia.
    + lia.
  - apply Forall_cons in Hst as [_ Hst].
    destruct (vec_remove i w) as [[b w1]|] eqn:E; [|by apply IH].
    unfold vec_remove in E. destruct (w !! i) as [x|] eqn:Ei; simpl in E; [|done]. injection E as <- <-.
    assert (w ≡ₚ x :: delete i w) as Hp by by apply delete_Permutation.
    pose proof (sum_delete w i x Ei) as Hsum.
    rewrite Hp in Hw. apply Forall_cons in Hw as [Hx Hw].
    pose proof (sum_nonneg _ Hw) as Hpos. intros H. eapply IH in H; [exact H|..|exact Hl|exact Hst]; simpl; [lia|done|lia].
Qed.

(** The counter of an object's frames is the bytes of those that wait, and stays
    below 64 MiB and one frame, whatever the guest sends and in whatever order the
    frames leave. *)
Theorem waiting_frames_bounded steps s s' waiting largest :
  frames s = 0%Z -> (0 <= largest)%Z ->
  Forall (fun x => match x with
                   | GuestSends args => forall m, outgoing (arg args 1) = Ok m -> (frame_bytes m <= largest)%Z
                   | FrameLeaves _ => True
                   end) steps ->
  frame_run s [] steps = (s', waiting) ->
  frames s' = sum waiting /\ (0 <= frames s' < MAX_WAITING_FRAMES + largest)%Z.
Proof.
  intros Hs Hl Hst H. eapply frame_run_counts; [..|exact H]; simpl; try done.
  rewrite Hs. unfold MAX_WAITING_FRAMES. lia.
Qed.

End Natives.

(** ** Concrete ops *)

Definition demo_options (v : Js) : result FetchOptions string :=
  match v with
  | JString url => Ok (mkOptions url None [] None)
  | _ => Err "expected an object"%string
  end.
Definition demo_string (v : Js) : option string := match v with JString s => Some s | _ => None end.
Definition demo_function (v : Js) : option Dispatch.Fn :=
  match v with JFunction _ => Some 7%Z | _ => None end.
Definition demo_method (m : string) : option string := if String.eqb m "GET" then Some m else None.
Definition demo_state : State (Method := string) (D1Op := unit) (SqlParam := unit) (Json := unit) :=
  mkState Dispatch.initial [] 0%Z 1%Z.

Definition demo_call (n : AsyncNative) (args : list Js) :=
  call demo_method demo_options demo_string demo_function (fun _ => Err "no"%string) (fun _ => Err "no"%string)
    (fun _ => Err "no"%string) (fun _ => Err "no"%string) demo_string (fun _ => None) (fun z => z)
    (fun _ => Ok []) (fun _ => None) n demo_state args.

(** A list of an object's storage whose prefix is something that has no string: the op goes
    out with an empty prefix, and the guest sees the exception. *)
Definition demo_list : list Js :=
  [JObject [("kind"%string, Some (JString "list")); ("prefix"%string, Some (JArray []))]; JFunction None; JFunction None].

Example throwing_conversions_still_send :
  let '(r, s) := demo_call NObjectStorage demo_list in
  r = Err Pending /\ outbox s = [ObjectStorage 1%Z (List None None None (Some ""%string) false None)] /\
  Dispatch.fetch (tables s) = {[1%Z := 7%Z]}.
Proof. by vm_compute. Qed.

Lemma native_ops_ask_once_witness :
  asked demo_state (snd (demo_call NFetchStreaming [JString "https://example.com"; JFunction None; JFunction None])) /\
  unchanged demo_state (snd (demo_call NFetchStreaming [JNull])) /\
  asked demo_state (snd (demo_call NObjectStorage demo_list)).
Proof.
  pose proof (fun n args => native_ops_ask_once demo_method demo_options demo_string demo_function
    (fun _ => Err "no"%string) (fun _ => Err "no"%string) (fun _ => Err "no"%string)
    (fun _ => Err "no"%string) demo_string (fun _ => None) (fun z => z) (fun _ => Ok []) (fun _ => None)
    n demo_state args _ _ (surjective_pairing _)) as H.
  split_and!.
  - specialize (H NFetchStreaming [JString "https://example.com"; JFunction None; JFunction None]).
    simpl in H. destruct H as [H|(E & _)]; [exact H|discriminate E].
  - specialize (H NFetchStreaming [JNull]). simpl in H. destruct H as [H|(E & _)]; [exact H|discriminate E].
  - specialize (H NObjectStorage demo_list). vm_compute in H |- *. destruct H as [(_ & E & _)|(_ & _ & _ & H)]; [discriminate E|exact H].
Defined.

(** A write with a put that is no entry neither throws nor asks: its promise stays
    pending. *)
Example malformed_put_is_silent :
  demo_call NObjectStorage
    [JObject [("kind"%string, Some (JString "write")); ("puts"%string, Some (JArray [JNull]))];
     JFunction None; JFunction None] = (Ok JUndefined, demo_state).
Proof. by vm_compute. Qed.

Lemma waiting_frames_bounded_witness :
  let r := frame_run demo_string (fun z => z) demo_state []
             [GuestSends [jnum 3; JString "hello"]; GuestSends [jnum 3; JBytes [1; 2]%Z]; FrameLeaves 0] in
  snd r = [2%Z] /\ frames (fst r) = sum (snd r) /\ (0 <= frames (fst r) < MAX_WAITING_FRAMES + 5)%Z.
Proof.
  intros r. split; [by vm_compute|].
  apply (waiting_frames_bounded demo_string (fun z => z)
    [GuestSends [jnum 3; JString "hello"]; GuestSends [jnum 3; JBytes [1; 2]%Z]; FrameLeaves 0] demo_state
    (fst r) (snd r) 5); [done|lia| |exact (surjective_pairing r)].
  repeat constructor; intros m [= <-]; vm_compute; congruence.
Defined.

End Natives.
