(* ===== verification/ObjectScript.v ===== *)
(** * The script of a Durable Object: storage and gates (src/src/js/durable_object.js)

    [installObject] runs once per object. Its closure holds the counters the host reads
    between turns (the callbacks that block the object, the reads under way, the failure),
    and the bytes of the storage ops that did not end. The methods of [state.storage] make
    ops for the native of Natives.v; the host answers them in any order, and the reactions
    to an answer are jobs of the microtask queue, first in, first out. Guest code runs
    between jobs as it likes. [gate] is what execution_context/durable_object.rs reads.

    Values are the ones of Readers.v. Conversions that can run guest code are parameters,
    [None] where they throw. *)

From stdpp Require Import base list gmap strings fin_maps.
From Stdlib Require Import ZArith Lia.
From S2P Require Import Prelude Handlers Readers Natives DurableObject.

Local Open Scope Z_scope.

Module ObjectScript.
Import Readers.

Definition MAX_BACKLOG : Z := 32 * 1024 * 1024.

(** The object a method hands to [call]; values are the guest's. *)
Inductive Op :=
| OGet (keys : list string)
| OList (start start_after end_ prefix : Js) (reverse : bool) (limit : Js)
| OWrite (puts : list (string * Js)) (deletes : list string) (delete_all : bool)
| OGetAlarm
| OSetAlarm (at_ : option Handlers.number).

Definition op_object (op : Op) : Js :=
  JObject match op with
  | OGet keys => [("kind", Some (JString "get")); ("keys", Some (JArray (JString <$> keys)))]
  | OList start start_after end_ prefix reverse limit =>
      [("kind", Some (JString "list")); ("start", Some start); ("startAfter", Some start_after);
       ("end", Some end_); ("prefix", Some prefix); ("reverse", Some (JBool reverse)); ("limit", Some limit)]
  | OWrite puts deletes delete_all =>
      [("kind", Some (JString "write"));
       ("puts", Some (JArray ((fun p => JArray [JString (fst p); snd p]) <$> puts)));
       ("deletes", Some (JArray (JString <$> deletes))); ("deleteAll", Some (JBool delete_all))]
  | OGetAlarm => [("kind", Some (JString "getAlarm"))]
  | OSetAlarm at_ => [("kind", Some (JString "setAlarm")); ("at", Some (from_option JNumber JNull at_))]
  end%string.

(** The reactions [call], [read] and [tracked] put on the promise of an op. *)
Inductive Purpose := Plain | Reading | Tracked.
#[export] Instance purpose_eq : EqDecision Purpose.
Proof. solve_decision. Defined.

Record Pending := mkPending { bytes : Z; purpose : Purpose }.

(** Microtasks: [ended], [open], the handler of a failed write, and the two reactions of
    [blockConcurrencyWhile]. *)
Inductive Job :=
| Ended (bytes : Z)
| Open
| WriteFailed (error : string)
| Unblock (error : option Js).

(** What can break the object: a write the host rejected, an error of a callback. *)
Inductive Cause := CWrite (error : string) | CBlock (error : Js).

(** The closure, with what it waits for: the ops sent to the host, in order, and those not
    answered; the callbacks that run; the microtasks. [answered] and [causes] are history:
    what the host answered, and every cause whose reaction ran. *)
Record Script := mkScript {
  blocked : Z;
  failure : Js;
  reads : Z;
  backlog : Z;
  sent : list (nat * Natives.ObjectStorageOp);
  pending : gmap nat Pending;
  running : gset nat;
  next : nat;
  jobs : list Job;
  answered : list (Pending * result Js string);
  causes : list Cause
}.

Definition initial : Script := mkScript 0 JNull 0 0 [] ∅ ∅ 0 [] [] [].

(** What ends a call of the guest: a promise of an op, a promise that is rejected already,
    or an exception. *)
Inductive Error :=
| BacklogFull | NotCloned | NotAKey | NoAlarmHandler | NotATime | GuestThrew.
Inductive Answer := Promise (id : nat) | Rejected (e : Error) | Threw (e : Error).

Section Script.

(** ToString and [get] of a value that is neither a string nor a plain object, ToNumber, a
    double as an integer and as a condition; the structured clone of V8. *)
Context (to_string_other : Js -> option string) (get_other : Js -> string -> option Js).
Context (to_number : Js -> option Handlers.number) (trunc : Z -> Z) (double_truthy : Z -> bool).
Context (serialize : Js -> option (list Z)).
(** [Object.entries] of an array, a function or another object that is not plain. *)
Context (entries_other : Js -> option (list (string * Js))).
(** [getTime] of a Date, [Number.isFinite] and [Math.trunc] of a double. *)
Context (get_time : Js -> option Handlers.number).
Context (double_finite : Z -> bool) (math_trunc : Z -> Handlers.number).
(** Whether the class has an [alarm] method. *)
Context (has_alarm : bool).

Definition to_string : Js -> option string := Readers.to_string to_string_other.

Definition truthy (v : Js) : bool :=
  match v with
  | JUndefined | JNull => false
  | JBool b => b
  | JNumber (Handlers.Int z) => negb (z =? 0)
  | JNumber (Handlers.Double bits) => double_truthy bits
  | JString s => negb (String.eqb s "")
  | _ => true
  end.

(** [message]; [None] where the getter or the conversion throws. *)
Definition message (error : Js) : option Js :=
  if truthy error then
    m ← prop get_other error "message";
    if truthy m then Some m else JString <$> to_string error
  else JString <$> to_string error.

(** The same of the Error the host rejects an op with, which has a string message. *)
Definition host_message (text : string) : string := if String.eqb text "" then "Error" else text.

Definition set_failure (s : Script) (f : Js) : Script :=
  mkScript (blocked s) f (reads s) (backlog s) (sent s) (pending s) (running s) (next s) (jobs s) (answered s) (causes s).

Definition set_counters (s : Script) (blocked reads backlog : Z) : Script :=
  mkScript blocked (failure s) reads backlog (sent s) (pending s) (running s) (next s) (jobs s) (answered s) (causes s).

Definition set_jobs (s : Script) (l : list Job) : Script :=
  mkScript (blocked s) (failure s) (reads s) (backlog s) (sent s) (pending s) (running s) (next s) l (answered s) (causes s).

Definition note (s : Script) (c : Cause) : Script :=
  mkScript (blocked s) (failure s) (reads s) (backlog s) (sent s) (pending s) (running s) (next s) (jobs s)
    (answered s) (causes s ++ [c]).

(** ** Ops *)

(** The native of an op: what it sends, if anything, and whether it threw. *)
Definition native (op : Op) : option Natives.ObjectStorageOp * bool :=
  match Natives.parse_storage_op to_string to_number trunc serialize (op_object op) with
  | (Ok o, threw) => (Some o, threw)
  | (Err _, _) => (None, true)
  end.

(** An op whose promise nobody has. *)
Definition forget (s : Script) (o : Natives.ObjectStorageOp) : Script :=
  mkScript (blocked s) (failure s) (reads s) (backlog s) (sent s ++ [(next s, o)]) (pending s) (running s)
    (S (next s)) (jobs s) (answered s) (causes s).

(** The ops that are refused past the limit. *)
Definition counted (op : Op) : bool :=
  match op with OWrite _ _ _ => true | OGet keys => (0 <? length keys)%nat | _ => false end.

(** [call], with the reactions its caller adds. Where the native sends the op and throws
    all the same, the host answers a promise nobody has: nothing is counted. *)
Definition call (s : Script) (op : Op) (p : Purpose) : result (nat * Script) (Error * Script) :=
  if (MAX_BACKLOG <=? backlog s) && counted op then Err (BacklogFull, s)
  else match native op with
  | (None, _) => Err (NotCloned, s)
  | (Some o, true) => Err (GuestThrew, forget s o)
  | (Some o, false) =>
      let b := Natives.op_bytes o in
      Ok (next s,
        mkScript (blocked s) (failure s) (reads s) (backlog s + b) (sent s ++ [(next s, o)])
          (<[next s := mkPending b p]> (pending s)) (running s) (S (next s)) (jobs s) (answered s) (causes s))
  end.

(** [read], whose throw is a rejection in the async methods that call it. *)
Definition read (s : Script) (op : Op) : result (nat * Script) (Error * Script) :=
  let? r := call s op Reading in
  let '(id, s) := r in
  Ok (id, set_counters s (blocked s) (reads s + 1) (backlog s)).

Definition promised (r : result (nat * Script) (Error * Script)) : Answer * Script :=
  match r with Ok (id, s) => (Promise id, s) | Err (e, s) => (Rejected e, s) end.

(** [tracked]: a throw is a rejection. *)
Definition tracked (s : Script) (op : Op) : Answer * Script := promised (call s op Tracked).

(** [keyOf], of one key or of each. *)
Definition keyOf (key : Js) : result string Error := match key with JString k => Ok k | _ => Err NotAKey end.

Fixpoint keysOf (keys : list Js) : result (list string) Error :=
  match keys with
  | [] => Ok []
  | k :: keys => let? k := keyOf k in let? keys := keysOf keys in Ok (k :: keys)
  end.

(** One key or an array of them. *)
Definition key_list (keys : Js) : result (list string) Error :=
  match keys with JArray l => keysOf l | key => let? k := keyOf key in Ok [k] end.

(** [Object.entries(v ?? {})] of what is not a string. *)
Definition entries_of (v : Js) : option (list (string * Js)) :=
  match v with
  | JObject fields => mapM (fun f => pair (fst f) <$> snd f) fields
  | JUndefined | JNull | JBool _ | JNumber _ => Some []
  | _ => entries_other v
  end.

(** ** The methods of [storage] *)

Definition storage_get (s : Script) (keys : Js) : Answer * Script :=
  match key_list keys with
  | Err e => (Rejected e, s)
  | Ok keys => promised (read s (OGet keys))
  end.

Definition storage_put (s : Script) (key_or_entries value : Js) : Answer * Script :=
  match match key_or_entries with JString k => Some [(k, value)] | v => entries_of v end with
  | None => (Threw GuestThrew, s)
  | Some puts => tracked s (OWrite puts [] false)
  end.

(** A plain function: a key that is no string is an exception. *)
Definition storage_delete (s : Script) (keys : Js) : Answer * Script :=
  match key_list keys with
  | Err e => (Threw e, s)
  | Ok keys => tracked s (OWrite [] keys false)
  end.

(** The options of [list], each the value of its property. *)
Record ListOptions := mkListOptions {
  l_start : Js; l_start_after : Js; l_end : Js; l_prefix : Js; l_reverse : Js; l_limit : Js
}.

Definition storage_list (s : Script) (o : ListOptions) : Answer * Script :=
  promised (read s (OList (l_start o) (l_start_after o) (l_end o) (l_prefix o) (is_true (l_reverse o)) (l_limit o))).

Definition storage_delete_all (s : Script) : Answer * Script := tracked s (OWrite [] [] true).

(** [sync]: an empty get, which nothing refuses. *)
Definition storage_sync (s : Script) : Answer * Script :=
  match call s (OGet []) Plain with Ok (id, s) => (Promise id, s) | Err (e, s) => (Threw e, s) end.

Definition storage_get_alarm (s : Script) : Answer * Script :=
  match read s OGetAlarm with Ok (id, s) => (Promise id, s) | Err (e, s) => (Threw e, s) end.

Definition finite (n : Handlers.number) : option Handlers.number :=
  match n with
  | Handlers.Int z => Some (Handlers.Int z)
  | Handlers.Double bits => if double_finite bits then Some (math_trunc bits) else None
  end.

Definition storage_set_alarm (s : Script) (time : Js) : Answer * Script :=
  if negb has_alarm then (Rejected NoAlarmHandler, s)
  else
    match match get_time time with
          | Some n => finite n
          | None => match time with JNumber n => finite n | _ => None end
          end with
    | None => (Rejected NotATime, s)
    | Some at_ => tracked s (OSetAlarm (Some at_))
    end.

Definition storage_delete_alarm (s : Script) : Answer * Script := tracked s (OSetAlarm None).

(** ** Blocking *)

(** [blockConcurrencyWhile] up to the end of its synchronous part. *)
Definition block (s : Script) : Script :=
  mkScript (blocked s + 1) (failure s) (reads s) (backlog s) (sent s) (pending s)
    ({[next s]} ∪ running s) (S (next s)) (jobs s) (answered s) (causes s).

(** ** Answers and jobs *)

(** The host settles an op: the reactions, in the order they were put on its promise. *)
Definition reactions (p : Pending) (outcome : result Js string) : list Job :=
  Ended (bytes p) ::
  match purpose p, outcome with
  | Reading, _ => [Open]
  | Tracked, Err e => [WriteFailed e]
  | _, _ => []
  end.

Definition settle (s : Script) (id : nat) (outcome : result Js string) : option Script :=
  p ← pending s !! id;
  Some (mkScript (blocked s) (failure s) (reads s) (backlog s) (sent s) (delete id (pending s)) (running s)
          (next s) (jobs s ++ reactions p outcome) (answered s ++ [(p, outcome)]) (causes s)).

(** The callback of a block ends, with an error or without. *)
Definition callback_ends (s : Script) (id : nat) (error : option Js) : option Script :=
  if decide (id ∈ running s) then
    Some (mkScript (blocked s) (failure s) (reads s) (backlog s) (sent s) (pending s) (running s ∖ {[id]})
            (next s) (jobs s ++ [Unblock error]) (answered s) (causes s))
  else None.

(** [failure ??= message]: the message is made only when there is no failure yet, and
    where that throws, the rest of the reaction does not run. *)
Definition fail (s : Script) (text : option Js) : option Script :=
  if is_nullish (failure s) then set_failure s <$> text else Some s.

Definition unblock (s : Script) : Script := set_counters s (blocked s - 1) (reads s) (backlog s).

Definition write_text (error : string) : Js := JString ("a storage write failed: " +:+ host_message error).

Definition run_job (s : Script) (j : Job) : Script :=
  match j with
  | Ended b => set_counters s (blocked s) (reads s) (backlog s - b)
  | Open => set_counters s (blocked s) (reads s - 1) (backlog s)
  | WriteFailed e => let s := note s (CWrite e) in default s (fail s (Some (write_text e)))
  | Unblock None => unblock s
  | Unblock (Some e) => let s := note s (CBlock e) in default s (unblock <$> fail s (message e))
  end.

(** ** What the host reads (execution_context/durable_object.rs) *)

Definition is_blocked (s : Script) : bool := 0 <? blocked s.
Definition is_reading (s : Script) : bool := 0 <? reads s.

(** Which of the three calls of the host came back: one that is terminated does not. *)
Record Called := mkCalled { told_failure : bool; told_blocked : bool; told_reading : bool }.
Definition all_told : Called := mkCalled true true true.

(** [gate]: only a failure that is a string counts, and an answer that did not come is
    that nothing is wrong. *)
Definition read_gate (c : Called) (s : Script) : DurableObject.Gate :=
  match failure s, told_failure c with
  | JString f, true => DurableObject.Broken f
  | _, _ => DurableObject.GateState (told_blocked c && is_blocked s) (told_reading c && is_reading s)
  end.

(** The gate while nothing is terminated. *)
Definition gate : Script -> DurableObject.Gate := read_gate all_told.

(** ** Executions *)

Inductive label :=
| LGet (keys : Js) | LPut (key_or_entries value : Js) | LDelete (keys : Js) | LList (o : ListOptions)
| LDeleteAll | LSync | LGetAlarm | LSetAlarm (time : Js) | LDeleteAlarm
| LBlock
| LSettle (id : nat) (outcome : result Js string)
| LCallbackEnds (id : nat) (error : option Js)
| LJob.

Definition method (l : label) (s : Script) : option (Answer * Script) :=
  match l with
  | LGet keys => Some (storage_get s keys)
  | LPut k v => Some (storage_put s k v)
  | LDelete keys => Some (storage_delete s keys)
  | LList o => Some (storage_list s o)
  | LDeleteAll => Some (storage_delete_all s)
  | LSync => Some (storage_sync s)
  | LGetAlarm => Some (storage_get_alarm s)
  | LSetAlarm t => Some (storage_set_alarm s t)
  | LDeleteAlarm => Some (storage_delete_alarm s)
  | _ => None
  end.

Definition exec (s : Script) (l : label) : option Script :=
  match l with
  | LBlock => Some (block s)
  | LSettle id outcome => settle s id outcome
  | LCallbackEnds id error => callback_ends s id error
  | LJob =>
      match jobs s with
      | [] => None
      | j :: rest =>
          Some (run_job (set_jobs s rest) j)
      end
  | _ => snd <$> method l s
  end.

Definition step (s s' : Script) : Prop := exists l, exec s l = Some s'.
Definition reach : Script -> Prop := reachable (eq initial) step.

(** ** What the counters count *)

Definition total (f : Pending -> Z) (m : gmap nat Pending) : Z := sum (f <$> (map_to_list m).*2).
Definition over (f : Job -> Z) (l : list Job) : Z := sum (f <$> l).

Definition is_read (p : Pending) : Z := if decide (purpose p = Reading) then 1 else 0.
Definition job_bytes (j : Job) : Z := match j with Ended b => b | _ => 0 end.
Definition job_opens (j : Job) : Z := match j with Open => 1 | _ => 0 end.
Definition job_unblocks (j : Job) : Z := match j with Unblock _ => 1 | _ => 0 end.

(** The failure a cause makes, and the one the object has. *)
Definition text (c : Cause) : option Js :=
  match c with CWrite e => Some (write_text e) | CBlock e => message e end.

Definition failure_of (l : list Cause) : Js := default JNull (head (omap text l)).

(** The callbacks whose end went unnoticed: their error has no message, and there was no
    failure before it. *)
Fixpoint stuck_of (l : list Cause) : Z :=
  match l with [] => 0 | c :: l => match text c with None => 1 + stuck_of l | Some _ => 0 end end.

Definition largest (l : list (nat * Natives.ObjectStorageOp)) : Z :=
  foldr (fun o n => Z.max (Natives.op_bytes (snd o)) n) 0 l.

Definition rejected (a : Pending * result Js string) : option string :=
  match purpose (fst a), snd a with Tracked, Err e => Some e | _, _ => None end.
Definition write_cause (c : Cause) : option string := match c with CWrite e => Some e | _ => None end.
Definition write_job (j : Job) : option string := match j with WriteFailed e => Some e | _ => None end.

Record wf (s : Script) : Prop := {
  w_blocked : blocked s = Z.of_nat (size (running s)) + over job_unblocks (jobs s) + stuck_of (causes s);
  w_reads : reads s = total is_read (pending s) + over job_opens (jobs s);
  w_backlog : backlog s = total bytes (pending s) + over job_bytes (jobs s);
  w_bound : backlog s < MAX_BACKLOG + largest (sent s);
  w_failure : failure s = failure_of (causes s);
  w_rejected : omap rejected (answered s) = omap write_cause (causes s) ++ omap write_job (jobs s);
  w_fresh : forall id, id ∈ dom (pending s) ∪ running s -> (id < next s)%nat;
  w_pos : map_Forall (fun _ p => 0 <= bytes p) (pending s);
  w_jobs : Forall (fun j => 0 <= job_bytes j) (jobs s)
}.

Lemma sum_perm (l k : list Z) : l ≡ₚ k -> sum l = sum k.
Proof. induction 1; simpl; lia. Qed.

Lemma script_total_insert f m id p : m !! id = None -> total f (<[id := p]> m) = f p + total f m.
Proof.
  intros H. unfold total.
  rewrite (sum_perm _ (f <$> (((id, p) :: map_to_list m).*2))); [done|].
  by apply fmap_Permutation, fmap_Permutation, map_to_list_insert.
Qed.

Lemma total_delete f m id p : m !! id = Some p -> total f (delete id m) = total f m - f p.
Proof.
  intros H. rewrite <-(insert_delete_id m id p H) at 2. rewrite script_total_insert by apply lookup_delete_eq. lia.
Qed.

Lemma total_empty f : total f ∅ = 0.
Proof. done. Qed.

Lemma over_app f l k : over f (l ++ k) = over f l + over f k.
Proof. unfold over. by rewrite fmap_app, sum_app. Qed.

Lemma largest_app l k : largest (l ++ k) = Z.max (largest l) (largest k).
Proof.
  assert (forall l, 0 <= largest l) as Hpos by (intros l'; induction l'; simpl; lia).
  induction l as [|o l IH]; simpl; [specialize (Hpos k); lia|]. rewrite IH. lia.
Qed.

Lemma lengths_pos l : 0 <= Natives.lengths l.
Proof. unfold Natives.lengths. induction l; simpl; lia. Qed.

Lemma op_bytes_pos o : 0 <= Natives.op_bytes o.
Proof.
  destruct o as [keys|?????? |puts deletes ?| |?]; simpl; try lia; [apply lengths_pos|].
  pose proof (lengths_pos deletes). induction puts; simpl in *; lia.
Qed.

Lemma strings_of_strings l : Natives.strings to_string (Some (JArray (JString <$> l))) = (l, false).
Proof.
  unfold Natives.strings. f_equal; [rewrite <-!list_fmap_compose; by apply list_fmap_id|]. by induction l.
Qed.

(** What the native makes of the ops of the script. *)
Lemma native_get keys : native (OGet keys) = (Some (Natives.Get keys), false).
Proof. unfold native. cbn -[Natives.strings]. by rewrite strings_of_strings. Qed.

Lemma parse_puts_mapM puts :
  Natives.parse_puts to_string serialize ((fun p => JArray [JString (fst p); snd p]) <$> puts) =
  match mapM (fun p => pair (fst p) <$> serialize (snd p)) puts with
  | Some l => (Some l, false)
  | None => (None, true)
  end.
Proof.
  induction puts as [|[k v] puts IH]; [done|]. rewrite fmap_cons. cbn -[fmap list_fmap]. rewrite IH.
  destruct (serialize v); simpl; [|done]. by destruct (mapM _ puts).
Qed.

Lemma native_write puts keys all :
  native (OWrite puts keys all) =
  match mapM (fun p => pair (fst p) <$> serialize (snd p)) puts with
  | Some l => (Some (Natives.Write l keys all), false)
  | None => (None, true)
  end.
Proof.
  unfold native. cbn -[Natives.strings Natives.parse_puts]. rewrite parse_puts_mapM.
  destruct (mapM _ puts); [|done]. rewrite strings_of_strings. by destruct all.
Qed.

(** Only what the limit holds back has bytes. *)
Lemma uncounted_bytes op o threw : native op = (Some o, threw) -> counted op = false -> Natives.op_bytes o = 0.
Proof.
  destruct op as [keys|start sa end_ prefix rev limit|puts deletes all| |[?|]].
  - rewrite native_get. destruct keys; [by intros [= <- _]|done].
  - intros [=E%(f_equal fst)] _. unfold native in E.
    assert (exists a b c d e f, fst (Natives.parse_storage_op to_string to_number trunc serialize
      (op_object (OList start sa end_ prefix rev limit))) = Ok (Natives.List a b c d e f)) as (? & ? & ? & ? & ? & ? & H).
    { cbn -[Natives.converted Natives.string_field]. rewrite Natives.fst_converted.
      change (fst (Natives.string_field _ _ "kind")) with (Some "list"%string).
      cbn -[Natives.converted]. repeat (rewrite Natives.fst_converted; cbn -[Natives.converted]). by do 6 eexists. }
    destruct (Natives.parse_storage_op _ _ _ _ _) as [[?|?] ?]; simplify_eq/=. done.
  - done.
  - by intros [= <- _].
  - by intros [= <- _].
  - by intros [= <- _].
Qed.

(** ** The invariant *)

Lemma script_initial_wf : wf initial.
Proof. split; simpl; try done. Qed.

(** Changes that leave what the counters count alone. *)
Lemma fresh_next s : wf s -> pending s !! next s = None /\ next s ∉ running s.
Proof.
  intros Hwf. split.
  - apply not_elem_of_dom. intros H. pose proof (w_fresh s Hwf (next s)). set_solver by lia.
  - intros H. pose proof (w_fresh s Hwf (next s)). set_solver by lia.
Qed.

Lemma forget_wf s o : wf s -> wf (forget s o).
Proof.
  intros [Hb Hr Hk Hl Hf Hj Hi Hp Hq]. split; simpl; try done.
  - rewrite largest_app. simpl. lia.
  - intros i Hin. specialize (Hi i Hin). lia.
Qed.

(** A call of the native that ends with an exception. *)
Lemma call_refused_wf s op p e s' : wf s -> call s op p = Err (e, s') -> wf s'.
Proof.
  intros Hwf. unfold call. destruct (_ && _); [by intros [= _ <-]|].
  destruct (native op) as [[o|] []]; intros [= _ <-]; [by apply forget_wf|done|done].
Qed.

Lemma script_call_wf s op p id s' :
  wf s -> call s op p = Ok (id, s') ->
  wf (set_counters s' (blocked s') (reads s' + if decide (p = Reading) then 1 else 0) (backlog s')).
Proof.
  intros Hwf. destruct (fresh_next s Hwf) as [Hnew _]. unfold call.
  destruct ((MAX_BACKLOG <=? backlog s) && counted op) eqn:Hlim; [done|].
  destruct (native op) as [[o|] []] eqn:Hn; try done. intros [= <- <-].
  pose proof (op_bytes_pos o). destruct Hwf as [Hb Hr Hk Hl Hf Hj Hi Hp Hq].
  split; simpl; rewrite ?script_total_insert by done; unfold is_read in *; simpl; try done; try lia.
  - rewrite largest_app. simpl. apply andb_false_iff in Hlim as [Hlim|Hlim]; [lia|].
    rewrite (uncounted_bytes _ _ _ Hn Hlim) in *. lia.
  - intros i. rewrite dom_insert_L. intros Hin. destruct (decide (i = next s)); [lia|].
    assert (i < next s)%nat by (apply Hi; set_solver). lia.
  - by apply map_Forall_insert_2.
Qed.

(** What a call leaves, whichever way it ends. *)
Definition leaves_wf (r : result (nat * Script) (Error * Script)) : Prop :=
  match r with Ok (_, s') | Err (_, s') => wf s' end.

Lemma read_wf s op : wf s -> leaves_wf (read s op).
Proof.
  intros Hwf. unfold read. destruct (call s op Reading) as [[i s1]|[e s1]] eqn:E; simpl.
  - by apply (script_call_wf s op Reading i s1 Hwf) in E.
  - by eapply call_refused_wf.
Qed.

Lemma plain_wf s op p : wf s -> p <> Reading -> leaves_wf (call s op p).
Proof.
  intros Hwf Hne. destruct (call s op p) as [[id s']|[e s']] eqn:H; simpl; [|by eapply call_refused_wf].
  apply (script_call_wf _ _ _ _ _ Hwf) in H. rewrite decide_False in H by done.
  destruct s'. unfold set_counters in H. simpl in *. by rewrite Z.add_0_r in H.
Qed.

Lemma promised_wf r : leaves_wf r -> wf (snd (promised r)).
Proof. by destruct r as [[id s']|[e s']]. Qed.

Lemma tracked_wf s op : wf s -> wf (snd (tracked s op)).
Proof. intros Hwf. by apply promised_wf, plain_wf. Qed.

Hint Resolve tracked_wf promised_wf read_wf : script.

Lemma method_wf l s r : wf s -> method l s = Some r -> wf (snd r).
Proof.
  intros Hwf. destruct l; simpl; intros [= <-]; eauto with script.
  - unfold storage_get. destruct (key_list keys); simpl; eauto with script.
  - unfold storage_put. case_match; simpl; eauto with script.
  - unfold storage_delete. case_match; simpl; eauto with script.
  - unfold storage_list. eauto with script.
  - by apply tracked_wf.
  - pose proof (plain_wf s (OGet []) Plain Hwf) as H. unfold storage_sync.
    destruct (call s _ Plain) as [[id s']|[e s']]; by apply H.
  - pose proof (read_wf s OGetAlarm Hwf) as H. unfold storage_get_alarm.
    by destruct (read s OGetAlarm) as [[id s']|[e s']].
  - unfold storage_set_alarm. destruct (negb has_alarm); [done|]. case_match; simpl; eauto with script.
  - by apply tracked_wf.
Qed.

(** A failure is never null: [failure ??=] keeps the first. *)
Lemma text_not_nullish c m : text c = Some m -> is_nullish m = false.
Proof.
  destruct c as [e|e]; simpl; [by intros [= <-]|]. unfold message.
  destruct (truthy e); [|by destruct (to_string e); intros [= <-]].
  destruct (prop get_other e "message") as [v|]; simpl; [|done].
  destruct (truthy v) eqn:Ht; [intros [= <-]; by destruct v|by destruct (to_string e); intros [= <-]].
Qed.

Lemma texts_not_nullish l : Forall (fun m => is_nullish m = false) (omap text l).
Proof. apply Forall_forall. intros m (c & _ & Hm)%list_elem_of_omap. by eapply text_not_nullish. Qed.

Lemma failure_null l : is_nullish (failure_of l) = true -> failure_of l = JNull.
Proof. unfold failure_of. destruct (texts_not_nullish l) as [|m ? Hm]; simpl; [done|]. by rewrite Hm. Qed.

Lemma failure_snoc l c :
  failure_of (l ++ [c]) = if is_nullish (failure_of l) then default JNull (text c) else failure_of l.
Proof.
  unfold failure_of. rewrite omap_app.
  destruct (texts_not_nullish l) as [|m ? Hm]; simpl; [by destruct (text c)|]. by rewrite Hm.
Qed.

Lemma stuck_snoc l c :
  stuck_of (l ++ [c]) =
  stuck_of l + (if is_nullish (failure_of l) && negb (bool_decide (is_Some (text c))) then 1 else 0).
Proof.
  induction l as [|d l IH]; simpl.
  - destruct (text c); done.
  - unfold failure_of. simpl. destruct (text d) as [m|] eqn:E; simpl; [by rewrite (text_not_nullish _ _ E)|].
    rewrite IH. apply Z.add_assoc.
Qed.

Lemma stuck_pos l : 0 <= stuck_of l.
Proof. induction l as [|c l IH]; simpl; [done|]. destruct (text c); lia. Qed.

Lemma block_wf s : wf s -> wf (block s).
Proof.
  intros Hwf. destruct (fresh_next s Hwf) as [_ Hnew]. destruct Hwf as [Hb Hr Hk Hl Hf Hj Hi Hp Hq].
  split; simpl; try done.
  - rewrite size_union, size_singleton by set_solver. lia.
  - intros i Hin. destruct (decide (i = next s)); [lia|]. assert (i < next s)%nat by (apply Hi; set_solver). lia.
Qed.

Lemma over_reactions p outcome :
  over job_unblocks (reactions p outcome) = 0 /\ over job_opens (reactions p outcome) = is_read p /\
  over job_bytes (reactions p outcome) = bytes p /\
  omap write_job (reactions p outcome) = option_list (rejected (p, outcome)).
Proof.
  unfold reactions, is_read, over, rejected. destruct p as [b q]. simpl.
  destruct q, outcome; simpl; split_and!; try done; lia.
Qed.

Lemma settle_wf s id outcome s' : wf s -> settle s id outcome = Some s' -> wf s'.
Proof.
  intros [Hb Hr Hk Hl Hf Hj Hi Hp Hq]. unfold settle. destruct (pending s !! id) as [p|] eqn:Ep; [|done]. simpl.
  intros [= <-]. destruct (over_reactions p outcome) as (H1 & H2 & H3 & H4).
  split; simpl; rewrite ?over_app, ?(total_delete _ _ _ _ Ep); try done; try lia.
  - rewrite !omap_app, Hj, H4. simpl. by destruct (rejected (p, outcome)); rewrite <-app_assoc.
  - intros i Hin. apply Hi. rewrite dom_delete_L in Hin. set_solver.
  - by apply map_Forall_delete.
  - apply Forall_app. split; [done|]. specialize (Hp _ _ Ep). unfold reactions.
    by destruct (purpose p), outcome; repeat constructor.
Qed.

Lemma callback_ends_wf s id error s' : wf s -> callback_ends s id error = Some s' -> wf s'.
Proof.
  intros [Hb Hr Hk Hl Hf Hj Hi Hp Hq]. unfold callback_ends. case_decide as Hin; [|done]. intros [= <-].
  assert (forall f, over f [Unblock error] = f (Unblock error)) as Ho by (intros f; unfold over; simpl; lia).
  split; simpl; rewrite ?over_app, ?Ho; simpl; try done; try lia.
  - rewrite size_difference, size_singleton by set_solver.
    assert (size (running s) <> 0)%nat by (rewrite size_empty_iff; set_solver). lia.
  - by rewrite omap_app, app_nil_r.
  - intros i Hi'. apply Hi. set_solver.
  - apply Forall_app. split; [done|]. by repeat constructor.
Qed.

Lemma over_cons f j l : over f (j :: l) = f j + over f l.
Proof. done. Qed.

(** A cause whose reaction runs: [done] is whether the reaction gets past the failure. *)
Lemma fail_wf s c (k : Script -> Script) :
  failure s = failure_of (causes s) ->
  default (note s c) (k <$> fail (note s c) (text c)) =
  let done := negb (is_nullish (failure s)) || bool_decide (is_Some (text c)) in
  let s' := set_failure (note s c) (failure_of (causes s ++ [c])) in
  if done then k s' else s'.
Proof.
  intros Hf. rewrite failure_snoc. unfold fail. simpl. rewrite Hf.
  destruct (is_nullish (failure_of (causes s))) eqn:En.
  - destruct (text c) as [m|]; simpl; [done|]. unfold set_failure, note. simpl. f_equal. rewrite Hf.
    by apply failure_null.
  - simpl. unfold set_failure, note. by rewrite <-Hf.
Qed.

Lemma script_job_wf s j rest : wf s -> jobs s = j :: rest -> wf (run_job (set_jobs s rest) j).
Proof.
  intros [Hb Hr Hk Hl Hf Hj Hi Hp Hq] Ej. rewrite Ej, over_cons in *. apply Forall_cons in Hq as [Hpos Hq].
  destruct j as [b| |e|[e|]].
  1, 2, 5: split; simpl in *; try done; lia.
  - unfold run_job. change (Some (write_text e)) with (text (CWrite e)).
    replace (fail _ _) with (id <$> fail (note (set_jobs s rest) (CWrite e)) (text (CWrite e)))
      by by destruct (fail _ _).
    rewrite fail_wf by done. rewrite orb_true_r. split; simpl in *; try done.
    + rewrite stuck_snoc. simpl. rewrite andb_false_r. lia.
    + rewrite omap_app, <-app_assoc. done.
  - unfold run_job. change (message e) with (text (CBlock e)). rewrite fail_wf by done. simpl.
    pose proof (stuck_snoc (causes s) (CBlock e)) as Hs. rewrite <-Hf in Hs. simpl in Hs.
    destruct (is_nullish (failure s)), (message e) as [m|]; simpl in *;
      (split; simpl in *; rewrite ?Hs, ?omap_app; simpl; rewrite ?app_nil_r; try done; lia).
Qed.

Lemma script_exec_wf s l s' : wf s -> exec s l = Some s' -> wf s'.
Proof.
  intros Hwf.
  assert (snd <$> method l s = Some s' -> wf s') as Hm.
  { destruct (method l s) as [r|] eqn:E; [|done]. intros [= <-]. by eapply method_wf. }
  destruct l as [| | | | | | | | | |id o|id e|]; simpl exec; try exact Hm.
  - intros [= <-]. by apply block_wf.
  - by apply settle_wf.
  - by apply callback_ends_wf.
  - destruct (jobs s) as [|j rest] eqn:Ej; [done|]. intros [= <-]. by apply script_job_wf.
Qed.

Lemma script_reach_wf s : reach s -> wf s.
Proof.
  apply reachable_invariant; [intros ? <-; apply script_initial_wf|]. intros s1 s2 Hwf [l Hl]. by eapply script_exec_wf.
Qed.

Lemma over_nonneg f l : Forall (fun j => 0 <= f j) l -> 0 <= over f l.
Proof. intros H. apply sum_nonneg. by apply Forall_fmap. Qed.

Lemma total_nonneg f m : map_Forall (fun _ p => 0 <= f p) m -> 0 <= total f m.
Proof.
  intros H. apply sum_nonneg. apply Forall_fmap, Forall_fmap, Forall_forall.
  intros [id p] Hp%elem_of_map_to_list. by apply (H id p).
Qed.

Lemma total_is_read m : 0 < total is_read m <-> exists id p, m !! id = Some p /\ purpose p = Reading.
Proof.
  split.
  - induction m as [|id p m Hn IH] using map_ind; [by rewrite total_empty|].
    rewrite script_total_insert by done. destruct (decide (purpose p = Reading)) as [Hp|Hp].
    + intros _. exists id, p. by rewrite lookup_insert_eq.
    + replace (is_read p) with 0 by (unfold is_read; by rewrite decide_False).
      intros (i & q & Hq & Hr)%IH. exists i, q. rewrite lookup_insert_ne; [done|]. by intros ->; congruence.
  - intros (id & p & Hp & Hr). pose proof (total_delete is_read m id p Hp) as Ht.
    assert (0 <= total is_read (delete id m)).
    { apply total_nonneg. intros ???. unfold is_read. by case_decide. }
    assert (is_read p = 1) by (unfold is_read; by rewrite decide_True). lia.
Qed.

(** A broken object has a cause with a message; with string messages, the converse. *)
Lemma failure_string l :
  (forall c m, c ∈ l -> text c = Some m -> exists t, m = JString t) ->
  (exists f, failure_of l = JString f) <-> exists c m, c ∈ l /\ text c = Some m.
Proof.
  intros Hs. unfold failure_of. destruct (omap text l) as [|m ms] eqn:Eo; simpl.
  - split; [by intros [??]|]. intros (c & m & Hc & Hm).
    assert (m ∈ omap text l) as Hin by (apply list_elem_of_omap; eauto). rewrite Eo in Hin. set_solver.
  - assert (m ∈ omap text l) as (c & Hc & Hm)%list_elem_of_omap by (rewrite Eo; set_solver).
    destruct (Hs c m Hc Hm) as [t ->]. split; [by eauto|]. by intros _; exists t.
Qed.

Lemma gate_broken s f : gate s = DurableObject.Broken f <-> failure s = JString f.
Proof. unfold gate, read_gate. simpl. destruct (failure s); split; congruence. Qed.

(** With no microtask left, the counters are what the object waits for. *)
Lemma quiet_counters s :
  reach s -> jobs s = [] ->
  (is_blocked s = true <-> running s <> ∅ \/ 0 < stuck_of (causes s)) /\
  (is_reading s = true <-> exists id p, pending s !! id = Some p /\ purpose p = Reading).
Proof.
  intros [Hb Hr _ _ _ _ _ _ _]%script_reach_wf Hj. rewrite Hj in Hb, Hr. unfold over in Hb, Hr. simpl in Hb, Hr.
  unfold is_blocked, is_reading. rewrite !Z.ltb_lt. split.
  - rewrite Hb. pose proof (stuck_pos (causes s)). rewrite <-(leibniz_equiv_iff (running s) ∅), <-size_empty_iff. lia.
  - rewrite <-total_is_read. lia.
Qed.

(** ** What the script promises *)

(** C10: once its microtasks ran, and while no call of the host is terminated, what the host
    reads of an object is: blocked as long as a blockConcurrencyWhile callback runs, and for
    good once one ended with an error no message can be made of before any other failure;
    reading as long as the host did not answer a read; and broken exactly when the first
    failure a message could be made of is a string, with that string. *)
Theorem gate_tells_what_waits s :
  reach s -> jobs s = [] ->
  (is_blocked s = true <-> running s <> ∅ \/ 0 < stuck_of (causes s)) /\
  (is_reading s = true <-> exists id p, pending s !! id = Some p /\ purpose p = Reading) /\
  gate s = match failure_of (causes s) with
           | JString f => DurableObject.Broken f
           | _ => DurableObject.GateState (is_blocked s) (is_reading s)
           end.
Proof.
  intros Hr Hj. destruct (quiet_counters s Hr Hj) as [H1 H2]. split_and!; [done|done|].
  unfold gate, read_gate. simpl. by rewrite (w_failure s (script_reach_wf s Hr)).
Qed.

(** The backlog of an object is the bytes of the storage ops that did not end, and
    stays under 32 MiB and one op, the largest it sent. *)
Theorem backlog_is_bounded s :
  reach s ->
  backlog s = total bytes (pending s) + over job_bytes (jobs s) /\
  0 <= backlog s < MAX_BACKLOG + largest (sent s).
Proof.
  intros [_ _ Hk Hl _ _ _ Hp Hq]%script_reach_wf. split_and!; try done. rewrite Hk.
  apply total_nonneg in Hp. apply over_nonneg in Hq. lia.
Qed.

Lemma call_did s op p id s' :
  call s op p = Ok (id, s') ->
  id = next s /\ exists o, sent s' = sent s ++ [(id, o)] /\
  pending s' = <[id := mkPending (Natives.op_bytes o) p]> (pending s).
Proof.
  unfold call. destruct (_ && _); [done|]. destruct (native op) as [[o|] []]; try done. intros [= <- <-]. eauto.
Qed.

(** The methods that write. *)
Definition writes (l : label) : bool :=
  match l with LPut _ _ | LDelete _ | LDeleteAll | LSetAlarm _ | LDeleteAlarm => true | _ => false end.

Lemma tracked_waits s op id s' :
  tracked s op = (Promise id, s') -> exists b, pending s' !! id = Some (mkPending b Tracked).
Proof.
  unfold tracked, promised. destruct (call s op Tracked) as [[i s1]|[e s1]] eqn:E; [|done]. intros [= <- <-].
  apply call_did in E as (_ & o & _ & ->). exists (Natives.op_bytes o). apply lookup_insert_eq.
Qed.

Lemma writes_tracked s l id s' :
  writes l = true -> method l s = Some (Promise id, s') ->
  exists b, pending s' !! id = Some (mkPending b Tracked).
Proof.
  destruct l; simpl; intros Hw; try discriminate Hw; intros [= H].
  - unfold storage_put in H. case_match; [by eapply tracked_waits|done].
  - unfold storage_delete in H. case_match; [by eapply tracked_waits|done].
  - by eapply tracked_waits.
  - unfold storage_set_alarm in H. repeat case_match; try done; by eapply tracked_waits.
  - by eapply tracked_waits.
Qed.

(** C11: where the errors of callbacks have string messages, an object is broken exactly
    when the host rejected one of its tracked ops or a blockConcurrencyWhile callback threw;
    and every op a put, delete, deleteAll, setAlarm or deleteAlarm sends is tracked. *)
Theorem rejected_writes_break_the_object s :
  reach s -> jobs s = [] ->
  (forall e m, CBlock e ∈ causes s -> message e = Some m -> exists t, m = JString t) ->
  ((exists f, gate s = DurableObject.Broken f) <->
   (exists p e, (p, Err e) ∈ answered s /\ purpose p = Tracked) \/
   (exists e m, CBlock e ∈ causes s /\ message e = Some m)) /\
  (forall l id s', writes l = true -> method l s = Some (Promise id, s') ->
     exists b, pending s' !! id = Some (mkPending b Tracked)).
Proof.
  intros Hwf%script_reach_wf Hj Hs. split; [|apply writes_tracked]. setoid_rewrite gate_broken. rewrite (w_failure s Hwf).
  pose proof (w_rejected s Hwf) as Hr. rewrite Hj, app_nil_r in Hr.
  assert (forall e, CWrite e ∈ causes s <-> exists p, (p, Err e) ∈ answered s /\ purpose p = Tracked) as Hw.
  { intros e. transitivity (e ∈ omap write_cause (causes s)).
    - rewrite list_elem_of_omap. split; [by exists (CWrite e)|]. by intros ([?|?] & ? & [= <-]).
    - rewrite <-Hr, list_elem_of_omap. unfold rejected. split.
      + intros ([p [v|e']] & Hin & He); simpl in He; destruct (purpose p) eqn:Ep; simplify_eq. eauto.
      + intros (p & Hin & Hp). exists (p, Err e). simpl. by rewrite Hp. }
  rewrite failure_string.
  - split.
    + intros ([e|e] & m & Hc & Hm); [left|right; eauto]. apply Hw in Hc as (p & ? & ?). eauto.
    + intros [(p & e & H1 & H2)|(e & m & Hc & Hm)]; [|by exists (CBlock e), m].
      exists (CWrite e), (write_text e). split; [apply Hw; eauto|done].
  - intros [e|e] m Hc Hm; [by injection Hm as <-; eexists|by eapply Hs].
Qed.

(** What a method did: one op sent, which waits for its answer; or nothing; or, where the
    conversion of a field threw, an op nobody waits for. *)
Definition did (s : Script) (r : Answer * Script) : Prop :=
  match fst r with
  | Promise id =>
      id = next s /\ exists o p, sent (snd r) = sent s ++ [(id, o)] /\
      pending (snd r) = <[id := mkPending (Natives.op_bytes o) p]> (pending s)
  | Rejected e | Threw e => snd r = s \/ e = GuestThrew /\ exists o, snd r = forget s o
  end.

Lemma refused_did s op p e s' :
  call s op p = Err (e, s') -> s' = s \/ e = GuestThrew /\ exists o, s' = forget s o.
Proof.
  unfold call. destruct (_ && _); [intros [= _ <-]; by left|].
  destruct (native op) as [[o|] []]; intros [= <- <-]; eauto.
Qed.

Lemma read_refused s op e s' : read s op = Err (e, s') -> call s op Reading = Err (e, s').
Proof. unfold read. by destruct (call s op Reading) as [[??]|]. Qed.

Lemma read_did s op : did s (promised (read s op)).
Proof.
  destruct (read s op) as [[id s']|[e s']] eqn:E; [|by eapply refused_did, read_refused].
  unfold read in E. destruct (call s op Reading) as [[id1 s1]|] eqn:E1; [|done]. injection E as <- <-.
  apply call_did in E1 as (-> & o & H1 & H2). unfold did. simpl. eauto.
Qed.

Lemma called_did s op p : did s (promised (call s op p)).
Proof.
  destruct (call s op p) as [[id s']|[e s']] eqn:E; [|by eapply refused_did].
  apply call_did in E as (-> & o & H1 & H2). unfold did. simpl. eauto.
Qed.

Lemma tracked_did s op : did s (tracked s op).
Proof. apply called_did. Qed.

(** Whether the rejection is thrown makes no difference to what was done. *)
Lemma did_threw s r :
  did s (promised r) ->
  did s (match r with Ok (id, s') => (Promise id, s') | Err (e, s') => (Threw e, s') end).
Proof. by destruct r as [[??]|[??]]. Qed.

Hint Resolve read_did tracked_did : script.

(** Every method of the storage sends one op and answers its promise, or fails and leaves
    the object as it was, or sends an op whose promise it does not answer; sync is never
    refused. *)
Theorem storage_calls_send_one_op_or_nothing l s :
  (forall r, method l s = Some r -> did s r) /\ fst (storage_sync s) = Promise (next s).
Proof.
  split.
  - intros r. destruct l; simpl; intros [= <-]; try apply tracked_did.
    + unfold storage_get. destruct (key_list keys) as [k|e]; [apply read_did|by (unfold did; left)].
    + unfold storage_put. repeat case_match; try apply tracked_did; by (unfold did; left).
    + unfold storage_delete. repeat case_match; try apply tracked_did; by (unfold did; left).
    + apply read_did.
    + apply did_threw, called_did.
    + apply did_threw, read_did.
    + unfold storage_set_alarm. repeat case_match; try apply tracked_did; by (unfold did; left).
  - unfold storage_sync, call. rewrite andb_false_r, native_get. done.
Qed.

End Script.

(** ** A run *)

(** Conversions that know strings and numbers; a plain object without a message cannot be
    printed, as one without a prototype. *)
Definition demo_string (v : Js) : option string := match v with JNumber _ => Some "42"%string | _ => None end.
Definition demo_serialize (v : Js) : option (list Z) := match v with JFunction _ => None | _ => Some [0; 0; 0] end.

Notation demo_exec := (exec demo_string (fun _ _ => Some JUndefined) (fun _ => None) (fun z => z) (fun _ => true)
  demo_serialize (fun _ => Some []) (fun _ => None) (fun _ => true) Handlers.Int true).
Notation demo_reach := (reach demo_string (fun _ _ => Some JUndefined) (fun _ => None) (fun z => z) (fun _ => true)
  demo_serialize (fun _ => Some []) (fun _ => None) (fun _ => true) Handlers.Int true).
Notation demo_message := (message demo_string (fun _ _ => Some JUndefined) (fun _ => true)).

Definition demo (ls : list label) : Script := default initial (run_steps demo_exec initial ls).

Lemma script_demo_reachable ls : is_Some (run_steps demo_exec initial ls) -> demo_reach (demo ls).
Proof.
  intros [s Hs]. unfold demo. rewrite Hs. simpl. by apply (run_steps_reachable demo_exec (eq initial) initial ls).
Qed.

(** A callback blocks the object while it reads a key; a put is rejected by the host. *)
Definition demo_gate : list label :=
  [LBlock; LGet (JString "a"); LPut (JString "b") (JBool true); LSettle 2 (Err "disk"%string); LJob; LJob].

Lemma demo_gate_runs : is_Some (run_steps demo_exec initial demo_gate).
Proof. eexists. vm_compute. reflexivity. Qed.

Lemma gate_tells_what_waits_witness :
  jobs (demo demo_gate) = [] /\ is_blocked (demo demo_gate) = true /\ is_reading (demo demo_gate) = true /\
  gate (demo demo_gate) = DurableObject.Broken "a storage write failed: disk" /\
  (is_reading (demo demo_gate) = true <-> exists id p, pending (demo demo_gate) !! id = Some p /\ purpose p = Reading).
Proof.
  split_and!; try (vm_compute; reflexivity).
  destruct (gate_tells_what_waits _ _ _ _ _ _ _ _ _ _ _ (demo demo_gate) (script_demo_reachable _ demo_gate_runs) eq_refl)
    as (_ & H & _). exact H.
Defined.

Lemma backlog_is_bounded_witness :
  backlog (demo demo_gate) = 1 /\ 0 <= backlog (demo demo_gate) < MAX_BACKLOG + largest (sent (demo demo_gate)).
Proof.
  split; [vm_compute; reflexivity|].
  apply (backlog_is_bounded _ _ _ _ _ _ _ _ _ _ _ (demo demo_gate) (script_demo_reachable _ demo_gate_runs)).
Defined.

Lemma rejected_writes_break_the_object_witness :
  (mkPending 4 Tracked, Err "disk"%string) ∈ answered (demo demo_gate) /\
  exists f, gate (demo demo_gate) = DurableObject.Broken f.
Proof.
  assert ((mkPending 4 Tracked, Err "disk"%string) ∈ answered (demo demo_gate)) as Hin
    by (vm_compute; apply list_elem_of_here).
  split; [exact Hin|].
  apply (rejected_writes_break_the_object _ _ _ _ _ _ _ _ _ _ _ (demo demo_gate)
           (script_demo_reachable _ demo_gate_runs) eq_refl).
  - intros e m He. exfalso. vm_compute in He. apply list_elem_of_singleton in He. discriminate He.
  - left. exists (mkPending 4 Tracked), "disk"%string. by split.
Defined.

(** An error whose message is a number is no failure for the host, and hides the write that
    fails after it. *)
Definition odd_error : Js := JObject [("message"%string, Some (JNumber (Handlers.Int 42)))].

Example odd_errors_hide_failures :
  let s := demo [LBlock; LCallbackEnds 0 (Some odd_error); LJob;
                 LPut (JString "b") (JBool true); LSettle 1 (Err "disk"%string); LJob; LJob] in
  failure s = JNumber (Handlers.Int 42) /\ causes s = [CBlock odd_error; CWrite "disk"] /\
  gate s = DurableObject.GateState false false.
Proof. vm_compute. auto. Qed.

(** An error that cannot be printed leaves the object blocked with no callback running. *)
Example unprintable_errors_block_for_good :
  let s := demo [LBlock; LCallbackEnds 0 (Some (JObject [])); LJob] in
  demo_message (JObject []) = None /\ running s = ∅ /\ jobs s = [] /\
  gate s = DurableObject.GateState true false.
Proof. vm_compute. auto. Qed.

(** A key that is no string: [get] rejects, [delete] throws, [put] writes nothing and says
    it did. *)
Definition demo_method (l : label) : option (Answer * Script) :=
  method demo_string (fun _ => None) (fun z => z) demo_serialize (fun _ => Some []) (fun _ => None) (fun _ => true)
    Handlers.Int true l initial.
Definition number_key : Js := JNumber (Handlers.Int 42).

Example keys_that_are_no_strings :
  fst <$> demo_method (LGet number_key) = Some (Rejected NotAKey) /\
  fst <$> demo_method (LDelete number_key) = Some (Threw NotAKey) /\
  (fun r => (fst r, sent (snd r))) <$> demo_method (LPut number_key (JBool true)) =
    Some (Promise 0, [(0%nat, Natives.Write [] [] false)]).
Proof. vm_compute. auto. Qed.

(** A list whose prefix has no string rejects, and goes out all the same: the host reads
    the storage for a promise nobody has, with the gate open. *)
Example throwing_list_goes_out :
  let r := demo_method (LList (mkListOptions JUndefined JUndefined JUndefined (JFunction None) JUndefined JUndefined)) in
  (fun r => (fst r, sent (snd r), is_reading (snd r))) <$> r =
    Some (Rejected GuestThrew, [(0%nat, Natives.List None None None (Some ""%string) false None)], false).
Proof. vm_compute. reflexivity. Qed.

(** Past the limit deleteAll is refused, though it has neither keys nor values. *)
Example full_backlog_refuses_delete_all :
  let s := set_counters initial 0 0 MAX_BACKLOG in
  fst (storage_delete_all demo_string (fun _ => None) (fun z => z) demo_serialize s) = Rejected BacklogFull /\
  fst (storage_delete_alarm demo_string (fun _ => None) (fun z => z) demo_serialize s) = Promise 0.
Proof. vm_compute. auto. Qed.

End ObjectScript.
