(* ===== verification/Transactions.v ===== *)
(** * Transactions of a Durable Object (src/src/js/durable_object.js, [storage.transaction])

    A transaction runs a closure over a [txn] object. Writes stay in two local collections,
    [puts] and [deletes]; reads see them first and ask the storage for the rest; when the
    closure ends they leave as one write, unless it threw or rolled back. The reference is
    the closure run on a copy of the store, which replaces the store at the end.

    The closure is guest code: a program whose next step depends on what it was answered.
    The storage of the host is a class: what a key holds and what a write changes. *)

From stdpp Require Import base list gmap strings.
From Stdlib Require Import ZArith Lia.
From S2P Require Import Prelude Handlers Readers ObjectScript.

Module Transactions.
Import Readers.

(** ** Maps of JavaScript: the order of insertion, one entry per key *)

Notation JsMap := (list (string * Js)).

Fixpoint map_get (m : JsMap) (k : string) : option Js :=
  match m with [] => None | (k', v) :: m => if String.eqb k k' then Some v else map_get m k end.

Definition map_has (m : JsMap) (k : string) : bool := bool_decide (is_Some (map_get m k)).

Fixpoint map_set (m : JsMap) (k : string) (v : Js) : JsMap :=
  match m with
  | [] => [(k, v)]
  | (k', v') :: m => if String.eqb k k' then (k', v) :: m else (k', v') :: map_set m k v
  end.

Definition map_delete (m : JsMap) (k : string) : JsMap := filter (fun e => e.1 <> k) m.

(** A Set: [add] and [delete]. *)
Definition set_add (l : list string) (k : string) : list string := if decide (k ∈ l) then l else l ++ [k].
Definition set_delete (l : list string) (k : string) : list string := filter (fun k' => k' <> k) l.

Definition defined (v : Js) : bool := match v with JUndefined => false | _ => true end.

(** The Map a get of several keys answers: those that hold a value. *)
Definition found_of (value : string -> Js) (keys : list string) : JsMap :=
  foldl (fun m k => if defined (value k) then map_set m k (value k) else m) [] keys.

Lemma map_get_set m k v k' : map_get (map_set m k v) k' = if String.eqb k' k then Some v else map_get m k'.
Proof.
  induction m as [|[k1 v1] m IH]; simpl; [done|].
  destruct (String.eqb_spec k k1) as [->|Hne]; simpl; [by destruct (String.eqb k' k1)|].
  rewrite IH. destruct (String.eqb_spec k' k1) as [->|]; [|done]. by destruct (String.eqb_spec k1 k) as [->|].
Qed.

Lemma map_get_delete m k k' : map_get (map_delete m k) k' = if String.eqb k' k then None else map_get m k'.
Proof.
  unfold map_delete. induction m as [|[k1 v1] m IH]; [by simpl; destruct (String.eqb k' k)|].
  rewrite filter_cons. cbn [fst map_get]. case_decide as Hk; cbn [map_get]; rewrite IH.
  - destruct (String.eqb_spec k' k1), (String.eqb_spec k' k); naive_solver.
  - assert (k1 = k) as <- by (destruct (decide (k1 = k)); [done|by destruct Hk]). by destruct (String.eqb k' k1).
Qed.

Lemma map_get_elem m k v : NoDup m.*1 -> (k, v) ∈ m <-> map_get m k = Some v.
Proof.
  induction m as [|[k1 v1] m IH]; simpl; intros Hnd; [split; [by intros ?%not_elem_of_nil|done]|].
  apply NoDup_cons in Hnd as [Hn Hnd]. rewrite elem_of_cons, (IH Hnd).
  destruct (String.eqb_spec k k1) as [->|Hne]; [|naive_solver]. split; [|naive_solver].
  intros [[= ->]|Hm]; [done|]. apply (IH Hnd) in Hm. destruct Hn. by apply (list_elem_of_fmap_2' fst m _ _ Hm).
Qed.

Lemma map_get_None m k : map_get m k = None <-> k ∉ m.*1.
Proof.
  induction m as [|[k1 v1] m IH]; simpl; [split; [intros _; apply not_elem_of_nil|done]|].
  rewrite not_elem_of_cons. destruct (String.eqb_spec k k1) as [->|Hne]; naive_solver.
Qed.

Lemma map_set_keys m k v : (map_set m k v).*1 = if decide (k ∈ m.*1) then m.*1 else m.*1 ++ [k].
Proof.
  induction m as [|[k1 v1] m IH]; [done|]. cbn [map_set]. rewrite !fmap_cons.
  destruct (String.eqb_spec k k1) as [->|Hne].
  - rewrite decide_True by apply list_elem_of_here. done.
  - rewrite fmap_cons, IH. cbn [fst]. repeat case_decide; set_solver.
Qed.

Lemma map_delete_keys m k : (map_delete m k).*1 = set_delete m.*1 k.
Proof.
  unfold map_delete, set_delete. induction m as [|[k1 v1] m IH]; [done|].
  rewrite fmap_cons, !filter_cons. cbn [fst]. case_decide; [|done]. by rewrite fmap_cons, IH.
Qed.

(** Keys stay unique, and a key is never in both collections. *)
Lemma set_add_elem l k k' : k' ∈ set_add l k <-> k' ∈ l \/ k' = k.
Proof. unfold set_add. case_decide; set_solver. Qed.

Lemma set_delete_elem l k k' : k' ∈ set_delete l k <-> k' ∈ l /\ k' <> k.
Proof. unfold set_delete. rewrite list_elem_of_filter. tauto. Qed.

Lemma set_add_NoDup l k : NoDup l -> NoDup (set_add l k).
Proof. unfold set_add. case_decide; [done|]. intros ?. apply NoDup_app. split_and!; [done|set_solver|apply NoDup_singleton]. Qed.

(** What a get of several keys found. *)
Lemma map_get_found f keys : forall m k,
  map_get (foldl (fun m k => if defined (f k) then map_set m k (f k) else m) m keys) k =
  if decide (k ∈ keys) then (if defined (f k) then Some (f k) else map_get m k) else map_get m k.
Proof.
  induction keys as [|k1 keys IH]; intros m k; [done|]. cbn [foldl]. rewrite IH. destruct (decide (k = k1)) as [->|Hne].
  - rewrite (decide_True (P := k1 ∈ k1 :: keys)) by apply list_elem_of_here.
    destruct (defined (f k1)) eqn:Ed; simpl; [|by case_decide].
    rewrite map_get_set, String.eqb_refl. by case_decide.
  - assert (map_get (if defined (f k1) then map_set m k1 (f k1) else m) k = map_get m k) as ->.
    { destruct (defined (f k1)); [|done]. rewrite map_get_set. by destruct (String.eqb_spec k k1). }
    repeat case_decide; set_solver.
Qed.

(** ** The storage of the host *)

Class Storage (Store : Type) := {
  held : Store -> string -> Js;                               (* what a get of the key answers *)
  write : Store -> JsMap -> list string -> Store              (* one atomic write *)
}.

(** What is written is read back; [written] are the values that survive serialization. *)
Class StorageLaws (Store : Type) `{Storage Store} (written : Js -> Prop) : Prop := {
  held_put : forall s puts deletes k v,
    NoDup puts.*1 -> (k, v) ∈ puts -> k ∉ deletes -> written v -> held (write s puts deletes) k = v;
  held_deleted : forall s puts deletes k,
    k ∉ puts.*1 -> k ∈ deletes -> held (write s puts deletes) k = JUndefined;
  held_other : forall s puts deletes k,
    k ∉ puts.*1 -> k ∉ deletes -> held (write s puts deletes) k = held s k
}.

(** ** Closures *)

Inductive Error := Storage_ (e : ObjectScript.Error) | Host | Unsupported (name : string) | Guest (e : Js).

Inductive Found := One (v : Js) | Many (m : JsMap).
Inductive Deleted := Whether (b : bool) | Count (n : nat).

Inductive Closure (A : Type) :=
| Return (a : A)
| Throw (e : Js)
| Get (keys : Js) (k : result Found Error -> Closure A)
| Put (key_or_entries value : Js) (k : result unit Error -> Closure A)
| Delete (keys : Js) (k : result Deleted Error -> Closure A)
| ListKeys (k : Error -> Closure A)
| GetAlarm (k : result Js Error -> Closure A)
| SetAlarm (k : Error -> Closure A)
| DeleteAlarm (k : Error -> Closure A)
| Rollback (k : Closure A).
Arguments Return {A}.
Arguments Throw {A}.
Arguments Get {A}.
Arguments Put {A}.
Arguments Delete {A}.
Arguments ListKeys {A}.
Arguments GetAlarm {A}.
Arguments SetAlarm {A}.
Arguments DeleteAlarm {A}.
Arguments Rollback {A}.

(** What the closure of [transaction] holds. *)
Record Local := mkLocal { puts : JsMap; deletes : list string; rolledBack : bool }.
Definition empty : Local := mkLocal [] [] false.

Section Transactions.

Context {Store : Type} `{Storage Store}.
(** [structuredClone], [None] where it throws; [Object.entries] as in ObjectScript.v. *)
Context (clone : Js -> option Js) (entries_other : Js -> option (list (string * Js))).
(** The n-th storage op of the transaction: the store as the host has it then and its
    alarm, or [None] for an op that is refused, fails in the host, or cannot be sent. *)
Context (host : nat -> option (Store * Js)).

(** [storage.get], the [n]-th op; a key that is no string is found before it is sent. *)
Definition storage_get (n : nat) (keys : Js) : result Found Error * nat :=
  match ObjectScript.key_list keys with
  | Err e => (Err (Storage_ e), n)
  | Ok l =>
      (match host n with
       | None => Err Host
       | Some (s, _) =>
           Ok (match keys with
               | JArray _ => Many (found_of (held s) l)
               | _ => One (held s (default ""%string (head l)))
               end)
       end, S n)
  end.

Definition has (l : Local) (key : Js) : bool :=
  match key with JString k => map_has (puts l) k || bool_decide (k ∈ deletes l) | _ => false end.

(** [local], whose clone can throw. *)
Definition local (l : Local) (k : string) : result Js Error :=
  match map_get (puts l) k with
  | None => Ok JUndefined
  | Some v => match clone v with Some w => Ok w | None => Err (Storage_ ObjectScript.NotCloned) end
  end.

(** The loop of [get] over its keys, which are strings by then. *)
Fixpoint gather (l : Local) (stored : JsMap) (keys : list string) (found : JsMap) : result JsMap Error :=
  match keys with
  | [] => Ok found
  | k :: keys =>
      let? v := (if map_has (puts l) k then local l k else Ok (default JUndefined (map_get stored k))) in
      gather l stored keys (if defined v then map_set found k v else found)
  end.

Definition strings_of (keys : list Js) : list string :=
  omap (fun k => match k with JString s => Some s | _ => None end) keys.

(** [txn.get] *)
Definition txn_get (l : Local) (n : nat) (keys : Js) : result Found Error * nat :=
  match keys with
  | JArray ks =>
      let asked := filter (fun k => has l k = false) ks in
      match storage_get n (JArray asked) with
      | (Ok (Many stored), n) => ((let? m := gather l stored (strings_of ks) [] in Ok (Many m)), n)
      | (Ok (One v), n) => (Ok (One v), n)
      | (Err e, n) => (Err e, n)
      end
  | _ =>
      if has l keys
      then ((let? v := local l (default ""%string (match keys with JString k => Some k | _ => None end)) in Ok (One v)), n)
      else storage_get n keys
  end.

(** The loop of [txn.put]: the entries before one that cannot be cloned stay. *)
Fixpoint put_entries (l : Local) (entries : list (string * Js)) : result unit Error * Local :=
  match entries with
  | [] => (Ok tt, l)
  | (k, v) :: entries =>
      match clone v with
      | None => (Err (Storage_ ObjectScript.NotCloned), l)
      | Some w => put_entries (mkLocal (map_set (puts l) k w) (set_delete (deletes l) k) (rolledBack l)) entries
      end
  end.

Definition put_args (key_or_entries value : Js) : option (list (string * Js)) :=
  match key_or_entries with
  | JString k => Some [(k, value)]
  | v => ObjectScript.entries_of entries_other v
  end.

Definition txn_put (l : Local) (key_or_entries value : Js) : result unit Error * Local :=
  match put_args key_or_entries value with
  | None => (Err (Storage_ ObjectScript.GuestThrew), l)
  | Some entries => put_entries l entries
  end.

Definition delete_keys (l : Local) (keys : list string) : Local :=
  foldl (fun l k => mkLocal (map_delete (puts l) k) (set_add (deletes l) k) (rolledBack l)) l keys.

Definition deleted (keys : Js) (stored : JsMap) : Deleted :=
  match keys with JArray _ => Count (length stored) | _ => Whether (0 <? length stored)%nat end.

(** [txn.delete] *)
Definition txn_delete (l : Local) (n : nat) (keys : Js) : result Deleted Error * Local * nat :=
  match ObjectScript.key_list keys with
  | Err e => (Err (Storage_ e), l, n)
  | Ok list =>
      match txn_get l n (JArray (JString <$> list)) with
      | (Err e, n) => (Err e, l, n)
      | (Ok (Many stored), n) => (Ok (deleted keys stored), delete_keys l list, n)
      | (Ok (One _), n) => (Err Host, l, n)
      end
  end.

(** The closure, from the [n]-th op on. *)
Fixpoint run {A} (c : Closure A) (l : Local) (n : nat) : result A Error * Local * nat :=
  match c with
  | Return a => (Ok a, l, n)
  | Throw e => (Err (Guest e), l, n)
  | Get keys k => let '(r, n) := txn_get l n keys in run (k r) l n
  | Put key v k => let '(r, l) := txn_put l key v in run (k r) l n
  | Delete keys k => let '(r, l, n) := txn_delete l n keys in run (k r) l n
  | ListKeys k => run (k (Unsupported "list")) l n
  | GetAlarm k => run (k (match host n with Some (_, a) => Ok a | None => Err Host end)) l (S n)
  | SetAlarm k => run (k (Unsupported "setAlarm")) l n
  | DeleteAlarm k => run (k (Unsupported "deleteAlarm")) l n
  | Rollback k => run k (mkLocal (puts l) (deletes l) true) n
  end.

Definition is_empty (l : Local) : bool :=
  match puts l, deletes l with [], [] => true | _, _ => false end.

(** [transaction]: what it answers, and the write the host took, with the store it met. *)
Definition transaction {A} (c : Closure A) : result A Error * option (Store * JsMap * list string) :=
  match run c empty 0 with
  | (Err e, _, _) => (Err e, None)
  | (Ok a, l, n) =>
      if negb (rolledBack l) && negb (is_empty l) then
        match host n with
        | None => (Err Host, None)
        | Some (s, _) => (Ok a, Some (s, puts l, deletes l))
        end
      else (Ok a, None)
  end.

(** ** The reference: the closure on a copy of the store *)

Definition copy := string -> Js.
Definition put_copy (f : copy) (k : string) (v : Js) : copy := fun k' => if String.eqb k' k then v else f k'.

Definition ref_get (f : copy) (keys : Js) : result Found Error :=
  match ObjectScript.key_list keys with
  | Err e => Err (Storage_ e)
  | Ok l =>
      Ok (match keys with JArray _ => Many (found_of f l) | _ => One (f (default ""%string (head l))) end)
  end.

Fixpoint ref_put (f : copy) (entries : list (string * Js)) : result unit Error * copy :=
  match entries with
  | [] => (Ok tt, f)
  | (k, v) :: entries =>
      match clone v with
      | None => (Err (Storage_ ObjectScript.NotCloned), f)
      | Some w => ref_put (put_copy f k w) entries
      end
  end.

Definition ref_delete (f : copy) (keys : Js) : result Deleted Error * copy :=
  match ObjectScript.key_list keys with
  | Err e => (Err (Storage_ e), f)
  | Ok l => (Ok (deleted keys (found_of f l)), foldl (fun f k => put_copy f k JUndefined) f l)
  end.

Fixpoint ref_run {A} (alarm : Js) (c : Closure A) (f : copy) (back : bool) : result A Error * copy * bool :=
  match c with
  | Return a => (Ok a, f, back)
  | Throw e => (Err (Guest e), f, back)
  | Get keys k => ref_run alarm (k (ref_get f keys)) f back
  | Put key v k =>
      let '(r, f) := match put_args key v with
                     | None => (Err (Storage_ ObjectScript.GuestThrew), f)
                     | Some entries => ref_put f entries
                     end in
      ref_run alarm (k r) f back
  | Delete keys k => let '(r, f) := ref_delete f keys in ref_run alarm (k r) f back
  | ListKeys k => ref_run alarm (k (Unsupported "list")) f back
  | GetAlarm k => ref_run alarm (k (Ok alarm)) f back
  | SetAlarm k => ref_run alarm (k (Unsupported "setAlarm")) f back
  | DeleteAlarm k => ref_run alarm (k (Unsupported "deleteAlarm")) f back
  | Rollback k => ref_run alarm k f true
  end.

Definition reference {A} (alarm : Js) (c : Closure A) (f : copy) : result A Error * copy :=
  match ref_run alarm c f false with
  | (Ok a, f', false) => (Ok a, f')
  | (r, _, _) => (r, f)
  end.

(** What the keys hold after the write of a transaction. *)
Definition after (s : Store) (w : option (Store * JsMap * list string)) : Store :=
  match w with None => s | Some (s', puts, deletes) => write s' puts deletes end.

(** ** The local collections *)

Hypothesis clone_again : forall v w, clone v = Some w -> clone w = Some w.

Record local_ok (l : Local) : Prop := {
  lo_puts : NoDup (puts l).*1;
  lo_deletes : NoDup (deletes l);
  lo_apart : forall k, k ∈ (puts l).*1 -> k ∉ deletes l;
  lo_cloned : forall k v, map_get (puts l) k = Some v -> clone v = Some v
}.

Lemma empty_ok : local_ok empty.
Proof. split; simpl; try done; [apply NoDup_nil_2|apply NoDup_nil_2|intros ? ?%not_elem_of_nil; done]. Qed.

Lemma put_ok l k v w :
  local_ok l -> clone v = Some w ->
  local_ok (mkLocal (map_set (puts l) k w) (set_delete (deletes l) k) (rolledBack l)).
Proof.
  intros [H1 H2 H3 H4] Hc. split; simpl.
  - rewrite map_set_keys. case_decide; [done|]. apply NoDup_app. split_and!; [done|set_solver|apply NoDup_singleton].
  - by apply NoDup_filter.
  - intros k'. rewrite map_set_keys, set_delete_elem. intros Hin [Hd Hne]. apply (H3 k'); [|done].
    case_decide; set_solver.
  - intros k' v'. rewrite map_get_set. destruct (String.eqb k' k); [|by apply H4]. intros [= <-]. by eapply clone_again.
Qed.

Lemma put_entries_ok entries : forall l, local_ok l -> local_ok (snd (put_entries l entries)).
Proof.
  induction entries as [|[k v] entries IH]; intros l Hl; simpl; [done|].
  destruct (clone v) as [w|] eqn:Hc; [|done]. by apply IH, (put_ok l k v).
Qed.

Lemma delete_keys_ok keys : forall l, local_ok l -> local_ok (delete_keys l keys).
Proof.
  unfold delete_keys. induction keys as [|k keys IH]; intros l Hl; cbn [foldl]; [done|]. apply IH.
  destruct Hl as [H1 H2 H3 H4]. split; simpl.
  - rewrite map_delete_keys. by apply NoDup_filter.
  - by apply set_add_NoDup.
  - intros k'. rewrite map_delete_keys, set_delete_elem, set_add_elem. intros [Hp Hne] [Hd| ->]; [|done].
    by apply (H3 k').
  - intros k' v'. rewrite map_get_delete. destruct (String.eqb k' k); [done|]. apply H4.
Qed.

Lemma run_ok {A} (c : Closure A) : forall l n, local_ok l -> local_ok (snd (fst (run c l n))).
Proof.
  induction c as [a|e|keys k IH|key v k IH|keys k IH|k IH|k IH|k IH|k IH|k IH]; intros l n Hl; cbn [run]; try done.
  - destruct (txn_get l n keys). by apply IH.
  - unfold txn_put. destruct (put_args key v) as [entries|]; [|by apply IH].
    pose proof (put_entries_ok entries l Hl). destruct (put_entries l entries). by apply IH.
  - unfold txn_delete. destruct (ObjectScript.key_list keys) as [ks|]; [|by apply IH].
    destruct (txn_get l n _) as [[[v|m]|e] n']; apply IH; try done. by apply delete_keys_ok.
  - by apply IH.
  - by apply IH.
  - by apply IH.
  - by apply IH.
  - apply IH. by destruct Hl.
Qed.

(** ** Simulation *)

Section Alone.
(** Nothing else writes while the transaction runs, and the host answers its ops. *)
Context (s : Store) (alarm : Js) (alone : forall n, host n = Some (s, alarm)).

Definition sim (l : Local) (f : copy) : Prop :=
  forall k, f k = match map_get (puts l) k with
                  | Some v => v
                  | None => if decide (k ∈ deletes l) then JUndefined else held s k
                  end.

Lemma sim_put l f k v : sim l f -> sim (mkLocal (map_set (puts l) k v) (set_delete (deletes l) k) (rolledBack l)) (put_copy f k v).
Proof.
  intros Hs k'. simpl. unfold put_copy. rewrite map_get_set. destruct (String.eqb_spec k' k) as [|Hne]; [done|].
  rewrite Hs. destruct (map_get (puts l) k'); [done|].
  by rewrite (decide_ext (k' ∈ set_delete (deletes l) k) (k' ∈ deletes l)) by (rewrite set_delete_elem; tauto).
Qed.

Lemma sim_delete l f k :
  sim l f -> sim (mkLocal (map_delete (puts l) k) (set_add (deletes l) k) (rolledBack l)) (put_copy f k JUndefined).
Proof.
  intros Hs k'. simpl. unfold put_copy. rewrite map_get_delete. destruct (String.eqb_spec k' k) as [->|Hne].
  - rewrite decide_True; [done|]. apply set_add_elem. by right.
  - rewrite Hs. destruct (map_get (puts l) k'); [done|].
    by rewrite (decide_ext (k' ∈ set_add (deletes l) k) (k' ∈ deletes l)) by (rewrite set_add_elem; tauto).
Qed.

Lemma sim_put_entries entries : forall l f,
  sim l f -> fst (put_entries l entries) = fst (ref_put f entries) /\
             sim (snd (put_entries l entries)) (snd (ref_put f entries)) /\
             rolledBack (snd (put_entries l entries)) = rolledBack l.
Proof.
  induction entries as [|[k v] entries IH]; intros l f Hs; simpl; [done|].
  destruct (clone v) as [w|]; [|done]. destruct (IH _ _ (sim_put l f k w Hs)) as (-> & Hs' & ->). done.
Qed.

Lemma sim_delete_keys keys : forall l f,
  sim l f -> sim (delete_keys l keys) (foldl (fun f k => put_copy f k JUndefined) f keys) /\
             rolledBack (delete_keys l keys) = rolledBack l.
Proof.
  unfold delete_keys. induction keys as [|k keys IH]; intros l f Hs; cbn [foldl]; [done|].
  destruct (IH _ _ (sim_delete l f k Hs)) as [? ->]. done.
Qed.

(** A key in the collections is read from them. *)
Lemma local_reads l f k : local_ok l -> sim l f -> has l (JString k) = true -> local l k = Ok (f k).
Proof.
  intros Hl Hs Hh. unfold local. rewrite Hs. simpl in Hh. unfold map_has in Hh.
  destruct (map_get (puts l) k) as [v|] eqn:E; [by rewrite (lo_cloned _ Hl _ _ E)|].
  rewrite bool_decide_eq_false_2 in Hh by by intros [??]. apply bool_decide_eq_true in Hh. by rewrite decide_True.
Qed.

Lemma stored_reads l f k : sim l f -> has l (JString k) = false -> held s k = f k.
Proof.
  intros Hs Hh. rewrite Hs. simpl in Hh. unfold map_has in Hh. apply orb_false_iff in Hh as [H1 H2].
  apply bool_decide_eq_false in H1, H2. apply eq_None_not_Some in H1 as ->. by rewrite decide_False.
Qed.

Lemma keysOf_strings ks l : ObjectScript.keysOf ks = Ok l -> ks = JString <$> l /\ strings_of ks = l.
Proof.
  revert l. induction ks as [|k ks IH]; intros l; simpl; [by intros [= <-]|].
  destruct k; simpl; try done. destruct (ObjectScript.keysOf ks) as [l'|]; simpl; [|done].
  intros [= <-]. destruct (IH l' eq_refl) as [H1 H2]. split; [by rewrite H1|]. unfold strings_of in *. simpl. by rewrite H2.
Qed.

Lemma keysOf_asked l ks ks' :
  ObjectScript.keysOf ks = Ok ks' ->
  ObjectScript.keysOf (filter (fun k => has l k = false) ks) = Ok (filter (fun k => has l (JString k) = false) ks').
Proof.
  revert ks'. induction ks as [|k ks IH]; intros ks'; [by intros [= <-]|]. cbn [ObjectScript.keysOf].
  destruct k; cbn [ObjectScript.keyOf result_bind]; try done.
  destruct (ObjectScript.keysOf ks) as [l'|]; cbn [result_bind]; [|done]. intros [= <-].
  rewrite !filter_cons. case_decide; [|by apply IH]. cbn [ObjectScript.keysOf ObjectScript.keyOf result_bind].
  by rewrite (IH l' eq_refl).
Qed.

Lemma keysOf_fmap l : ObjectScript.keysOf (JString <$> l) = Ok l.
Proof. induction l as [|k l IH]; simpl; [done|]. change (list_fmap _ _ JString l) with (JString <$> l). by rewrite IH. Qed.

Lemma keysOf_filter l ks e : ObjectScript.keysOf ks = Err e -> ObjectScript.keysOf (filter (fun k => has l k = false) ks) = Err e.
Proof.
  induction ks as [|k ks IH]; [done|]. rewrite filter_cons. cbn [ObjectScript.keysOf].
  destruct (ObjectScript.keyOf k) as [k'|e'] eqn:Ek; simpl.
  - destruct (ObjectScript.keysOf ks) as [l'|] eqn:Er; simpl; [done|]. intros [= <-]. specialize (IH eq_refl).
    case_decide; [|done]. cbn [ObjectScript.keysOf]. by rewrite Ek, IH.
  - intros [= <-]. rewrite decide_True by (destruct k; done). cbn [ObjectScript.keysOf]. by rewrite Ek.
Qed.

Lemma gather_reads l f asked keys : forall found,
  local_ok l -> sim l f ->
  (forall k, k ∈ keys -> has l (JString k) = false -> k ∈ asked) ->
  (forall k, k ∈ asked -> has l (JString k) = false) ->
  gather l (found_of (held s) asked) keys found =
  Ok (foldl (fun m k => if defined (f k) then map_set m k (f k) else m) found keys).
Proof.
  induction keys as [|k keys IH]; intros found Hl Hs Ha Hb; cbn [gather foldl]; [done|].
  assert ((if map_has (puts l) k then local l k
           else Ok (default JUndefined (map_get (found_of (held s) asked) k))) = Ok (f k)) as ->.
  { destruct (map_has (puts l) k) eqn:Eh; [apply local_reads; try done; simpl; by rewrite Eh|].
    f_equal. unfold found_of. rewrite map_get_found. cbn [map_get].
    destruct (has l (JString k)) eqn:Ek.
    - simpl in Ek. rewrite Eh in Ek. simpl in Ek. apply bool_decide_eq_true in Ek.
      rewrite Hs. unfold map_has in Eh. apply bool_decide_eq_false, eq_None_not_Some in Eh as ->.
      rewrite (decide_True (P := k ∈ deletes l)) by done.
      case_decide as Hk; [|done]. apply Hb in Hk. simpl in Hk. by rewrite (bool_decide_eq_true_2 (k ∈ deletes l)), orb_true_r in Hk.
    - rewrite decide_True by (apply Ha; [apply list_elem_of_here|done]). rewrite (stored_reads l f k) by done.
      by destruct (f k). }
  cbn [result_bind]. apply IH; try done. intros k' Hk'. apply Ha. by apply list_elem_of_further.
Qed.

Lemma get_sim l f n keys :
  local_ok l -> sim l f -> fst (txn_get l n keys) = ref_get f keys.
Proof.
  intros Hl Hs.
  assert (forall k, (if has l (JString k) then
              ((let? v := local l k in Ok (One v)), n) else storage_get n (JString k)).1 = Ok (One (f k))) as Hone.
  { intros k. destruct (has l (JString k)) eqn:Eh; [by rewrite (local_reads l f k)|].
    unfold storage_get. simpl. rewrite alone. simpl. by rewrite (stored_reads l f k). }
  destruct keys; cbn [txn_get has]; try done; [apply (Hone s0)|].
  unfold ref_get, storage_get. cbn [ObjectScript.key_list].
  destruct (ObjectScript.keysOf l0) as [ks|e] eqn:Ek.
  - rewrite (keysOf_asked l _ _ Ek), alone. apply keysOf_strings in Ek as [_ ->].
    rewrite (gather_reads l f); [done|done|done| |].
    + intros k Hk Hh. by apply list_elem_of_filter.
    + intros k Hk. by apply list_elem_of_filter in Hk as [? _].
  - by rewrite (keysOf_filter l _ _ Ek).
Qed.

Lemma delete_sim l f n keys :
  local_ok l -> sim l f ->
  fst (fst (txn_delete l n keys)) = fst (ref_delete f keys) /\
  sim (snd (fst (txn_delete l n keys))) (snd (ref_delete f keys)) /\
  rolledBack (snd (fst (txn_delete l n keys))) = rolledBack l.
Proof.
  intros Hl Hs. unfold txn_delete, ref_delete. destruct (ObjectScript.key_list keys) as [ks|e]; [|done].
  pose proof (get_sim l f n (JArray (JString <$> ks)) Hl Hs) as Hg. unfold ref_get in Hg.
  cbn [ObjectScript.key_list] in Hg. rewrite keysOf_fmap in Hg.
  destruct (txn_get l n _) as [[[v|m]|e] n']; cbn [fst] in Hg; try done. injection Hg as ->.
  destruct (sim_delete_keys ks l f Hs). done.
Qed.

(** The closure sees the same answers on both sides, and ends on the same contents. *)
Lemma run_sim {A} (c : Closure A) : forall l n f,
  local_ok l -> sim l f ->
  fst (fst (run c l n)) = fst (fst (ref_run alarm c f (rolledBack l))) /\
  sim (snd (fst (run c l n))) (snd (fst (ref_run alarm c f (rolledBack l)))) /\
  rolledBack (snd (fst (run c l n))) = snd (ref_run alarm c f (rolledBack l)).
Proof.
  induction c as [a|e|keys k IH|key v k IH|keys k IH|k IH|k IH|k IH|k IH|k IH]; intros l n f Hl Hs;
    cbn [run ref_run]; try done; try (by apply IH).
  - pose proof (get_sim l f n keys Hl Hs) as Hg. destruct (txn_get l n keys) as [r n']. simpl in Hg. subst r. by apply IH.
  - unfold txn_put. destruct (put_args key v) as [entries|]; [|by apply IH].
    pose proof (put_entries_ok entries l Hl) as Ho. destruct (sim_put_entries entries l f Hs) as (H1 & H2 & H3).
    destruct (put_entries l entries) as [r l'], (ref_put f entries) as [r' f']. simpl in *. subst r'. rewrite <-H3.
    by apply IH.
  - destruct (delete_sim l f n keys Hl Hs) as (H1 & H2 & H3).
    pose proof (run_ok (Delete keys (fun _ => Return tt)) l n Hl) as Ho. cbn [run] in Ho.
    destruct (txn_delete l n keys) as [[r l'] n'], (ref_delete f keys) as [r' f']. simpl in *. subst r'. rewrite <-H3.
    by apply IH.
  - rewrite alone. by apply IH.
  - apply (IH (mkLocal (puts l) (deletes l) true)); [by destruct Hl|done].
Qed.

(** What the write of a transaction leaves in the store, whatever the store is by then. *)
Lemma held_after `{!StorageLaws Store (fun v => clone v = Some v)} s' l k :
  local_ok l ->
  held (write s' (puts l) (deletes l)) k =
  match map_get (puts l) k with
  | Some v => v
  | None => if decide (k ∈ deletes l) then JUndefined else held s' k
  end.
Proof.
  intros Hl. destruct (map_get (puts l) k) as [v|] eqn:E.
  - assert ((k, v) ∈ puts l) as Hin by (apply map_get_elem; [by apply lo_puts|done]).
    apply held_put; [by apply lo_puts|done| |by eapply lo_cloned].
    apply (lo_apart _ Hl). apply list_elem_of_fmap. by exists (k, v).
  - apply map_get_None in E. case_decide; [by apply held_deleted|by apply held_other].
Qed.

End Alone.

(** C9: a transaction that nothing else writes beside is its closure run on a copy of the
    store: every read sees the writes before it, it answers the same, and afterwards the
    store holds what the copy holds, or what it held before if the closure threw or rolled
    back. *)
Theorem transaction_equiv {A} `{!StorageLaws Store (fun v => clone v = Some v)} (s : Store) (alarm : Js)
    (c : Closure A) :
  (forall n, host n = Some (s, alarm)) ->
  fst (transaction c) = fst (reference alarm c (held s)) /\
  forall k, held (after s (snd (transaction c))) k = snd (reference alarm c (held s)) k.
Proof.
  intros Hh. destruct (run_sim s alarm Hh c empty 0 (held s) empty_ok) as (H1 & H2 & H3); [by intros k|].
  pose proof (run_ok c empty 0 empty_ok) as Hl. unfold transaction, reference. simpl in H1, H2, H3.
  destruct (run c empty 0) as [[r l] n], (ref_run alarm c (held s) false) as [[r' f] b]. simpl in *. subst r' b.
  destruct r as [a|e]; [|done]. destruct (rolledBack l); [done|]. simpl.
  destruct (is_empty l) eqn:Ee; simpl.
  - split; [done|]. intros k. rewrite H2. unfold is_empty in Ee.
    destruct (puts l), (deletes l); try done.
  - rewrite Hh. split; [done|]. intros k. rewrite H2. simpl. by apply held_after.
Qed.

(** Whatever else writes meanwhile, a transaction changes the store by at most one
    write, and by none unless it succeeds; the write has each key once, to put or to
    delete, and leaves every other key as it is by then. *)
Theorem transaction_writes_once {A} `{!StorageLaws Store (fun v => clone v = Some v)} (c : Closure A) :
  match transaction c with
  | (r, None) => True
  | (r, Some (s, puts, deletes)) =>
      is_ok r = true /\ NoDup (puts.*1 ++ deletes) /\
      (exists n alarm, host n = Some (s, alarm)) /\
      snd (fst (run c empty 0)) = mkLocal puts deletes false /\
      (forall k v, (k, v) ∈ puts -> held (write s puts deletes) k = v) /\
      (forall k, k ∈ deletes -> held (write s puts deletes) k = JUndefined) /\
      (forall k, k ∉ puts.*1 ++ deletes -> held (write s puts deletes) k = held s k)
  end.
Proof.
  pose proof (run_ok c empty 0 empty_ok) as Hl. unfold transaction.
  destruct (run c empty 0) as [[[a|e] l] n]; simpl in *; [|done].
  destruct (rolledBack l) eqn:Er; simpl; [done|]. destruct (is_empty l); simpl; [done|].
  destruct (host n) as [[s alarm]|] eqn:Eh; [|done].
  pose proof (held_after s l) as Ha. split_and!.
  - done.
  - apply NoDup_app. split_and!; [by apply lo_puts|by apply lo_apart|by apply lo_deletes].
  - eauto.
  - destruct l. simpl in *. by subst.
  - intros k v Hkv. rewrite Ha by done. apply map_get_elem in Hkv; [by rewrite Hkv|by apply lo_puts].
  - intros k Hk. rewrite Ha by done. rewrite (proj2 (map_get_None _ _)); [by rewrite decide_True|].
    intros Hp. by apply (lo_apart _ Hl k).
  - intros k Hk. apply not_elem_of_app in Hk as [Hp Hd]. rewrite Ha by done.
    rewrite (proj2 (map_get_None _ _)) by done. by rewrite decide_False.
Qed.

End Transactions.

(** ** A storage: finite maps *)

Definition without (s : gmap string Js) (keys : list string) : gmap string Js := foldr delete s keys.

#[export] Instance map_storage : Storage (gmap string Js) := {
  held s k := default JUndefined (s !! k);
  write s puts deletes := list_to_map puts ∪ without s deletes
}.

Lemma lookup_without s keys k : without s keys !! k = if decide (k ∈ keys) then None else s !! k.
Proof.
  induction keys as [|k1 keys IH]; [done|]. cbn [without foldr]. destruct (decide (k = k1)) as [->|Hne].
  - rewrite lookup_delete_eq, decide_True; [done|apply list_elem_of_here].
  - rewrite lookup_delete_ne by done. unfold without in IH. rewrite IH. repeat case_decide; set_solver.
Qed.

#[export] Instance map_storage_laws P : StorageLaws (gmap string Js) P.
Proof.
  split; intros s puts deletes k; simpl.
  - intros v Hnd Hin _ _. erewrite lookup_union_Some_l; [done|]. by apply elem_of_list_to_map_1.
  - intros Hp Hd. rewrite lookup_union_r by by apply not_elem_of_list_to_map_1.
    by rewrite lookup_without, decide_True.
  - intros Hp Hd. rewrite lookup_union_r by by apply not_elem_of_list_to_map_1.
    by rewrite lookup_without, decide_False.
Qed.

(** ** Transactions that count *)

Definition demo_clone (v : Js) : option Js := match v with JFunction _ => None | _ => Some v end.
Lemma demo_clone_again v w : demo_clone v = Some w -> demo_clone w = Some w.
Proof. by destruct v; intros [= <-]. Qed.

Definition num (z : Z) : Js := JNumber (Handlers.Int z).

(** Adds one to the key n, deletes the key old, and answers what n holds. *)
Definition count : Closure Js :=
  Get (JString "n") (fun r =>
    match r with
    | Ok (One (JNumber (Handlers.Int z))) =>
        Put (JString "n") (num (z + 1)) (fun _ =>
          Delete (JArray [JString "old"; JString "old"]) (fun _ =>
            Get (JString "n") (fun r => match r with Ok (One v) => Return v | _ => Throw JNull end)))
    | _ => Throw JNull
    end).

Definition demo_store : gmap string Js := {["n"%string := num 1; "old"%string := JBool true; "x"%string := JNull]}.

Notation demo_transaction host c := (transaction demo_clone (fun _ => Some []) host c).

Lemma transaction_equiv_witness :
  (forall n : nat, (fun _ : nat => Some (demo_store, JNull)) n = Some (demo_store, JNull)) /\
  fst (demo_transaction (fun _ => Some (demo_store, JNull)) count) = Ok (num 2) /\
  forall k, held (after demo_store (snd (demo_transaction (fun _ => Some (demo_store, JNull)) count))) k =
            snd (reference demo_clone (fun _ => Some []) JNull count (held demo_store)) k.
Proof.
  split_and!; [done|vm_compute; reflexivity|].
  apply (transaction_equiv demo_clone (fun _ => Some []) (fun _ => Some (demo_store, JNull)) demo_clone_again
           demo_store JNull count). done.
Defined.

Lemma transaction_writes_once_witness :
  let t := demo_transaction (fun _ => Some (demo_store, JNull)) count in
  snd t = Some (demo_store, [("n"%string, num 2)], ["old"%string]) /\
  match t with
  | (_, Some (s, puts, deletes)) => forall k, k ∉ puts.*1 ++ deletes -> held (write s puts deletes) k = held s k
  | _ => False
  end.
Proof.
  pose proof (transaction_writes_once demo_clone (fun _ => Some []) (fun _ => Some (demo_store, JNull))
                demo_clone_again count) as H.
  split; [vm_compute; reflexivity|].
  change (demo_transaction (fun _ => Some (demo_store, JNull)) count)
    with (Ok (E := Error) (num 2), Some (demo_store, [("n"%string, num 2)], ["old"%string])) in *.
  destruct H as (_ & _ & _ & _ & _ & _ & H). exact H.
Defined.

(** A closure that throws after its writes leaves the store alone, and so does a rollback. *)
Example thrown_writes_are_dropped :
  let host := fun _ : nat => Some (demo_store, JNull) in
  demo_transaction host (Put (JString "n") (num 5) (fun _ => Throw JNull) : Closure Js) = (Err (Guest JNull), None) /\
  demo_transaction host (Put (JString "n") (num 5) (fun _ => Rollback (Return JNull))) = (Ok JNull, None).
Proof. done. Qed.

(** Two counts that read before either writes: the host applies both writes, and one count
    is lost. *)
Definition store_after (w : option (gmap string Js * list (string * Js) * list string)) : gmap string Js :=
  after demo_store w.

Example counts_at_once_lose_one :
  let first := demo_transaction (fun _ => Some (demo_store, JNull)) count in
  let s1 := store_after (snd first) in
  let second := demo_transaction (fun n => Some (if decide (n = 0) then demo_store else s1, JNull)) count in
  fst first = Ok (num 2) /\ fst second = Ok (num 2) /\ held (store_after (snd second)) "n" = num 2.
Proof. vm_compute. auto. Qed.

End Transactions.
