(* ===== verification/ObjectRuns.v ===== *)
(** * The script of a Durable Object: sockets and alarms (src/src/js/durable_object.js)

    The second half of [installObject]: the sockets of the object with their two ways to be
    accepted, and the runs of its handlers. A socket is an object with an id, which no other
    has; [sockets] is the Map the script keeps. An event of a socket and an alarm each make
    a run, whose handler is called by a microtask; the host looks at the run until it is
    done ([outcome], of execution_context/durable_object.rs). The natives are the ones of
    Natives.v. *)

From stdpp Require Import base list gmap strings sorting.
From Stdlib Require Import ZArith Lia.
From S2P Require Import Prelude Handlers Readers Natives GuestSockets ObjectScript.

Local Open Scope Z_scope.

Module ObjectRuns.
Import Readers.

Definition MAX_TAGS : nat := 10.
Definition MAX_TAG_LENGTH : nat := 256.

Inductive Mode := ToHandlers | ToListeners.
#[export] Instance mode_eq : EqDecision Mode.
Proof. solve_decision. Defined.

Inductive ReadyState := OPEN | CLOSED.
#[export] Instance ready_eq : EqDecision ReadyState.
Proof. solve_decision. Defined.

(** [objectSocket]; the mode is [None] until the socket is accepted. *)
Record Socket := mkSocket { mode : option Mode; tags : list string; attachment : Js; readyState : ReadyState }.

Definition objectSocket (m : option Mode) (t : list string) (a : Js) : Socket := mkSocket m t a OPEN.

Inductive Kind := KMessage | KClose | KError.
#[export] Instance kind_eq : EqDecision Kind.
Proof. solve_decision. Defined.

(** The object the host keeps of an event. *)
Record Run := mkRun { done : bool; error : Js }.

(** Microtasks: the body of a run, and the reaction to its end. *)
Inductive Job :=
| Event (run : nat) (ws : option Z) (k : Kind)
| EventEnds (run : nat)
| Alarm (run : nat)
| AlarmEnds (run : nat) (thrown : option Js).

(** What happened, in order; the history of the object: calls of the guest that returned,
    events the host handed over and the runs of theirs that began, handlers that were called
    and alarms that ended. *)
Inductive Entry :=
| Accepted (ws : Z) (m : Mode)
| CloseReturned (ws : Z)
| Handed (run : nat) (ws : Z) (k : Kind)
| Began (run : nat)
| Delivered (run : nat) (ws : Z) (k : Kind) (m : Mode)
| AlarmRan (run : nat) (thrown : option Js).

Record State := mkState {
  heap : gmap Z Socket;
  sockets : list Z;
  next_socket : Z;
  outbox : list Natives.ObjectSocketOp;
  runs : gmap nat Run;
  next_run : nat;
  calls : gmap nat bool;          (* the handlers that run, and whether it is alarm() *)
  jobs : list Job;
  log : list Entry
}.

(** The exceptions of the methods. *)
Inductive Thrown := TypeError (what : string) | InvalidStateError | InvalidAccessError | SyntaxError | NotCloned.

Section Runs.

Context (to_string_other : Js -> option string) (get_other : Js -> string -> option Js) (double_truthy : Z -> bool).
(** The length of a string in UTF-16 units; the structured clone, and its bytes. *)
Context (js_length : string -> nat) (clone : Js -> option Js) (serialize : Js -> option (list Z)).
(** The methods the class has. *)
Context (has_alarm : bool) (has_handler : Kind -> bool).

Definition message : Js -> option Js := ObjectScript.message to_string_other get_other double_truthy.

Definition set_socket (s : State) (ws : Z) (o : Socket) : State :=
  mkState (<[ws := o]> (heap s)) (sockets s) (next_socket s) (outbox s) (runs s) (next_run s) (calls s) (jobs s) (log s).

(** [sockets.set] of a socket that is accepted now, with the op of the native. *)
Definition enter (s : State) (ws : Z) (o : Socket) (m : Mode) : State :=
  mkState (<[ws := o]> (heap s)) (if decide (ws ∈ sockets s) then sockets s else sockets s ++ [ws]) (next_socket s)
    (outbox s ++ [Natives.Accept ws (tags o) (bool_decide (m = ToHandlers))]) (runs s) (next_run s) (calls s)
    (jobs s) (log s).

(** [readyState = CLOSED] and [sockets.delete]. *)
Definition leave (s : State) (ws : Z) : State :=
  mkState (alter (fun o => mkSocket (mode o) (tags o) (attachment o) CLOSED) ws (heap s))
    (filter (fun w => w <> ws) (sockets s)) (next_socket s) (outbox s) (runs s) (next_run s) (calls s) (jobs s)
    (log s).

Definition post (s : State) (op : Natives.ObjectSocketOp) : State :=
  mkState (heap s) (sockets s) (next_socket s) (outbox s ++ [op]) (runs s) (next_run s) (calls s) (jobs s) (log s).

(** ** Methods of sockets *)

(** [new WebSocketPair()] *)
Definition pair (s : State) : State :=
  mkState (<[next_socket s := objectSocket None [] JNull]> (heap s)) (sockets s) (next_socket s + 1) (outbox s)
    (runs s) (next_run s) (calls s) (jobs s) (log s).

Definition ALREADY : string := "WebSocket: the socket is accepted already".

(** [accept] *)
Definition accept (s : State) (ws : Z) (o : Socket) : result unit Thrown * State :=
  match mode o with
  | Some _ => (Err (TypeError ALREADY), s)
  | None =>
      (Ok tt, enter s ws (mkSocket (Some ToListeners) (tags o) (attachment o) (readyState o)) ToListeners)
  end.

(** The tags [acceptWebSocket] takes. *)
Fixpoint check_tags (l : list Js) : result (list string) Thrown :=
  match l with
  | [] => Ok []
  | JString t :: l =>
      if (MAX_TAG_LENGTH <? js_length t)%nat then Err (TypeError "a tag is a string of at most 256 characters")
      else let? l := check_tags l in Ok (t :: l)
  | _ => Err (TypeError "a tag is a string of at most 256 characters")
  end.

(** [new Set(tags)] in order. *)
Definition unique (l : list string) : list string := foldl (fun u t => if decide (t ∈ u) then u else u ++ [t]) [] l.

Definition tag_list (t : Js) : result (list string) Thrown :=
  match t with
  | JUndefined => Ok []
  | JArray l => if (MAX_TAGS <? length l)%nat then Err (TypeError "acceptWebSocket() takes at most 10 tags") else check_tags l
  | _ => Err (TypeError "acceptWebSocket() takes at most 10 tags")
  end.

(** [acceptWebSocket]; [None] is a value that is no socket of the object. *)
Definition acceptWebSocket (s : State) (ws : option Z) (t : Js) : result unit Thrown * State :=
  match ws ≫= fun ws => Datatypes.pair ws <$> heap s !! ws with
  | None =>
      (Err (TypeError "acceptWebSocket() takes the server end of a WebSocketPair made in this object"), s)
  | Some (ws, o) =>
      match mode o with
      | Some _ => (Err (TypeError ALREADY), s)
      | None =>
          match tag_list t with
          | Err e => (Err e, s)
          | Ok l =>
              (Ok tt, enter s ws (mkSocket (Some ToHandlers) (unique l) (attachment o) (readyState o)) ToHandlers)
          end
      end
  end.

(** [send]; [frame] is what the native does with the data: the frame it sends, or nothing
    when it throws. *)
Definition send (s : State) (ws : Z) (o : Socket) (frame : option Natives.WebSocketOutgoing)
    : result unit Thrown * State :=
  match mode o with
  | None => (Err InvalidStateError, s)
  | Some _ =>
      match readyState o with
      | CLOSED => (Ok tt, s)
      | OPEN =>
          match frame with
          | None => (Err (TypeError "send"), s)
          | Some m => (Ok tt, post s (Natives.Send ws m))
          end
      end
  end.

(** The code of the frame: [code ?? 1000], converted and cut to 16 bits. *)
Definition close_code (c : GuestSockets.Code) : Z :=
  match c with
  | GuestSockets.CUndefined => 1000
  | GuestSockets.CNumber n | GuestSockets.COther (Some n) => Z.max 0 (Z.min n (2 ^ 16 - 1))
  | GuestSockets.CNaN | GuestSockets.COther None => 0
  end.

(** [close]: the checks come first, whatever the state. *)
Definition close (s : State) (ws : Z) (o : Socket) (code : GuestSockets.Code) (reason : option string)
    : result unit Thrown * State :=
  if GuestSockets.code_refused code then (Err InvalidAccessError, s)
  else if match reason with Some r => (123 <? String.length r)%nat | None => false end then (Err SyntaxError, s)
  else match readyState o with
       | CLOSED => (Ok tt, s)
       | OPEN => (Ok tt, post (leave s ws) (Natives.Send ws (Natives.Close (close_code code) (default ""%string reason))))
       end.

(** [serializeAttachment]: the native first, then the copy of the object. *)
Definition serializeAttachment (s : State) (ws : Z) (o : Socket) (v : Js) : result unit Thrown * State :=
  let set s a := set_socket s ws (mkSocket (mode o) (tags o) a (readyState o)) in
  if is_nullish v then
    (Ok tt, set (post s (Natives.Attachment ws None)) JNull)
  else match serialize v with
  | None => (Err NotCloned, s)
  | Some bytes =>
      if (Natives.MAX_ATTACHMENT <? length bytes)%nat then (Err (TypeError "serializeAttachment"), s)
      else let s := post s (Natives.Attachment ws (Some bytes)) in
           match clone v with
           | None => (Err NotCloned, s)
           | Some w => (Ok tt, set s w)
           end
  end.

(** [deserializeAttachment], [getWebSockets] and [getTags] *)
Definition deserializeAttachment (o : Socket) : option Js := clone (attachment o).

Definition shown (s : State) (tag : option string) (ws : Z) : bool :=
  match heap s !! ws with
  | Some o =>
      bool_decide (mode o = Some ToHandlers) && match tag with None => true | Some t => bool_decide (t ∈ tags o) end
  | None => false
  end.

Definition getWebSockets (s : State) (tag : option string) : list Z :=
  filter (fun ws => shown s tag ws = true) (sockets s).

Definition getTags (s : State) (ws : option Z) : result (list string) Thrown :=
  match ws ≫= fun ws => heap s !! ws with
  | Some o =>
      if decide (mode o = Some ToHandlers) then Ok (tags o)
      else Err (TypeError "getTags() takes a socket accepted with acceptWebSocket()")
  | None => Err (TypeError "getTags() takes a socket accepted with acceptWebSocket()")
  end.

(** [pinned] of the script, and of execution_context/durable_object.rs, which reads it. *)
Definition pinned (s : State) : bool :=
  existsb (fun ws => bool_decide (mode <$> heap s !! ws = Some (Some ToListeners))) (sockets s).

(** ** Runs *)

Definition new_run (s : State) (j : nat -> Job) : State :=
  mkState (heap s) (sockets s) (next_socket s) (outbox s) (<[next_run s := mkRun false JNull]> (runs s))
    (S (next_run s)) (calls s) (jobs s ++ [j (next_run s)]) (log s).

(** [socket(id, kind, data, reason)]: the socket is looked up now, the rest is a job. *)
Definition socket (s : State) (id : Z) (k : Kind) : State :=
  new_run s (fun r => Event r (if decide (id ∈ sockets s) then Some id else None) k).

(** [alarm(retryCount)] *)
Definition alarm (s : State) : State := new_run s Alarm.

Definition set_run (s : State) (r : nat) (f : Run -> Run) : State :=
  mkState (heap s) (sockets s) (next_socket s) (outbox s) (alter f r (runs s)) (next_run s) (calls s) (jobs s) (log s).

Definition add_job (s : State) (j : Job) : State :=
  mkState (heap s) (sockets s) (next_socket s) (outbox s) (runs s) (next_run s) (calls s) (jobs s ++ [j]) (log s).

Definition set_jobs (s : State) (l : list Job) : State :=
  mkState (heap s) (sockets s) (next_socket s) (outbox s) (runs s) (next_run s) (calls s) l (log s).

Definition set_calls (s : State) (c : gmap nat bool) : State :=
  mkState (heap s) (sockets s) (next_socket s) (outbox s) (runs s) (next_run s) c (jobs s) (log s).

Definition note (s : State) (e : Entry) : State :=
  mkState (heap s) (sockets s) (next_socket s) (outbox s) (runs s) (next_run s) (calls s) (jobs s) (log s ++ [e]).

(** The body of the run of an event, for a socket that was there: a close or an error closes
    it, then its listeners or the handler of the class get the event. A handler runs until
    its promise settles. *)
Definition deliver (s : State) (r : nat) (ws : Z) (k : Kind) : State :=
  let s := if decide (k = KMessage) then s else leave s ws in
  if decide (mode <$> heap s !! ws = Some (Some ToListeners))
  then add_job (note s (Delivered r ws k ToListeners)) (EventEnds r)
  else if has_handler k then set_calls (note s (Delivered r ws k ToHandlers)) (<[r := false]> (calls s))
  else add_job s (EventEnds r).

Definition run_job (s : State) (j : Job) : State :=
  match j with
  | Event r None _ => add_job s (EventEnds r)
  | Event r (Some ws) k => deliver s r ws k
  | EventEnds r => set_run s r (fun run => mkRun true (error run))
  | Alarm r =>
      if has_alarm then set_calls s (<[r := true]> (calls s))
      else add_job s (AlarmEnds r (Some (JObject [("message"%string,
             Some (JString "the Durable Object class has no alarm() handler"))])))
  | AlarmEnds r thrown =>
      let s := note s (AlarmRan r thrown) in
      match thrown with
      | None => set_run s r (fun run => mkRun true (error run))
      | Some e =>
          (* where the message throws, the run is never done *)
          match message e with Some m => set_run s r (fun _ => mkRun true m) | None => s end
      end
  end.

(** A handler ends, with an error or without. *)
Definition handler_ends (s : State) (r : nat) (thrown : option Js) : option State :=
  is_alarm ← calls s !! r;
  let s := set_calls s (delete r (calls s)) in
  Some (add_job s (if is_alarm : bool then AlarmEnds r thrown else EventEnds r)).

(** What [answer] of execution_context/durable_object.rs makes of the run of an alarm. *)
Definition outcome (run : Run) : option (result unit string) :=
  if done run then Some (match error run with JString e => Err e | _ => Ok tt end) else None.

(** ** Executions *)

Inductive label :=
| LPair | LAccept (ws : Z) | LAcceptWebSocket (ws : option Z) (t : Js)
| LSend (ws : Z) (frame : option Natives.WebSocketOutgoing)
| LClose (ws : Z) (code : GuestSockets.Code) (reason : option string)
| LAttach (ws : Z) (v : Js)
| LSocket (id : Z) (k : Kind) | LAlarm | LHandlerEnds (r : nat) (thrown : option Js) | LJob.

(** What an action says in the history, of what its caller sees of it. *)
Definition history (s : State) (l : label) : list Entry :=
  match l with
  | LAccept ws =>
      match heap s !! ws with
      | Some o => if is_ok (fst (accept s ws o)) then [Accepted ws ToListeners] else []
      | None => []
      end
  | LAcceptWebSocket (Some ws) t => if is_ok (fst (acceptWebSocket s (Some ws) t)) then [Accepted ws ToHandlers] else []
  | LClose ws code reason =>
      match heap s !! ws with
      | Some o => if is_ok (fst (close s ws o code reason)) then [CloseReturned ws] else []
      | None => []
      end
  | LSocket id k => [Handed (next_run s) id k]
  | LJob => match jobs s with Event r _ _ :: _ => [Began r] | _ => [] end
  | _ => []
  end.

Definition act (s : State) (l : label) : option State :=
  match l with
  | LPair => Some (pair s)
  | LAccept ws => o ← heap s !! ws; Some (snd (accept s ws o))
  | LAcceptWebSocket ws t => Some (snd (acceptWebSocket s ws t))
  | LSend ws frame => o ← heap s !! ws; Some (snd (send s ws o frame))
  | LClose ws code reason => o ← heap s !! ws; Some (snd (close s ws o code reason))
  | LAttach ws v => o ← heap s !! ws; Some (snd (serializeAttachment s ws o v))
  | LSocket id k => Some (socket s id k)
  | LAlarm => Some (alarm s)
  | LHandlerEnds r thrown => handler_ends s r thrown
  | LJob => match jobs s with [] => None | j :: rest => Some (run_job (set_jobs s rest) j) end
  end.

Definition exec (s : State) (l : label) : option State := act (foldl note s (history s l)) l.

(** The sockets an earlier instance left with the runner ([__nativeObjectSockets]). *)
Record Restored := mkRestored { r_id : Z; r_tags : list string; r_attachment : Js }.

Definition restore (s : State) (r : Restored) : State :=
  mkState (<[r_id r := objectSocket (Some ToHandlers) (r_tags r) (r_attachment r)]> (heap s)) (sockets s ++ [r_id r])
    (next_socket s) (outbox s) (runs s) (next_run s) (calls s) (jobs s) (log s ++ [Accepted (r_id r) ToHandlers]).

Definition bare (next : Z) : State := mkState ∅ [] next [] ∅ 0 ∅ [] [].

Definition install (restored : list Restored) (next : Z) : State := foldl restore (bare next) restored.

(** The runner has each socket once, and ids are given out once. *)
Definition start (s : State) : Prop :=
  exists restored next, NoDup (r_id <$> restored) /\ Forall (fun r => r_id r < next) restored /\ s = install restored next.

Definition step (s s' : State) : Prop := exists l, exec s l = Some s'.
Definition reach : State -> Prop := reachable start step.

(** ** History *)

(** How a socket stands after a history: the mode it was accepted in, unless it was closed
    since; whether it was ever closed; and the runs that will close it when they begin, those
    of a close or an error the host handed over while the object had the socket. A close()
    of a socket that was closed before does nothing. *)
Record Standing := mkStanding { st_mode : option Mode; st_shut : bool; st_due : list nat }.

Definition standing_step (ws : Z) (t : Standing) (e : Entry) : Standing :=
  match e with
  | Accepted w m => if decide (w = ws) then mkStanding (Some m) (st_shut t) (st_due t) else t
  | CloseReturned w => if decide (w = ws /\ st_shut t = false) then mkStanding None true (st_due t) else t
  | Handed r w k =>
      if decide (w = ws /\ k <> KMessage /\ is_Some (st_mode t)) then mkStanding (st_mode t) (st_shut t) (r :: st_due t)
      else t
  | Began r => if decide (r ∈ st_due t) then mkStanding None true (st_due t) else t
  | _ => t
  end.

Definition stand (l : list Entry) (ws : Z) : Standing := foldl (standing_step ws) (mkStanding None false []) l.
Definition standing (l : list Entry) (ws : Z) : option Mode := st_mode (stand l ws).

Definition accepted (e : Entry) : option Z := match e with Accepted ws _ => Some ws | _ => None end.
Definition delivered (e : Entry) : option nat := match e with Delivered r _ _ _ => Some r | _ => None end.

Definition event_run (j : Job) : option nat := match j with Event r _ _ => Some r | _ => None end.
Definition job_run (j : Job) : nat :=
  match j with Event r _ _ | EventEnds r | Alarm r | AlarmEnds r _ => r end.

(** The runs that are under way. *)
Definition waiting (s : State) : list nat := (job_run <$> jobs s) ++ elements (dom (calls s)).

(** The run of an alarm after its handler. *)
Definition ended (thrown : option Js) : Run :=
  match thrown with
  | None => mkRun true JNull
  | Some e => match message e with Some m => mkRun true m | None => mkRun false JNull end
  end.

Definition mode_of (s : State) (ws : Z) : option Mode := heap s !! ws ≫= mode.

Record sockets_wf (s : State) : Prop := {
  w_map : forall ws, ws ∈ sockets s <-> is_Some (standing (log s) ws);
  w_nodup : NoDup (sockets s);
  w_mode : forall ws m, Accepted ws m ∈ log s <-> mode_of s ws = Some m;
  w_once : NoDup (omap accepted (log s));
  w_closed : forall ws o, heap s !! ws = Some o -> readyState o = CLOSED <-> st_shut (stand (log s) ws) = true;
  w_ids : forall ws, ws ∈ dom (heap s) -> ws < next_socket s;
  w_target : forall r ws k m, Delivered r ws k m ∈ log s -> mode_of s ws = Some m;
  w_known : forall ws, st_shut (stand (log s) ws) = true -> ws ∈ dom (heap s)
}.

Record runs_wf (s : State) : Prop := {
  w_sorted : StronglySorted lt (omap delivered (log s) ++ omap event_run (jobs s));
  w_delivered : forall r, r ∈ omap delivered (log s) -> (r < next_run s)%nat;
  w_captured : forall r ws k, Event r (Some ws) k ∈ jobs s -> is_Some (mode_of s ws);
  w_waiting : NoDup (waiting s);
  w_fresh : forall r, r ∈ waiting s -> runs s !! r = Some (mkRun false JNull) /\ forall t, AlarmRan r t ∉ log s;
  w_ran : forall r t, AlarmRan r t ∈ log s -> runs s !! r = Some (ended t);
  w_runs : forall r, r ∈ dom (runs s) -> (r < next_run s)%nat
}.

Definition wf (s : State) : Prop := sockets_wf s /\ runs_wf s.

(** The runs of events that wait close the sockets they are due to close. *)
Record due_wf (s : State) : Prop := {
  w_due : forall r o k, Event r o k ∈ jobs s -> forall ws, r ∈ st_due (stand (log s) ws) <-> o = Some ws /\ k <> KMessage;
  w_bound : forall r ws, r ∈ st_due (stand (log s) ws) -> (r < next_run s)%nat
}.

Lemma stand_snoc l e ws : stand (l ++ [e]) ws = standing_step ws (stand l ws) e.
Proof. unfold stand. by rewrite foldl_snoc. Qed.

Lemma standing_snoc l e ws : standing (l ++ [e]) ws = st_mode (standing_step ws (stand l ws) e).
Proof. unfold standing. by rewrite stand_snoc. Qed.

Lemma standing_accepted l ws m : standing l ws = Some m -> Accepted ws m ∈ l.
Proof.
  induction l as [|e l IH] using rev_ind; [done|]. rewrite standing_snoc. intros H. apply elem_of_app.
  destruct e as [w m'|w|r w k|r|? ? ? ?|? ?]; simpl in H; try (case_decide as Hw; simpl in H); try done;
    try (left; by apply IH).
  injection H as ->. subst. right. apply list_elem_of_here.
Qed.

(** Changes that the invariant does not see. *)
Lemma wf_same s s' :
  heap s' = heap s -> sockets s' = sockets s -> next_socket s <= next_socket s' -> runs s' = runs s ->
  next_run s' = next_run s -> calls s' = calls s -> jobs s' = jobs s -> log s' = log s -> wf s -> wf s'.
Proof.
  destruct s, s'. simpl. intros -> -> Hn -> -> -> -> -> [[] []]. split; split; unfold waiting, mode_of in *; simpl in *; try done.
  intros ws ?%w_ids0. lia.
Qed.

Lemma post_wf s op : wf s -> wf (post s op).
Proof. by apply wf_same. Qed.

(** A socket object that changes nothing but its attachment. *)
Lemma attach_wf s ws o a :
  heap s !! ws = Some o -> wf s -> wf (set_socket s ws (mkSocket (mode o) (tags o) a (readyState o))).
Proof.
  intros Ho [[H1 H2 H3 H4 H5 H6 H7 H8] [R1 R2 R3 R4 R5 R6 R7]].
  assert (forall w, mode_of (set_socket s ws (mkSocket (mode o) (tags o) a (readyState o))) w = mode_of s w) as Hm.
  { intros w. unfold mode_of. simpl. destruct (decide (w = ws)) as [->|Hne].
    - rewrite lookup_insert_eq, Ho. done.
    - by rewrite lookup_insert_ne. }
  split; split; simpl; try done; try (setoid_rewrite Hm; done).
  - intros w o'. destruct (decide (w = ws)) as [->|Hne]; [|rewrite lookup_insert_ne by done; apply H5].
    rewrite lookup_insert_eq. intros [= <-]. simpl. by apply H5.
  - intros w. rewrite dom_insert_lookup_L by eauto. apply H6.
  - intros w. rewrite dom_insert_lookup_L by eauto. apply H8.
Qed.

(** Each half of the invariant sees its part of the state. *)
Lemma sockets_ext s s' :
  heap s' = heap s -> sockets s' = sockets s -> next_socket s' = next_socket s -> log s' = log s ->
  sockets_wf s -> sockets_wf s'.
Proof. destruct s, s'. simpl. intros -> -> -> -> []. by split. Qed.

Lemma runs_ext s s' :
  runs s' = runs s -> next_run s' = next_run s -> calls s' = calls s -> jobs s' = jobs s ->
  omap delivered (log s') = omap delivered (log s) ->
  (forall r t, AlarmRan r t ∈ log s' <-> AlarmRan r t ∈ log s) ->
  (forall ws, is_Some (mode_of s ws) -> is_Some (mode_of s' ws)) ->
  runs_wf s -> runs_wf s'.
Proof.
  intros E1 E2 E3 E4 E5 E6 E7 [R1 R2 R3 R4 R5 R6 R7].
  split; unfold waiting in *; rewrite ?E1, ?E2, ?E3, ?E4, ?E5; try done.
  - intros r ws k Hj. eapply E7, R3, Hj.
  - intros r Hr. destruct (R5 r Hr) as [? Ht]. split; [done|]. intros t. rewrite E6. apply Ht.
  - intros r t. rewrite E6. apply R6.
Qed.

Lemma elem_snoc_ne {A} (l : list A) x y : x <> y -> x ∈ l ++ [y] <-> x ∈ l.
Proof. set_solver. Qed.

(** Entries that leave the sockets as they stand. *)
Lemma sockets_note s e :
  (forall ws, st_mode (standing_step ws (stand (log s) ws) e) = standing (log s) ws /\
              st_shut (standing_step ws (stand (log s) ws) e) = st_shut (stand (log s) ws)) ->
  match e with Accepted _ _ => False | Delivered _ ws _ m => mode_of s ws = Some m | _ => True end ->
  sockets_wf s -> sockets_wf (note s e).
Proof.
  intros Hst He [H1 H2 H3 H4 H5 H6 H7 H8]. split; simpl; try done.
  - intros ws. rewrite H1, standing_snoc. by rewrite (proj1 (Hst ws)).
  - intros ws m. rewrite elem_snoc_ne by by destruct e. apply H3.
  - rewrite omap_app. simpl. destruct e; try done; by rewrite app_nil_r.
  - intros ws o Ho. rewrite stand_snoc, (proj2 (Hst ws)). by apply H5.
  - intros r ws k m [Hin|Hin]%elem_of_app; [by eapply H7|]. apply list_elem_of_singleton in Hin as <-. done.
  - intros ws. rewrite stand_snoc, (proj2 (Hst ws)). apply H8.
Qed.

(** A socket that nobody accepted yet, under an id that is new. *)
Definition add_socket (s : State) (id : Z) (o : Socket) (next : Z) : State :=
  mkState (<[id := o]> (heap s)) (sockets s) next (outbox s) (runs s) (next_run s) (calls s) (jobs s) (log s).

Lemma add_socket_wf s id o n :
  wf s -> heap s !! id = None -> mode o = None -> readyState o = OPEN -> id < n -> next_socket s <= n ->
  wf (add_socket s id o n).
Proof.
  intros [Hs Hr] Hnew Hno Hop Hid Hn. destruct Hs as [H1 H2 H3 H4 H5 H6 H7 H8].
  assert (forall w, mode_of (add_socket s id o n) w = mode_of s w) as Hm.
  { intros w. unfold mode_of, add_socket. simpl. destruct (decide (w = id)) as [->|Hne].
    - by rewrite lookup_insert_eq, Hnew.
    - by rewrite lookup_insert_ne. }
  split; [|eapply runs_ext, Hr; try done; intros ws; by rewrite Hm].
  split; simpl; try done; try (setoid_rewrite Hm; done).
  - intros w o'. destruct (decide (w = id)) as [->|Hne]; [|rewrite lookup_insert_ne by done; apply H5].
    rewrite lookup_insert_eq. intros [= <-]. rewrite Hop. split; [done|]. intros Hc%H8. by apply not_elem_of_dom in Hnew.
  - intros w. rewrite dom_insert_L, elem_of_union, elem_of_singleton. intros [Hw|Hw]; [lia|]. apply H6 in Hw. lia.
  - intros w ?%H8. rewrite dom_insert_L. set_solver.
Qed.

Lemma pair_wf s : wf s -> wf (pair s).
Proof.
  intros Hwf. apply (add_socket_wf s (next_socket s) (objectSocket None [] JNull) (next_socket s + 1)); try done; try lia.
  apply not_elem_of_dom. intros ?%(w_ids s (proj1 Hwf)). lia.
Qed.

(** [accept] and [acceptWebSocket] of a socket that was not accepted. *)
Lemma runs_enter_wf s ws o m t :
  wf s -> heap s !! ws = Some o -> mode o = None ->
  wf (enter (note s (Accepted ws m)) ws (mkSocket (Some m) t (attachment o) (readyState o)) m).
Proof.
  intros [Hs Hr] Ho Hm. destruct Hs as [H1 H2 H3 H4 H5 H6 H7 H8].
  set (s' := enter _ ws _ m).
  assert (mode_of s ws = None) as Hn by (unfold mode_of; by rewrite Ho).
  assert (forall w, mode_of s' w = if decide (w = ws) then Some m else mode_of s w) as Hmode.
  { intros w. unfold mode_of, s', enter. simpl. case_decide as Hw; [subst; by rewrite lookup_insert_eq|].
    by rewrite lookup_insert_ne. }
  assert (forall w, st_shut (stand (log s ++ [Accepted ws m]) w) = st_shut (stand (log s) w)) as Hshut.
  { intros w. rewrite stand_snoc. simpl. by case_decide. }
  split.
  2: { eapply runs_ext, Hr; try done.
       - simpl. rewrite omap_app. simpl. by rewrite app_nil_r.
       - intros r a. simpl. by rewrite elem_snoc_ne.
       - intros w Hw. rewrite Hmode. by case_decide. }
  split; simpl.
  - intros w. rewrite standing_snoc. simpl. destruct (decide (ws = w)) as [<-|Hne].
    + split; [by eauto|]. intros _. case_decide; [done|set_solver].
    + fold (standing (log s) w). rewrite <-H1. case_decide; [done|]. set_solver.
  - case_decide; [done|]. apply NoDup_app. split_and!; [done|set_solver|apply NoDup_singleton].
  - intros w m'. rewrite Hmode, elem_of_app, list_elem_of_singleton, H3. case_decide as Hw; [subst w|naive_solver].
    rewrite Hn. naive_solver.
  - rewrite omap_app. simpl. apply NoDup_app. split_and!; [done| |apply NoDup_singleton].
    intros w (e & He & Hw)%list_elem_of_omap Hw2%list_elem_of_singleton. subst w.
    destruct e as [w' m'|?|???|?|????|??]; simplify_eq/=. apply H3 in He. congruence.
  - intros w o'. rewrite Hshut. destruct (decide (w = ws)) as [->|Hne].
    + rewrite lookup_insert_eq. intros [= <-]. simpl. by apply H5.
    + rewrite lookup_insert_ne by done. apply H5.
  - intros w. rewrite dom_insert_lookup_L by eauto. apply H6.
  - intros r w k m'. rewrite elem_snoc_ne by done. intros Hd%H7. rewrite Hmode. case_decide; congruence.
  - intros w. rewrite Hshut. rewrite dom_insert_lookup_L by eauto. apply H8.
Qed.

Lemma mode_of_leave s ws w : mode_of (leave s ws) w = mode_of s w.
Proof.
  unfold mode_of, leave. simpl. destruct (decide (w = ws)) as [->|Hne].
  - rewrite lookup_alter_eq. by destruct (heap s !! ws).
  - by rewrite lookup_alter_ne.
Qed.

(** A socket leaves with an entry that says it closed. *)
Lemma runs_leave_wf s ws e :
  wf s -> ws ∈ dom (heap s) ->
  (forall w t, t = stand (log s) w ->
     standing_step w t e = if decide (w = ws) then mkStanding None true (st_due t) else t) ->
  accepted e = None -> delivered e = None -> (forall r t, e <> AlarmRan r t) ->
  wf (leave (note s e) ws).
Proof.
  intros [Hs Hr] Hin He Ha Hd Hal. destruct Hs as [H1 H2 H3 H4 H5 H6 H7 H8]. split.
  2: { eapply runs_ext, Hr; try done.
       - simpl. rewrite omap_app. simpl. by rewrite Hd, app_nil_r.
       - intros r a. simpl. by rewrite elem_snoc_ne.
       - intros w. by rewrite (mode_of_leave (note s e)). }
  assert (forall w, mode_of (leave (note s e) ws) w = mode_of s w) as Hmode
    by (intros w; exact (mode_of_leave (note s e) ws w)).
  split; simpl; try setoid_rewrite Hmode.
  - intros w. rewrite standing_snoc, He by done. rewrite list_elem_of_filter, H1. case_decide as Hw.
    + subst w. simpl. split; [by intros [??]|by intros [??]].
    + split; [by intros [??]|done].
  - by apply NoDup_filter.
  - intros w m. rewrite elem_snoc_ne by (intros <-; done). apply H3.
  - rewrite omap_app. simpl. by rewrite Ha, app_nil_r.
  - intros w o. rewrite stand_snoc, He by done. destruct (decide (w = ws)) as [->|Hne].
    + rewrite lookup_alter_eq. intros Ho. destruct (heap s !! ws); [|done]. injection Ho as <-. done.
    + rewrite lookup_alter_ne by done. apply H5.
  - intros w. rewrite dom_alter_L. apply H6.
  - intros r w k m. rewrite elem_snoc_ne by (intros <-; done). apply H7.
  - intros w. rewrite dom_alter_L, stand_snoc, He by done. case_decide as Hw; [by subst|apply H8].
Qed.

(** ** Runs *)

Lemma sorted_snoc (l : list nat) x : StronglySorted lt l -> (forall y, y ∈ l -> (y < x)%nat) -> StronglySorted lt (l ++ [x]).
Proof.
  induction 1 as [|y l Hs IH Hf]; intros Hx; simpl; [by repeat constructor|]. constructor.
  - apply IH. intros z Hz. apply Hx. by apply list_elem_of_further.
  - apply Forall_app. split; [done|]. apply Forall_singleton, Hx, list_elem_of_here.
Qed.

Lemma sorted_drop (a b : list nat) x : StronglySorted lt (a ++ x :: b) -> StronglySorted lt (a ++ b).
Proof.
  induction a as [|y a IH]; simpl; [by inversion 1|]. inversion_clear 1 as [|? ? Hs Hf]. constructor; [by apply IH|].
  apply Forall_app in Hf as [? Hf]. apply Forall_cons in Hf as [_ ?]. by apply Forall_app.
Qed.

Lemma waiting_runs s r : runs_wf s -> r ∈ waiting s -> (r < next_run s)%nat.
Proof. intros Hr Hw. apply (w_runs _ Hr). apply elem_of_dom. exists (mkRun false JNull). by apply (w_fresh _ Hr). Qed.

Lemma event_waits s r : r ∈ omap event_run (jobs s) -> r ∈ waiting s.
Proof.
  intros (j & Hj & He)%list_elem_of_omap. apply elem_of_app. left. apply list_elem_of_fmap. exists j.
  split; [by destruct j; simplify_eq/=|done].
Qed.

Lemma new_run_wf s j :
  (forall r, job_run (j r) = r) ->
  (forall r r' ws k, j r = Event r' (Some ws) k -> is_Some (mode_of s ws)) ->
  wf s -> wf (new_run s j).
Proof.
  intros Hj Hc [Hs Hr]. split; [by eapply sockets_ext, Hs|]. pose proof (waiting_runs s) as Hlt.
  assert (next_run s ∉ waiting s) as Hnew by (intros ?%Hlt; [lia|done]).
  assert (waiting (new_run s j) ≡ₚ next_run s :: waiting s) as Hw.
  { unfold waiting. simpl. rewrite fmap_app. simpl. rewrite Hj, <-app_assoc. simpl. by rewrite Permutation_middle. }
  destruct Hr as [R1 R2 R3 R4 R5 R6 R7]. split.
  - simpl. rewrite omap_app. simpl. specialize (Hj (next_run s)). rewrite app_assoc.
    destruct (j (next_run s)); simpl in *; rewrite ?app_nil_r; try done. subst run. apply sorted_snoc; [done|].
    intros y [Hy|Hy]%elem_of_app; [by apply R2|]. apply Hlt; [done|by apply event_waits].
  - intros r ?%R2. simpl. lia.
  - intros r ws k [Hin|Hin]%elem_of_app; [by eapply R3|]. apply list_elem_of_singleton in Hin. by eapply Hc.
  - rewrite Hw. by apply NoDup_cons.
  - intros r. rewrite Hw, elem_of_cons. simpl. intros [->|Hin].
    + rewrite lookup_insert_eq. split; [done|]. intros t Ht%R6. apply elem_of_dom_2, R7 in Ht. lia.
    + rewrite lookup_insert_ne by (intros <-; done). by apply R5.
  - intros r t Ht. simpl. rewrite lookup_insert_ne; [by apply R6|]. intros <-. apply R6, elem_of_dom_2, R7 in Ht. lia.
  - intros r. simpl. rewrite dom_insert_L, elem_of_union, elem_of_singleton. intros [->|?%R7]; lia.
Qed.

(** A job that hands its run on: to another job, or to a handler. *)
Lemma hand_on s s' j rest d :
  runs_wf s -> jobs s = j :: rest ->
  runs s' = runs s -> next_run s' = next_run s -> waiting s' ≡ₚ waiting s ->
  omap event_run (jobs s') = omap event_run rest ->
  (forall r ws k, Event r ws k ∈ jobs s' -> Event r ws k ∈ jobs s) ->
  omap delivered (log s') = omap delivered (log s) ++ option_list d -> (d = None \/ d = event_run j) ->
  (forall r t, AlarmRan r t ∈ log s' <-> AlarmRan r t ∈ log s) ->
  (forall ws, is_Some (mode_of s ws) -> is_Some (mode_of s' ws)) ->
  runs_wf s'.
Proof.
  intros Hwf Ej E1 E2 E3 E4 E5 E6 Hd E7 E8. pose proof (waiting_runs s) as Hlt.
  assert (forall r, event_run j = Some r -> (r < next_run s)%nat) as Hjr.
  { intros r Hr. apply Hlt; [done|]. apply event_waits. rewrite Ej. simpl. rewrite Hr. apply list_elem_of_here. }
  destruct Hwf as [R1 R2 R3 R4 R5 R6 R7]. rewrite Ej in R1. simpl in R1.
  split; rewrite ?E1, ?E2, ?E3; try done.
  - rewrite E4, E6. destruct Hd as [->| ->]; simpl; rewrite ?app_nil_r.
    + destruct (event_run j) as [r|]; [by eapply sorted_drop|done].
    + rewrite <-app_assoc. by destruct (event_run j).
  - intros r. rewrite E6, elem_of_app. intros [Hr|Hr]; [by apply R2|]. destruct Hd as [->| ->]; [by apply not_elem_of_nil in Hr|].
    apply Hjr. destruct (event_run j); [|by apply not_elem_of_nil in Hr]. by apply list_elem_of_singleton in Hr as ->.
  - intros r ws k Hin. by eapply E8, R3, E5.
  - intros r Hr. rewrite E3 in Hr. destruct (R5 r Hr) as [? Ht]. split; [done|]. intros t. rewrite E7. apply Ht.
  - intros r t. rewrite E7. apply R6.
Qed.

(** A job that ends its run. *)
Lemma end_run s s' j rest t :
  runs_wf s -> jobs s = j :: rest -> event_run j = None ->
  jobs s' = rest -> calls s' = calls s -> next_run s' = next_run s ->
  (forall r, r <> job_run j -> runs s' !! r = runs s !! r) -> is_Some (runs s' !! job_run j) ->
  log s' = log s ++ option_list (AlarmRan (job_run j) <$> t) ->
  (forall a, t = Some a -> runs s' !! job_run j = Some (ended a)) ->
  (forall ws, mode_of s' ws = mode_of s ws) ->
  runs_wf s'.
Proof.
  intros [R1 R2 R3 R4 R5 R6 R7] Ej Ee E1 E2 E3 E4 E5 E6 E7 E8. unfold waiting in *. rewrite Ej in *. simpl in *. rewrite Ee in R1.
  apply NoDup_cons in R4 as [Rn R4].
  assert (omap delivered (log s') = omap delivered (log s)) as Hd.
  { rewrite E6, omap_app. destruct t; simpl; by rewrite app_nil_r. }
  split; unfold waiting; rewrite ?E1, ?E2, ?E3, ?Hd; try done.
  - intros r ws k Hin. rewrite E8. eapply R3, list_elem_of_further, Hin.
  - intros r Hr. destruct (decide (r = job_run j)) as [->|Hne]; [done|].
    destruct (R5 r (list_elem_of_further _ _ _ Hr)) as [Hl Ht]. rewrite (E4 r Hne). split; [done|]. intros a.
    rewrite E6. intros [Hin|Hin]%elem_of_app; [by apply (Ht a)|].
    destruct t; [|by apply not_elem_of_nil in Hin]. apply list_elem_of_singleton in Hin. congruence.
  - intros r a. rewrite E6. intros [Hin|Hin]%elem_of_app.
    + rewrite E4; [by apply R6|]. intros ->. destruct (R5 (job_run j) (list_elem_of_here _ _)) as [_ Ht]. by apply (Ht a).
    + destruct t as [a'|]; [|by apply not_elem_of_nil in Hin]. apply list_elem_of_singleton in Hin. simplify_eq. by apply E7.
  - intros r. rewrite elem_of_dom. destruct (decide (r = job_run j)) as [->|Hne].
    + intros _. apply R7, elem_of_dom. exists (mkRun false JNull). apply R5, list_elem_of_here.
    + rewrite E4 by done. rewrite <-elem_of_dom. apply R7.
Qed.

(** The two places a run goes to from the head of the queue. *)
Lemma waiting_job s s' j j' rest :
  jobs s = j :: rest -> jobs s' = rest ++ [j'] -> calls s' = calls s -> job_run j' = job_run j ->
  waiting s' ≡ₚ waiting s.
Proof.
  intros E1 E2 E3 E4. unfold waiting. rewrite E1, E2, E3, fmap_app. simpl. rewrite E4, <-app_assoc.
  cbn [app]. by rewrite <-Permutation_middle.
Qed.

Lemma waiting_call s s' j rest b :
  NoDup (waiting s) -> jobs s = j :: rest -> jobs s' = rest -> calls s' = <[job_run j := b]> (calls s) ->
  waiting s' ≡ₚ waiting s.
Proof.
  intros Hnd E1 E2 E3. unfold waiting in *. rewrite E1 in *. rewrite E2, E3, dom_insert_L. simpl in *.
  apply NoDup_cons in Hnd as [Hn _]. apply not_elem_of_app in Hn as [_ Hn]. rewrite elem_of_elements in Hn.
  rewrite elements_union_singleton by done. by rewrite Permutation_middle.
Qed.

Lemma dispatch_wf s r ws k rest :
  wf s -> jobs s = Event r (Some ws) k :: rest ->
  let s1 := set_jobs s rest in
  wf (if decide (mode <$> heap s1 !! ws = Some (Some ToListeners))
      then add_job (note s1 (Delivered r ws k ToListeners)) (EventEnds r)
      else if has_handler k then set_calls (note s1 (Delivered r ws k ToHandlers)) (<[r := false]> (calls s1))
      else add_job s1 (EventEnds r)).
Proof.
  intros [Hs Hr] Ej s1. pose proof (w_waiting s Hr) as Hnd.
  assert (is_Some (mode_of s ws)) as [m Hm] by (eapply (w_captured s Hr); rewrite Ej; apply list_elem_of_here).
  assert (sockets_wf s1) as Hs1 by by eapply sockets_ext, Hs.
  assert (forall m', m' = m -> sockets_wf (note s1 (Delivered r ws k m'))) as Hs2.
  { intros m' ->. by apply sockets_note. }
  assert (forall r' w k' l, Event r' w k' ∈ l ++ [EventEnds r] -> Event r' w k' ∈ l) as Hend by set_solver.
  assert (mode <$> heap s !! ws = Some (Some m)) as Hmode.
  { unfold mode_of in Hm. destruct (heap s !! ws); simpl in *; congruence. }
  simpl. rewrite Hmode. destruct (decide (Some (Some m) = Some (Some ToListeners))) as [[= ->]|Hne]; [|destruct (has_handler k)].
  - split; [by eapply sockets_ext, (Hs2 ToListeners)|]. eapply (hand_on s _ _ rest (Some r) Hr Ej); simpl; try done.
    + by eapply waiting_job.
    + rewrite omap_app. simpl. by rewrite app_nil_r.
    + intros r' w k' ?%Hend. rewrite Ej. by apply list_elem_of_further.
    + by rewrite omap_app.
    + by right.
    + intros ? ?. by rewrite elem_snoc_ne.
  - split; [eapply sockets_ext, (Hs2 ToHandlers); try done; by destruct m|].
    eapply (hand_on s _ _ rest (Some r) Hr Ej); simpl; try done.
    + by eapply waiting_call.
    + intros r' w k' ?. rewrite Ej. by apply list_elem_of_further.
    + by rewrite omap_app.
    + by right.
    + intros ? ?. by rewrite elem_snoc_ne.
  - split; [by eapply sockets_ext, Hs|]. eapply (hand_on s _ _ rest None Hr Ej); simpl; try done.
    + by eapply waiting_job.
    + rewrite omap_app. simpl. by rewrite app_nil_r.
    + intros r' w k' ?%Hend. rewrite Ej. by apply list_elem_of_further.
    + by rewrite app_nil_r.
    + by left.
Qed.

(** The run of an event begins that closes nothing. *)
Lemma began_wf s r o k rest :
  wf s -> due_wf s -> jobs s = Event r o k :: rest -> o = None \/ k = KMessage -> wf (note s (Began r)).
Proof.
  intros [Hs Hr] Hd Ej Hk.
  assert (forall ws, r ∉ st_due (stand (log s) ws)) as Hno.
  { intros ws Hin. apply (w_due s Hd r o k) in Hin as [-> Hne]; [naive_solver|]. rewrite Ej. apply list_elem_of_here. }
  split.
  - apply sockets_note; [|done|done]. intros ws. simpl. by rewrite decide_False.
  - eapply runs_ext, Hr; simpl; try done.
    + rewrite omap_app. simpl. by rewrite app_nil_r.
    + intros r' a. by rewrite elem_snoc_ne.
Qed.

Lemma runs_deliver_wf s r ws k rest :
  wf s -> due_wf s -> jobs s = Event r (Some ws) k :: rest ->
  wf (deliver (set_jobs (note s (Began r)) rest) r ws k).
Proof.
  intros Hwf Hd Ej. unfold deliver. destruct (decide (k = KMessage)) as [Hk|Hk].
  - apply (dispatch_wf (note s (Began r)) r ws k rest); [|done]. eapply began_wf; eauto.
  - change (leave (set_jobs (note s (Began r)) rest) ws) with (set_jobs (leave (note s (Began r)) ws) rest).
    apply (dispatch_wf (leave (note s (Began r)) ws) r ws k rest); [|done]. apply runs_leave_wf; try done.
    + apply elem_of_dom.
      assert (is_Some (mode_of s ws)) as Hc by (eapply (w_captured s (proj2 Hwf)); rewrite Ej; apply list_elem_of_here).
      unfold mode_of in Hc. destruct (heap s !! ws); [done|by destruct Hc].
    + intros w t ->. simpl.
      assert (r ∈ st_due (stand (log s) w) <-> Some ws = Some w /\ k <> KMessage) as Hiff
        by (apply (w_due s Hd); rewrite Ej; apply list_elem_of_here).
      destruct (decide (w = ws)) as [->|Hne]; [by rewrite decide_True by (by apply Hiff)|].
      by rewrite decide_False by (rewrite Hiff; intros [E _]; congruence).
Qed.

(** The head of the queue runs, after what the history says of it. *)
Definition begun (s : State) (j : Job) : State := match j with Event r _ _ => note s (Began r) | _ => s end.

Lemma runs_job_wf s j rest :
  wf s -> due_wf s -> jobs s = j :: rest -> wf (run_job (set_jobs (begun s j) rest) j).
Proof.
  intros Hwf Hd Ej. destruct j as [r [ws|] k|r|r|r t]; simpl.
  - by apply runs_deliver_wf.
  - destruct (began_wf s r None k rest Hwf Hd Ej (or_introl eq_refl)) as [Hs Hr].
    split; [by eapply sockets_ext, Hs|]. eapply (hand_on _ _ _ rest None Hr Ej); simpl; try done.
    + by eapply waiting_job.
    + rewrite omap_app. simpl. by rewrite app_nil_r.
    + intros r' w k' Hin. rewrite Ej. set_solver.
    + by rewrite app_nil_r.
    + by left.
  - destruct Hwf as [Hs Hr]. split; [by eapply sockets_ext, Hs|].
    assert (is_Some (runs s !! r)) as Hsome.
    { eexists. apply (w_fresh s Hr). unfold waiting. rewrite Ej. apply list_elem_of_here. }
    eapply (end_run s _ _ rest None Hr Ej); simpl; try done.
    + intros r' Hne. by rewrite lookup_alter_ne.
    + rewrite lookup_alter_eq. by apply fmap_is_Some.
    + by rewrite app_nil_r.
  - destruct Hwf as [Hs Hr]. destruct has_alarm.
    + split; [by eapply sockets_ext, Hs|]. eapply (hand_on s _ _ rest None Hr Ej); simpl; try done.
      * eapply waiting_call; [apply (w_waiting s Hr)|done..].
      * intros r' w k' Hin. rewrite Ej. set_solver.
      * by rewrite app_nil_r.
      * by left.
    + split; [by eapply sockets_ext, Hs|]. eapply (hand_on s _ _ rest None Hr Ej); simpl; try done.
      * by eapply waiting_job.
      * rewrite omap_app. simpl. by rewrite app_nil_r.
      * intros r' w k' Hin. rewrite Ej. set_solver.
      * by rewrite app_nil_r.
      * by left.
  - destruct Hwf as [Hs Hr].
    assert (runs s !! r = Some (mkRun false JNull)) as Hrun.
    { apply (w_fresh s Hr). unfold waiting. rewrite Ej. apply list_elem_of_here. }
    assert (sockets_wf (note s (AlarmRan r t))) as Hs' by by apply sockets_note.
    destruct t as [e|]; [destruct (message e) as [m|] eqn:Em|];
      (split; [by eapply sockets_ext, Hs'|]); eapply (end_run s _ _ rest (Some _) Hr Ej); simpl; try done;
      try (intros r' Hne; by rewrite lookup_alter_ne); try (rewrite lookup_alter_eq, Hrun; by eauto);
      try (intros a [= <-]; rewrite ?lookup_alter_eq, Hrun; simpl; by rewrite ?Em).
Qed.

Lemma handler_ends_wf s r t s' : wf s -> handler_ends s r t = Some s' -> wf s'.
Proof.
  intros [Hs Hr] H. unfold handler_ends in H. destruct (calls s !! r) as [b|] eqn:Ec; [|done]. injection H as <-.
  split; [by eapply sockets_ext, Hs|].
  set (j := if b then AlarmEnds r t else EventEnds r).
  assert (job_run j = r /\ event_run j = None /\ forall r' w k, Event r' w k <> j) as (J1 & J2 & J3) by by destruct b.
  assert (dom (calls s) = {[r]} ∪ dom (delete r (calls s))) as Hdom.
  { rewrite dom_delete_L. apply elem_of_dom_2 in Ec. by rewrite <-union_difference_singleton_L. }
  assert (waiting (add_job (set_calls s (delete r (calls s))) j) ≡ₚ waiting s) as Hw.
  { unfold waiting. simpl. rewrite Hdom, fmap_app, <-app_assoc. simpl. rewrite J1.
    rewrite elements_union_singleton by (rewrite dom_delete_L; set_solver). cbn [app]. done. }
  destruct Hr as [R1 R2 R3 R4 R5 R6 R7]. fold j. split; simpl; try done.
  - rewrite omap_app. simpl. by rewrite J2, app_nil_r.
  - intros r' ws k. rewrite elem_snoc_ne by apply J3. apply R3.
  - by rewrite Hw.
  - intros r'. rewrite Hw. apply R5.
Qed.

Lemma bare_wf next : wf (bare next).
Proof.
  split; split; unfold mode_of; simpl; try done; try apply NoDup_nil_2; try apply SSorted_nil; try set_solver.
  intros ws. split; [by intros ?%not_elem_of_nil|by intros [??]].
Qed.

(** A restored socket is one that was accepted before. *)
Lemma restore_wf s r : wf s -> heap s !! r_id r = None -> r_id r < next_socket s -> wf (restore s r).
Proof.
  intros Hwf Hnew Hlt. set (o := objectSocket None (r_tags r) (r_attachment r)).
  assert (r_id r ∉ sockets s) as Hnot.
  { intros [m Hm]%(w_map s (proj1 Hwf)). apply standing_accepted, (w_mode s (proj1 Hwf)) in Hm.
    unfold mode_of in Hm. by rewrite Hnew in Hm. }
  pose proof (add_socket_wf s (r_id r) o (next_socket s) Hwf Hnew eq_refl eq_refl Hlt (Z.le_refl _)) as Hwf'.
  apply (runs_enter_wf _ (r_id r) o ToHandlers (r_tags r)) in Hwf'; [|by simpl; rewrite lookup_insert_eq|done].
  eapply wf_same, Hwf'; simpl; try done; [by rewrite insert_insert_eq|by rewrite decide_False].
Qed.

Lemma install_wf restored next :
  NoDup (r_id <$> restored) -> Forall (fun r => r_id r < next) restored -> wf (install restored next).
Proof.
  intros Hnd Hlt.
  assert (forall s, wf s -> (forall r, r ∈ restored -> heap s !! r_id r = None) -> next_socket s = next ->
                    wf (foldl restore s restored)) as H; [|apply H; [apply bare_wf|done|done]].
  induction restored as [|r restored IH]; intros s Hwf Hnew Hn; [done|]. cbn [foldl].
  rewrite fmap_cons in Hnd. apply NoDup_cons in Hnd as [Hnot Hnd]. apply Forall_cons in Hlt as [Hr Hlt].
  apply IH; [done|done| | |done].
  - apply restore_wf; [done|apply Hnew, list_elem_of_here|lia].
  - intros r' Hin. simpl. rewrite lookup_insert_ne; [by apply Hnew, list_elem_of_further|].
    intros He. apply Hnot. rewrite He. by apply list_elem_of_fmap_2.
Qed.

(** A close() that returns: it closes the socket, or the socket was closed before. *)
Lemma close_wf s ws o c r :
  wf s -> heap s !! ws = Some o ->
  wf (snd (close (foldl note s (if is_ok (fst (close s ws o c r)) then [CloseReturned ws] else [])) ws o c r)).
Proof.
  intros Hwf Eo. unfold close. destruct (GuestSockets.code_refused c); [done|].
  destruct (match r with Some _ => _ | None => _ end); [done|].
  destruct (readyState o) eqn:Er; simpl.
  - apply post_wf, runs_leave_wf; try done; [by eapply elem_of_dom_2|]. intros w t ->. simpl.
    destruct (decide (w = ws)) as [->|Hne]; [|by rewrite decide_False by naive_solver].
    rewrite decide_True; [done|]. split; [done|]. apply not_true_is_false. intros Hc.
    apply (w_closed s (proj1 Hwf) ws o Eo) in Hc. congruence.
  - destruct Hwf as [Hs Hr]. split.
    + apply sockets_note; [|done|done]. intros w. simpl. rewrite decide_False; [done|]. intros [<- Hc].
      apply (w_closed s Hs ws o Eo) in Er. congruence.
    + eapply runs_ext, Hr; simpl; try done.
      * rewrite omap_app. simpl. by rewrite app_nil_r.
      * intros r' a. by rewrite elem_snoc_ne.
Qed.

Lemma handed_wf s r ws k : wf s -> wf (note s (Handed r ws k)).
Proof.
  intros [Hs Hr]. split.
  - apply sockets_note; [|done|done]. intros w. simpl. by case_decide.
  - eapply runs_ext, Hr; simpl; try done.
    + rewrite omap_app. simpl. by rewrite app_nil_r.
    + intros r' a. by rewrite elem_snoc_ne.
Qed.

Lemma runs_exec_wf s l s' : wf s -> due_wf s -> exec s l = Some s' -> wf s'.
Proof.
  intros Hwf Hd. unfold exec. destruct l as [|ws|ws t|ws f|ws c r|ws v|id k| |r t|]; simpl.
  - intros [= <-]. by apply pair_wf.
  - destruct (heap s !! ws) as [o|] eqn:Eo; unfold accept; [|simpl; by rewrite Eo].
    destruct (mode o) eqn:Em; simpl; rewrite Eo; simpl; rewrite Em; intros [= <-]; [done|]. by apply runs_enter_wf.
  - destruct ws as [ws|]; [|simpl; by intros [= <-]]. intros [= <-]. unfold acceptWebSocket. simpl.
    destruct (heap s !! ws) as [o|] eqn:Eo; simpl; [|by rewrite Eo]. destruct (mode o) eqn:Em; simpl; [by rewrite Eo; simpl; rewrite Em|].
    destruct (tag_list t); simpl; rewrite Eo; simpl; rewrite Em; [by apply runs_enter_wf|done].
  - destruct (heap s !! ws) as [o|] eqn:Eo; simpl; [|done]. intros [= <-]. unfold send.
    repeat case_match; simpl; try done. by apply post_wf.
  - destruct (heap s !! ws) as [o|] eqn:Eo; simpl; [|by rewrite Eo].
    pose proof (close_wf s ws o c r Hwf Eo) as Hc. destruct (is_ok (fst (close s ws o c r))); simpl in *;
      rewrite Eo; simpl; by intros [= <-].
  - destruct (heap s !! ws) as [o|] eqn:Eo; simpl; [|done]. intros [= <-]. unfold serializeAttachment.
    assert (forall op, wf (post s op)) as Hp by by intros op; apply post_wf.
    destruct (is_nullish v); simpl; [by apply (attach_wf (post s _) ws o)|].
    destruct (serialize v); simpl; [|done]. case_match; simpl; [done|].
    destruct (clone v); simpl; [by apply (attach_wf (post s _) ws o)|done].
  - intros [= <-]. apply new_run_wf; [done| |by apply handed_wf]. intros r r' ws k' [= _ He _].
    case_decide as Hin; [|done]. injection He as <-. apply (w_map s (proj1 Hwf)) in Hin as [m Hm].
    apply standing_accepted, (w_mode s (proj1 Hwf)) in Hm. unfold mode_of in *. simpl. eauto.
  - intros [= <-]. by apply new_run_wf.
  - by apply handler_ends_wf.
  - destruct (jobs s) as [|j rest] eqn:Ej; [by simpl; rewrite Ej|]. pose proof (runs_job_wf s j rest Hwf Hd Ej) as Hj.
    destruct j as [r o k|r|r|r t]; simpl; rewrite Ej; by intros [= <-].
Qed.

(** ** What the runs of events are due to close *)

Definition hands (e : Entry) : Prop := match e with Handed _ _ _ => True | _ => False end.

Lemma due_snoc l e ws : ~ hands e -> st_due (stand (l ++ [e]) ws) = st_due (stand l ws).
Proof. rewrite stand_snoc. destruct e; simpl; try done; by case_decide. Qed.

(** Everything but a new event. *)
Record kept (s s' : State) : Prop := {
  k_jobs : forall r o k, Event r o k ∈ jobs s' -> Event r o k ∈ jobs s;
  k_due : forall ws, st_due (stand (log s') ws) = st_due (stand (log s) ws);
  k_next : (next_run s <= next_run s')%nat
}.

Lemma due_kept s s' : kept s s' -> due_wf s -> due_wf s'.
Proof.
  intros [K1 K2 K3] [D1 D2]. split.
  - intros r o k Hin ws. rewrite K2. by apply D1, K1.
  - intros r ws. rewrite K2. intros ?%D2. lia.
Qed.

Lemma note_kept s s' e : ~ hands e -> kept s s' -> kept s (note s' e).
Proof. intros He [K1 K2 K3]. split; simpl; try done. intros ws. by rewrite due_snoc. Qed.

Lemma job_kept s s' j : match j with Event _ _ _ => False | _ => True end -> kept s s' -> kept s (add_job s' j).
Proof.
  intros Hj [K1 K2 K3]. split; simpl; try done. intros r o k. rewrite elem_snoc_ne by by destruct j. apply K1.
Qed.

Lemma same_kept s s1 s2 :
  jobs s2 = jobs s1 -> log s2 = log s1 -> (next_run s1 <= next_run s2)%nat -> kept s s1 -> kept s s2.
Proof. intros E1 E2 E3 [K1 K2 K3]. split; rewrite ?E1, ?E2; try done. lia. Qed.

Lemma kept_refl s : kept s s.
Proof. by split. Qed.

(** The body of a job adds no event. *)
Lemma run_job_kept s s1 j : kept s s1 -> kept s (run_job s1 j).
Proof.
  intros Hk.
  assert (forall c s2, kept s s2 -> kept s (set_calls s2 c)) as Hc by (intros c s2; by apply same_kept).
  assert (forall r f s2, kept s s2 -> kept s (set_run s2 r f)) as Hr by (intros r f s2; by apply same_kept).
  destruct j as [r [ws|] k|r|r|r t]; simpl.
  - unfold deliver. set (s2 := if decide _ then s1 else leave s1 ws).
    assert (kept s s2) as Hl by (subst s2; case_decide; [done|]; by apply (same_kept s s1)).
    repeat case_match; repeat first [apply job_kept; [done|]|apply Hc|apply note_kept; [tauto|]]; done.
  - by apply job_kept.
  - by apply Hr.
  - destruct has_alarm; [by apply Hc|by apply job_kept].
  - assert (kept s (note s1 (AlarmRan r t))) as Hn by (apply note_kept; [tauto|done]).
    repeat case_match; try done; by apply Hr.
Qed.

Lemma history_kept s l :
  match l with LSocket _ _ => False | _ => True end -> kept s (foldl note s (history s l)).
Proof.
  intros Hl. destruct l as [|ws|[ws|] t|ws f|ws c r|ws v|id k| |r t|]; try done; cbn [history];
    repeat case_match; try done; by apply note_kept; [tauto|apply kept_refl].
Qed.

Lemma act_kept s s1 l s' :
  match l with LSocket _ _ | LJob => False | _ => True end -> kept s s1 -> act s1 l = Some s' -> kept s s'.
Proof.
  intros Hl Hk Ha.
  destruct l as [|ws|ws t|ws f|ws c r|ws v|id k| |r t|]; try done; cbn [act] in Ha.
  - injection Ha as <-. by apply (same_kept s s1).
  - destruct (heap s1 !! ws) as [o|]; [|done]. injection Ha as <-. unfold accept. case_match; [done|]. by apply (same_kept s s1).
  - injection Ha as <-. unfold acceptWebSocket. repeat case_match; try done; by apply (same_kept s s1).
  - destruct (heap s1 !! ws) as [o|]; [|done]. injection Ha as <-. unfold send. repeat case_match; try done; by apply (same_kept s s1).
  - destruct (heap s1 !! ws) as [o|]; [|done]. injection Ha as <-. unfold close. repeat case_match; try done; by apply (same_kept s s1).
  - destruct (heap s1 !! ws) as [o|]; [|done]. injection Ha as <-. unfold serializeAttachment.
    repeat case_match; try done; by apply (same_kept s s1).
  - injection Ha as <-. apply (same_kept s (add_job s1 (Alarm (next_run s1)))); simpl; try done; [lia|]. by apply job_kept.
  - unfold handler_ends in Ha. destruct (calls s1 !! r) as [b|]; [|done]. injection Ha as <-.
    apply job_kept; [by destruct b|]. by apply (same_kept s s1).
Qed.

(** An event the host hands over is due if it closes a socket the object has. *)
Lemma handed_due s id k : wf s -> due_wf s -> due_wf (socket (note s (Handed (next_run s) id k)) id k).
Proof.
  intros Hwf [D1 D2]. pose proof (w_map s (proj1 Hwf) id) as Hm.
  assert (forall r ws, r <> next_run s ->
    r ∈ st_due (stand (log s ++ [Handed (next_run s) id k]) ws) <-> r ∈ st_due (stand (log s) ws)) as Hold.
  { intros r ws Hne. rewrite stand_snoc. simpl. case_decide; simpl; [set_solver|done]. }
  assert (forall ws, next_run s ∈ st_due (stand (log s ++ [Handed (next_run s) id k]) ws) <->
    id = ws /\ k <> KMessage /\ is_Some (standing (log s) ws)) as Hnew.
  { intros ws. rewrite stand_snoc. simpl. case_decide as Hc; simpl; [set_solver|]. split; [|done].
    intros Hin%D2. lia. }
  split; simpl.
  - intros r o k' [Hin|Hin]%elem_of_app ws.
    + rewrite Hold; [by apply D1|]. intros ->.
      assert (next_run s < next_run s)%nat; [|lia]. apply (waiting_runs s _ (proj2 Hwf)), event_waits.
      apply list_elem_of_omap. by exists (Event (next_run s) o k').
    + apply list_elem_of_singleton in Hin. injection Hin as -> -> ->. rewrite Hnew.
      case_decide as Hs; (split; [intros (<- & Hk & Hst)|intros [E Hk]]); simplify_eq; try done.
      * split_and!; [done|done|by apply Hm].
      * by apply Hm in Hst.
  - intros r ws Hin. destruct (decide (r = next_run s)) as [->|Hne]; [lia|]. apply Hold in Hin; [|done]. apply D2 in Hin. lia.
Qed.

Lemma due_exec_wf s l s' : wf s -> due_wf s -> exec s l = Some s' -> due_wf s'.
Proof.
  intros Hwf Hd He. unfold exec in He.
  destruct l as [|ws|ws t|ws f|ws c r|ws v|id k| |r t|];
    try (eapply due_kept, Hd; eapply act_kept, He; [done|]; by apply history_kept).
  - injection He as <-. by apply handed_due.
  - pose proof (history_kept s LJob I) as [K1 K2 K3]. cbn [act] in He.
    destruct (jobs (foldl note s (history s LJob))) as [|j rest] eqn:Ej; [done|]. injection He as <-.
    eapply due_kept, Hd. apply run_job_kept. split; simpl; try done.
    intros r o k Hin. apply (K1 r o k). by apply list_elem_of_further.
Qed.

Lemma bare_due next : due_wf (bare next).
Proof. split; simpl; set_solver. Qed.

Lemma install_due restored next : due_wf (install restored next).
Proof.
  unfold install. generalize (bare_due next). generalize (bare next).
  induction restored as [|r restored IH]; intros s Hs; [done|]. apply IH. eapply due_kept, Hs.
  split; simpl; try done. intros ws. apply due_snoc. tauto.
Qed.

Lemma reach_due_wf s : reach s -> wf s /\ due_wf s.
Proof.
  apply (reachable_invariant _ _ (fun s => wf s /\ due_wf s)).
  - intros s0 (restored & next & H1 & H2 & ->). split; [by apply install_wf|apply install_due].
  - intros s1 s2 [Hwf Hd] [l Hl]. split; [by eapply runs_exec_wf|by eapply due_exec_wf].
Qed.

Lemma runs_reach_wf s : reach s -> wf s.
Proof. intros H. apply (reach_due_wf s H). Qed.

(** ** What the object promises its sockets and alarms *)


(** The events of sockets reach the object in the order the host handed them over,
    each at most once, and each the listeners or the handlers its socket was accepted for. *)
Theorem socket_events_arrive_in_order s :
  reach s ->
  StronglySorted lt (omap delivered (log s)) /\
  (forall r ws k m, Delivered r ws k m ∈ log s -> Accepted ws m ∈ log s /\ (r < next_run s)%nat).
Proof.
  intros [[H1 H2 H3 H4 H5 H6 H7 H8] [R1 R2 R3 R4 R5 R6 R7]]%runs_reach_wf. split.
  - revert R1. generalize (omap event_run (jobs s)) (omap delivered (log s)). intros b a.
    induction b as [|x b IH]; [by rewrite app_nil_r|]. intros Hs. by apply IH, (sorted_drop _ _ x).
  - intros r ws k m Hd. split; [by eapply H3, H7|]. apply R2, list_elem_of_omap. by exists (Delivered r ws k m).
Qed.

(** What the host reads of an alarm: success if the handler ended or threw an error
    whose message is no string, a failure with its message if that is a string, and nothing
    ever if the message of the error cannot be made. *)
Theorem alarm_outcomes s r thrown :
  reach s -> AlarmRan r thrown ∈ log s ->
  exists run, runs s !! r = Some run /\
  outcome run = match thrown with
                | None => Some (Ok tt)
                | Some e => match message e with
                            | Some (JString m) => Some (Err m)
                            | Some _ => Some (Ok tt)
                            | None => None
                            end
                end.
Proof.
  intros [_ Hr]%runs_reach_wf Hin. exists (ended thrown). split; [by apply (w_ran s Hr)|].
  destruct thrown as [e|]; [|done]. unfold ended, outcome. by destruct (message e) as [[]|].
Qed.

End Runs.

(** ** A run *)

Notation demo_exec := (exec ObjectScript.demo_string (fun _ _ => Some JUndefined) (fun _ => true) String.length
  (fun v => Some v) ObjectScript.demo_serialize true (fun _ => true)).
Notation demo_reach := (reach ObjectScript.demo_string (fun _ _ => Some JUndefined) (fun _ => true) String.length
  (fun v => Some v) ObjectScript.demo_serialize true (fun _ => true)).

Definition demo_start : State := install [mkRestored 1 ["room"%string] JNull] 5.

Lemma demo_starts : start demo_start.
Proof.
  exists [mkRestored 1 ["room"%string] JNull], 5. split_and!; [apply NoDup_singleton|by repeat constructor|done].
Qed.

Definition demo (ls : list label) : State := default demo_start (run_steps demo_exec demo_start ls).

Lemma runs_demo_reachable ls : is_Some (run_steps demo_exec demo_start ls) -> demo_reach (demo ls).
Proof.
  intros [s Hs]. unfold demo. rewrite Hs. simpl. apply (run_steps_reachable demo_exec start demo_start ls); [|done].
  apply demo_starts.
Qed.

(** A restored socket and one with listeners each get a message, and the alarm throws. *)
Definition demo_error : Js := JObject [("message"%string, Some (JString "late"))].
Definition demo_labels : list label :=
  [LPair; LAccept 5; LSocket 5 KMessage; LSocket 1 KMessage; LJob; LJob; LAlarm; LJob; LHandlerEnds 1 None;
   LJob; LHandlerEnds 2 (Some demo_error); LJob; LJob].

Lemma runs_demo_runs : is_Some (run_steps demo_exec demo_start demo_labels).
Proof. eexists. vm_compute. reflexivity. Qed.

Lemma demo_log :
  log (demo demo_labels) =
  [Accepted 1 ToHandlers; Accepted 5 ToListeners; Handed 0 5 KMessage; Handed 1 1 KMessage; Began 0;
   Delivered 0 5 KMessage ToListeners; Began 1; Delivered 1 1 KMessage ToHandlers; AlarmRan 2 (Some demo_error)].
Proof. vm_compute. reflexivity. Qed.

(** Then the host hands over the close of the one, and the guest closes the other. *)
Definition demo_closing : list label :=
  demo_labels ++ [LSocket 1 KClose; LClose 5 GuestSockets.CUndefined None; LJob].

Lemma demo_closing_runs : is_Some (run_steps demo_exec demo_start demo_closing).
Proof. eexists. vm_compute. reflexivity. Qed.


Lemma socket_events_arrive_in_order_witness :
  omap delivered (log (demo demo_labels)) = [0; 1]%nat /\ StronglySorted lt (omap delivered (log (demo demo_labels))).
Proof.
  split; [by rewrite demo_log|].
  exact (proj1 (socket_events_arrive_in_order _ _ _ _ _ _ _ _ _ (runs_demo_reachable _ runs_demo_runs))).
Defined.

Lemma alarm_outcomes_witness :
  AlarmRan 2 (Some demo_error) ∈ log (demo demo_labels) /\
  exists run, runs (demo demo_labels) !! 2%nat = Some run /\ outcome run = Some (Err "late"%string).
Proof.
  assert (AlarmRan 2 (Some demo_error) ∈ log (demo demo_labels)) as Hin by (rewrite demo_log; set_solver).
  split; [exact Hin|]. exact (alarm_outcomes _ _ _ _ _ _ _ _ _ _ _ (runs_demo_reachable _ runs_demo_runs) Hin).
Defined.

(** A socket that is closed before it is accepted pins the object, and nothing the guest
    does lets it go. *)
Example closed_sockets_pin :
  let s := demo [LPair; LClose 5 GuestSockets.CUndefined None; LAccept 5;
                 LClose 5 GuestSockets.CUndefined None] in
  readyState <$> heap s !! 5 = Some CLOSED /\ sockets s = [1; 5] /\ pinned s = true /\
  fst <$> ((fun o => accept s 5 o) <$> heap s !! 5) = Some (Err (TypeError ALREADY)).
Proof. vm_compute. auto. Qed.

(** An alarm whose error has a number for a message is a success for the host; one whose
    error cannot be printed never ends. *)
Example odd_alarms :
  outcome <$> runs (demo [LAlarm; LJob; LHandlerEnds 0 (Some ObjectScript.odd_error); LJob]) !! 0%nat = Some (Some (Ok tt)) /\
  outcome <$> runs (demo [LAlarm; LJob; LHandlerEnds 0 (Some (JObject [])); LJob]) !! 0%nat = Some None.
Proof. vm_compute. auto. Qed.

(** close(NaN) passes the check and sends the code 0. *)
Example close_nan :
  outbox (demo [LClose 1 GuestSockets.CNaN None]) = [Natives.Send 1 (Natives.Close 0 "")].
Proof. vm_compute. auto. Qed.

End ObjectRuns.
