(* ===== verification/ObjectGates.v ===== *)
(** * The gate of a Durable Object, from the host to the script

    DurableObject.v takes what one run of guest code does as given; ObjectScript.v says what
    durable_object.js does in it. Here one state of the script goes through all the runs of
    an object, so what the host promises about gates it promises about the reads and the
    callbacks of the guest. *)

From stdpp Require Import base list gmap strings.
From Stdlib Require Import ZArith Lia.
From S2P Require Import Prelude Handlers Dispatch Readers Natives ObjectQueue DurableObject DurableObjectCorrect ObjectSteps ObjectScript.

Module ObjectGates.
Import ObjectQueue DurableObject.

Section Script.

Context {SocketOp Answer Host : Type}.
Local Notation StorageOp := Natives.ObjectStorageOp.
Context (writes : StorageOp -> bool).
Context (storage_error : string -> Answer) (is_error : Answer -> bool).
Context (handle_storage : Host -> StorageOp -> option Answer * Host).
Context (handle_socket : Host -> SocketOp -> Host).
Context (host0 : Host).
Context (to_string_other : Readers.Js -> option string) (get_other : Readers.Js -> string -> option Readers.Js).
Context (to_number : Readers.Js -> option Handlers.number) (trunc : Z -> Z) (double_truthy : Z -> bool).
Context (serialize : Readers.Js -> option (list Z)) (entries_other : Readers.Js -> option (list (string * Readers.Js))).
Context (get_time : Readers.Js -> option Handlers.number).
Context (double_finite : Z -> bool) (math_trunc : Z -> Handlers.number) (has_alarm : bool).

Local Notation exec := (ObjectScript.exec to_string_other get_other to_number trunc double_truthy serialize
  entries_other get_time double_finite math_trunc has_alarm).
Local Notation reach := (ObjectScript.reach to_string_other get_other to_number trunc double_truthy serialize
  entries_other get_time double_finite math_trunc has_alarm).
Local Notation Script := ObjectScript.Script.
Local Notation Ask := (@Ask StorageOp SocketOp).
Local Notation Guest := (@Guest StorageOp SocketOp).
Local Notation Object := (@Object StorageOp SocketOp).

(** ** One script through all the runs *)

Definition storage_op (a : Ask) : option StorageOp :=
  match a with AskStorage _ op => Some op | _ => None end.

(** One run of guest code takes the script from [s] to [s']: the ops it asks are those the
    methods sent, and the gate is the one the host reads after it. V8 runs the microtasks
    before a call of the host returns, unless it is terminated. *)
Record run_is (s : Script) (g : Guest) (s' : Script) : Prop := {
  run_does : exists ls, run_steps exec s ls = Some s';
  run_asks : snd <$> ObjectScript.sent s' = (snd <$> ObjectScript.sent s) ++ omap storage_op (asks g);
  run_gate : exists c, gate_after g = ObjectScript.read_gate c s' /\
               (terminated g = false -> c = ObjectScript.all_told /\ ObjectScript.jobs s' = [])
}.

(** The states of the script after each run. *)
Fixpoint plays (s : Script) (gs : list Guest) (ss : list Script) : Prop :=
  match gs, ss with
  | [], [] => True
  | g :: gs, s' :: ss => run_is s g s' /\ plays s' gs ss
  | _, _ => False
  end.

Definition state_at (s : Script) (ss : list Script) (k : nat) : Script := default s (last (take k ss)).

(** None of the first [k] runs was terminated. *)
Definition undisturbed (gs : list Guest) (k : nat) : Prop := Forall (fun g => terminated g = false) (take k gs).

Lemma last_default_cons {A} (x y : A) l : default x (last (y :: l)) = default y (last l).
Proof. rewrite last_cons. by destruct (last l). Qed.

Lemma state_at_cons s s' ss k : state_at s (s' :: ss) (S k) = state_at s' ss k.
Proof. apply last_default_cons. Qed.

(** What the script is after [k] runs, when none was terminated. *)
Lemma plays_at gs : forall s ss k (g0 : Gate),
  plays s gs ss -> reach s -> ObjectScript.jobs s = [] -> g0 = ObjectScript.gate s -> undisturbed gs k ->
  let s' := state_at s ss k in
  reach s' /\ ObjectScript.jobs s' = [] /\
  from_option gate_after g0 (last (take k gs)) = ObjectScript.gate s' /\
  snd <$> ObjectScript.sent s' = (snd <$> ObjectScript.sent s) ++ omap storage_op (mjoin (asks <$> take k gs)).
Proof.
  induction gs as [|g gs IH]; intros s [|s1 ss] k g0 Hp Hr Hj Hg Hu; try done.
  { rewrite take_nil. unfold state_at. rewrite take_nil. simpl. by rewrite app_nil_r. }
  destruct k as [|k]; [simpl; by rewrite app_nil_r|]. destruct Hp as [[[ls Hls] Ha [c [Hc Ht]]] Hp].
  apply Forall_cons in Hu as [Hg1 Hu]. destruct (Ht Hg1) as [-> Hj1].
  assert (reach s1) as Hr1.
  { destruct Hr as (s00 & H0 & Hsteps). exists s00. split; [done|]. etrans; [exact Hsteps|].
    destruct (run_steps_reachable exec (eq s) s ls s1 eq_refl Hls) as (? & <- & ?). done. }
  rewrite state_at_cons. destruct (IH s1 ss k (gate_after g) Hp Hr1 Hj1 Hc Hu) as (H1 & H2 & H3 & H4).
  simpl. split_and!; [done|done| |].
  - rewrite <-H3, last_cons. by destruct (last (take k gs)).
  - rewrite H4, Ha, omap_app, <-app_assoc. done.
Qed.

(** No callback of [blockConcurrencyWhile] runs, and no read is under way. *)
Definition no_reads (s : Script) : Prop :=
  forall id p, ObjectScript.pending s !! id = Some p -> ObjectScript.purpose p <> ObjectScript.Reading.

Definition at_rest (s : Script) : Prop := ObjectScript.running s = ∅ /\ no_reads s.

Lemma open_at_rest s :
  reach s -> ObjectScript.jobs s = [] -> gate_open (ObjectScript.gate s) = true -> at_rest s.
Proof.
  intros Hr Hj Ho. apply ObjectScript.quiet_counters in Hr as [Hb Hd]; [|done].
  unfold ObjectScript.gate, ObjectScript.read_gate in Ho. simpl in Ho.
  assert (ObjectScript.is_blocked s = false /\ ObjectScript.is_reading s = false) as [Eb Ed].
  { destruct (ObjectScript.failure s), (ObjectScript.is_blocked s), (ObjectScript.is_reading s); done. }
  rewrite Eb in Hb. rewrite Ed in Hd. split.
  - destruct (decide (ObjectScript.running s = ∅)) as [|Hne]; [done|]. by assert (false = true) by (apply Hb; by left).
  - intros id p Hp Hread. assert (false = true) by (apply Hd; eauto). done.
Qed.

Lemma not_reading_none s :
  reach s -> ObjectScript.jobs s = [] -> gate_reading (ObjectScript.gate s) = false ->
  (exists f, ObjectScript.gate s = Broken f) \/ no_reads s.
Proof.
  intros Hr Hj Hg. apply ObjectScript.quiet_counters in Hr as [_ Hd]; [|done].
  unfold ObjectScript.gate, ObjectScript.read_gate in *. simpl in *.
  destruct (ObjectScript.failure s); try (by left; eexists); right; intros id p Hp Hread;
    (assert (ObjectScript.is_reading s = true) as E by (apply Hd; eauto)); simpl in Hg; congruence.
Qed.

(** C8: an object whose runs are those of its script, from the state its constructor left,
    takes an event only while no blockConcurrencyWhile callback of the script runs and the
    host answered all its storage reads; and while a read of the script is under way, it runs
    no callback but storage results, unless it is broken. This holds as long as no run was
    terminated, and the ops the script sent by then are those the object asked. *)
Theorem events_wait_for_the_guest idle drain at_ spent (o : Object) first mailbox es p o' t' tm' s ss :
  DurableObjectCorrect.fresh writes storage_error is_error handle_storage handle_socket host0 o ->
  reach s -> ObjectScript.jobs s = [] -> gate o = ObjectScript.gate s -> plays s (script o) ss ->
  serve_object writes storage_error is_error handle_storage handle_socket host0 idle drain at_ spent o first mailbox es
    = (p, o', t', tm') ->
  forall i e, log o' !! i = Some e ->
  let k := ObjectSteps.entered (take i (log o')) in
  let s' := state_at s ss k in
  undisturbed (script o) k ->
  snd <$> ObjectScript.sent s' = (snd <$> ObjectScript.sent s) ++ omap storage_op (mjoin (asks <$> take k (script o))) /\
  match e with
  | Took _ g => g = ObjectScript.gate s' /\ at_rest s'
  | Ran m g =>
      g = ObjectScript.gate s' /\
      (is_storage m = false -> (exists f, ObjectScript.gate s' = Broken f) \/ no_reads s')
  | _ => True
  end.
Proof.
  intros Hf Hr Hj Hg Hp He i e Hi k s' Hu.
  destruct (plays_at _ _ _ k _ Hp Hr Hj Hg Hu) as (Hr' & Hj' & Hg' & Ha).
  pose proof (ObjectSteps.serve_object_in_step _ _ _ _ _ _ _ _ _ _ _ _ _ _ _ _ _ _ (proj2 Hf) He) as Hin.
  pose proof (ObjectSteps.is_log _ _ Hin i e Hi) as Hs.
  pose proof (DurableObjectCorrect.serve_object_ok _ _ _ _ _ _ _ _ _ _ _ _ _ _ _ _ _ _ Hf He) as Hok.
  apply DurableObjectCorrect.ok_object, DurableObjectCorrect.wf_log in Hok.
  pose proof (proj1 (Forall_forall _ _) Hok _ (list_elem_of_lookup_2 _ _ _ Hi)) as Hen. clear Hok.
  split; [exact Ha|]. destruct e; try done; simpl in Hs, Hen; unfold ObjectSteps.gate_at, ObjectSteps.last_run in Hs;
    fold k in Hs; rewrite Hg' in Hs; subst g; (split; [done|]).
  - by apply open_at_rest.
  - intros Hm. apply not_reading_none; try done. destruct (gate_reading _); [|done]. by rewrite Hen in Hm.
Qed.

End Script.

(** ** A run *)

(** The fetch reads a key and writes another; an alarm and a timer come while it reads. *)
Definition demo_op_writes (op : Natives.ObjectStorageOp) : bool :=
  match op with Natives.Write _ _ _ | Natives.SetAlarm _ => true | _ => false end.

Definition demo_runs : list (list ObjectScript.label) :=
  [[ObjectScript.LGet (Readers.JString "a"); ObjectScript.LPut (Readers.JString "b") (Readers.JBool true)];
   [ObjectScript.LSettle 0 (Ok Readers.JNull); ObjectScript.LJob; ObjectScript.LJob]; []; []].
Definition demo_states : list ObjectScript.Script :=
  (fun k => ObjectScript.demo (mjoin (take (S k) demo_runs))) <$> seq 0 4.

Definition demo_guest (k : nat) (asks : list (Ask (StorageOp := Natives.ObjectStorageOp) (SocketOp := unit)))
    (runs : gmap EventId Run) : Guest :=
  mkGuest asks (ObjectScript.gate (state_at ObjectScript.initial demo_states k)) false runs false.

Definition demo_object : Object (StorageOp := Natives.ObjectStorageOp) (SocketOp := unit) :=
  mkObject
    [demo_guest 1 [AskStorage 1%Z (Natives.Get ["a"%string]);
                   AskStorage 2%Z (Natives.Write [("b"%string, [0; 0; 0]%Z)] [] false)] ∅;
     demo_guest 2 [] {[1 := DurableObjectCorrect.demo_run_fetch]};
     demo_guest 3 [] {[1 := DurableObjectCorrect.demo_run_fetch]};
     demo_guest 4 [] {[1 := DurableObjectCorrect.demo_run_fetch; 2 := DurableObjectCorrect.demo_run_alarm true]}]
    (GateState false false) false ∅ [] 0 0 [0; 9; 9] [].

Definition demo_serve :=
  serve_object demo_op_writes Err (fun r => negb (is_ok r)) (fun h _ => (Some (Ok tt), h)) (fun h (_ : unit) => h) tt 100 50 0 false
    demo_object (Fetch 1 false) [] DurableObjectCorrect.demo_polls.

Definition demo_end := snd (fst (fst demo_serve)).

Lemma demo_object_result :
  demo_serve = (Over (Ok tt), demo_end, mkLoop [] [] [] [] false, mkTimers 110 None None).
Proof. vm_compute. reflexivity. Qed.

Lemma demo_object_fresh :
  DurableObjectCorrect.fresh demo_op_writes Err (fun r => negb (is_ok r)) (fun h _ => (Some (Ok tt), h)) (fun h (_ : unit) => h) tt demo_object.
Proof. by split; [constructor; try constructor|]. Qed.

Notation demo_plays := (plays ObjectScript.demo_string (fun _ _ => Some Readers.JUndefined) (fun _ => None) (fun z => z)
  (fun _ => true) ObjectScript.demo_serialize (fun _ => Some []) (fun _ => None) (fun _ => true) Handlers.Int true).

Lemma demo_script_plays : demo_plays ObjectScript.initial (script demo_object) demo_states.
Proof.
  repeat split.
  - by exists (nth 0 demo_runs []).
  - exists ObjectScript.all_told. by split.
  - by exists (nth 1 demo_runs []).
  - exists ObjectScript.all_told. by split.
  - by exists (nth 2 demo_runs []).
  - exists ObjectScript.all_told. by split.
  - by exists (nth 3 demo_runs []).
  - exists ObjectScript.all_told. by split.
Qed.

Lemma demo_took :
  log demo_end !! 8 = Some (Took 2 (GateState false false)) /\ ObjectSteps.entered (take 8 (log demo_end)) = 3.
Proof. vm_compute. by split. Qed.

Lemma demo_reached : ObjectScript.demo_reach ObjectScript.initial.
Proof. apply (ObjectScript.script_demo_reachable []). by eexists. Qed.

(** The alarm is taken after three runs, once the read is answered; the write is not. *)
Lemma events_wait_for_the_guest_witness :
  let s := state_at ObjectScript.initial demo_states 3 in
  at_rest s /\ snd <$> ObjectScript.sent s = [Natives.Get ["a"%string]; Natives.Write [("b"%string, [0; 0; 0]%Z)] [] false] /\
  ObjectScript.pending s = {[1 := ObjectScript.mkPending 4 ObjectScript.Tracked]}.
Proof.
  destruct demo_took as [Ht Hk].
  pose proof (events_wait_for_the_guest demo_op_writes Err (fun r => negb (is_ok r)) (fun h _ => (Some (Ok tt), h))
    (fun h (_ : unit) => h) tt _ _ _ _ _ _ _ _ _ _ _ 100 50 0 false demo_object (Fetch 1 false) []
    DurableObjectCorrect.demo_polls _ _ _ _ ObjectScript.initial demo_states
    demo_object_fresh demo_reached eq_refl eq_refl demo_script_plays demo_object_result 8 _ Ht) as H.
  rewrite Hk in H. destruct H as [H1 [_ H2]]; [by repeat constructor|].
  split; [exact H2|]. split; [exact H1|]. vm_compute. reflexivity.
Defined.

(** A run that is terminated may leave the gate open for the callbacks that follow it,
    whatever the script waits for. *)
Example terminated_calls_open_the_gate :
  let s := ObjectScript.demo [ObjectScript.LBlock; ObjectScript.LGet (Readers.JString "a")] in
  ObjectScript.gate s = GateState true true /\
  ObjectScript.read_gate (ObjectScript.mkCalled false false false) s = GateState false false.
Proof. by vm_compute. Qed.

End ObjectGates.
