(* ===== verification/EnvBindings.v ===== *)
(** * The bindings of a worker (src/src/js/env.js)

    [installEnv] builds the frozen [env] of a worker. The D1 and Durable Object bindings
    give the guest frozen objects (statements, ids) and keep what they stand for in WeakMaps
    of their own; what leaves for the host is read from there. The guest holds any of these
    objects, hands them to any binding, and writes to the buffers it passed.

    An object is its identity. The bytes of a buffer are read when an op is sent; what the
    runner answers for an id is a parameter. The script runs among the guest's own objects:
    the [map] of a list it is handed may be the guest's, and so may [WeakMap.prototype.get].
    Both are modelled; the other built-ins it calls are taken as the engine made them. *)

From stdpp Require Import base list gmap strings.
From Stdlib Require Import ZArith Lia.
From S2P Require Import Prelude Handlers Readers.

Module EnvBindings.

(** ** Values of D1 *)

(** What the guest passes to [bind]: the types D1 takes, a buffer by its identity, and
    everything else by its type. *)
Inductive Value :=
| VNull | VNumber (n : Handlers.number) | VString (s : string) | VBool (b : bool) | VBuffer (buffer : nat)
| VOther (type_name : string).

(** [d1Value]; the error names the type. *)
Definition d1Value (v : Value) : result Value string :=
  match v with VOther t => Err t | v => Ok v end.

Fixpoint d1Values (l : list Value) : result (list Value) string :=
  match l with
  | [] => Ok []
  | v :: l => let? v := d1Value v in let? l := d1Values l in Ok (v :: l)
  end.

(** A statement as the WeakMap has it, and as it leaves, with the bytes its buffers hold. *)
Record Statement := mkStatement { sql : string; params : list Value }.
Inductive Param := PNull | PNumber (n : Handlers.number) | PString (s : string) | PBool (b : bool) | PBytes (bytes : list Z).
Record Sent := mkSent { sent_sql : string; sent_params : list Param }.

(** What goes to the host under the name of a binding. *)
Inductive Message :=
| D1Query (name : string) (s : Sent) (first : bool)
| D1Batch (name : string) (l : list Sent)
| D1Exec (name : string) (sql : string)
| ObjectFetch (binding id : string).

Inductive Thrown := TypeError (what : string) | D1TypeError (type_name : string) | HostError (message : string).

(** A [WeakMap.prototype.get] of the guest: what it answers for a key of either map; [None]
    is a key that is no object of these. *)
Record Replaced := mkReplaced {
  r_statement : option nat -> option (string * Statement);
  r_id : option nat -> option (string * string)
}.

(** The WeakMaps and the way to read them, the buffers of the guest, the stubs it holds, and
    what left. *)
Record Env := mkEnv {
  weakmap_get : option Replaced;
  d1Statements : gmap nat (string * Statement);
  objectIds : gmap nat (string * string);
  stubs : gmap nat (string * string);
  buffers : gmap nat (list Z);
  next : nat;
  outbox : list Message
}.

Definition initial : Env := mkEnv None ∅ ∅ ∅ ∅ 0 [].

Definition send (e : Env) (m : Message) : Env :=
  mkEnv (weakmap_get e) (d1Statements e) (objectIds e) (stubs e) (buffers e) (next e) (outbox e ++ [m]).

(** What a call answers: a new object, or nothing but its op. *)
Definition Called : Type := result (option nat) Thrown * Env.

(** ** D1 *)

Definition param_of (e : Env) (v : Value) : Param :=
  match v with
  | VNull | VOther _ => PNull
  | VNumber n => PNumber n
  | VString s => PString s
  | VBool b => PBool b
  | VBuffer r => PBytes (default [] (buffers e !! r))
  end.

Definition serialize (e : Env) (s : Statement) : Sent := mkSent (sql s) (param_of e <$> params s).

(** [prepared] *)
Definition prepared (e : Env) (name : string) (s : Statement) : Called :=
  (Ok (Some (next e)),
   mkEnv (weakmap_get e) (<[next e := (name, s)]> (d1Statements e)) (objectIds e) (stubs e) (buffers e) (S (next e)) (outbox e)).

(** [prepare]; [None] is an argument that is no string. *)
Definition prepare (e : Env) (name : string) (text : option string) : Called :=
  match text with
  | None => (Err (TypeError "D1: prepare() needs a SQL string"), e)
  | Some text => prepared e name (mkStatement text [])
  end.

(** The methods of a statement, which close over it. *)
Definition bind (e : Env) (name : string) (s : Statement) (values : list Value) : Called :=
  match d1Values values with
  | Err t => (Err (D1TypeError t), e)
  | Ok l => prepared e name (mkStatement (sql s) l)
  end.

Definition query (e : Env) (name : string) (s : Statement) (first : bool) : Called :=
  (Ok None, send e (D1Query name (serialize e s) first)).

(** [d1Statements.get] and [objectIds.get] *)
Definition statement_of (e : Env) (r : option nat) : option (string * Statement) :=
  match weakmap_get e with Some f => r_statement f r | None => r ≫= fun r => d1Statements e !! r end.

Definition id_of (e : Env) (r : option nat) : option (string * string) :=
  match weakmap_get e with Some f => r_id f r | None => r ≫= fun r => objectIds e !! r end.

(** The array handed to [batch]: one with the [map] of arrays, or one whose [map] is the
    guest's, by what that answers: a list of objects with SQL and parameters, or something
    the native refuses. *)
Inductive Listing := Plain (l : list (option nat)) | OwnMap (answer : option (list Statement)).

(** The statements of a batch; [None] in the list is a value that is no statement. *)
Fixpoint entries (e : Env) (name : string) (l : list (option nat)) : option (list Statement) :=
  match l with
  | [] => Some []
  | r :: l =>
      entry ← statement_of e r;
      if String.eqb (fst entry) name then s ← entries e name l; Some (snd entry :: s) else None
  end.

(** [list.map]: its statements, or the error it ends with. *)
Definition map_statements (e : Env) (name : string) (l : Listing) : result (list Statement) Thrown :=
  match l with
  | Plain l =>
      match entries e name l with
      | Some statements => Ok statements
      | None => Err (TypeError "D1: batch() takes statements prepared on this binding only")
      end
  | OwnMap (Some answer) => Ok answer
  | OwnMap None => Err (TypeError "D1_TYPE_ERROR")
  end.

(** [batch]; [None] is an argument that is no array. *)
Definition batch (e : Env) (name : string) (l : option Listing) : Called :=
  match l with
  | None => (Err (TypeError "D1: batch() needs an array of statements"), e)
  | Some l =>
      match map_statements e name l with
      | Err t => (Err t, e)
      | Ok [] => (Ok None, e)
      | Ok statements => (Ok None, send e (D1Batch name (serialize e <$> statements)))
      end
  end.

Definition exec_sql (e : Env) (name : string) (text : option string) : Called :=
  match text with
  | None => (Err (TypeError "D1: exec() needs a SQL string"), e)
  | Some text => (Ok None, send e (D1Exec name text))
  end.

(** ** Rows *)

(** [d1Row]: assignments to a plain object, in order. *)
Definition d1Row (columns : list string) (values : list Readers.Js) : Readers.Fields :=
  foldl (fun row cv => Readers.set_field_key row (fst cv) (snd cv)) []
    (imap (fun i c => (c, default Readers.JUndefined (values !! i))) columns).

Inductive First := FNull | FRow (row : Readers.Fields) | FValue (v : option Readers.Js) | ColumnNotFound (column : string).

(** The answer of [first(column)]. *)
Definition first_of (columns : list string) (rows : list (list Readers.Js)) (column : option string) : First :=
  match rows with
  | [] => FNull
  | values :: _ =>
      match column with
      | None => FRow (d1Row columns values)
      | Some c => if decide (c ∈ columns) then FValue (Readers.get_field (d1Row columns values) c) else ColumnNotFound c
      end
  end.

(** ** Durable Objects *)

Section Ids.

(** [__nativeDurableObjectId]: the id the runner makes of a name or text, or a new one. *)
Inductive Source := Name (s : string) | FromText (s : string) | Unique (nonce : nat).
Context (object_id : string -> Source -> result string string).

(** [objectId] around the native *)
Definition objectId (e : Env) (binding : string) (s : Source) : Called :=
  match object_id binding s with
  | Err m => (Err (HostError m), e)
  | Ok id =>
      (Ok (Some (next e)),
       mkEnv (weakmap_get e) (d1Statements e) (<[next e := (binding, id)]> (objectIds e)) (stubs e) (buffers e) (S (next e)) (outbox e))
  end.

Definition idFromName (e : Env) (binding : string) (name : option string) : Called :=
  match name with
  | None => (Err (TypeError "Durable Objects: idFromName() needs a string"), e)
  | Some n => objectId e binding (Name n)
  end.

Definition idFromString (e : Env) (binding : string) (text : option string) : Called :=
  match text with
  | None => (Err (TypeError "Durable Objects: idFromString() needs a string"), e)
  | Some t => objectId e binding (FromText t)
  end.

(** [newUniqueId]; whether the options name a jurisdiction. *)
Definition newUniqueId (e : Env) (binding : string) (jurisdiction : bool) (nonce : nat) : Called :=
  if jurisdiction then (Err (TypeError "Durable Objects: jurisdictions are not supported"), e)
  else objectId e binding (Unique nonce).

(** [get]; [None] is a value that is no id. *)
Definition get (e : Env) (binding : string) (id : option nat) : Called :=
  match id_of e id with
  | Some (b, i) =>
      if String.eqb b binding then
        (Ok (Some (next e)),
         mkEnv (weakmap_get e) (d1Statements e) (objectIds e) (<[next e := (binding, i)]> (stubs e)) (buffers e) (S (next e)) (outbox e))
      else (Err (TypeError "Durable Objects: get() takes an id of this namespace"), e)
  | None => (Err (TypeError "Durable Objects: get() takes an id of this namespace"), e)
  end.

Definition getByName (e : Env) (binding : string) (name : option string) : Called :=
  match idFromName e binding name with
  | (Ok id, e) => get e binding id
  | (Err t, e) => (Err t, e)
  end.

(** [fetch] of a stub. *)
Definition fetch (e : Env) (stub : string * string) : Called := (Ok None, send e (ObjectFetch (fst stub) (snd stub))).

(** ** The guest *)

Inductive label :=
| LPrepare (name : string) (text : option string) | LBind (stmt : nat) (values : list Value)
| LQuery (stmt : nat) (first : bool) | LBatch (name : string) (l : option Listing)
| LExec (name : string) (text : option string)
| LIdFromName (binding : string) (name : option string) | LIdFromString (binding : string) (text : option string)
| LNewUniqueId (binding : string) (jurisdiction : bool) (nonce : nat)
| LGet (binding : string) (id : option nat) | LGetByName (binding : string) (name : option string)
| LFetch (stub : nat)
| LReplaceGet (f : Replaced)               (* WeakMap.prototype.get is replaced *)
| LBuffer (bytes : list Z)                 (* a buffer is made *)
| LWrite (buffer : nat) (bytes : list Z).  (* and written to *)

Definition call (e : Env) (l : label) : option Called :=
  match l with
  | LPrepare name text => Some (prepare e name text)
  | LBind r values => s ← d1Statements e !! r; Some (bind e (fst s) (snd s) values)
  | LQuery r first => s ← d1Statements e !! r; Some (query e (fst s) (snd s) first)
  | LBatch name l => Some (batch e name l)
  | LExec name text => Some (exec_sql e name text)
  | LIdFromName b n => Some (idFromName e b n)
  | LIdFromString b t => Some (idFromString e b t)
  | LNewUniqueId b j n => Some (newUniqueId e b j n)
  | LGet b id => Some (get e b id)
  | LGetByName b n => Some (getByName e b n)
  | LFetch r => s ← stubs e !! r; Some (fetch e s)
  | LReplaceGet f =>
      Some (Ok None, mkEnv (Some f) (d1Statements e) (objectIds e) (stubs e) (buffers e) (next e) (outbox e))
  | LBuffer bytes =>
      Some (Ok (Some (next e)),
            mkEnv (weakmap_get e) (d1Statements e) (objectIds e) (stubs e) (<[next e := bytes]> (buffers e)) (S (next e)) (outbox e))
  | LWrite r bytes =>
      Some (Ok None, mkEnv (weakmap_get e) (d1Statements e) (objectIds e) (stubs e) (alter (fun _ => bytes) r (buffers e)) (next e) (outbox e))
  end.

Definition exec (e : Env) (l : label) : option Env := snd <$> call e l.
Definition step (e e' : Env) : Prop := exists l, exec e l = Some e'.

(** ** What the guest asked for *)

(** The SQL a run prepared on a binding. *)
Definition prepares (name : string) (l : label) : option string :=
  match l with LPrepare n (Some text) => if String.eqb n name then Some text else None | _ => None end.

(** The ids a run was given on a binding. *)
Definition source_of (binding : string) (l : label) : option Source :=
  match l with
  | LIdFromName b (Some n) | LGetByName b (Some n) => if String.eqb b binding then Some (Name n) else None
  | LIdFromString b (Some t) => if String.eqb b binding then Some (FromText t) else None
  | LNewUniqueId b false n => if String.eqb b binding then Some (Unique n) else None
  | _ => None
  end.

Definition given (binding : string) (ls : list label) (id : string) : Prop :=
  exists s, s ∈ omap (source_of binding) ls /\ object_id binding s = Ok id.

(** Calls that leave [WeakMap.prototype.get] alone, and hand over lists with the [map] of
    arrays. *)
Definition builtin (l : label) : bool :=
  match l with LReplaceGet _ | LBatch _ (Some (OwnMap _)) => false | _ => true end.

Definition plain (v : Value) : bool := match v with VOther _ => false | _ => true end.

Definition message_ok (ls : list label) (m : Message) : Prop :=
  match m with
  | D1Query name s _ => sent_sql s ∈ omap (prepares name) ls
  | D1Batch name l => l <> [] /\ Forall (fun s => sent_sql s ∈ omap (prepares name) ls) l
  | D1Exec name text => LExec name (Some text) ∈ ls
  | ObjectFetch binding id => given binding ls id
  end.

Record wf (ls : list label) (e : Env) : Prop := {
  w_get : weakmap_get e = None;
  w_statements : forall r name s, d1Statements e !! r = Some (name, s) ->
    sql s ∈ omap (prepares name) ls /\ Forall (fun v => plain v = true) (params s);
  w_ids : forall r b id, objectIds e !! r = Some (b, id) -> given b ls id;
  w_stubs : forall r b id, stubs e !! r = Some (b, id) -> given b ls id;
  w_outbox : Forall (message_ok ls) (outbox e)
}.

Lemma omap_snoc {A B} (f : A -> option B) l x y : y ∈ omap f l -> y ∈ omap f (l ++ [x]).
Proof. rewrite omap_app, elem_of_app. by left. Qed.

Lemma omap_last {A B} (f : A -> option B) l x y : f x = Some y -> y ∈ omap f (l ++ [x]).
Proof. intros H. apply list_elem_of_omap. exists x. split; [|done]. apply elem_of_app. right. apply list_elem_of_here. Qed.

Lemma given_snoc b ls l id : given b ls id -> given b (ls ++ [l]) id.
Proof. intros (s & Hs & Hid). exists s. split; [by apply omap_snoc|done]. Qed.

Lemma wf_snoc ls l e : wf ls e -> wf (ls ++ [l]) e.
Proof.
  intros [H0 H1 H2 H3 H4]. split; [done|..].
  - intros r name s Hs. destruct (H1 r name s Hs). split; [by apply omap_snoc|done].
  - intros r b id Hid. by eapply given_snoc, H2.
  - intros r b id Hid. by eapply given_snoc, H3.
  - eapply Forall_impl; [exact H4|]. intros [name s f|name k|name t|b id]; simpl.
    + apply omap_snoc.
    + intros [? Hk]. split; [done|]. eapply Forall_impl; [exact Hk|]. intros s. apply omap_snoc.
    + intros ?. apply elem_of_app. by left.
    + apply given_snoc.
Qed.

Lemma env_send_wf ls e m : wf ls e -> message_ok ls m -> wf ls (send e m).
Proof. intros [] Hm. split; try done. apply Forall_app. split; [done|]. by apply Forall_singleton. Qed.

Lemma prepared_wf ls e name s :
  wf ls e -> sql s ∈ omap (prepares name) ls -> Forall (fun v => plain v = true) (params s) ->
  wf ls (snd (prepared e name s)).
Proof.
  intros [H0 H1 H2 H3 H4] Hs Hp. split; simpl; try done. intros r n' s'. rewrite lookup_insert_Some.
  intros [[_ [= <- <-]]|[_ Hr]]; [done|]. by eapply H1.
Qed.

Lemma d1Values_plain l l' : d1Values l = Ok l' -> l' = l /\ Forall (fun v => plain v = true) l'.
Proof.
  revert l'. induction l as [|v l IH]; intros l'; simpl; [intros [= <-]; by split|].
  destruct v; simpl; try done; destruct (d1Values l) as [k|]; simpl; try done; intros [= <-];
    destruct (IH k eq_refl) as [-> ?]; (split; [done|by constructor]).
Qed.

Lemma entries_spec e name l k :
  weakmap_get e = None -> entries e name l = Some k -> Forall (fun s => exists r, d1Statements e !! r = Some (name, s)) k.
Proof.
  intros Hg. revert k. induction l as [|r l IH]; intros k; simpl; [by intros [= <-]|]. unfold statement_of. rewrite Hg.
  destruct (r ≫= _) as [[n s]|] eqn:Er; simpl; [|done]. destruct (String.eqb_spec n name) as [->|]; [|done].
  destruct (entries e name l) as [k'|]; simpl; [|done]. intros [= <-]. constructor; [|by apply IH].
  destruct r as [r|]; [|done]. by exists r.
Qed.

Lemma objectId_wf ls e b s : wf ls e -> s ∈ omap (source_of b) ls -> wf ls (snd (objectId e b s)).
Proof.
  intros [H0 H1 H2 H3 H4] Hs. unfold objectId. destruct (object_id b s) as [id|] eqn:Eid; [|done].
  split; simpl; try done. intros r b' id'. rewrite lookup_insert_Some.
  intros [[_ [= <- <-]]|[_ Hr]]; [by exists s|]. by eapply H2.
Qed.

Lemma get_wf ls e b id : wf ls e -> wf ls (snd (get e b id)).
Proof.
  intros Hwf. unfold get, id_of. rewrite (w_get _ _ Hwf). destruct (id ≫= _) as [[b' i]|] eqn:Eid; [|done].
  destruct (String.eqb_spec b' b) as [->|]; [|done]. destruct id as [r|]; [|done]. simpl in Eid.
  destruct Hwf as [H0 H1 H2 H3 H4]. split; simpl; try done. intros r' b'' id'. rewrite lookup_insert_Some.
  intros [[_ [= <- <-]]|[_ Hr]]; [by eapply H2|by eapply H3].
Qed.

(** One call of the guest. *)
Lemma env_call_wf ls e l r : wf ls e -> builtin l = true -> call e l = Some r -> wf (ls ++ [l]) (snd r).
Proof.
  intros Hwf0 Hb Hc. pose proof (wf_snoc ls l e Hwf0) as Hwf. set (ls' := ls ++ [l]) in *.
  assert (forall r name s, d1Statements e !! r = Some (name, s) -> sql s ∈ omap (prepares name) ls') as Hsql
    by (intros ? ? ? H; by eapply (w_statements _ _ Hwf)).
  destruct l as [name t|st vs|st f|name k|name t|b n|b t|b j n|b id|b n|st|f|bytes|bf bytes]; simpl in Hc, Hb.
  - injection Hc as <-. destruct t as [t|]; [|done]. apply prepared_wf; [done| |constructor].
    apply omap_last. simpl. by rewrite String.eqb_refl.
  - destruct (d1Statements e !! st) as [[name s]|] eqn:Es; [|done]. injection Hc as <-. unfold bind. simpl.
    destruct (d1Values vs) as [k|] eqn:Ev; [|done]. apply prepared_wf; [done|exact (Hsql _ _ _ Es)|].
    by apply d1Values_plain in Ev as [_ ?].
  - destruct (d1Statements e !! st) as [[name s]|] eqn:Es; [|done]. injection Hc as <-. apply env_send_wf; [done|].
    exact (Hsql _ _ _ Es).
  - injection Hc as <-. unfold batch. destruct k as [[k|]|]; [|done|done]. simpl.
    destruct (entries e name k) as [[|s k']|] eqn:Ek; try done.
    apply env_send_wf; [done|]. split; [done|]. apply entries_spec in Ek; [|by apply (w_get _ _ Hwf)]. apply Forall_fmap. eapply Forall_impl; [exact Ek|].
    intros s' [r Hr]. exact (Hsql _ _ _ Hr).
  - injection Hc as <-. destruct t as [t|]; [|done]. apply env_send_wf; [done|]. apply elem_of_app. right. apply list_elem_of_here.
  - injection Hc as <-. destruct n as [n|]; [|done]. apply objectId_wf; [done|]. apply omap_last. simpl. by rewrite String.eqb_refl.
  - injection Hc as <-. destruct t as [t|]; [|done]. apply objectId_wf; [done|]. apply omap_last. simpl. by rewrite String.eqb_refl.
  - injection Hc as <-. destruct j; [done|]. apply objectId_wf; [done|]. apply omap_last. simpl. by rewrite String.eqb_refl.
  - injection Hc as <-. by apply get_wf.
  - injection Hc as <-. unfold getByName. destruct n as [n|]; [|done].
    assert (wf ls' (snd (objectId e b (Name n)))) as Ho.
    { apply objectId_wf; [done|]. apply omap_last. simpl. by rewrite String.eqb_refl. }
    simpl. destruct (objectId e b (Name n)) as [[id|] e']; [by apply get_wf|done].
  - destruct (stubs e !! st) as [[b id]|] eqn:Es; [|done]. injection Hc as <-. apply env_send_wf; [done|].
    exact (w_stubs _ _ Hwf _ _ _ Es).
  - done.
  - injection Hc as <-. by destruct Hwf.
  - injection Hc as <-. by destruct Hwf.
Qed.

Lemma env_run_wf ls : forall ls0 e e', 
  wf ls0 e -> Forall (fun l => builtin l = true) ls -> run_steps exec e ls = Some e' -> wf (ls0 ++ ls) e'.
Proof.
  induction ls as [|l ls IH]; intros ls0 e e' Hwf Hb; simpl; [intros [= <-]; by rewrite app_nil_r|].
  apply Forall_cons in Hb as [Hb Hbs].
  destruct (exec e l) as [e1|] eqn:Ee; simpl; [|done]. intros H.
  assert (wf (ls0 ++ [l]) e1) as H1.
  { unfold exec in Ee. destruct (call e l) as [r|] eqn:Ec; [|done]. injection Ee as <-. by eapply env_call_wf. }
  replace (ls0 ++ l :: ls) with ((ls0 ++ [l]) ++ ls) by by rewrite <-app_assoc.
  by eapply IH.
Qed.


(** A parameter that is no buffer leaves as it was bound. *)
Lemma param_stable e e' v : (forall r, v <> VBuffer r) -> param_of e v = param_of e' v.
Proof. destruct v; try done. intros H. by destruct (H buffer). Qed.

End Ids.

(** ** Rows *)

Lemma env_get_set_field row c v c' :
  Readers.get_field (Readers.set_field row c v) c' = if String.eqb c' c then Some v else Readers.get_field row c'.
Proof.
  induction row as [|[k w] row IH]; simpl; [by destruct (String.eqb c' c)|].
  destruct (String.eqb_spec c k) as [->|Hne]; simpl; [by destruct (String.eqb c' k)|]. rewrite IH.
  destruct (String.eqb_spec c' k) as [->|]; [|done]. by destruct (String.eqb_spec k c) as [->|].
Qed.

(** A column of a row has the value at its last position, but for a column the prototype
    has a setter for. *)
Lemma d1Row_column columns values c i :
  c <> "__proto__"%string -> columns !! i = Some c -> (forall j, i < j -> columns !! j <> Some c)%nat ->
  Readers.get_field (d1Row columns values) c = Some (default Readers.JUndefined (values !! i)).
Proof.
  intros Hc Hi Hlast. unfold d1Row.
  set (l := imap (fun i c => (c, default Readers.JUndefined (values !! i))) columns).
  assert (l !! i = Some (c, default Readers.JUndefined (values !! i))) as Hl by (unfold l; by rewrite list_lookup_imap, Hi).
  assert (forall j v, (i < j)%nat -> l !! j <> Some (c, v)) as Hn.
  { intros j v Hj. unfold l. rewrite list_lookup_imap. destruct (columns !! j) as [c'|] eqn:E; simpl; [|done].
    intros [= -> _]. by apply (Hlast j Hj). }
  generalize (default Readers.JUndefined (values !! i)) Hl. intros v Hv. clearbody l. clear Hi Hlast Hl.
  assert (forall l row, (forall v, (c, v) ∉ l) -> Readers.get_field row c = Some v ->
    Readers.get_field (foldl (fun row cv => Readers.set_field_key row (fst cv) (snd cv)) row l) c = Some v) as Hkeep.
  { clear. induction l as [|[k w] l IH]; intros row Hnot Hrow; simpl; [done|]. apply IH; [set_solver|].
    unfold Readers.set_field_key. destruct (String.eqb k "__proto__"); [done|]. rewrite env_get_set_field.
    destruct (String.eqb_spec c k) as [->|]; [|done]. exfalso. apply (Hnot w). apply list_elem_of_here. }
  rewrite <-(take_drop_middle l i _ Hv), foldl_app. simpl. apply Hkeep.
  - intros w [j Hj]%list_elem_of_lookup. rewrite lookup_drop in Hj. by apply (Hn (S i + j)%nat w); [lia|].
  - unfold Readers.set_field_key. destruct (String.eqb_spec c "__proto__"); [done|]. by rewrite env_get_set_field, String.eqb_refl.
Qed.

(** ** Runs *)

Definition demo_id (binding : string) (s : Source) : result string string :=
  match s with Name n => Ok (binding +:+ "/" +:+ n)%string | FromText t => Err "not an id" | Unique _ => Ok "unique" end%string.

Definition demo_labels : list label :=
  [LPrepare "DB" (Some "SELECT ?"%string); LBind 0 [VNumber (Handlers.Int 1)]; LBatch "DB" (Some (Plain [Some 1; Some 0]%nat));
   LPrepare "OTHER" (Some "DROP"%string); LBatch "DB" (Some (Plain [Some 2]%nat));
   LIdFromName "ROOMS" (Some "a"%string); LGet "USERS" (Some 3%nat); LGet "ROOMS" (Some 3%nat); LFetch 4].

Definition demo_end : Env := default initial (run_steps (exec demo_id) initial demo_labels).

Lemma env_demo_runs : run_steps (exec demo_id) initial demo_labels = Some demo_end.
Proof. vm_compute. reflexivity. Qed.


(** A list with a [map] of its own sends what nobody prepared, and so does a [get] of the
    guest; an id goes the same way. *)
Example own_maps_send_anything :
  outbox (default initial (run_steps (exec demo_id) initial
    [LBatch "DB" (Some (OwnMap (Some [mkStatement "DROP" []])))])) = [D1Batch "DB" [mkSent "DROP" []]] /\
  outbox (default initial (run_steps (exec demo_id) initial
    [LReplaceGet (mkReplaced (fun _ => Some ("DB"%string, mkStatement "DROP" [])) (fun _ => Some ("ROOMS"%string, "x"%string)));
     LBatch "DB" (Some (Plain [None])); LGet "ROOMS" None; LFetch 0])) =
  [D1Batch "DB" [mkSent "DROP" []]; ObjectFetch "ROOMS" "x"].
Proof. by vm_compute. Qed.

(** The bytes of a buffer are those it holds when the statement runs, not when it was
    bound. *)
Example bound_buffers_can_change :
  outbox (default initial (run_steps (exec demo_id) initial
    [LPrepare "DB" (Some "INSERT ?"%string); LBuffer [1; 2]%Z; LBind 0 [VBuffer 1]; LWrite 1 [9; 9]%Z; LQuery 2 false])) =
  [D1Query "DB" (mkSent "INSERT ?" [PBytes [9; 9]%Z]) false].
Proof. vm_compute. reflexivity. Qed.

(** A column called __proto__ is lost. *)
Example proto_columns_are_lost : d1Row ["__proto__"; "b"]%string [Readers.JNull; Readers.JNull] = [("b"%string, Some Readers.JNull)].
Proof. reflexivity. Qed.

(** ** The object *)

(** [installEnv]: the variables, then a binding for each entry, which wins; the last of two
    with one name. *)
Section Install.
Context {V : Type} (make : string -> string -> option V) (text : string -> V).

(** [None] is a type with no binding, which throws. *)
Fixpoint installEnv (env : gmap string V) (bindings : list (string * string)) : option (gmap string V) :=
  match bindings with
  | [] => Some env
  | (name, type) :: bindings => b ← make type name; installEnv (<[name := b]> env) bindings
  end.

Definition env_of (vars : gmap string string) (bindings : list (string * string)) : option (gmap string V) :=
  installEnv (text <$> vars) bindings.

(** A name is its last binding, else its variable. *)
Lemma installEnv_lookup bindings : forall env env' name,
  installEnv env bindings = Some env' ->
  env' !! name = match filter (fun b => b.1 = name) (reverse bindings) with
                 | (_, type) :: _ => make type name
                 | [] => env !! name
                 end.
Proof.
  induction bindings as [|[n t] bindings IH]; intros env env' name; [by intros [= <-]|]. simpl.
  destruct (make t n) as [b|] eqn:Em; simpl; [|done]. intros H. rewrite (IH _ _ name H), reverse_cons, filter_app.
  destruct (filter _ (reverse bindings)) as [|[n' t'] l]; [|done]. cbn [app]. rewrite filter_cons. cbn [fst].
  destruct (decide (n = name)) as [->|Hne]; [by rewrite lookup_insert_eq|]. rewrite lookup_insert_ne by done. done.
Qed.

End Install.

End EnvBindings.
