(* ===== verification/PlainBindings.v ===== *)
(** * The bindings of env.js that ask the host once (src/src/js/env.js)

    The storage, KV and database objects of [make]: a method makes the parameters of one
    native op, [__bindingCall] wraps it in a promise, and the answer of the host is mapped.
    A call goes the whole way here: the method, the native of Natives.v, the host, the object
    callback_handlers.rs fills (Handlers.v), and what the method makes of it. serde_v8, the
    text codecs of the shared surface and the host are parameters; what the code relies on
    of serde_v8 and of a host with a key-value store are classes with laws. *)

From stdpp Require Import base list gmap strings.
From Stdlib Require Import ZArith Lia.
From S2P Require Import Prelude Handlers Dispatch Readers Natives.

Module PlainBindings.
Import Readers.

(** ** What the natives read *)

(** The conversions of serde_v8 the natives call. *)
Class Serde (SqlParam Json : Type) := {
  from_v8_string : Js -> option string;
  from_v8_storage : Js -> result Natives.StorageParams string;
  from_v8_kv : Js -> result (Natives.KvParams (Json := Json)) string;
  from_v8_database : Js -> result (string * list SqlParam) string;
  (** A value as JSON; [None] for [undefined] and [null], which an [Option] reads as absent,
      and for what is no JSON. *)
  to_json : Js -> option Json
}.

#[global] Arguments from_v8_string : simpl never.
#[global] Arguments from_v8_storage : simpl never.
#[global] Arguments from_v8_kv : simpl never.

Definition param {A} (f : A -> Js) (v : option A) : option Js := Some (from_option f JUndefined v).
Definition number (z : Z) : Js := JNumber (Handlers.Int z).

(** A struct is read field by field; a field that is missing or undefined has its default. *)
Class SerdeLaws SqlParam Json `{!Serde SqlParam Json} := {
  string_read s : from_v8_string (JString s) = Some s;
  storage_key k : from_v8_storage (JObject [("key"%string, Some (JString k))]) = Ok (Natives.mkStorage k None None None);
  storage_body k b :
    from_v8_storage (JObject [("key"%string, Some (JString k)); ("body"%string, Some (JBytes b))]) =
    Ok (Natives.mkStorage k (Some b) None None);
  storage_listing p l :
    from_option (fun n => 0 <= n < 2 ^ 32)%Z True l ->
    from_v8_storage (JObject [("prefix"%string, param JString p); ("limit"%string, param number l)]) =
    Ok (Natives.mkStorage "" None p l);
  kv_key k : from_v8_kv (JObject [("key"%string, Some (JString k))]) = Ok (Natives.mkKv k None None None None);
  kv_value k v j :
    to_json v = Some j ->
    from_v8_kv (JObject [("key"%string, Some (JString k)); ("value"%string, Some v)]) =
    Ok (Natives.mkKv k (Some j) None None None);
  kv_expiring k v j n :
    to_json v = Some j -> (0 <= n < 2 ^ 53)%Z ->
    from_v8_kv (JObject [("key"%string, Some (JString k)); ("value"%string, Some v);
                         ("expiresIn"%string, Some (number n))]) =
    Ok (Natives.mkKv k (Some j) (Some n) None None)
}.

Section Bindings.

Context {Method D1Op SqlParam Json : Type} `{!Serde SqlParam Json}.
Context (as_function : Js -> option Dispatch.Fn) (double_truthy : Z -> bool).
(** TextEncoder and TextDecoder of the shared surface. *)
Context (encode : string -> list Z) (decode : list Z -> string).

Notation State := (Natives.State (Method := Method) (D1Op := D1Op) (SqlParam := SqlParam) (Json := Json)).
Notation Message := (Natives.Message (Method := Method) (D1Op := D1Op) (SqlParam := SqlParam) (Json := Json)).

(** A promise by the callback it waits for, or one that is rejected already. *)
Inductive Answer := Promise (id : Natives.CallbackId) | Rejected (t : Natives.Throw).

(** The two functions of a new promise. *)
Context (resolve reject : Js).

(** [__bindingCall]: a native that throws rejects the promise that is made. *)
Definition __bindingCall (native : State -> list Js -> Natives.Ended) (s : State) (name operation : string)
    (params : Js) : Answer * State :=
  match native s [JString name; JString operation; params; resolve; reject] with
  | (Err t, s) => (Rejected t, s)
  | (Ok _, s') => (Promise (Dispatch.next_id (Natives.tables s)), s')
  end.

Definition truthy (v : Js) : bool :=
  match v with
  | JUndefined | JNull => false
  | JBool b => b
  | JNumber (Handlers.Int z) => negb (z =? 0)%Z
  | JNumber (Handlers.Double bits) => double_truthy bits
  | JString s => negb (String.eqb s "")
  | _ => true
  end.

(** ** storage *)

Definition storage_call : State -> string -> string -> Js -> Answer * State :=
  __bindingCall (Natives.native_binding_storage from_v8_string as_function from_v8_storage).

Definition key_param (key : Js) : Js := JObject [("key"%string, Some key)].

Definition storage_get (s : State) (name : string) (key : Js) : Answer * State :=
  storage_call s name "get" (key_param key).

(** A string is stored as its UTF-8. *)
Definition storage_put (s : State) (name : string) (key value : Js) : Answer * State :=
  let body := match value with JString t => JBytes (encode t) | v => v end in
  storage_call s name "put" (JObject [("key"%string, Some key); ("body"%string, Some body)]).

Definition storage_head (s : State) (name : string) (key : Js) : Answer * State :=
  storage_call s name "head" (key_param key).

(** [options?.prefix] and [options?.limit], undefined where they are missing. *)
Definition storage_list (s : State) (name : string) (prefix limit : Js) : Answer * State :=
  storage_call s name "list" (JObject [("prefix"%string, Some prefix); ("limit"%string, Some limit)]).

Definition storage_delete (s : State) (name : string) (key : Js) : Answer * State :=
  storage_call s name "delete" (key_param key).

(** [fetch], by the path of the URL. *)
Definition storage_fetch (s : State) (name : string) (pathname : string) : Answer * State :=
  storage_call s name "fetch" (key_param (JString pathname)).

(** What the guest gets: the answer of [get], [head] and [list]. *)
Definition storage_text (r : Handlers.Object) : Handlers.Value :=
  match Handlers.get r "body" with Handlers.VBytes b => Handlers.VString (decode b) | _ => Handlers.VNull end.

Definition pick (keys : list string) (r : Handlers.Object) : Handlers.Value :=
  Handlers.VObject ((fun k => (k, Handlers.get r k)) <$> keys).

Definition storage_headed : Handlers.Object -> Handlers.Value := pick ["size"; "etag"]%string.
Definition storage_listed : Handlers.Object -> Handlers.Value := pick ["keys"; "truncated"]%string.

(** ** kv *)

Definition kv_call : State -> string -> string -> Js -> Answer * State :=
  __bindingCall (Natives.native_binding_kv from_v8_string as_function from_v8_kv).

Definition kv_get (s : State) (name : string) (key : Js) : Answer * State := kv_call s name "get" (key_param key).

(** An [expiresIn] that is false, zero or missing is left out. *)
Definition kv_put (s : State) (name : string) (key value expiresIn : Js) : Answer * State :=
  kv_call s name "put"
    (JObject ([("key"%string, Some key); ("value"%string, Some value)] ++
              (if truthy expiresIn then [("expiresIn"%string, Some expiresIn)] else []))).

Definition kv_delete (s : State) (name : string) (key : Js) : Answer * State :=
  kv_call s name "delete" (key_param key).

Definition kv_list (s : State) (name : string) (prefix limit : Js) : Answer * State :=
  kv_call s name "list"
    (JObject ((if truthy prefix then [("prefix"%string, Some prefix)] else []) ++
              (if truthy limit then [("limit"%string, Some limit)] else []))).

(** ** database *)

Definition database_query (s : State) (name : string) (sql params : Js) : Answer * State :=
  __bindingCall (Natives.native_binding_database from_v8_string as_function from_v8_database) s name "query"
    (JObject [("sql"%string, Some sql); ("params"%string, Some (if truthy params then params else JArray []))]).

(** ** What a method sends *)

(** A call is one op of its binding, under a fresh callback. *)
Definition asked (s : State) (m : Natives.CallbackId -> Message) (r : Answer * State) : Prop :=
  fst r = Promise (Dispatch.next_id (Natives.tables s)) /\
  Natives.outbox (snd r) = Natives.outbox s ++ [m (Dispatch.next_id (Natives.tables s))].

Context `{!SerdeLaws SqlParam Json}.
Context (f g : Dispatch.Fn) (resolve_is : as_function resolve = Some f) (reject_is : as_function reject = Some g).

Lemma storage_asks s name operation params p op :
  from_v8_storage params = Ok p -> Natives.storage_op operation p = Ok op ->
  asked s (fun id => Natives.BindingStorage id name op) (storage_call s name operation params).
Proof.
  intros Hp Ho. unfold storage_call, __bindingCall, Natives.native_binding_storage, Natives.string_arg, Natives.arg. simpl.
  rewrite !string_read. simpl. rewrite Hp. simpl. rewrite Ho. simpl.
  unfold Natives.await_answer, Natives.resolve_reject. by rewrite resolve_is, reject_is.
Qed.

Lemma kv_asks s name operation params p op :
  from_v8_kv params = Ok p -> Natives.kv_op operation p = Ok op ->
  asked s (fun id => Natives.BindingKv id name op) (kv_call s name operation params).
Proof.
  intros Hp Ho. unfold kv_call, __bindingCall, Natives.native_binding_kv, Natives.string_arg, Natives.arg. simpl.
  rewrite !string_read. simpl. rewrite Hp. simpl. rewrite Ho. simpl.
  unfold Natives.await_answer, Natives.resolve_reject. by rewrite resolve_is, reject_is.
Qed.

(** Every method of a storage binding asks the host for the op of its name, with the key and
    the bytes it was given. *)
Theorem storage_methods_ask_once s name k t b p l :
  from_option (fun n => 0 <= n < 2 ^ 32)%Z True l ->
  asked s (fun id => Natives.BindingStorage id name (Natives.StorageGet k)) (storage_get s name (JString k)) /\
  asked s (fun id => Natives.BindingStorage id name (Natives.StoragePut k (encode t)))
    (storage_put s name (JString k) (JString t)) /\
  asked s (fun id => Natives.BindingStorage id name (Natives.StoragePut k b))
    (storage_put s name (JString k) (JBytes b)) /\
  asked s (fun id => Natives.BindingStorage id name (Natives.StorageHead k)) (storage_head s name (JString k)) /\
  asked s (fun id => Natives.BindingStorage id name (Natives.StorageList p l))
    (storage_list s name (from_option JString JUndefined p) (from_option number JUndefined l)) /\
  asked s (fun id => Natives.BindingStorage id name (Natives.StorageDelete k)) (storage_delete s name (JString k)) /\
  asked s (fun id => Natives.BindingStorage id name (Natives.StorageFetch k)) (storage_fetch s name k).
Proof.
  intros Hl. split_and!; (eapply storage_asks; [first [apply storage_key|apply storage_body|by apply storage_listing]|]);
    reflexivity.
Qed.

(** ** The store behind a KV binding *)

(** [v8::json::parse]. *)
Context (json_parse : string -> option Handlers.Value).

(** The calls of a guest that waits for each answer. *)
Inductive KvCall := CGet (k : string) | CPut (k : string) (v : Js) | CDelete (k : string).

Definition kv_method (s : State) (name : string) (c : KvCall) : Answer * State :=
  match c with
  | CGet k => kv_get s name (JString k)
  | CPut k v => kv_put s name (JString k) v JUndefined
  | CDelete k => kv_delete s name (JString k)
  end.

(** The [then] of each: [r.value], or nothing. *)
Definition kv_then (c : KvCall) (r : Handlers.Object) : Handlers.Value :=
  match c with CGet _ => Handlers.get r "value" | _ => Handlers.VUndefined end.

(** What dispatch.rs settles the promise with. *)
Definition kv_settled (r : Handlers.KvResult) : result Handlers.Object string :=
  match r with
  | Handlers.KvError e => Err e
  | r => Ok (Handlers.populate_kv_result json_parse [] r)
  end.

(** A host with KV stores by name: what it answers an op of a binding. *)
Class KvHost (Store : Type) := {
  kv_handle : Store -> string -> Natives.KvOp (Json := Json) -> Handlers.KvResult * Store;
  kv_text : Store -> string -> string -> option string
}.

(** It keeps the JSON text of what was put, until it is put again or deleted. *)
Class KvHostLaws Store `{!KvHost Store} (print : Json -> string) := {
  host_get st n k : kv_handle st n (Natives.KvGet k) = (Handlers.KvValue (kv_text st n k), st);
  host_put st n k j :
    fst (kv_handle st n (Natives.KvPut k j None)) = Handlers.KvOk /\
    forall n' k', kv_text (snd (kv_handle st n (Natives.KvPut k j None))) n' k' =
      if decide (n' = n /\ k' = k) then Some (print j) else kv_text st n' k';
  host_delete st n k :
    fst (kv_handle st n (Natives.KvDelete k)) = Handlers.KvOk /\
    forall n' k', kv_text (snd (kv_handle st n (Natives.KvDelete k))) n' k' =
      if decide (n' = n /\ k' = k) then None else kv_text st n' k'
}.

Inductive Failure := Thrown (t : Natives.Throw) | HostError (message : string) | Lost.

(** One call and its answer. *)
Definition kv_exchange {Store} `{!KvHost Store} (s : State) (st : Store) (name : string) (c : KvCall)
  : result Handlers.Value Failure * State * Store :=
  match kv_method s name c with
  | (Rejected t, s) => (Err (Thrown t), s, st)
  | (Promise _, s) =>
      match last (Natives.outbox s) with
      | Some (Natives.BindingKv _ n op) =>
          let (r, st) := kv_handle st n op in
          (match kv_settled r with Ok o => Ok (kv_then c o) | Err e => Err (HostError e) end, s, st)
      | _ => (Err Lost, s, st)
      end
  end.

Fixpoint kv_run {Store} `{!KvHost Store} (s : State) (st : Store) (l : list (string * KvCall))
  : list (result Handlers.Value Failure) * State * Store :=
  match l with
  | [] => ([], s, st)
  | (n, c) :: l =>
      let '(r, s, st) := kv_exchange s st n c in
      let '(rs, s, st) := kv_run s st l in (r :: rs, s, st)
  end.

(** ** The map a guest sees *)

Definition KvMap := string -> string -> Handlers.Value.

Definition map_put (m : KvMap) (n k : string) (v : Handlers.Value) : KvMap :=
  fun n' k' => if decide (n' = n /\ k' = k) then v else m n' k'.

Context (print : Json -> string).

(** The value that comes back for one that was put: its JSON. *)
Definition stored (v : Js) : Handlers.Value :=
  default Handlers.VNull (to_json v ≫= fun j => json_parse (print j)).

Definition map_step (m : KvMap) (n : string) (c : KvCall) : Handlers.Value * KvMap :=
  match c with
  | CGet k => (m n k, m)
  | CPut k v => (Handlers.VUndefined, map_put m n k (stored v))
  | CDelete k => (Handlers.VUndefined, map_put m n k Handlers.VNull)
  end.

Fixpoint map_run (m : KvMap) (l : list (string * KvCall)) : list Handlers.Value * KvMap :=
  match l with
  | [] => ([], m)
  | (n, c) :: l => let (v, m) := map_step m n c in let (vs, m) := map_run m l in (v :: vs, m)
  end.

(** The map of a store. *)
Definition seen {Store} `{!KvHost Store} (st : Store) : KvMap :=
  fun n k => default Handlers.VNull (kv_text st n k ≫= json_parse).

Definition has_json (c : KvCall) : bool :=
  match c with CPut _ v => bool_decide (is_Some (to_json v)) | _ => true end.

Section Host.
Context {Store : Type} `{!KvHost Store} `{!KvHostLaws Store print}.

Lemma exchange_asked s st name c op :
  asked s (fun id => Natives.BindingKv id name op) (kv_method s name c) ->
  kv_exchange s st name c =
  (match kv_settled (fst (kv_handle st name op)) with Ok o => Ok (kv_then c o) | Err e => Err (HostError e) end,
   snd (kv_method s name c), snd (kv_handle st name op)).
Proof.
  intros [H1 H2]. unfold kv_exchange. destruct (kv_method s name c) as [a s']. simpl in *. subst a.
  rewrite H2, last_snoc. by destruct (kv_handle st name op).
Qed.

Lemma exchange_sim s st name c (m : KvMap) :
  has_json c = true -> (forall n k, seen st n k = m n k) ->
  let '(r, s', st') := kv_exchange s st name c in
  r = Ok (fst (map_step m name c)) /\ (forall n k, seen st' n k = snd (map_step m name c) n k) /\
  length (Natives.outbox s') = S (length (Natives.outbox s)).
Proof.
  intros Hj Hm.
  assert (forall op, asked s (fun id => Natives.BindingKv id name op) (kv_method s name c) ->
    length (Natives.outbox (snd (kv_method s name c))) = S (length (Natives.outbox s))) as Hlen.
  { intros op [_ H]. rewrite H, length_app. simpl. lia. }
  destruct c as [k|k v|k].
  - assert (asked s (fun id => Natives.BindingKv id name (Natives.KvGet k)) (kv_method s name (CGet k))) as Ha
      by (eapply kv_asks; [apply kv_key|reflexivity]).
    rewrite (exchange_asked _ _ _ _ _ Ha), host_get. simpl fst. simpl snd. split_and!; [|done|by eapply Hlen].
    rewrite <-Hm. unfold seen. cbn [kv_settled kv_then map_step fst Handlers.populate_kv_result].
    rewrite Handlers.get_set. simpl. by destruct (kv_text st name k).
  - apply bool_decide_eq_true in Hj as [j Hj].
    assert (asked s (fun id => Natives.BindingKv id name (Natives.KvPut k j None)) (kv_method s name (CPut k v))) as Ha
      by (eapply kv_asks; [by apply kv_value|reflexivity]).
    rewrite (exchange_asked _ _ _ _ _ Ha). destruct (host_put st name k j) as [-> Hp].
    split_and!; [done| |by eapply Hlen]. intros n k'. unfold seen at 1. rewrite Hp. simpl. unfold map_put, stored.
    rewrite Hj. case_decide; [done|apply Hm].
  - assert (asked s (fun id => Natives.BindingKv id name (Natives.KvDelete k)) (kv_method s name (CDelete k))) as Ha
      by (eapply kv_asks; [apply kv_key|reflexivity]).
    rewrite (exchange_asked _ _ _ _ _ Ha). destruct (host_delete st name k) as [-> Hp].
    split_and!; [done| |by eapply Hlen]. intros n k'. unfold seen at 1. rewrite Hp. simpl. unfold map_put.
    case_decide; [done|apply Hm].
Qed.

(** C40: through env.js, the natives and the handlers, the KV bindings of a worker are maps:
    over a host that keeps what is put, each get answers the JSON of the last put to that key
    of that binding or null, whatever was done to other keys and bindings, and each call
    sends one op. *)
Theorem kv_bindings_are_maps s st l :
  forallb (fun c => has_json (snd c)) l = true ->
  let '(rs, s', st') := kv_run s st l in
  rs = Ok <$> fst (map_run (seen st) l) /\
  (forall n k, seen st' n k = snd (map_run (seen st) l) n k) /\
  length (Natives.outbox s') = length (Natives.outbox s) + length l.
Proof.
  assert (forall m, (forall n k, seen st n k = m n k) -> forallb (fun c => has_json (snd c)) l = true ->
    let '(rs, s', st') := kv_run s st l in
    rs = Ok <$> fst (map_run m l) /\ (forall n k, seen st' n k = snd (map_run m l) n k) /\
    length (Natives.outbox s') = length (Natives.outbox s) + length l) as H; [|by apply H].
  revert s st. induction l as [|[n c] l IH]; intros s st m Hm; simpl; [intros _; split_and!; [done|done|lia]|].
  intros [Hj Hl]%andb_true_iff. pose proof (exchange_sim s st n c m Hj Hm) as He.
  destruct (kv_exchange s st n c) as [[r s1] st1], (map_step m n c) as [v m1]. destruct He as (-> & Hm1 & Ho).
  specialize (IH s1 st1 m1 Hm1 Hl). destruct (kv_run s1 st1 l) as [[rs s2] st2], (map_run m1 l) as [vs m2].
  simpl in *. destruct IH as (-> & H2 & H3). split_and!; [done|done|lia].
Qed.

End Host.
End Bindings.

(** ** A run *)

Definition demo_field (fs : list (string * option Js)) (k : string) : Js :=
  default JUndefined (foldr (fun f r => if String.eqb (fst f) k then snd f else r) None fs).
Definition demo_string (v : Js) : option string := match v with JString s => Some s | _ => None end.
Definition demo_number (v : Js) : option Z := match v with JNumber (Handlers.Int z) => Some z | _ => None end.

(** The fields of a struct, with texts for JSON. *)
#[local] Instance demo_serde : Serde unit string := {|
  from_v8_string := demo_string;
  from_v8_storage v := match v with
    | JObject fs => Ok (Natives.mkStorage (default ""%string (demo_string (demo_field fs "key")))
        (match demo_field fs "body" with JBytes b => Some b | _ => None end)
        (demo_string (demo_field fs "prefix")) (demo_number (demo_field fs "limit")))
    | _ => Err "expected object"%string
    end;
  from_v8_kv v := match v with
    | JObject fs => Ok (Natives.mkKv (default ""%string (demo_string (demo_field fs "key")))
        (demo_string (demo_field fs "value")) (demo_number (demo_field fs "expiresIn"))
        (demo_string (demo_field fs "prefix")) (demo_number (demo_field fs "limit")))
    | _ => Err "expected object"%string
    end;
  from_v8_database v := Ok (""%string, []);
  to_json := demo_string
|}.

#[local] Instance demo_serde_laws : SerdeLaws unit string.
Proof.
  split; try done.
  - intros [p|] [l|] _; done.
  - intros k v j Hv. destruct v; try discriminate Hv. by injection Hv as <-.
  - intros k v j n Hv _. destruct v; try discriminate Hv. by injection Hv as <-.
Defined.

(** A host with one map for all names. *)
#[local] Instance demo_host : KvHost (Json := string) (gmap (string * string) string) := {|
  kv_handle st n op := match op with
    | Natives.KvGet k => (Handlers.KvValue (st !! (n, k)), st)
    | Natives.KvPut k j _ => (Handlers.KvOk, <[(n, k) := j]> st)
    | Natives.KvDelete k => (Handlers.KvOk, delete (n, k) st)
    | Natives.KvList _ _ => (Handlers.KvKeys [], st)
    end;
  kv_text st n k := st !! (n, k)
|}.

#[local] Instance demo_host_laws : KvHostLaws (gmap (string * string) string) (fun j => j).
Proof.
  split; [done| |]; intros st n k; [intros j|]; (split; [done|]); intros n' k'; simpl; case_decide as H.
  - destruct H as [-> ->]. apply lookup_insert_eq.
  - apply lookup_insert_ne. naive_solver.
  - destruct H as [-> ->]. apply lookup_delete_eq.
  - apply lookup_delete_ne. naive_solver.
Defined.

Definition demo_functions (v : Js) : option Dispatch.Fn := match v with JNull => Some 1%Z | _ => None end.
Definition demo_parse (t : string) : option Handlers.Value := Some (Handlers.VString t).
Definition demo_state : Natives.State (Method := unit) (D1Op := unit) (SqlParam := unit) (Json := string) :=
  Natives.mkState Dispatch.initial [] 0%Z 1%Z.

Definition demo_calls : list (string * KvCall) :=
  [("A", CPut "k" (JString "one")); ("B", CPut "k" (JString "two")); ("A", CGet "k");
   ("A", CDelete "k"); ("A", CGet "k"); ("B", CGet "k")]%string.

Lemma kv_bindings_are_maps_witness :
  fst (fst (kv_run demo_functions (fun _ => true) JNull JNull demo_parse demo_state ∅ demo_calls)) =
  Ok <$> [Handlers.VUndefined; Handlers.VUndefined; Handlers.VString "one"; Handlers.VUndefined; Handlers.VNull;
          Handlers.VString "two"].
Proof.
  pose proof (kv_bindings_are_maps demo_functions (fun _ => true) JNull JNull 1%Z 1%Z eq_refl eq_refl
    demo_parse (fun j => j) demo_state (∅ : gmap (string * string) string) demo_calls eq_refl) as H.
  destruct (kv_run _ _ _ _ _ _ _ _) as [[rs s] st]. destruct H as [H _]. rewrite H. vm_compute. reflexivity.
Defined.

(** A limit or an expiry of zero is left out by the KV methods, so the listing has no limit
    and the entry stays; the storage method hands the limit on. *)
Example zero_is_left_out :
  Natives.outbox (snd (kv_list demo_functions (fun _ => true) JNull JNull demo_state "A" JUndefined (number 0))) =
    [Natives.BindingKv 1%Z "A" (Natives.KvList None None)] /\
  Natives.outbox (snd (kv_put demo_functions (fun _ => true) JNull JNull demo_state "A" (JString "k") (JString "v")
    (number 0))) = [Natives.BindingKv 1%Z "A" (Natives.KvPut "k" "v"%string None)] /\
  Natives.outbox (snd (storage_list demo_functions JNull JNull demo_state "A" JUndefined (number 0))) =
    [Natives.BindingStorage 1%Z "A" (Natives.StorageList None (Some 0%Z))].
Proof. done. Qed.

End PlainBindings.
