(* ===== verification/Compression.v ===== *)
(** * Compression streams (src/src/runtime/bindings/compression.rs)

    The codecs of a context by id, and the four ops on them. The codecs of flate2 are
    a parameter: what a writer of each kind starts as, emits for a chunk, and emits at
    its end. *)

From stdpp Require Import base list gmap strings.
From Stdlib Require Import ZArith Lia.
From S2P Require Import Prelude Handlers Readers.

Module Compression.
Import Readers.

(** [Codec], by its constructor. *)
Inductive Kind := ZlibEncode | RawEncode | GzipEncode | ZlibDecode | RawDecode | GzipDecode.

(** [Codec::new] *)
Definition codec_kind (format : string) (decompress : bool) : option Kind :=
  if String.eqb format "deflate" then Some (if decompress then ZlibDecode else ZlibEncode)
  else if String.eqb format "deflate-raw" then Some (if decompress then RawDecode else RawEncode)
  else if String.eqb format "gzip" then Some (if decompress then GzipDecode else GzipEncode)
  else None.

Section Codecs.

Context {Writer : Type} (new_writer : Kind -> Writer).
Context (write_all : Kind -> Writer -> list Z -> result (list Z * Writer) string).
Context (finish_writer : Kind -> Writer -> result (list Z) string).

Record Codec := mkCodec { kind : Kind; writer : Writer }.

(** [Codec::push] and [Codec::finish] *)
Definition push (c : Codec) (bytes : list Z) : result (list Z * Codec) string :=
  match write_all (kind c) (writer c) bytes with
  | Ok (out, w) => Ok (out, mkCodec (kind c) w)
  | Err e => Err e
  end.

Definition finish (c : Codec) : result (list Z) string := finish_writer (kind c) (writer c).

(** [CompressionState] *)
Record State := mkState { codecs : gmap Z Codec; next_id : Z }.

Definition initial : State := mkState ∅ 0.

(** The ops, on the values they were given; [None] stands for an argument that is not
    a stream id or no BufferSource, [Some] for what it is. *)
Inductive Op :=
| Start (format : string) (decompress : bool)
| Push (id : option Z) (bytes : option (list Z))
| Finish (id : option Z)
| Drop (id : option Z).

(** What an op answers: an id, bytes, nothing, or the message of a TypeError. *)
Inductive Answer :=
| Id (id : Z)
| Bytes (bytes : list Z)
| Nothing
| TypeError (message : string).

Definition NO_ID : string := "a compression stream op takes a stream id".
Definition NO_BYTES : string := "a compression stream takes a BufferSource".
Definition CLOSED : string := "the compression stream is already closed".

(** [stream_id]: [is_uint32], then its value. *)
Definition stream_id (v : Js) : option Z :=
  match v with
  | JNumber (Handlers.Int z) => if (0 <=? z)%Z && (z <? 2 ^ 32)%Z then Some z else None
  | _ => None
  end.

(** [bytes_of] *)
Definition bytes_of (v : Js) : option (list Z) := match v with JBytes l => Some l | _ => None end.

(** [compression_start]; the id is a [u32] that wraps. *)
Definition compression_start (s : State) (format : string) (decompress : bool) : Answer * State :=
  match codec_kind format decompress with
  | None => (TypeError ("Unsupported compression format: '" +:+ format +:+ "'"), s)
  | Some k =>
      let id := wrap_u32 (next_id s + 1) in
      (Id id, mkState (<[id := mkCodec k (new_writer k)]> (codecs s)) id)
  end.

(** [compression_push] *)
Definition compression_push (s : State) (id : option Z) (bytes : option (list Z)) : Answer * State :=
  match id, bytes with
  | None, _ => (TypeError NO_ID, s)
  | Some _, None => (TypeError NO_BYTES, s)
  | Some id, Some bytes =>
      match codecs s !! id with
      | None => (TypeError CLOSED, s)
      | Some c =>
          match push c bytes with
          | Ok (out, c) => (Bytes out, mkState (<[id := c]> (codecs s)) (next_id s))
          | Err e => (TypeError ("compression failed: " +:+ e), mkState (delete id (codecs s)) (next_id s))
          end
      end
  end.

(** [compression_finish] *)
Definition compression_finish (s : State) (id : option Z) : Answer * State :=
  match id with
  | None => (TypeError NO_ID, s)
  | Some id =>
      let s' := mkState (delete id (codecs s)) (next_id s) in
      match codecs s !! id with
      | None => (TypeError CLOSED, s')
      | Some c =>
          (match finish c with Ok out => Bytes out | Err e => TypeError ("compression failed: " +:+ e) end, s')
      end
  end.

(** [compression_drop] *)
Definition compression_drop (s : State) (id : option Z) : Answer * State :=
  match id with
  | None => (TypeError NO_ID, s)
  | Some id => (Nothing, mkState (delete id (codecs s)) (next_id s))
  end.

Definition exec (s : State) (o : Op) : Answer * State :=
  match o with
  | Start f d => compression_start s f d
  | Push id b => compression_push s id b
  | Finish id => compression_finish s id
  | Drop id => compression_drop s id
  end.

Fixpoint run (s : State) (ops : list Op) : list Answer * State :=
  match ops with
  | [] => ([], s)
  | o :: ops =>
      let '(a, s) := exec s o in
      let '(l, s) := run s ops in (a :: l, s)
  end.

(** ** One stream *)

(** The stream an op is for. *)
Definition target (o : Op) : option Z :=
  match o with Start _ _ => None | Push id _ | Finish id | Drop id => id end.

(** One stream alone: its codec while it is open. *)
Definition alone_step (c : option Codec) (o : Op) : Answer * option Codec :=
  match o, c with
  | Start _ _, _ => (Nothing, c)
  | Push _ None, _ => (TypeError NO_BYTES, c)
  | Push _ (Some _), None | Finish _, None => (TypeError CLOSED, None)
  | Push _ (Some bytes), Some codec =>
      match push codec bytes with
      | Ok (out, codec) => (Bytes out, Some codec)
      | Err e => (TypeError ("compression failed: " +:+ e), None)
      end
  | Finish _, Some codec =>
      (match finish codec with Ok out => Bytes out | Err e => TypeError ("compression failed: " +:+ e) end, None)
  | Drop _, _ => (Nothing, None)
  end.

Fixpoint alone (c : option Codec) (ops : list Op) : list Answer :=
  match ops with
  | [] => []
  | o :: ops => let '(a, c) := alone_step c o in a :: alone c ops
  end.

(** The answers to the ops on one stream. *)
Definition answers_for (id : Z) (ops : list Op) (l : list Answer) : list Answer :=
  omap (fun p => if bool_decide (target (fst p) = Some id) then Some (snd p) else None) (zip ops l).

Definition ops_for (id : Z) (ops : list Op) : list Op :=
  filter (fun o => target o = Some id) ops.

Definition starts (ops : list Op) : nat :=
  length (filter (fun o => match o with Start _ _ => true | _ => false end = true) ops).

Lemma exec_other s o id :
  target o <> Some id -> (0 <= next_id s)%Z -> (next_id s + Z.of_nat (starts [o]) < 2 ^ 32)%Z -> (id <= next_id s)%Z ->
  codecs (snd (exec s o)) !! id = codecs s !! id /\
  (next_id s <= next_id (snd (exec s o)) <= next_id s + Z.of_nat (starts [o]))%Z.
Proof.
  intros Ht H0 Hn Hid. destruct o as [f d|[i|] [b|]|[i|]|[i|]]; simpl in *;
    try (split; [done|unfold starts; simpl; lia]).
  - unfold starts in Hn. simpl in Hn. unfold compression_start.
    destruct (codec_kind f d) as [k|]; [|by split; [|unfold starts; simpl; lia]]. simpl.
    unfold wrap_u32. rewrite wrap_small by lia.
    split; [rewrite lookup_insert_ne; [done|lia]|unfold starts; simpl; lia].
  - assert (i <> id) by congruence. destruct (codecs s !! i) as [c|]; simpl; [|split; [done|unfold starts; simpl; lia]].
    destruct (push c b) as [[out c']|e]; simpl; (split; [|unfold starts; simpl; lia]);
      [by rewrite lookup_insert_ne|by rewrite lookup_delete_ne].
  - assert (i <> id) by congruence. destruct (codecs s !! i) as [c|]; simpl;
      (split; [by rewrite lookup_delete_ne|unfold starts; simpl; lia]).
  - assert (i <> id) by congruence. split; [by rewrite lookup_delete_ne|unfold starts; simpl; lia].
Qed.

Lemma exec_own s o id :
  target o = Some id ->
  fst (exec s o) = fst (alone_step (codecs s !! id) o) /\
  codecs (snd (exec s o)) !! id = snd (alone_step (codecs s !! id) o) /\
  next_id (snd (exec s o)) = next_id s.
Proof.
  intros Ht. destruct o as [f d|i [b|]|i|i]; simplify_eq/=.
  - destruct (codecs s !! id) as [c|] eqn:E; simpl; [|by rewrite E].
    destruct (push c b) as [[out c']|e]; simpl;
      (split_and!; [done|by rewrite ?lookup_insert_eq, ?lookup_delete_eq|done]).
  - by destruct (codecs s !! id).
  - destruct (codecs s !! id) as [c|]; simpl; (split_and!; [done|by rewrite lookup_delete_eq|done]).
  - split_and!; [done|by rewrite lookup_delete_eq|done].
Qed.

Lemma starts_cons o ops : starts (o :: ops) = starts [o] + starts ops.
Proof. unfold starts. rewrite !filter_cons, filter_nil. case_decide; simpl; lia. Qed.

Lemma answers_for_cons id o ops a l :
  answers_for id (o :: ops) (a :: l) =
  if decide (target o = Some id) then a :: answers_for id ops l else answers_for id ops l.
Proof. unfold answers_for. simpl. by case_bool_decide; case_decide. Qed.

Lemma ops_for_cons id o ops :
  ops_for id (o :: ops) = if decide (target o = Some id) then o :: ops_for id ops else ops_for id ops.
Proof. unfold ops_for. by rewrite filter_cons. Qed.

(** The streams of a context do not mix. Whatever else the guest does, as long as
    its ids do not run out, the ops on a stream that was started answer what they
    answer on the codec of that stream alone; and once it is finished, dropped or
    failed it is closed for good. *)
Theorem streams_do_not_mix ops : forall s id,
  (0 <= id <= next_id s)%Z -> (next_id s + Z.of_nat (starts ops) < 2 ^ 32)%Z ->
  answers_for id ops (fst (run s ops)) = alone (codecs s !! id) (ops_for id ops).
Proof.
  induction ops as [|o ops IH]; intros s id Hid Hn; [done|]. cbn [run].
  rewrite starts_cons in Hn. destruct (exec s o) as [a s1] eqn:E. specialize (IH s1 id).
  destruct (run s1 ops) as [l s2]. simpl in IH. cbn [fst]. rewrite answers_for_cons, ops_for_cons.
  case_decide as Ht.
  - destruct (exec_own s o id Ht) as (Ha & Hc & Hi). rewrite E in Ha, Hc, Hi. simpl in Ha, Hc, Hi.
    cbn [alone]. destruct (alone_step (codecs s !! id) o) as [a' c']. simpl in Ha, Hc. subst.
    rewrite IH by lia. done.
  - destruct (exec_other s o id Ht) as [Hc Hb]; [lia|lia|lia|]. rewrite E in Hc, Hb. simpl in Hc, Hb.
    rewrite IH by lia. by rewrite Hc.
Qed.

(** A closed stream answers no bytes. *)
Lemma closed_stays ops : forall id,
  Forall (fun o => target o = Some id) ops ->
  Forall (fun a => match a with Bytes _ | Id _ => False | _ => True end) (alone None ops).
Proof.
  induction ops as [|o ops IH]; intros id Ho; [constructor|]. apply Forall_cons in Ho as [Ht Ho]. simpl.
  destruct o as [f d|i [b|]|i|i]; simpl in *; try done; constructor; try done; by eapply IH.
Qed.

End Codecs.

(** ** Concrete codecs: they hold the bytes back until the end *)

Definition demo_new (k : Kind) : list Z := [].
Definition demo_write (k : Kind) (w bytes : list Z) : result (list Z * list Z) string :=
  if bool_decide (255%Z ∈ bytes) then Err "corrupt"%string else Ok ([], w ++ bytes).
Definition demo_finish (k : Kind) (w : list Z) : result (list Z) string := Ok w.

Definition demo_ops : list Op :=
  [Start "deflate" true; Push (Some 1%Z) (Some [1%Z]); Push (Some 2%Z) (Some [255%Z]);
   Push (Some 1%Z) (Some [2%Z]); Finish (Some 2%Z); Finish (Some 1%Z); Push (Some 1%Z) (Some [3%Z])].

Definition demo_start : State :=
  snd (run demo_new demo_write demo_finish initial [Start "gzip" false]).

Lemma streams_do_not_mix_witness :
  answers_for 1 demo_ops (fst (run demo_new demo_write demo_finish demo_start demo_ops)) =
  [Bytes []; Bytes []; Bytes [1; 2]%Z; TypeError CLOSED].
Proof.
  rewrite (streams_do_not_mix demo_new demo_write demo_finish demo_ops demo_start 1); by vm_compute.
Defined.

End Compression.
