(* ===== verification/TextEncoding.v ===== *)
(** * TextEncoder and TextDecoder (src/src/runtime/text_encoding.rs)

    A JavaScript string is its UTF-16 code units; a Rust string its scalar values, whose
    UTF-8 [into_bytes] gives. The conversions of V8 between the two, and encoding_rs, which
    decodes, are parameters. A ToString that throws leaves its exception for the guest and
    the op goes on without the string. *)

From stdpp Require Import base list strings.
From Stdlib Require Import ZArith Lia.
From S2P Require Import Prelude.

Module TextEncoding.

Open Scope Z_scope.

Definition REPLACEMENT : Z := 65533.

Definition is_high (u : Z) : bool := (55296 <=? u) && (u <=? 56319).
Definition is_low (u : Z) : bool := (56320 <=? u) && (u <=? 57343).

(** [String::into_bytes]: the UTF-8 of a scalar value. *)
Definition utf8 (c : Z) : list Z :=
  if c <? 128 then [c]
  else if c <? 2048 then [192 + c / 64; 128 + c mod 64]
  else if c <? 65536 then [224 + c / 4096; 128 + (c / 64) mod 64; 128 + c mod 64]
  else [240 + c / 262144; 128 + (c / 4096) mod 64; 128 + (c / 64) mod 64; 128 + c mod 64].

Definition into_bytes (s : list Z) : list Z := mjoin (utf8 <$> s).

Definition scalar (c : Z) : Prop := (0 <= c < 55296 \/ 57344 <= c < 1114112).

(** ** Strings without a lone surrogate *)

(** A string with U+FFFD in place of each surrogate that stands alone. *)
Fixpoint well_formed (units : list Z) : bool :=
  match units with
  | [] => true
  | u :: rest =>
      if is_high u then
        match rest with v :: rest' => is_low v && well_formed rest' | [] => false end
      else negb (is_low u) && well_formed rest
  end.

Fixpoint replace_lone (units : list Z) : list Z :=
  match units with
  | [] => []
  | u :: rest =>
      if is_high u then
        match rest with
        | v :: rest' => if is_low v then u :: v :: replace_lone rest' else REPLACEMENT :: replace_lone rest
        | [] => [REPLACEMENT]
        end
      else (if is_low u then REPLACEMENT else u) :: replace_lone rest
  end.

(** Two units at a time. *)
Lemma units_ind (P : list Z -> Prop) :
  P [] -> (forall u, P [u]) -> (forall u v l, P l -> P (v :: l) -> P (u :: v :: l)) -> forall l, P l.
Proof.
  intros H0 H1 H2 l. enough (P l /\ forall u, P (u :: l)) by tauto.
  induction l as [|v l [IH1 IH2]]; [auto|]. split; [apply IH2|]. intros u. apply H2; [done|apply IH2].
Qed.

Lemma replace_two u v l :
  replace_lone (u :: v :: l) =
  if is_high u then if is_low v then u :: v :: replace_lone l else REPLACEMENT :: replace_lone (v :: l)
  else (if is_low u then REPLACEMENT else u) :: replace_lone (v :: l).
Proof. done. Qed.

Lemma well_formed_kept l : well_formed l = true -> replace_lone l = l.
Proof.
  induction l as [|u|u v l IH1 IH2] using units_ind; [done|..].
  - simpl. destruct (is_high u); [done|]. by destruct (is_low u).
  - rewrite replace_two. change (well_formed (u :: v :: l)) with
      (if is_high u then is_low v && well_formed l else negb (is_low u) && well_formed (v :: l)).
    destruct (is_high u) eqn:Eu.
    + destruct (is_low v); [|done]. intros H. by rewrite IH1.
    + destruct (is_low u); [done|]. intros H. simpl in H. by rewrite IH2.
Qed.

(** ** The ops *)

(** An argument, as far as the ops look at it: its string, or [None] when the
    conversion throws; the bytes of a BufferSource. *)
Inductive Arg :=
| Missing
| Undefined
| Null
| Str (units : list Z)
| Bytes (bytes : list Z)
| OtherValue (string : option (list Z)) (truthy : bool).

Definition UNDEFINED_UNITS : list Z := [117; 110; 100; 101; 102; 105; 110; 101; 100].
Definition NULL_UNITS : list Z := [110; 117; 108; 108].

Section Ops.
(** ToString of bytes. *)
Context (bytes_to_string : list Z -> option (list Z)).
(** [to_rust_string_lossy] and [v8::String::new] *)
Context (to_rust_string_lossy : list Z -> list Z) (v8_string : list Z -> list Z).

Definition to_string (a : Arg) : option (list Z) :=
  match a with
  | Missing | Undefined => Some UNDEFINED_UNITS
  | Null => Some NULL_UNITS
  | Str u => Some u
  | Bytes b => bytes_to_string b
  | OtherValue s _ => s
  end.

(** [text_encode]: the bytes of a string, and whether its conversion threw. *)
Definition text_encode (a : Arg) : list Z * bool :=
  match to_string a with
  | Some units => (into_bytes (to_rust_string_lossy units), false)
  | None => (into_bytes [], true)
  end.

(** encoding_rs: the encoding of a label, and what it makes of bytes, with whether it
    met an error. *)
Context {Encoding : Type} (for_label : list Z -> option Encoding).
Context (decode : Encoding -> list Z -> list Z * bool).

Inductive Decoded :=
| DecodedString (units : list Z)
| TypeErr (message : string)
| RangeErr (label : list Z).

Definition UTF_8 : list Z := [117; 116; 102; 45; 56].

Definition boolean_value (a : Arg) : bool :=
  match a with
  | Missing | Undefined | Null => false
  | Str u => negb (bool_decide (u = []))
  | Bytes _ => true
  | OtherValue _ b => b
  end.

(** The label as a Rust string, [utf-8] when there is none; and whether its conversion
    threw, after which it is [utf-8] as well. *)
Definition label_of (a : Arg) : list Z * bool :=
  match a with
  | Missing | Undefined => (UTF_8, false)
  | _ => match to_string a with Some u => (to_rust_string_lossy u, false) | None => (UTF_8, true) end
  end.

(** [text_decode], and whether the conversion of the label threw. *)
Definition text_decode (input label fatal : Arg) : Decoded * bool :=
  match input with
  | Missing | Undefined | Null => (DecodedString [], false)
  | Bytes bytes =>
      let '(label, threw) := label_of label in
      (match for_label label with
       | None => RangeErr label
       | Some encoding =>
           let '(decoded, had_errors) := decode encoding bytes in
           if boolean_value fatal && had_errors then TypeErr "TextDecoder: invalid byte sequence"
           else DecodedString (v8_string decoded)
       end, threw)
  | Str _ | OtherValue _ _ => (TypeErr "TextDecoder.decode: input must be a BufferSource", false)
  end.

(** What TextEncoder encodes, TextDecoder decodes back: any string comes back
    with U+FFFD for each surrogate that stands alone, so a string without one comes
    back as it was, in both modes; given that the label names an encoding that
    decodes UTF-8, and that V8 replaces the surrogates that stand alone. *)
Theorem text_roundtrip units label fatal encoding :
  Forall (fun u => 0 <= u < 65536) units ->
  for_label (fst (label_of label)) = Some encoding ->
  (forall s, Forall scalar s -> decode encoding (into_bytes s) = (s, false)) ->
  (forall l, Forall (fun u => 0 <= u < 65536) l -> Forall scalar (to_rust_string_lossy l) /\
     v8_string (to_rust_string_lossy l) = replace_lone l) ->
  fst (text_decode (Bytes (fst (text_encode (Str units)))) label fatal) = DecodedString (replace_lone units) /\
  (well_formed units = true -> replace_lone units = units).
Proof.
  intros Hu Hl Hd Hv. destruct (Hv units Hu) as [Hs Hr]. split; [|apply well_formed_kept].
  unfold text_decode, text_encode. simpl. destruct (label_of label) as [l t]. simpl in Hl.
  rewrite Hl, Hd by done. rewrite andb_false_r. simpl. by rewrite Hr.
Qed.

End Ops.

(** ** A V8 that replaces surrogates *)

(** What [to_rust_string_lossy] makes of them. *)
Fixpoint lossy (units : list Z) : list Z :=
  match units with
  | [] => []
  | u :: rest =>
      if is_high u then
        match rest with
        | v :: rest' =>
            if is_low v then (65536 + (u - 55296) * 1024 + (v - 56320)) :: lossy rest'
            else REPLACEMENT :: lossy rest
        | [] => [REPLACEMENT]
        end
      else (if is_low u then REPLACEMENT else u) :: lossy rest
  end.

(** The UTF-16 of a scalar value. *)
Definition utf16 (c : Z) : list Z :=
  if c <? 65536 then [c] else [55296 + (c - 65536) / 1024; 56320 + (c - 65536) mod 1024].

Definition to_units (s : list Z) : list Z := mjoin (utf16 <$> s).

Lemma lossy_two u v l :
  lossy (u :: v :: l) =
  if is_high u then
    if is_low v then (65536 + (u - 55296) * 1024 + (v - 56320)) :: lossy l else REPLACEMENT :: lossy (v :: l)
  else (if is_low u then REPLACEMENT else u) :: lossy (v :: l).
Proof. done. Qed.

Lemma to_units_cons c s : to_units (c :: s) = utf16 c ++ to_units s.
Proof. done. Qed.

Lemma surrogates_back u v :
  is_high u = true -> is_low v = true ->
  utf16 (65536 + (u - 55296) * 1024 + (v - 56320)) = [u; v].
Proof.
  unfold is_high, is_low, utf16. rewrite !andb_true_iff, !Z.leb_le. intros Hu Hv.
  destruct (Z.ltb_spec (65536 + (u - 55296) * 1024 + (v - 56320)) 65536); [lia|].
  repeat f_equal; Z.div_mod_to_equations; lia.
Qed.

Lemma unit_back u : u < 65536 -> utf16 u = [u].
Proof. intros H. unfold utf16. by rewrite (proj2 (Z.ltb_lt _ _)). Qed.

(** The string that comes back. *)
Lemma units_back l : Forall (fun u => 0 <= u < 65536) l -> to_units (lossy l) = replace_lone l.
Proof.
  induction l as [|u|u v l IH1 IH2] using units_ind; intros Hl; [done|..].
  - apply Forall_cons in Hl as [Hu _]. simpl. destruct (is_high u); [done|].
    rewrite to_units_cons. destruct (is_low u); simpl; [done|]. by rewrite unit_back by lia.
  - apply Forall_cons in Hl as [Hu Hl]. specialize (IH2 Hl). apply Forall_cons in Hl as [Hv Hl]. specialize (IH1 Hl).
    rewrite lossy_two, replace_two. destruct (is_high u) eqn:Eu.
    + destruct (is_low v) eqn:Ev.
      * rewrite to_units_cons, surrogates_back, IH1 by done. done.
      * rewrite to_units_cons, IH2. done.
    + rewrite to_units_cons, IH2. destruct (is_low u); [done|]. by rewrite unit_back by lia.
Qed.

(** Every scalar [lossy] reads is one. *)
Lemma lossy_scalar l : Forall (fun u => 0 <= u < 65536) l -> Forall scalar (lossy l).
Proof.
  assert (forall u, 0 <= u < 65536 -> is_high u = false -> is_low u = false -> scalar u) as Hs.
  { unfold is_high, is_low, scalar. intros u Hu. rewrite !andb_false_iff, !Z.leb_gt. lia. }
  assert (scalar REPLACEMENT) as Hr by (unfold scalar, REPLACEMENT; lia).
  induction l as [|u|u v l IH1 IH2] using units_ind; intros Hl; [constructor|..].
  - apply Forall_cons in Hl as [Hu _]. simpl. destruct (is_high u) eqn:Eh; [by repeat constructor|].
    constructor; [|constructor]. destruct (is_low u) eqn:El; [done|by apply Hs].
  - apply Forall_cons in Hl as [Hu Hl]. specialize (IH2 Hl). apply Forall_cons in Hl as [Hv Hl]. specialize (IH1 Hl).
    rewrite lossy_two. destruct (is_high u) eqn:Eu.
    + destruct (is_low v) eqn:Ev; constructor; try done.
      unfold is_high, is_low, scalar in *. rewrite !andb_true_iff, !Z.leb_le in *. lia.
    + constructor; [|done]. destruct (is_low u) eqn:El; [done|by apply Hs].
Qed.

(** ** A decoder of UTF-8 *)

(** It reads what [into_bytes] writes; anything else is an error. *)
Fixpoint demo_decode (fuel : nat) (bytes : list Z) : list Z * bool :=
  match fuel, bytes with
  | _, [] => ([], false)
  | O, _ => ([], true)
  | S fuel, b :: rest =>
      if b <? 128 then let '(s, e) := demo_decode fuel rest in (b :: s, e)
      else if b <? 224 then
        match rest with
        | b1 :: rest => let '(s, e) := demo_decode fuel rest in ((b - 192) * 64 + (b1 - 128) :: s, e)
        | _ => ([], true)
        end
      else if b <? 240 then
        match rest with
        | b1 :: b2 :: rest =>
            let '(s, e) := demo_decode fuel rest in ((b - 224) * 4096 + (b1 - 128) * 64 + (b2 - 128) :: s, e)
        | _ => ([], true)
        end
      else
        match rest with
        | b1 :: b2 :: b3 :: rest =>
            let '(s, e) := demo_decode fuel rest in
            ((b - 240) * 262144 + (b1 - 128) * 4096 + (b2 - 128) * 64 + (b3 - 128) :: s, e)
        | _ => ([], true)
        end
  end.

Lemma demo_decodes s : forall fuel,
  Forall scalar s -> (length (into_bytes s) <= fuel)%nat -> demo_decode fuel (into_bytes s) = (s, false).
Proof.
  induction s as [|c s IH]; intros fuel Hs Hf; [by destruct fuel|].
  apply Forall_cons in Hs as [Hc Hs].
  change (into_bytes (c :: s)) with (utf8 c ++ into_bytes s) in *.
  rewrite length_app in Hf. unfold scalar in Hc. unfold utf8 in *.
  destruct fuel as [|fuel].
  { exfalso. repeat case_match; simpl in Hf; lia. }
  destruct (Z.ltb_spec c 128); [|destruct (Z.ltb_spec c 2048); [|destruct (Z.ltb_spec c 65536)]];
    cbn [app demo_decode]; simpl in Hf;
    repeat match goal with |- context [(?a <? ?b)] =>
      destruct (Z.ltb_spec a b); [try (exfalso; Z.div_mod_to_equations; lia)|try (exfalso; Z.div_mod_to_equations; lia)] end;
    rewrite IH by (done || lia); repeat f_equal; Z.div_mod_to_equations; lia.
Qed.

Lemma text_roundtrip_witness :
  let decoder (_ : unit) bytes := demo_decode (length bytes) bytes in
  let units := [104; 233; 55357; 56832; 55357] in
  fst (text_decode (fun _ => None) lossy to_units (fun _ => Some tt) decoder
    (Bytes (fst (text_encode (fun _ => None) lossy (Str units)))) Missing Missing) =
  DecodedString [104; 233; 55357; 56832; 65533].
Proof.
  intros decoder units.
  destruct (text_roundtrip (fun _ => None) lossy to_units (fun _ => Some tt) decoder units
    Missing Missing tt) as [H _]; [repeat constructor; lia|done| | |exact H].
  - intros s Hs. by apply demo_decodes.
  - intros l Hl. split; [by apply lossy_scalar|by apply units_back].
Defined.

(** A label that has no string is read as [utf-8], and the guest sees the exception: the
    bytes are decoded for nothing. *)
Example throwing_labels_decode :
  text_decode (fun _ => None) lossy to_units (fun _ => Some tt) (fun (_ : unit) bytes => (bytes, false))
    (Bytes [104]) (OtherValue None true) Missing = (DecodedString [104], true).
Proof. reflexivity. Qed.

End TextEncoding.
