(* ===== verification/Loading.v ===== *)
(** * Building a context and loading its script

    src/src/execution_context.rs ([new_with_pooled_isolate], [evaluate_script],
    [evaluate], [make_clear]) and src/src/worker.rs ([evaluate_in_context],
    [setup_env], [install_dispatch]).

    V8 is a class of operations on a state (the isolate with its context). A call
    that may run JavaScript answers the state after it. The top level of the script
    runs as a turn on the world of Guards.v, with the CPU limit of Cpu.v: what the
    other threads and the thread's own clock do in the meantime is a schedule of the
    steps of those two models. The scripts of the host, which run before the turn,
    hit no memory limit there. *)

From stdpp Require Import base list gmap strings relations.
From Stdlib Require Import ZArith Lia.
From S2P Require Import Prelude Guards GuardsCorrect Cpu CodeCache.

Local Open Scope Z_scope.

Module Loading.

(** ** V8 *)

(** [caught] is the exception of the [TryCatch], as a string ([to_string] may run
    guest code); [compile_cached] is [script_compiler::compile] with
    [ConsumeCodeCache]. *)
Class V8 (S : Type) := {
  Str : Type;
  Prog : Type;
  Val : Type;
  Fn : Type;
  Obj : Type;
  string_new : S -> list Z -> option Str;
  compile : Str -> S -> option Prog * S;
  compile_cached : Str -> list Z -> S -> option Prog * S;
  run : Prog -> S -> option Val * S;
  caught : S -> option string * S;
  as_function : Val -> option Fn;
  call : Fn -> list Val -> S -> option Val * S;
  to_object : Val -> S -> option Obj * S;
  strict_options : bool -> Val
}.

(** A call that fails, or one that panics. *)
Inductive Stop (E : Type) := Panic | Error (e : E).
Arguments Panic {E}.
Arguments Error {E} e.

Section Steps.
Context {S : Type}.

(** Fallible code that changes the state of V8. *)
Definition Run (A E : Type) : Type := S -> result A E * S.

Definition ret {A E} (a : A) : Run A E := fun s => (Ok a, s).
Definition fails {A E} (e : E) : Run A E := fun s => (Err e, s).
Definition bind {A B E} (m : Run A E) (k : A -> Run B E) : Run B E := fun s =>
  let '(r, s) := m s in
  match r with Ok a => k a s | Err e => (Err e, s) end.

(** [Option::ok_or]: of a value that is there, and of a call. *)
Definition ok_or {A E} (o : S -> option A) (e : E) : Run A E := fun s =>
  (match o s with Some a => Ok a | None => Err e end, s).
Definition call_or {A E} (m : S -> option A * S) (e : E) : Run A E := fun s =>
  let '(o, s) := m s in (match o with Some a => Ok a | None => Err e end, s).

(** [map_err] *)
Definition map_err {A E E'} (f : E -> E') (m : Run A E) : Run A E' := fun s =>
  let '(r, s) := m s in (match r with Ok a => Ok a | Err e => Err (f e) end, s).

End Steps.

Declare Scope run_scope.
Notation "'do' x <- m ; k" := (bind m (fun x => k))
  (at level 200, x name, m at level 100, k at level 200) : run_scope.
Open Scope run_scope.

Section Engine.
Context {S : Type} `{V8 S}.
Arguments Run {S} A E.

(** A call in a [TryCatch]: the exception is the message, or [fallback] is. *)
Definition attempt {A E} (m : S -> option A * S) (wrap : string -> E) (fallback : string) : Run A E :=
  fun s =>
    let '(o, s) := m s in
    match o with
    | Some a => (Ok a, s)
    | None => let '(message, s) := caught s in (Err (wrap (default fallback message)), s)
    end.

(** ** Scripts of the host *)

(** [evaluate_in_context] *)
Definition evaluate_in_context (code : list Z) : Run unit string :=
  do code_str <- ok_or (fun s => string_new s code) "Failed to create V8 string"%string;
  do script <- attempt (compile code_str) id "Compile error"%string;
  do _ <- attempt (run script) id "Runtime error"%string;
  ret tt.

Inductive BindingType :=
| Assets | Storage | Kv | Database | D1 | Worker | Images | DurableObject | Invoke.

(** [BindingInfo] *)
Record BindingInfo := mkBinding { b_name : string; b_type : BindingType }.

Definition kind (b : BindingType) : string :=
  match b with
  | Assets => "assets" | Storage => "storage" | Kv => "kv" | Database => "database" | D1 => "d1"
  | Worker => "worker" | Images => "images" | DurableObject => "durable_object" | Invoke => "invoke"
  end.

(** The texts of the host's scripts and [serde_json]; "(", ", " and ");" as bytes. *)
Record Texts := mkTexts {
  env_js : list Z;
  dispatch_js : list Z;
  stream_body_js : list Z;
  make_clear_js : list Z;
  json_vars : gmap string string -> list Z;
  json_bindings : list (string * string) -> list Z
}.

(** [setup_env] *)
Definition setup_env (x : Texts) (env : option (gmap string string)) (bindings : list BindingInfo)
  : Run unit string :=
  let vars := json_vars x (default ∅ env) in
  let bindings := json_bindings x ((fun b => (b_name b, kind (b_type b))) <$> bindings) in
  evaluate_in_context (env_js x ++ [40] ++ vars ++ [44; 32] ++ bindings ++ [41; 59]).

(** The chain [Script::compile], [run], [Function::try_from]. *)
Definition function_of (str : Str) : S -> option Fn * S := fun s =>
  let '(script, s) := compile str s in
  match script with
  | None => (None, s)
  | Some script =>
      let '(value, s) := run script s in
      (value ≫= as_function, s)
  end.

(** [install_dispatch]; a string that cannot be made there is a panic. *)
Definition install_dispatch (x : Texts) (strict : bool) : Run Obj (Stop string) :=
  do code <- ok_or (fun s => string_new s (dispatch_js x)) Panic;
  do install <- call_or (function_of code)
                  (Error "the wintertc dispatch does not evaluate to a function"%string);
  let options := strict_options strict in
  do code <- ok_or (fun s => string_new s (stream_body_js x)) Panic;
  do engine <- call_or (fun s => let '(factory, s) := function_of code s in
                                 match factory with
                                 | None => (None, s)
                                 | Some factory => call factory [options] s
                                 end)
                 (Error "stream_body.js does not answer an engine"%string);
  call_or (fun s => let '(value, s) := call install [engine; options] s in
                    match value with
                    | None => (None, s)
                    | Some value => to_object value s
                    end)
    (Error "the dispatch did not answer an object"%string).

(** [make_clear] *)
Definition make_clear (x : Texts) : Run Fn TerminationReason :=
  let failed := InitializationError "the reset function" in
  do code <- ok_or (fun s => string_new s (make_clear_js x)) failed;
  call_or (function_of code) failed.

(** ** The script of the guest *)

(** [WorkerCode]; [OtherCode] is what other engines run. *)
Inductive WorkerCode :=
| JavaScript (js : list Z)
| Snapshot (data : list Z)
| OtherCode.

(** [evaluate_script] *)
Definition evaluate_script (code : WorkerCode) : Run unit TerminationReason :=
  match code with
  | JavaScript js =>
      do code_str <- ok_or (fun s => string_new s js) (InitializationError "Failed to create script string");
      do script <- attempt (compile code_str) (fun m => Exception ("SyntaxError: " +:+ m))
                     "Unknown compile error"%string;
      do _ <- attempt (run script) Exception "Unknown runtime error"%string;
      ret tt
  | Snapshot data =>
      match CodeCache.unpack_code_cache data with
      | None => fails (InitializationError "Failed to unpack code cache bundle")
      | Some (source, cache_bytes) =>
          do code_str <- ok_or (fun s => string_new s source) (InitializationError "Failed to create V8 string");
          do script <- attempt (compile_cached code_str cache_bytes) Exception
                         "Failed to compile with code cache"%string;
          do _ <- attempt (run script) Exception "Unknown runtime error"%string;
          ret tt
      end
  | OtherCode => fails (InitializationError "V8 runtime only supports JavaScript code")
  end.

(** [evaluate]: the messages say less, and nothing catches the exception. *)
Definition evaluate (code : WorkerCode) : Run unit string :=
  match code with
  | JavaScript js =>
      do source <- ok_or (fun s => string_new s js) "Failed to create V8 string"%string;
      do script <- call_or (compile source) "Failed to compile script"%string;
      do _ <- call_or (run script) "Script execution failed"%string;
      ret tt
  | Snapshot data =>
      match CodeCache.unpack_code_cache data with
      | None => fails "Failed to unpack code cache bundle"%string
      | Some (source, cache_bytes) =>
          do code_str <- ok_or (fun s => string_new s source) "Failed to create V8 string"%string;
          do script <- call_or (compile_cached code_str cache_bytes) "Failed to compile with code cache"%string;
          do _ <- call_or (run script) "Script execution failed"%string;
          ret tt
      end
  | OtherCode => fails "V8 runtime only supports JavaScript code"%string
  end.

(** ** The load turn *)

Definition LOAD_CPU_TIME_MS : Z := 400.

(** [RuntimeLimits], the two the load reads. *)
Record RuntimeLimits := mkLimits { max_cpu_time_ms : Z; max_wall_clock_time_ms : Z }.

(** [load_cpu_ms] *)
Definition load_cpu_ms (l : RuntimeLimits) : Z :=
  if max_cpu_time_ms l =? 0 then 0 else Z.max (max_cpu_time_ms l) LOAD_CPU_TIME_MS.

(** What a load meets: its id, the answers of the CPU clock and of [timer_create],
    whether the enforcer starts spent (a CPU watchdog that is not running), and what
    happens around it: before its turn, in it, and from its end until the guards are
    read. *)
Record LoadEnv := mkLoad {
  load : Z;
  cpu_clock : option Z;
  timer_created : bool;
  spent : bool;
  before : list Watchdog.label;
  during : list Watchdog.label;
  after : list Watchdog.label;
  cpu_during : list Cpu.label;
  cpu_after : list Cpu.label
}.

(** The steps left to the others while the isolate [i] is locked by the load with
    the guard [g]. *)
Definition foreign (i g : nat) (l : Watchdog.label) : bool :=
  match l with
  | Watchdog.LBegin j _ | Watchdog.LEnd j => negb (Nat.eqb j i)
  | Watchdog.LDrop h => negb (Nat.eqb h g)
  | _ => true
  end.

Definition others (i g : nat) (w : Watchdog.World) (ls : list Watchdog.label) : option Watchdog.World :=
  if forallb (foreign i g) ls then Watchdog.run w ls else None.

(** The CPU time passes, and the signal thread serves the timer. *)
Definition passive (l : Cpu.label) : bool :=
  match l with Cpu.LRun _ | Cpu.LSignal => true | _ => false end.

Definition cpu_runs (c : option Cpu.State) (ls : list Cpu.label) : option (option Cpu.State) :=
  match c with None => Some None | Some c => Some <$> run_steps Cpu.exec c ls end.

Definition cpu_passes (c : option Cpu.State) (ls : list Cpu.label) : option (option Cpu.State) :=
  if forallb passive ls then cpu_runs c ls else None.

(** [CpuEnforcer::new] on the thread of the load. *)
Definition cpu_new (ms : Z) (x : LoadEnv) : option Cpu.State :=
  e ← Cpu.new ms (cpu_clock x) (timer_created x);
  now ← cpu_clock x;
  Some (Cpu.mkState e now None false 0).

Definition was_terminated (c : option Cpu.State) : bool :=
  match c with Some c => Cpu.terminated (Cpu.enforcer c) | None => false end.

(** [pooled.memory_limit_hit.swap(false)] *)
Definition swap_memory (w : Watchdog.World) (i : nat) : option (bool * Watchdog.World) :=
  t ← Watchdog.turns w !! i;
  Some (Turn.memory_limit_hit t,
        Watchdog.set_turn w i (Turn.mkTurn (Turn.holder t) false (Turn.terminating t))).

(** What the load answers when the turn is over: the first limit that was hit, in
    the order of the checks. *)
Definition verdict (c : option Cpu.State) (wall memory_hit : bool) (w : Watchdog.World) (i : nat)
    (evaluated : result unit TerminationReason) : option (result unit TerminationReason * Watchdog.World) :=
  if was_terminated c then Some (Err CpuTimeLimit, w)
  else if wall then Some (Err WallClockTimeout, w)
  else if memory_hit then Some (Err MemoryLimit, w)
  else
    '(pooled_hit, w) ← swap_memory w i;
    Some (if pooled_hit : bool then Err MemoryLimit else evaluated, w).

(** The turn with its guards, from [TurnGuard::begin] to what the guards say; the wall
    guard is dropped on the way out. *)
Definition guarded_turn (i g : nat) (code : WorkerCode) (x : LoadEnv) (s : S) (w : Watchdog.World)
    (c : option Cpu.State) : option (result unit TerminationReason * S * Watchdog.World * option Cpu.State) :=
  w ← others i g w (before x);
  w ← Watchdog.step_to w (Watchdog.LBegin i (load x));
  c ← cpu_runs c [Cpu.LBegin];
  let '(evaluated, s) := evaluate_script code s in
  w ← others i g w (during x);
  c ← cpu_passes c (cpu_during x);
  c ← cpu_runs c [Cpu.LEnd];
  t ← Watchdog.turns w !! i;
  w ← Watchdog.step_to w (Watchdog.LEnd i);
  w ← others i g w (after x);
  c ← cpu_passes c (cpu_after x);
  wall ← Watchdog.guards w !! g;
  '(r, w) ← verdict c (Watchdog.triggered wall) (Turn.memory_limit_hit t) w i evaluated;
  w ← Watchdog.step_to w (Watchdog.LDrop g);
  Some (r, s, w, c).

(** The top level of the script, as a turn of the isolate [i] under the load
    limits. *)
Definition load_turn (i : nat) (limits : RuntimeLimits) (code : WorkerCode) (x : LoadEnv)
    (s : S) (w : Watchdog.World)
  : option (result unit TerminationReason * S * Watchdog.World * option Cpu.State) :=
  let g := length (Watchdog.guards w) in
  w ← Watchdog.step_to w (Watchdog.LGuard i (load x) (max_wall_clock_time_ms limits));
  let c := cpu_new (load_cpu_ms limits) x in
  if bool_decide (is_Some c) && spent x
  then w ← Watchdog.step_to w (Watchdog.LDrop g); Some (Err CpuTimeLimit, s, w, c)
  else guarded_turn i g code x s w c.

(** [Script] *)
Record Script := mkScript {
  code : WorkerCode;
  env : option (gmap string string);
  bindings : list BindingInfo
}.

(** What the host does before guest code runs: the dispatch, then [env], then the
    reset function. *)
Definition set_up (x : Texts) (strict : bool) (script : Script) : Run (Obj * Fn) (Stop TerminationReason) :=
  do dispatch <- map_err (fun e => match e with
                                   | Panic => Panic
                                   | Error e => Error (InitializationError ("Failed to install the dispatch: " +:+ e))
                                   end) (install_dispatch x strict);
  do _ <- map_err (fun e => Error (InitializationError ("Failed to setup env: " +:+ e)))
            (setup_env x (env script) (bindings script));
  do clear <- map_err Error (make_clear x);
  ret (dispatch, clear).

(** [new_with_pooled_isolate], from the new V8 context [s]: the dispatch and the
    reset function of the context, or why it is not built. *)
Definition new_with_pooled_isolate (x : Texts) (strict : bool) (i : nat) (limits : RuntimeLimits)
    (script : Script) (l : LoadEnv) (s : S) (w : Watchdog.World)
  : option (result (Obj * Fn) (Stop TerminationReason) * S * Watchdog.World * option Cpu.State) :=
  let '(made, s) := set_up x strict script s in
  match made with
  | Err e => Some (Err e, s, w, None)
  | Ok made =>
      '(r, s, w, c) ← load_turn i limits (code script) l s w;
      Some (match r with Ok _ => Ok made | Err e => Err (Error e) end, s, w, c)
  end.

End Engine.

(** ** What the others may change *)

Import GuardsCorrect.

Definition is_memory (i : nat) (l : Watchdog.label) : bool :=
  match l with Watchdog.LMemory j _ => Nat.eqb j i | _ => false end.

(** The turn [t] of [i] after steps of the others: the same holder, and a memory
    limit only if the JavaScript of the turn hit one. *)
Definition carried (hits : bool) (t t' : Turn.Turn) : Prop :=
  Turn.holder t' = Turn.holder t /\ Turn.memory_limit_hit t' = Turn.memory_limit_hit t || hits.

Lemma carried_refl t : carried false t t.
Proof. split; [done|]. by rewrite orb_false_r. Qed.

Lemma carried_terminate t r : carried false t (snd (Turn.terminate t r)).
Proof. unfold Turn.terminate. by case_bool_decide; split; simpl; rewrite ?orb_false_r. Qed.

(** A step that sets the turn [j] to one that carries. *)
Lemma carried_set (l : list Turn.Turn) i j t u u' :
  l !! i = Some t -> l !! j = Some u -> carried false u u' ->
  exists t', <[j := u']> l !! i = Some t' /\ carried false t t'.
Proof.
  intros Hi Hj Hc. destruct (decide (j = i)) as [->|Hne].
  - simplify_eq. exists u'. split; [|done]. apply list_lookup_insert_eq. by eapply lookup_lt_Some.
  - exists t. rewrite list_lookup_insert_ne by done. split; [done|apply carried_refl].
Qed.

(** A step of another isolate. *)
Lemma carried_other (l : list Turn.Turn) i j t u :
  l !! i = Some t -> i <> j -> exists t', <[j := u]> l !! i = Some t' /\ carried false t t'.
Proof.
  intros Hi Hne. exists t. rewrite list_lookup_insert_ne by done. split; [done|apply carried_refl].
Qed.

Lemma step_carries i g w l w' t :
  Watchdog.step_to w l = Some w' -> foreign i g l = true -> Watchdog.turns w !! i = Some t ->
  exists t', Watchdog.turns w' !! i = Some t' /\ carried (is_memory i l) t t'.
Proof.
  intros Hs Hf Hi. destruct l as [j r|j|j r tm|h|h|j r|j b| | | |d]; simpl in Hs, Hf; step_cases Hs;
    try (exists t; split; [done|apply carried_refl]).
  - apply carried_other; [done|]. by intros ->; rewrite Nat.eqb_refl in Hf.
  - destruct (Turn.memory_limit_hit _); apply carried_other; try done; by intros ->; rewrite Nat.eqb_refl in Hf.
  - unfold Watchdog.guard_new. case_match; exists t; split; try done; apply carried_refl.
  - eapply carried_set; [done|done|apply carried_terminate].
  - simpl. destruct (Nat.eqb_spec j i) as [->|Hne]; [|by apply carried_other].
    simplify_eq. eexists. split; [apply list_lookup_insert_eq; by eapply lookup_lt_Some|].
    split; [done|]. simpl. by rewrite orb_true_r.
  - exists t. unfold Watchdog.scan. case_match; split; try done; apply carried_refl.
  - unfold Watchdog.fire. simpl.
    destruct (Watchdog.turns w !! Watchdog.g_turn _) as [u|] eqn:Hu; simpl.
    + eapply carried_set; [done|done|apply carried_terminate].
    + exists t. split; [done|apply carried_refl].
Qed.

Lemma carried_trans a b t1 t2 t3 : carried a t1 t2 -> carried b t2 t3 -> carried (a || b) t1 t3.
Proof. intros [Hh Ha] [Hh' Hb]. split; [congruence|]. by rewrite Hb, Ha, orb_assoc. Qed.

Lemma others_carry i g ls : forall w w' t,
  others i g w ls = Some w' -> Watchdog.turns w !! i = Some t ->
  exists t', Watchdog.turns w' !! i = Some t' /\ carried (existsb (is_memory i) ls) t t'.
Proof.
  induction ls as [|l ls IH]; intros w w' t; unfold others; simpl.
  - intros [= ->] Hi. exists t. split; [done|apply carried_refl].
  - destruct (foreign i g l) eqn:Hf; simpl; [|done]. destruct (forallb (foreign i g) ls) eqn:Hls; [|done].
    intros Hr Hi. unfold Watchdog.run in Hr. simpl in Hr.
    destruct (Watchdog.step_to w l) as [w1|] eqn:Hs; simpl in Hr; [|done].
    destruct (step_carries i g w l w1 t Hs Hf Hi) as (t1 & Hi1 & Hc1).
    destruct (IH w1 w' t1) as (t2 & Hi2 & Hc2); [|done|].
    { unfold others. by rewrite Hls. }
    exists t2. split; [done|]. by eapply carried_trans.
Qed.

(** What never shrinks on the way from [w] to [w']. *)
Definition advances (w w' : Watchdog.World) : Prop :=
  guards_grow w w' /\ Watchdog.clock w <= Watchdog.clock w' /\
  forall k, Watchdog.reach k w -> Watchdog.reach k w'.

Lemma advances_refl w : advances w w.
Proof. split_and!; [by apply guards_grow_refl|lia|done]. Qed.

Lemma advances_trans w1 w2 w3 : advances w1 w2 -> advances w2 w3 -> advances w1 w3.
Proof.
  intros (G1 & C1 & R1) (G2 & C2 & R2). split_and!; [|lia|auto].
  intros g x Hx. destruct (G1 g x Hx) as (x1 & Hx1 & ? & ? & ? & ? & ?).
  destruct (G2 g x1 Hx1) as (x2 & Hx2 & ? & ? & ? & ? & ?). exists x2. split_and!; try congruence; auto.
Qed.

Lemma step_advances w l w' : Watchdog.step_to w l = Some w' -> advances w w'.
Proof.
  intros H. split_and!; [by eapply step_grows| |].
  - destruct l; simpl in H; step_cases H; try lia.
    + by destruct (Turn.memory_limit_hit _).
    + unfold Watchdog.guard_new. case_match; simpl; lia.
    + destruct (scan_keeps w (Watchdog.clock w)) as (_ & _ & _ & _ & _ & -> & _). lia.
    + unfold Watchdog.fire. case_match; simpl; lia.
  - intros k (w0 & Hi & Hr). exists w0. split; [done|]. eapply rtc_r; [done|by exists l].
Qed.

Lemma run_advances ls : forall w w', Watchdog.run w ls = Some w' -> advances w w'.
Proof.
  induction ls as [|l ls IH]; intros w w' H.
  - injection H as ->. apply advances_refl.
  - unfold Watchdog.run in H. simpl in H. destruct (Watchdog.step_to w l) eqn:Hs; simpl in H; [|done].
    eapply advances_trans; [by eapply step_advances|by apply IH].
Qed.

Lemma others_advance i g w ls w' : others i g w ls = Some w' -> advances w w'.
Proof. unfold others. destruct (forallb _ ls); [apply run_advances|done]. Qed.

Create HintDb loading.
#[local] Hint Resolve step_advances others_advance advances_trans : loading.

(** ** The CPU time of a load *)

(** The enforcer of a load of [ms] milliseconds, in a turn or not. *)
Definition metered (ms : Z) (c : option Cpu.State) : Prop :=
  match c with Some c => Cpu.cpu_wf c /\ Cpu.budget (Cpu.enforcer c) = ms * 1000000 | None => True end.

Definition off_turn (c : option Cpu.State) : Prop :=
  match c with Some c => Cpu.turn_started (Cpu.enforcer c) = None | None => True end.

Lemma cpu_new_metered ms x : 0 <= ms -> metered ms (cpu_new ms x).
Proof.
  intros Hms. unfold cpu_new, Cpu.new. destruct (Z.eqb_spec ms 0); [done|].
  destruct (cpu_clock x) as [now|]; [|done]. destruct (timer_created x); [|done]. simpl. split; [|done].
  apply (Cpu.cpu_reach_wf ms now); [lia|]. exists (Cpu.mkState (Cpu.mkEnforcer (ms * 1000000) (ms * 1000000) None false) now None false 0).
  split; [|apply rtc_refl]. unfold Cpu.initial, Cpu.new. by destruct (Z.eqb_spec ms 0).
Qed.

Lemma cpu_step_budget s l s' :
  Cpu.exec s l = Some s' -> Cpu.budget (Cpu.enforcer s') = Cpu.budget (Cpu.enforcer s).
Proof.
  intros H. destruct l; simpl in H; repeat case_match; simplify_eq; try done; simpl;
    unfold Cpu.end_turn, Cpu.refill; by repeat case_match.
Qed.

Lemma cpu_runs_metered ms ls : forall c c', metered ms c -> cpu_runs c ls = Some c' -> metered ms c'.
Proof.
  induction ls as [|l ls IH]; intros [c|] c' Hm; simpl; try (by intros [= <-]).
  destruct (Cpu.exec c l) as [c1|] eqn:Hc; simpl; [|done]. intros Hr.
  apply (IH (Some c1)); [|done]. destruct Hm as [Hw Hb]. split; [by eapply Cpu.cpu_exec_wf|].
  by rewrite (cpu_step_budget _ _ _ Hc).
Qed.

Lemma passive_off_turn ls : forall c c', off_turn c -> cpu_passes c ls = Some c' -> off_turn c'.
Proof.
  unfold cpu_passes. induction ls as [|l ls IH]; intros [c|] c' Ho; simpl; try (by intros [= <-]).
  - destruct (passive l) eqn:Hp; simpl; [|done]. destruct (forallb passive ls) eqn:Hls; [|done].
    destruct (Cpu.exec c l) as [c1|] eqn:Hc; simpl; [|done]. intros Hr.
    apply (IH (Some c1)); [|by rewrite ?Hls]. simpl in *.
    destruct l; try done; simpl in Hc; repeat case_match; by simplify_eq.
  - destruct (passive l && forallb passive ls); [|done]. by intros [= <-].
Qed.

Lemma cpu_end_off_turn c c' : cpu_runs c [Cpu.LEnd] = Some c' -> off_turn c'.
Proof.
  destruct c as [c|]; simpl; [|by intros [= <-]]. unfold Cpu.in_turn. destruct (Cpu.turn_started _) eqn:E; [|done].
  intros [= <-]. simpl. unfold Cpu.end_turn. by rewrite E.
Qed.

Lemma cpu_passes_metered ms c ls c' : metered ms c -> cpu_passes c ls = Some c' -> metered ms c'.
Proof. unfold cpu_passes. destruct (forallb passive ls); [apply cpu_runs_metered|done]. Qed.

(** Once the turn is over, the enforcer has terminated exactly the loads that spent
    their budget. *)
Lemma metered_exact ms c :
  metered ms (Some c) -> off_turn (Some c) ->
  Cpu.terminated (Cpu.enforcer c) = true <-> ms * 1000000 <= Cpu.used c.
Proof.
  intros [Hw Hb] Ho. simpl in Ho. rewrite <-Hb. split; intros Ht.
  - pose proof (Cpu.wf_terminated _ Hw Ht). unfold Cpu.running in *. rewrite Ho in *. lia.
  - apply (Cpu.wf_spent _ Hw). lia.
Qed.

Lemma load_cpu_ms_nonneg l : 0 <= max_cpu_time_ms l -> 0 <= load_cpu_ms l.
Proof. unfold load_cpu_ms. case_match; lia. Qed.

#[local] Hint Resolve cpu_runs_metered cpu_passes_metered passive_off_turn cpu_end_off_turn cpu_new_metered
  load_cpu_ms_nonneg : loading.

(** ** The pieces of a load turn *)

Definition free_turn (w : Watchdog.World) (i : nat) : Prop :=
  exists t, Watchdog.turns w !! i = Some t /\ Turn.holder t = None /\ Turn.memory_limit_hit t = false.

Lemma reach_free k w i t :
  Watchdog.reach k w -> Watchdog.turns w !! i = Some t -> Turn.holder t = None -> free_turn w i.
Proof.
  intros Hw Hi Hh. exists t. split_and!; try done. destruct (Turn.memory_limit_hit t) eqn:E; [|done].
  destruct (wf_memory _ (reach_turns k w Hw) i t Hi E) as (r & ? & _). congruence.
Qed.

Lemma others_free k i g w ls w' :
  Watchdog.reach k w -> free_turn w i -> others i g w ls = Some w' -> free_turn w' i.
Proof.
  intros Hw (t & Hi & Hh & _) Ho. destruct (others_carry i g ls w w' t Ho Hi) as (t' & Hi' & Hh' & _).
  apply (reach_free k w' i t'); [|done|congruence]. apply others_advance in Ho as (_ & _ & Ho). auto.
Qed.

(** A guard of the load is in place, and will trigger no earlier than its time. *)
Lemma new_guard w i r timeout w' :
  Watchdog.step_to w (Watchdog.LGuard i r timeout) = Some w' ->
  Watchdog.turns w' = Watchdog.turns w /\ Watchdog.clock w' = Watchdog.clock w /\
  exists x, Watchdog.guards w' !! length (Watchdog.guards w) = Some x /\
    Watchdog.g_key x = (if timeout =? 0 then None else Some (Watchdog.clock w + timeout, Watchdog.next_key w)) /\
    0 <= timeout.
Proof.
  simpl. destruct (Z.leb_spec 0 timeout); [|done]. intros [= <-]. unfold Watchdog.guard_new.
  destruct (timeout =? 0); simpl; rewrite list_lookup_middle by done; eauto 10.
Qed.

Lemma wall_in_time k w i r timeout w1 w' x :
  Watchdog.step_to w (Watchdog.LGuard i r timeout) = Some w1 -> advances w1 w' -> Watchdog.reach k w' ->
  Watchdog.guards w' !! length (Watchdog.guards w) = Some x -> Watchdog.triggered x = true ->
  0 < timeout /\ Watchdog.clock w + timeout <= Watchdog.clock w'.
Proof.
  intros (_ & _ & x0 & Hx0 & Hk0 & Hpos)%new_guard (Hg & _ & _) Hr Hx Ht.
  destruct (Hg _ _ Hx0) as (x1 & Hx1 & _ & _ & Hk1 & _). simplify_eq.
  destruct (dl_triggered _ (reach_deadlines k w' Hr) _ _ Hx Ht) as (a & n & Hk & Hle).
  rewrite Hk1, Hk0 in Hk. destruct (Z.eqb_spec timeout 0); simplify_eq. lia.
Qed.

(** The guard takes its deadline with it. *)
Lemma guard_gone k w g w' :
  Watchdog.reach k w -> Watchdog.step_to w (Watchdog.LDrop g) = Some w' ->
  Watchdog.turns w' = Watchdog.turns w /\ forall key, Watchdog.deadlines w' !! key <> Some g.
Proof.
  intros Hr Hs. simpl in Hs. step_cases Hs. split; [done|]. intros key Hk.
  match type of Hk with context [match ?o with _ => _ end] => destruct o as [k'|] eqn:E end.
  - rewrite lookup_delete_Some in Hk. destruct Hk as [Hne Hk].
    destruct (dl_entry _ (reach_deadlines k w Hr) _ _ Hk) as (x & Hx & Hkx). congruence.
  - destruct (dl_entry _ (reach_deadlines k w Hr) _ _ Hk) as (x & Hx & Hkx). congruence.
Qed.

Lemma end_frees w i w' : Watchdog.step_to w (Watchdog.LEnd i) = Some w' -> free_turn w' i.
Proof.
  intros Hs. simpl in Hs. step_cases Hs.
  assert (i < length (Watchdog.turns w))%nat as Hlt by (by eapply lookup_lt_Some).
  destruct (Turn.memory_limit_hit _); (eexists; split; [apply list_lookup_insert_eq; exact Hlt|done]).
Qed.

(** On a free turn the flag of the isolate says nothing more. *)
Lemma verdict_order c wall memory_hit w i ev r w' :
  free_turn w i -> verdict c wall memory_hit w i ev = Some (r, w') ->
  w' = w /\
  r = if was_terminated c then Err CpuTimeLimit else if wall then Err WallClockTimeout
      else if memory_hit then Err MemoryLimit else ev.
Proof.
  intros (t & Hi & Hh & Hm). unfold verdict, swap_memory. rewrite Hi. simpl. rewrite Hm.
  repeat case_match; intros [= <- <-]; try done. split; [|done].
  destruct w. unfold Watchdog.set_turn. simpl in *. f_equal. apply list_insert_id.
  rewrite Hi. destruct t. simpl in *. by subst.
Qed.

Lemma metered_positive l c : metered (load_cpu_ms l) (Some c) -> 0 <= max_cpu_time_ms l -> 0 < max_cpu_time_ms l.
Proof.
  intros [Hw Hb] Hpos. pose proof (Cpu.wf_budget _ Hw). unfold load_cpu_ms in *.
  destruct (Z.eqb_spec (max_cpu_time_ms l) 0); lia.
Qed.

(** The flag of a turn is what the JavaScript of that turn did. *)
Lemma turn_memory k i g r w w1 w2 ls t :
  Watchdog.reach k w -> Watchdog.step_to w (Watchdog.LBegin i r) = Some w1 -> others i g w1 ls = Some w2 ->
  Watchdog.turns w2 !! i = Some t -> Turn.memory_limit_hit t = existsb (is_memory i) ls.
Proof.
  intros Hk Hs Ho Ht. simpl in Hs. step_cases Hs.
  match goal with Hi : Watchdog.turns w !! i = Some ?t0, Hh : Turn.holder ?t0 = None |- _ =>
    destruct (reach_free k w i t0 Hk Hi Hh) as (t1 & Ht1 & _ & Hm);
    destruct (others_carry i g ls _ w2 (Turn.begin t0 r) Ho) as (t2 & Ht2 & _ & Hc) end.
  - apply list_lookup_insert_eq. by eapply lookup_lt_Some.
  - simplify_eq. rewrite Hc. simpl. by rewrite Hm.
Qed.

Section Loads.
Context {S : Type} `{V8 S}.

(** No limit stopped the turn of the load: no memory limit, and CPU time left. *)
Definition unstopped (i : nat) (limits : RuntimeLimits) (x : LoadEnv) (c : option Cpu.State) : Prop :=
  existsb (is_memory i) (during x) = false /\
  match c with Some c => Cpu.used c < load_cpu_ms limits * 1000000 | None => True end.

(** Why a load from [w] to [w'] ended with [r], when the script ended with
    [evaluated]. *)
Definition justified (i : nat) (limits : RuntimeLimits) (x : LoadEnv) (w w' : Watchdog.World)
    (c : option Cpu.State) (evaluated r : result unit TerminationReason) : Prop :=
  match r with
  | Err CpuTimeLimit =>
      0 < max_cpu_time_ms limits /\
      (spent x = true \/ exists c', c = Some c' /\ load_cpu_ms limits * 1000000 <= Cpu.used c')
  | Err WallClockTimeout =>
      0 < max_wall_clock_time_ms limits /\
      Watchdog.clock w + max_wall_clock_time_ms limits <= Watchdog.clock w'
  | Err MemoryLimit => existsb (is_memory i) (during x) = true
  | _ => evaluated = r /\ unstopped i limits x c
  end.

Lemma justified_later i limits x w w1 w2 c ev r :
  justified i limits x w w1 c ev r -> Watchdog.clock w1 <= Watchdog.clock w2 ->
  justified i limits x w w2 c ev r.
Proof. destruct r as [|[]]; simpl; try done. intros [? ?] ?. split; [done|lia]. Qed.

(** A script fails for itself: the limits are found afterwards. *)
Lemma script_fails_for_itself code s e :
  fst (evaluate_script code s) = Err e ->
  (exists m, e = Exception m) \/ (exists m, e = InitializationError m).
Proof.
  unfold evaluate_script, bind, ok_or, attempt, fails, ret.
  repeat case_match; simplify_eq/=; try done; intros; simplify_eq/=; eauto.
Qed.

(** The reasons, at the point where the guards are read in [w6]: [hits] is the memory
    flag of the turn. *)
Lemma verdict_justified k i limits x w w1 w6 c x6 ev :
  Watchdog.step_to w (Watchdog.LGuard i (load x) (max_wall_clock_time_ms limits)) = Some w1 ->
  advances w1 w6 -> Watchdog.reach k w6 -> 0 <= max_cpu_time_ms limits ->
  Watchdog.guards w6 !! length (Watchdog.guards w) = Some x6 ->
  metered (load_cpu_ms limits) c -> off_turn c ->
  (forall e, ev = Err e -> (exists m, e = Exception m) \/ (exists m, e = InitializationError m)) ->
  justified i limits x w w6 c ev
    (if was_terminated c then Err CpuTimeLimit else if Watchdog.triggered x6 then Err WallClockTimeout
     else if existsb (is_memory i) (during x) then Err MemoryLimit else ev).
Proof.
  intros H1 Ha Hr Hpos Hx Hm Ho Hev. destruct (was_terminated c) eqn:Hc.
  { destruct c as [c|]; [|done]. split; [by eapply metered_positive|]. right. exists c. split; [done|].
    by apply (metered_exact _ c Hm Ho). }
  destruct (Watchdog.triggered x6) eqn:Ht; [by eapply wall_in_time|].
  destruct (existsb _ _) eqn:He; [done|].
  assert (ev = ev /\ unstopped i limits x c) as Hok.
  { split; [done|]. split; [done|]. destruct c as [c|]; [|done]. simpl in Hc.
    destruct (Z.lt_ge_cases (Cpu.used c) (load_cpu_ms limits * 1000000)) as [|Hge]; [done|].
    apply (metered_exact _ c Hm Ho) in Hge. congruence. }
  destruct ev as [[]|e]; [done|]. by destruct (Hev e eq_refl) as [[m ->]|[m ->]].
Qed.

Lemma guarded_turn_spec k i limits code0 x s w w1 c0 r s' w' c :
  Watchdog.step_to w (Watchdog.LGuard i (load x) (max_wall_clock_time_ms limits)) = Some w1 ->
  Watchdog.reach k w1 -> free_turn w1 i -> 0 <= max_cpu_time_ms limits -> metered (load_cpu_ms limits) c0 ->
  guarded_turn i (length (Watchdog.guards w)) code0 x s w1 c0 = Some (r, s', w', c) ->
  Watchdog.reach k w' /\ free_turn w' i /\
  (forall key, Watchdog.deadlines w' !! key <> Some (length (Watchdog.guards w))) /\
  justified i limits x w w' c (fst (evaluate_script code0 s)) r.
Proof.
  intros H1 R1 F1 Hpos Hm Hload. unfold guarded_turn in Hload.
  apply bind_Some in Hload as (w2 & H2 & Hload). apply bind_Some in Hload as (w3 & H3 & Hload).
  apply bind_Some in Hload as (c1 & C1 & Hload). pose proof (script_fails_for_itself code0 s) as Hev.
  destruct (evaluate_script code0 s) as [ev s1].
  apply bind_Some in Hload as (w4 & H4 & Hload). apply bind_Some in Hload as (c2 & C2 & Hload).
  apply bind_Some in Hload as (c3 & C3 & Hload). apply bind_Some in Hload as (t4 & Ht4 & Hload).
  apply bind_Some in Hload as (w5 & H5 & Hload). apply bind_Some in Hload as (w6 & H6 & Hload).
  apply bind_Some in Hload as (c4 & C4 & Hload). apply bind_Some in Hload as (x6 & Hx6 & Hload).
  apply bind_Some in Hload as ([r7 w7] & H7 & Hload). apply bind_Some in Hload as (w8 & H8 & [= <- <- <- <-]).
  assert (advances w1 w4) as A4 by eauto 6 with loading.
  assert (advances w1 w5) as A5 by eauto with loading.
  assert (advances w1 w6) as A6 by eauto with loading.
  pose proof (proj2 (proj2 A5) k R1) as R5. pose proof (proj2 (proj2 A6) k R1) as R6.
  assert (free_turn w6 i) as F6 by (by eapply others_free, H6; [|eapply end_frees]).
  apply verdict_order in H7 as [-> ->]; [|done].
  destruct (guard_gone k _ _ _ R6 H8) as [Et Hd]. pose proof (step_advances _ _ _ H8) as (_ & _ & R8).
  split_and!; [auto|unfold free_turn; by rewrite Et|done|].
  pose proof (proj2 (proj2 (others_advance _ _ _ _ _ H2)) k R1) as R2.
  rewrite (turn_memory k i _ _ _ _ _ _ _ R2 H3 H4 Ht4).
  eapply justified_later; [|by apply step_advances in H8 as (_ & ? & _)].
  eapply verdict_justified; try done; eauto 6 with loading.
Qed.

Lemma load_turn_spec k i limits code0 x s w r s' w' c :
  Watchdog.reach k w -> free_turn w i -> 0 <= max_cpu_time_ms limits ->
  load_turn i limits code0 x s w = Some (r, s', w', c) ->
  Watchdog.reach k w' /\ free_turn w' i /\
  (forall key, Watchdog.deadlines w' !! key <> Some (length (Watchdog.guards w))) /\
  justified i limits x w w' c (fst (evaluate_script code0 s)) r.
Proof.
  intros Hk Hfree Hpos Hload. unfold load_turn in Hload. cbv zeta in Hload.
  apply bind_Some in Hload as (w1 & H1 & Hload).
  assert (free_turn w1 i) as Hf1.
  { destruct (new_guard _ _ _ _ _ H1) as (Ht & _). unfold free_turn. by rewrite Ht. }
  pose proof (proj2 (proj2 (step_advances _ _ _ H1)) k Hk) as R1.
  pose proof (cpu_new_metered _ x (load_cpu_ms_nonneg _ Hpos)) as Hm.
  set (c0 := cpu_new (load_cpu_ms limits) x) in *. clearbody c0.
  case_bool_decide as Hc0; [destruct (spent x) eqn:Hs|]; cbv [andb] in Hload;
    [|by eapply guarded_turn_spec..].
  destruct Hc0 as [c1 ->]. apply bind_Some in Hload as (w2 & H2 & [= <- <- <- <-]).
  destruct (guard_gone k _ _ _ R1 H2) as [Ht Hd]. pose proof (step_advances _ _ _ H2) as (_ & _ & R2).
  split_and!; [auto|unfold free_turn; by rewrite Ht|done|]. split; [by eapply metered_positive|by left].
Qed.


(** A turn that nothing interrupts runs to its end. *)
Lemma turn_runs w i r t :
  Watchdog.turns w !! i = Some t -> Turn.holder t = None ->
  exists w1 w2 t1 t2, Watchdog.step_to w (Watchdog.LBegin i r) = Some w1 /\ Watchdog.turns w1 !! i = Some t1 /\
    Watchdog.step_to w1 (Watchdog.LEnd i) = Some w2 /\ Watchdog.turns w2 !! i = Some t2 /\
    Watchdog.guards w2 = Watchdog.guards w.
Proof.
  intros Hi Hh. pose proof (lookup_lt_Some _ _ _ Hi) as Hlt.
  exists (Watchdog.set_turn w i (Turn.begin t r)). simpl. rewrite Hi. simpl. rewrite Hh.
  rewrite list_lookup_insert_eq by done. simpl.
  eexists _, _, (Turn.mkTurn None false (Turn.terminating (Turn.begin t r))). split_and!; try done.
  - destruct (Turn.memory_limit_hit t); simpl; rewrite list_insert_insert_eq; by apply list_lookup_insert_eq.
  - by destruct (Turn.memory_limit_hit t).
Qed.

Lemma cpu_turn_runs c : off_turn c ->
  exists c1 c2, cpu_runs c [Cpu.LBegin] = Some c1 /\ cpu_passes c1 [] = Some c1 /\
    cpu_runs c1 [Cpu.LEnd] = Some c2 /\ cpu_passes c2 [] = Some c2.
Proof. destruct c as [c|]; [|by eauto 10]. simpl. unfold Cpu.in_turn. intros ->. simpl. eauto 10. Qed.

Lemma verdict_answers c wall memory_hit w i ev t :
  Watchdog.turns w !! i = Some t ->
  exists r w', verdict c wall memory_hit w i ev = Some (r, w') /\ Watchdog.guards w' = Watchdog.guards w.
Proof. intros Hi. unfold verdict, swap_memory. rewrite Hi. simpl. repeat case_match; eauto. Qed.

(** The next call of the load answers. *)
Ltac on_with E := rewrite E; cbn [mbind option_bind].

(** A load that nothing interrupts answers: no step of its own can get stuck. *)
Lemma quiet_load_answers i limits code0 x s w :
  free_turn w i -> 0 <= max_wall_clock_time_ms limits ->
  before x = [] -> during x = [] -> after x = [] -> cpu_during x = [] -> cpu_after x = [] ->
  is_Some (load_turn i limits code0 x s w).
Proof.
  intros (t & Hi & Hh & _) Hpos Hb Hd Ha Hcd Hca. unfold load_turn. cbv zeta.
  set (g := length (Watchdog.guards w)).
  assert (exists w1 y, Watchdog.step_to w (Watchdog.LGuard i (load x) (max_wall_clock_time_ms limits)) = Some w1 /\
    Watchdog.turns w1 = Watchdog.turns w /\ Watchdog.guards w1 !! g = Some y /\ Watchdog.dropped y = false)
    as (w1 & y & -> & Ht & Hy & Hdy).
  { simpl. destruct (Z.leb_spec 0 (max_wall_clock_time_ms limits)); [|lia]. unfold Watchdog.guard_new.
    case_match; do 2 eexists; (split_and!; [done|done|apply list_lookup_middle; done|done]). }
  cbn [mbind option_bind].
  assert (forall w2, Watchdog.guards w2 = Watchdog.guards w1 ->
    is_Some (Watchdog.step_to w2 (Watchdog.LDrop g))) as Hdrop.
  { intros w2 E. simpl. rewrite E, Hy. simpl. rewrite Hdy. by eexists. }
  destruct (bool_decide _ && spent x).
  { destruct (Hdrop w1 eq_refl) as [w2 ->]. by eexists. }
  rewrite <-Ht in Hi. destruct (turn_runs w1 i (load x) t Hi Hh) as (w2 & w3 & t2 & t3 & H2 & Ht2 & H3 & Ht3 & Eg).
  destruct (cpu_turn_runs (cpu_new (load_cpu_ms limits) x)) as (c1 & c2 & C1 & C2 & C3 & C4).
  { unfold cpu_new, Cpu.new. by repeat case_match. }
  unfold guarded_turn. rewrite Hb, Hd, Ha, Hcd, Hca.
  assert (forall w, others i g w [] = Some w) as Ho by done.
  on_with Ho. on_with H2. on_with C1. destruct (evaluate_script code0 s) as [ev s1].
  on_with Ho. on_with C2. on_with C3. on_with Ht2. on_with H3. on_with Ho. on_with C4. rewrite Eg. on_with Hy.
  destruct (verdict_answers c2 (Watchdog.triggered y) (Turn.memory_limit_hit t2) w3 i ev t3 Ht3)
    as (r & w4 & Hv & Eg4). on_with Hv.
  destruct (Hdrop w4) as [w5 Hw5]; [congruence|]. on_with Hw5. by eexists.
Qed.

(** ** One script, in the ways it is loaded *)

(** How a load ends, without its message. *)
Inductive ending := Done | ScriptFailed | NotLoaded.

Definition ending_of (r : result unit TerminationReason) : ending :=
  match r with Ok _ => Done | Err (Exception _) => ScriptFailed | Err _ => NotLoaded end.

(** A script packed with its code cache loads as its source does: it ends the
    same way (done, failed with an exception, not loaded) with the same V8 state, by
    [evaluate_script]; and [evaluate], which reports less, succeeds on exactly the
    same scripts with the same state. V8 compiles what the source says whether it
    accepts the cache or rejects it. *)
Theorem packed_script_loads_as_its_source source cache s :
  (forall str bytes s, compile_cached str bytes s = compile str s) ->
  CodeCache.valid_utf8 source = true -> Z.of_nat (length source) < 2 ^ 32 ->
  let plain := evaluate_script (JavaScript source) s in
  let packed := evaluate_script (Snapshot (CodeCache.pack_code_cache source cache)) s in
  let brief := evaluate (Snapshot (CodeCache.pack_code_cache source cache)) s in
  ending_of (fst packed) = ending_of (fst plain) /\ snd packed = snd plain /\
  (fst brief = Ok tt <-> fst plain = Ok tt) /\ (fst brief = Ok tt -> snd brief = snd plain).
Proof.
  intros Hc Hu Hl. unfold evaluate_script, evaluate. rewrite CodeCache.unpack_pack by done.
  unfold bind, ok_or, attempt, call_or, ret. destruct (string_new s source) as [str|]; simpl; [|done].
  rewrite Hc. destruct (compile str s) as [[p|] s1]; simpl.
  - destruct (run p s1) as [[v|] s2]; simpl; [done|]. by destruct (caught s2) as [m s3].
  - by destruct (caught s1) as [m s2].
Qed.

End Loads.

(** ** Concrete loads *)

(** An engine that logs the scripts it runs: "!" does not compile, "?" throws. *)
#[local] Instance demo_v8 : V8 (list (list Z)) := {|
  Str := list Z; Prog := list Z; Val := unit; Fn := unit; Obj := unit;
  string_new := fun _ b => Some b;
  compile := fun str s => (if bool_decide (33 ∈ str) then None else Some str, s);
  compile_cached := fun str _ s => (if bool_decide (33 ∈ str) then None else Some str, s);
  run := fun p s => (if bool_decide (63 ∈ p) then None else Some tt, s ++ [p]);
  caught := fun s => (None, s);
  as_function := Some;
  call := fun _ _ s => (Some tt, s);
  to_object := fun _ s => (Some tt, s);
  strict_options := fun _ => tt
|}.

Definition demo_texts : Texts := mkTexts [1] [2] [3] [4] (fun _ => []) (fun _ => []).
Definition demo_script (c : WorkerCode) : Script := mkScript c None [mkBinding "KV" Kv].
Definition demo_load (during : list Watchdog.label) (cpu : list Cpu.label) : LoadEnv :=
  mkLoad 7 (Some 0) true false [] during [] cpu [].
Definition demo_build (c : WorkerCode) (l : LoadEnv) :=
  new_with_pooled_isolate demo_texts false 0 (mkLimits 50 100) (demo_script c) l [] (Watchdog.initial 1).

(** A script of 300 ms of CPU time loads under a limit of 50 ms; one of 401 ms does
    not; one that waits past the wall clock does not. *)
Example demo_loads :
  (fun x => fst (fst (fst x))) <$> demo_build (JavaScript [9]) (demo_load [] [Cpu.LRun 300000000]) = Some (Ok (tt, tt)) /\
  (fun x => fst (fst (fst x))) <$> demo_build (JavaScript [9]) (demo_load [] [Cpu.LRun 401000000]) =
    Some (Err (Error CpuTimeLimit)) /\
  (fun x => fst (fst (fst x))) <$> demo_build (JavaScript [9])
    (demo_load [Watchdog.LTime 101; Watchdog.LScan; Watchdog.LFire] []) = Some (Err (Error WallClockTimeout)) /\
  (fun x => fst (fst (fst x))) <$> demo_build (JavaScript [33]) (demo_load [] []) =
    Some (Err (Error (Exception "SyntaxError: Unknown compile error"))).
Proof. split_and!; vm_compute; reflexivity. Qed.

(** A load past its deadline that ends before the watchdog fires. *)
Example late_load_is_built :
  match demo_build (JavaScript [9]) (demo_load [Watchdog.LTime 101] []) with
  | Some (r, _, w, _) => r = Ok (tt, tt) /\ 100 < Watchdog.clock w
  | None => False
  end.
Proof. vm_compute. by split. Qed.

Definition slow_load : LoadEnv := demo_load [Watchdog.LTime 101; Watchdog.LScan; Watchdog.LFire] [].

Definition slow_end : Watchdog.World :=
  match demo_build (JavaScript [9]) slow_load with Some (_, _, w, _) => w | None => Watchdog.initial 0 end.


Lemma packed_script_loads_as_its_source_witness :
  let plain := evaluate_script (JavaScript [104; 63]) [] in
  let packed := evaluate_script (Snapshot (CodeCache.pack_code_cache [104; 63] [1; 2])) [] in
  ending_of (fst packed) = ScriptFailed /\ ending_of (fst packed) = ending_of (fst plain) /\ snd packed = snd plain.
Proof.
  intros plain packed. split; [by vm_compute|].
  destruct (packed_script_loads_as_its_source (S := list (list Z)) [104; 63] [1; 2] []) as (H1 & H2 & _);
    [done|done|done|]. by split.
Defined.

End Loading.
