(* ===== verification/Rounds.v ===== *)
(** * Rounds of the event loop

    src/src/execution_context.rs ([drain_and_process], [process_callbacks],
    [process_single_callback], [pump_and_checkpoint], and the coalesced rounds of
    [await_event_loop]): the callbacks that arrived go through the dispatch of
    Dispatch.v, then the foreground tasks of Platform.v and the microtasks run.

    The event loop thread sends callbacks whenever it likes, so what arrives before
    each look at the channel is an input. The channel is tokio's unbounded channel:
    a poll that finds it empty leaves its waker there, and the next message or the
    end of the senders takes and wakes it; a poll of a task that used up its share of
    the thread answers nothing and wakes the task at once. *)

From stdpp Require Import base list gmap strings relations.
From Stdlib Require Import ZArith Lia.
From S2P Require Import Prelude Streams Handlers Dispatch ExecutionContext Platform PlatformCorrect.

Module Rounds.

(** ** The callback channel *)

(** A message with what its dispatch meets: whether [__executeTimer] is there, the id
    of a new stream, what the guest functions do, and the async frame they leave. *)
Record Msg := mkMsg {
  message : Dispatch.CallbackMessage;
  has_timer : bool;
  new_stream : Z;
  on_resolve : Dispatch.script;
  on_reject : Dispatch.script;
  leaves : option Z
}.

(** The channel: what arrived and was not taken, whether a sender is left, whether
    the receiver left its waker, and whether it was woken since. *)
Record Channel := mkChannel {
  queue : list Msg;
  senders : bool;
  waker : bool;
  woken : bool
}.

Inductive Act := Arrive (m : Msg) | Close.

Definition act (ch : Channel) (a : Act) : Channel :=
  match a with
  | Arrive m => if senders ch
                then mkChannel (queue ch ++ [m]) true false (woken ch || waker ch)
                else ch
  | Close => mkChannel (queue ch) false false (woken ch || waker ch)
  end.

Definition acts (ch : Channel) (l : list Act) : Channel := foldl act ch l.

Inductive Poll := Ready (m : option Msg) | Pending.

(** [UnboundedReceiver::poll_recv]; [yields] is whether the share is used up. *)
Definition poll_recv (ch : Channel) (yields : bool) : Poll * Channel :=
  if yields then (Pending, mkChannel (queue ch) (senders ch) (waker ch) true) else
  match queue ch with
  | m :: q => (Ready (Some m), mkChannel q (senders ch) (waker ch) (woken ch))
  | [] => if senders ch
          then (Pending, mkChannel [] true true (woken ch))
          else (Ready None, ch)
  end.

(** [UnboundedReceiver::try_recv]; [None] is empty or disconnected. *)
Definition try_recv (ch : Channel) : option Msg * Channel :=
  match queue ch with
  | m :: q => (Some m, mkChannel q (senders ch) (waker ch) (woken ch))
  | [] => (None, ch)
  end.

(** ** The context *)

(** What a round reads and changes of the context: its channel, the tables of its
    callbacks, V8's queue of the isolate, the async frame, and the frame each
    dispatch found. *)
Record Ctx := mkCtx {
  channel : Channel;
  tables : Dispatch.World;
  platform : Platform.World;
  frame : option Z;
  found : list (option Z)
}.

Definition set_channel (c : Ctx) (ch : Channel) : Ctx :=
  mkCtx ch (tables c) (platform c) (frame c) (found c).

(** What one round meets: what arrives before each look at the channel, and while
    the JavaScript runs; what the foreground tasks and the microtasks do. *)
Record RoundEnv := mkRoundEnv {
  looks : list (list Act * bool);
  meanwhile : list Act;
  tasks : list Platform.Effect;
  microtasks : Dispatch.script
}.

Section Json.
Context (json_parse : string -> option Handlers.Value).
(** The queue of the isolate ([pooled.foreground]). *)
Context (foreground : nat).

Definition label_of (m : Msg) : Dispatch.label :=
  Dispatch.LMessage (message m) (has_timer m) (new_stream m) (on_resolve m) (on_reject m).

(** [process_single_callback]: the async frame is cleared first. *)
Definition process_single_callback (c : Ctx) (m : Msg) : Ctx :=
  let c := mkCtx (channel c) (tables c) (platform c) None (found c) in
  mkCtx (channel c) (Dispatch.step json_parse (tables c) (label_of m)) (platform c) (leaves m)
    (found c ++ [frame c]).

(** [pump_and_checkpoint] *)
Definition pump_and_checkpoint (c : Ctx) (e : RoundEnv) : option Ctx :=
  let fuel := S (PlatformCorrect.waiting (platform c) foreground + PlatformCorrect.all_posts (tasks e)) in
  '(_, p) ← Platform.run fuel (platform c) foreground (tasks e);
  Some (mkCtx (acts (channel c) (meanwhile e)) (Dispatch.step json_parse (tables c) (Dispatch.LGuest (microtasks e)))
          p (frame c) (found c)).

(** The loop of [drain_and_process] over the channel: the messages taken, or an error
    once it is closed. The looks that are not given meet nothing. *)
Fixpoint receive (fuel : nat) (ch : Channel) (l : list (list Act * bool)) (pending : list Msg)
  : option (result unit string * list Msg * Channel) :=
  match fuel with
  | O => None
  | S fuel =>
      let '((a, yields), l) := match l with [] => (([], false), []) | x :: l => (x, l) end in
      match poll_recv (acts ch a) yields with
      | (Ready (Some m), ch) => receive fuel ch l (pending ++ [m])
      | (Ready None, ch) => Some (Err "Event loop channel closed"%string, pending, ch)
      | (Pending, ch) => Some (Ok tt, pending, ch)
      end
  end.

(** Each look takes a message or is the last. *)
Definition receive_fuel (ch : Channel) (l : list (list Act * bool)) : nat :=
  S (length (queue ch) + length (mjoin l.*1)).

(** [drain_and_process]; each round gets a whole inline budget. *)
Definition drain_and_process (c : Ctx) (pending : list Msg) (e : RoundEnv)
  : option (result nat string * list Msg * Ctx) :=
  let c := mkCtx (channel c) (Dispatch.step json_parse (tables c) Dispatch.LRound) (platform c) (frame c) (found c) in
  '(r, pending, ch) ← receive (receive_fuel (channel c) (looks e)) (channel c) (looks e) pending;
  let c := set_channel c ch in
  match r with
  | Err err => Some (Err err, pending, c)
  | Ok _ =>
      let count := length pending in
      c ← pump_and_checkpoint (foldl process_single_callback c pending) e;
      Some (Ok count, [], c)
  end.

(** The loop of [process_callbacks], which takes a message and runs it. *)
Fixpoint process_all (fuel : nat) (c : Ctx) (l : list (list Act)) : option Ctx :=
  match fuel with
  | O => None
  | S fuel =>
      let '(a, l) := match l with [] => ([], []) | x :: l => (x, l) end in
      match try_recv (acts (channel c) a) with
      | (Some m, ch) => process_all fuel (process_single_callback (set_channel c ch) m) l
      | (None, ch) => Some (set_channel c ch)
      end
  end.

(** [process_callbacks] *)
Definition process_callbacks (c : Ctx) (e : RoundEnv) : option Ctx :=
  c ← process_all (receive_fuel (channel c) (looks e)) c (looks e).*1;
  pump_and_checkpoint c e.

(** ** The coalesced rounds of a poll *)

(** The task is polled: what woke it is spent. *)
Definition begin_poll (c : Ctx) : Ctx :=
  set_channel c (mkChannel (queue (channel c)) (senders (channel c)) (waker (channel c)) false).

(** The rounds of one poll of [await_event_loop], from the round [k]: [envs] is what
    each round meets and [seen] what the code reads after it. *)
Fixpoint rounds_loop (n k : nat) (c : Ctx) (pending : list Msg) (x : ExecutionContext.EventLoopExit)
    (abort : option Z) (st : ExecutionContext.LoopState) (socket : option ExecutionContext.WebSocketId)
    (envs : nat -> RoundEnv) (seen : nat -> ExecutionContext.View * Z)
  : option (option (result unit string) * ExecutionContext.LoopState * list ExecutionContext.effect * Ctx) :=
  match n with
  | O => Some (None, st, [], c)
  | S n =>
      '(r, pending, c) ← drain_and_process c pending (envs k);
      match r with
      | Err e => Some (Some (Err e), st, [], c)
      | Ok count =>
          let round := ExecutionContext.mkRound count false (fst (seen k)) (snd (seen k)) in
          let '(should_exit, st, eff) := ExecutionContext.check_exit_with_abort x abort st socket round in
          if should_exit then Some (Some (Ok tt), st, eff, c)
          else if Nat.eqb count 0 || Nat.eqb n 0 then Some (None, st, eff, c)
          else
            '(res, st, eff', c) ← rounds_loop n (S k) c pending x abort st socket envs seen;
            Some (res, st, eff ++ eff', c)
      end
  end.

(** ** Looking at the channel *)

(** The messages a channel accepts: those before the senders are gone. *)
Fixpoint accepted (senders : bool) (l : list Act) : list Msg :=
  match l with
  | Arrive m :: l => if senders then m :: accepted senders l else accepted senders l
  | Close :: l => accepted false l
  | [] => []
  end.

Definition stays (senders : bool) (l : list Act) : bool :=
  foldl (fun s a => match a with Arrive _ => s | Close => false end) senders l.

Lemma acts_queue l : forall ch,
  queue (acts ch l) = queue ch ++ accepted (senders ch) l /\ senders (acts ch l) = stays (senders ch) l.
Proof.
  induction l as [|a l IH]; intros ch; simpl; [by rewrite app_nil_r|].
  destruct (IH (act ch a)) as [-> ->].
  destruct a as [x|]; simpl; [|done]. destruct (senders ch) eqn:E; simpl; rewrite ?E, <-?app_assoc; done.
Qed.

Lemma accepted_app l : forall s l', accepted s (l ++ l') = accepted s l ++ accepted (stays s l) l'.
Proof. induction l as [|[x|] l IH]; intros s l'; simpl; [done| |auto]. destruct s; simpl; by rewrite IH. Qed.

Lemma length_accepted l : forall s, length (accepted s l) <= length l.
Proof.
  induction l as [|[x|] l IH]; intros s; simpl; [done| |].
  - specialize (IH s). destruct s; simpl; lia.
  - specialize (IH false). lia.
Qed.

(** The receiver will look again: its waker is on an empty channel, or it was woken. *)
Definition attended (ch : Channel) : Prop :=
  (queue ch = [] /\ senders ch = true /\ waker ch = true) \/ woken ch = true.

Lemma acts_attended l : forall ch, attended ch -> attended (acts ch l).
Proof.
  induction l as [|a l IH]; intros ch H; [done|]. apply IH.
  destruct H as [(Hq & Hs & Hw)|Hw]; right; destruct a; simpl; try destruct (senders ch); simpl;
    rewrite ?Hw, ?orb_true_r; done.
Qed.

(** The loop ends; it takes the messages from the front of the channel, and unless the
    senders are gone it leaves the channel attended. *)
Lemma receive_spec fuel : forall ch l pending,
  length (queue ch) + length (mjoin l.*1) < fuel ->
  exists r h ch' k, receive fuel ch l pending = Some (r, pending ++ h, ch') /\
    queue ch ++ accepted (senders ch) (mjoin (take k l).*1) = h ++ queue ch' /\
    match r with
    | Ok _ => attended ch'
    | Err e => queue ch' = [] /\ senders ch' = false /\ e = "Event loop channel closed"%string
    end.
Proof.
  induction fuel as [|fuel IH]; intros ch l pending Hf; [lia|]. cbn [receive].
  assert (exists a yields rest, (match l with [] => (([], false), []) | x :: l => (x, l) end) = ((a, yields), rest) /\
    length a + length (mjoin rest.*1) <= length (mjoin l.*1) /\
    forall k, exists k', mjoin (take k' l).*1 = a ++ mjoin (take k rest).*1) as (a & y & rest & -> & Hlen & Htake).
  { destruct l as [|[a y] rest].
    - exists [], false, []. split; [done|]. split; [done|]. intros k. exists 0. simpl. by rewrite take_nil.
    - exists a, y, rest. split_and!; [done| |intros k; by exists (S k)].
      apply Nat.eq_le_incl. symmetry. apply length_app. }
  destruct (acts_queue a ch) as [Hq Hs]. unfold poll_recv.
  destruct y.
  { destruct (Htake 0) as [k' Hk']. exists (Ok tt), [], (mkChannel (queue (acts ch a)) (senders (acts ch a)) (waker (acts ch a)) true), k'.
    rewrite app_nil_r, Hk'. simpl. rewrite app_nil_r. split_and!; [done|done|by right]. }
  destruct (queue (acts ch a)) as [|m q] eqn:Hqa.
  - destruct (Htake 0) as [k' Hk']. symmetry in Hq. apply app_eq_nil in Hq as [Hq1 Hq2].
    destruct (senders (acts ch a)) eqn:Hsa.
    + exists (Ok tt), [], (mkChannel [] true true (woken (acts ch a))), k'. rewrite app_nil_r, Hk', Hq1. simpl.
      rewrite app_nil_r. split_and!; [done|done|by left].
    + exists (Err "Event loop channel closed"%string), [], (acts ch a), k'. rewrite app_nil_r, Hk', Hq1. simpl.
      rewrite app_nil_r, Hqa. split_and!; done.
  - set (ch1 := mkChannel q (senders (acts ch a)) (waker (acts ch a)) (woken (acts ch a))).
    assert (S (length q) = length (queue ch) + length (accepted (senders ch) a)) as Hlq
      by (rewrite <-length_app, <-Hq; done).
    destruct (IH ch1 rest (pending ++ [m])) as (r & h & ch' & k & -> & Hall & Hend).
    { simpl. pose proof (length_accepted a (senders ch)). lia. }
    destruct (Htake k) as [k' Hk']. exists r, (m :: h), ch', k'. rewrite <-app_assoc. split_and!; [done| |done].
    rewrite Hk', accepted_app, app_assoc, <-Hq, <-Hs. simpl. f_equal. exact Hall.
Qed.

(** ** One round *)

Lemma process_fold l : forall c,
  foldl process_single_callback c l =
  mkCtx (channel c) (Dispatch.run json_parse (tables c) (label_of <$> l)) (platform c)
    (frame (foldl process_single_callback c l)) (found c ++ replicate (length l) None).
Proof.
  induction l as [|m l IH]; intros c; simpl; [by destruct c; rewrite app_nil_r|].
  rewrite IH at 1. simpl. by rewrite <-app_assoc.
Qed.

(** V8 has a queue for the isolate. *)
Definition registered (p : Platform.World) : Prop :=
  Platform.reachable_world p /\ foreground < length (Platform.heap p).

Lemma exec_heap p o p' : Platform.exec p o = Some p' -> length (Platform.heap p) <= length (Platform.heap p').
Proof.
  destruct o; simpl; unfold Platform.register, Platform.insert_new, Platform.unregister, Platform.clear,
    Platform.tasks_at, Platform.insert_new, Platform.post, Platform.next, Platform.waiter_register,
    Platform.waiter_drop, Platform.waiter, Platform.pass, Platform.set_waiters; intros H;
    repeat (simplify_option_eq || case_match); simpl; rewrite ?length_alter, ?length_app; simpl; lia.
Qed.

Lemma exec_registered p o p' : registered p -> Platform.exec p o = Some p' -> registered p'.
Proof.
  intros [(p0 & H0 & Hr) Hl] He. split.
  - exists p0. split; [done|]. eapply rtc_r; [done|by exists o].
  - pose proof (exec_heap p o p' He). lia.
Qed.

(** Running the tasks is a sequence of steps of V8's queues. *)
Lemma post_all_registered l : forall p p', registered p -> Platform.post_all p l = Some p' -> registered p'.
Proof.
  induction l as [|[[k t] d] l IH]; intros p p' Hp H; simpl in H; [by simplify_eq|].
  apply bind_Some in H as (p1 & H1 & H). eapply IH; [|done].
  unfold Platform.post_task in H1. destruct (Platform.tasks_at p k) as [a p0] eqn:E.
  apply (exec_registered p0 (Platform.Post a t d)); [|done].
  apply (exec_registered p (Platform.Find k)); [done|]. simpl. by rewrite E.
Qed.

Lemma run_registered fuel : forall p l ts l' p',
  registered p -> Platform.run fuel p foreground l = Some (ts, l', p') -> registered p'.
Proof.
  induction fuel as [|fuel IH]; intros p l ts l' p' Hp H; cbn [Platform.run] in H; [by simplify_eq|].
  apply bind_Some in H as ([t p1] & H1 & H).
  assert (registered p1) as Hp1.
  { apply (exec_registered p (Platform.Next foreground)); [done|]. simpl. by rewrite H1. }
  destruct t as [t|]; [|by simplify_eq]. destruct (match l with [] => _ | _ => _ end) as [e rest].
  apply bind_Some in H as (p2 & H2 & H). apply bind_Some in H as ([[ts1 l1] p3] & H3 & [= <- <- <-]).
  apply (IH _ _ _ _ _) in H3; [done|].
  apply (exec_registered p2 (Platform.Pass (Platform.took e))); [|done]. by eapply post_all_registered.
Qed.

Lemma pump_spec c e : registered (platform c) ->
  exists c', pump_and_checkpoint c e = Some c' /\ registered (platform c') /\
    channel c' = acts (channel c) (meanwhile e) /\
    tables c' = Dispatch.step json_parse (tables c) (Dispatch.LGuest (microtasks e)) /\
    Platform.next (platform c') foreground = Some (None, platform c') /\ found c' = found c.
Proof.
  intros Hp. pose proof Hp as [Hr Hl]. apply PlatformCorrect.reachable_tasks in Hr.
  apply lookup_lt_is_Some in Hl. unfold pump_and_checkpoint.
  destruct (PlatformCorrect.run_ends
    (S (PlatformCorrect.waiting (platform c) foreground + PlatformCorrect.all_posts (tasks e)))
    (platform c) foreground (tasks e) Hr Hl) as (ts & l' & p' & Hrun & Hnext); [lia|].
  rewrite Hrun. simpl. eexists. split; [done|]. split_and!; try done. by eapply run_registered.
Qed.

(** What a round did, from [c] to [c'] with the messages [h]. *)
Definition round_done (c c' : Ctx) (e : RoundEnv) (h : list Msg) : Prop :=
  tables c' = Dispatch.run json_parse (tables c)
                (Dispatch.LRound :: (label_of <$> h) ++ [Dispatch.LGuest (microtasks e)]) /\
  found c' = found c ++ replicate (length h) None /\
  Platform.next (platform c') foreground = Some (None, platform c') /\
  attended (channel c').

(** How a round ends: [k] is the number of looks at the channel. *)
Definition round_outcome (c c' : Ctx) (e : RoundEnv) (r : result nat string) (h : list Msg) (k : nat) : Prop :=
  let arrived := queue (channel c) ++ accepted (senders (channel c)) (mjoin (take k (looks e)).*1) in
  match r with
  | Ok n =>
      n = length h /\ round_done c c' e h /\
      exists rest, arrived = h ++ rest /\ rest `prefix_of` queue (channel c')
  | Err err =>
      err = "Event loop channel closed"%string /\ arrived = h /\ senders (channel c') = false /\ tables c' = Dispatch.set_inline (tables c) 0 /\
      platform c' = platform c /\ found c' = found c
  end.

Lemma drain_spec c e : registered (platform c) ->
  exists r c' h k, drain_and_process c [] e = Some (r, match r with Ok _ => [] | Err _ => h end, c') /\
    registered (platform c') /\
    round_outcome c c' e r h k.
Proof.
  intros Hp. unfold drain_and_process. cbn [channel].
  destruct (receive_spec (receive_fuel (channel c) (looks e)) (channel c) (looks e) [])
    as (r & h & ch' & k & Hrecv & Hq & Hend); [unfold receive_fuel; lia|].
  rewrite Hrecv. simpl. destruct r as [[]|err].
  - rewrite process_fold. simpl.
    match goal with |- context [pump_and_checkpoint ?c1 e] => destruct (pump_spec c1 e) as (c' & -> & Hr & Hch & Ht & Hn & Hf) end;
      [done|]. simpl in *.
    exists (Ok (length h)), c', h, k. split; [done|]. split; [done|]. split; [done|]. split.
    + split_and!; [|done|done|].
      * rewrite Ht. unfold Dispatch.run. simpl. by rewrite foldl_app.
      * rewrite Hch. by apply acts_attended.
    + exists (queue ch'). split; [done|]. rewrite Hch. destruct (acts_queue (meanwhile e) ch') as [-> _].
      by apply prefix_app_r.
  - destruct Hend as (Hq' & Hs & ->). eexists (Err _), _, h, k. simpl. split; [done|]. split; [done|].
    split_and!; try done. by rewrite Hq, Hq', app_nil_r.
Qed.

(** One round of the event loop runs exactly the callbacks that arrived, from the
    front of the channel and in the order they came; each starts without an async frame
    of another; then the tasks of V8 run until none is due, then the microtasks; and
    afterwards the loop is woken for whatever else is in the channel or comes later. A
    round that finds the senders gone fails and runs none of the callbacks it took. *)
Theorem round_runs_what_arrived c e :
  registered (platform c) ->
  exists r c' h k, drain_and_process c [] e = Some (r, match r with Ok _ => [] | Err _ => h end, c') /\
    registered (platform c') /\
    round_outcome c c' e r h k.
Proof. exact (drain_spec c e). Qed.

(** ** The rounds of a poll *)

(** The rounds read what [coalesce] of ExecutionContext.v takes as its input. *)
Lemma rounds_refine n : forall k c x ab st socket envs seen res st' eff c',
  rounds_loop n k c [] x ab st socket envs seen = Some (res, st', eff, c') -> registered (platform c) ->
  exists rs, (forall j, ExecutionContext.after (rs j) = fst (seen j) /\ ExecutionContext.now (rs j) = snd (seen j)) /\
    (forall e, (forall j, k <= j -> ExecutionContext.rounds e j = rs j) ->
      ExecutionContext.coalesce n k x ab st socket e = (res, st', eff)) /\
    (n <> 0 -> res = None -> attended (channel c')).
Proof.
  induction n as [|n IH]; intros k c x ab st socket envs seen res st' eff c' H Hp; cbn [rounds_loop] in H.
  { simplify_eq. exists (fun j => ExecutionContext.mkRound 0 false (fst (seen j)) (snd (seen j))). by split_and!. }
  destruct (drain_spec c (envs k) Hp) as (r & c1 & h & k1 & Hd & Hp1 & Hr). rewrite Hd in H. simpl in H.
  destruct r as [count|err].
  2: { destruct Hr as (-> & _). simplify_eq.
       exists (fun j => ExecutionContext.mkRound 0 true (fst (seen j)) (snd (seen j))).
       split_and!; [done| |done]. intros e He. simpl. by rewrite He. }
  destruct Hr as (-> & (_ & _ & _ & Hatt) & _).
  destruct (ExecutionContext.check_exit_with_abort x ab st socket _) as [[ex st1] eff1] eqn:Hex.
  destruct ex.
  { simplify_eq. exists (fun j => ExecutionContext.mkRound (length h) false (fst (seen j)) (snd (seen j))).
    split_and!; [done| |done]. intros e He. simpl. rewrite He by lia. simpl. by rewrite Hex. }
  destruct (Nat.eqb (length h) 0 || Nat.eqb n 0) eqn:Hlast.
  { simplify_eq. exists (fun j => ExecutionContext.mkRound (length h) false (fst (seen j)) (snd (seen j))).
    split_and!; [done| |done]. intros e He. simpl. rewrite He by lia. simpl. by rewrite Hex, Hlast. }
  apply bind_Some in H as ([[[res1 st2] eff2] c2] & H1 & [= <- <- <- <-]).
  destruct (IH _ _ _ _ _ _ _ _ _ _ _ _ H1 Hp1) as (rs & Hv & Hco & Hatt').
  exists (fun j => if Nat.eqb j k then ExecutionContext.mkRound (length h) false (fst (seen j)) (snd (seen j)) else rs j).
  split_and!.
  - intros j. by destruct (Nat.eqb j k).
  - intros e He. simpl. rewrite He by lia. rewrite Nat.eqb_refl. simpl. rewrite Hex, Hlast.
    rewrite Hco; [done|]. intros j Hj. rewrite He by lia. by destruct (Nat.eqb_spec j k); [lia|].
  - intros _. apply Hatt'. apply orb_false_iff in Hlast as [_ Hn]. by apply Nat.eqb_neq in Hn.
Qed.

Lemma rounds_answer n : forall k c x ab st socket envs seen,
  registered (platform c) -> is_Some (rounds_loop n k c [] x ab st socket envs seen).
Proof.
  induction n as [|n IH]; intros k c x ab st socket envs seen Hp; cbn [rounds_loop]; [by eexists|].
  destruct (drain_spec c (envs k) Hp) as (r & c1 & h & k1 & Hd & Hp1 & Hr). rewrite Hd. simpl.
  destruct r; [|by eexists]. destruct (ExecutionContext.check_exit_with_abort _ _ _ _ _) as [[ex st1] eff1].
  destruct ex; [by eexists|]. destruct (_ || _); [by eexists|].
  destruct (IH (S k) c1 x ab st1 socket envs seen Hp1) as [[[[res st2] eff2] c2] ->]. by eexists.
Qed.

(** C18: the rounds of a poll are those of the event loop of ExecutionContext.v: they
    end, with the outcome and the effects [coalesce] has on what the rounds saw. And
    when the poll ends without an outcome, even because four rounds are over while
    callbacks keep coming, no callback is forgotten: whatever is in the channel then or
    comes later, and the end of the senders, has woken the loop. *)
Theorem rounds_refine_the_loop c x ab st socket envs seen :
  registered (platform c) ->
  exists res st' eff c' rs,
    rounds_loop ExecutionContext.MAX_COALESCE_ROUNDS 0 (begin_poll c) [] x ab st socket envs seen =
      Some (res, st', eff, c') /\
    (forall j, ExecutionContext.after (rs j) = fst (seen j) /\ ExecutionContext.now (rs j) = snd (seen j)) /\
    (forall e, (forall j, ExecutionContext.rounds e j = rs j) ->
      ExecutionContext.coalesce ExecutionContext.MAX_COALESCE_ROUNDS 0 x ab st socket e = (res, st', eff)) /\
    (res = None -> forall later, let ch := acts (channel c') later in
      queue ch <> [] \/ senders ch = false -> woken ch = true).
Proof.
  intros Hp.
  destruct (rounds_answer ExecutionContext.MAX_COALESCE_ROUNDS 0 (begin_poll c) x ab st socket envs seen Hp)
    as [[[[res st'] eff] c'] Hr].
  destruct (rounds_refine _ _ _ _ _ _ _ _ _ _ _ _ _ Hr Hp) as (rs & Hv & Hco & Hatt).
  exists res, st', eff, c', rs. split; [done|]. split; [done|]. split; [intros e He; apply Hco; auto|].
  intros Hn later ch. destruct (acts_attended later (channel c') (Hatt ltac:(done) Hn)) as [(Hq & Hs & _)|Hw]; [|done].
  unfold ch. rewrite Hq, Hs. by intros [?|?].
Qed.

(** ** Without a waker *)

Definition same_mail (ch ch' : Channel) : Prop := queue ch = queue ch' /\ senders ch = senders ch'.

Lemma acts_same_mail l ch ch' : same_mail ch ch' -> same_mail (acts ch l) (acts ch' l).
Proof.
  intros [Hq Hs]. destruct (acts_queue l ch) as [Hq1 Hs1], (acts_queue l ch') as [Hq2 Hs2].
  split; congruence.
Qed.

Lemma receive_takes fuel : forall ch l pending r h ch',
  receive fuel ch l pending = Some (r, h, ch') -> exists h', h = pending ++ h'.
Proof.
  induction fuel as [|fuel IH]; intros ch l pending r h ch' H; cbn [receive] in H; [done|].
  destruct (match l with [] => _ | _ => _ end) as [[a y] rest].
  destruct (poll_recv _ _) as [[[m|]|] ch1]; simplify_eq; [|by exists []; rewrite app_nil_r..].
  destruct (IH _ _ _ _ _ _ H) as [h' ->]. exists (m :: h'). by rewrite <-app_assoc.
Qed.

Lemma fold_set_channel l : forall c ch,
  set_channel (foldl process_single_callback (set_channel c ch) l) (channel c) = foldl process_single_callback c l.
Proof. induction l as [|m l IH]; intros c ch; simpl; [by destruct c|]. apply (IH (process_single_callback c m)). Qed.

(** [process_all] runs what [receive] takes. *)
Lemma process_follows fuel : forall c ch l pending r h ch',
  Forall (fun x => snd x = false) l -> same_mail (channel c) ch ->
  receive fuel ch l pending = Some (r, pending ++ h, ch') ->
  exists c', process_all fuel c l.*1 = Some c' /\ same_mail (channel c') ch' /\
    set_channel c' (channel c) = foldl process_single_callback c h.
Proof.
  induction fuel as [|fuel IH]; intros c ch l pending r h ch' Hl Hm H; cbn [receive process_all] in *; [done|].
  assert (exists a rest, (match l with [] => (([], false), []) | x :: l => (x, l) end) = ((a, false), rest) /\
    (match l.*1 with [] => ([], []) | x :: l => (x, l) end) = (a, rest.*1) /\ Forall (fun x => snd x = false) rest)
    as (a & rest & Ea & Ea' & Hrest).
  { destruct l as [|[a y] rest]; [by exists [], []|]. apply Forall_cons in Hl as [Hy Hl]. simpl in Hy. subst y.
    by exists a, rest. }
  rewrite Ea in H. rewrite Ea'. pose proof (acts_same_mail a _ _ Hm) as [Hq Hs].
  unfold poll_recv in H. unfold try_recv. rewrite Hq. destruct (queue (acts ch a)) as [|m q] eqn:Hqa.
  - assert (h = [] /\ same_mail (acts (channel c) a) ch') as [-> Hm'].
    { destruct (senders (acts ch a)) eqn:Hsa; injection H as _ Hh <-;
        (split; [by apply (app_inv_head pending); rewrite app_nil_r|split; simpl; congruence]). }
    eexists. split; [done|]. split; [done|]. by destruct c.
  - assert (exists h', h = m :: h') as [h' ->].
    { destruct (receive_takes _ _ _ _ _ _ _ H) as [h' Hh]. exists h'.
      apply (app_inv_head pending). by rewrite Hh, <-app_assoc. }
    replace (pending ++ m :: h') with ((pending ++ [m]) ++ h') in H by (by rewrite <-app_assoc).
    edestruct (IH (process_single_callback
      (set_channel c (mkChannel q (senders (acts (channel c) a)) (waker (acts (channel c) a)) (woken (acts (channel c) a)))) m))
      as (c' & Hc' & Hm' & Hf); [exact Hrest| |exact H|].
    { split; simpl; [done|exact Hs]. }
    exists c'. split; [exact Hc'|]. split; [done|].
    apply (f_equal (fun x => set_channel x (channel c))) in Hf. cbn [foldl].
    transitivity (set_channel (set_channel c' (channel c)) (channel c)); [done|].
    etransitivity; [exact Hf|]. apply (fold_set_channel h' (process_single_callback c m)).
Qed.

(** [process_callbacks], which runs each callback as it takes it and leaves no
    waker, does what a round does: with the same arrivals, and an inline budget that is
    whole, it leaves the same tables, the same queues of V8, the same async frame and
    the same messages in the channel. *)
Theorem process_callbacks_is_a_round c e n c' :
  Dispatch.inline_calls (tables c) = 0%Z -> Forall (fun x => snd x = false) (looks e) ->
  drain_and_process c [] e = Some (Ok n, [], c') ->
  exists c'', process_callbacks c e = Some c'' /\ tables c'' = tables c' /\ platform c'' = platform c' /\
    frame c'' = frame c' /\ found c'' = found c' /\ same_mail (channel c'') (channel c').
Proof.
  intros Hi Hl Hd. unfold drain_and_process in Hd. cbn [channel] in Hd.
  assert (Dispatch.step json_parse (tables c) Dispatch.LRound = tables c) as E.
  { simpl. unfold Dispatch.set_inline. rewrite <-Hi. by destruct (tables c). }
  rewrite E in Hd. replace (mkCtx (channel c) (tables c) (platform c) (frame c) (found c)) with c in Hd by (by destruct c).
  apply bind_Some in Hd as ([[r h] ch'] & Hr & Hd). destruct r; [|done].
  apply bind_Some in Hd as (c1 & Hp & [= <- <-]).
  destruct (process_follows _ c (channel c) (looks e) [] _ h ch' Hl ltac:(done) Hr) as (c2 & Hc2 & Hm & Hf).
  unfold process_callbacks. rewrite Hc2. cbn [mbind option_bind]. unfold pump_and_checkpoint in *.
  assert (foldl process_single_callback (set_channel c ch') h = set_channel c2 ch') as Ef.
  { rewrite <-(fold_set_channel h c ch') in Hf. rewrite process_fold in Hf |- *. simpl in *.
    destruct c2. unfold set_channel in *. simpl in *. congruence. }
  rewrite Ef in Hp. apply bind_Some in Hp as ([[ts l'] p'] & Hrun & [= <-]).
  change (platform (set_channel c2 ch')) with (platform c2) in Hrun. rewrite Hrun. cbn [mbind option_bind].
  eexists. split; [done|]. split_and!; try done. simpl. by apply acts_same_mail.
Qed.

End Json.

(** ** A concrete round *)

(** A context with a registered queue; a timer waits and a second comes while the loop
    looks at the channel, a third while the first two run. *)
Definition demo_platform : Platform.World := snd (Platform.register Platform.initial 7%Z).

Definition quiet : Dispatch.script := Dispatch.Script [] Dispatch.Returned.
Definition timer (id : Z) : Msg := mkMsg (Dispatch.ExecuteTimeout id) true 0 quiet quiet (Some id).

Definition demo_ctx : Ctx :=
  mkCtx (mkChannel [timer 1] true false true) Dispatch.initial demo_platform (Some 9%Z) [].
Definition demo_round : RoundEnv := mkRoundEnv [([], false); ([Arrive (timer 2)], false)] [Arrive (timer 3)] [] quiet.

Lemma demo_registered : registered 0 demo_platform.
Proof.
  split; [|by vm_compute; lia]. exists Platform.initial. split; [done|].
  eapply rtc_l; [|apply rtc_refl]. by exists (Platform.Register 7%Z).
Qed.

Lemma round_runs_what_arrived_witness :
  (exists c', drain_and_process (fun _ => None) 0 demo_ctx [] demo_round = Some (Ok 2, [], c') /\
     (fun p => fst p) <$> Dispatch.calls (tables c') = [Dispatch.CTimer 1%Z; Dispatch.CTimer 2%Z] /\
     queue (channel c') = [timer 3]) /\
  exists r c' h k, drain_and_process (fun _ => None) 0 demo_ctx [] demo_round =
      Some (r, match r with Ok _ => [] | Err _ => h end, c') /\
    registered 0 (platform c') /\ round_outcome (fun _ => None) 0 demo_ctx c' demo_round r h k.
Proof.
  split; [eexists; split_and!; by vm_compute|].
  exact (round_runs_what_arrived (fun _ => None) 0 demo_ctx demo_round demo_registered).
Defined.

Lemma rounds_refine_the_loop_witness :
  let envs (j : nat) := if Nat.eqb j 0 then demo_round else mkRoundEnv [] [Arrive (timer 4)] [] quiet in
  let seen (_ : nat) := (ExecutionContext.calm ExecutionContext.waiting_handle, 0%Z) in
  exists st' eff c',
    rounds_loop (fun _ => None) 0 4 0 (begin_poll demo_ctx) [] ExecutionContext.ResponseReady None
      ExecutionContext.loop0 None envs seen = Some (None, st', eff, c') /\
    queue (channel c') = [timer 4] /\ woken (channel c') = true.
Proof.
  intros envs seen.
  destruct (rounds_refine_the_loop (fun _ => None) 0 demo_ctx ExecutionContext.ResponseReady None
    ExecutionContext.loop0 None envs seen demo_registered) as (res & st' & eff & c' & rs & Hr & _ & _ & Hw).
  assert ((fun x => (fst (fst (fst x)), queue (channel (snd x)))) <$>
    rounds_loop (fun _ => None) 0 4 0 (begin_poll demo_ctx) [] ExecutionContext.ResponseReady None
      ExecutionContext.loop0 None envs seen = Some (None, [timer 4])) as E by by vm_compute.
  change ExecutionContext.MAX_COALESCE_ROUNDS with 4 in Hr. rewrite Hr in E. simpl in E. injection E as -> Hq.
  exists st', eff, c'. split; [exact Hr|]. split; [exact Hq|].
  apply (Hw eq_refl []). left. simpl. by rewrite Hq.
Defined.

Lemma process_callbacks_is_a_round_witness :
  exists c', process_callbacks (fun _ => None) 0 demo_ctx demo_round = Some c' /\
    (fun p => fst p) <$> Dispatch.calls (tables c') = [Dispatch.CTimer 1%Z; Dispatch.CTimer 2%Z].
Proof.
  destruct (drain_and_process (fun _ => None) 0 demo_ctx [] demo_round) as [[[r p] c']|] eqn:E; [|by vm_compute in E].
  assert ((fun x => (fst x, (fun q => fst q) <$> Dispatch.calls (tables (snd x)))) <$>
    drain_and_process (fun _ => None) 0 demo_ctx [] demo_round =
    Some (Ok 2, [], [Dispatch.CTimer 1%Z; Dispatch.CTimer 2%Z])) as E' by by vm_compute.
  rewrite E in E'. simpl in E'. injection E' as -> -> Hcalls.
  destruct (process_callbacks_is_a_round (fun _ => None) 0 demo_ctx demo_round 2 c') as (c2 & Hc & Ht & _);
    [done|by repeat constructor|exact E|].
  exists c2. split; [exact Hc|]. by rewrite Ht.
Defined.

End Rounds.
