(* ===== verification/Crypto.v ===== *)
(** * Web Crypto (src/src/runtime/crypto)

    The native ops over ring, and the functions of [crypto.subtle] the runtime installs
    over them, in the layers the code builds: HMAC, then ECDSA, RSA, PBKDF2 and AES-GCM,
    each keeping the one below for the algorithms it does not know.

    ring and the system random source are a class of functions; [seed] stands for the
    state of the source. Buffers live in a heap that the guest shares with the keys made
    from them: a key refers to the bytes it was imported from. Keys are the objects
    [__createCryptoKey] made, and the guest has not replaced the builtins. Strings are
    ASCII. *)

From stdpp Require Import base list gmap strings.
From Stdlib Require Import ZArith Lia Ascii.
From S2P Require Import Prelude.

Module Crypto.

Open Scope Z_scope.

(** ** Values of the guest *)

(** A typed array or [DataView]: its buffer, and where it lies in it. *)
Record View := mkView { buffer : nat; offset : nat; byte_length : nat }.

Inductive ViewKind :=
| Int8 | Uint8Clamped | Int16 | Uint16 | Int32 | Uint32 | BigInt64 | BigUint64
| Float16 | Float32 | Float64 | DataView.

(** A number: not a number, infinite, or [num / den]. *)
Inductive Number := NaN | Infinity (negative : bool) | Finite (num : Z) (den : positive).

(** [VOther] is any other value, with its conversion to a string, if it has one. *)
Inductive Val :=
| VUndefined
| VBool (b : bool)
| VNumber (n : Number)
| VString (s : string)
| VBuffer (b : nat)
| VUint8 (v : View)
| VView (k : ViewKind) (v : View)
| VOther (text : option string).

Inductive JsError :=
| TypeError (message : string)
| PlainError (message : string)
| DomException (name message : string).

(** [CryptoKey]; [k_hash] is [algorithm.hash], and within it its [name]. *)
Inductive KeyType := Secret | Private | Public.

Record CryptoKey := mkKey {
  k_type : KeyType;
  extractable : bool;
  k_name : string;
  k_hash : option (option string);
  usages : list string;
  keyData : View;
  publicKeyData : option View
}.

(** The [algorithm] argument: a string, an object, or a value without properties. *)
Inductive HashArg := HString (s : string) | HObject (name : option string).

Record AlgorithmObject := mkAlgorithm {
  a_name : option string;
  a_hash : option HashArg;
  a_namedCurve : option string;
  a_length : option Number;
  a_iv : Val;
  a_additionalData : Val;
  a_tagLength : option Number;
  a_salt : Val;
  a_iterations : option Number
}.

Inductive Algorithm := AString (s : string) | AObject (o : AlgorithmObject) | ANone.

(** ** The state *)

Record State := mkState {
  heap : gmap nat (list Z);
  next_buffer : nat;
  keys : gmap nat CryptoKey;
  next_key_id : nat;
  seed : nat
}.

(** [copy_contents] *)
Definition contents (st : State) (v : View) : list Z :=
  take (byte_length v) (drop (offset v) (default [] (heap st !! buffer v))).

Definition whole (st : State) (b : nat) : View := mkView b 0 (length (default [] (heap st !! b))).

(** [create_array_buffer_from_vec] *)
Definition alloc (st : State) (bytes : list Z) : nat * State :=
  (next_buffer st,
   mkState (<[next_buffer st := bytes]> (heap st)) (S (next_buffer st)) (keys st) (next_key_id st) (seed st)).

(** The random source was used. *)
Definition stir (st : State) : State :=
  mkState (heap st) (next_buffer st) (keys st) (next_key_id st) (S (seed st)).

(** ** ring *)

Inductive Hash := SHA1 | SHA256 | SHA384 | SHA512.

#[global] Instance hash_eq_dec : EqDecision Hash.
Proof. solve_decision. Defined.

(** [ec_public] parses a PKCS#8 key and answers its public key; [rsa_public] a private
    key in DER. *)
Class Ring := {
  digest : Hash -> list Z -> list Z;
  hmac_sign : Hash -> list Z -> list Z -> list Z;
  hmac_verify : Hash -> list Z -> list Z -> list Z -> bool;
  ec_generate : nat -> option (list Z);
  ec_public : list Z -> option (list Z);
  ec_sign : nat -> list Z -> list Z -> option (list Z);
  ec_verify : list Z -> list Z -> list Z -> bool;
  rsa_public : list Z -> option (list Z);
  rsa_sign : Hash -> list Z -> list Z -> option (list Z);
  rsa_verify : Hash -> list Z -> list Z -> list Z -> bool;
  pbkdf2_derive : Hash -> Z -> list Z -> list Z -> Z -> list Z;
  gcm_seal : list Z -> list Z -> list Z -> list Z -> option (list Z);
  gcm_open : list Z -> list Z -> list Z -> list Z -> option (list Z);
  fill : nat -> nat -> option (list Z)
}.

(** ** Arguments *)

Definition upper (c : ascii) : ascii :=
  let n := nat_of_ascii c in
  if (97 <=? n)%nat && (n <=? 122)%nat then ascii_of_nat (n - 32) else c.

(** [to_uppercase] *)
Fixpoint to_uppercase (s : string) : string :=
  match s with EmptyString => EmptyString | String c s => String (upper c) (to_uppercase s) end.

(** The hashes of [hmac], [digest] and PBKDF2; RSA leaves SHA-1 out. *)
Definition hash_of (name : string) : option Hash :=
  let n := to_uppercase name in
  if String.eqb n "SHA-1" then Some SHA1
  else if String.eqb n "SHA-256" then Some SHA256
  else if String.eqb n "SHA-384" then Some SHA384
  else if String.eqb n "SHA-512" then Some SHA512
  else None.

Definition rsa_hash_of (name : string) : option Hash :=
  match hash_of name with Some SHA1 => None | h => h end.

Definition arg (args : list Val) (i : nat) : Val := default VUndefined (args !! i).

(** The text of a number as JavaScript prints it is left open. *)
Section Text.
Context (text_of : Val -> string).

(** [to_string] *)
Definition to_string (v : Val) : option string :=
  match v with
  | VUndefined => Some "undefined"%string
  | VBool true => Some "true"%string
  | VBool false => Some "false"%string
  | VString s => Some s
  | VOther t => t
  | v => Some (text_of v)
  end.

(** A [Uint8Array] argument. *)
Definition uint8 (st : State) (v : Val) : option (list Z) :=
  match v with VUint8 v => Some (contents st v) | _ => None end.

Definition quote : string := String (ascii_of_nat 34) EmptyString.

Definition digit (n : nat) : string := String (ascii_of_nat (48 + n)) EmptyString.

(** [uint8_array_arg], of the small indexes the ops use. *)
Definition uint8_array_arg (op : string) (st : State) (args : list Val) (i : nat) : result (list Z) string :=
  match uint8 st (arg args i) with
  | Some b => Ok b
  | None => Err (op +:+ ": argument " +:+ digit i +:+ " is not a Uint8Array")
  end.

(** [as u32] and [as usize] of a double: towards zero, within the range, 0 for NaN. *)
Definition as_uint (w : Z) (n : Number) : Z :=
  match n with
  | NaN => 0
  | Infinity true => 0
  | Infinity false => 2 ^ w - 1
  | Finite num den => Z.max 0 (Z.min (2 ^ w - 1) (Z.quot num (Z.pos den)))
  end.

(** ** Native ops *)

(** An op answers a value or throws. *)
Definition Native : Type := (Val + JsError) * State.

Context `{Ring}.

Definition give (st : State) (bytes : list Z) : Native :=
  let '(b, st) := alloc st bytes in (inl (VBuffer b), st).
Definition undefined (st : State) : Native := (inl VUndefined, st).
Definition boolean (st : State) (b : bool) : Native := (inl (VBool b), st).

(** [__nativeDigest(algorithm, data)] *)
Definition native_digest (st : State) (args : list Val) : Native :=
  if (length args <? 2)%nat then undefined st
  else match to_string (arg args 0), uint8 st (arg args 1) with
       | Some algo, Some data =>
           match hash_of algo with
           | Some h => give st (digest h data)
           | None => undefined st
           end
       | _, _ => undefined st
       end.

(** [__nativeHmacSign(algorithm, keyData, data)] *)
Definition native_hmac_sign (st : State) (args : list Val) : Native :=
  if (length args <? 3)%nat then undefined st
  else match to_string (arg args 0), uint8 st (arg args 1), uint8 st (arg args 2) with
       | Some algo, Some key_data, Some data =>
           match hash_of algo with
           | Some h => give st (hmac_sign h key_data data)
           | None => undefined st
           end
       | _, _, _ => undefined st
       end.

(** [__nativeHmacVerify(algorithm, keyData, signature, data)] *)
Definition native_hmac_verify (st : State) (args : list Val) : Native :=
  if (length args <? 4)%nat then boolean st false
  else match to_string (arg args 0), uint8 st (arg args 1), uint8 st (arg args 2), uint8 st (arg args 3) with
       | Some algo, Some key_data, Some signature, Some data =>
           match hash_of algo with
           | Some h => boolean st (hmac_verify h key_data data signature)
           | None => boolean st false
           end
       | _, _, _, _ => boolean st false
       end.

(** [__nativeEcdsaGenerateKey()]: the private and the public key. *)
Definition native_ecdsa_generate_key (st : State) : option (nat * nat) * State :=
  let '(pkcs8, st) := (ec_generate (seed st), stir st) in
  match pkcs8 with
  | None => (None, st)
  | Some pkcs8 =>
      match ec_public pkcs8 with
      | None => (None, st)
      | Some public =>
          let '(priv, st) := alloc st pkcs8 in
          let '(pub, st) := alloc st public in
          (Some (priv, pub), st)
      end
  end.

(** [__nativeEcdsaSign(privateKeyPkcs8, data)] *)
Definition native_ecdsa_sign (st : State) (args : list Val) : Native :=
  if (length args <? 2)%nat then undefined st
  else match uint8 st (arg args 0), uint8 st (arg args 1) with
       | Some private_key, Some data =>
           match ec_public private_key with
           | None => undefined st
           | Some _ =>
               match ec_sign (seed st) private_key data with
               | None => undefined (stir st)
               | Some sig => give (stir st) sig
               end
           end
       | _, _ => undefined st
       end.

(** [__nativeEcdsaVerify(publicKey, signature, data)] *)
Definition native_ecdsa_verify (st : State) (args : list Val) : Native :=
  if (length args <? 3)%nat then boolean st false
  else match uint8 st (arg args 0), uint8 st (arg args 1), uint8 st (arg args 2) with
       | Some public_key, Some sig, Some data => boolean st (ec_verify public_key data sig)
       | _, _, _ => boolean st false
       end.

(** [__nativeRsaSign(hashAlgo, privateKeyDer, data)] *)
Definition native_rsa_sign (st : State) (args : list Val) : Native :=
  if (length args <? 3)%nat then undefined st
  else match to_string (arg args 0), uint8 st (arg args 1), uint8 st (arg args 2) with
       | Some algo, Some private_key, Some data =>
           match rsa_hash_of algo with
           | None => undefined st
           | Some h =>
               match rsa_public private_key with
               | None => undefined st
               | Some _ =>
                   match rsa_sign h private_key data with
                   | Some sig => give st sig
                   | None => undefined st
                   end
               end
           end
       | _, _, _ => undefined st
       end.

(** [__nativeRsaVerify(hashAlgo, publicKeyDer, signature, data)] *)
Definition native_rsa_verify (st : State) (args : list Val) : Native :=
  if (length args <? 4)%nat then boolean st false
  else match to_string (arg args 0), uint8 st (arg args 1), uint8 st (arg args 2), uint8 st (arg args 3) with
       | Some algo, Some public_key, Some sig, Some data =>
           match rsa_hash_of algo with
           | Some h => boolean st (rsa_verify h public_key data sig)
           | None => boolean st false
           end
       | _, _, _, _ => boolean st false
       end.

(** [Derivation] *)
Record Derivation := mkDerivation {
  d_algorithm : Hash;
  d_password : list Z;
  d_salt : list Z;
  d_iterations : Z;
  d_length_bytes : Z
}.

(** [derivation]: what [(hash, password, salt, iterations, lengthBits)] asks for. *)
Definition derivation (st : State) (args : list Val) : result Derivation string :=
  match to_string (arg args 0) with
  | None => Err "PBKDF2: the hash name is not a string"%string
  | Some hash =>
      match hash_of hash with
      | None => Err ("PBKDF2: unknown hash " +:+ quote +:+ hash +:+ quote)
      | Some algorithm =>
          let? password := uint8_array_arg "PBKDF2" st args 1 in
          let? salt := uint8_array_arg "PBKDF2" st args 2 in
          match arg args 3 with
          | VNumber iterations =>
              if as_uint 32 iterations =? 0 then Err "PBKDF2: the iteration count must be at least 1"%string
              else
                match arg args 4 with
                | VNumber length_ =>
                    Ok (mkDerivation algorithm password salt (as_uint 32 iterations) (as_uint 64 length_ / 8))
                | _ => Err "PBKDF2: the length is not a number"%string
                end
          | _ => Err "PBKDF2: the iteration count is not a number"%string
          end
      end
  end.

(** [__nativePbkdf2DeriveBits] *)
Definition native_pbkdf2_derive_bits (st : State) (args : list Val) : Native :=
  match derivation st args with
  | Err message => (inr (TypeError message), st)
  | Ok d => give st (pbkdf2_derive (d_algorithm d) (d_iterations d) (d_salt d) (d_password d) (d_length_bytes d))
  end.

(** [Failure] *)
Inductive Failure := Argument (message : string) | Operation (message : string).

Definition as_argument {A} (r : result A string) : result A Failure :=
  match r with Ok a => Ok a | Err e => Err (Argument e) end.

(** A length in a message. *)
Context (show : nat -> string).

(** [gcm_key] and [nonce] *)
Definition gcm_key (key : list Z) : result (list Z) string :=
  let n := length key in
  if (n =? 16)%nat || (n =? 32)%nat then Ok key
  else Err ("AES-GCM: the key is " +:+ show n +:+ " bytes, not 16 or 32").

Definition nonce (bytes : list Z) : result (list Z) string :=
  if (length bytes =? 12)%nat then Ok bytes
  else Err ("AES-GCM: the iv is " +:+ show (length bytes) +:+ " bytes, not 12").

(** The arguments [(key, iv, data, aad)] of [seal] and [open], in the order they are
    checked. *)
Definition gcm_args (st : State) (args : list Val) : result (list Z * list Z * list Z * list Z) Failure :=
  let? key := as_argument (let? b := uint8_array_arg "AES-GCM" st args 0 in gcm_key b) in
  let? iv := as_argument (let? b := uint8_array_arg "AES-GCM" st args 1 in nonce b) in
  let? aad := as_argument (uint8_array_arg "AES-GCM" st args 3) in
  let? data := as_argument (uint8_array_arg "AES-GCM" st args 2) in
  Ok (key, iv, data, aad).

(** [seal] *)
Definition seal (st : State) (args : list Val) : result (list Z) Failure :=
  let? a := gcm_args st args in
  let '(key, iv, data, aad) := a in
  match gcm_seal key iv aad data with
  | Some out => Ok out
  | None => Err (Operation "AES-GCM: the plaintext is too long")
  end.

(** [open] *)
Definition open (st : State) (args : list Val) : result (list Z) Failure :=
  let? a := gcm_args st args in
  let '(key, iv, data, aad) := a in
  match gcm_open key iv aad data with
  | Some out => Ok out
  | None => Err (Operation "AES-GCM: decryption failed")
  end.

(** [answer] *)
Definition answer (st : State) (r : result (list Z) Failure) : Native :=
  match r with
  | Ok out => give st out
  | Err (Argument message) => (inr (TypeError message), st)
  | Err (Operation message) => (inr (PlainError message), st)
  end.

(** [RANDOM_VALUES_QUOTA] *)
Definition RANDOM_VALUES_QUOTA : nat := Z.to_nat 65536.

(** [is_integer_view] *)
Definition integer_view (v : Val) : option View :=
  match v with
  | VUint8 v => Some v
  | VView Float16 _ | VView Float32 _ | VView Float64 _ | VView DataView _ => None
  | VView _ v => Some v
  | _ => None
  end.

(** Writes [bytes] at [at_]. *)
Definition write (old bytes : list Z) (at_ : nat) : list Z :=
  take at_ old ++ bytes ++ drop (at_ + length bytes) old.

(** [getRandomValues]; a detached buffer has no entry in the heap. *)
Definition get_random_values (st : State) (v : Val) : Native :=
  match integer_view v with
  | None =>
      (inr (DomException "TypeMismatchError" "crypto.getRandomValues expects an integer TypedArray"), st)
  | Some view =>
      if (RANDOM_VALUES_QUOTA <? byte_length view)%nat then
        (inr (DomException "QuotaExceededError" "crypto.getRandomValues accepts at most 65536 bytes"), st)
      else
        match fill (seed st) (byte_length view) with
        | None => (inr (DomException "OperationError" "the system RNG failed"), stir st)
        | Some bytes =>
            match heap st !! buffer view with
            | None => (inl v, stir st)
            | Some old =>
                (inl v, mkState (<[buffer view := write old bytes (offset view)]> (heap st)) (next_buffer st)
                          (keys st) (next_key_id st) (S (seed st)))
            end
        end
  end.

(** ** crypto.subtle *)

(** What a method answers: a promise that is resolved or rejected, or an exception
    thrown before there is a promise. *)
Inductive Answer :=
| AValue (v : Val)
| AKey (k : CryptoKey)
| APair (private_ public_ : CryptoKey).

Inductive Settled := Resolved (a : Answer) | Rejected (e : JsError) | Threw (e : JsError).

Definition Outcome : Type := Settled * State.

Definition resolve (st : State) (a : Answer) : Outcome := (Resolved a, st).
Definition reject (st : State) (message : string) : Outcome := (Rejected (PlainError message), st).
Definition throws (st : State) (e : JsError) : Outcome := (Rejected e, st).

(** Reading a property of a value that has none. *)
Definition NO_PROPERTY : JsError := TypeError "Cannot read properties of undefined".
Definition NOT_ITERABLE : JsError := TypeError "usages is not iterable".

(** [typeof algorithm === 'string' ? algorithm : algorithm.name]: [None] throws, and
    an object may have no name. *)
Definition alg_name (a : Algorithm) : option (option string) :=
  match a with AString s => Some (Some s) | AObject o => Some (a_name o) | ANone => None end.

(** A property of the algorithm, where it is an object. *)
Definition alg_prop {A} (a : Algorithm) (f : AlgorithmObject -> option A) : option A :=
  match a with AObject o => f o | _ => None end.
Definition alg_val (a : Algorithm) (f : AlgorithmObject -> Val) : Val :=
  match a with AObject o => f o | _ => VUndefined end.

Definition is_name (n : option string) (s : string) : bool :=
  match n with Some n => String.eqb n s | None => false end.

(** The hash of an algorithm, SHA-256 if it has none. *)
Definition hash_name (a : Algorithm) : option string :=
  match alg_prop a a_hash with
  | Some (HString EmptyString) => Some "SHA-256"%string
  | Some (HString s) => Some s
  | Some (HObject n) => n
  | None => Some "SHA-256"%string
  end.

(** [ArrayBuffer] or [Uint8Array], as a [Uint8Array] on the same bytes. *)
Definition view_of (st : State) (v : Val) : option View :=
  match v with VBuffer b => Some (whole st b) | VUint8 v => Some v | _ => None end.

(** [__aesBytes] *)
Definition aes_bytes (st : State) (v : Val) : option View :=
  match v with VBuffer b => Some (whole st b) | VUint8 v | VView _ v => Some v | _ => None end.

(** [__createCryptoKey]; [usages] is an array of strings or not iterable. *)
Definition create_key (st : State) (t : KeyType) (ext : bool) (name : string) (hash : option (option string))
    (us : option (list string)) (data : View) : Outcome :=
  match us with
  | None => throws st NOT_ITERABLE
  | Some us => resolve st (AKey (mkKey t ext name hash us data None))
  end.

(** The arguments of [importKey]. *)
Record Import := mkImport {
  format : string;
  i_data : Val;
  algorithm : Algorithm;
  i_extractable : bool;
  i_usages : option (list string)
}.

Definition of_native (r : Native) (k : Val -> State -> Outcome) : Outcome :=
  match r with (inl v, st) => k v st | (inr e, st) => throws st e end.

(** A native op whose [undefined] is a failure. *)
Definition or_reject (message : string) (v : Val) (st : State) : Outcome :=
  match v with VUndefined => reject st message | v => resolve st (AValue v) end.

Definition BYTES : string := "Data must be ArrayBuffer or Uint8Array".
Definition KEY_BYTES : string := "Key data must be ArrayBuffer or Uint8Array".
Definition SIGNATURE_BYTES : string := "Signature must be ArrayBuffer or Uint8Array".

(** digest.rs *)
Definition subtle_digest (st : State) (a : Algorithm) (data : Val) : Outcome :=
  match view_of st data with
  | None => reject st BYTES
  | Some bytes =>
      match alg_name a with
      | None => throws st NO_PROPERTY
      | Some name =>
          let name := default "undefined"%string name in
          of_native (native_digest st [VString name; VUint8 bytes])
            (or_reject ("Unsupported algorithm: " +:+ name))
      end
  end.

(** hmac.rs, [importKey]: every key goes to a map that nothing reads. *)
Definition hmac_import (st : State) (x : Import) : Outcome :=
  if negb (String.eqb (format x) "raw") then
    reject st ("Only " +:+ quote +:+ "raw" +:+ quote +:+ " format is supported")
  else match alg_name (algorithm x) with
       | None => throws st NO_PROPERTY
       | Some name =>
           if negb (is_name name "HMAC") then reject st "Only HMAC algorithm is supported"
           else match view_of st (i_data x) with
                | None => reject st KEY_BYTES
                | Some bytes =>
                    let id := next_key_id st in
                    let st := mkState (heap st) (next_buffer st) (keys st) (S id) (seed st) in
                    match i_usages x with
                    | None => throws st NOT_ITERABLE
                    | Some us =>
                        let key := mkKey Secret (i_extractable x) "HMAC" (Some (hash_name (algorithm x))) us bytes None in
                        resolve (mkState (heap st) (next_buffer st) (<[id := key]> (keys st)) (next_key_id st) (seed st))
                          (AKey key)
                    end
                end
       end.

(** [key.algorithm.hash.name], as the string the native op gets. *)
Definition key_hash (k : CryptoKey) : option string := default "undefined"%string <$> k_hash k.

(** hmac.rs, [sign] and [verify] *)
Definition hmac_subtle_sign (st : State) (a : Algorithm) (key : CryptoKey) (data : Val) : Outcome :=
  match alg_name a with
  | None => throws st NO_PROPERTY
  | Some name =>
      if negb (is_name name "HMAC") then reject st "Only HMAC algorithm is supported"
      else match view_of st data with
           | None => reject st BYTES
           | Some bytes =>
               match key_hash key with
               | None => throws st NO_PROPERTY
               | Some h => of_native (native_hmac_sign st [VString h; VUint8 (keyData key); VUint8 bytes])
                             (or_reject "Sign failed")
               end
           end
  end.

Definition hmac_subtle_verify (st : State) (a : Algorithm) (key : CryptoKey) (signature data : Val) : Outcome :=
  match alg_name a with
  | None => throws st NO_PROPERTY
  | Some name =>
      if negb (is_name name "HMAC") then reject st "Only HMAC algorithm is supported"
      else match view_of st data with
           | None => reject st BYTES
           | Some bytes =>
               match view_of st signature with
               | None => reject st SIGNATURE_BYTES
               | Some sig =>
                   match key_hash key with
                   | None => throws st NO_PROPERTY
                   | Some h => of_native (native_hmac_verify st [VString h; VUint8 (keyData key); VUint8 sig; VUint8 bytes])
                                 (fun v st => resolve st (AValue v))
                   end
               end
           end
  end.

(** *** ECDSA (ecdsa.rs) *)

(** [algorithm.namedCurve || 'P-256'] *)
Definition curve_ok (a : Algorithm) : bool :=
  match alg_prop a a_namedCurve with
  | None | Some EmptyString => true
  | Some c => String.eqb c "P-256"
  end.

Definition keep_usage (u : string) (us : list string) : list string := filter (fun x => x = u) us.

(** [generateKey] *)
Definition ecdsa_generate (st : State) (a : Algorithm) (ext : bool) (us : option (list string)) : Outcome :=
  match alg_name a with
  | None => throws st NO_PROPERTY
  | Some name =>
      if is_name name "ECDSA" then
        if negb (curve_ok a) then reject st "Only P-256 curve is supported"
        else match native_ecdsa_generate_key st with
             | (None, st) => reject st "Key generation failed"
             | (Some (priv, pub), st) =>
                 match us with
                 | None => throws st NOT_ITERABLE
                 | Some us =>
                     resolve st (APair
                       (mkKey Private ext "ECDSA" None (keep_usage "sign" us) (whole st priv) (Some (whole st pub)))
                       (mkKey Public true "ECDSA" None (keep_usage "verify" us) (whole st pub) None))
                 end
             end
      else reject st "Only ECDSA algorithm is supported for generateKey"
  end.

(** [importKey], over the layer below. *)
Definition ecdsa_import (below : State -> Import -> Outcome) (st : State) (x : Import) : Outcome :=
  match alg_name (algorithm x) with
  | None => throws st NO_PROPERTY
  | Some name =>
      if is_name name "ECDSA" then
        match view_of st (i_data x) with
        | None => reject st KEY_BYTES
        | Some bytes =>
            if negb (curve_ok (algorithm x)) then reject st "Only P-256 curve is supported"
            else if String.eqb (format x) "raw" then
              create_key st Public (i_extractable x) "ECDSA" None (i_usages x) bytes
            else if String.eqb (format x) "pkcs8" then
              create_key st Private (i_extractable x) "ECDSA" None (i_usages x) bytes
            else reject st ("Only " +:+ quote +:+ "raw" +:+ quote +:+ " and " +:+ quote +:+ "pkcs8" +:+ quote +:+
                            " formats are supported for ECDSA")
        end
      else below st x
  end.

Definition SignFn : Type := State -> Algorithm -> CryptoKey -> Val -> Outcome.
Definition VerifyFn : Type := State -> Algorithm -> CryptoKey -> Val -> Val -> Outcome.

Definition is_private (k : CryptoKey) : bool := match k_type k with Private => true | _ => false end.

(** [sign] *)
Definition ecdsa_sign (below : SignFn) : SignFn := fun st a key data =>
  match alg_name a with
  | None => throws st NO_PROPERTY
  | Some name =>
      if is_name name "ECDSA" then
        if negb (is_private key && String.eqb (k_name key) "ECDSA") then
          reject st "Invalid key for ECDSA signing"
        else match view_of st data with
             | None => reject st BYTES
             | Some bytes => of_native (native_ecdsa_sign st [VUint8 (keyData key); VUint8 bytes])
                               (or_reject "ECDSA sign failed")
             end
      else below st a key data
  end.

(** [verify]; a private key verifies with the public key it was generated with. *)
Definition ecdsa_verify (below : VerifyFn) : VerifyFn := fun st a key signature data =>
  match alg_name a with
  | None => throws st NO_PROPERTY
  | Some name =>
      if is_name name "ECDSA" then
        if negb (String.eqb (k_name key) "ECDSA") then reject st "Invalid key for ECDSA verification"
        else match view_of st data with
             | None => reject st BYTES
             | Some bytes =>
                 match view_of st signature with
                 | None => reject st SIGNATURE_BYTES
                 | Some sig =>
                     let public := if is_private key
                                   then match publicKeyData key with Some v => VUint8 v | None => VUndefined end
                                   else VUint8 (keyData key) in
                     of_native (native_ecdsa_verify st [public; VUint8 sig; VUint8 bytes])
                       (fun v st => resolve st (AValue v))
                 end
             end
      else below st a key signature data
  end.

(** *** RSASSA-PKCS1-v1_5 (rsa.rs) *)

Definition RSA : string := "RSASSA-PKCS1-v1_5".

Definition rsa_import (below : State -> Import -> Outcome) (st : State) (x : Import) : Outcome :=
  match alg_name (algorithm x) with
  | None => throws st NO_PROPERTY
  | Some name =>
      if is_name name RSA then
        match view_of st (i_data x) with
        | None => reject st KEY_BYTES
        | Some bytes =>
            let hash := Some (hash_name (algorithm x)) in
            if String.eqb (format x) "pkcs8" then
              create_key st Private (i_extractable x) RSA hash (i_usages x) bytes
            else if String.eqb (format x) "spki" || String.eqb (format x) "raw" then
              create_key st Public (i_extractable x) RSA hash (i_usages x) bytes
            else reject st ("Only " +:+ quote +:+ "pkcs8" +:+ quote +:+ " and " +:+ quote +:+ "spki" +:+ quote +:+
                            " formats are supported for RSA")
        end
      else below st x
  end.

Definition rsa_subtle_sign (below : SignFn) : SignFn := fun st a key data =>
  match alg_name a with
  | None => throws st NO_PROPERTY
  | Some name =>
      if is_name name RSA then
        if negb (is_private key && String.eqb (k_name key) RSA) then reject st "Invalid key for RSA signing"
        else match view_of st data with
             | None => reject st BYTES
             | Some bytes =>
                 match key_hash key with
                 | None => throws st NO_PROPERTY
                 | Some h => of_native (native_rsa_sign st [VString h; VUint8 (keyData key); VUint8 bytes])
                               (or_reject "RSA sign failed")
                 end
             end
      else below st a key data
  end.

Definition rsa_subtle_verify (below : VerifyFn) : VerifyFn := fun st a key signature data =>
  match alg_name a with
  | None => throws st NO_PROPERTY
  | Some name =>
      if is_name name RSA then
        if negb (String.eqb (k_name key) RSA) then reject st "Invalid key for RSA verification"
        else match view_of st data with
             | None => reject st BYTES
             | Some bytes =>
                 match view_of st signature with
                 | None => reject st SIGNATURE_BYTES
                 | Some sig =>
                     match key_hash key with
                     | None => throws st NO_PROPERTY
                     | Some h => of_native (native_rsa_verify st [VString h; VUint8 (keyData key); VUint8 sig; VUint8 bytes])
                                   (fun v st => resolve st (AValue v))
                     end
                 end
             end
      else below st a key signature data
  end.

(** *** PBKDF2 (pbkdf2.rs) *)

Definition ascii_bytes (s : string) : list Z := (fun c => Z.of_nat (nat_of_ascii c)) <$> String.list_ascii_of_string s.

Definition pbkdf2_import (below : State -> Import -> Outcome) (st : State) (x : Import) : Outcome :=
  match alg_name (algorithm x) with
  | None => throws st NO_PROPERTY
  | Some name =>
      if is_name name "PBKDF2" then
        if negb (String.eqb (format x) "raw") then
          reject st ("Only " +:+ quote +:+ "raw" +:+ quote +:+ " format is supported for PBKDF2")
        else match i_data x with
             | VString s =>
                 let '(b, st) := alloc st (ascii_bytes s) in
                 create_key st Secret (i_extractable x) "PBKDF2" None (i_usages x) (whole st b)
             | v =>
                 match view_of st v with
                 | Some bytes => create_key st Secret (i_extractable x) "PBKDF2" None (i_usages x) bytes
                 | None => reject st "Key data must be ArrayBuffer, Uint8Array, or string"
                 end
             end
      else below st x
  end.

(** [!iterations || iterations < 1] *)
Definition too_few (n : option Number) : bool :=
  match n with
  | None | Some NaN | Some (Infinity true) => true
  | Some (Infinity false) => false
  | Some (Finite num den) => num <? Z.pos den
  end.

Definition deriveBits (st : State) (a : Algorithm) (key : CryptoKey) (length_ : Val) : Outcome :=
  match alg_name a with
  | None => throws st NO_PROPERTY
  | Some name =>
      if negb (is_name name "PBKDF2") then reject st "Only PBKDF2 algorithm is supported for deriveBits"
      else if negb (String.eqb (k_name key) "PBKDF2") then reject st "Invalid key for PBKDF2"
      else match view_of st (alg_val a a_salt) with
           | None => reject st "Salt must be ArrayBuffer or Uint8Array"
           | Some salt =>
               if too_few (alg_prop a a_iterations) then reject st "Iterations must be a positive number"
               else
                 match alg_prop a a_hash with
                 | None => throws st NO_PROPERTY
                 | Some h =>
                     let h := match h with HString s => VString s
                                         | HObject (Some s) => VString s | HObject None => VUndefined end in
                     let n := match alg_prop a a_iterations with Some n => VNumber n | None => VUndefined end in
                     of_native (native_pbkdf2_derive_bits st [h; VUint8 (keyData key); VUint8 salt; n; length_])
                       (fun v st => resolve st (AValue v))
                 end
           end
  end.

(** *** AES-GCM (aes.rs) *)

Definition number_is (n : Number) (z : Z) : bool :=
  match n with Finite num den => num =? z * Z.pos den | _ => false end.

(** [algorithm.length]: a string has one too. *)
Definition aes_length (a : Algorithm) : option Number :=
  match a with
  | AString s => Some (Finite (Z.of_nat (String.length s)) 1)
  | AObject o => a_length o
  | ANone => None
  end.

(** [generateKey]; the name is read before there is a promise. *)
Definition aes_generate (below : State -> Algorithm -> bool -> option (list string) -> Outcome)
    (st : State) (a : Algorithm) (ext : bool) (us : option (list string)) : Outcome :=
  match alg_name a with
  | None => (Threw NO_PROPERTY, st)
  | Some name =>
      if negb (is_name name "AES-GCM") then below st a ext us
      else
        let bits := default (Finite 256 1) (aes_length a) in
        if negb (number_is bits 128 || number_is bits 256) then reject st "AES-GCM supports 128 and 256 bit keys"
        else
          let n := if number_is bits 128 then 16%nat else 32%nat in
          let '(b, st) := alloc st (replicate n 0) in
          of_native (get_random_values st (VUint8 (whole st b)))
            (fun _ st => create_key st Secret ext "AES-GCM" None us (whole st b))
  end.

Definition aes_import (below : State -> Import -> Outcome) (st : State) (x : Import) : Outcome :=
  match alg_name (algorithm x) with
  | None => (Threw NO_PROPERTY, st)
  | Some name =>
      if negb (is_name name "AES-GCM") then below st x
      else if negb (String.eqb (format x) "raw") then
        reject st ("Only " +:+ quote +:+ "raw" +:+ quote +:+ " format is supported for AES-GCM")
      else match aes_bytes st (i_data x) with
           | None => throws st (TypeError "Expected an ArrayBuffer or a view")
           | Some bytes =>
               if negb ((byte_length bytes =? 16)%nat || (byte_length bytes =? 32)%nat)
               then reject st "AES-GCM supports 128 and 256 bit keys"
               else create_key st Secret (i_extractable x) "AES-GCM" None (i_usages x) bytes
           end
  end.

(** [exportKey]: a copy of the bytes of the key. *)
Definition exportKey (st : State) (format : string) (key : CryptoKey) : Outcome :=
  if negb (String.eqb format "raw") then
    reject st ("Only " +:+ quote +:+ "raw" +:+ quote +:+ " format is supported for exportKey")
  else if negb (extractable key) then reject st "Key is not extractable"
  else let '(b, st) := alloc st (contents st (keyData key)) in resolve st (AValue (VBuffer b)).

(** [__aesGcmArgs] *)
Definition aes_gcm_args (st : State) (a : Algorithm) (key : CryptoKey) (data : Val) : result (list Val) JsError :=
  match a with
  | ANone => Err NO_PROPERTY
  | _ =>
      if negb (is_name (alg_prop a a_name) "AES-GCM" && String.eqb (k_name key) "AES-GCM")
      then Err (PlainError "Only AES-GCM is supported for encrypt and decrypt")
      else if match alg_prop a a_tagLength with Some n => negb (number_is n 128) | None => false end
      then Err (PlainError "Only a 128 bit AES-GCM tag is supported")
      else
        let expected {A} (o : option A) := match o with Some v => Ok v | None => Err (TypeError "Expected an ArrayBuffer or a view") end in
        let? aad := match alg_val a a_additionalData with
                    | VUndefined => Ok None
                    | v => let? v := expected (aes_bytes st v) in Ok (Some v)
                    end in
        let? iv := expected (aes_bytes st (alg_val a a_iv)) in
        let? data := expected (aes_bytes st data) in
        Ok [VUint8 (keyData key); VUint8 iv; VUint8 data;
            VUint8 (default (mkView (next_buffer st) 0 0) aad)]
  end.

Definition gcm_op (op : State -> list Val -> result (list Z) Failure) (st : State) (a : Algorithm)
    (key : CryptoKey) (data : Val) : Outcome :=
  match aes_gcm_args st a key data with
  | Err e => throws st e
  | Ok args => of_native (answer st (op st args)) (fun v st => resolve st (AValue v))
  end.

Definition encrypt := gcm_op seal.
Definition decrypt := gcm_op open.

(** ** The layers, as [setup_crypto] stacks them *)

Definition importKey : State -> Import -> Outcome :=
  aes_import (pbkdf2_import (rsa_import (ecdsa_import hmac_import))).
Definition generateKey : State -> Algorithm -> bool -> option (list string) -> Outcome :=
  aes_generate ecdsa_generate.
Definition sign : SignFn := rsa_subtle_sign (ecdsa_sign hmac_subtle_sign).
Definition verify : VerifyFn := rsa_subtle_verify (ecdsa_verify hmac_subtle_verify).

End Text.

End Crypto.
