(* ===== verification/CryptoCorrect.v ===== *)
(** * Correctness of Web Crypto

    The layers of [crypto.subtle] act as one function that asks the name of the
    algorithm; what [sign] makes [verify] accepts, what [encrypt] makes [decrypt] gives
    back and nothing else; random bytes go into the view they were asked for and nowhere
    else. What is assumed of ring is in [RingLaws]. *)

From stdpp Require Import base list gmap strings.
From Stdlib Require Import ZArith Lia.
From S2P Require Import Prelude Crypto.

Module CryptoCorrect.
Import Crypto.

(** What ring documents: a tag is the one [sign] computes, a signature of a key verifies
    with its public key, opening inverts sealing, and [fill] fills the slice. *)
Class RingLaws (R : Ring) : Prop := {
  hmac_law h k d t : hmac_verify h k d t = true <-> t = hmac_sign h k d;
  ec_law seed priv pub d s :
    ec_public priv = Some pub -> ec_sign seed priv d = Some s -> ec_verify pub d s = true;
  rsa_law h priv pub d s :
    rsa_public priv = Some pub -> rsa_sign h priv d = Some s -> rsa_verify h pub d s = true;
  gcm_law k n a d c : gcm_seal k n a d = Some c <-> gcm_open k n a c = Some d;
  fill_law seed n b : fill seed n = Some b -> length b = n
}.

(** ** The heap *)

(** The buffers of a value were made before. *)
Definition old_view (st : State) (v : View) : Prop := (buffer v < next_buffer st)%nat.

Definition old_val (st : State) (v : Val) : Prop :=
  match v with
  | VBuffer b => (b < next_buffer st)%nat
  | VUint8 v | VView _ v => old_view st v
  | _ => True
  end.

Lemma contents_alloc st bytes b st' v :
  alloc st bytes = (b, st') -> old_view st v -> contents st' v = contents st v /\ old_view st' v.
Proof.
  unfold alloc, old_view, contents. intros [= <- <-] Hv. simpl. rewrite lookup_insert_ne by lia. split; [done|lia].
Qed.

Lemma contents_stir st v : contents (stir st) v = contents st v.
Proof. done. Qed.

Lemma contents_new st bytes b st' :
  alloc st bytes = (b, st') -> contents st' (whole st' b) = bytes /\ heap st' !! b = Some bytes.
Proof.
  unfold alloc, contents, whole. intros [= <- <-]. simpl. rewrite lookup_insert_eq. simpl. split; [|done].
  by rewrite drop_0, firstn_all.
Qed.

Lemma whole_alloc st bytes b st' c :
  alloc st bytes = (b, st') -> (c < next_buffer st)%nat -> whole st' c = whole st c.
Proof. unfold alloc, whole. intros [= <- <-] Hc. simpl. by rewrite lookup_insert_ne by lia. Qed.

Lemma view_of_alloc st bytes b st' v :
  alloc st bytes = (b, st') -> old_val st v -> view_of st' v = view_of st v.
Proof. destruct v; simpl; try done. intros Ha Hb. by rewrite (whole_alloc _ _ _ _ _ Ha Hb). Qed.

Lemma view_of_old st v x : old_val st v -> view_of st v = Some x -> old_view st x.
Proof. destruct v; simpl; try done; intros Hv [= <-]; done. Qed.

Lemma alloc_gives st bytes r st' :
  give st bytes = (r, st') -> exists b, r = inl (VBuffer b) /\ alloc st bytes = (b, st').
Proof. unfold give. destruct (alloc st bytes) as [b s] eqn:E. intros [= <- <-]. by exists b. Qed.

Section Ring.
Context (text_of : Val -> string) (show : nat -> string) `{R : Ring} `{!RingLaws R}.

Notation sign := (Crypto.sign text_of).
Notation verify := (Crypto.verify text_of).

(** ** Signatures *)

(** The key [k'] verifies what [k] signs under the algorithm [n]. *)
Definition matching (st : State) (n : string) (k k' : CryptoKey) : Prop :=
  if String.eqb n RSA then
    k_name k' = RSA /\ k_hash k' = k_hash k /\ rsa_public (contents st (keyData k)) = Some (contents st (keyData k'))
  else if String.eqb n "ECDSA" then
    k_name k' = "ECDSA"%string /\
    exists v, (if is_private k' then publicKeyData k' = Some v else keyData k' = v) /\ old_view st v /\
      ec_public (contents st (keyData k)) = Some (contents st v)
  else k' = k.

(** What a sign op that answers has done. *)
Lemma hmac_signed st h k d v st' :
  native_hmac_sign text_of st [VString h; VUint8 k; VUint8 d] = (inl v, st') -> v <> VUndefined ->
  exists hh b, hash_of h = Some hh /\ v = VBuffer b /\ alloc st (hmac_sign hh (contents st k) (contents st d)) = (b, st').
Proof.
  unfold native_hmac_sign. simpl. destruct (hash_of h) as [hh|]; [|by intros [= <- <-]].
  intros (b & [= ->] & Ha)%alloc_gives _. by exists hh, b.
Qed.

Lemma ecdsa_signed st k d v st' :
  native_ecdsa_sign st [VUint8 k; VUint8 d] = (inl v, st') -> v <> VUndefined ->
  exists sig b, ec_sign (seed st) (contents st k) (contents st d) = Some sig /\ v = VBuffer b /\
    alloc (stir st) sig = (b, st').
Proof.
  unfold native_ecdsa_sign. simpl. destruct (ec_public (contents st k)); [|by intros [= <- <-]].
  destruct (ec_sign _ _ _) as [sig|]; [|by intros [= <- <-]].
  intros (b & [= ->] & Ha)%alloc_gives _. by exists sig, b.
Qed.

Lemma rsa_signed st h k d v st' :
  native_rsa_sign text_of st [VString h; VUint8 k; VUint8 d] = (inl v, st') -> v <> VUndefined ->
  exists hh sig b, rsa_hash_of h = Some hh /\ rsa_sign hh (contents st k) (contents st d) = Some sig /\
    v = VBuffer b /\ alloc st sig = (b, st').
Proof.
  unfold native_rsa_sign. simpl. destruct (rsa_hash_of h) as [hh|]; [|by intros [= <- <-]].
  destruct (rsa_public (contents st k)); [|by intros [= <- <-]].
  destruct (rsa_sign hh _ _) as [sig|] eqn:E; [|by intros [= <- <-]].
  intros (b & [= ->] & Ha)%alloc_gives _. by exists hh, sig, b.
Qed.

(** A promise resolved through [of_native] and [or_reject]. *)
Lemma resolved_native r m v st' :
  of_native r (or_reject m) = (Resolved (AValue v), st') -> r = (inl v, st') /\ v <> VUndefined.
Proof. destruct r as [[x|e] s]; simpl; [|done]. destruct x; simpl; by intros [= <- <-]. Qed.

(** The data is the same after the signature was made. *)
Lemma same_after st bytes b st' data v k :
  alloc st bytes = (b, st') -> old_val st data -> view_of st data = Some v -> old_view st k ->
  view_of st' data = Some v /\ contents st' v = contents st v /\ contents st' k = contents st k /\
  view_of st' (VBuffer b) = Some (whole st' b) /\ contents st' (whole st' b) = bytes.
Proof.
  intros Ha Hd Hv Hk. split_and!.
  - by rewrite (view_of_alloc _ _ _ _ _ Ha Hd).
  - by apply (contents_alloc _ _ _ _ _ Ha (view_of_old _ _ _ Hd Hv)).
  - by apply (contents_alloc _ _ _ _ _ Ha).
  - done.
  - by apply (contents_new _ _ _ _ Ha).
Qed.

Lemma eqb_name n s : is_name (Some n) s = String.eqb n s.
Proof. done. Qed.

Lemma rsa_roundtrip st a k k' data r st' :
  alg_name a = Some (Some RSA) -> old_val st data -> old_view st (keyData k') ->
  k_name k' = RSA -> k_hash k' = k_hash k -> rsa_public (contents st (keyData k)) = Some (contents st (keyData k')) ->
  sign st a k data = (Resolved (AValue r), st') ->
  verify st' a k' r data = (Resolved (AValue (VBool true)), st').
Proof.
  intros Hn Hd Hk' Hname Hhash Hpub. unfold Crypto.sign, Crypto.verify, rsa_subtle_sign, rsa_subtle_verify.
  rewrite Hn. simpl (is_name _ _). cbv iota. rewrite Hname, String.eqb_refl. simpl (negb true). cbv iota.
  destruct (negb _); [done|]. destruct (view_of st data) as [v|] eqn:Hv; [|done].
  unfold key_hash. rewrite Hhash. destruct (k_hash k) as [h|]; [|done]. simpl (default _ <$> Some h). cbv iota.
  intros Hs. apply resolved_native in Hs as [Hs Hu]. apply rsa_signed in Hs as (hh & sig & b & Hh & Hsig & -> & Ha); [|done].
  destruct (same_after _ _ _ _ _ _ _ Ha Hd Hv Hk') as (-> & Hc & Hck & -> & Hcb).
  unfold native_rsa_verify. simpl. rewrite Hh. simpl. rewrite Hc, Hck, Hcb.
  by rewrite (rsa_law hh _ _ _ _ Hpub Hsig).
Qed.

Lemma ecdsa_roundtrip st a k k' v' data r st' :
  alg_name a = Some (Some "ECDSA"%string) -> old_val st data -> old_view st v' -> k_name k' = "ECDSA"%string ->
  (if is_private k' then publicKeyData k' = Some v' else keyData k' = v') ->
  ec_public (contents st (keyData k)) = Some (contents st v') ->
  sign st a k data = (Resolved (AValue r), st') ->
  verify st' a k' r data = (Resolved (AValue (VBool true)), st').
Proof.
  intros Hn Hd Hk' Hname Hdata Hpub.
  unfold Crypto.sign, Crypto.verify, rsa_subtle_sign, rsa_subtle_verify, ecdsa_sign, ecdsa_verify.
  rewrite Hn. simpl (is_name _ _). cbv iota. rewrite Hname, String.eqb_refl. simpl (negb true). cbv iota.
  destruct (negb _); [done|]. destruct (view_of st data) as [v|] eqn:Hv; [|done].
  intros Hs. apply resolved_native in Hs as [Hs Hu]. apply ecdsa_signed in Hs as (sig & b & Hsig & -> & Ha); [|done].
  destruct (same_after (stir st) _ _ _ _ _ _ Ha Hd Hv Hk') as (-> & Hc & Hck & -> & Hcb).
  replace (if is_private k' then match publicKeyData k' with Some v0 => VUint8 v0 | None => VUndefined end
           else VUint8 (keyData k')) with (VUint8 v') by (destruct (is_private k'); by rewrite Hdata).
  unfold native_ecdsa_verify. simpl. rewrite Hc, Hck, Hcb, !contents_stir.
  by rewrite (ec_law _ _ _ _ _ Hpub Hsig).
Qed.

Lemma hmac_roundtrip st a n k data r st' :
  alg_name a = Some (Some n) -> n <> RSA -> n <> "ECDSA"%string -> old_val st data -> old_view st (keyData k) ->
  sign st a k data = (Resolved (AValue r), st') ->
  verify st' a k r data = (Resolved (AValue (VBool true)), st').
Proof.
  intros Hn Hr He Hd Hk.
  unfold Crypto.sign, Crypto.verify, rsa_subtle_sign, rsa_subtle_verify, ecdsa_sign, ecdsa_verify,
    hmac_subtle_sign, hmac_subtle_verify.
  rewrite Hn, !eqb_name. apply String.eqb_neq in Hr as ->, He as ->.
  destruct (negb _); [done|]. destruct (view_of st data) as [v|] eqn:Hv; [|done].
  destruct (key_hash k) as [h|]; [|done].
  intros Hs. apply resolved_native in Hs as [Hs Hu]. apply hmac_signed in Hs as (hh & b & Hh & -> & Ha); [|done].
  destruct (same_after _ _ _ _ _ _ _ Ha Hd Hv Hk) as (-> & Hc & Hck & -> & Hcb).
  unfold native_hmac_verify. simpl. rewrite Hh. simpl. rewrite Hc, Hck, Hcb.
  by rewrite (proj2 (hmac_law _ _ _ _) eq_refl).
Qed.

(** What [sign] answers, [verify] accepts: for HMAC with the same key, for ECDSA
    with the public key (or the private key that carries it), for RSA with the public
    key and the same hash, as long as the buffers of the keys and of the data are not
    changed in between. *)
Theorem signatures_verify st a n k k' data r st' :
  alg_name a = Some (Some n) -> old_val st data -> old_view st (keyData k) -> old_view st (keyData k') ->
  matching st n k k' ->
  sign st a k data = (Resolved (AValue r), st') ->
  verify st' a k' r data = (Resolved (AValue (VBool true)), st').
Proof.
  intros Hn Hd Hk Hk' Hm. unfold matching in Hm.
  destruct (String.eqb_spec n RSA) as [->|Hr].
  { destruct Hm as (? & ? & ?). by eapply rsa_roundtrip. }
  destruct (String.eqb_spec n "ECDSA") as [->|He].
  - destruct Hm as (? & v & ? & ? & ?). by eapply ecdsa_roundtrip.
  - subst k'. by eapply hmac_roundtrip.
Qed.

(** ** Keys of another algorithm *)

(** [verify] under HMAC asks for no HMAC key: with a public RSA key it accepts
    exactly the tag that anyone who knows the public key can compute, so a check that
    lets the message choose the algorithm can be passed without the private key. *)
Theorem hmac_takes_any_key st k sig data vs vd hh h :
  k_name k = RSA -> k_type k = Public -> k_hash k = Some (Some h) -> hash_of h = Some hh ->
  view_of st sig = Some vs -> view_of st data = Some vd ->
  exists b, verify st (AString "HMAC") k sig data = (Resolved (AValue (VBool b)), st) /\
    (b = true <-> contents st vs = hmac_sign hh (contents st (keyData k)) (contents st vd)).
Proof.
  intros Hn Ht Hk Hh Hs Hd.
  unfold Crypto.verify, rsa_subtle_verify, ecdsa_verify, hmac_subtle_verify, native_hmac_verify, key_hash.
  simpl. rewrite Hd, Hs, Hk. simpl. rewrite Hh. simpl. eexists. split; [done|]. apply hmac_law.
Qed.

(** ** AES-GCM *)

(** What an operation of AES-GCM reads: the key, the iv, the data and the additional
    data. *)
Definition gcm_input (st : State) (a : Algorithm) (k : CryptoKey) (data : Val)
    (key iv text aad : list Z) : Prop :=
  key = contents st (keyData k) /\
  (exists v, aes_bytes st (alg_val a a_iv) = Some v /\ iv = contents st v) /\
  (exists v, aes_bytes st data = Some v /\ text = contents st v) /\
  match alg_val a a_additionalData with
  | VUndefined => aad = []
  | x => exists v, aes_bytes st x = Some v /\ aad = contents st v
  end.

Lemma empty_contents st b : contents st (mkView b 0 0) = [].
Proof. done. Qed.

(** The checks before ring is called. *)
Definition gcm_ready (a : Algorithm) (k : CryptoKey) (key iv : list Z) : bool :=
  match a with ANone => false | _ => true end &&
  (is_name (alg_prop a a_name) "AES-GCM" && String.eqb (k_name k) "AES-GCM") &&
  match alg_prop a a_tagLength with Some n => number_is n 128 | None => true end &&
  ((length key =? 16)%nat || (length key =? 32)%nat) && (length iv =? 12)%nat.

Lemma gcm_args_of st l1 l2 l3 l4 key iv text aad :
  gcm_args show st [VUint8 l1; VUint8 l2; VUint8 l3; VUint8 l4] = Ok (key, iv, text, aad) <->
  key = contents st l1 /\ iv = contents st l2 /\ text = contents st l3 /\ aad = contents st l4 /\
  ((length key =? 16)%nat || (length key =? 32)%nat) && (length iv =? 12)%nat = true.
Proof.
  unfold gcm_args, uint8_array_arg, gcm_key, nonce. simpl.
  destruct ((length (contents st l1) =? 16)%nat || (length (contents st l1) =? 32)%nat) eqn:E1; simpl.
  - destruct (length (contents st l2) =? 12)%nat eqn:E2; simpl.
    + split; [by intros [= <- <- <- <-]; rewrite E1, E2|]. by intros (-> & -> & -> & -> & _).
    + split; [done|]. intros (-> & -> & _ & _ & H). by rewrite E1, E2 in H.
  - split; [done|]. intros (-> & _ & _ & _ & H). by rewrite E1 in H.
Qed.

(** The call of ring is reached exactly with what was read. *)
Lemma gcm_reads st a k data key iv text aad :
  (exists l, aes_gcm_args st a k data = Ok l /\ gcm_args show st l = Ok (key, iv, text, aad)) <->
  gcm_input st a k data key iv text aad /\ gcm_ready a k key iv = true.
Proof.
  clear text_of. unfold gcm_input, gcm_ready, aes_gcm_args.
  destruct a as [s|o|]; [by split; [intros (? & ? & _)|intros [_ ?]]| |by split; [intros (? & ? & _)|intros [_ ?]]].
  simpl alg_prop. simpl alg_val.
  destruct (is_name (a_name o) "AES-GCM" && String.eqb (k_name k) "AES-GCM"); simpl negb; cbv iota;
    [|by split; [intros (? & ? & _)|intros [_ ?]]].
  destruct (match a_tagLength o with Some n => negb (number_is n 128) | None => false end) eqn:Et.
  { split; [by intros (? & ? & _)|]. intros [_ H]. simpl in H. destruct (a_tagLength o); [|done].
    by apply negb_true_iff in Et; rewrite Et in H. }
  assert (match a_tagLength o with Some n => number_is n 128 | None => true end = true) as ->.
  { destruct (a_tagLength o); [|done]. by apply negb_false_iff. }
  set (no := mkView (next_buffer st) 0 0).
  assert (exists oa : option (option View),
    (match a_additionalData o with
     | VUndefined => Ok None
     | v => let? v := match aes_bytes st v with Some v => Ok v | None => Err (TypeError "Expected an ArrayBuffer or a view") end in Ok (Some v)
     end = match oa with Some x => Ok x | None => Err (TypeError "Expected an ArrayBuffer or a view") end) /\
    (match a_additionalData o with
     | VUndefined => aad = []
     | x => exists v, aes_bytes st x = Some v /\ aad = contents st v
     end <-> exists x, oa = Some x /\ aad = contents st (default no x))) as (oa & -> & ->).
  { destruct (a_additionalData o); simpl; try (exists None; naive_solver);
      [exists (Some None)|exists (Some (Some (whole st b)))|exists (Some (Some v))|exists (Some (Some v))]; naive_solver. }
  destruct oa as [x|]; simpl; [|by split; [intros (? & ? & _)|naive_solver]].
  destruct (aes_bytes st (a_iv o)) as [vi|]; simpl; [|by split; [intros (? & ? & _)|naive_solver]].
  destruct (aes_bytes st data) as [vd|]; simpl; [|by split; [intros (? & ? & _)|naive_solver]].
  split.
  - intros (l & [= <-] & Hg). apply gcm_args_of in Hg. naive_solver.
  - intros H. eexists. split; [done|]. apply gcm_args_of. naive_solver.
Qed.

(** An operation that reads its arguments and asks ring. *)
Definition asks (op : State -> list Val -> result (list Z) Failure)
    (f : list Z -> list Z -> list Z -> list Z -> option (list Z)) : Prop :=
  exists message, forall st l, op st l =
    match gcm_args show st l with
    | Ok (key, iv, text, aad) => match f key iv aad text with Some out => Ok out | None => Err (Operation message) end
    | Err e => Err e
    end.

Lemma seal_asks : asks (seal show) gcm_seal.
Proof. eexists. intros st l. unfold seal. by destruct (gcm_args show st l) as [[[[key iv] text] aad]|e]. Qed.

Lemma open_asks : asks (open show) gcm_open.
Proof. eexists. intros st l. unfold open. by destruct (gcm_args show st l) as [[[[key iv] text] aad]|e]. Qed.

(** Its promise is resolved exactly when ring answers on what was read. *)
Lemma gcm_op_resolves op f st a k data c st' :
  asks op f ->
  gcm_op op st a k data = (Resolved (AValue c), st') <->
  exists key iv text aad out b,
    gcm_input st a k data key iv text aad /\ gcm_ready a k key iv = true /\ f key iv aad text = Some out /\
    c = VBuffer b /\ alloc st out = (b, st').
Proof.
  intros [m Hop]. unfold gcm_op. split.
  - destruct (aes_gcm_args st a k data) as [l|e] eqn:El; [|done]. rewrite Hop.
    destruct (gcm_args show st l) as [[[[key iv] text] aad]|[e|e]] eqn:Eg; try done.
    destruct (f key iv aad text) as [out|] eqn:Ef; [|done]. unfold answer.
    destruct (give st out) as [r s] eqn:Hg. apply alloc_gives in Hg as (b & -> & Ha). intros [= <- <-].
    destruct (proj1 (gcm_reads st a k data key iv text aad)) as [Hi Hr]; [by exists l|].
    exists key, iv, text, aad, out, b. by split_and!.
  - intros (key & iv & text & aad & out & b & Hi & Hr & Hf & -> & Ha).
    destruct (proj2 (gcm_reads st a k data key iv text aad) (conj Hi Hr)) as (l & -> & Hg).
    rewrite Hop, Hg, Hf. unfold answer, give. by rewrite Ha.
Qed.

Lemma aes_bytes_alloc st bytes b st' v :
  alloc st bytes = (b, st') -> old_val st v -> aes_bytes st' v = aes_bytes st v.
Proof. destruct v; simpl; try done. intros Ha Hb. by rewrite (whole_alloc _ _ _ _ _ Ha Hb). Qed.

Lemma aes_bytes_old st v x : old_val st v -> aes_bytes st v = Some x -> old_view st x.
Proof. destruct v; simpl; try done; intros Hv [= <-]; done. Qed.

(** What was read for [data] is read again for the new buffer. *)
Lemma gcm_input_after st a k data key iv text aad out b st' :
  alloc st out = (b, st') -> old_view st (keyData k) -> old_val st (alg_val a a_iv) ->
  old_val st (alg_val a a_additionalData) -> gcm_input st a k data key iv text aad ->
  gcm_input st' a k (VBuffer b) key iv out aad.
Proof.
  intros Ha Hk Hiv Haad (-> & (vi & Hvi & ->) & _ & Had). split_and!.
  - by rewrite (proj1 (contents_alloc _ _ _ _ _ Ha Hk)).
  - exists vi. rewrite (aes_bytes_alloc _ _ _ _ _ Ha Hiv). split; [done|].
    by rewrite (proj1 (contents_alloc _ _ _ _ _ Ha (aes_bytes_old _ _ _ Hiv Hvi))).
  - exists (whole st' b). split; [done|]. by rewrite (proj1 (contents_new _ _ _ _ Ha)).
  - destruct (alg_val a a_additionalData) eqn:Ev; try done;
      (destruct Had as (v' & Hv' & ->); exists v'; rewrite (aes_bytes_alloc _ _ _ _ _ Ha Haad); split; [done|];
       by rewrite (proj1 (contents_alloc _ _ _ _ _ Ha (aes_bytes_old _ _ _ Haad Hv')))).
Qed.

(** C22: [decrypt] undoes [encrypt] and opens nothing else: with the key, iv and
    additional data of the encryption it gives the bytes that were encrypted, in a new
    buffer; and whatever it gives a buffer for is what [encrypt] makes of those bytes. *)
Theorem decrypt_undoes_encrypt st a k data c st' :
  old_view st (keyData k) -> old_val st (alg_val a a_iv) -> old_val st (alg_val a a_additionalData) ->
  (encrypt show st a k data = (Resolved (AValue c), st') ->
   exists d st'' v, decrypt show st' a k c = (Resolved (AValue (VBuffer d)), st'') /\
     aes_bytes st data = Some v /\ heap st'' !! d = Some (contents st v)) /\
  (decrypt show st a k data = (Resolved (AValue c), st') ->
   exists e st'' v, encrypt show st' a k c = (Resolved (AValue (VBuffer e)), st'') /\
     aes_bytes st data = Some v /\ heap st'' !! e = Some (contents st v)).
Proof.
  intros Hk Hiv Haad.
  assert (forall op op' f f', asks op f -> asks op' f' ->
    (forall key iv aad text out, f key iv aad text = Some out -> f' key iv aad out = Some text) ->
    gcm_op op st a k data = (Resolved (AValue c), st') ->
    exists d st'' v, gcm_op op' st' a k c = (Resolved (AValue (VBuffer d)), st'') /\
      aes_bytes st data = Some v /\ heap st'' !! d = Some (contents st v)) as Hgen.
  { intros op op' f f' Ho Ho' Hff H. apply (gcm_op_resolves op f) in H as (key & iv & text & aad & out & b & Hi & Hr & Hf & -> & Ha); [|done].
    pose proof (gcm_input_after _ _ _ _ _ _ _ _ _ _ _ Ha Hk Hiv Haad Hi) as Hi'.
    destruct Hi as (_ & _ & (v & Hv & ->) & _).
    destruct (alloc st' (contents st v)) as [d st''] eqn:Ha'. exists d, st'', v.
    split_and!; [|done|by eapply contents_new].
    apply (gcm_op_resolves op' f'); [done|]. exists key, iv, out, aad, (contents st v), d. split_and!; auto. }
  split; eapply Hgen; try apply seal_asks; try apply open_asks; intros *; apply gcm_law.
Qed.

(** ** Random values *)

Lemma write_length old bytes at_ : (at_ + length bytes <= length old)%nat -> length (write old bytes at_) = length old.
Proof. intros Hl. unfold write. rewrite !length_app, length_take, length_drop. lia. Qed.

Lemma write_inside old bytes at_ :
  (at_ + length bytes <= length old)%nat -> take (length bytes) (drop at_ (write old bytes at_)) = bytes.
Proof.
  intros Hl. unfold write. rewrite drop_app_length' by (rewrite length_take; lia). by rewrite take_app_length.
Qed.

Lemma write_outside old bytes at_ i :
  (at_ + length bytes <= length old)%nat -> (i < at_ \/ at_ + length bytes <= i)%nat -> write old bytes at_ !! i = old !! i.
Proof.
  intros Hl [Hi|Hi]; unfold write.
  - rewrite lookup_app_l by (rewrite length_take; lia). by apply lookup_take_lt.
  - rewrite lookup_app_r by (rewrite length_take; lia). rewrite length_take.
    rewrite lookup_app_r by lia. rewrite lookup_drop. f_equal. lia.
Qed.

(** The bytes of a buffer; a detached one has none. *)
Definition bytes_at (st : State) (b : nat) : list Z := default [] (heap st !! b).

(** [getRandomValues] writes random bytes to every byte of the view it is given and
    to no other byte of any buffer, never more than 65536, and changes no buffer when it
    throws; it never leaves a view with bytes that are not random. A view lies within
    its buffer. *)
Theorem random_bytes_stay_in_view st v r st' :
  (forall view, integer_view v = Some view ->
     heap st !! buffer view = None \/ (offset view + byte_length view <= length (bytes_at st (buffer view)))%nat) ->
  get_random_values st v = (r, st') ->
  match r with
  | inr _ => heap st' = heap st
  | inl x =>
      x = v /\ exists view bytes, integer_view v = Some view /\ (byte_length view <= RANDOM_VALUES_QUOTA)%nat /\
        fill (seed st) (byte_length view) = Some bytes /\
        (is_Some (heap st !! buffer view) -> contents st' view = bytes) /\
        (forall b, length (bytes_at st' b) = length (bytes_at st b)) /\
        forall b i, b <> buffer view \/ (i < offset view)%nat \/ (offset view + byte_length view <= i)%nat ->
          bytes_at st' b !! i = bytes_at st b !! i
  end.
Proof.
  intros Hin. unfold get_random_values. destruct (integer_view v) as [view|] eqn:Hv; [|by intros [= <- <-]].
  destruct (Nat.ltb_spec RANDOM_VALUES_QUOTA (byte_length view)) as [|Hq]; [by intros [= <- <-]|].
  destruct (fill (seed st) (byte_length view)) as [bytes|] eqn:Hf; [|by intros [= <- <-]].
  pose proof (fill_law _ _ _ Hf) as Hlen. destruct (Hin view eq_refl) as [Hnone|Hle].
  { rewrite Hnone. intros [= <- <-]. split; [done|]. exists view, bytes. rewrite Hnone. split_and!; try done. }
  destruct (heap st !! buffer view) as [old|] eqn:Hold; intros [= <- <-]; (split; [done|]); exists view, bytes.
  2: { rewrite Hold. split_and!; try done. }
  unfold bytes_at in *. rewrite Hold in Hle. simpl in Hle. rewrite <-Hlen in Hle. split_and!; try done.
  - intros _. unfold contents. simpl. rewrite lookup_insert_eq. simpl. rewrite <-Hlen. by apply write_inside.
  - intros b. simpl. destruct (decide (b = buffer view)) as [->|Hne].
    + rewrite lookup_insert_eq, Hold. simpl. by apply write_length.
    + by rewrite lookup_insert_ne.
  - intros b i Hout. simpl. destruct (decide (b = buffer view)) as [->|Hne].
    + rewrite lookup_insert_eq, Hold. simpl. apply write_outside; [done|]. destruct Hout as [?|?]; [done|]. by rewrite Hlen.
    + by rewrite lookup_insert_ne.
Qed.

(** ** One dispatch *)

Definition nobody {A} : State -> A -> Outcome := fun st _ => reject st "".

(** The functions by the name of their algorithm; a name that is not there goes to
    HMAC, which rejects it. *)
Definition import_table : list (string * (State -> Import -> Outcome)) :=
  [("HMAC"%string, hmac_import); ("ECDSA"%string, ecdsa_import nobody); (RSA, rsa_import nobody);
   ("PBKDF2"%string, pbkdf2_import nobody); ("AES-GCM"%string, aes_import nobody)].

Fixpoint find_name {A} (n : option string) (l : list (string * A)) (d : A) : A :=
  match l with
  | [] => d
  | (s, a) :: l => if is_name n s then a else find_name n l d
  end.

Definition sign_table : list (string * SignFn) :=
  [("HMAC"%string, hmac_subtle_sign text_of); ("ECDSA"%string, ecdsa_sign (fun st _ _ _ => reject st ""));
   (RSA, rsa_subtle_sign text_of (fun st _ _ _ => reject st ""))].

Definition verify_table : list (string * VerifyFn) :=
  [("HMAC"%string, hmac_subtle_verify text_of); ("ECDSA"%string, ecdsa_verify (fun st _ _ _ _ => reject st ""));
   (RSA, rsa_subtle_verify text_of (fun st _ _ _ _ => reject st ""))].

(** Which of the names it is. *)
Ltac by_name n Hn :=
  cbn [find_name]; destruct n as [n|]; [rewrite ?eqb_name|done];
  repeat match goal with
  | |- context [String.eqb n ?s] =>
      destruct (String.eqb_spec n s) as [->|?]; [cbv beta iota; rewrite ?Hn; done|]
  end; done.

(** The layers of [crypto.subtle], each over the one before, act as one function that
    looks the algorithm up by its name: no layer shadows another. *)
Theorem layers_are_one_dispatch st :
  (forall x n, alg_name (algorithm x) = Some n ->
     importKey st x = find_name n import_table hmac_import st x) /\
  (forall a n k data, alg_name a = Some n ->
     sign st a k data = find_name n sign_table (hmac_subtle_sign text_of) st a k data) /\
  (forall a n k sig data, alg_name a = Some n ->
     verify st a k sig data = find_name n verify_table (hmac_subtle_verify text_of) st a k sig data).
Proof.
  split_and!.
  - intros x n Hn. unfold importKey, import_table, aes_import, pbkdf2_import, rsa_import, ecdsa_import.
    rewrite Hn. by_name n Hn.
  - intros a n k data Hn. unfold Crypto.sign, sign_table, rsa_subtle_sign, ecdsa_sign. rewrite Hn. by_name n Hn.
  - intros a n k sig data Hn. unfold Crypto.verify, verify_table, rsa_subtle_verify, ecdsa_verify. rewrite Hn. by_name n Hn.
Qed.

End Ring.

(** ** Concrete keys *)

Open Scope nat_scope.

(** A ring whose tags, signatures and ciphertexts show what they were made of. *)
#[local] Instance demo_ring : Ring := {|
  digest := fun _ d => d;
  hmac_sign := fun _ k d => k ++ d;
  hmac_verify := fun _ k d t => bool_decide (t = k ++ d);
  ec_generate := fun s => Some [Z.of_nat s];
  ec_public := fun p => Some (7%Z :: p);
  ec_sign := fun _ p d => Some (7%Z :: p ++ d);
  ec_verify := fun p d s => bool_decide (s = p ++ d);
  rsa_public := fun p => Some (8%Z :: p);
  rsa_sign := fun _ p d => Some (8%Z :: p ++ d);
  rsa_verify := fun _ p d s => bool_decide (s = p ++ d);
  pbkdf2_derive := fun _ _ salt p n => take (Z.to_nat n) (salt ++ p);
  gcm_seal := fun k n a d => Some ((k ++ n ++ a) ++ d);
  gcm_open := fun k n a c => let p := k ++ n ++ a in
    if bool_decide (take (length p) c = p) then Some (drop (length p) c) else None;
  fill := fun s n => Some (replicate n (Z.of_nat s))
|}.

#[local] Instance demo_laws : RingLaws demo_ring.
Proof.
  split; simpl.
  - intros. by rewrite bool_decide_eq_true.
  - intros ? ? ? ? ? [= <-] [= <-]. by apply bool_decide_eq_true.
  - intros ? ? ? ? ? [= <-] [= <-]. by apply bool_decide_eq_true.
  - intros k n a d c. split.
    + intros [= <-]. rewrite take_app_length, drop_app_length. by rewrite bool_decide_eq_true_2.
    + case_bool_decide as E; [|done]. intros [= <-]. f_equal. rewrite <-E at 1. apply take_drop.
  - intros s n b [= <-]. apply length_replicate.
Qed.

Definition no_text (_ : Val) : string := "".
Definition no_show (_ : nat) : string := "".

(** A buffer of 16 bytes, an iv of 12 and some data. *)
Definition demo_state : State :=
  mkState (<[0 := replicate 16 1%Z]> (<[1 := replicate 12 2%Z]> (<[2 := [3; 4; 5]%Z]> ∅))) 3 ∅ 1 0.

Definition no_object : AlgorithmObject :=
  mkAlgorithm None None None None VUndefined VUndefined None VUndefined None.

Definition demo_gcm : Algorithm :=
  AObject (mkAlgorithm (Some "AES-GCM"%string) None None None (VBuffer 1) VUndefined None VUndefined None).

Definition aes_key : CryptoKey := mkKey Secret true "AES-GCM" None [] (mkView 0 0 16) None.
Definition rsa_private : CryptoKey := mkKey Private false RSA (Some (Some "SHA-256"%string)) ["sign"%string] (mkView 2 1 2) None.
Definition rsa_state : State := mkState (<[3 := [8; 4; 5]%Z]> (heap demo_state)) 4 ∅ 1 0.
Definition rsa_pub : CryptoKey := mkKey Public true RSA (Some (Some "SHA-256"%string)) ["verify"%string] (mkView 3 0 3) None.

Lemma signatures_verify_witness :
  exists b st', Crypto.sign no_text rsa_state (AString RSA) rsa_private (VBuffer 1) = (Resolved (AValue (VBuffer b)), st') /\
    Crypto.verify no_text st' (AString RSA) rsa_pub (VBuffer b) (VBuffer 1) = (Resolved (AValue (VBool true)), st').
Proof.
  eexists _, _. split; [reflexivity|].
  eapply (signatures_verify no_text rsa_state (AString RSA) RSA rsa_private rsa_pub (VBuffer 1));
    [done|simpl; lia|unfold old_view; simpl; lia|unfold old_view; simpl; lia|by repeat split|reflexivity].
Defined.

(** With the public key as an HMAC key, the tag needs no private key. *)
Lemma hmac_takes_any_key_witness :
  let st := mkState (<[9 := [8; 4; 5; 3; 4; 5]%Z]> (heap rsa_state)) 10 ∅ 1 0 in
  exists b, Crypto.verify no_text st (AString "HMAC") rsa_pub (VBuffer 9) (VBuffer 2) = (Resolved (AValue (VBool b)), st) /\
    b = true.
Proof.
  intros st.
  destruct (hmac_takes_any_key no_text st rsa_pub (VBuffer 9) (VBuffer 2) (whole st 9) (whole st 2) SHA256 "SHA-256")
    as (b & Hb & Hiff); [done..|]. exists b. split; [exact Hb|]. by apply Hiff.
Defined.

Lemma decrypt_undoes_encrypt_witness :
  exists c st' d st'', encrypt no_show demo_state demo_gcm aes_key (VBuffer 2) = (Resolved (AValue c), st') /\
    decrypt no_show st' demo_gcm aes_key c = (Resolved (AValue (VBuffer d)), st'') /\ heap st'' !! d = Some [3; 4; 5]%Z.
Proof.
  destruct (encrypt no_show demo_state demo_gcm aes_key (VBuffer 2)) as [[[c| |]| |] st'] eqn:E;
    try (by vm_compute in E).
  destruct (decrypt_undoes_encrypt no_show demo_state demo_gcm aes_key (VBuffer 2) c st') as [H _];
    [unfold old_view; simpl; lia|simpl; lia|done|].
  destruct (H E) as (d & st'' & v & Hd & Hv & Hh). exists c, st', d, st''. split_and!; [done|exact Hd|].
  rewrite Hh. injection Hv as <-. by vm_compute.
Defined.

(** A view of two bytes in the middle of a buffer of three. *)
Lemma random_bytes_stay_in_view_witness :
  let v := VUint8 (mkView 2 1 1) in
  exists st', get_random_values (stir demo_state) v = (inl v, st') /\ bytes_at st' 2 = [3; 1; 5]%Z /\
    bytes_at st' 2 !! 2%nat = bytes_at (stir demo_state) 2 !! 2%nat.
Proof.
  intros v. destruct (get_random_values (stir demo_state) v) as [r st'] eqn:E.
  pose proof (random_bytes_stay_in_view (stir demo_state) v r st') as H.
  assert (r = inl v /\ bytes_at st' 2 = [3; 1; 5]%Z) as [-> Hb] by (clear -E; vm_compute in E; simplify_eq; done).
  exists st'. split; [done|]. split; [done|].
  destruct H as (_ & view & bytes & Hv & _ & _ & _ & _ & Hout); [|done|].
  - intros view [= <-]. right. vm_compute. lia.
  - injection Hv as <-. apply Hout. right. right. simpl. lia.
Defined.

(** ** What the guest can do to a key *)

(** A key is a view of the bytes it was imported from: random values written to the
    array afterwards are the key. *)
Example key_follows_its_buffer :
  let array := VUint8 (mkView 0 0 16) in
  let x := mkImport "raw" array (AString "HMAC") false (Some ["sign"%string]) in
  match importKey (stir (stir demo_state)) x with
  | (Resolved (AKey k), st) =>
      contents st (keyData k) = replicate 16 1%Z /\
      contents (snd (get_random_values st array)) (keyData k) = replicate 16 2%Z
  | _ => False
  end.
Proof. by vm_compute. Qed.

(** HMAC keys stay in a map that nothing reads: two imports of one key, two entries. *)
Example hmac_keys_stay :
  let x := mkImport "raw" (VBuffer 0) (AString "HMAC") false (Some []) in
  size (keys (snd (importKey (snd (importKey demo_state x)) x))) = 2.
Proof. by vm_compute. Qed.

(** Any length is derived: 2^63 bits are 2^60 bytes. *)
Example any_length_is_derived :
  match derivation no_text demo_state [VString "sha-256"; VUint8 (mkView 0 0 16); VUint8 (mkView 1 0 12);
          VNumber (Finite 1 1); VNumber (Finite (2 ^ 63) 1)] with
  | Ok d => d_length_bytes d = (2 ^ 60)%Z
  | Err _ => False
  end.
Proof. by vm_compute. Qed.

(** A name of AES-GCM that is a string has a length, which is no key length. *)
Example aes_by_name_is_refused :
  fst (generateKey demo_state (AString "AES-GCM") true (Some [])) =
  Rejected (PlainError "AES-GCM supports 128 and 256 bit keys").
Proof. by vm_compute. Qed.

(** An algorithm that is missing throws before there is a promise. *)
Example missing_algorithm_throws :
  fst (importKey demo_state (mkImport "raw" (VBuffer 0) ANone true (Some []))) = Threw NO_PROPERTY.
Proof. by vm_compute. Qed.

End CryptoCorrect.
