(* ===== verification/SourceTests.v ===== *)
(** * The unit tests of the sources

    The tests beside stream_manager.rs, async_waiter.rs, pool.rs and gc/ run on the model: the
    same calls in the same order, and [None] where an assertion fails, an [unwrap] panics or an
    await would hang. What a test makes up and never compares (an address, the bytes of a chunk,
    an instant) is a variable, so that each holds of more than the one run of the test. Where a
    test only says in a comment what it expects, the test here asserts it. *)

From stdpp Require Import base list gmap strings.
From Stdlib Require Import ZArith Lia.
From S2P Require Import Prelude PoolPolicy Concurrency Pool AsyncWaiter Streams Gc Traceable.

Module SourceTests.

(** [assert!], and [assert_eq!] on what has decidable equality. *)
Definition check (b : bool) : option unit := if b then Some tt else None.
Definition check_eq {A} `{EqDecision A} (x y : A) : option unit := check (bool_decide (x = y)).

Definition passes (t : option unit) : bool := match t with Some _ => true | None => false end.

Lemma check_eq_refl {A} `{EqDecision A} (x : A) : check_eq x x = Some tt.
Proof. unfold check_eq. by rewrite bool_decide_true. Qed.

(** ** Streams *)

Section StreamTests.
Import Streams.

(** The tests hold no end of a channel themselves: what lives is in the table. *)
Definition live (m : gmap StreamId nat) (h : nat) : bool := bool_decide (h ∈ (map_to_list m).*2).

(** [write_chunk] awaited alone: a pending poll would never end. *)
Definition write_chunk (m : StreamManager) (id : StreamId) (c : StreamChunk) : option StreamManager :=
  h ← senders m !! id;
  match poll_write (live (receivers m)) m 0 id h c with
  | (Some (Ok _), m) => Some m
  | _ => None
  end.

Definition try_write (m : StreamManager) (id : StreamId) (c : StreamChunk)
  : result unit WriteError * StreamManager := try_write_chunk (live (receivers m)) m 0 id c.

Definition try_write_unwrap (m : StreamManager) (id : StreamId) (c : StreamChunk)
  : option StreamManager := match try_write m id c with (Ok _, m) => Some m | _ => None end.

(** [read_chunk] awaited alone, unwrapped. *)
Definition read_chunk (m : StreamManager) (id : StreamId) : option (StreamChunk * StreamManager) :=
  match take_receiver m id with
  | (Some h, m) =>
      match poll_read (live (senders m)) m id h with
      | (Some (Some c), m) => Some (c, m)
      | _ => None
      end
  | (None, _) => None
  end.

Definition is_data (c : StreamChunk) : bool := match c with Data _ => true | _ => false end.
Definition is_done (c : StreamChunk) : bool := match c with Done => true | _ => false end.
Definition data (c : StreamChunk) : option (list Z) := match c with Data b => Some b | _ => None end.

Definition test_stream_manager_create (url : string) (test : list Z) : option unit :=
  let (id, m) := create_stream new 0 url in
  _ ← check_eq id 1%Z;
  _ ← check_eq (active_count m) 1;
  m ← write_chunk m id (Data test);
  '(chunk, _) ← read_chunk m id;
  check_eq (data chunk) (Some test).

Definition test_stream_manager_multiple_chunks (url : string) (b1 b2 : list Z) : option unit :=
  let (id, m) := create_stream new 0 url in
  m ← write_chunk m id (Data b1);
  m ← write_chunk m id (Data b2);
  m ← write_chunk m id Done;
  '(chunk1, m) ← read_chunk m id;
  '(chunk2, m) ← read_chunk m id;
  '(done, _) ← read_chunk m id;
  _ ← check_eq (data chunk1) (Some b1);
  _ ← check_eq (data chunk2) (Some b2);
  check (is_done done).

Definition test_stream_manager_close (url : string) : option unit :=
  let (id, m) := create_stream new 0 url in
  _ ← check_eq (active_count m) 1;
  check_eq (active_count (close_stream m id)) 0.

Definition test_stream_info (url : string) : option unit :=
  let (id, m) := create_stream new 0 url in
  check_eq (get_stream_info m id) (Some url).

(** The error that mentions backpressure is [BufferFull]. *)
Definition test_backpressure (url : string) (b1 b2 b3 : list Z) : option unit :=
  let (id, m) := create_stream (with_high_water_mark 2) 0 url in
  m ← write_chunk m id (Data b1);
  m ← write_chunk m id (Data b2);
  let (result, m) := try_write m id (Data b3) in
  _ ← check (match result with Err BufferFull => true | _ => false end);
  '(_, m) ← read_chunk m id;
  check (match fst (try_write m id (Data b3)) with Ok _ => true | _ => false end).

Definition test_stream_ends_on_a_full_buffer (url : string) (b1 b2 b3 : list Z) : option unit :=
  let (id, m) := create_stream (with_high_water_mark 2) 0 url in
  m ← try_write_unwrap m id (Data b1);
  m ← try_write_unwrap m id (Data b2);
  let (result, m) := try_write m id (Data b3) in
  _ ← check (match result with Err _ => true | _ => false end);
  m ← try_write_unwrap m id Done;
  '(chunk1, m) ← read_chunk m id;
  _ ← check (is_data chunk1);
  '(chunk2, m) ← read_chunk m id;
  _ ← check (is_data chunk2);
  '(chunk3, _) ← read_chunk m id;
  check (is_done chunk3).

Definition test_stream_errors_on_a_full_buffer (url : string) (b1 : list Z) (boom : string) : option unit :=
  let (id, m) := create_stream (with_high_water_mark 1) 0 url in
  m ← try_write_unwrap m id (Data b1);
  m ← try_write_unwrap m id (Error boom);
  '(chunk, m) ← read_chunk m id;
  _ ← check (is_data chunk);
  '(chunk, _) ← read_chunk m id;
  match chunk with Error message => check_eq message boom | _ => None end.

Definition stream_tests (url boom : string) (b1 b2 b3 : list Z) : list (option unit) :=
  [test_stream_manager_create url b1; test_stream_manager_multiple_chunks url b1 b2;
   test_stream_manager_close url; test_stream_info url; test_backpressure url b1 b2 b3;
   test_stream_ends_on_a_full_buffer url b1 b2 b3; test_stream_errors_on_a_full_buffer url b1 boom].

End StreamTests.

(** ** The turn queue *)

Section WaiterTests.
Import Waiter.

(** [cx] names the waker of the test. *)
Definition test_lock_unlock_basic (cx : nat) : option unit :=
  let w := new in
  _ ← check (is_free w);
  _ ← check_eq (queue_len w) 0;
  let (got, w) := try_lock w cx in
  _ ← check got;
  _ ← check (negb (is_free w));
  let (got, w) := try_lock w cx in
  _ ← check (negb got);
  _ ← check_eq (queue_len w) 1;
  let (got, w) := try_lock w cx in
  _ ← check (negb got);
  _ ← check_eq (queue_len w) 2;
  let (_, w) := unlock w in
  _ ← check (is_free w);
  _ ← check_eq (queue_len w) 1;
  let (got, w) := try_lock w cx in
  _ ← check got;
  check (negb (is_free w)).

(** The waiters of the loop of the test, turned away in this order. *)
Fixpoint enqueue_waiters (w : AsyncWaiter) (ids : list nat) : option AsyncWaiter :=
  match ids with
  | [] => Some w
  | i :: ids => let (got, w) := try_lock w i in _ ← check (negb got); enqueue_waiters w ids
  end.

Definition test_fifo_ordering (cx : nat) : option unit :=
  let (got, w) := try_lock new cx in
  _ ← check got;
  w ← enqueue_waiters w [0; 1; 2];
  _ ← check_eq (queue_len w) 3;
  let (w1, w) := unlock w in
  let (w2, w) := unlock w in
  let (w3, w) := unlock w in
  check_eq (option_list w1 ++ option_list w2 ++ option_list w3) [0; 1; 2].

Definition test_compare_exchange_prevents_double_lock (cx : nat) : option unit :=
  let (got, w) := try_lock new cx in
  _ ← check got;
  _ ← check (locked w);
  let (got, w) := try_lock w cx in
  _ ← check (negb got);
  check (locked w).

Definition waiter_tests (cx : nat) : list (option unit) :=
  [test_lock_unlock_basic cx; test_fifo_ordering cx; test_compare_exchange_prevents_double_lock cx].

End WaiterTests.

(** ** The pool *)

Section PoolTests.
Import Pool.

(** [ensure_test_config] *)
Definition test_config : PinnedPoolConfig := mkPoolConfig 10 None 1 5 true 1000.

Definition isolate_acquire (t : TaggedIsolate) : bool * TaggedIsolate :=
  let (got, c) := Slots.try_acquire (concurrency t) in (got, with_concurrency t c).
Definition isolate_release (t : TaggedIsolate) : TaggedIsolate :=
  with_concurrency t (Slots.release (concurrency t)).
Definition isolate_is_free (t : TaggedIsolate) : bool := Slots.is_free (concurrency t).

(** [pool.isolates[i].release()], which panics out of range. *)
Definition release_at (p : ThreadLocalPool) (i : nat) : option ThreadLocalPool :=
  t ← isolates p !! i; Some (set_isolates p (update (iid t) isolate_release (isolates p))).

(** [acquire] where the test expects it to go through: the pool and whether it was a hit. *)
Definition acquired (p : ThreadLocalPool) (o : string) (now : Z) : option (ThreadLocalPool * bool) :=
  r ← acquire test_config p o now;
  match r with Ok (p, _, hit) => Some (p, hit) | Err _ => None end.

(** [acquire] where the test expects a refusal. *)
Definition refused (p : ThreadLocalPool) (o : string) (now : Z) : option Policy.Refusal :=
  r ← acquire test_config p o now; match r with Ok _ => None | Err e => Some e end.

Definition owners (p : ThreadLocalPool) : list string := owner_id <$> isolates p.
Definition contains (p : ThreadLocalPool) (o : string) : bool := bool_decide (o ∈ owners p).

(** [TaggedIsolate::new] of the tests, with [max_concurrent] and ten cached contexts. *)
Definition test_isolate (max_concurrent now : Z) : TaggedIsolate :=
  isolate_new 0 "test_owner" (mkPoolConfig 10 None max_concurrent 10 true 1000) now.

Definition test_tagged_isolate_acquire_release (now : Z) : option unit :=
  let t := test_isolate 1 now in
  _ ← check (isolate_is_free t);
  let (got, t) := isolate_acquire t in
  _ ← check got;
  _ ← check (negb (isolate_is_free t));
  let (got, t) := isolate_acquire t in
  _ ← check (negb got);
  let t := isolate_release t in
  _ ← check (isolate_is_free t);
  check (fst (isolate_acquire t)).

Definition test_tagged_isolate_multiplexing (now : Z) : option unit :=
  let t := test_isolate 3 now in
  let (got1, t) := isolate_acquire t in
  let (got2, t) := isolate_acquire t in
  let (got3, t) := isolate_acquire t in
  _ ← check (got1 && got2 && got3);
  _ ← check (negb (isolate_is_free t));
  let (got, t) := isolate_acquire t in
  _ ← check (negb got);
  let t := isolate_release t in
  let (got, t) := isolate_acquire t in
  _ ← check got;
  let t := isolate_release (isolate_release (isolate_release t)) in
  check (isolate_is_free t).

(** Three calls of [acquire], at [t1], [t2] and [t3]. *)
Definition test_pool_lru_eviction (t1 t2 t3 : Z) : option unit :=
  '(p, hit) ← acquired (pool_new (Policy.mkLimits 2 None true)) "owner_a" t1;
  _ ← check (negb hit);
  '(p, hit) ← acquired p "owner_b" t2;
  _ ← check (negb hit);
  _ ← check_eq (length (isolates p)) 2;
  p ← release_at p 0;
  p ← release_at p 1;
  '(p, hit) ← acquired p "owner_c" t3;
  _ ← check (negb hit);
  _ ← check_eq (length (isolates p)) 2;
  _ ← check (contains p "owner_b");
  _ ← check (contains p "owner_c");
  check (negb (contains p "owner_a")).

Definition test_pool_overcommit_when_all_in_use (t1 t2 t3 : Z) : option unit :=
  '(p, _) ← acquired (pool_new (Policy.mkLimits 2 None true)) "owner_a" t1;
  '(p, _) ← acquired p "owner_b" t2;
  _ ← check_eq (length (isolates p)) 2;
  '(p, _) ← acquired p "owner_c" t3;
  check_eq (length (isolates p)) 3.

Definition test_pool_refuses_when_full_without_overcommit (t1 t2 t3 : Z) : option unit :=
  '(p, _) ← acquired (pool_new (Policy.mkLimits 1 None false)) "owner_a" t1;
  why ← refused p "owner_b" t2;
  _ ← check (match why with Policy.PoolFull => true | _ => false end);
  _ ← check_eq (length (isolates p)) 1;
  p ← release_at p 0;
  '(p, _) ← acquired p "owner_b" t3;
  check_eq (length (isolates p)) 1.

Definition test_pool_owner_limit (t1 t2 t3 : Z) : option unit :=
  '(p, _) ← acquired (pool_new (Policy.mkLimits 10 (Some 1) true)) "owner_a" t1;
  why ← refused p "owner_a" t2;
  _ ← check (match why with Policy.OwnerAtLimit => true | _ => false end);
  '(_, _) ← acquired p "owner_b" t3;
  Some tt.

Definition test_pool_cache_hit_on_reacquire (t1 t2 : Z) : option unit :=
  '(p, hit) ← acquired (pool_new (Policy.mkLimits 10 None true)) "owner_a" t1;
  _ ← check (negb hit);
  p ← release_at p 0;
  '(_, hit) ← acquired p "owner_a" t2;
  check hit.

Definition test_pool_stats (t1 t2 : Z) : option unit :=
  let p := pool_new (Policy.mkLimits 5 None true) in
  let s := stats p in
  _ ← check_eq (total s, in_use s, capacity s) (0, 0, 5);
  '(p, _) ← acquired p "owner_a" t1;
  '(p, _) ← acquired p "owner_b" t2;
  let s := stats p in
  _ ← check_eq (total s, in_use s) (2, 2);
  p ← release_at p 0;
  let s := stats p in
  check_eq (total s, in_use s) (2, 1).

Definition pool_tests (t1 t2 t3 : Z) : list (option unit) :=
  [test_tagged_isolate_acquire_release t1; test_tagged_isolate_multiplexing t1;
   test_pool_overcommit_when_all_in_use t1 t2 t3;
   test_pool_refuses_when_full_without_overcommit t1 t2 t3; test_pool_owner_limit t1 t2 t3;
   test_pool_cache_hit_on_reacquire t1 t2; test_pool_stats t1 t2].

(** The one test whose answer goes by the instants, first built first and in one instant. *)
Definition lru_tests : list (option unit) :=
  [test_pool_lru_eviction 0 2 4; test_pool_lru_eviction 1 1 1].

End PoolTests.

(** ** External memory *)

Section GcTests.
Import Gc Traceable.
Open Scope Z_scope.

Definition tracked_attr : list Attr := [mkAttr "gc" ["track"%string]].

(** [TestBuffer] and [EmptyStruct]: the attributes of their fields. *)
Definition TestBuffer : Data := Struct [tracked_attr; tracked_attr; [mkAttr "allow" ["dead_code"%string]]].
Definition EmptyStruct : Data := Struct [[mkAttr "allow" ["dead_code"%string]]].

(** The size the derived implementation gives for fields of these sizes. *)
Definition derived (d : Data) (sizes : list Z) : option Z :=
  match derive_gc_traceable d with Ok body => Some (derived_size sizes body) | Err _ => None end.

Definition test_derive_gc_traceable : option unit :=
  size ← derived TestBuffer
           [external_memory_size (mkBuffer 1000); external_memory_size (mkBuffer 100); 0];
  check_eq size 1100.

Definition test_derive_gc_traceable_no_tracked_fields : option unit :=
  size ← derived EmptyStruct [0]; check_eq size 0.

Definition test_gc_traceable_vec : option unit := check_eq (external_memory_size (mkBuffer 1000)) 1000.

(** A push that fits leaves the capacity. *)
Definition test_gc_traceable_string : option unit := check_eq (external_memory_size (mkBuffer 500)) 500.

Definition test_gc_traceable_option : option unit :=
  _ ← check_eq (external_memory_size (Some (mkBuffer 100))) 100;
  check_eq (external_memory_size (@None Buffer)) 0.

Definition test_gc_traceable_nested_vec : option unit :=
  let v := mkVec [mkBuffer 100; mkBuffer 200; mkBuffer 300] 3 in
  let base := vec_capacity v * size_of (T := Buffer) in
  check_eq (external_memory_size v) (base + (100 + 200 + 300)).

(** The test runs on one thread; guards and locks are named by their place. *)
Definition amount_of (w : World) (k : nat) : option Z := amount <$> guards w !! k.

Definition test_external_memory_guard_basic (t : Thread) : option unit :=
  let w := guard_new initial t 1000 in
  _ ← check_eq (amount_of w 0) (Some 1000);
  _ ← guard_drop w t 0;
  Some tt.

Definition test_external_memory_guard_adjust (t : Thread) : option unit :=
  let w := guard_new initial t 100 in
  _ ← check_eq (amount_of w 0) (Some 100);
  w ← adjust w t 0 50;
  _ ← check_eq (amount_of w 0) (Some 150);
  w ← adjust w t 0 (-30);
  check_eq (amount_of w 0) (Some 120).

Definition test_external_memory_guard_set (t : Thread) : option unit :=
  w ← set_amount (guard_new initial t 100) t 0 500;
  check_eq (amount_of w 0) (Some 500).

Definition test_tracked_wrapper (t : Thread) : option unit :=
  let (tracked, _) := tracked_new initial t (mkBuffer 256) in
  check_eq (Traceable.capacity (value tracked)) 256.

(** [reserve_exact] on an empty vector of this capacity. *)
Definition reserve_exact (n : Z) (b : Buffer) : Buffer := mkBuffer (Z.max (Traceable.capacity b) n).

Definition test_tracked_update_size (t : Thread) : option unit :=
  let (tracked, w) := tracked_new initial t (mkBuffer 100) in
  let initial_capacity := Traceable.capacity (value tracked) in
  let tracked := get_mut tracked (reserve_exact 1000) in
  w ← update_size w t tracked;
  _ ← check_eq (amount_of w (guard tracked)) (Some 1000);
  check (initial_capacity <? Traceable.capacity (value tracked)).

(** [JsLock::try_current] *)
Definition locked_now (w : World) (t : Thread) : bool := bool_decide (is_Some (current w !! t)).

Definition test_js_lock_current (t : Thread) (i : Isolate) : option unit :=
  _ ← check (negb (locked_now initial t));
  let w := lock_new initial t i in
  _ ← check (locked_now w t);
  w ← lock_drop w 0;
  check (negb (locked_now w t)).

Definition test_external_memory_with_lock (t : Thread) (i : Isolate) : option unit :=
  let w := guard_new (lock_new initial t i) t 1000000 in
  _ ← check_eq (amount_of w 0) (Some 1000000);
  w ← guard_drop w t 0;
  _ ← check_eq (at_ (told w) i) 0;
  _ ← lock_drop w 0;
  Some tt.

Definition test_deferred_adjustment_per_isolate (t : Thread) (i : Isolate) : option unit :=
  w ← lock_drop (lock_new initial t i) 0;
  w ← lock_drop (guard_new (lock_new w t i) t 500000) 1;
  w ← guard_drop w t 0;
  _ ← check_eq (at_ (pending w) i) (-500000);
  let w := lock_new w t i in
  _ ← check_eq (at_ (pending w) i) 0;
  _ ← lock_drop w 2;
  Some tt.

Definition test_two_isolates_independent_deltas (t : Thread) (a b : Isolate) : option unit :=
  w ← lock_drop (guard_new (lock_new initial t a) t 1000000) 0;
  w ← guard_drop w t 0;
  _ ← check_eq (at_ (pending w) a) (-1000000);
  _ ← check_eq (at_ (pending w) b) 0;
  w ← lock_drop (lock_new w t b) 1;
  _ ← check_eq (at_ (pending w) a) (-1000000);
  w ← lock_drop (lock_new w t a) 2;
  check_eq (at_ (pending w) a) 0.

Definition test_guard_created_without_lock_captures_on_adjust (t : Thread) (i : Isolate) : option unit :=
  let w := guard_new initial t 0 in
  w ← adjust (lock_new w t i) t 0 100000;
  w ← lock_drop w 0;
  w ← guard_drop w t 0;
  check_eq (at_ (pending w) i) (-100000).

Definition gc_tests (t : Thread) (a b : Isolate) : list (option unit) :=
  [test_derive_gc_traceable; test_derive_gc_traceable_no_tracked_fields; test_gc_traceable_vec;
   test_gc_traceable_string; test_gc_traceable_option; test_gc_traceable_nested_vec;
   test_external_memory_guard_basic t; test_external_memory_guard_adjust t;
   test_external_memory_guard_set t; test_tracked_wrapper t; test_tracked_update_size t;
   test_js_lock_current t a; test_external_memory_with_lock t a;
   test_deferred_adjustment_per_isolate t a; test_two_isolates_independent_deltas t a b;
   test_guard_created_without_lock_captures_on_adjust t a].

End GcTests.

(** ** The tests pass *)

#[local] Transparent gmap_empty.

(** Runs a test up to its comparisons, each of a value with itself. *)
Ltac run_test := lazy -[check_eq]; rewrite ?check_eq_refl.

Lemma stream_tests_pass url boom b1 b2 b3 : forallb passes (stream_tests url boom b1 b2 b3) = true.
Proof. run_test. reflexivity. Qed.

Lemma waiter_tests_pass cx : forallb passes (waiter_tests cx) = true.
Proof. reflexivity. Qed.

Lemma pool_tests_pass t1 t2 t3 : forallb passes (pool_tests t1 t2 t3) = true.
Proof. run_test. reflexivity. Qed.

Lemma lru_tests_pass : forallb passes lru_tests = true.
Proof. reflexivity. Qed.

Lemma gc_tests_pass : forallb passes (gc_tests 0 0 1) = true.
Proof. reflexivity. Qed.

(** The unit tests beside the sources of the streams, the turn queue, the pool and the
    external memory pass on the model: each call answers what the test asserts, whatever
    addresses, chunks and instants the test makes up. *)
Theorem source_tests_pass url boom b1 b2 b3 cx t1 t2 t3 :
  forallb passes (stream_tests url boom b1 b2 b3 ++ waiter_tests cx ++ pool_tests t1 t2 t3 ++
                  lru_tests ++ gc_tests 0 0 1) = true.
Proof.
  rewrite !forallb_app.
  by rewrite stream_tests_pass, waiter_tests_pass, pool_tests_pass, lru_tests_pass, gc_tests_pass.
Qed.

End SourceTests.
